(* ===== verification/_CoqProject ===== *)
-Q . S2P
Prelude.v
Walk.v
Rank.v
Machine.v
Float.v
Text.v
Json.v
JourneyArtifact.v
JourneyEval.v
JourneyChecks.v
JourneyDisplay.v
JourneySubflow.v
JourneyCompose.v
JourneyCompile.v
JourneyReplay.v
JourneyTemplate.v
JourneySamples.v
Bytes.v
Der.v
DerTime.v
SigningPolicy.v
Rotation.v
JosePolicy.v
JoseHeader.v
JoseClaims.v
JoseVerify.v
Redirect.v
Authn.v
StepUp.v
OrgPolicy.v
AccessRules.v
AccessCache.v
FetchPolicy.v
FetchTarget.v
Interaction.v
FetchTxt.v
FetchDispatch.v
Quota.v
Layered.v
ScimFilter.v
ScimGrammar.v
ScimPath.v
Totp.v
Ids.v
Envelope.v
FactorStore.v
SecondFactor.v
RecoveryCodes.v
SigningKeys.v
Mint.v
Dpop.v
SenderConstraint.v
Pkce.v
RefreshStore.v
