(* ===== verification/Prelude.v ===== *)
(** * IronAuth: a verification library

    IronAuth is an OpenID Connect and OAuth 2.0 identity provider written in
    Rust, split into crates under src/crates.  This library models the parts of
    it that decide, without input or output, what the server does: the sign-in
    journey engine, the verification and the minting of tokens, proofs of possession and
    the lineage of refresh tokens, the signing policy and the rotation of signing keys, the
    DER reader and writer behind its certificates, the matching of redirect URIs, authentication events and step-up, organization
    policies, the access rules of the forward-auth surface with their cache, the
    guarded outbound client, the two rate limiters, the filters and paths of
    SCIM, and the second factors with their store.  Every definition is a
    translation of a Rust item and keeps its name where Rocq allows it.

    ** The program's parts and where they are modelled

    The journey crate (crates/ironauth-journey) takes a declarative document, a
    graph of steps with guarded transitions, and turns it into the table the
    flow engine routes over.  Its modules call each other in this order, and the
    files follow it:

    - JourneyArtifact: artifact.rs, the document: step kinds with their wire
      names, the predicate grammar, steps, transitions, subflows.
    - JourneyEval: eval.rs, the evaluation context, the predicate evaluator with
      its depth limit, and the load-time type check.
    - JourneyChecks: validate.rs, the structural checks, each returning the
      errors it pushes in document order.
    - JourneyDisplay: the [Display] implementations of the errors, and the
      decision evaluator of a decision step.
    - JourneySubflow: the first half of subflow.rs, the built-in subflows, the
      checks of inline definitions and of references and the reference cycle
      check; and [validate_inner], which runs all the checks.
    - JourneyCompose: the second half of subflow.rs, composition: a journey's
      subflow calls are inlined one by one into a flat journey.
    - JourneyCompile: compile.rs, the lowering of a flat journey to a table, and
      [choose_edge], the routing primitive.
    - JourneyReplay: replay.rs, golden-path transcripts: in-call routing, replay,
      regeneration, the fidelity check.
    - JourneyTemplate: template.rs and shipped.rs, templates and the rule that
      decides which document an environment runs.
    - JourneySamples: concrete documents, and the theorems of the files above
      applied to them.

    The other components are independent of the journey engine:

    - Bytes, Der, DerTime: crates/ironauth-der (lib.rs, the reader, and write.rs,
      the writer): elements, object identifiers, integers, times.
    - SigningPolicy: crates/ironauth-jose policy.rs (the algorithm matrix) and
      signing_policy.rs (the allowlist of an environment).
    - Rotation: crates/ironauth-jose rotation.rs, the key set with its publication,
      activation, retirement and expiry instants.
    - JosePolicy, JoseHeader, JoseClaims, JoseVerify: crates/ironauth-jose
      policy.rs (trusted keys, token profiles, the verification policy), header.rs,
      json.rs, error.rs, claims.rs, verify.rs and crypto.rs: the one path by which a
      token is verified.
    - Redirect: crates/ironauth-store redirect.rs, which redirect URIs may be
      registered and which presented URI matches a registered one.
    - Authn, StepUp: crates/ironauth-oidc authn.rs (methods, events and their
      persisted string) and step_up.rs, with the parts of login.rs and authorize.rs
      it decides over: requirements, their assembly, evaluation and remediation.
    - OrgPolicy: crates/ironauth-store org_policy.rs, the four policy levels, their
      resolution, validation and the aggregate over a subject's organizations.
    - AccessRules, AccessCache: crates/ironauth-oidc rules.rs, the rule language with
      its readings, and the decision cache over the interface [DecisionStore].
    - FetchPolicy, FetchTarget, FetchTxt, FetchDispatch: crates/ironauth-fetch, the
      address classes (policy.rs), URL targets (target.rs), DNS TXT lookups (txt.rs)
      and the dispatcher (lib.rs, connect.rs, resolve.rs, error.rs, observe.rs).
    - Quota, Layered: crates/ironauth-quota lib.rs, token buckets per tenant and
      environment, and layered.rs, the five request-plane layers with their shared
      store.
    - ScimFilter, ScimGrammar, ScimPath: crates/ironauth-scim filter.rs, the filter parser
      and the evaluation of filters, with the grammar as a relation; path.rs and
      patch.rs, the paths of resources and of patch operations.
    - Totp: crates/ironauth-jose totp.rs, time-based one-time passwords and Base32.
    - Ids: crates/ironauth-store id.rs and scope.rs, identifiers that embed their scope;
      crates/ironauth-jose envelope.rs, the contexts sealed columns and blind indexes are
      bound to.
    - Envelope: crates/ironauth-jose envelope.rs, sealed blobs and the three tiers of keys;
      the key tables of migration 0028 with the reads and transactions of repository.rs that
      unwrap, provision, rotate and destroy keys.
    - FactorStore: the TOTP and recovery-code repositories of crates/ironauth-store
      repository.rs over the tables of migration 0045: rows and constraints, the
      sealed columns, reads, transactions, faults, and the ledger of what was consumed.
    - SecondFactor, RecoveryCodes: crates/ironauth-oidc totp.rs, the ceremonies over that
      store as trees of calls, their interleavings, and the life of a batch of recovery
      codes.
    - SigningKeys, Mint: crates/ironauth-jose signing_key.rs, sign.rs, jwks.rs (keys, their
      public halves, the published set), mint.rs and keystore.rs (the one place a token is
      signed).
    - Dpop: crates/ironauth-jose cnf.rs and dpop.rs, confirmations and DPoP proofs.
    - SenderConstraint: crates/ironauth-oidc dpop.rs with the functions of token.rs,
      challenge.rs and state.rs that bind a token, a code or a session to a key, and the
      replay table of migration 0083.
    - Pkce: crates/ironauth-oidc pkce.rs and the bindings of a code in token.rs.
    - RefreshStore: the refresh-token repositories over migration 0016, with the rotation
      policy and the access records of token.rs.

    Eight files are shared: this one (Rust's [Result], the outcome of a call that
    may panic or loop, loops over [enumerate], map insertion loops, automation),
    Walk (the worklist loop of the validator, over any successor function), Rank
    (longest paths of a finite acyclic graph), Machine (bounded integers), Float
    (binary64 numbers on the Standard Library's [spec_float]), Text (the functions
    of [str]), Json (the value type of serde_json) and Interaction (runs of an
    interaction tree against an environment, cut at a deadline).

    ** How the code is represented

    A [Result] is [Result]; [?] is the notation [let?].  A function that pushes
    to a [&mut Vec<JourneyError>] returns the errors it pushes, and its callers
    append them in the code's order.  A [BTreeMap] is a [gmap], a [BTreeSet] a
    [gset], a [Vec] a list; a function that mutates its argument returns the new
    value.  A [String] is a byte string; where the code cuts it up (Text) it
    is a list of characters, and in Der a list of bytes.  A [usize] and a [u64] have 64 bits, with checked
    arithmetic written out; a [SystemTime] is a number of nanoseconds within the
    range of the platform type, and [checked_add], [checked_sub] and
    [saturating_add] are the bounded operations.  An [Instant] is a number of
    nanoseconds, passed to each operation that reads the clock.  An [f64] is a
    Standard Library [spec_float].  A panic is the value [Panicked] (composition,
    DNS messages, quotas, filters) or [None] (the object identifier writer).  A mutex that
    makes an operation atomic is explicit state passing.  The asynchronous exchange of
    the outbound client is an interaction tree whose events are its calls; a
    deadline keeps a prefix of them ([run_prefix]).  The shared path of the layered
    limiter is a reading and a charging phase, between which other nodes run.
    A store transaction is one function on the database that commits or changes
    nothing, and may lose its acknowledgement; a request handler over the store is the
    tree of its calls ([Prog]), and requests interleave between any two calls.  That a
    transaction is atomic is what Postgres gives the guarded single-row updates that
    consume a step or a code; for the transactions of several statements
    ([replace_all], [remove], the rotations of keys) it is an idealisation of READ COMMITTED.  A redemption of a
    refresh token is two steps, its read and the rest, since other transactions commit
    between them.

    The loops that are not structurally recursive take fuel, and the theorems
    show that it is enough:

    - [walk] has one more unit of fuel than the graph has edges: a node pushes
      its successors only once, so the stack sees at most one node per edge and
      the start ([walk_terminates]); [walk_until], which starts from the
      successors of a node, has the edges plus those successors plus two.
    - [compose_loop] has [compose_fuel], one more than the step ceiling times the
      size of the subflow registry.  The potential of a document, the sum over
      its steps of the depth at which the step sits in the acyclic reference
      graph, grows with every inlining and is at most the registry's size times
      the number of steps, which the ceiling bounds ([compose_loop_terminates]).
    - [route_hop] has its own bound in the code, the number of steps plus one;
      [route_hop_bound_suffices] shows that no larger bound settles more.
    - [groups] (the length and base-128 encoders) has as many units as a 64-bit
      integer has groups: 8 groups of eight bits, or 9 of seven bits after the
      first.
    - [decide_remediation] has two units: it calls itself once at most.
    - [emit_groups] (the Base32 encoder) has two units: fewer than five bits are left over,
      and a byte makes two groups of five at most ([emit_groups_spec]).
    - [skip_name] and [read_chunks] have one more unit than the message or the record
      has bytes; [parse_txt_response_total] shows that no message exhausts it.
    - [parse_or] and the other functions of the filter parser have [filter_fuel], eight units
      for each byte and eight more: at most eight calls separate two moves of the
      offset ([parse_settles]).
    - [run_prefix] counts the calls made before a deadline, so every number of steps is
      a run of the code.

    Code outside the repository is a parameter: [SerdeNumber] and [SerdePointer]
    (the accessors of a JSON number and the RFC 6901 lookup of serde_json),
    [SerdePredicate] (the derived decoder of a predicate), [JsonReader] (the JSON
    parser), [Primitives] (the signature checks of ring and the base64 decoder),
    [SecretMaterial] and [from_signing_key] (the secret material of a key and its
    public half), [Base64Url] (the codec of the authentication event), [RegexEngine]
    and [DebugFormat] (the patterns and the [Debug] rendering of access rules),
    [Hasher] and [HashIteration] (the standard hasher and the order of a hash map),
    [HttpUri] (the URI parser of the http crate), [HeaderMap] and [HttpChecks] (its
    header map and its checks of names and values), [UdpSocket] (the datagrams of a
    resolver), [SharedRateStore] and [BucketOrder] (the shared tier of the layered
    limiter and the order of its buckets), [Lowercase] ([str::to_lowercase]), [Hmac]
    (the HMAC of ring), [KeyPairs] (its key pairs, digest and MAC), [JoseEncoder] and
    [JsonWriter] (the encoders of base64url and JSON), [Sha2] and [Sha256Digest], [Aead] (the AEAD of ring), [Master] (the
    master key the process is configured with, if any) and [RowOrder] (the collation of the database).  The password hashing pool, the clock and
    the entropy are answers to calls.  The
    registry of shipped journeys, the JSON documents embedded in the binary, is
    an argument of [resolve], so the theorem holds of any registry.  Where a theorem
    assumes something of a parameter it is a class of laws ([UriAuthority],
    [HeaderMapLaws], [HashIterationLaws], [BucketOrderLaws] and the like) that states the
    documented behaviour; the samples instantiate each parameter with its laws.

    ** What the theorems show

    - Validation: the validator accepts exactly the documents that satisfy
      [well_formed], a specification with graph reachability instead of walks;
      its error messages carry the pointer they were reported at; the step-kind
      vocabulary is closed.
    - Predicates: a predicate the type check accepts evaluates without error to
      its boolean reading; comparisons are between equal types; the operators are
      coherent; sources the engine leaves empty cannot be routed on.
    - Composition: it always returns and never panics; its result is call-free,
      bounded, valid, and made of the parts of its sources; inlining a call
      puts the definition exactly in its place, every step keeping its edges with
      their guards and order, but for an edge of the call to itself.
    - Compilation and routing: every compiled table satisfies [table_ok]; routing
      takes the first edge whose guard holds and meets no evaluation error; no run
      reaches a step that needs a subject before one is established.
    - Replay: a transcript matches exactly when regeneration leaves it alone and
      its last hop completes; regeneration is idempotent; routing depends only on
      the inputs the engine populates.
    - Templates and shipped documents: a materialised template validates exactly
      when its condition type-checks, and routes on it; an environment's own
      document wins.
    - DER: the reader accepts exactly what the writer writes, for elements and
      object identifiers; times read back; integers are minimal and have the value
      written.
    - Token verification: an exact characterisation of the accepted tokens, which
      covers the confusion attacks the crate names (an algorithm outside the
      allowlist, a key of another family, a key from the token itself); token
      profiles are separate; the clock and the two relaxations of a policy change
      only what they say.
    - Keys: an algorithm has a signer exactly from the earliest activation of its
      keys on, and one active key when additions do not repeat an algorithm; the
      signer is permitted by the policy and its public half is in the published set;
      the key of a live token is published, unless a rotation was backdated to before
      the mint; a successor is published for the whole of its lead.
    - Redirect URIs: the comparator and the registrability rule are each
      characterised by an equivalence with the RFC 8252 shapes, stated by characters
      and labels, the plus sign the code lets stand before a port included.
    - Authentication: events survive their persisted string; the requirement of a
      request asks for all of its sources; the remediation of an unmet requirement
      is always chosen and leads on, each outcome in its own way; organization policies resolve
      strictest-wins.
    - Access rules: the readings of a rule set agree with the first matching rule;
      requests with one cache key get one decision; replicas of a cached rule set
      over one store refine evaluation of the current rules, when no literal subject is
      spelled like a state and no hashes collide; the in-process store is
      bounded in age and size.
    - Outbound client: whatever the resolver and the network answer and wherever the
      deadline falls, a connection is made only to an address that was resolved for the
      target and lies in no denied class; a response is complete and within its cap; a
      refusal is uniform; the request on the wire has one Host header.  The TXT parser
      is total and reads back every well-formed answer.
    - Quotas: a spend is all or nothing and exact, tenants do not interfere, a storm at
      one instant is admitted up to the integer burst and no further in binary64
      arithmetic, usage events are the upward crossings of the thresholds.
    - Layers: an admission charges every applicable layer or none and names the
      narrowest refusing one; the bucket map is bounded; dropping full buckets and an
      outage of the shared store change no decision; shared buckets read back.
    - SCIM: the filter parser returns on every text, reads back every text of the grammar,
      and accepts nothing that is not made of legal names, valid strings and bounded
      nesting; matching does not depend on the spelling of a filter; resource paths
      and patch paths are accepted exactly in their one shape.
    - One-time passwords: verification is exact over the drift window and never panics; a
      secret reads back from the form shown to the user.
    - Identifiers: an identifier has one spelling and is read only in its scope; a context
      determines the fields it was built from.
    - Second factors: in every interleaving of requests and store calls, with faults, each
      success consumed exactly one step or code of the subject and no two the same;
      the active factor of a subject is unique and opens to the enrolled seed, through any
      rotation of keys, until its key is destroyed; recovery codes are replaced only on
      proof and are accepted once each.
    - Minting: a token signed by a key of an environment verifies against the set the
      environment publishes, which is read back key by key; its length is known before it is
      signed; a thumbprint identifies a key; a token signed with a client secret verifies
      under no policy.
    - Proof of possession: an exact characterisation of the accepted proofs; a proof is
      accepted once, by the endpoints of an instance while its cache drops no entry, and by
      the resources that share the table; a bound token, code or refresh family needs a proof of its key; a code is
      redeemed exactly with the redirect URI and the verifier it was bound to.
    - Refresh tokens: in every interleaving of redemptions, openings and revocations, with
      faults, a family is one chain with one live leaf, a token rotates at most once, a reuse
      is reported once and ends the family.

    The lemmas at the end of JourneySamples, DerTime, Rotation, JoseVerify, Redirect, StepUp,
    OrgPolicy, AccessCache, FetchPolicy, FetchTxt, FetchDispatch, Quota, Layered, ScimGrammar,
    RecoveryCodes, SenderConstraint and RefreshStore record where the code departs from its comments.

    ** What is not modelled

    The HTTP servers (ironauth-oidc, ironauth-admin, ironauth-server,
    ironauth-scim but for the files above) and the database layer (ironauth-store, but for redirect.rs,
    org_policy.rs, id.rs, the second-factor and refresh-token repositories and the replay table) are mostly input and output over
    Postgres and the network.  Of the second-factor endpoints the session, the throttle, the
    downgrade gate and the JSON bodies are left out.  Of the envelope keys the encrypted
    secrets, bring-your-own-key bindings and the offline tools that change the master key or
    restore a backup are left out; the master key does not change during a run.
    Of the token endpoint only the steps that concern proofs and bindings are modelled, with
    the fields they read.
    Cryptography (key generation and the AEAD behind ironauth-jose, ironauth-kms,
    ironauth-hash-scheme, ironauth-webauthn) rests on third-party crates, and so do
    the TLS configuration of the outbound client, which is built from the trust store of
    the host, and Unicode normalization in org_policy.rs.  Serde derives, JSON schema
    generation (schema.rs of the journey crate) and the configuration loader are
    generated or declarative code.  A poisoned lock panics and is not modelled.
    Candidates for the next components, in order: the token-exchange rules of
    ironauth-oidc, the sessions of ironauth-store, and the claim mapping of the
    connectors. *)

From Stdlib Require Export Ascii ZArith Lia.
From stdpp Require Export base numbers pretty strings gmap sets.
From stdpp Require Export list.

(** ** Rust results *)

(** Rust's [Result<T, E>]. *)
Inductive Result (T E : Type) : Type :=
| Ok (value : T)
| Err (error : E).
Arguments Ok {T E} value.
Arguments Err {T E} error.

(** How a Rust call ends once loops and panics are taken into account: it
    returns a value, it panics, or the fuel given to the model of a loop was
    not enough. *)
Inductive Run (A : Type) : Type :=
| Returned (a : A)
| Panicked
| OutOfFuel.
Arguments Returned {A} a.
Arguments Panicked {A}.
Arguments OutOfFuel {A}.

Declare Scope rust_scope.
Delimit Scope rust_scope with rust.

(** The [?] operator. *)
Notation "'let?' x ':=' e 'in' k" :=
  (match e with Ok x => k | Err err => Err err end)
  (at level 10, x pattern, e at level 100, k at level 200) : rust_scope.

(** [?] in a function that may also panic. *)
Notation "'let!' x ':=' e 'in' k" :=
  (match e with
   | Returned (Ok x) => k
   | Returned (Err err) => Returned (Err err)
   | Panicked => Panicked
   | OutOfFuel => OutOfFuel
   end) (at level 10, x pattern, e at level 100, k at level 200) : rust_scope.

Open Scope rust_scope.

(** ** Strings *)

(** [str::contains] with a string pattern: byte-wise substring search. *)
Definition str_contains (pattern s : string) : bool :=
  match String.index 0 pattern s with Some _ => true | None => false end.

(** [format!("{n}")] on an unsigned integer. *)
Definition fmt_nat (n : nat) : string := pretty n.

Lemma str_compare_eq (a b : string) : String.compare a b = Eq ↔ a = b.
Proof.
  split; [apply String.compare_eq_iff|]. intros ->.
  pose proof (String.compare_antisym b b) as H. by destruct (String.compare b b).
Qed.

(** ** Loops over [iter().enumerate()] that push to a vector *)

(** The vector a loop [for (index, x) in l.iter().enumerate()] builds when its
    body pushes [f index x]. *)
Definition enum_flat {A B} (f : nat → A → list B) (l : list A) : list B :=
  concat (imap f l).

(** The same loop, from a given index. *)
Fixpoint enum_flat_from {A B} (i : nat) (f : nat → A → list B) (l : list A) : list B :=
  match l with
  | [] => []
  | x :: l' => f i x ++ enum_flat_from (S i) f l'
  end.

Section EnumFlat.
Context {A B : Type}.
Implicit Types (f : nat → A → list B) (l : list A).

Lemma enum_flat_from_shift f l i :
  enum_flat_from i f l = enum_flat (λ k, f (i + k)) l.
Proof.
  revert i f. induction l as [|x l IH]; intros i f; [done|].
  unfold enum_flat; simpl. rewrite Nat.add_0_r. f_equal.
  rewrite IH. unfold enum_flat. f_equal. apply imap_ext. intros k y _. simpl. f_equal. lia.
Qed.

Lemma enum_flat_nil f l :
  enum_flat f l = [] ↔ ∀ i x, l !! i = Some x → f i x = [].
Proof.
  revert f. induction l as [|x l IH]; intros f; [done|].
  unfold enum_flat in *; simpl. rewrite app_nil. split.
  - intros [Hx Hl] [|i] y; simpl; [naive_solver|]. intros Hi.
    exact (proj1 (IH (f ∘ S)) Hl i y Hi).
  - intros H. split; [by apply (H 0)|].
    apply (IH (f ∘ S)). intros i y Hi. by apply (H (S i)).
Qed.

(** A loop that pushes at most one element, under a condition. *)
Lemma enum_flat_nil_if f (P : A → bool) (e : nat → A → B) l :
  enum_flat (λ i x, if P x then [e i x] else []) l = [] ↔ ∀ x, x ∈ l → P x = false.
Proof.
  rewrite enum_flat_nil. split.
  - intros H x [i Hi]%list_elem_of_lookup. specialize (H i x Hi). by destruct (P x).
  - intros H i x Hi. rewrite H; [done|]. by eapply list_elem_of_lookup_2.
Qed.

End EnumFlat.

(** ** Loops that insert into a map *)

(** [for (k, v) in kvs { map.insert(k, v); }]: the last insertion of a key wins. *)
Definition insert_all {K V} `{Countable K} (m : gmap K V) (kvs : list (K * V)) : gmap K V :=
  foldl (λ m kv, <[kv.1 := kv.2]> m) m kvs.

Section InsertAll.
Context {K V : Type} `{Countable K}.
Implicit Types (m : gmap K V) (kvs : list (K * V)).

Lemma insert_all_lookup kvs k v : ∀ m, NoDup kvs.*1 →
  insert_all m kvs !! k = Some v ↔ (k, v) ∈ kvs ∨ ((k ∉ kvs.*1) ∧ m !! k = Some v).
Proof.
  induction kvs as [|[k' v'] kvs IH]; intros m Hnd; simpl; [set_solver|].
  simpl in Hnd. apply NoDup_cons in Hnd as [Hk' Hnd]. rewrite (IH _ Hnd). simpl.
  rewrite !elem_of_cons. destruct (decide (k' = k)) as [->|Hne].
  - rewrite lookup_insert_eq. split; [naive_solver|]. intros [[Heq|Hin]|[Hk _]]; [|by left|].
    + right. split; [done|]. naive_solver.
    + naive_solver.
  - rewrite lookup_insert_ne by done. naive_solver.
Qed.

Lemma insert_all_dom kvs : ∀ m, dom (insert_all m kvs) = list_to_set kvs.*1 ∪ dom m.
Proof.
  induction kvs as [|[k v] kvs IH]; intros m; simpl; [set_solver|].
  change (insert_all m ((k, v) :: kvs)) with (insert_all (<[k:=v]> m) kvs).
  rewrite IH, dom_insert_L. set_solver.
Qed.
End InsertAll.

(** ** Filters *)

(** Filters that agree on the elements of a list agree on the list. *)
Lemma list_filter_iff_elem {A} (P Q : A → Prop) `{∀ x, Decision (P x)} `{∀ x, Decision (Q x)}
    (l : list A) :
  (∀ x, x ∈ l → P x ↔ Q x) → filter P l = filter Q l.
Proof.
  induction l as [|x l IH]; intros Hl; [done|]. rewrite !filter_cons.
  rewrite IH by (intros y Hy; apply Hl; by right). specialize (Hl x ltac:(left)).
  repeat case_decide; naive_solver.
Qed.

(** Membership in the result of [Iterator::filter] with a boolean closure. *)
Lemma elem_of_filter_true {A} (f : A → bool) (x : A) (l : list A) :
  x ∈ filter (λ y, Is_true (f y)) l ↔ f x = true ∧ x ∈ l.
Proof. by rewrite list_elem_of_filter, Is_true_true. Qed.

(** ** Propositions *)

Lemma and_iff_compat3 (P Q A B C : Prop) : (P ↔ A ∧ B) → (Q ↔ C) → (P ∧ Q ↔ A ∧ B ∧ C).
Proof. tauto. Qed.

Lemma elem_of_app_in_l {A} (x : A) (l k : list A) : x ∈ l → x ∈ l ++ k.
Proof. rewrite elem_of_app. by left. Qed.

Lemma elem_of_app_in_r {A} (x : A) (l k : list A) : x ∈ k → x ∈ l ++ k.
Proof. rewrite elem_of_app. by right. Qed.

(** ** Automation *)

Create HintDb ironauth discriminated.
#[export] Hint Constants Opaque : ironauth.
#[export] Hint Resolve list_elem_of_lookup_2 list_elem_of_fmap_2 elem_of_app_in_l elem_of_app_in_r
  : ironauth.

(** Split conjunctions in hypotheses and close goals with [naive_solver]. *)
Ltac crush := repeat case_match; simplify_eq/=; try naive_solver; try lia.

(** Turn boolean connectives and comparisons in the context into propositions. *)
Ltac bool_to_prop :=
  repeat match goal with
  | H : (_ && _) = true |- _ => apply andb_true_iff in H as [? ?]
  | H : (_ || _) = false |- _ => apply orb_false_iff in H as [? ?]
  | H : negb _ = true |- _ => apply negb_true_iff in H
  | H : negb _ = false |- _ => apply negb_false_iff in H
  | H : bool_decide _ = true |- _ => apply bool_decide_eq_true in H
  | H : bool_decide _ = false |- _ => apply bool_decide_eq_false in H
  end.
