(* ===== verification/Walk.v ===== *)
(** * Worklist walks over a finite graph

    The iterative depth-first walks of the journey validator share one loop:
    pop a node, skip it when it was seen, otherwise record it and push its
    successors.  This file models that loop once, over an arbitrary successor
    function, and proves that it terminates within a fuel computed from the
    edge list and that the set it returns is exactly the set of nodes reachable
    from the start. *)

From S2P Require Import Prelude.

Section Walk.
Context {A : Type} `{Countable A}.
Variable succ : A → list A.

(** One edge of the graph. *)
Definition edge (x y : A) : Prop := y ∈ succ x.

(** [while let Some(node) = stack.pop() { if !reached.insert(node) { continue }
    stack.extend(succ(node)) }].  The head of the list is the top of the stack;
    the result is the loop state after at most [fuel] iterations. *)
Fixpoint walk (fuel : nat) (stack : list A) (reached : gset A) : gset A * list A :=
  match fuel with
  | O => (reached, stack)
  | S n =>
      match stack with
      | [] => (reached, [])
      | node :: rest =>
          if bool_decide (node ∈ reached) then walk n rest reached
          else walk n (reverse (succ node) ++ rest) ({[node]} ∪ reached)
      end
  end.

(** The same loop with an early exit when the popped node is the target; [None]
    when the fuel runs out. *)
Fixpoint walk_until (fuel : nat) (target : A) (stack : list A) (visited : gset A) : option bool :=
  match fuel with
  | O => None
  | S n =>
      match stack with
      | [] => Some false
      | node :: rest =>
          if bool_decide (node = target) then Some true
          else if bool_decide (node ∈ visited) then walk_until n target rest visited
          else walk_until n target (reverse (succ node) ++ rest) ({[node]} ∪ visited)
      end
  end.

(** ** Termination *)

(** The edges out of nodes not recorded yet. *)
Definition pending (es : list (A * A)) (reached : gset A) : list (A * A) :=
  filter (λ e, e.1 ∉ reached) es.

(** The edge list accounts for every successor. *)
Definition covers (es : list (A * A)) : Prop :=
  ∀ x, length (succ x) ≤ length (filter (λ e, e.1 = x) es).

Lemma pending_le es reached : length (pending es reached) ≤ length es.
Proof. apply length_filter. Qed.

Lemma pending_step es reached x :
  x ∉ reached →
  length (pending es reached) =
  length (filter (λ e, e.1 = x) es) + length (pending es ({[x]} ∪ reached)).
Proof.
  intros Hx. unfold pending. induction es as [|e es IH]; [done|].
  rewrite !filter_cons. repeat case_decide; simpl; try lia; exfalso; set_solver.
Qed.

Lemma walk_terminates es : covers es → ∀ fuel stack reached,
  length stack + length (pending es reached) ≤ fuel →
  (walk fuel stack reached).2 = [].
Proof.
  intros Hes. induction fuel as [|n IH]; intros [|x stack] reached; simpl; try done; try lia.
  intros Hm. case_bool_decide as Hx; apply IH; [lia|].
  rewrite length_app, length_reverse. rewrite (pending_step es reached x Hx) in Hm.
  specialize (Hes x). lia.
Qed.

Lemma walk_until_total es target : covers es → ∀ fuel stack visited,
  length stack + length (pending es visited) < fuel →
  is_Some (walk_until fuel target stack visited).
Proof.
  intros Hes. induction fuel as [|n IH]; intros [|x stack] visited; simpl; try lia; try by eauto.
  intros Hm. case_bool_decide; [by eauto|]. case_bool_decide as Hx; apply IH; [lia|].
  rewrite length_app, length_reverse. rewrite (pending_step es visited x Hx) in Hm.
  specialize (Hes x). lia.
Qed.

(** ** Soundness and completeness *)

Lemma walk_sound (P : A → Prop) :
  (∀ x y, P x → edge x y → P y) → ∀ fuel stack reached,
  (∀ x, x ∈ stack → P x) → (∀ x, x ∈ reached → P x) →
  ∀ x, x ∈ (walk fuel stack reached).1 → P x.
Proof.
  intros HP. induction fuel as [|n IH]; intros [|y stack] reached Hs Hr x; simpl; auto.
  case_bool_decide; apply IH; auto.
  - intros z Hz. apply Hs. by right.
  - intros z [Hz|Hz]%elem_of_app.
    + rewrite elem_of_reverse in Hz. eapply HP; [apply Hs; left|exact Hz].
    + apply Hs. by right.
  - intros z [->%elem_of_singleton|]%elem_of_union; auto. apply Hs. left.
Qed.

(** The loop invariant: the successors of a recorded node are recorded or
    waiting on the stack. *)
Definition frontier (stack : list A) (reached : gset A) : Prop :=
  ∀ x y, x ∈ reached → edge x y → y ∈ reached ∨ y ∈ stack.

Lemma frontier_seen x stack reached :
  x ∈ reached → frontier (x :: stack) reached → frontier stack reached.
Proof. intros Hx Hf y z Hy Hz. destruct (Hf y z Hy Hz) as [|[->|]%elem_of_cons]; auto. Qed.

Lemma frontier_visit x stack reached :
  frontier (x :: stack) reached → frontier (reverse (succ x) ++ stack) ({[x]} ∪ reached).
Proof.
  intros Hf y z [->%elem_of_singleton|Hy]%elem_of_union Hz.
  - right. apply elem_of_app. left. by apply elem_of_reverse.
  - destruct (Hf y z Hy Hz) as [|[->|]%elem_of_cons]; set_solver.
Qed.

Lemma frontier_closed reached x y :
  frontier [] reached → rtc edge x y → x ∈ reached → y ∈ reached.
Proof.
  intros Hf. induction 1 as [|x y z Hxy _ IH]; [done|]. intros Hx. apply IH.
  destruct (Hf x y Hx Hxy) as [|?%not_elem_of_nil]; done.
Qed.

Lemma walk_frontier : ∀ fuel stack reached,
  frontier stack reached →
  let r := walk fuel stack reached in
  frontier r.2 r.1 ∧ reached ⊆ r.1 ∧ ∀ x, x ∈ stack → x ∈ r.1 ∨ x ∈ r.2.
Proof.
  induction fuel as [|n IH]; intros [|y stack] reached Hf; simpl; [set_solver..|].
  case_bool_decide as Hy.
  - destruct (IH stack reached) as (?&?&?); [eauto using frontier_seen|].
    split_and!; [done..|]. intros x [->|]%elem_of_cons; set_solver.
  - destruct (IH (reverse (succ y) ++ stack) ({[y]} ∪ reached)) as (?&?&?);
      [eauto using frontier_visit|].
    split_and!; [done|set_solver|]. intros x [->|]%elem_of_cons; set_solver.
Qed.

(** The walk from one node returns exactly the nodes reachable from it. *)
Lemma walk_reachable es fuel start x :
  covers es → S (length es) ≤ fuel →
  x ∈ (walk fuel [start] ∅).1 ↔ rtc edge start x.
Proof.
  intros Hes Hfuel. split.
  - apply (walk_sound (rtc edge start)).
    + intros ????. eapply rtc_r; eauto.
    + intros ? ->%list_elem_of_singleton. apply rtc_refl.
    + set_solver.
  - destruct (walk_frontier fuel [start] ∅) as (Hf & _ & Hs); [intros ???; set_solver|].
    assert ((walk fuel [start] ∅).2 = []) as Hnil.
    { apply (walk_terminates es Hes). simpl.
      pose proof (pending_le es ∅). lia. }
    rewrite Hnil in Hf, Hs.
    assert (start ∈ (walk fuel [start] ∅).1) as Hstart.
    { destruct (Hs start) as [|?%not_elem_of_nil]; [left|done..]. }
    intros Hr. eauto using frontier_closed.
Qed.

Lemma walk_until_sound (P : A → Prop) target :
  (∀ x y, P x → edge x y → P y) → ∀ fuel stack visited,
  (∀ x, x ∈ stack → P x) →
  walk_until fuel target stack visited = Some true → P target.
Proof.
  intros HP. induction fuel as [|n IH]; intros [|y stack] visited Hs; simpl; try done.
  case_bool_decide; [intros _; subst; apply Hs; left|].
  case_bool_decide; apply IH.
  - intros z Hz. apply Hs. by right.
  - intros z [Hz|Hz]%elem_of_app; [|apply Hs; by right].
    rewrite elem_of_reverse in Hz.
    eapply HP; [apply Hs; left|exact Hz].
Qed.

Lemma walk_until_complete target : ∀ fuel stack visited,
  frontier stack visited → target ∉ visited →
  walk_until fuel target stack visited = Some false →
  ∀ x, x ∈ stack ∨ x ∈ visited → rtc edge x target → False.
Proof.
  induction fuel as [|n IH]; intros [|y stack] visited Hf Ht; simpl; try done.
  - intros _ x [?%not_elem_of_nil|Hx] Hr; [done|]. eauto using frontier_closed.
  - case_bool_decide; [done|]. case_bool_decide as Hy; intros Hw x Hx.
    + apply (IH stack visited); [by eauto using frontier_seen|done|exact Hw|set_solver].
    + apply (IH _ _ (frontier_visit _ _ _ Hf)); [set_solver|exact Hw|set_solver].
Qed.

(** The early-exit walk from the successors of a node decides whether the
    target is reachable by at least one edge. *)
Lemma walk_until_tc es fuel start target :
  covers es → S (S (length es + length (succ start))) ≤ fuel →
  walk_until fuel target (reverse (succ start)) ∅ = Some true ↔ tc edge start target.
Proof.
  intros Hes Hfuel. split.
  - apply (walk_until_sound (tc edge start)).
    + intros ????. eapply tc_r; eauto.
    + intros x Hx. rewrite elem_of_reverse in Hx. by apply tc_once.
  - intros Htc. destruct (walk_until_total es target Hes fuel (reverse (succ start)) ∅)
      as [[] Hb]; [|done|].
    { rewrite length_reverse.
      pose proof (pending_le es ∅). lia. }
    exfalso. assert (∃ x, edge start x ∧ rtc edge x target) as (x & Hx & Hr).
    { inversion Htc; subst; eauto using rtc_refl, tc_rtc. }
    eapply (walk_until_complete target fuel (reverse (succ start)) ∅);
      [intros ???; set_solver|set_solver|exact Hb| |exact Hr].
    left. by apply elem_of_reverse.
Qed.

End Walk.
