(* ===== verification/Rank.v ===== *)
(** * Ranks of the nodes of a finite acyclic graph

    The longest path from a node of an acyclic graph over finitely many nodes
    is bounded by the number of nodes, and strictly decreases along edges.  The
    composition of a journey uses it to bound the number of subflows it
    inlines. *)

From S2P Require Import Prelude Walk.

Section Rank.
Context {A : Type} `{Countable A}.
Variable succ : A → list A.
Variable nodes : gset A.

(** The number of nodes of the longest path from a node, cut at [depth]. *)
Fixpoint height (depth : nat) (x : A) : nat :=
  match depth with
  | O => 0
  | S d => S (max_list (height d <$> succ x))
  end.

Definition rank (x : A) : nat := height (S (size nodes)) x.

Hypothesis acyclic : ∀ x, x ∈ nodes → ¬ tc (edge succ) x x.
Hypothesis closed : ∀ x y, x ∈ nodes → y ∈ succ x → y ∈ nodes.

(** A path, as the list of the nodes after the first. *)
Fixpoint chain (x : A) (path : list A) : Prop :=
  match path with
  | [] => True
  | y :: rest => edge succ x y ∧ chain y rest
  end.

Lemma chain_tc path : ∀ x y, chain x path → y ∈ path → tc (edge succ) x y.
Proof.
  induction path as [|z path IH]; intros x y; simpl; [set_solver|].
  intros [Hxz Hc] [->|Hy]%elem_of_cons; [by apply tc_once|].
  eapply tc_l; [done|]. by apply IH.
Qed.

Lemma chain_nodes path : ∀ x, x ∈ nodes → chain x path → ∀ y, y ∈ path → y ∈ nodes.
Proof.
  induction path as [|z path IH]; intros x Hx; simpl; [set_solver|].
  intros [Hxz Hc] y [->|Hy]%elem_of_cons; [by eapply closed|]. eapply (IH z); eauto.
Qed.

Lemma chain_NoDup path : ∀ x, x ∈ nodes → chain x path → NoDup (x :: path).
Proof.
  induction path as [|z path IH]; intros x Hx Hc; [apply NoDup_singleton|].
  apply NoDup_cons. split.
  - intros Hin. by apply (acyclic x Hx), (chain_tc (z :: path)).
  - destruct Hc as [Hxz Hc]. apply IH; [by eapply closed|done].
Qed.

Lemma chain_bound path x : x ∈ nodes → chain x path → length path < size nodes.
Proof.
  intros Hx Hc. pose proof (chain_NoDup path x Hx Hc) as Hnd.
  change (length (x :: path) ≤ size nodes).
  rewrite <-(size_list_to_set (C:=gset A) _ Hnd). apply subseteq_size.
  intros y. rewrite elem_of_list_to_set. intros [->|Hy]%elem_of_cons; [done|].
  by eapply chain_nodes.
Qed.

Lemma max_list_elem (l : list nat) : l ≠ [] → max_list l ∈ l.
Proof.
  induction l as [|n l IH]; [done|]. intros _. simpl.
  destruct (decide (l = [])) as [->|Hl]; [simpl; rewrite Nat.max_0_r; left|].
  destruct (Nat.max_spec n (max_list l)) as [[_ ->]|[_ ->]]; [right; auto|left].
Qed.

Lemma max_list_ge (l : list nat) n : n ∈ l → n ≤ max_list l.
Proof. induction 1; simpl; lia. Qed.

Lemma height_chain depth : ∀ x, 0 < height depth x →
  ∃ path, chain x path ∧ height depth x = S (length path).
Proof.
  induction depth as [|d IH]; intros x; simpl; [lia|]. intros _.
  destruct (decide (max_list (height d <$> succ x) = 0)) as [->|Hne]; [by exists []|].
  assert (max_list (height d <$> succ x) ∈ height d <$> succ x) as Hin.
  { apply max_list_elem. intros Hnil. by rewrite Hnil in Hne. }
  apply list_elem_of_fmap in Hin as (y & Hy & Hxy).
  destruct (IH y) as (path & Hc & Hl); [lia|].
  exists (y :: path). simpl. rewrite Hy, Hl. done.
Qed.

Lemma height_bound depth x : x ∈ nodes → height depth x ≤ size nodes.
Proof.
  intros Hx. destruct (decide (height depth x = 0)); [lia|].
  destruct (height_chain depth x) as (path & Hc & ->); [lia|].
  pose proof (chain_bound path x Hx Hc). lia.
Qed.

Lemma height_stable depth : ∀ x, height depth x < depth → height (S depth) x = height depth x.
Proof.
  induction depth as [|d IH]; intros x; [simpl; lia|]. intros Hlt.
  change (height (S (S d)) x) with (S (max_list (height (S d) <$> succ x))).
  change (height (S d) x) with (S (max_list (height d <$> succ x))) in Hlt |- *.
  f_equal. f_equal. apply list_fmap_ext. intros i y Hi. apply IH.
  assert (height d y ≤ max_list (height d <$> succ x)); [|lia].
  apply max_list_ge, list_elem_of_fmap_2. by eapply list_elem_of_lookup_2.
Qed.

Lemma rank_bound x : x ∈ nodes → 0 < rank x ≤ size nodes.
Proof. intros Hx. split; [unfold rank; simpl; lia|]. by apply height_bound. Qed.

Lemma rank_decreases x y : x ∈ nodes → y ∈ succ x → rank y < rank x.
Proof.
  intros Hx Hxy. unfold rank at 2. rewrite <-height_stable.
  - change (rank y < S (max_list (rank <$> succ x))). apply Nat.lt_succ_r.
    by apply max_list_ge, list_elem_of_fmap_2.
  - apply Nat.lt_succ_r. by apply height_bound.
Qed.

End Rank.
