(* ===== verification/Machine.v ===== *)
(** * Machine integers

    The saturating and checked operations of Rust's integer types, on [Z]. *)

From S2P Require Import Prelude.

Local Open Scope Z_scope.

Definition I64_MIN : Z := - 2 ^ 63.
Definition I64_MAX : Z := 2 ^ 63 - 1.
Definition U64_MAX : Z := 2 ^ 64 - 1.
Definition U32_MAX : Z := 2 ^ 32 - 1.

Definition is_i64 (x : Z) : Prop := I64_MIN ≤ x ≤ I64_MAX.
Definition is_u64 (x : Z) : Prop := 0 ≤ x ≤ U64_MAX.

Definition clamp (lo hi x : Z) : Z := Z.max lo (Z.min hi x).

(** [i64::saturating_sub], [saturating_add] and [saturating_mul]. *)
Definition i64_saturating_sub (a b : Z) : Z := clamp I64_MIN I64_MAX (a - b).
Definition i64_saturating_add (a b : Z) : Z := clamp I64_MIN I64_MAX (a + b).
Definition i64_saturating_mul (a b : Z) : Z := clamp I64_MIN I64_MAX (a * b).

(** [u64::saturating_add], [saturating_sub] and [saturating_mul]. *)
Definition u64_saturating_add (a b : Z) : Z := clamp 0 U64_MAX (a + b).
Definition u64_saturating_sub (a b : Z) : Z := clamp 0 U64_MAX (a - b).
Definition u64_saturating_mul (a b : Z) : Z := clamp 0 U64_MAX (a * b).

(** [i64::try_from] of an unsigned value and [u64::try_from] of a signed one. *)
Definition i64_try_from (x : Z) : option Z := if x <=? I64_MAX then Some x else None.
Definition u64_try_from (x : Z) : option Z := if 0 <=? x then Some x else None.

Lemma clamp_id lo hi x : lo ≤ x ≤ hi → clamp lo hi x = x.
Proof. unfold clamp. lia. Qed.

Lemma clamp_range lo hi x : lo ≤ hi → lo ≤ clamp lo hi x ≤ hi.
Proof. unfold clamp. lia. Qed.

Lemma i64_saturating_sub_self x : i64_saturating_sub x x = 0.
Proof. unfold i64_saturating_sub, clamp, I64_MIN, I64_MAX. lia. Qed.

(** [a + b] on [u64] in a release build: it wraps. *)
Definition u64_wrapping_add (a b : Z) : Z := (a + b) mod 2 ^ 64.

(** [Instant::saturating_duration_since], in nanoseconds. *)
Definition saturating_duration_since (now earlier : Z) : Z := Z.max 0 (now - earlier).

(** [a - b] on [i64] in a release build: it wraps. *)
Definition i64_wrapping_sub (a b : Z) : Z := (a - b + 2 ^ 63) mod 2 ^ 64 - 2 ^ 63.
