(* ===== verification/Float.v ===== *)
(** * Binary64 arithmetic

    Rust's [f64], on the Standard Library's specification of IEEE 754 numbers: the
    operations and conversions the modelled crates use, the sign of a result, and the
    exactness of integers below 2^53.  [f64::max] and [f64::min] of two zeros may return
    either; here they return the second. *)

From Stdlib Require Import SpecFloat.
From S2P Require Import Prelude Machine.

Local Open Scope Z_scope.

Abbreviation f64 := spec_float (only parsing).

(** ** Operations *)

Definition f64_add : f64 → f64 → f64 := SFadd 53 1024.
Definition f64_sub : f64 → f64 → f64 := SFsub 53 1024.
Definition f64_mul : f64 → f64 → f64 := SFmul 53 1024.
Definition f64_div : f64 → f64 → f64 := SFdiv 53 1024.

Definition f64_zero : f64 := S754_zero false.

(** An integer as an [f64], rounded to nearest. *)
Definition f64_of (n : Z) : f64 := binary_normalize 53 1024 n 0 false.

Definition is_nan (x : f64) : bool := match x with S754_nan => true | _ => false end.

(** [f64::is_finite]. *)
Definition is_finite (f : f64) : bool :=
  match f with S754_zero _ | S754_finite _ _ _ => true | _ => false end.

(** The comparison operators; all are false of a NaN. *)
Definition f64_lt (x y : f64) : bool := SFltb x y.
Definition f64_le (x y : f64) : bool := SFleb x y.
Definition f64_gt (x y : f64) : bool := SFltb y x.
Definition f64_ge (x y : f64) : bool := SFleb y x.

(** [f64::max] and [f64::min]: the other operand of a NaN. *)
Definition f64_max (x y : f64) : f64 :=
  if is_nan x then y else if is_nan y then x else if f64_gt x y then x else y.
Definition f64_min (x y : f64) : f64 :=
  if is_nan x then y else if is_nan y then x else if f64_lt x y then x else y.

(** [f64::clamp]. *)
Definition f64_clamp (x lo hi : f64) : f64 :=
  if f64_lt x lo then lo else if f64_gt x hi then hi else x.

(** [f64::floor] of a finite number, as the integer it denotes; the result is
    exact, because a number of magnitude 2^53 or more is an integer already. *)
Definition floor (f : f64) : Z :=
  match f with
  | S754_finite sign mantissa exponent =>
      let m := if sign then Zneg mantissa else Zpos mantissa in
      if 0 <=? exponent then m * 2 ^ exponent else m / 2 ^ (- exponent)
  | _ => 0
  end.

(** [f64::ceil] of a finite number. *)
Definition ceil (f : f64) : Z := - floor (SFopp f).

(** [x as u64] of a number rounded to an integer: saturating, and zero of a NaN. *)
Definition f64_as_u64 (round : f64 → Z) (x : f64) : Z :=
  match x with
  | S754_nan | S754_infinity true => 0
  | S754_infinity false => U64_MAX
  | _ => clamp 0 U64_MAX (round x)
  end.

(** [Duration::as_secs_f64], of a number of nanoseconds. *)
Definition as_secs_f64 (nanos : Z) : f64 :=
  f64_add (f64_of (nanos / 1000000000)) (f64_div (f64_of (nanos mod 1000000000)) (f64_of 1000000000)).

(** ** Comparisons *)

Lemma SFcompare_refl x : is_nan x = false → SFcompare x x = Some Eq.
Proof.
  destruct x as [[]|[]| |[] m e]; try done; intros _; simpl; rewrite Z.compare_refl;
    change (Pos.compare_cont Eq m m) with (Pos.compare m m); by rewrite Pos.compare_refl.
Qed.

Lemma f64_le_refl x : is_nan x = false → f64_le x x = true.
Proof. intros Hx. unfold f64_le, SFleb. by rewrite SFcompare_refl. Qed.

Lemma f64_lt_le x y : f64_lt x y = true → f64_le x y = true.
Proof. unfold f64_lt, f64_le, SFltb, SFleb. by destruct (SFcompare x y) as [[]|]. Qed.

(** A minimum is at most its second operand. *)
Lemma f64_min_le x y : is_nan y = false → f64_le (f64_min x y) y = true.
Proof.
  intros Hy. unfold f64_min. rewrite Hy. destruct (is_nan x); [by apply f64_le_refl|].
  destruct (f64_lt x y) eqn:Hlt; [by apply f64_lt_le|by apply f64_le_refl].
Qed.

(** ** Signs *)

(** Neither a NaN nor of negative sign. *)
Definition nonneg (x : f64) : bool :=
  match x with S754_zero false | S754_infinity false | S754_finite false _ _ => true | _ => false end.

Lemma nonneg_not_nan x : nonneg x = true → is_nan x = false.
Proof. by destruct x as [[]|[]| |[]]. Qed.

Lemma shr_1_nonneg mrs : 0 ≤ shr_m mrs → 0 ≤ shr_m (shr_1 mrs).
Proof. destruct mrs as [[|[]|[]] r s]; simpl; lia. Qed.

Lemma iter_pos_inv {A} (f : A → A) (P : A → Prop) n x : (∀ y, P y → P (f y)) → P x → P (SpecFloat.iter_pos f n x).
Proof. intros Hf. revert x. induction n as [n IH|n IH|]; intros x Hx; simpl; auto. Qed.

Lemma shr_fexp_nonneg m e l : 0 ≤ m → 0 ≤ shr_m (shr_fexp 53 1024 m e l).1.
Proof.
  intros Hm. unfold shr_fexp, shr. set (rec := shr_record_of_loc m l).
  assert (0 ≤ shr_m rec) as Hr by (unfold rec; by destruct l as [|[]]).
  destruct (_ - e); [done| |done]. apply (iter_pos_inv _ (λ r, 0 ≤ shr_m r)); [|done].
  intros y. apply shr_1_nonneg.
Qed.

Lemma round_aux_nonneg m e l : 0 ≤ m → nonneg (binary_round_aux 53 1024 false m e l) = true.
Proof.
  intros Hm. unfold binary_round_aux. pose proof (shr_fexp_nonneg m e l Hm) as H1.
  destruct (shr_fexp 53 1024 m e l) as [mrs1 e1]. cbn [fst] in H1.
  assert (0 ≤ round_nearest_even (shr_m mrs1) (loc_of_shr_record mrs1)) as H2.
  { unfold round_nearest_even. destruct (loc_of_shr_record mrs1) as [|[]]; [..|lia]; try done.
    destruct (Z.even _); lia. }
  pose proof (shr_fexp_nonneg _ e1 loc_Exact H2) as H3.
  destruct (shr_fexp 53 1024 (round_nearest_even _ _) e1 loc_Exact) as [mrs2 e2]. cbn [fst] in H3.
  destruct (shr_m mrs2) as [|m2|m2]; [done| |lia]. by destruct (e2 <=? _).
Qed.

Lemma normalize_nonneg m e : 0 ≤ m → nonneg (binary_normalize 53 1024 m e false) = true.
Proof.
  destruct m as [|m|m]; [done| |lia]. intros _. unfold binary_normalize, binary_round.
  destruct (shl_align _ _ _). by apply round_aux_nonneg.
Qed.

Lemma f64_of_nonneg n : 0 ≤ n → nonneg (f64_of n) = true.
Proof. apply normalize_nonneg. Qed.

Lemma f64_of_not_nan n : 0 ≤ n → is_nan (f64_of n) = false.
Proof. intros Hn. by apply nonneg_not_nan, f64_of_nonneg. Qed.

Lemma f64_add_nonneg x y : nonneg x = true → nonneg y = true → nonneg (f64_add x y) = true.
Proof.
  unfold f64_add. destruct x as [[]|[]| |[] mx ex]; try done; destruct y as [[]|[]| |[] my ey]; try done; intros _ _.
  apply normalize_nonneg. unfold cond_Zopp. lia.
Qed.

(** A product is not negative, unless it is zero times infinity. *)
Lemma f64_mul_nonneg x y : nonneg x = true → nonneg y = true → nonneg (f64_mul x y) = true ∨ is_nan (f64_mul x y) = true.
Proof.
  unfold f64_mul. destruct x as [[]|[]| |[] mx ex]; try done; destruct y as [[]|[]| |[] my ey]; try done; intros;
    try (by left); try (by right). left. by apply round_aux_nonneg.
Qed.

Lemma f64_div_nonneg x my ey : nonneg x = true → nonneg (f64_div x (S754_finite false my ey)) = true.
Proof.
  unfold f64_div. destruct x as [[]|[]| |[] mx ex]; try done. intros _. cbn [SFdiv]. unfold SFdiv_core_binary.
  set (m' := match _ with Zpos _ => Z.shiftl _ _ | _ => _ end). assert (0 ≤ m') as Hm.
  { unfold m'. destruct (_ - _); [lia| |lia]. apply Z.shiftl_nonneg. lia. }
  pose proof (Z.div_pos m' (Zpos my) Hm ltac:(lia)) as Hq. unfold Z.div in Hq.
  destruct (Z.div_eucl m' (Zpos my)) as [quo r]. by apply round_aux_nonneg.
Qed.

Lemma as_secs_nonneg nanos : 0 ≤ nanos → nonneg (as_secs_f64 nanos) = true.
Proof.
  intros Hn. unfold as_secs_f64. apply f64_add_nonneg; [apply f64_of_nonneg, Z.div_pos; lia|].
  apply f64_div_nonneg, f64_of_nonneg. pose proof (Z.mod_pos_bound nanos 1000000000). lia.
Qed.

Lemma f64_max_zero_nonneg x : nonneg (f64_max x f64_zero) = true.
Proof. by destruct x as [[]|[]| |[]]. Qed.

Lemma f64_min_nonneg x y : nonneg x = true → nonneg y = true → nonneg (f64_min x y) = true.
Proof.
  intros Hx Hy. unfold f64_min. destruct (is_nan x); [done|]. destruct (is_nan y); [done|]. by destruct (f64_lt x y).
Qed.

(** ** Integers below 2^53 are exact *)

(** A mantissa shifted left. *)
Definition shl (p : positive) (n : nat) : positive := Nat.iter n xO p.

Definition digits (p : positive) : Z := Zpos (digits2_pos p).

Lemma digits_bounds p : 1 ≤ digits p ∧ 2 ^ (digits p - 1) ≤ Zpos p < 2 ^ digits p.
Proof.
  unfold digits. induction p as [p [IH0 IH]|p [IH0 IH]|]; cbn [digits2_pos]; [..|simpl; lia];
    rewrite Pos2Z.inj_succ; (replace (Z.succ (Zpos (digits2_pos p)) - 1) with ((Zpos (digits2_pos p) - 1) + 1) by lia);
    rewrite <-Z.add_1_r, !Z.pow_add_r by lia; lia.
Qed.

Lemma digits_unique p d : 2 ^ (d - 1) ≤ Zpos p < 2 ^ d → digits p = d.
Proof.
  intros [Hlo Hhi]. destruct (digits_bounds p) as (H1 & Hl & Hu).
  assert (0 < d) by (destruct (decide (0 < d)); [done|]; rewrite (Z.pow_neg_r 2 (d - 1)) in Hlo by lia;
    destruct (decide (d = 0)) as [->|]; [simpl in Hhi; lia|rewrite Z.pow_neg_r in Hhi by lia; lia]).
  destruct (Z.lt_trichotomy (digits p) d) as [Hlt|[?|Hlt]]; [|done|].
  - assert (2 ^ digits p ≤ 2 ^ (d - 1)) by (apply Z.pow_le_mono_r; lia). lia.
  - assert (2 ^ d ≤ 2 ^ (digits p - 1)) by (apply Z.pow_le_mono_r; lia). lia.
Qed.

Lemma digits_le p d : 0 ≤ d → Zpos p < 2 ^ d → digits p ≤ d.
Proof.
  intros Hd Hp. destruct (digits_bounds p) as (H1 & Hl & _). destruct (decide (digits p ≤ d)); [done|].
  assert (2 ^ d ≤ 2 ^ (digits p - 1)) by (apply Z.pow_le_mono_r; lia). lia.
Qed.

Lemma shl_value p n : Zpos (shl p n) = Zpos p * 2 ^ Z.of_nat n.
Proof.
  induction n as [|n IH]; [simpl; lia|]. unfold shl in *. simpl Nat.iter. rewrite Pos2Z.inj_xO, IH.
  rewrite Nat2Z.inj_succ, Z.pow_succ_r by lia. lia.
Qed.

Lemma digits_shl p n : digits (shl p n) = digits p + Z.of_nat n.
Proof.
  unfold digits, shl. induction n as [|n IH]; [simpl; lia|]. simpl Nat.iter. cbn [digits2_pos].
  rewrite Pos2Z.inj_succ, IH. lia.
Qed.

Lemma shl_shl p n m : shl (shl p n) m = shl p (m + n).
Proof. unfold shl. by rewrite Nat.iter_add. Qed.

Lemma shl_align_spec p ex ex' : ex' ≤ ex → shl_align p ex ex' = (shl p (Z.to_nat (ex - ex')), ex').
Proof.
  intros Hle. unfold shl_align. destruct (ex' - ex) as [|q|q] eqn:Hd; [|lia|].
  - by replace (Z.to_nat (ex - ex')) with 0%nat by lia; replace ex' with ex by lia.
  - replace (Z.to_nat (ex - ex')) with (Pos.to_nat q) by lia. unfold shl. f_equal. apply Pos2Nat.inj_iter.
Qed.

Lemma shl_align_keep p ex ex' : ex ≤ ex' → shl_align p ex ex' = (p, ex).
Proof. intros Hle. unfold shl_align. by destruct (ex' - ex) as [|q|q] eqn:Hd; [..|lia]. Qed.

Lemma iter_pos_nat {A} (f : A → A) n x : SpecFloat.iter_pos f n x = Nat.iter (Pos.to_nat n) f x.
Proof.
  revert x. induction n as [n IH|n IH|]; intros x; cbn [SpecFloat.iter_pos]; [| |done]; rewrite !IH.
  - replace (Pos.to_nat n~1) with (Pos.to_nat n + Pos.to_nat n + 1)%nat by lia. by rewrite !Nat.iter_add.
  - replace (Pos.to_nat n~0) with (Pos.to_nat n + Pos.to_nat n)%nat by lia. by rewrite Nat.iter_add.
Qed.

(** Shifting out zeros is exact. *)
Lemma shr_shl p n e : shr (shr_record_of_loc (Zpos (shl p n)) loc_Exact) e (Z.of_nat n)
  = (shr_record_of_loc (Zpos p) loc_Exact, e + Z.of_nat n).
Proof.
  destruct n as [|n]; [simpl; f_equal; lia|]. unfold shr.
  change (Z.of_nat (S n)) with (Zpos (Pos.of_succ_nat n)). cbv iota beta. rewrite iter_pos_nat, SuccNat2Pos.id_succ.
  f_equal. cbn [shr_record_of_loc]. induction (S n) as [|k IH]; [done|].
  rewrite Nat.iter_succ_r. unfold shl at 1. cbn [Nat.iter]. fold (shl p k). exact IH.
Qed.

Lemma fexp_small d : -1021 ≤ d → fexp 53 1024 d = d - 53.
Proof. intros Hd. unfold fexp, emin. lia. Qed.

(** The number [p * 2^k * 2^-k], for [p] of at most 53 digits. *)
Definition exact (p : positive) : f64 := S754_finite false (shl p (Z.to_nat (53 - digits p))) (digits p - 53).

Lemma round_aux_exact p : digits p ≤ 53 → ∀ n, 
  binary_round_aux 53 1024 false (Zpos (shl p (Z.to_nat (53 - digits p) + n))) (digits p - 53 - Z.of_nat n) loc_Exact
  = exact p.
Proof.
  intros Hd n. destruct (digits_bounds p) as [H1 _]. unfold binary_round_aux.
  set (q := shl p (Z.to_nat (53 - digits p))).
  assert (digits q = 53) as Hq by (unfold q; rewrite digits_shl; lia).
  replace (shl p (Z.to_nat (53 - digits p) + n)) with (shl q n) by (unfold q; rewrite shl_shl; f_equal; lia).
  assert (∀ e, -1074 ≤ e → shr_fexp 53 1024 (Zpos q) e loc_Exact = (shr_record_of_loc (Zpos q) loc_Exact, e)) as Hstay.
  { intros e He. unfold shr_fexp. change (Zdigits2 (Zpos q)) with (digits q). rewrite Hq, fexp_small by lia.
    by replace (53 + e - 53 - e) with 0 by lia. }
  assert (shr_fexp 53 1024 (Zpos (shl q n)) (digits p - 53 - Z.of_nat n) loc_Exact
    = (shr_record_of_loc (Zpos q) loc_Exact, digits p - 53)) as ->.
  { unfold shr_fexp. change (Zdigits2 (Zpos (shl q n))) with (digits (shl q n)). rewrite digits_shl, Hq, fexp_small by lia.
    replace (53 + Z.of_nat n + (digits p - 53 - Z.of_nat n) - 53 - (digits p - 53 - Z.of_nat n)) with (Z.of_nat n) by lia.
    rewrite shr_shl. f_equal. lia. }
  cbn [shr_record_of_loc loc_of_shr_record round_nearest_even shr_m]. rewrite Hstay by lia. cbn [shr_record_of_loc shr_m].
  rewrite (proj2 (Z.leb_le _ _)) by lia. done.
Qed.

Lemma round_exact p k : digits p ≤ 53 → binary_round 53 1024 false (shl p k) (- Z.of_nat k) = exact p.
Proof.
  intros Hd. destruct (digits_bounds p) as [H1 _]. unfold binary_round.
  change (Zpos (digits2_pos (shl p k))) with (digits (shl p k)). rewrite digits_shl, fexp_small by lia.
  replace (digits p + Z.of_nat k + - Z.of_nat k - 53) with (digits p - 53) by lia.
  destruct (decide (digits p - 53 ≤ - Z.of_nat k)) as [Hle|Hgt].
  - rewrite shl_align_spec, shl_shl by done. 
    replace (Z.to_nat (- Z.of_nat k - (digits p - 53)) + k)%nat with (Z.to_nat (53 - digits p) + 0)%nat by lia.
    pose proof (round_aux_exact p Hd 0) as Hr. by rewrite Z.sub_0_r in Hr.
  - rewrite shl_align_keep by lia.
    pose proof (round_aux_exact p Hd (k - Z.to_nat (53 - digits p))) as Hr.
    replace (Z.to_nat (53 - digits p) + (k - Z.to_nat (53 - digits p)))%nat with k in Hr by lia.
    by replace (digits p - 53 - Z.of_nat (k - Z.to_nat (53 - digits p))) with (- Z.of_nat k) in Hr by lia.
Qed.

Lemma f64_of_pos p : Zpos p < 2 ^ 53 → f64_of (Zpos p) = exact p.
Proof. intros Hp. apply (round_exact p 0). apply digits_le; lia. Qed.

(** Subtraction of integers is exact. *)
Lemma f64_sub_of a b : 0 ≤ b ≤ a → a < 2 ^ 53 → f64_sub (f64_of a) (f64_of b) = f64_of (a - b).
Proof.
  intros [Hb Hab] Ha. destruct b as [|b|b]; [|..|lia].
  { rewrite Z.sub_0_r. change (f64_of 0) with (S754_zero false). destruct a as [|a|a]; [done| |lia].
    by rewrite f64_of_pos. }
  destruct a as [|a|a]; [lia| |lia]. rewrite !f64_of_pos by lia.
  assert (digits a ≤ 53 ∧ digits b ≤ digits a) as [Hda Hdb].
  { split; [apply digits_le; lia|]. destruct (digits_bounds a) as (? & _ & Hu). apply digits_le; lia. }
  unfold f64_sub, exact, SFsub. cbn [cond_Zopp].
  replace ((digits a - 53) `min` (digits b - 53)) with (digits b - 53) by lia.
  rewrite (shl_align_spec (shl a _)), shl_shl, shl_align_keep by lia. cbn [fst]. rewrite !shl_value.
  set (k := Z.to_nat (53 - digits b)).
  replace (Z.to_nat (digits a - 53 - (digits b - 53)) + Z.to_nat (53 - digits a))%nat with k by lia.
  replace (digits b - 53) with (- Z.of_nat k) by lia. rewrite <-Z.mul_sub_distr_r.
  destruct (Zpos a - Zpos b) as [|c|c] eqn:Hc; [done| |lia].
  rewrite <-shl_value. cbn [binary_normalize]. rewrite round_exact, f64_of_pos by (apply digits_le || idtac; lia). done.
Qed.

(** Comparison of integers is exact. *)
Lemma f64_compare_of a b : 0 ≤ a < 2 ^ 53 → 0 ≤ b < 2 ^ 53 → SFcompare (f64_of a) (f64_of b) = Some (a ?= b).
Proof.
  intros Ha Hb. destruct a as [|a|a]; [|..|lia]; (destruct b as [|b|b]; [|..|lia]); try rewrite !f64_of_pos by lia; try done.
  unfold exact. cbn [SFcompare]. destruct (digits_bounds a) as (Ha1 & Hal & Hau). destruct (digits_bounds b) as (Hb1 & Hbl & Hbu).
  assert (digits a ≤ 53 ∧ digits b ≤ 53) as [Hda Hdb] by (split; apply digits_le; lia).
  destruct (Z.compare_spec (digits a - 53) (digits b - 53)) as [Heq|Hlt|Hgt].
  - change (Pos.compare_cont Eq ?x ?y) with (Z.compare (Zpos x) (Zpos y)). f_equal. rewrite !shl_value.
    replace (digits b) with (digits a) by lia. rewrite (Z.mul_comm (Zpos a)), (Z.mul_comm (Zpos b)).
    symmetry. apply Zmult_compare_compat_l, Z.lt_gt, Z.pow_pos_nonneg; lia.
  - f_equal. symmetry. apply Z.compare_lt_iff.
    assert (2 ^ digits a ≤ 2 ^ (digits b - 1)) by (apply Z.pow_le_mono_r; lia). lia.
  - f_equal. symmetry. apply Z.compare_gt_iff.
    assert (2 ^ digits b ≤ 2 ^ (digits a - 1)) by (apply Z.pow_le_mono_r; lia). lia.
Qed.

Lemma f64_le_of a b : 0 ≤ a < 2 ^ 53 → 0 ≤ b < 2 ^ 53 → f64_le (f64_of a) (f64_of b) = (a <=? b).
Proof. intros Ha Hb. unfold f64_le, SFleb. rewrite f64_compare_of by done. by unfold Z.leb; destruct (a ?= b). Qed.

Lemma f64_lt_of a b : 0 ≤ a < 2 ^ 53 → 0 ≤ b < 2 ^ 53 → f64_lt (f64_of a) (f64_of b) = (a <? b).
Proof. intros Ha Hb. unfold f64_lt, SFltb. rewrite f64_compare_of by done. by unfold Z.ltb; destruct (a ?= b). Qed.

(** An integer is a finite number, and is its own floor. *)
Lemma f64_of_finite a : 0 ≤ a < 2 ^ 53 → is_finite (f64_of a) = true.
Proof. intros Ha. destruct a as [|a|a]; [done| |lia]. by rewrite f64_of_pos by lia. Qed.

Lemma floor_of a : 0 ≤ a < 2 ^ 53 → floor (f64_of a) = a.
Proof.
  intros Ha. destruct a as [|a|a]; [done| |lia]. rewrite f64_of_pos by lia. unfold exact, floor.
  assert (digits a ≤ 53) by (apply digits_le; lia). destruct (decide (digits a = 53)) as [->|].
  - simpl. by rewrite Z.mul_1_r.
  - rewrite (proj2 (Z.leb_gt _ _)), shl_value by lia.
    replace (Z.of_nat (Z.to_nat (53 - digits a))) with (- (digits a - 53)) by lia. apply Z.div_mul, Z.pow_nonzero; lia.
Qed.
