(* ===== verification/Text.v ===== *)
(** * Text

    A [&str] as its bytes, a list of characters, with the functions of [str] the
    modelled crates use.  Each of them looks at ASCII characters only, so the byte
    offsets it cuts at are character boundaries. *)

From S2P Require Import Prelude.

Local Open Scope char_scope.

Abbreviation text := (list ascii) (only parsing).

(** A literal. *)
Definition lit (s : string) : text := String.list_ascii_of_string s.

Definition code (c : ascii) : Z := Z.of_N (N_of_ascii c).

Definition between (lo hi : Z) (c : ascii) : bool := (lo <=? code c)%Z && (code c <=? hi)%Z.

Definition is_ascii_uppercase (c : ascii) : bool := between 65 90 c.
Definition is_ascii_alphabetic (c : ascii) : bool := between 65 90 c || between 97 122 c.
Definition is_digit (c : ascii) : bool := between 48 57 c.
Definition is_ascii_alphanumeric (c : ascii) : bool := is_ascii_alphabetic c || is_digit c.

Definition lower_char (c : ascii) : ascii :=
  if is_ascii_uppercase c then ascii_of_N (N_of_ascii c + 32) else c.

(** [to_ascii_lowercase]. *)
Definition to_ascii_lowercase (s : text) : text := lower_char <$> s.

(** [str::find] with a character pattern: the index of the first match. *)
Definition find_char (p : ascii → bool) (s : text) : option nat :=
  fst <$> list_find (λ c, p c = true) s.

Definition is_char (c d : ascii) : bool := bool_decide (c = d).

(** [str::contains] with a character. *)
Definition contains_char (c : ascii) (s : text) : bool := bool_decide (c ∈ s).

(** [str::strip_prefix]. *)
Definition strip_prefix (prefix s : text) : option text :=
  if bool_decide (take (length prefix) s = prefix) then Some (drop (length prefix) s) else None.

(** [str::split] with a character: the parts between the separators. *)
Fixpoint split_char (sep : ascii) (s : text) : list text :=
  match s with
  | [] => [[]]
  | c :: rest =>
      if is_char sep c then [] :: split_char sep rest
      else match split_char sep rest with
           | part :: parts => (c :: part) :: parts
           | [] => [[c]]
           end
  end.

(** [str::split_once] with a character. *)
Definition split_once (c : ascii) (s : text) : option (text * text) :=
  i ← find_char (is_char c) s; Some (take i s, drop (S i) s).

(** A byte. *)
Definition chr (n : Z) : ascii := ascii_of_N (Z.to_N n).

(** [format!("{n}")] on an unsigned integer. *)
Definition fmt_uint (n : Z) : text := lit (pretty n).

(** [char::to_digit]. *)
Definition to_digit (radix : Z) (c : ascii) : option Z :=
  let value := if between 48 57 c then Some ((code c - 48)%Z)
               else if between 97 122 c then Some ((code c - 87)%Z)
               else if between 65 90 c then Some ((code c - 55)%Z) else None in
  d ← value; if (d <? radix)%Z then Some d else None.

(** [Ord] on strings: byte by byte. *)
Fixpoint text_leb (a b : text) : bool :=
  match a, b with
  | [], _ => true
  | _ :: _, [] => false
  | x :: a', y :: b' =>
      if (code x <? code y)%Z then true else if (code x =? code y)%Z then text_leb a' b' else false
  end.

(** [str::trim_end_matches] with a character. *)
Fixpoint drop_chars (c : ascii) (s : text) : text :=
  match s with
  | [] => []
  | d :: rest => if is_char c d then drop_chars c rest else s
  end.
Definition trim_end_char (c : ascii) (s : text) : text := reverse (drop_chars c (reverse s)).

(** [eq_ignore_ascii_case]. *)
Definition eq_ignore_ascii_case (a b : text) : bool :=
  bool_decide (to_ascii_lowercase a = to_ascii_lowercase b).

(** The UTF-8 encodings of the characters of [char::is_whitespace]. *)
Definition WHITESPACE : list (list Z) :=
  [[0x09]; [0x0A]; [0x0B]; [0x0C]; [0x0D]; [0x20]; [0xC2; 0x85]; [0xC2; 0xA0];
   [0xE1; 0x9A; 0x80];
   [0xE2; 0x80; 0x80]; [0xE2; 0x80; 0x81]; [0xE2; 0x80; 0x82]; [0xE2; 0x80; 0x83];
   [0xE2; 0x80; 0x84]; [0xE2; 0x80; 0x85]; [0xE2; 0x80; 0x86]; [0xE2; 0x80; 0x87];
   [0xE2; 0x80; 0x88]; [0xE2; 0x80; 0x89]; [0xE2; 0x80; 0x8A];
   [0xE2; 0x80; 0xA8]; [0xE2; 0x80; 0xA9]; [0xE2; 0x80; 0xAF]; [0xE2; 0x81; 0x9F];
   [0xE3; 0x80; 0x80]]%Z.

(** Remove one of the given encodings from the front, as often as one is there. *)
Fixpoint strip_front (fuel : nat) (encodings : list (list Z)) (s : text) : text :=
  match fuel with
  | O => s
  | S n =>
      match list_find (λ e, code <$> take (length e) s = e) encodings with
      | Some (_, e) => strip_front n encodings (drop (length e) s)
      | None => s
      end
  end.

(** [str::trim]: a suffix of a UTF-8 string that is the encoding of a character is
    its last character. *)
Definition trim (s : text) : text :=
  let s := strip_front (length s) WHITESPACE s in
  reverse (strip_front (length s) (reverse <$> WHITESPACE) (reverse s)).

(** The length of the whitespace character a string starts with, if it does. *)
Definition whitespace_front (s : text) : option nat :=
  (λ found, length found.2) <$> list_find (λ e, code <$> take (length e) s = e) WHITESPACE.

(** End the current word. *)
Definition flush (word : text) (words : list text) : list text :=
  match word with [] => words | _ => reverse word :: words end.

(** The scan of [str::split_whitespace]: [skip] bytes of the current whitespace character
    are left, [word] is the current word backwards. *)
Fixpoint split_whitespace_from (skip : nat) (word s : text) : list text :=
  match s with
  | [] => flush word []
  | c :: rest =>
      match skip with
      | S k => split_whitespace_from k word rest
      | O =>
          match whitespace_front s with
          | Some n => flush word (split_whitespace_from (pred n) [] rest)
          | None => split_whitespace_from 0 (c :: word) rest
          end
      end
  end.

(** [str::split_whitespace]. *)
Definition split_whitespace (s : text) : list text := split_whitespace_from 0 [] s.

(** [[T]::join] with a separator. *)
Fixpoint join (sep : text) (parts : list text) : text :=
  match parts with
  | [] => []
  | [part] => part
  | part :: rest => part ++ sep ++ join sep rest
  end.

(** Bounds on a byte. *)
Definition is_continuation (c : ascii) : bool := between 0x80 0xBF c.

(** The well-formed encodings of two, three and four bytes. *)
Definition utf8_two (a b : ascii) : bool := between 0xC2 0xDF a && is_continuation b.
Definition utf8_three (a b c : ascii) : bool :=
  ((between 0xE0 0xE0 a && between 0xA0 0xBF b) || (between 0xE1 0xEC a && is_continuation b)
   || (between 0xED 0xED a && between 0x80 0x9F b) || (between 0xEE 0xEF a && is_continuation b))
  && is_continuation c.
Definition utf8_four (a b c d : ascii) : bool :=
  ((between 0xF0 0xF0 a && between 0x90 0xBF b) || (between 0xF1 0xF3 a && is_continuation b)
   || (between 0xF4 0xF4 a && between 0x80 0x8F b))
  && is_continuation c && is_continuation d.

(** Whether [String::from_utf8] accepts the bytes. *)
Fixpoint from_utf8 (s : text) : bool :=
  match s with
  | [] => true
  | a :: s1 =>
      if between 0 0x7F a then from_utf8 s1
      else match s1 with
           | [] => false
           | b :: s2 =>
               if utf8_two a b then from_utf8 s2
               else match s2 with
                    | [] => false
                    | c :: s3 =>
                        if utf8_three a b c then from_utf8 s3
                        else match s3 with
                             | [] => false
                             | d :: s4 => if utf8_four a b c d then from_utf8 s4 else false
                             end
                    end
           end
  end.

(** A character of printable ASCII other than the space. *)
Definition is_graphic (c : ascii) : bool := between 33 126 c.

(** A word: not empty, printable ASCII without spaces. *)
Definition is_word (w : text) : bool := negb (bool_decide (w = [])) && forallb is_graphic w.

(** ** Splitting *)

Lemma find_char_Some p s i : find_char p s = Some i ↔
  ∃ c, s = take i s ++ c :: drop (S i) s ∧ p c = true ∧ Forall (λ c, p c = false) (take i s).
Proof.
  unfold find_char. rewrite fmap_Some. split.
  - intros ([j c] & Hf & ->). apply list_find_Some in Hf as (Hj & Hc & Hbefore). exists c. simpl.
    split; [symmetry; by apply take_drop_middle|]. split; [done|]. apply Forall_lookup.
    intros k d Hk. apply lookup_take_Some in Hk as [Hk Hlt].
    apply not_true_iff_false. by eapply Hbefore.
  - intros (c & Hs & Hc & Hbefore). exists (i, c). split; [|done].
    assert (length (take i s) = i ∨ length s < i)%nat as [Hlen|Hlen].
    { rewrite length_take. lia. }
    + apply list_find_Some. assert (s !! i = Some c) as Hi.
      { rewrite Hs. rewrite lookup_app_r by lia. by rewrite Hlen, Nat.sub_diag. }
      split; [done|]. split; [done|]. intros k d Hk Hlt.
      rewrite Forall_lookup in Hbefore. apply not_true_iff_false.
      apply (Hbefore k). apply lookup_take_Some. split; [done|lia].
    + exfalso. apply (f_equal length) in Hs. rewrite length_app, length_take in Hs. simpl in Hs. lia.
Qed.

Lemma find_char_None p s : find_char p s = None ↔ Forall (λ c, p c = false) s.
Proof.
  unfold find_char. rewrite fmap_None, list_find_None. apply Forall_iff. intros c.
  by rewrite not_true_iff_false.
Qed.

Lemma drop_past {A} (a b : list A) c : drop (S (length a)) (a ++ c :: b) = b.
Proof. by rewrite (cons_middle c a b), app_assoc, drop_app_length' by (rewrite length_app; simpl; lia). Qed.

Lemma find_char_app p before c after : Forall (λ c, p c = false) before → p c = true →
  find_char p (before ++ c :: after) = Some (length before).
Proof.
  intros Hb Hc. apply find_char_Some. exists c. by rewrite take_app_length, drop_past.
Qed.

Lemma strip_prefix_Some prefix s rest : strip_prefix prefix s = Some rest ↔ s = prefix ++ rest.
Proof.
  unfold strip_prefix. case_bool_decide as Hp.
  - split; [intros [= <-]; rewrite <-Hp at 1; by rewrite take_drop|].
    intros ->. by rewrite drop_app_length.
  - split; [done|]. intros ->. destruct Hp. by rewrite take_app_length.
Qed.

Lemma strip_prefix_None prefix s : strip_prefix prefix s = None ↔ ∀ rest, s ≠ prefix ++ rest.
Proof.
  split.
  - intros Hn rest Hs. apply strip_prefix_Some in Hs. congruence.
  - intros Hs. destruct (strip_prefix prefix s) as [rest|] eqn:Hr; [|done].
    apply strip_prefix_Some in Hr. by destruct (Hs rest).
Qed.

Lemma split_char_cons sep s : ∃ part parts, split_char sep s = part :: parts.
Proof. induction s as [|c s (part & parts & IH)]; simpl; [eauto|]. destruct (is_char sep c); rewrite ?IH; eauto. Qed.

(** A string without the separator is one part. *)
Lemma split_char_free sep part : sep ∉ part → split_char sep part = [part].
Proof.
  induction part as [|c part IH]; [done|]. rewrite not_elem_of_cons. intros [Hc Hp]. simpl.
  unfold is_char. rewrite bool_decide_eq_false_2 by done. by rewrite IH.
Qed.

Lemma split_char_app sep part rest : sep ∉ part →
  split_char sep (part ++ sep :: rest) = part :: split_char sep rest.
Proof.
  induction part as [|c part IH].
  { simpl. unfold is_char. by rewrite bool_decide_eq_true_2. }
  rewrite not_elem_of_cons. intros [Hc Hp]. simpl. unfold is_char.
  rewrite bool_decide_eq_false_2 by done. by rewrite IH.
Qed.

(** The first part ends at the first separator. *)
Lemma split_char_inv sep s part parts : split_char sep s = part :: parts →
  (sep ∉ part) ∧ ((parts = [] ∧ s = part) ∨ ∃ rest, s = part ++ (sep :: rest) ∧ split_char sep rest = parts).
Proof.
  revert part parts. induction s as [|c s IH]; intros part parts; simpl.
  { intros [= <- <-]. split; [set_solver|by left]. }
  unfold is_char. case_bool_decide as Hc.
  - intros [= <- <-]. subst c. split; [set_solver|]. right. by exists s.
  - destruct (split_char_cons sep s) as (p & ps & Hs). rewrite Hs. intros [= <- <-].
    destruct (IH p ps Hs) as [Hp [[-> ->]|(rest & -> & Hr)]].
    + split; [set_solver|by left].
    + split; [set_solver|]. right. by exists rest.
Qed.

(** Splitting on a separator no part contains undoes joining with it. *)
Lemma split_char_join sep parts : parts ≠ [] → Forall (λ part, sep ∉ part) parts →
  split_char sep (join [sep] parts) = parts.
Proof.
  intros Hne Hparts. induction Hparts as [|part parts Hp Hparts IH]; [done|]. destruct parts as [|next parts].
  - by apply split_char_free.
  - change (join [sep] (part :: next :: parts)) with (part ++ sep :: join [sep] (next :: parts)).
    rewrite split_char_app by done. by rewrite IH.
Qed.

(** Joining undoes splitting. *)
Lemma join_split_char sep s : join [sep] (split_char sep s) = s.
Proof.
  induction s as [|c s IH]; [done|]. simpl. destruct (split_char_cons sep s) as (part & parts & Hs).
  unfold is_char. case_bool_decide as Hc.
  - subst c. rewrite Hs in *. change (join [sep] ([] :: part :: parts)) with (sep :: join [sep] (part :: parts)).
    by rewrite IH.
  - rewrite Hs in *. destruct parts as [|q parts]; simpl in *; by rewrite <-IH.
Qed.

(** Splitting at any separator. *)
Lemma split_char_app_sep sep a b : split_char sep (a ++ sep :: b) = split_char sep a ++ split_char sep b.
Proof.
  induction a as [|c a IH]; simpl.
  - unfold is_char. by rewrite bool_decide_eq_true_2.
  - rewrite IH. destruct (is_char sep c); [done|].
    by destruct (split_char_cons sep a) as (part & parts & ->).
Qed.

Lemma join_app sep l k : l ≠ [] → k ≠ [] → join sep (l ++ k) = join sep l ++ sep ++ join sep k.
Proof.
  intros Hl Hk. induction l as [|x l IH]; [done|]. destruct l as [|y l].
  - destruct k; [done|]. done.
  - change (join sep ((x :: y :: l) ++ k)) with (x ++ sep ++ join sep ((y :: l) ++ k)).
    rewrite IH by done. change (join sep (x :: y :: l)) with (x ++ sep ++ join sep (y :: l)).
    by rewrite !app_assoc.
Qed.

(** The parts of [a] come first among the parts of [s] exactly when [s] is [a], or [a]
    and then a separator. *)
Lemma split_char_prefix sep a s : split_char sep a `prefix_of` split_char sep s ↔
  s = a ∨ ∃ rest, s = a ++ sep :: rest.
Proof.
  split.
  - intros [k Hk]. rewrite <-(join_split_char sep s), Hk.
    destruct k as [|part k]; [left; by rewrite app_nil_r, join_split_char|]. right.
    destruct (split_char_cons sep a) as (p & ps & Ha).
    rewrite join_app by (rewrite ?Ha; done). rewrite join_split_char. by exists (join [sep] (part :: k)).
  - intros [->|[rest ->]]; [done|]. rewrite split_char_app_sep. by apply prefix_app_r.
Qed.

(** ** Words *)

(** No whitespace character starts with a printable byte. *)
Lemma whitespace_front_graphic c s : is_graphic c = true → whitespace_front (c :: s) = None.
Proof.
  unfold is_graphic, between. rewrite andb_true_iff, !Z.leb_le. intros Hc.
  unfold whitespace_front. rewrite fmap_None, list_find_None.
  assert (Forall (λ e, match e with h :: _ => h < 33 ∨ 126 < h | [] => False end)%Z WHITESPACE) as Hw.
  { repeat (constructor; [lia|]). constructor. }
  eapply Forall_impl; [exact Hw|]. intros [|h e]; [done|]. simpl. intros Hh [= ? _]. lia.
Qed.

Lemma whitespace_front_space s : whitespace_front (" " :: s) = Some 1.
Proof. reflexivity. Qed.

Lemma strip_front_nothing fuel (encodings : list (list Z)) s :
  Forall (λ e, match e with h :: _ => (h < 33 ∨ 126 < h)%Z | [] => False end) encodings → (∀ c, head s = Some c → is_graphic c = true) →
  strip_front fuel encodings s = s.
Proof.
  intros He Hs. destruct fuel as [|fuel]; [done|]. cbn [strip_front]. replace (list_find _ encodings) with (@None (nat * list Z)); [done|].
  symmetry. apply list_find_None. eapply Forall_impl; [exact He|]. intros [|h e]; [done|]. intros Hh. destruct s as [|c s]; [done|].
  specialize (Hs c eq_refl). unfold is_graphic, between in Hs. rewrite andb_true_iff, !Z.leb_le in Hs. simpl. intros [= ? _]. lia.
Qed.

Lemma trim_graphic s : Forall (λ c, is_graphic c = true) s → trim s = s.
Proof.
  intros Hs. assert (∀ t, Forall (λ c, is_graphic c = true) t → ∀ c, head t = Some c → is_graphic c = true) as Hhead.
  { intros t Ht c. destruct Ht; [done|]. by intros [= <-]. }
  unfold trim. cbn zeta. rewrite (strip_front_nothing _ WHITESPACE s); [|repeat (constructor; [lia|]); constructor|exact (Hhead s Hs)].
  rewrite strip_front_nothing; [apply reverse_involutive|repeat (constructor; [vm_compute; tauto|]); constructor|].
  apply (Hhead (reverse s)). by apply Forall_reverse.
Qed.

Lemma is_word_spec w : is_word w = true ↔ w ≠ [] ∧ Forall (λ c, is_graphic c = true) w.
Proof.
  unfold is_word. rewrite andb_true_iff, negb_true_iff, bool_decide_eq_false, forallb_forall.
  by rewrite list.Forall_forall; setoid_rewrite list_elem_of_In.
Qed.

(** No whitespace character starts inside [p] when [s] follows it. *)
Definition blank_free_before (p s : text) : Prop :=
  ∀ i, i < length p → whitespace_front (drop i p ++ s) = None.

(** A maximal run between whitespace: not empty, and no whitespace character in it. *)
Definition blank_free (w : text) : Prop := w ≠ [] ∧ blank_free_before w [].

Lemma take_fmap_code_app (e : list Z) (s t : text) : length e ≤ length s →
  code <$> take (length e) (s ++ t) = code <$> take (length e) s.
Proof. intros Hle. by rewrite take_app_le. Qed.

Lemma whitespace_front_None s : whitespace_front s = None ↔
  Forall (λ e, code <$> take (length e) s ≠ e) WHITESPACE.
Proof. unfold whitespace_front. by rewrite fmap_None, list_find_None. Qed.

Lemma whitespace_front_prefix s t : whitespace_front (s ++ t) = None → whitespace_front s = None.
Proof.
  rewrite !whitespace_front_None. intros Hst. eapply Forall_impl; [exact Hst|].
  intros e Hne He. apply Hne.
  rewrite take_fmap_code_app; [done|]. apply (f_equal length) in He.
  rewrite length_fmap, length_take in He. lia.
Qed.

(** A whitespace character that starts before a space ends before it. *)
Lemma whitespace_front_before_space s t : s ≠ [] → whitespace_front s = None →
  whitespace_front (s ++ " " :: t) = None.
Proof.
  intros Hs. rewrite !whitespace_front_None.
  assert (Forall (λ e, Forall (λ b, b ≠ 32%Z) (tail e)) WHITESPACE) as Htail.
  { repeat (constructor; [repeat (constructor; [done|]); constructor|]). constructor. }
  intros Hf. eapply Forall_impl; [exact (proj2 (Forall_and _ _) (conj Htail Hf))|].
  intros e [He Hne] Heq.
  destruct (decide (length e ≤ length s)) as [Hle|Hgt].
  { apply Hne. by rewrite take_fmap_code_app in Heq. }
  destruct s as [|c s]; [done|]. destruct e as [|b e]; [simpl in Hgt; lia|].
  simpl in *. injection Heq as _ Heq. rewrite list.Forall_forall in He. apply (He 32%Z); [|done].
  rewrite <-Heq. rewrite take_app_ge by lia. rewrite fmap_app. apply elem_of_app. right.
  destruct (length e - length s) eqn:Hd; [lia|]. simpl. left.
Qed.

Lemma blank_free_before_cons c p s : blank_free_before (c :: p) s ↔
  whitespace_front (c :: p ++ s) = None ∧ blank_free_before p s.
Proof.
  split.
  - intros H. split; [apply (H 0); simpl; lia|]. intros i Hi. apply (H (S i)). simpl. lia.
  - intros [H0 H] [|i] Hi; [done|]. apply H. simpl in Hi. lia.
Qed.

Lemma blank_free_space w t : blank_free_before w [] → blank_free_before w (" " :: t).
Proof.
  intros H i Hi. apply whitespace_front_before_space.
  - intros Hn. apply (f_equal length) in Hn. rewrite length_drop in Hn. simpl in Hn. lia.
  - specialize (H i Hi). by rewrite app_nil_r in H.
Qed.

Lemma split_whitespace_from_run w : ∀ word s, blank_free_before w s →
  split_whitespace_from 0 word (w ++ s) = split_whitespace_from 0 (reverse w ++ word) s.
Proof.
  induction w as [|c w IH]; intros word s; [done|].
  rewrite blank_free_before_cons. intros [Hc Hw].
  change ((c :: w) ++ s) with (c :: (w ++ s)).
  cbn [split_whitespace_from]. rewrite Hc. rewrite IH by done.
  by rewrite reverse_cons, <-app_assoc.
Qed.

Lemma flush_word w words : w ≠ [] → flush (reverse w) words = w :: words.
Proof.
  intros Hw. destruct (reverse w) as [|c r] eqn:Hr.
  - apply (f_equal reverse) in Hr. rewrite reverse_involutive in Hr. done.
  - unfold flush. by rewrite <-Hr, reverse_involutive.
Qed.

Lemma split_whitespace_cons w s : blank_free w →
  split_whitespace (w ++ " " :: s) = w :: split_whitespace s.
Proof.
  intros [Hne Hw]. unfold split_whitespace.
  rewrite split_whitespace_from_run, app_nil_r by (by apply blank_free_space).
  cbn [split_whitespace_from]. rewrite whitespace_front_space. simpl pred. by rewrite flush_word.
Qed.

Lemma split_whitespace_one w : blank_free w → split_whitespace w = [w].
Proof.
  intros [Hne Hw]. unfold split_whitespace.
  rewrite <-(app_nil_r w) at 1. rewrite split_whitespace_from_run, app_nil_r by done.
  simpl. by rewrite flush_word.
Qed.

(** Splitting on whitespace undoes joining runs without whitespace with a space. *)
Lemma split_whitespace_join ws : Forall blank_free ws → split_whitespace (join [" "] ws) = ws.
Proof.
  induction 1 as [|w ws Hw Hws IH]; [done|]. destruct ws as [|next ws].
  - by apply split_whitespace_one.
  - change (join [" "] (w :: next :: ws)) with (w ++ " " :: join [" "] (next :: ws)).
    rewrite split_whitespace_cons by done. by rewrite IH.
Qed.

Lemma is_word_blank_free w : is_word w = true → blank_free w.
Proof.
  rewrite is_word_spec. intros [Hne Hw]. split; [done|]. clear Hne.
  induction Hw as [|c w Hc _ IH]; [intros i Hi; simpl in Hi; lia|].
  apply blank_free_before_cons. split; [by apply whitespace_front_graphic|done].
Qed.

(** The parts [split_whitespace] returns are runs without whitespace. *)
Lemma split_whitespace_from_parts s : ∀ skip word, (skip ≠ 0 → word = []) →
  blank_free_before (reverse word) s → Forall blank_free (split_whitespace_from skip word s).
Proof.
  assert (∀ word s words, blank_free_before (reverse word) s → Forall blank_free words →
    Forall blank_free (flush word words)) as Hflush.
  { intros word t words Hw Hwords. unfold flush. destruct word as [|c word]; [done|].
    constructor; [|done]. split.
    - intros Hn. apply (f_equal length) in Hn. rewrite length_reverse in Hn. simpl in Hn. lia.
    - intros i Hi. rewrite app_nil_r. by eapply whitespace_front_prefix, Hw. }
  assert (∀ s, blank_free_before (reverse []) s) as Hnil by (intros ? i Hi; simpl in Hi; lia).
  induction s as [|c s IH]; intros skip word Hskip Hw; simpl; [by eapply Hflush|].
  destruct skip as [|k]; [|rewrite Hskip by done; by apply IH].
  destruct (whitespace_front (c :: s)) as [n|] eqn:Hf.
  - eapply Hflush; [exact Hw|]. by apply IH.
  - apply IH; [done|]. rewrite reverse_cons. intros i Hi. rewrite length_app in Hi. simpl in Hi.
    destruct (decide (i = length (reverse word))) as [->|Hne].
    + by rewrite drop_app_length.
    + rewrite drop_app_le by lia. rewrite <-app_assoc. apply Hw. lia.
Qed.

Lemma split_whitespace_parts s : Forall blank_free (split_whitespace s).
Proof. apply split_whitespace_from_parts; [done|]. intros i Hi. simpl in Hi. lia. Qed.

Lemma join_snoc sep parts part : parts ≠ [] → join sep (parts ++ [part]) = join sep parts ++ sep ++ part.
Proof.
  induction parts as [|p parts IH]; intros Hne; [done|]. destruct parts as [|q parts]; [done|].
  change (join sep ((p :: q :: parts) ++ [part])) with (p ++ sep ++ join sep ((q :: parts) ++ [part])).
  rewrite IH by done. change (join sep (p :: q :: parts)) with (p ++ sep ++ join sep (q :: parts)).
  by rewrite !app_assoc.
Qed.

(** ** UTF-8 *)

(** A well-formed prefix can be read on its own. *)
Lemma from_utf8_app s t : from_utf8 s = true → from_utf8 (s ++ t) = from_utf8 t.
Proof.
  remember (length s) as n eqn:Hn. revert s Hn.
  induction n as [n IH] using lt_wf_ind. intros s -> Hs.
  destruct s as [|a s1]; [done|]. cbn [app from_utf8] in *.
  destruct (between 0 127 a); [by eapply IH; [|done|]; simpl; [lia|]|].
  destruct s1 as [|b s2]; [done|]. cbn [app] in *.
  destruct (utf8_two a b); [by eapply IH; [|done|]; simpl; [lia|]|].
  destruct s2 as [|c s3]; [done|]. cbn [app] in *.
  destruct (utf8_three a b c); [by eapply IH; [|done|]; simpl; [lia|]|].
  destruct s3 as [|d s4]; [done|]. cbn [app] in *.
  destruct (utf8_four a b c d); [by eapply IH; [|done|]; simpl; [lia|]|done].
Qed.

Lemma from_utf8_join sep parts : from_utf8 sep = true → Forall (λ p, from_utf8 p = true) parts →
  from_utf8 (join sep parts) = true.
Proof.
  intros Hsep. induction 1 as [|p parts Hp Hps IH]; [done|]. destruct parts as [|q parts]; [done|].
  change (join sep (p :: q :: parts)) with (p ++ sep ++ join sep (q :: parts)).
  by rewrite !from_utf8_app.
Qed.

(** ** Bytes *)

Lemma code_inj c d : code c = code d → c = d.
Proof.
  unfold code. intros Heq%N2Z.inj.
  by rewrite <-(ascii_N_embedding c), <-(ascii_N_embedding d), Heq.
Qed.

Lemma code_chr n : (0 ≤ n ≤ 255)%Z → code (chr n) = n.
Proof. intros Hn. unfold code, chr. rewrite N_ascii_embedding; lia. Qed.

Lemma between_chr lo hi n : (0 ≤ n ≤ 255)%Z → between lo hi (chr n) = ((lo <=? n) && (n <=? hi))%Z.
Proof. intros Hn. unfold between. by rewrite code_chr. Qed.

Lemma to_digit_range radix c d : to_digit radix c = Some d → (0 ≤ d < radix)%Z.
Proof.
  unfold to_digit, between. intros Hd. apply bind_Some in Hd as (v & Hv & Hd).
  destruct (Z.ltb_spec v radix); [|done]. injection Hd as <-. split; [|done].
  repeat case_match; try done; simplify_eq; rewrite !andb_true_iff, !Z.leb_le in *; lia.
Qed.

Lemma is_char_true c d : is_char c d = true ↔ d = c.
Proof. unfold is_char. rewrite bool_decide_eq_true. naive_solver. Qed.

Lemma not_in_is_char c (s : text) : c ∉ s → Forall (λ d, is_char c d = false) s.
Proof.
  intros Hin. apply Forall_forall. intros d Hd. apply not_true_iff_false. rewrite is_char_true. by intros ->.
Qed.

Lemma find_char_at c (a b : text) : c ∉ a → find_char (is_char c) (a ++ c :: b) = Some (length a).
Proof. intros Hin. apply find_char_app; [by apply not_in_is_char|by apply is_char_true]. Qed.

Lemma find_char_absent c s : c ∉ s → find_char (is_char c) s = None.
Proof. intros Hin. by apply find_char_None, not_in_is_char. Qed.

Lemma split_once_Some c s a b : split_once c s = Some (a, b) → s = a ++ c :: b ∧ c ∉ a.
Proof.
  unfold split_once. destruct (find_char (is_char c) s) as [i|] eqn:Hf; [|done]. intros [= <- <-].
  apply find_char_Some in Hf as (d & Hd & Hc & Hbefore). apply is_char_true in Hc as ->. split; [done|].
  intros Hin. rewrite Forall_forall in Hbefore. apply Hbefore in Hin. by rewrite (proj2 (is_char_true c c) eq_refl) in Hin.
Qed.

Lemma split_once_None c s : split_once c s = None → c ∉ s.
Proof.
  unfold split_once. destruct (find_char (is_char c) s) as [i|] eqn:Hf; [done|]. intros _ Hin.
  apply find_char_None in Hf. rewrite Forall_forall in Hf. apply Hf in Hin. by rewrite (proj2 (is_char_true c c) eq_refl) in Hin.
Qed.

Lemma split_once_app c a b : c ∉ a → split_once c (a ++ c :: b) = Some (a, b).
Proof.
  intros Hin. unfold split_once. rewrite find_char_at by done. simpl. rewrite take_app_length.
  by rewrite drop_past.
Qed.

(** Trimming one character. *)
Lemma drop_chars_keeps c s : (∀ d s', s = d :: s' → d ≠ c) → drop_chars c s = s.
Proof.
  destruct s as [|d s]; [done|]. intros Hs. simpl. destruct (is_char c d) eqn:Hd; [|done]. apply is_char_true in Hd. by destruct (Hs d s).
Qed.

Lemma drop_chars_replicate c n s : drop_chars c (replicate n c ++ s) = drop_chars c s.
Proof. induction n as [|n IH]; [done|]. simpl. by rewrite (proj2 (is_char_true c c) eq_refl). Qed.

Lemma drop_chars_spec c s : ∃ n, s = replicate n c ++ drop_chars c s ∧ ∀ d s', drop_chars c s = d :: s' → d ≠ c.
Proof.
  induction s as [|d s (n & Hs & Hne)]; [by exists O|]. simpl. destruct (is_char c d) eqn:Hd.
  - apply is_char_true in Hd as ->. exists (S n). split; [|done]. simpl. by rewrite <-Hs.
  - exists O. split; [done|]. intros d' s' [= <- <-] ->. by rewrite (proj2 (is_char_true c c) eq_refl) in Hd.
Qed.
