(* ===== verification/Json.v ===== *)
(** * JSON values

    The part of [serde_json], a third-party crate, that the modelled crates use:
    its value type, with numbers as a parameter, and the accessors of objects. *)

From Stdlib Require Import SpecFloat.
From S2P Require Import Prelude.

(** ** The part of [serde_json] the crates use

    [serde_json::Number] is third-party: the model takes the type and the three
    accessors as a parameter.  A 64-bit float is its value as the Standard
    Library's [spec_float]. *)
Class SerdeNumber := {
  Number : Type;
  as_i64 : Number → option Z;
  as_u64 : Number → option Z;
  as_f64 : Number → option spec_float;
  Number_from_u32 : Z → Number
}.

(** The constructors of [serde_json::Value]. *)
Inductive Value `{SerdeNumber} : Type :=
| VNull
| VBool (b : bool)
| VNumber (n : Number)
| VString (s : string)
| VArray (items : list Value)
| VObject (fields : list (string * Value)).

(** An object as its entries in order.  The keys of a parsed object are distinct. *)
Abbreviation Map := (list (string * Value)) (only parsing).

(** [value.as_object()]. *)
Definition as_object `{SerdeNumber} (value : Value) : option Map :=
  match value with VObject fields => Some fields | _ => None end.

(** [Map::get]; the keys are distinct, so the first binding is the only one. *)
Definition map_get `{SerdeNumber} (object : Map) (name : string) : option Value :=
  (λ kv : nat * (string * Value), kv.2.2) <$> list_find (λ kv, kv.1 = name) object.

Definition contains_key `{SerdeNumber} (object : Map) (name : string) : bool :=
  bool_decide (is_Some (map_get object name)).

(** [serde_json::Value::pointer], an RFC 6901 lookup. *)
Class SerdePointer `{SerdeNumber} := {
  value_pointer : Value → string → option Value
}.

(** ** An instance *)

Module JsonSamples.

(** Numbers that are integers. *)
#[export] Instance sample_numbers : SerdeNumber := {|
  Number := Z;
  as_i64 n := if (- 2 ^ 63 <=? n)%Z && negb (2 ^ 63 <=? n)%Z then Some n else None;
  as_u64 n := if (0 <=? n)%Z && negb (2 ^ 64 <=? n)%Z then Some n else None;
  as_f64 n := Some match n with
                   | Z0 => S754_zero false
                   | Zpos p => S754_finite false p 0
                   | Zneg p => S754_finite true p 0
                   end;
  Number_from_u32 n := n
|}.

End JsonSamples.
