(* ===== verification/JourneyArtifact.v ===== *)
(** * The journey artifact (crates/ironauth-journey/src/artifact.rs)

    The value model of a declarative sign-in journey: the step-kind vocabulary
    with its wire form, the predicate grammar, steps, transitions, subflows and
    the whole document.  A [&str] is a byte string, a [Vec] is a list, a
    [BTreeSet<String>] is a finite set. *)

From S2P Require Import Prelude Json.

(** ** Versions and identifiers *)

Definition JOURNEY_ENGINE_VERSION : Z := 2.

Definition JOURNEY_SCHEMA_VERSION : string := "ironauth.journey/v1".

Abbreviation StepId := string (only parsing).
Abbreviation SubflowId := string (only parsing).

(** ** Step kinds *)

Inductive StepKind : Type :=
| IdentifierPassword
| MfaChallenge
| MfaEnroll
| ProgressiveProfiling
| OrgPicker
| Decision_
| SubflowCall
| Terminal
| Registration
| RecoveryStart
| RecoveryVerify
| CustomChallenge
| Unknown (raw : string).

#[export] Instance StepKind_eq_dec : EqDecision StepKind.
Proof. solve_decision. Defined.

(** The one declaration list the [step_kinds!] macro expands three ways. *)
Definition step_kinds : list (StepKind * string) :=
  [(IdentifierPassword, "identifier_password");
   (MfaChallenge, "mfa_challenge");
   (MfaEnroll, "mfa_enroll");
   (ProgressiveProfiling, "progressive_profiling");
   (OrgPicker, "org_picker");
   (Decision_, "decision");
   (SubflowCall, "subflow_call");
   (Terminal, "terminal");
   (Registration, "registration");
   (RecoveryStart, "recovery_start");
   (RecoveryVerify, "recovery_verify");
   (CustomChallenge, "custom_challenge")].

Definition BUILT_IN : list string := step_kinds.*2.

Definition as_wire (kind : StepKind) : string :=
  match kind with
  | IdentifierPassword => "identifier_password"
  | MfaChallenge => "mfa_challenge"
  | MfaEnroll => "mfa_enroll"
  | ProgressiveProfiling => "progressive_profiling"
  | OrgPicker => "org_picker"
  | Decision_ => "decision"
  | SubflowCall => "subflow_call"
  | Terminal => "terminal"
  | Registration => "registration"
  | RecoveryStart => "recovery_start"
  | RecoveryVerify => "recovery_verify"
  | CustomChallenge => "custom_challenge"
  | Unknown raw => raw
  end.

(** The arms of [match raw] are tried in declaration order. *)
Definition from_wire (raw : string) : StepKind :=
  match list_find (λ kw : StepKind * string, kw.2 = raw) step_kinds with
  | Some (_, (kind, _)) => kind
  | None => Unknown raw
  end.

Definition is_known (kind : StepKind) : bool :=
  match kind with Unknown _ => false | _ => true end.

Definition is_builtin_only (kind : StepKind) : bool :=
  match kind with
  | Registration | RecoveryStart | RecoveryVerify => true
  | _ => false
  end.

Definition is_terminal (kind : StepKind) : bool :=
  match kind with Terminal => true | _ => false end.

Definition requires_subject (kind : StepKind) : bool :=
  match kind with
  | MfaChallenge | MfaEnroll | ProgressiveProfiling | OrgPicker => true
  | _ => false
  end.

Definition establishes_subject (kind : StepKind) : bool :=
  match kind with
  | IdentifierPassword | Registration | RecoveryVerify => true
  | _ => false
  end.

(** ** The predicate grammar *)

Inductive CmpOp : Type := OpEq | OpNe | OpLt | OpLe | OpGt | OpGe.

Inductive FieldSource : Type :=
| SrcFlow | SrcSignals | SrcSubjectTraits | SrcSubjectGroups | SrcSubjectScopes | SrcRisk.

#[export] Instance FieldSource_eq_dec : EqDecision FieldSource.
Proof. solve_decision. Defined.

Record FieldRef : Type := {
  field_source : FieldSource;
  field_pointer : string
}.

Inductive MemberSet : Type :=
| Group (name : string)
| Scope (name : string).

Inductive Literal `{SerdeNumber} : Type :=
| LNull
| LBool (b : bool)
| LNumber (n : Number)
| LString (s : string).

Inductive Predicate `{SerdeNumber} : Type :=
| PCmp (field : FieldRef) (op : CmpOp) (value : Literal)
| PIn (field : FieldRef) (values : list Literal)
| PMember (field : FieldRef) (set : MemberSet)
| PAnd (operands : list Predicate)
| POr (operands : list Predicate)
| PNot (operand : Predicate)
| PAlways
| PNever.

Inductive DecisionSpec `{SerdeNumber} : Type :=
| DecisionPredicate (predicate : Predicate).

(** ** Documents *)

Record Step `{SerdeNumber} : Type := {
  step_id : StepId;
  step_kind : StepKind;
  step_node_group : option string;
  step_subflow : option SubflowId;
  step_decision : option DecisionSpec;
  step_factor : option string;
  step_comment : option string
}.

Record Transition `{SerdeNumber} : Type := {
  tr_from : StepId;
  tr_to : StepId;
  tr_guard : option Predicate;
  tr_comment : option string
}.

Inductive SubflowSource : Type :=
| Builtin (name : string)
| Inline (subflow_id : SubflowId).

Record SubflowRef : Type := {
  ref_id : SubflowId;
  ref_source : SubflowSource
}.

Record Subflow `{SerdeNumber} : Type := {
  sf_id : SubflowId;
  sf_entry : StepId;
  sf_exits : list StepId;
  sf_comment : option string;
  sf_steps : list Step;
  sf_transitions : list Transition
}.

Record Journey `{SerdeNumber} : Type := {
  j_schema_version : string;
  j_id : string;
  j_engine_version : Z;
  j_entry : StepId;
  j_comment : option string;
  j_steps : list Step;
  j_transitions : list Transition;
  j_subflows : option (list SubflowRef);
  j_subflow_definitions : option (list Subflow)
}.

(** ** Induction on predicates, through the operand lists *)

Section PredicateInd.
Context `{SerdeNumber}.
Variable P : Predicate → Prop.
Hypothesis Hcmp : ∀ field op value, P (PCmp field op value).
Hypothesis Hin : ∀ field values, P (PIn field values).
Hypothesis Hmember : ∀ field set, P (PMember field set).
Hypothesis Hand : ∀ operands, Forall P operands → P (PAnd operands).
Hypothesis Hor : ∀ operands, Forall P operands → P (POr operands).
Hypothesis Hnot : ∀ operand, P operand → P (PNot operand).
Hypothesis Halways : P PAlways.
Hypothesis Hnever : P PNever.

Fixpoint predicate_ind' (p : Predicate) : P p :=
  let fix all (ps : list Predicate) : Forall P ps :=
    match ps with
    | [] => Forall_nil_2 P
    | q :: qs => Forall_cons_2 P q qs (predicate_ind' q) (all qs)
    end in
  match p with
  | PCmp field op value => Hcmp field op value
  | PIn field values => Hin field values
  | PMember field set => Hmember field set
  | PAnd operands => Hand operands (all operands)
  | POr operands => Hor operands (all operands)
  | PNot operand => Hnot operand (predicate_ind' operand)
  | PAlways => Halways
  | PNever => Hnever
  end.
End PredicateInd.

(** ** The vocabulary laws *)

(** A known kind survives a round trip through its wire string. *)
Lemma from_wire_as_wire kind : is_known kind = true → from_wire (as_wire kind) = kind.
Proof. by destruct kind. Qed.

(** Parsing is total and printing undoes it, unknown values included. *)
Lemma as_wire_from_wire raw : as_wire (from_wire raw) = raw.
Proof.
  unfold from_wire. destruct (list_find _ _) as [[i [kind w]]|] eqn:Hf; [|done].
  apply list_find_Some in Hf as (Hi & Hw & _). simpl in Hw. subst w.
  apply list_elem_of_lookup_2 in Hi. unfold step_kinds in Hi.
  rewrite !elem_of_cons, elem_of_nil in Hi. naive_solver.
Qed.

(** A wire value parses to a known kind exactly when it is published. *)
Lemma from_wire_known raw : is_known (from_wire raw) = true ↔ raw ∈ BUILT_IN.
Proof.
  split.
  - unfold from_wire. destruct (list_find _ _) as [[i [kind w]]|] eqn:Hf; [|done].
    apply list_find_Some in Hf as (Hi & Hw & _). intros _. simpl in Hw. subst w.
    unfold BUILT_IN. apply list_elem_of_fmap. exists (kind, raw).
    split; [done|]. by eapply list_elem_of_lookup_2.
  - unfold BUILT_IN, step_kinds. simpl. rewrite !elem_of_cons, elem_of_nil.
    intros H. destruct_or!; subst; by vm_compute.
Qed.

Lemma establishes_not_requires kind :
  establishes_subject kind = true → requires_subject kind = false.
Proof. by destruct kind. Qed.

(** The step-kind vocabulary is closed.  Printing undoes parsing
    for every string; parsing undoes printing for every kind but an [Unknown]
    that carries the name of a built-in kind; a string parses to a known kind
    exactly when it is in the published list; and no kind both establishes and
    requires a subject. *)
Theorem step_kind_vocabulary raw kind :
  as_wire (from_wire raw) = raw ∧
  (from_wire (as_wire kind) = kind ↔ is_known kind = true ∨ as_wire kind ∉ BUILT_IN) ∧
  (is_known (from_wire raw) = true ↔ raw ∈ BUILT_IN) ∧
  establishes_subject kind && requires_subject kind = false.
Proof.
  split; [apply as_wire_from_wire|]. split; [|split; [apply from_wire_known|by destruct kind]].
  split.
  - intros Hk. destruct (is_known kind) eqn:Hknown; [by left|]. right.
    rewrite <-from_wire_known, Hk. congruence.
  - intros [Hk|Hk]; [by apply from_wire_as_wire|]. rewrite <-from_wire_known in Hk.
    apply not_true_iff_false in Hk. pose proof (as_wire_from_wire (as_wire kind)) as Hw.
    destruct (from_wire (as_wire kind)) eqn:Hf; try done. simpl in Hw.
    destruct kind; try (by vm_compute in Hf). simpl in Hw. by subst.
Qed.
