(* ===== verification/JourneyEval.v ===== *)
(** * Predicate evaluation and type checking (crates/ironauth-journey/src/eval.rs)

    The typed evaluation context, the evaluator of guard predicates and the
    load-time type check.  The theorems: the type check guarantees that the
    evaluator never refuses a predicate, the evaluator computes the boolean
    reading of the grammar, and a statically typed comparison never falls into
    the "incompatible types" rules. *)

From Stdlib Require Import SpecFloat.
From S2P Require Import Prelude Json JourneyArtifact.

Definition MAX_PREDICATE_DEPTH : nat := 32.

(** ** The evaluation context *)

Inductive OutcomeSignal : Type :=
| PrimaryVerified | MfaRequired | EnrollRequired | ProfilingPending.

#[export] Instance OutcomeSignal_eq_dec : EqDecision OutcomeSignal.
Proof. solve_decision. Defined.

#[export] Instance OutcomeSignal_countable : Countable OutcomeSignal.
Proof.
  refine (inj_countable'
    (λ s, match s with PrimaryVerified => 0 | MfaRequired => 1 | EnrollRequired => 2
                     | ProfilingPending => 3 end)
    (λ n, match n with 0 => PrimaryVerified | 1 => MfaRequired | 2 => EnrollRequired
                     | _ => ProfilingPending end) _).
  by intros [].
Defined.

Definition signal_as_wire (s : OutcomeSignal) : string :=
  match s with
  | PrimaryVerified => "primary_verified"
  | MfaRequired => "mfa_required"
  | EnrollRequired => "enroll_required"
  | ProfilingPending => "profiling_pending"
  end.

Definition signal_from_wire (raw : string) : option OutcomeSignal :=
  if bool_decide (raw = "primary_verified") then Some PrimaryVerified
  else if bool_decide (raw = "mfa_required") then Some MfaRequired
  else if bool_decide (raw = "enroll_required") then Some EnrollRequired
  else if bool_decide (raw = "profiling_pending") then Some ProfilingPending
  else None.

Record SignalSet : Type := { signals_asserted : gset OutcomeSignal }.

Definition SignalSet_new : SignalSet := {| signals_asserted := ∅ |}.

Definition signal_with (set : SignalSet) (signal : OutcomeSignal) (value : bool) : SignalSet :=
  {| signals_asserted :=
       if value then {[signal]} ∪ signals_asserted set
       else signals_asserted set ∖ {[signal]} |}.

Definition asserted (set : SignalSet) (signal : OutcomeSignal) : bool :=
  bool_decide (signal ∈ signals_asserted set).

Inductive RiskLevel : Type := RiskLow | RiskMedium | RiskHigh.

Definition risk_as_wire (level : RiskLevel) : string :=
  match level with RiskLow => "low" | RiskMedium => "medium" | RiskHigh => "high" end.

Record RiskView : Type := { risk_level : RiskLevel; risk_score : Z }.

Record FlowContext : Type := {
  flow_step_id : string;
  flow_method_tokens : gset string;
  flow_subject_handle : string;
  flow_signals : SignalSet
}.

Record EvalContext `{SerdeNumber} : Type := {
  ctx_flow : FlowContext;
  ctx_subject_traits : Value;
  ctx_subject_groups : gset string;
  ctx_subject_scopes : gset string;
  ctx_risk : RiskView
}.

(** [EvalContext::default()]. *)
Definition EvalContext_default `{SerdeNumber} : EvalContext := {|
  ctx_flow := {| flow_step_id := ""; flow_method_tokens := ∅;
                 flow_subject_handle := ""; flow_signals := SignalSet_new |};
  ctx_subject_traits := VNull;
  ctx_subject_groups := ∅;
  ctx_subject_scopes := ∅;
  ctx_risk := {| risk_level := RiskLow; risk_score := 0 |}
|}.

(** ** Resolution *)

Inductive ResolvedScalar `{SerdeNumber} : Type :=
| RNull
| RBool (b : bool)
| RNumber (n : Number)
| RStr (s : string).

Inductive Resolution `{SerdeNumber} : Type :=
| Scalar (scalar : ResolvedScalar)
| NonScalar.

(** Why evaluation failed: the only run-time failure is depth. *)
Inductive PredicateError : Type :=
| TooDeep (limit : nat).

(** [pointer.strip_prefix('/')]. *)
Definition strip_slash (pointer : string) : option string :=
  match pointer with
  | String c rest => if Ascii.eqb c "/"%char then Some rest else None
  | EmptyString => None
  end.

Definition signal_from_pointer (pointer : string) : option OutcomeSignal :=
  strip_slash pointer ≫= signal_from_wire.

Section Eval.
Context `{SerdePointer}.

Definition value_to_resolution (value : Value) : Resolution :=
  match value with
  | VNull => Scalar RNull
  | VBool b => Scalar (RBool b)
  | VNumber n => Scalar (RNumber n)
  | VString s => Scalar (RStr s)
  | VArray _ | VObject _ => NonScalar
  end.

Definition resolve_scalar (ctx : EvalContext) (field : FieldRef) : Resolution :=
  match field_source field with
  | SrcFlow =>
      if bool_decide (field_pointer field = "/step_id") then
        Scalar (RStr (flow_step_id (ctx_flow ctx)))
      else if bool_decide (field_pointer field = "/subject") then
        Scalar (RStr (flow_subject_handle (ctx_flow ctx)))
      else if bool_decide (field_pointer field = "/method_tokens") then NonScalar
      else Scalar RNull
  | SrcSignals =>
      match signal_from_pointer (field_pointer field) with
      | Some signal => Scalar (RBool (asserted (flow_signals (ctx_flow ctx)) signal))
      | None => Scalar RNull
      end
  | SrcSubjectTraits =>
      match value_pointer (ctx_subject_traits ctx) (field_pointer field) with
      | Some value => value_to_resolution value
      | None => Scalar RNull
      end
  | SrcSubjectGroups | SrcSubjectScopes => NonScalar
  | SrcRisk =>
      if bool_decide (field_pointer field = "/level") then
        Scalar (RStr (risk_as_wire (risk_level (ctx_risk ctx))))
      else if bool_decide (field_pointer field = "/score") then
        Scalar (RNumber (Number_from_u32 (risk_score (ctx_risk ctx))))
      else Scalar RNull
  end.

(** ** Comparison *)

Definition num_ordering (a b : Number) : option comparison :=
  match as_i64 a, as_i64 b with
  | Some x, Some y => Some (x ?= y)%Z
  | _, _ =>
      match as_u64 a, as_u64 b with
      | Some x, Some y => Some (x ?= y)%Z
      | _, _ =>
          match as_f64 a, as_f64 b with
          | Some x, Some y => SFcompare x y
          | _, _ => None
          end
      end
  end.

Definition typed_eq (scalar : ResolvedScalar) (literal : Literal) : bool :=
  match scalar, literal with
  | RNull, LNull => true
  | RBool a, LBool b => Bool.eqb a b
  | RNumber a, LNumber b => bool_decide (num_ordering a b = Some Eq)
  | RStr a, LString b => bool_decide (a = b)
  | _, _ => false
  end.

Definition typed_ordering (scalar : ResolvedScalar) (literal : Literal) : option comparison :=
  match scalar, literal with
  | RNumber a, LNumber b => num_ordering a b
  | RStr a, LString b => Some (String.compare a b)
  | _, _ => None
  end.

Definition apply_ordering (ordering : comparison) (op : CmpOp) : bool :=
  match op with
  | OpLt => bool_decide (ordering = Lt)
  | OpLe => bool_decide (ordering ≠ Gt)
  | OpGt => bool_decide (ordering = Gt)
  | OpGe => bool_decide (ordering ≠ Lt)
  | OpEq | OpNe => false
  end.

Definition compare_op (resolution : Resolution) (op : CmpOp) (literal : Literal) : bool :=
  match resolution with
  | NonScalar => match op with OpNe => true | _ => false end
  | Scalar scalar =>
      match op with
      | OpEq => typed_eq scalar literal
      | OpNe => negb (typed_eq scalar literal)
      | OpLt | OpLe | OpGt | OpGe =>
          match typed_ordering scalar literal with
          | Some ordering => apply_ordering ordering op
          | None => false
          end
      end
  end.

Definition eval_cmp (ctx : EvalContext) (field : FieldRef) (op : CmpOp) (value : Literal) : bool :=
  compare_op (resolve_scalar ctx field) op value.

Definition eval_in (ctx : EvalContext) (field : FieldRef) (values : list Literal) : bool :=
  match resolve_scalar ctx field with
  | Scalar scalar => existsb (typed_eq scalar) values
  | NonScalar => false
  end.

Definition eval_member (ctx : EvalContext) (set : MemberSet) : bool :=
  match set with
  | Group name => bool_decide (name ∈ ctx_subject_groups ctx)
  | Scope name => bool_decide (name ∈ ctx_subject_scopes ctx)
  end.

(** ** The evaluator *)

Fixpoint evaluate_at_depth (predicate : Predicate) (ctx : EvalContext) (depth : nat)
    : Result bool PredicateError :=
  if MAX_PREDICATE_DEPTH <? depth then Err (TooDeep MAX_PREDICATE_DEPTH) else
  match predicate with
  | PCmp field op value => Ok (eval_cmp ctx field op value)
  | PIn field values => Ok (eval_in ctx field values)
  | PMember _ set => Ok (eval_member ctx set)
  | PAnd operands =>
      (fix go (ops : list Predicate) : Result bool PredicateError :=
         match ops with
         | [] => Ok true
         | operand :: rest =>
             let? b := evaluate_at_depth operand ctx (S depth) in
             if b then go rest else Ok false
         end) operands
  | POr operands =>
      (fix go (ops : list Predicate) : Result bool PredicateError :=
         match ops with
         | [] => Ok false
         | operand :: rest =>
             let? b := evaluate_at_depth operand ctx (S depth) in
             if b then Ok true else go rest
         end) operands
  | PNot operand =>
      let? b := evaluate_at_depth operand ctx (S depth) in Ok (negb b)
  | PAlways => Ok true
  | PNever => Ok false
  end.

Definition evaluate (predicate : Predicate) (ctx : EvalContext) : Result bool PredicateError :=
  evaluate_at_depth predicate ctx 0.

End Eval.

(** ** The load-time type check *)

Inductive StaticType : Type := TBool | TNumber | TStr | TEnum | TStringSet | TDynamic.

#[export] Instance StaticType_eq_dec : EqDecision StaticType.
Proof. solve_decision. Defined.

Definition source_type (source : FieldSource) (pointer : string) : option StaticType :=
  match source with
  | SrcFlow =>
      if bool_decide (pointer = "/step_id") || bool_decide (pointer = "/subject") then Some TStr
      else if bool_decide (pointer = "/method_tokens") then Some TStringSet
      else None
  | SrcSignals => (λ _, TBool) <$> signal_from_pointer pointer
  | SrcSubjectTraits => Some TDynamic
  | SrcSubjectGroups | SrcSubjectScopes => Some TStringSet
  | SrcRisk =>
      if bool_decide (pointer = "/level") then Some TEnum
      else if bool_decide (pointer = "/score") then Some TNumber
      else None
  end.

Definition source_is_engine_live (source : FieldSource) (pointer : string) : bool :=
  match source with
  | SrcFlow | SrcSignals | SrcSubjectTraits => true
  | SrcRisk => bool_decide (pointer = "/level")
  | SrcSubjectGroups | SrcSubjectScopes => false
  end.

Inductive LiteralType : Type := LtNull | LtBool | LtNumber | LtStr.

#[export] Instance LiteralType_eq_dec : EqDecision LiteralType.
Proof. solve_decision. Defined.

Inductive PredicateTypeError : Type :=
| UnknownField (pointer : string) (source : FieldSource)
| NotComparable (pointer : string)
| OrderingUndefined (pointer : string)
| LiteralTypeMismatch (pointer : string)
| MemberSetMismatch (pointer : string)
| TypeTooDeep (pointer : string)
| SourceNotLive (pointer : string) (source : FieldSource).

Definition is_ordering (op : CmpOp) : bool :=
  match op with OpLt | OpLe | OpGt | OpGe => true | OpEq | OpNe => false end.

Definition ordering_is_defined (field_type : StaticType) (literal : LiteralType) : bool :=
  match field_type with
  | TNumber => bool_decide (literal = LtNumber)
  | TStr => bool_decide (literal = LtStr)
  | TDynamic => match literal with LtNumber | LtStr => true | _ => false end
  | TBool | TEnum | TStringSet => false
  end.

Definition literal_unifies (field_type : StaticType) (literal : LiteralType) : bool :=
  if bool_decide (literal = LtNull) then bool_decide (field_type ≠ TStringSet) else
  match field_type with
  | TBool => bool_decide (literal = LtBool)
  | TNumber => bool_decide (literal = LtNumber)
  | TStr | TEnum => bool_decide (literal = LtStr)
  | TDynamic => true
  | TStringSet => false
  end.

Section Typecheck.
Context `{SerdeNumber}.

Definition literal_type (literal : Literal) : LiteralType :=
  match literal with
  | LNull => LtNull
  | LBool _ => LtBool
  | LNumber _ => LtNumber
  | LString _ => LtStr
  end.

Definition typecheck_cmp (field : FieldRef) (op : CmpOp) (value : Literal) (base : string)
    : list PredicateTypeError :=
  if negb (source_is_engine_live (field_source field) (field_pointer field)) then
    [SourceNotLive (base +:+ "/field") (field_source field)]
  else match source_type (field_source field) (field_pointer field) with
  | None => [UnknownField (base +:+ "/field") (field_source field)]
  | Some field_type =>
      if bool_decide (field_type = TStringSet) then [NotComparable (base +:+ "/field")]
      else
        let literal := literal_type value in
        if is_ordering op && negb (ordering_is_defined field_type literal) then
          [OrderingUndefined (base +:+ "/op")]
        else if negb (literal_unifies field_type literal) then
          [LiteralTypeMismatch (base +:+ "/value")]
        else []
  end.

Definition typecheck_in (field : FieldRef) (values : list Literal) (base : string)
    : list PredicateTypeError :=
  if negb (source_is_engine_live (field_source field) (field_pointer field)) then
    [SourceNotLive (base +:+ "/field") (field_source field)]
  else match source_type (field_source field) (field_pointer field) with
  | None => [UnknownField (base +:+ "/field") (field_source field)]
  | Some field_type =>
      if bool_decide (field_type = TStringSet) then [NotComparable (base +:+ "/field")]
      else enum_flat (λ index value,
             if negb (literal_unifies field_type (literal_type value)) then
               [LiteralTypeMismatch (base +:+ "/values/" +:+ fmt_nat index)]
             else []) values
  end.

Definition typecheck_member (field : FieldRef) (set : MemberSet) (base : string)
    : list PredicateTypeError :=
  if negb (source_is_engine_live (field_source field) (field_pointer field)) then
    [SourceNotLive (base +:+ "/field") (field_source field)]
  else
    let agrees := match set with
      | Group _ => bool_decide (field_source field = SrcSubjectGroups)
      | Scope _ => bool_decide (field_source field = SrcSubjectScopes)
      end in
    if negb agrees then [MemberSetMismatch (base +:+ "/field")] else [].

Fixpoint typecheck_at_depth (predicate : Predicate) (base : string) (depth : nat)
    : list PredicateTypeError :=
  if MAX_PREDICATE_DEPTH <? depth then [TypeTooDeep base] else
  match predicate with
  | PCmp field op value => typecheck_cmp field op value base
  | PIn field values => typecheck_in field values base
  | PMember field set => typecheck_member field set base
  | PAnd operands | POr operands =>
      (fix go (index : nat) (ops : list Predicate) : list PredicateTypeError :=
         match ops with
         | [] => []
         | operand :: rest =>
             typecheck_at_depth operand (base +:+ "/operands/" +:+ fmt_nat index) (S depth)
             ++ go (S index) rest
         end) 0 operands
  | PNot operand => typecheck_at_depth operand (base +:+ "/operand") (S depth)
  | PAlways | PNever => []
  end.

Definition typecheck_predicate (predicate : Predicate) (base : string) : list PredicateTypeError :=
  typecheck_at_depth predicate base 0.

End Typecheck.

(** ** The boolean reading of the grammar *)

Section Semantics.
Context `{SerdePointer}.

(** What a predicate means, with no depth bound and no short circuit. *)
Fixpoint sem (predicate : Predicate) (ctx : EvalContext) : bool :=
  match predicate with
  | PCmp field op value => eval_cmp ctx field op value
  | PIn field values => eval_in ctx field values
  | PMember _ set => eval_member ctx set
  | PAnd operands => forallb (λ operand, sem operand ctx) operands
  | POr operands => existsb (λ operand, sem operand ctx) operands
  | PNot operand => negb (sem operand ctx)
  | PAlways => true
  | PNever => false
  end.

(** The shape of a literal agrees with the shape of a scalar. *)
Definition same_type (scalar : ResolvedScalar) (literal : Literal) : Prop :=
  match scalar, literal with
  | RBool _, LBool _ | RNumber _, LNumber _ | RStr _, LString _ => True
  | _, _ => False
  end.

Lemma typecheck_operands depth base (ops : list Predicate) i :
  (fix go (index : nat) (ops : list Predicate) : list PredicateTypeError :=
     match ops with
     | [] => []
     | operand :: rest =>
         typecheck_at_depth operand (base +:+ "/operands/" +:+ fmt_nat index) (S depth)
         ++ go (S index) rest
     end) i ops =
  enum_flat_from i (λ k operand,
    typecheck_at_depth operand (base +:+ "/operands/" +:+ fmt_nat k) (S depth)) ops.
Proof. revert i. induction ops as [|o ops IH]; intros i; [done|]. by rewrite IH. Qed.

Lemma typecheck_depth predicate base depth :
  typecheck_at_depth predicate base depth = [] → (MAX_PREDICATE_DEPTH <? depth) = false.
Proof. destruct predicate; simpl; by case_match. Qed.

Lemma typecheck_operands_nil ops base depth :
  enum_flat_from 0 (λ k operand,
    typecheck_at_depth operand (base +:+ "/operands/" +:+ fmt_nat k) (S depth)) ops = [] →
  Forall (λ operand, ∃ b, typecheck_at_depth operand b (S depth) = []) ops.
Proof.
  rewrite enum_flat_from_shift, enum_flat_nil. intros Hall.
  apply Forall_lookup. intros i operand Hi. eexists. by apply (Hall i).
Qed.

Lemma typecheck_operands_nil_iff ops base depth :
  enum_flat_from 0 (λ k operand,
    typecheck_at_depth operand (base +:+ "/operands/" +:+ fmt_nat k) (S depth)) ops = [] ↔
  ∀ i operand, ops !! i = Some operand →
    typecheck_at_depth operand (base +:+ "/operands/" +:+ fmt_nat i) (S depth) = [].
Proof. rewrite enum_flat_from_shift. apply enum_flat_nil. Qed.

(** Whether a predicate is accepted does not depend on where it stands. *)
Lemma typecheck_base_irrelevant predicate : ∀ base base' depth,
  typecheck_at_depth predicate base depth = [] → typecheck_at_depth predicate base' depth = [].
Proof.
  induction predicate as [| | |ops IH|ops IH|operand IH| |] using predicate_ind';
    intros base base' depth; simpl; case_match; try done.
  - unfold typecheck_cmp. by repeat case_match.
  - unfold typecheck_in. repeat case_match; try done. rewrite !enum_flat_nil.
    intros Hall i x Hi. specialize (Hall i x Hi). by case_match.
  - unfold typecheck_member. by repeat case_match.
  - rewrite !typecheck_operands, !typecheck_operands_nil_iff. rewrite Forall_lookup in IH. eauto.
  - rewrite !typecheck_operands, !typecheck_operands_nil_iff. rewrite Forall_lookup in IH. eauto.
  - eauto.
Qed.

(** The evaluator computes the boolean reading of a predicate that passed the
    type check at the same depth. *)
Lemma evaluate_typechecked ctx predicate : ∀ base depth,
  typecheck_at_depth predicate base depth = [] →
  evaluate_at_depth predicate ctx depth = Ok (sem predicate ctx).
Proof.
  induction predicate as [| | |ops IH|ops IH|operand IH| |] using predicate_ind';
    intros base depth Hty; pose proof (typecheck_depth _ _ _ Hty) as Hd;
    simpl in Hty |- *; rewrite Hd in Hty |- *; try done.
  - rewrite typecheck_operands in Hty. apply typecheck_operands_nil in Hty.
    induction ops as [|o ops IHops]; [done|].
    apply Forall_cons_1 in IH as [IHo IH]. apply Forall_cons_1 in Hty as [[b Ho] Hty].
    simpl. rewrite (IHo b _ Ho). destruct (sem o ctx); [|done]. by apply IHops.
  - rewrite typecheck_operands in Hty. apply typecheck_operands_nil in Hty.
    induction ops as [|o ops IHops]; [done|].
    apply Forall_cons_1 in IH as [IHo IH]. apply Forall_cons_1 in Hty as [[b Ho] Hty].
    simpl. rewrite (IHo b _ Ho). destruct (sem o ctx); [done|]. by apply IHops.
  - by rewrite (IH _ _ Hty).
Qed.

(** Two contexts agree on every source the engine populates. *)
Definition live_agree (ctx ctx' : EvalContext) : Prop :=
  ctx_flow ctx = ctx_flow ctx' ∧ ctx_subject_traits ctx = ctx_subject_traits ctx' ∧
  risk_level (ctx_risk ctx) = risk_level (ctx_risk ctx').

Lemma resolve_live ctx ctx' field : live_agree ctx ctx' →
  source_is_engine_live (field_source field) (field_pointer field) = true →
  resolve_scalar ctx field = resolve_scalar ctx' field.
Proof.
  intros (Hflow & Htraits & Hrisk). unfold resolve_scalar.
  destruct field as [[] pointer]; simpl; try done.
  - by rewrite Hflow.
  - by rewrite Hflow.
  - by rewrite Htraits.
  - rewrite Hrisk. by case_bool_decide.
Qed.

(** An accepted predicate reads only sources the engine populates. *)
Lemma sem_live ctx ctx' predicate : live_agree ctx ctx' → ∀ base depth,
  typecheck_at_depth predicate base depth = [] → sem predicate ctx = sem predicate ctx'.
Proof.
  intros Hagree.
  induction predicate as [field op value|field values|field set|ops IH|ops IH|operand IH| |]
    using predicate_ind'; intros base depth Hty; pose proof (typecheck_depth _ _ _ Hty) as Hd;
    simpl in Hty |- *; rewrite Hd in Hty; try done.
  - unfold typecheck_cmp in Hty. destruct (source_is_engine_live _ _) eqn:Hl; [|done].
    unfold eval_cmp. by rewrite (resolve_live ctx ctx').
  - unfold typecheck_in in Hty. destruct (source_is_engine_live _ _) eqn:Hl; [|done].
    unfold eval_in. by rewrite (resolve_live ctx ctx').
  - unfold typecheck_member in Hty. destruct field as [[] pointer], set; simpl in *; try done;
      by repeat case_bool_decide.
  - rewrite typecheck_operands in Hty. apply typecheck_operands_nil in Hty.
    induction IH as [|o ops IHo _ IHops]; [done|].
    apply Forall_cons_1 in Hty as [[b Ho] Hty]. simpl. rewrite (IHo b _ Ho). f_equal. by apply IHops.
  - rewrite typecheck_operands in Hty. apply typecheck_operands_nil in Hty.
    induction IH as [|o ops IHo _ IHops]; [done|].
    apply Forall_cons_1 in Hty as [[b Ho] Hty]. simpl. rewrite (IHo b _ Ho). f_equal. by apply IHops.
  - f_equal. by eapply IH.
Qed.

Lemma typecheck_cmp_nil field op value base :
  typecheck_cmp field op value base = [] →
  source_is_engine_live (field_source field) (field_pointer field) = true ∧
  ∃ ty, source_type (field_source field) (field_pointer field) = Some ty ∧
    ty ≠ TStringSet ∧ (is_ordering op = true → ordering_is_defined ty (literal_type value) = true) ∧
    literal_unifies ty (literal_type value) = true.
Proof.
  unfold typecheck_cmp. intros Hty.
  destruct (source_is_engine_live _ _); [|done]. simpl in Hty. split; [done|].
  destruct (source_type _ _) as [ty|]; [|done]. exists ty.
  case_bool_decide; [done|].
  destruct (is_ordering op), (ordering_is_defined _ _), (literal_unifies _ _); naive_solver.
Qed.

(** What a live, closed source resolves to. *)
Lemma resolve_closed ctx field ty :
  source_is_engine_live (field_source field) (field_pointer field) = true →
  field_source field ≠ SrcSubjectTraits →
  source_type (field_source field) (field_pointer field) = Some ty → ty ≠ TStringSet →
  (ty = TStr ∨ ty = TEnum) ∧ (∃ s, resolve_scalar ctx field = Scalar (RStr s)) ∨
  ty = TBool ∧ ∃ b, resolve_scalar ctx field = Scalar (RBool b).
Proof.
  unfold resolve_scalar. destruct field as [[] pointer]; simpl; try done.
  - intros _ _. repeat case_bool_decide; naive_solver.
  - intros _ _. destruct (signal_from_pointer pointer); simpl; naive_solver.
  - intros ?. repeat case_bool_decide; naive_solver.
Qed.

(** The type check makes evaluation total and gives it its meaning: a
    predicate the load-time check accepts is never refused at run time, and the
    short-circuiting evaluator returns exactly the boolean reading of the
    grammar in every context. *)
Theorem typechecked_predicate_evaluates predicate base ctx :
  typecheck_predicate predicate base = [] →
  evaluate predicate ctx = Ok (sem predicate ctx).
Proof. apply evaluate_typechecked. Qed.

(** Type soundness of comparisons on the closed sources: an accepted
    comparison against flow state, a signal or the risk decision resolves to a
    scalar of the type of its literal, and an accepted ordering comparison is
    always between two ordered values, so the "incompatible types are false"
    rules are unreachable for it. *)
Theorem typechecked_cmp_is_well_typed field op value base ctx :
  typecheck_cmp field op value base = [] →
  field_source field ≠ SrcSubjectTraits →
  ∃ scalar, resolve_scalar ctx field = Scalar scalar ∧
    (value ≠ LNull → same_type scalar value) ∧
    (is_ordering op = true → ∃ ordering, typed_ordering scalar value = Some ordering).
Proof.
  intros (Hlive & ty & Hty & Hset & Hord & Hlit)%typecheck_cmp_nil Htraits.
  destruct (resolve_closed ctx field ty) as [[Hstr [s ->]]|[-> [b ->]]]; try done;
    (eexists; split; [done|]); unfold literal_unifies in Hlit;
    destruct value; simpl in *; destruct_or?; subst; try done; naive_solver.
Qed.

(** The comparison operators are coherent: [ne] is the exact complement of
    [eq] for every field, and wherever an ordering exists the six operators
    agree with it ([le] is [lt] or [eq], [ge] is [gt] or [eq], [lt] and [ge]
    are complements, [gt] and [le] are complements). *)
Theorem comparison_operators_coherent ctx field value :
  eval_cmp ctx field OpNe value = negb (eval_cmp ctx field OpEq value) ∧
  ∀ scalar ordering,
    resolve_scalar ctx field = Scalar scalar → typed_ordering scalar value = Some ordering →
    eval_cmp ctx field OpEq value = bool_decide (ordering = Eq) ∧
    eval_cmp ctx field OpLe value = eval_cmp ctx field OpLt value || eval_cmp ctx field OpEq value ∧
    eval_cmp ctx field OpGe value = eval_cmp ctx field OpGt value || eval_cmp ctx field OpEq value ∧
    eval_cmp ctx field OpGe value = negb (eval_cmp ctx field OpLt value) ∧
    eval_cmp ctx field OpLe value = negb (eval_cmp ctx field OpGt value).
Proof.
  unfold eval_cmp. split; [by destruct (resolve_scalar ctx field)|].
  intros scalar ordering -> Hord. simpl. rewrite Hord.
  assert (typed_eq scalar value = bool_decide (ordering = Eq)) as ->.
  { destruct scalar, value; simpl in *; try done.
    - rewrite Hord. apply bool_decide_ext. naive_solver.
    - simplify_eq. apply bool_decide_ext. symmetry. apply str_compare_eq. }
  by destruct ordering.
Qed.

(** Sources the engine does not populate cannot be routed on: every
    membership predicate, and every comparison of a group set, a scope set or
    the risk score, is refused by the load-time check wherever it occurs. *)
Theorem not_live_sources_refused field set op value values base :
  typecheck_member field set base ≠ [] ∧
  (source_is_engine_live (field_source field) (field_pointer field) = false →
   typecheck_cmp field op value base ≠ [] ∧ typecheck_in field values base ≠ []).
Proof.
  unfold typecheck_member, typecheck_cmp, typecheck_in. split.
  - destruct field as [[] pointer], set; simpl; try done; by case_bool_decide.
  - by intros ->.
Qed.

End Semantics.
