(* ===== verification/JourneyChecks.v ===== *)
(** * The structural checks of the journey validator
    (crates/ironauth-journey/src/validate.rs)

    Every check returns the list of failures it appends, in document order, with
    the RFC 6901 pointers the code builds.  Each check is characterised by an
    equivalence: it appends nothing exactly when the document has the property
    it looks for.  The two graph walks are instances of [Walk.walk]. *)

From S2P Require Import Prelude Walk Json JourneyArtifact JourneyEval.

Definition NODE_GROUPS : list string :=
  ["default"; "password"; "passkey"; "totp"; "email_otp"; "sms_otp";
   "recovery_code"; "oidc"; "profile"; "client_identity"; "scope"; "submit"].

Inductive JourneyError : Type :=
| UnknownStepKind (pointer kind : string)
| BuiltinOnlyStepKind (pointer kind : string)
| UnknownNodeGroup (pointer group : string)
| DanglingTransition (pointer to : string)
| DanglingSubflowRef (pointer subflow : string)
| UnreachableStep (pointer step : string)
| DeadEndStep (pointer step : string)
| SubjectStepNotEstablished (pointer step : string)
| MissingStepAttachment (pointer step kind : string)
| UnexpectedStepAttachment (pointer step : string)
| TerminalHasTransition (pointer step : string)
| EngineIncompatible (pointer : string) (declared supported : Z)
| NonDeterministicTransition (pointer : string)
| DuplicateStepId (pointer id : string)
| UnknownEntry (pointer : string)
| PredicateType (error : PredicateTypeError)
| UnknownBuiltinSubflow (pointer name : string)
| UnknownSubflowDefinition (pointer subflow : string)
| DuplicateSubflowDefinition (pointer id : string)
| SubflowCycle (pointer subflow : string)
| SubflowTerminalStep (pointer step : string)
| SubflowNoExit (pointer subflow : string)
| UnknownSubflowExit (pointer exit : string)
| SubflowExitNotLeaf (pointer exit : string)
| UnknownTemplate (pointer template : string)
| MissingTemplateParam (pointer param : string)
| TemplateParamType (pointer param : string)
| ReservedStepIdSeparator (pointer id : string)
| DuplicateSubflowRef (pointer id : string)
| ComposedTooLarge (limit : Z)
| NoReachableCompletion.

(** [if cond { errors.push(e) }]. *)
Definition push_if {A} (cond : bool) (e : A) : list A := if cond then [e] else [].

Section Checks.
Context `{SerdeNumber}.

(** ** Step ids *)

(** The loop of [collect_step_ids]: the final id set and the pushed errors. *)
Fixpoint collect_step_ids_loop (index : nat) (steps : list Step) (base : string)
    (ids : gset string) : gset string * list JourneyError :=
  match steps with
  | [] => (ids, [])
  | step :: rest =>
      let '(ids', errors) :=
        collect_step_ids_loop (S index) rest base ({[step_id step]} ∪ ids) in
      (ids',
       push_if (bool_decide (step_id step ∈ ids))
         (DuplicateStepId (base +:+ "/steps/" +:+ fmt_nat index +:+ "/id") (step_id step))
       ++ errors)
  end.

Definition collect_step_ids (steps : list Step) (base : string) : gset string * list JourneyError :=
  collect_step_ids_loop 0 steps base ∅.

(** ** Vocabulary and attachments of one step *)

Definition check_kind_and_node_group (step : Step) (step_ptr : string) (admit_builtin_only : bool)
    : list JourneyError :=
  (if negb (is_known (step_kind step)) then
     [UnknownStepKind (step_ptr +:+ "/kind") (as_wire (step_kind step))]
   else if is_builtin_only (step_kind step) && negb admit_builtin_only then
     [BuiltinOnlyStepKind (step_ptr +:+ "/kind") (as_wire (step_kind step))]
   else []) ++
  match step_node_group step with
  | Some group =>
      push_if (bool_decide (group ∉ NODE_GROUPS))
        (UnknownNodeGroup (step_ptr +:+ "/node_group") group)
  | None => []
  end.

Definition check_attachment_coherence (step : Step) (step_ptr : string) : list JourneyError :=
  match step_kind step, step_subflow step, step_factor step with
  | SubflowCall, None, _ => [MissingStepAttachment step_ptr (step_id step) "subflow_call"]
  | CustomChallenge, _, None => [MissingStepAttachment step_ptr (step_id step) "custom_challenge"]
  | _, _, _ => []
  end ++
  push_if (bool_decide (is_Some (step_subflow step)) &&
           negb (bool_decide (step_kind step = SubflowCall)) && is_known (step_kind step))
    (UnexpectedStepAttachment (step_ptr +:+ "/subflow") (step_id step)) ++
  push_if (bool_decide (is_Some (step_decision step)) &&
           negb (bool_decide (step_kind step = Decision_)) && is_known (step_kind step))
    (UnexpectedStepAttachment (step_ptr +:+ "/decision") (step_id step)) ++
  push_if (bool_decide (is_Some (step_factor step)) &&
           negb (bool_decide (step_kind step = CustomChallenge)) && is_known (step_kind step))
    (UnexpectedStepAttachment (step_ptr +:+ "/factor") (step_id step)).

(** ** Transition endpoints and determinism *)

(** [transition.guard.is_none()]. *)
Definition is_unguarded (transition : Transition) : bool :=
  bool_decide (tr_guard transition = None).

Fixpoint check_transition_endpoints_loop (index : nat) (ids : gset string)
    (transitions : list Transition) (base : string) (seen_unguarded : gset string)
    : list JourneyError :=
  match transitions with
  | [] => []
  | transition :: rest =>
      let at_ := base +:+ "/transitions/" +:+ fmt_nat index in
      let unguarded := is_unguarded transition in
      push_if (bool_decide (tr_from transition ∉ ids))
        (DanglingTransition (at_ +:+ "/from") (tr_from transition)) ++
      push_if (bool_decide (tr_to transition ∉ ids))
        (DanglingTransition (at_ +:+ "/to") (tr_to transition)) ++
      push_if (unguarded && bool_decide (tr_from transition ∈ seen_unguarded))
        (NonDeterministicTransition at_) ++
      check_transition_endpoints_loop (S index) ids rest base
        (if unguarded then {[tr_from transition]} ∪ seen_unguarded else seen_unguarded)
  end.

Definition check_transition_endpoints (ids : gset string) (transitions : list Transition)
    (base : string) : list JourneyError :=
  check_transition_endpoints_loop 0 ids transitions base ∅.

(** ** Reachability and dead ends *)

(** One iteration of the loop that builds [adjacency]. *)
Definition adjacency_push (ids : gset string) (adjacency : gmap string (list string))
    (transition : Transition) : gmap string (list string) :=
  if bool_decide (tr_from transition ∈ ids) && bool_decide (tr_to transition ∈ ids) then
    <[tr_from transition :=
        default [] (adjacency !! tr_from transition) ++ [tr_to transition]]> adjacency
  else adjacency.

Definition adjacency (transitions : list Transition) (ids : gset string)
    : gmap string (list string) :=
  foldl (adjacency_push ids) ∅ transitions.

Definition reachable_steps (entry : string) (transitions : list Transition) (ids : gset string)
    : gset string :=
  let adj := adjacency transitions ids in
  (walk (λ node, default [] (adj !! node)) (S (length transitions)) [entry] ∅).1.

Definition check_reachability_and_dead_ends (entry : string) (steps : list Step)
    (transitions : list Transition) (ids role_terminals : gset string) (base : string)
    : list JourneyError :=
  let reachable := reachable_steps entry transitions ids in
  let sources : gset string := list_to_set (tr_from <$> transitions) in
  enum_flat (λ index step,
    push_if (bool_decide (step_id step ∉ reachable))
      (UnreachableStep (base +:+ "/steps/" +:+ fmt_nat index) (step_id step))) steps ++
  enum_flat (λ index step,
    push_if (bool_decide (step_id step ∈ reachable) &&
             negb (bool_decide (step_id step ∈ role_terminals)) &&
             negb (bool_decide (step_id step ∈ sources)))
      (DeadEndStep (base +:+ "/steps/" +:+ fmt_nat index) (step_id step))) steps.

(** ** Subject establishment *)

(** [kind_by_id.entry(id).or_insert(kind)]: the first step of an id wins. *)
Definition kind_by_id (steps : list Step) : gmap string StepKind :=
  foldl (λ (kinds : gmap string StepKind) step,
    match kinds !! step_id step with
    | Some _ => kinds
    | None => <[step_id step := step_kind step]> kinds
    end) ∅ steps.

Definition node_establishes (steps : list Step) (node : string) : bool :=
  match kind_by_id steps !! node with
  | Some kind => establishes_subject kind
  | None => false
  end.

Definition reachable_before_establishment (entry : string) (steps : list Step)
    (transitions : list Transition) (ids : gset string) : gset string :=
  let adj := adjacency transitions ids in
  (walk (λ node, if node_establishes steps node then [] else default [] (adj !! node))
     (S (length transitions)) [entry] ∅).1.

Definition check_subject_establishment (entry : string) (steps : list Step)
    (transitions : list Transition) (ids : gset string) (base : string) : list JourneyError :=
  let before := reachable_before_establishment entry steps transitions ids in
  enum_flat (λ index step,
    push_if (requires_subject (step_kind step) && bool_decide (step_id step ∈ before))
      (SubjectStepNotEstablished (base +:+ "/steps/" +:+ fmt_nat index) (step_id step))) steps.

(** ** Predicate types *)

Definition collect_predicate_errors (predicate : Predicate) (base : string) : list JourneyError :=
  PredicateType <$> typecheck_predicate predicate base.

Definition check_predicates (steps : list Step) (transitions : list Transition) (base : string)
    : list JourneyError :=
  enum_flat (λ index transition,
    match tr_guard transition with
    | Some guard =>
        collect_predicate_errors guard (base +:+ "/transitions/" +:+ fmt_nat index +:+ "/guard")
    | None => []
    end) transitions ++
  enum_flat (λ index step,
    match step_decision step with
    | Some (DecisionPredicate predicate) =>
        collect_predicate_errors predicate
          (base +:+ "/steps/" +:+ fmt_nat index +:+ "/decision/predicate")
    | None => []
    end) steps.

Definition declared_subflow_ids (doc : Journey) : gset string :=
  list_to_set (ref_id <$> default [] (j_subflows doc)).

End Checks.

(** ** What each check decides *)

Section Specs.
Context `{SerdeNumber}.
Implicit Types (steps : list Step) (transitions : list Transition) (ids : gset string).

Lemma push_if_nil {A} cond (e : A) : push_if cond e = [] ↔ cond = false.
Proof. by destruct cond. Qed.

Lemma enum_push_nil {A B} (P : A → bool) (e : nat → A → B) l :
  enum_flat (λ i x, push_if (P x) (e i x)) l = [] ↔ ∀ x, x ∈ l → P x = false.
Proof. apply (enum_flat_nil_if (λ _ _, [])). Qed.

Lemma fmap_nil {A B} (f : A → B) l : f <$> l = [] ↔ l = [].
Proof. by destruct l. Qed.

Lemma collect_loop_spec steps base : ∀ index ids,
  (collect_step_ids_loop index steps base ids).1 = list_to_set (step_id <$> steps) ∪ ids ∧
  ((collect_step_ids_loop index steps base ids).2 = [] ↔
   NoDup (step_id <$> steps) ∧ ∀ x, x ∈ step_id <$> steps → x ∉ ids).
Proof.
  induction steps as [|step steps IH]; intros index ids; simpl.
  { split; [set_solver|]. split; [|done]. intros _. split; [apply NoDup_nil_2|set_solver]. }
  destruct (IH (S index) ({[step_id step]} ∪ ids)) as [IH1 IH2].
  destruct (collect_step_ids_loop _ _ _ _) as [ids' errors]. simpl in *. split; [set_solver|].
  rewrite app_nil, push_if_nil, bool_decide_eq_false, IH2, NoDup_cons. set_solver.
Qed.

Lemma collect_step_ids_set steps base :
  (collect_step_ids steps base).1 = list_to_set (step_id <$> steps).
Proof. destruct (collect_loop_spec steps base 0 ∅) as [Hids _]. set_solver. Qed.

Lemma collect_step_ids_nil steps base :
  (collect_step_ids steps base).2 = [] ↔ NoDup (step_id <$> steps).
Proof. destruct (collect_loop_spec steps base 0 ∅) as [_ Hnil]. set_solver. Qed.

(** The kind and the node group of a step belong to the vocabulary. *)
Definition vocabulary_ok (admit_builtin_only : bool) (step : Step) : Prop :=
  is_known (step_kind step) = true ∧
  (is_builtin_only (step_kind step) = true → admit_builtin_only = true) ∧
  ∀ group, step_node_group step = Some group → group ∈ NODE_GROUPS.

Lemma check_kind_and_node_group_nil step ptr adm :
  check_kind_and_node_group step ptr adm = [] ↔ vocabulary_ok adm step.
Proof.
  unfold check_kind_and_node_group, vocabulary_ok. rewrite app_nil.
  apply and_iff_compat3.
  - destruct (is_known _), (is_builtin_only _), adm; naive_solver.
  - destruct (step_node_group step) as [group|]; [|naive_solver].
    rewrite push_if_nil, bool_decide_eq_false. split; [|naive_solver].
    intros Hgroup ? [= <-]. by apply dec_stable.
Qed.

(** A known step carries exactly the attachments its kind uses. *)
Definition attachments_ok (step : Step) : Prop :=
  (step_kind step = SubflowCall → is_Some (step_subflow step)) ∧
  (step_kind step = CustomChallenge → is_Some (step_factor step)) ∧
  (is_Some (step_subflow step) → step_kind step = SubflowCall ∨ is_known (step_kind step) = false) ∧
  (is_Some (step_decision step) → step_kind step = Decision_ ∨ is_known (step_kind step) = false) ∧
  (is_Some (step_factor step) → step_kind step = CustomChallenge ∨ is_known (step_kind step) = false).

Lemma stray_attachment {A} (attachment : option A) kind own :
  bool_decide (is_Some attachment) && negb (bool_decide (kind = own)) && is_known kind = false ↔
  (is_Some attachment → kind = own ∨ is_known kind = false).
Proof.
  destruct (is_known kind); repeat case_bool_decide; simpl; naive_solver.
Qed.

Lemma check_attachment_coherence_nil step ptr :
  check_attachment_coherence step ptr = [] ↔ attachments_ok step.
Proof.
  unfold check_attachment_coherence, attachments_ok.
  rewrite !app_nil, !push_if_nil, !stray_attachment.
  destruct (step_kind step), (step_subflow step), (step_factor step); simpl;
    rewrite ?is_Some_alt; naive_solver.
Qed.

(** *** Transitions *)

(** Every endpoint is declared, and no step has two unguarded edges. *)
Definition endpoints_ok ids transitions : Prop :=
  (∀ t, t ∈ transitions → tr_from t ∈ ids ∧ tr_to t ∈ ids) ∧
  NoDup (tr_from <$> filter is_unguarded transitions).

Lemma check_transition_endpoints_loop_nil ids transitions base : ∀ index seen,
  check_transition_endpoints_loop index ids transitions base seen = [] ↔
  endpoints_ok ids transitions ∧
  ∀ x, x ∈ tr_from <$> filter is_unguarded transitions → x ∉ seen.
Proof.
  unfold endpoints_ok. induction transitions as [|t ts IH]; intros index seen; simpl.
  { split; [|done]. intros _. split_and!; [set_solver|apply NoDup_nil_2|set_solver]. }
  rewrite !app_nil, !push_if_nil, IH, !bool_decide_eq_false, filter_cons.
  destruct (decide (is_unguarded t)) as [Hu|Hu]; simpl.
  - apply Is_true_true in Hu. rewrite Hu. simpl.
    rewrite bool_decide_eq_false, NoDup_cons.
    split; [intros (?%dec_stable & ?%dec_stable & ? & (Hts & ?) & Hs)|intros ((Hts & ? & ?) & Hs)].
    + split_and!; [|set_solver|done|set_solver]. intros t' [->|Ht']%elem_of_cons; auto.
    + destruct (Hts t) as [??]; [left|].
      split_and!; [naive_solver|naive_solver|set_solver| |done|set_solver].
      intros t' Ht'. apply Hts. by right.
  - apply Is_true_false in Hu. rewrite Hu. simpl.
    split; [intros (?%dec_stable & ?%dec_stable & _ & (Hts & ?) & ?)|intros ((Hts & ?) & ?)].
    + split_and!; [|done..]. intros t' [->|Ht']%elem_of_cons; auto.
    + destruct (Hts t) as [??]; [left|]. split_and!; try done; [naive_solver..|].
      intros t' Ht'. apply Hts. by right.
Qed.

Lemma check_transition_endpoints_nil ids transitions base :
  check_transition_endpoints ids transitions base = [] ↔ endpoints_ok ids transitions.
Proof.
  unfold check_transition_endpoints. rewrite check_transition_endpoints_loop_nil. set_solver.
Qed.

(** *** The graph *)

(** An edge between two declared steps. *)
Definition step_edge ids transitions (x y : string) : Prop :=
  ∃ t, t ∈ transitions ∧ tr_from t = x ∧ tr_to t = y ∧ x ∈ ids ∧ y ∈ ids.

(** An edge that leaves a step which establishes no subject. *)
Definition subjectless_edge steps ids transitions (x y : string) : Prop :=
  node_establishes steps x = false ∧ step_edge ids transitions x y.

Lemma adjacency_push_lookup ids transitions n : ∀ adj,
  default [] (foldl (adjacency_push ids) adj transitions !! n) =
  default [] (adj !! n) ++
  (tr_to <$> filter (λ t, tr_from t = n ∧ tr_from t ∈ ids ∧ tr_to t ∈ ids) transitions).
Proof.
  induction transitions as [|t ts IH]; intros adj; simpl; [by rewrite app_nil_r|].
  rewrite IH, filter_cons. unfold adjacency_push.
  do 2 case_bool_decide; simpl; try (rewrite decide_False by naive_solver; done).
  destruct (decide (tr_from t = n)) as [<-|Hne].
  - rewrite decide_True by done. rewrite lookup_insert_eq. simpl. by rewrite <-app_assoc.
  - rewrite decide_False by naive_solver. by rewrite lookup_insert_ne.
Qed.

Lemma adjacency_lookup ids transitions n :
  default [] (adjacency transitions ids !! n) =
  tr_to <$> filter (λ t, tr_from t = n ∧ tr_from t ∈ ids ∧ tr_to t ∈ ids) transitions.
Proof. unfold adjacency. by rewrite adjacency_push_lookup. Qed.

Lemma adjacency_edge ids transitions x y :
  y ∈ default [] (adjacency transitions ids !! x) ↔ step_edge ids transitions x y.
Proof.
  rewrite adjacency_lookup, list_elem_of_fmap. unfold step_edge.
  setoid_rewrite list_elem_of_filter. naive_solver.
Qed.

Lemma adjacency_covers ids transitions (f : string → list string) :
  (∀ x, length (f x) ≤ length (default [] (adjacency transitions ids !! x))) →
  covers f ((λ t, (tr_from t, tr_to t)) <$> transitions).
Proof.
  intros Hf x. etrans; [apply Hf|]. rewrite adjacency_lookup, length_fmap.
  clear Hf. induction transitions as [|t ts IH]; [done|].
  rewrite fmap_cons, !filter_cons; simpl.
  repeat case_decide; rewrite ?length_cons; (lia || tauto).
Qed.

Lemma rtc_iff {A} (R R' : relation A) x y :
  (∀ a b, R a b ↔ R' a b) → rtc R x y ↔ rtc R' x y.
Proof. intros HR. split; apply (rtc_subrel _ _ x y); naive_solver. Qed.

(** The iterative walk computes reachability over the declared edges. *)
Lemma reachable_steps_spec entry transitions ids x :
  x ∈ reachable_steps entry transitions ids ↔ rtc (step_edge ids transitions) entry x.
Proof.
  unfold reachable_steps. erewrite walk_reachable.
  - apply rtc_iff. intros a b. apply adjacency_edge.
  - by apply (adjacency_covers ids).
  - by rewrite length_fmap.
Qed.

(** The pruned walk computes the nodes reachable by a path no proper prefix of
    which contains an establishing step. *)
Lemma reachable_before_establishment_spec entry steps transitions ids x :
  x ∈ reachable_before_establishment entry steps transitions ids ↔
  rtc (subjectless_edge steps ids transitions) entry x.
Proof.
  unfold reachable_before_establishment. erewrite walk_reachable.
  - apply rtc_iff. intros a b. unfold edge, subjectless_edge.
    destruct (node_establishes steps a); [set_solver|]. rewrite adjacency_edge. naive_solver.
  - apply (adjacency_covers ids). intros a. destruct (node_establishes steps a); [apply Nat.le_0_l|done].
  - by rewrite length_fmap.
Qed.

Lemma kind_by_id_fold steps : ∀ kinds : gmap string StepKind,
  NoDup (step_id <$> steps) → (∀ x, x ∈ step_id <$> steps → kinds !! x = None) →
  ∀ x kind,
  foldl (λ (kinds : gmap string StepKind) step,
    match kinds !! step_id step with
    | Some _ => kinds
    | None => <[step_id step := step_kind step]> kinds
    end) kinds steps !! x = Some kind ↔
  kinds !! x = Some kind ∨ ∃ step, step ∈ steps ∧ step_id step = x ∧ step_kind step = kind.
Proof.
  induction steps as [|s steps IH]; intros kinds Hnd Hk x kind; simpl; [set_solver|].
  simpl in Hnd. apply NoDup_cons in Hnd as [Hs Hnd].
  rewrite Hk by (simpl; set_solver). rewrite IH; [|done|].
  - destruct (decide (step_id s = x)) as [<-|Hne].
    + rewrite lookup_insert_eq, (Hk (step_id s)) by (simpl; set_solver).
      setoid_rewrite elem_of_cons. split; [naive_solver|].
      intros [?|(s' & [->|Hs'] & Hid & <-)]; [done|by left|].
      destruct Hs. rewrite <-Hid. by apply list_elem_of_fmap_2.
    + rewrite lookup_insert_ne by done. setoid_rewrite elem_of_cons. naive_solver.
  - intros y Hy. rewrite lookup_insert_ne; [|set_solver]. apply Hk. simpl. set_solver.
Qed.

(** With distinct ids, [kind_by_id] is the kind of the step with that id. *)
Lemma kind_by_id_lookup steps x kind : NoDup (step_id <$> steps) →
  kind_by_id steps !! x = Some kind ↔
  ∃ step, step ∈ steps ∧ step_id step = x ∧ step_kind step = kind.
Proof.
  intros Hnd. unfold kind_by_id. rewrite kind_by_id_fold by (set_solver || done).
  rewrite lookup_empty. naive_solver.
Qed.

(** Every step is reachable, and only completion steps have no way out. *)
Definition reachability_ok entry steps transitions ids (role_terminals : gset string) : Prop :=
  ∀ step, step ∈ steps →
    rtc (step_edge ids transitions) entry (step_id step) ∧
    (step_id step ∈ role_terminals ∨ ∃ t, t ∈ transitions ∧ tr_from t = step_id step).

Lemma check_reachability_and_dead_ends_nil entry steps transitions ids role_terminals base :
  check_reachability_and_dead_ends entry steps transitions ids role_terminals base = [] ↔
  reachability_ok entry steps transitions ids role_terminals.
Proof.
  unfold check_reachability_and_dead_ends, reachability_ok. rewrite app_nil.
  rewrite !enum_push_nil. setoid_rewrite bool_decide_eq_false.
  setoid_rewrite andb_false_iff. setoid_rewrite andb_false_iff.
  setoid_rewrite negb_false_iff. setoid_rewrite bool_decide_eq_true.
  setoid_rewrite bool_decide_eq_false. setoid_rewrite reachable_steps_spec.
  setoid_rewrite elem_of_list_to_set. setoid_rewrite list_elem_of_fmap. split.
  - intros [Hr Hd] step Hs. specialize (Hr step Hs). specialize (Hd step Hs).
    rewrite <-reachable_steps_spec in Hr. apply dec_stable in Hr.
    rewrite reachable_steps_spec in Hr. naive_solver.
  - intros Hok. split; intros step Hs; specialize (Hok step Hs); naive_solver.
Qed.

(** No step that reads the subject is reachable by a path that has not passed
    an establishing step. *)
Definition subject_ok entry steps transitions ids : Prop :=
  ∀ step, step ∈ steps → requires_subject (step_kind step) = true →
    ¬ rtc (subjectless_edge steps ids transitions) entry (step_id step).

Lemma check_subject_establishment_nil entry steps transitions ids base :
  check_subject_establishment entry steps transitions ids base = [] ↔
  subject_ok entry steps transitions ids.
Proof.
  unfold check_subject_establishment, subject_ok. rewrite enum_push_nil.
  setoid_rewrite andb_false_iff. setoid_rewrite bool_decide_eq_false.
  setoid_rewrite reachable_before_establishment_spec. split.
  - intros Hok step Hs Hreq. destruct (Hok step Hs); congruence.
  - intros Hok step Hs. destruct (requires_subject _) eqn:Hreq; eauto.
Qed.

(** *** Predicates *)

(** Every guard and every decision predicate passes the type check. *)
Definition predicates_ok steps transitions : Prop :=
  (∀ t guard, t ∈ transitions → tr_guard t = Some guard → typecheck_predicate guard "" = []) ∧
  (∀ step predicate, step ∈ steps → step_decision step = Some (DecisionPredicate predicate) →
     typecheck_predicate predicate "" = []).

Lemma collect_predicate_errors_nil predicate base :
  collect_predicate_errors predicate base = [] ↔ typecheck_predicate predicate "" = [].
Proof.
  unfold collect_predicate_errors. rewrite fmap_nil.
  split; apply typecheck_base_irrelevant.
Qed.

Lemma check_predicates_nil steps transitions base :
  check_predicates steps transitions base = [] ↔ predicates_ok steps transitions.
Proof.
  unfold check_predicates, predicates_ok. rewrite app_nil, !enum_flat_nil.
  split; intros [Ht Hs]; split.
  - intros t guard [i Hi]%list_elem_of_lookup Hg. specialize (Ht i t Hi). rewrite Hg in Ht.
    by apply collect_predicate_errors_nil in Ht.
  - intros s p [i Hi]%list_elem_of_lookup Hp. specialize (Hs i s Hi). rewrite Hp in Hs.
    by apply collect_predicate_errors_nil in Hs.
  - intros i t Hi%list_elem_of_lookup_2. case_match; [|done].
    apply collect_predicate_errors_nil. eauto.
  - intros i s Hi%list_elem_of_lookup_2. case_match; [|done]. case_match. subst.
    apply collect_predicate_errors_nil. eauto.
Qed.

End Specs.
