(* ===== verification/JourneyDisplay.v ===== *)
(** * Error messages of the journey validator
    (the [Display] implementations of validate.rs and eval.rs, and the decision
    evaluator seam of eval.rs)

    [write!] with string interpolation is concatenation.  The theorem: every
    located error prints the pointer it was reported at. *)

From S2P Require Import Prelude Json JourneyArtifact JourneyEval JourneyChecks.

(** [{source:?}], the derived [Debug] of the enum. *)
Definition FieldSource_debug (source : FieldSource) : string :=
  match source with
  | SrcFlow => "Flow"
  | SrcSignals => "Signals"
  | SrcSubjectTraits => "SubjectTraits"
  | SrcSubjectGroups => "SubjectGroups"
  | SrcSubjectScopes => "SubjectScopes"
  | SrcRisk => "Risk"
  end.

Definition PredicateError_fmt (e : PredicateError) : string :=
  match e with
  | TooDeep limit => "predicate nests deeper than the maximum depth of " +:+ fmt_nat limit
  end.

Definition PredicateTypeError_fmt (e : PredicateTypeError) : string :=
  match e with
  | UnknownField pointer source =>
      "field at " +:+ pointer +:+ " names no known " +:+ FieldSource_debug source +:+ " field"
  | NotComparable pointer => "field at " +:+ pointer +:+ " is a set and cannot be compared"
  | OrderingUndefined pointer =>
      "ordering operator at " +:+ pointer +:+ " is undefined for this type"
  | LiteralTypeMismatch pointer =>
      "literal at " +:+ pointer +:+ " does not match the field type"
  | MemberSetMismatch pointer =>
      "membership field at " +:+ pointer +:+ " does not match its set kind"
  | TypeTooDeep pointer => "predicate at " +:+ pointer +:+ " nests too deep"
  | SourceNotLive pointer source =>
      "field at " +:+ pointer +:+ " reads a " +:+ FieldSource_debug source +:+
      " source the engine does not populate (see issue #355)"
  end.

Definition JourneyError_fmt (e : JourneyError) : string :=
  match e with
  | UnknownStepKind pointer kind =>
      "unknown step kind " +:+ kind +:+ " at " +:+ pointer
  | BuiltinOnlyStepKind pointer kind =>
      "built-in-only step kind " +:+ kind +:+ " at " +:+ pointer +:+
      " is not allowed in a custom journey"
  | UnknownNodeGroup pointer group =>
      "unknown node group " +:+ group +:+ " at " +:+ pointer
  | DanglingTransition pointer to =>
      "transition at " +:+ pointer +:+ " references unknown step " +:+ to
  | DanglingSubflowRef pointer subflow =>
      "step at " +:+ pointer +:+ " references unknown subflow " +:+ subflow
  | UnreachableStep pointer step =>
      "step " +:+ step +:+ " at " +:+ pointer +:+ " is unreachable from the entry"
  | DeadEndStep pointer step =>
      "step " +:+ step +:+ " at " +:+ pointer +:+
      " is a non-terminal dead end with no outgoing transition"
  | SubjectStepNotEstablished pointer step =>
      "step " +:+ step +:+ " at " +:+ pointer +:+
      " requires an authenticated subject but is reachable from the entry with no preceding subject-establishing step (identifier_password)"
  | MissingStepAttachment pointer step kind =>
      "step " +:+ step +:+ " at " +:+ pointer +:+ " of kind " +:+ kind +:+
      " is missing its required attachment"
  | UnexpectedStepAttachment pointer step =>
      "step " +:+ step +:+ " carries an attachment its kind does not use at " +:+ pointer
  | TerminalHasTransition pointer step =>
      "terminal step " +:+ step +:+ " has an outgoing transition at " +:+ pointer
  | EngineIncompatible pointer declared supported =>
      "engine version " +:+ pretty declared +:+ " at " +:+ pointer +:+
      " exceeds the supported version " +:+ pretty supported
  | NonDeterministicTransition pointer =>
      "ambiguous unguarded routing at " +:+ pointer
  | DuplicateStepId pointer id =>
      "duplicate step id " +:+ id +:+ " at " +:+ pointer
  | UnknownEntry pointer =>
      "entry at " +:+ pointer +:+ " names no declared step"
  | PredicateType error =>
      PredicateTypeError_fmt error
  | UnknownBuiltinSubflow pointer name =>
      "unknown built-in subflow " +:+ name +:+ " at " +:+ pointer
  | UnknownSubflowDefinition pointer subflow =>
      "reference at " +:+ pointer +:+ " names no inline subflow definition " +:+ subflow
  | DuplicateSubflowDefinition pointer id =>
      "duplicate subflow definition id " +:+ id +:+ " at " +:+ pointer
  | SubflowCycle pointer subflow =>
      "subflow " +:+ subflow +:+ " at " +:+ pointer +:+ " references itself"
  | SubflowTerminalStep pointer step =>
      "subflow step " +:+ step +:+ " at " +:+ pointer +:+
      " is a terminal, but a subflow returns via its exits"
  | SubflowNoExit pointer subflow =>
      "subflow " +:+ subflow +:+ " at " +:+ pointer +:+ " declares no return exits"
  | UnknownSubflowExit pointer exit =>
      "exit at " +:+ pointer +:+ " names no declared step " +:+ exit
  | SubflowExitNotLeaf pointer exit =>
      "subflow exit " +:+ exit +:+ " has an outgoing transition at " +:+ pointer
  | UnknownTemplate pointer template =>
      "unknown template " +:+ template +:+ " at " +:+ pointer
  | MissingTemplateParam pointer param =>
      "missing required template parameter " +:+ param +:+ " at " +:+ pointer
  | TemplateParamType pointer param =>
      "template parameter " +:+ param +:+ " at " +:+ pointer +:+ " has the wrong type"
  | ReservedStepIdSeparator pointer id =>
      "step id " +:+ id +:+ " at " +:+ pointer +:+ " uses the reserved namespace separator"
  | DuplicateSubflowRef pointer id =>
      "duplicate subflow reference alias " +:+ id +:+ " at " +:+ pointer
  | ComposedTooLarge limit =>
      "composition exceeds the step ceiling of " +:+ pretty limit
  | NoReachableCompletion =>
      "no completion is reachable from the entry step"
  end.

(** The pointer an error is located at. *)
Definition PredicateTypeError_pointer (e : PredicateTypeError) : string :=
  match e with
  | UnknownField pointer _ | NotComparable pointer | OrderingUndefined pointer
  | LiteralTypeMismatch pointer | MemberSetMismatch pointer | TypeTooDeep pointer
  | SourceNotLive pointer _ => pointer
  end.

Definition JourneyError_pointer (e : JourneyError) : option string :=
  match e with
  | UnknownStepKind p _ | BuiltinOnlyStepKind p _ | UnknownNodeGroup p _ | DanglingTransition p _
  | DanglingSubflowRef p _ | UnreachableStep p _ | DeadEndStep p _ | SubjectStepNotEstablished p _
  | MissingStepAttachment p _ _ | UnexpectedStepAttachment p _ | TerminalHasTransition p _
  | EngineIncompatible p _ _ | NonDeterministicTransition p | DuplicateStepId p _ | UnknownEntry p
  | UnknownBuiltinSubflow p _ | UnknownSubflowDefinition p _ | DuplicateSubflowDefinition p _
  | SubflowCycle p _ | SubflowTerminalStep p _ | SubflowNoExit p _ | UnknownSubflowExit p _
  | SubflowExitNotLeaf p _ | UnknownTemplate p _ | MissingTemplateParam p _ | TemplateParamType p _
  | ReservedStepIdSeparator p _ | DuplicateSubflowRef p _ => Some p
  | PredicateType error => Some (PredicateTypeError_pointer error)
  | ComposedTooLarge _ | NoReachableCompletion => None
  end.

(** A string occurs in another. *)
Definition occurs (needle s : string) : Prop := ∃ before after, s = before +:+ needle +:+ after.

Lemma string_app_assoc (a b c : string) : (a +:+ b) +:+ c = a +:+ b +:+ c.
Proof. induction a as [|x a IH]; [done|]. change (String x ((a +:+ b) +:+ c) = String x (a +:+ b +:+ c)). by rewrite IH. Qed.

Lemma occurs_here needle after : occurs needle (needle +:+ after).
Proof. by exists "", after. Qed.

Lemma occurs_end needle : occurs needle needle.
Proof.
  exists "", "". induction needle as [|x s IH]; [done|].
  change (String x s = String x ("" +:+ s +:+ "")). by rewrite <-IH.
Qed.

Lemma occurs_app needle s t : occurs needle t → occurs needle (s +:+ t).
Proof. intros (before & after & ->). exists (s +:+ before), after. by rewrite string_app_assoc. Qed.


(** Walk along the concatenation to the needle. *)
Ltac find_occurrence :=
  first [apply occurs_here | apply occurs_end | apply occurs_app; find_occurrence].

Lemma predicate_message_located e : occurs (PredicateTypeError_pointer e) (PredicateTypeError_fmt e).
Proof. destruct e; cbn [PredicateTypeError_pointer PredicateTypeError_fmt]; find_occurrence. Qed.

(** The message of every located load-time failure contains the
    RFC 6901 pointer it was reported at; only the two whole-document failures
    (the step ceiling and the missing completion) carry none. *)
Theorem error_message_located e :
  match JourneyError_pointer e with
  | Some pointer => occurs pointer (JourneyError_fmt e)
  | None => e = NoReachableCompletion ∨ ∃ limit, e = ComposedTooLarge limit
  end.
Proof.
  destruct e; cbn [JourneyError_pointer JourneyError_fmt];
    first [find_occurrence | apply predicate_message_located | eauto].
Qed.

(** ** The decision evaluator seam *)

Section Decision.
Context `{SerdePointer}.

(** The [DecisionEvaluator] of a decision, as the function it evaluates to. *)
Definition evaluator (decision : DecisionSpec) : EvalContext → Result bool PredicateError :=
  match decision with DecisionPredicate predicate => evaluate predicate end.
End Decision.
