(* ===== verification/JourneySubflow.v ===== *)
(** * Subflow validation (crates/ironauth-journey/src/subflow.rs, first half) and
    the load-time validator (crates/ironauth-journey/src/validate.rs)

    The built-in subflow registry, the checks of inline subflow definitions and
    references, the reference cycle check, and [validate_inner], which runs all
    the checks in document order.  [validator_accepts_well_formed] characterises it: the
    validator accepts a document exactly when it is well formed in the sense of
    [well_formed]. *)

From S2P Require Import Prelude Walk Json JourneyArtifact JourneyEval JourneyChecks.

Definition BUILTIN_MFA_STEP_UP : string := "mfa_step_up".

Definition NAMESPACE_SEPARATOR : string := "::".

Section Subflow.
Context `{SerdeNumber}.

Definition mfa_step_up : Subflow := {|
  sf_id := BUILTIN_MFA_STEP_UP;
  sf_entry := "challenge";
  sf_exits := ["challenge"];
  sf_comment := Some "Step up with a second factor, then return to the caller.";
  sf_steps := [{|
    step_id := "challenge";
    step_kind := MfaChallenge;
    step_node_group := Some "totp";
    step_subflow := None;
    step_decision := None;
    step_factor := None;
    step_comment := Some "Present the enrolled second factor."
  |}];
  sf_transitions := []
|}.

Definition builtin_subflows : gmap string Subflow := {[BUILTIN_MFA_STEP_UP := mfa_step_up]}.

(** ** One definition as a fragment *)

Definition validate_subflow_fragment (def : Subflow) (base : string) (all_keys : gset string)
    (admit_builtin_only : bool) : list JourneyError :=
  let '(ids, duplicates) := collect_step_ids (sf_steps def) base in
  let entry_known := bool_decide (sf_entry def ∈ ids) in
  let exit_set : gset string := list_to_set (sf_exits def) in
  duplicates ++
  enum_flat (λ index step,
    let step_ptr := base +:+ "/steps/" +:+ fmt_nat index in
    check_kind_and_node_group step step_ptr admit_builtin_only ++
    push_if (str_contains NAMESPACE_SEPARATOR (step_id step))
      (ReservedStepIdSeparator (step_ptr +:+ "/id") (step_id step)) ++
    push_if (is_terminal (step_kind step))
      (SubflowTerminalStep (step_ptr +:+ "/kind") (step_id step)) ++
    match step_subflow step with
    | Some key =>
        push_if (bool_decide (key ∉ all_keys)) (DanglingSubflowRef (step_ptr +:+ "/subflow") key)
    | None => []
    end ++
    check_attachment_coherence step step_ptr) (sf_steps def) ++
  push_if (negb entry_known) (UnknownEntry (base +:+ "/entry")) ++
  push_if (bool_decide (sf_exits def = [])) (SubflowNoExit (base +:+ "/exits") (sf_id def)) ++
  enum_flat (λ index exit,
    push_if (bool_decide (exit ∉ ids))
      (UnknownSubflowExit (base +:+ "/exits/" +:+ fmt_nat index) exit)) (sf_exits def) ++
  enum_flat (λ index transition,
    push_if (bool_decide (tr_from transition ∈ exit_set))
      (SubflowExitNotLeaf (base +:+ "/transitions/" +:+ fmt_nat index) (tr_from transition)))
    (sf_transitions def) ++
  check_transition_endpoints ids (sf_transitions def) base ++
  (if entry_known then
     check_reachability_and_dead_ends (sf_entry def) (sf_steps def) (sf_transitions def)
       ids exit_set base
   else []) ++
  check_predicates (sf_steps def) (sf_transitions def) base.

(** ** Reference cycles *)

Definition called_keys (steps : list Step) (all_keys : gset string) : list string :=
  omap (λ step,
    match step_kind step, step_subflow step with
    | SubflowCall, Some key => if bool_decide (key ∈ all_keys) then Some key else None
    | _, _ => None
    end) steps.

(** The edges of a definition graph. *)
Definition graph_edges (graph : gmap string (list string)) : list (string * string) :=
  kv ← map_to_list graph; pair kv.1 <$> kv.2.

Definition reaches (graph : gmap string (list string)) (from to : string) : bool :=
  let next node := default [] (graph !! node) in
  let fuel := S (S (length (graph_edges graph) + length (next from))) in
  bool_decide (walk_until next fuel to (reverse (next from)) ∅ = Some true).

(** The graph [detect_subflow_cycles] builds: inline definitions first, then the
    built-ins ([BTreeMap::insert], the last insertion of a key wins). *)
Definition definition_graph (inline : list Subflow) (builtins : gmap string Subflow)
    (all_keys : gset string) : gmap string (list string) :=
  insert_all
    (insert_all ∅ ((λ def, (sf_id def, called_keys (sf_steps def) all_keys)) <$> inline))
    ((λ nd, (nd.1, called_keys (sf_steps nd.2) all_keys)) <$> map_to_list builtins).

Fixpoint detect_subflow_cycles_loop (index : nat) (graph : gmap string (list string))
    (inline : list Subflow) : list JourneyError :=
  match inline with
  | [] => []
  | def :: rest =>
      if reaches graph (sf_id def) (sf_id def) then
        [SubflowCycle ("/subflow_definitions/" +:+ fmt_nat index) (sf_id def)]
      else detect_subflow_cycles_loop (S index) graph rest
  end.

Definition detect_subflow_cycles (inline : list Subflow) (builtins : gmap string Subflow)
    (all_keys : gset string) : list JourneyError :=
  detect_subflow_cycles_loop 0 (definition_graph inline builtins all_keys) inline.

(** ** References and definitions of a journey *)

(** The first loop of [validate_subflows]: duplicate or colliding definitions. *)
Fixpoint duplicate_definitions (index : nat) (builtins : gmap string Subflow)
    (inline : list Subflow) (seen : gset string) : list JourneyError :=
  match inline with
  | [] => []
  | def :: rest =>
      push_if (bool_decide (sf_id def ∈ seen) || bool_decide (is_Some (builtins !! sf_id def)))
        (DuplicateSubflowDefinition ("/subflow_definitions/" +:+ fmt_nat index +:+ "/id") (sf_id def))
      ++ duplicate_definitions (S index) builtins rest ({[sf_id def]} ∪ seen)
  end.

(** The loop over the [subflows] reference list. *)
Fixpoint resolve_references (index : nat) (builtins : gmap string Subflow)
    (inline_ids : gset string) (refs : list SubflowRef) (seen_aliases : gset string)
    : list JourneyError :=
  match refs with
  | [] => []
  | subflow_ref :: rest =>
      let at_ := "/subflows/" +:+ fmt_nat index in
      push_if (bool_decide (ref_id subflow_ref ∈ seen_aliases))
        (DuplicateSubflowRef (at_ +:+ "/id") (ref_id subflow_ref)) ++
      match ref_source subflow_ref with
      | Builtin name =>
          push_if (negb (bool_decide (is_Some (builtins !! name))))
            (UnknownBuiltinSubflow (at_ +:+ "/source") name)
      | Inline subflow_id =>
          push_if (bool_decide (subflow_id ∉ inline_ids))
            (UnknownSubflowDefinition (at_ +:+ "/source") subflow_id)
      end ++
      resolve_references (S index) builtins inline_ids rest ({[ref_id subflow_ref]} ∪ seen_aliases)
  end.

Definition inline_definitions (doc : Journey) : list Subflow :=
  default [] (j_subflow_definitions doc).

(** The global definition key set. *)
Definition definition_keys (doc : Journey) : gset string :=
  dom builtin_subflows ∪ list_to_set (sf_id <$> inline_definitions doc).

Definition validate_subflows (doc : Journey) (admit_builtin_only : bool) : list JourneyError :=
  let builtins := builtin_subflows in
  let inline := inline_definitions doc in
  let all_keys := definition_keys doc in
  let inline_ids : gset string := list_to_set (sf_id <$> inline) in
  duplicate_definitions 0 builtins inline ∅ ++
  match j_subflows doc with
  | Some refs => resolve_references 0 builtins inline_ids refs ∅
  | None => []
  end ++
  enum_flat (λ index def,
    validate_subflow_fragment def ("/subflow_definitions/" +:+ fmt_nat index)
      all_keys admit_builtin_only) inline ++
  detect_subflow_cycles inline builtins all_keys.

(** ** The validator *)

Definition terminals (steps : list Step) : gset string :=
  list_to_set (step_id <$> filter (λ step, is_terminal (step_kind step)) steps).

(** The errors [validate_inner] collects. *)
Definition validate_errors (doc : Journey) (reject_reserved admit_builtin_only : bool)
    : list JourneyError :=
  let '(ids, duplicates) := collect_step_ids (j_steps doc) "" in
  let declared := declared_subflow_ids doc in
  let entry_known := bool_decide (j_entry doc ∈ ids) in
  let ends := terminals (j_steps doc) in
  push_if (JOURNEY_ENGINE_VERSION <? j_engine_version doc)%Z
    (EngineIncompatible "/engine_version" (j_engine_version doc) JOURNEY_ENGINE_VERSION) ++
  duplicates ++
  enum_flat (λ index step,
    let step_ptr := "/steps/" +:+ fmt_nat index in
    check_kind_and_node_group step step_ptr admit_builtin_only ++
    push_if (reject_reserved && str_contains NAMESPACE_SEPARATOR (step_id step))
      (ReservedStepIdSeparator ("/steps/" +:+ fmt_nat index +:+ "/id") (step_id step)) ++
    match step_subflow step with
    | Some alias =>
        push_if (bool_decide (alias ∉ declared))
          (DanglingSubflowRef ("/steps/" +:+ fmt_nat index +:+ "/subflow") alias)
    | None => []
    end ++
    check_attachment_coherence step step_ptr) (j_steps doc) ++
  push_if (negb entry_known) (UnknownEntry "/entry") ++
  check_transition_endpoints ids (j_transitions doc) "" ++
  enum_flat (λ index transition,
    push_if (bool_decide (tr_from transition ∈ ends))
      (TerminalHasTransition ("/transitions/" +:+ fmt_nat index) (tr_from transition)))
    (j_transitions doc) ++
  (if entry_known then
     check_reachability_and_dead_ends (j_entry doc) (j_steps doc) (j_transitions doc) ids ends "" ++
     check_subject_establishment (j_entry doc) (j_steps doc) (j_transitions doc) ids ""
   else []) ++
  check_predicates (j_steps doc) (j_transitions doc) "" ++
  validate_subflows doc admit_builtin_only.

Definition validate_inner (doc : Journey) (reject_reserved admit_builtin_only : bool)
    : Result unit (list JourneyError) :=
  match validate_errors doc reject_reserved admit_builtin_only with
  | [] => Ok ()
  | errors => Err errors
  end.

Definition RESERVED_IDS_REJECTED : bool := true.
Definition RESERVED_IDS_ADMITTED : bool := false.
Definition BUILTIN_ONLY_REJECTED : bool := false.
Definition BUILTIN_ONLY_ADMITTED : bool := true.

Definition validate (doc : Journey) : Result unit (list JourneyError) :=
  validate_inner doc RESERVED_IDS_REJECTED BUILTIN_ONLY_REJECTED.

Definition validate_builtin (doc : Journey) : Result unit (list JourneyError) :=
  validate_inner doc RESERVED_IDS_REJECTED BUILTIN_ONLY_ADMITTED.

End Subflow.

(** ** What the validator accepts *)

Section WellFormed.
Context `{SerdeNumber}.

Abbreviation step_ids steps := (list_to_set (step_id <$> steps) : gset string).

(** A subflow definition is a well-formed fragment. *)
Record fragment_ok (all_keys : gset string) (admit_builtin_only : bool) (def : Subflow) : Prop := {
  fr_ids : NoDup (step_id <$> sf_steps def);
  fr_steps : ∀ step, step ∈ sf_steps def →
    vocabulary_ok admit_builtin_only step ∧ attachments_ok step ∧
    str_contains NAMESPACE_SEPARATOR (step_id step) = false ∧
    is_terminal (step_kind step) = false ∧
    ∀ key, step_subflow step = Some key → key ∈ all_keys;
  fr_entry : sf_entry def ∈ step_ids (sf_steps def);
  fr_exits : sf_exits def ≠ [] ∧ ∀ exit, exit ∈ sf_exits def → exit ∈ step_ids (sf_steps def);
  fr_leaves : ∀ t, t ∈ sf_transitions def → tr_from t ∉ sf_exits def;
  fr_endpoints : endpoints_ok (step_ids (sf_steps def)) (sf_transitions def);
  fr_reach : reachability_ok (sf_entry def) (sf_steps def) (sf_transitions def)
    (step_ids (sf_steps def)) (list_to_set (sf_exits def));
  fr_predicates : predicates_ok (sf_steps def) (sf_transitions def)
}.

(** One definition calls another. *)
Definition definition_calls (doc : Journey) (x y : string) : Prop :=
  y ∈ default [] (definition_graph (inline_definitions doc) builtin_subflows
                    (definition_keys doc) !! x).

(** The source of a reference resolves. *)
Definition source_resolves (doc : Journey) (source : SubflowSource) : Prop :=
  match source with
  | Builtin name => name ∈ dom builtin_subflows
  | Inline subflow_id => subflow_id ∈ sf_id <$> inline_definitions doc
  end.

(** The structural contract of a journey document. *)
Record well_formed (reject_reserved admit_builtin_only : bool) (doc : Journey) : Prop := {
  wf_engine : (j_engine_version doc ≤ JOURNEY_ENGINE_VERSION)%Z;
  wf_ids : NoDup (step_id <$> j_steps doc);
  wf_steps : ∀ step, step ∈ j_steps doc →
    vocabulary_ok admit_builtin_only step ∧ attachments_ok step ∧
    (reject_reserved = true → str_contains NAMESPACE_SEPARATOR (step_id step) = false) ∧
    ∀ alias, step_subflow step = Some alias → alias ∈ declared_subflow_ids doc;
  wf_entry : j_entry doc ∈ step_ids (j_steps doc);
  wf_endpoints : endpoints_ok (step_ids (j_steps doc)) (j_transitions doc);
  wf_terminals : ∀ t, t ∈ j_transitions doc → tr_from t ∉ terminals (j_steps doc);
  wf_reach : reachability_ok (j_entry doc) (j_steps doc) (j_transitions doc)
    (step_ids (j_steps doc)) (terminals (j_steps doc));
  wf_subject : subject_ok (j_entry doc) (j_steps doc) (j_transitions doc) (step_ids (j_steps doc));
  wf_predicates : predicates_ok (j_steps doc) (j_transitions doc);
  wf_definitions : NoDup (sf_id <$> inline_definitions doc) ∧
    ∀ def, def ∈ inline_definitions doc → builtin_subflows !! sf_id def = None;
  wf_references : NoDup (ref_id <$> default [] (j_subflows doc)) ∧
    ∀ r, r ∈ default [] (j_subflows doc) → source_resolves doc (ref_source r);
  wf_fragments : ∀ def, def ∈ inline_definitions doc →
    fragment_ok (definition_keys doc) admit_builtin_only def;
  wf_acyclic : ∀ def, def ∈ inline_definitions doc →
    ¬ tc (definition_calls doc) (sf_id def) (sf_id def)
}.

Lemma subflow_key_nil (key : option string) (keys : gset string) (e : string → JourneyError) :
  match key with Some k => push_if (bool_decide (k ∉ keys)) (e k) | None => [] end = [] ↔
  ∀ k, key = Some k → k ∈ keys.
Proof.
  destruct key as [k|]; [|naive_solver]. rewrite push_if_nil, bool_decide_eq_false.
  split; [|naive_solver]. intros Hk ? [= <-]. by apply dec_stable.
Qed.

Lemma validate_subflow_fragment_nil def base all_keys adm :
  validate_subflow_fragment def base all_keys adm = [] ↔ fragment_ok all_keys adm def.
Proof.
  unfold validate_subflow_fragment.
  rewrite (surjective_pairing (collect_step_ids (sf_steps def) base)), collect_step_ids_set.
  rewrite !app_nil, collect_step_ids_nil, !push_if_nil, !enum_push_nil, enum_flat_nil,
    check_transition_endpoints_nil, check_predicates_nil.
  split.
  - intros (Hids & Hsteps & Hentry & Hne & Hexits & Hleaves & Hends & Hreach & Hpred).
    bool_to_prop. rewrite bool_decide_eq_true_2 in Hreach by done.
    apply check_reachability_and_dead_ends_nil in Hreach.
    split; try done.
    + intros step [i Hi]%list_elem_of_lookup. specialize (Hsteps i step Hi). simpl in Hsteps.
      rewrite !app_nil, !push_if_nil, check_kind_and_node_group_nil, subflow_key_nil,
        check_attachment_coherence_nil in Hsteps. naive_solver.
    + split; [done|]. intros exit Hexit. specialize (Hexits exit Hexit).
      bool_to_prop. by apply dec_stable.
    + intros t Ht. specialize (Hleaves t Ht). bool_to_prop. set_solver.
  - intros []. split_and!; try done.
    + intros i step Hi%list_elem_of_lookup_2. specialize (fr_steps0 step Hi).
      rewrite !app_nil, !push_if_nil, check_kind_and_node_group_nil, subflow_key_nil,
        check_attachment_coherence_nil. naive_solver.
    + by apply negb_false_iff, bool_decide_eq_true.
    + apply bool_decide_eq_false. naive_solver.
    + intros exit Hexit. apply bool_decide_eq_false. naive_solver.
    + intros t Ht. apply bool_decide_eq_false. set_solver.
    + rewrite bool_decide_eq_true_2 by done. by apply check_reachability_and_dead_ends_nil.
Qed.

(** *** Reference cycles *)

Lemma graph_edges_covers graph :
  covers (λ node, default [] (graph !! node)) (graph_edges graph).
Proof.
  intros x. destruct (graph !! x) as [v|] eqn:Hx; simpl; [|lia].
  apply elem_of_map_to_list, list_elem_of_split in Hx as (l1 & l2 & Hl).
  unfold graph_edges. rewrite Hl, bind_app, filter_app, bind_cons, filter_app, !length_app. simpl.
  assert (length (filter (λ e : string * string, e.1 = x) (pair x <$> v)) = length v); [|lia].
  clear. induction v as [|y v IH]; [done|].
  rewrite fmap_cons, filter_cons_True by done. simpl. by f_equal.
Qed.

(** The iterative cycle walk decides the transitive closure of the graph. *)
Lemma reaches_spec graph from to :
  reaches graph from to = true ↔ tc (λ x y, y ∈ default [] (graph !! x)) from to.
Proof.
  unfold reaches. rewrite bool_decide_eq_true.
  apply (walk_until_tc (λ node, default [] (graph !! node)) (graph_edges graph));
    [apply graph_edges_covers|done].
Qed.

Lemma detect_subflow_cycles_loop_nil graph inline : ∀ index,
  detect_subflow_cycles_loop index graph inline = [] ↔
  ∀ def, def ∈ inline → ¬ tc (λ x y, y ∈ default [] (graph !! x)) (sf_id def) (sf_id def).
Proof.
  induction inline as [|def inline IH]; intros index; simpl; [set_solver|].
  destruct (reaches _ _ _) eqn:Hr.
  - apply reaches_spec in Hr. split; [done|]. intros Hall. destruct (Hall def); [left|done].
  - rewrite IH. split; intros Hall def'.
    + intros [->|Hd]%elem_of_cons; [|by apply Hall]. rewrite <-reaches_spec. by rewrite Hr.
    + intros Hd. apply Hall. by right.
Qed.

(** *** References *)

Lemma duplicate_definitions_nil builtins inline : ∀ index seen,
  duplicate_definitions index builtins inline seen = [] ↔
  (NoDup (sf_id <$> inline) ∧ ∀ def, def ∈ inline → builtins !! sf_id def = None) ∧
  ∀ x, x ∈ sf_id <$> inline → x ∉ seen.
Proof.
  induction inline as [|def inline IH]; intros index seen; simpl.
  { split; [|done]. intros _. split_and!; [apply NoDup_nil_2|set_solver..]. }
  rewrite app_nil, push_if_nil, orb_false_iff, !bool_decide_eq_false, IH, NoDup_cons,
    <-eq_None_not_Some. setoid_rewrite elem_of_cons. set_solver.
Qed.

Lemma resolve_references_nil builtins inline_ids refs : ∀ index seen,
  resolve_references index builtins inline_ids refs seen = [] ↔
  (NoDup (ref_id <$> refs) ∧ ∀ r, r ∈ refs →
     match ref_source r with
     | Builtin name => name ∈ dom builtins
     | Inline subflow_id => subflow_id ∈ inline_ids
     end) ∧
  ∀ x, x ∈ ref_id <$> refs → x ∉ seen.
Proof.
  induction refs as [|r refs IH]; intros index seen; simpl.
  { split; [|done]. intros _. split_and!; [apply NoDup_nil_2|set_solver..]. }
  rewrite !app_nil, push_if_nil, bool_decide_eq_false, IH, NoDup_cons.
  setoid_rewrite elem_of_cons.
  assert (match ref_source r with
          | Builtin name =>
              push_if (negb (bool_decide (is_Some (builtins !! name))))
                (UnknownBuiltinSubflow ("/subflows/" +:+ fmt_nat index +:+ "/source") name)
          | Inline subflow_id =>
              push_if (bool_decide (subflow_id ∉ inline_ids))
                (UnknownSubflowDefinition ("/subflows/" +:+ fmt_nat index +:+ "/source") subflow_id)
          end = [] ↔
          match ref_source r with
          | Builtin name => name ∈ dom builtins
          | Inline subflow_id => subflow_id ∈ inline_ids
          end) as ->.
  { case_match; rewrite push_if_nil.
    - by rewrite negb_false_iff, bool_decide_eq_true, elem_of_dom.
    - rewrite bool_decide_eq_false. split; [by intros ?%dec_stable|naive_solver]. }
  split; [|set_solver].
  intros (Hr & Hs & (Hnd & Hrefs) & Hseen). split; [split; [split|]|]; [set_solver|done| |set_solver].
  intros r' [->|Hr']; [exact Hs|exact (Hrefs r' Hr')].
Qed.

(** *** The whole validator *)

Lemma validate_subflows_nil doc adm :
  validate_subflows doc adm = [] ↔
  (NoDup (sf_id <$> inline_definitions doc) ∧
   ∀ def, def ∈ inline_definitions doc → builtin_subflows !! sf_id def = None) ∧
  (NoDup (ref_id <$> default [] (j_subflows doc)) ∧
   ∀ r, r ∈ default [] (j_subflows doc) → source_resolves doc (ref_source r)) ∧
  (∀ def, def ∈ inline_definitions doc → fragment_ok (definition_keys doc) adm def) ∧
  (∀ def, def ∈ inline_definitions doc → ¬ tc (definition_calls doc) (sf_id def) (sf_id def)).
Proof.
  unfold validate_subflows, detect_subflow_cycles.
  rewrite !app_nil, duplicate_definitions_nil, detect_subflow_cycles_loop_nil, enum_flat_nil.
  assert (match j_subflows doc with
          | Some refs => resolve_references 0 builtin_subflows
              (list_to_set (sf_id <$> inline_definitions doc)) refs ∅
          | None => []
          end = [] ↔
          NoDup (ref_id <$> default [] (j_subflows doc)) ∧
          ∀ r, r ∈ default [] (j_subflows doc) → source_resolves doc (ref_source r)) as ->.
  { unfold source_resolves. destruct (j_subflows doc) as [refs|]; simpl.
    - rewrite resolve_references_nil. split.
      + intros [[Hnd Hres] _]. split; [done|]. intros r Hr. specialize (Hres r Hr).
        destruct (ref_source r); set_solver.
      + intros [Hnd Hres]. split; [|set_solver]. split; [done|]. intros r Hr.
        specialize (Hres r Hr). destruct (ref_source r); set_solver.
    - split; [|done]. intros _. split; [apply NoDup_nil_2|set_solver]. }
  split.
  - intros ((Hdefs & _) & Hrefs & Hfrag & Hacy).
    split; [exact Hdefs|]. split; [exact Hrefs|]. split; [|exact Hacy].
    intros def [i Hi]%list_elem_of_lookup. specialize (Hfrag i def Hi).
    by apply validate_subflow_fragment_nil in Hfrag.
  - intros (Hdefs & Hrefs & Hfrag & Hacy).
    split; [split; [exact Hdefs|by intros]|]. split; [exact Hrefs|]. split; [|exact Hacy].
    intros i def Hi%list_elem_of_lookup_2. apply validate_subflow_fragment_nil. by apply Hfrag.
Qed.

Lemma validate_errors_nil doc reject adm :
  validate_errors doc reject adm = [] ↔ well_formed reject adm doc.
Proof.
  unfold validate_errors.
  rewrite (surjective_pairing (collect_step_ids (j_steps doc) "")), collect_step_ids_set.
  rewrite !app_nil, collect_step_ids_nil, !push_if_nil, !enum_push_nil, enum_flat_nil,
    check_transition_endpoints_nil, check_predicates_nil, validate_subflows_nil.
  split.
  - intros (Heng & Hids & Hsteps & Hentry & Hends & Hterm & Hreach & Hpred & Hdefs & Hrefs & Hfrag & Hacy).
    bool_to_prop. rewrite bool_decide_eq_true_2, app_nil in Hreach by done.
    destruct Hreach as [Hreach Hsub]. apply check_reachability_and_dead_ends_nil in Hreach.
    apply check_subject_establishment_nil in Hsub.
    split; try done; [lia| |].
    + intros step [i Hi]%list_elem_of_lookup. specialize (Hsteps i step Hi). simpl in Hsteps.
      rewrite !app_nil, !push_if_nil, check_kind_and_node_group_nil, subflow_key_nil,
        check_attachment_coherence_nil in Hsteps. destruct reject; naive_solver.
    + intros t Ht. specialize (Hterm t Ht). by bool_to_prop.
  - intros []. split_and!; try done; try apply wf_definitions0; try apply wf_references0.
    + lia.
    + intros i step Hi%list_elem_of_lookup_2. specialize (wf_steps0 step Hi).
      rewrite !app_nil, !push_if_nil, check_kind_and_node_group_nil, subflow_key_nil,
        check_attachment_coherence_nil. destruct reject; naive_solver.
    + by apply negb_false_iff, bool_decide_eq_true.
    + intros t Ht. apply bool_decide_eq_false. by apply wf_terminals0.
    + rewrite bool_decide_eq_true_2, app_nil by done.
      by rewrite check_reachability_and_dead_ends_nil, check_subject_establishment_nil.
Qed.

Lemma validate_inner_ok doc reject adm :
  validate_inner doc reject adm = Ok () ↔ well_formed reject adm doc.
Proof.
  rewrite <-validate_errors_nil. unfold validate_inner.
  destruct (validate_errors doc reject adm); naive_solver.
Qed.

(** C1 (equivalence): the load-time validator accepts a document exactly when it
    is well formed: a supported engine version, distinct step ids, the closed
    vocabulary, coherent attachments, declared and deterministic transitions,
    every step reachable and only completion steps without a way out, no
    subject-reading step reachable before the subject is established, well-typed
    predicates, resolvable references, well-formed subflow fragments, and no
    reference cycle. *)
Theorem validator_accepts_well_formed doc reject_reserved admit_builtin_only :
  validate_inner doc reject_reserved admit_builtin_only = Ok () ↔
  well_formed reject_reserved admit_builtin_only doc.
Proof. apply validate_inner_ok. Qed.

End WellFormed.
