(* ===== verification/JourneyCompose.v ===== *)
(** * Composition of a journey (crates/ironauth-journey/src/subflow.rs, second half)

    [compose_inner] validates a journey, inlines every subflow call and validates
    the flat result.  The loop is modelled with fuel and the two [expect] calls
    of [inline_one] as explicit panics; the theorems show that neither the fuel
    nor a panic is ever reached, and what the flat journey satisfies. *)

From S2P Require Import Prelude Walk Rank Json JourneyArtifact JourneyEval JourneyChecks.
From S2P Require Import JourneySubflow.

Definition MAX_COMPOSED_STEPS : Z := 10000.

Definition prepend_comment (call entry : option string) : option string :=
  match call, entry with
  | Some call, Some entry => Some (call +:+ String "010"%char entry)
  | Some call, None => Some call
  | None, entry => entry
  end.

Section Compose.
Context `{SerdeNumber}.

(** Every built-in subflow plus every inline definition. *)
Definition full_registry (journey : Journey) : gmap string Subflow :=
  insert_all builtin_subflows ((λ def, (sf_id def, def)) <$> inline_definitions journey).

Definition source_key (source : SubflowSource) : string :=
  match source with Builtin name => name | Inline subflow_id => subflow_id end.

Definition alias_to_key (journey : Journey) : gmap string string :=
  insert_all ∅ ((λ r, (ref_id r, source_key (ref_source r))) <$> default [] (j_subflows journey)).

(** A journey-level call names an alias; it is rewritten to a definition key. *)
Definition normalize_call (aliases : gmap string string) (step : Step) : Step :=
  match step_kind step, step_subflow step with
  | SubflowCall, Some alias =>
      match aliases !! alias with
      | Some key => {|
          step_id := step_id step; step_kind := step_kind step;
          step_node_group := step_node_group step; step_subflow := Some key;
          step_decision := step_decision step; step_factor := step_factor step;
          step_comment := step_comment step |}
      | None => step
      end
  | _, _ => step
  end.

Definition namespaced (call_id id : string) : string := call_id +:+ NAMESPACE_SEPARATOR +:+ id.

Definition splice_step (call : Step) (entry_ns : string) (step : Step) : Step :=
  let id := namespaced (step_id call) (step_id step) in {|
    step_id := id; step_kind := step_kind step;
    step_node_group := step_node_group step; step_subflow := step_subflow step;
    step_decision := step_decision step; step_factor := step_factor step;
    step_comment :=
      if bool_decide (id = entry_ns) then prepend_comment (step_comment call) (step_comment step)
      else step_comment step |}.

Definition redirect (call_id entry_ns : string) (t : Transition) : Transition := {|
  tr_from := tr_from t;
  tr_to := if bool_decide (tr_to t = call_id) then entry_ns else tr_to t;
  tr_guard := tr_guard t; tr_comment := tr_comment t |}.

Definition namespace_transition (call_id : string) (t : Transition) : Transition := {|
  tr_from := namespaced call_id (tr_from t); tr_to := namespaced call_id (tr_to t);
  tr_guard := tr_guard t; tr_comment := tr_comment t |}.

Definition graft (exit : string) (t : Transition) : Transition := {|
  tr_from := exit; tr_to := tr_to t; tr_guard := tr_guard t; tr_comment := tr_comment t |}.

(** Inline the call step at [index]; [None] is a panic (an index out of range, a
    call without a key, or a key the registry does not resolve). *)
Definition inline_one (flat : Journey) (index : nat) (registry : gmap string Subflow)
    : option Journey :=
  call ← j_steps flat !! index;
  key ← step_subflow call;
  subflow ← registry !! key;
  let call_id := step_id call in
  let entry_ns := namespaced call_id (sf_entry subflow) in
  let exits_ns := namespaced call_id <$> sf_exits subflow in
  let return_edges := filter (λ t, tr_from t = call_id) (j_transitions flat) in
  let spliced_steps := splice_step call entry_ns <$> sf_steps subflow in
  Some {|
    j_schema_version := j_schema_version flat;
    j_id := j_id flat;
    j_engine_version := j_engine_version flat;
    j_entry := if bool_decide (j_entry flat = call_id) then entry_ns else j_entry flat;
    j_comment := j_comment flat;
    j_steps := take index (j_steps flat) ++ spliced_steps ++ drop (S index) (j_steps flat);
    j_transitions :=
      (redirect call_id entry_ns <$> filter (λ t, tr_from t ≠ call_id) (j_transitions flat)) ++
      (namespace_transition call_id <$> sf_transitions subflow) ++
      (exit ← exits_ns; graft exit <$> return_edges);
    j_subflows := j_subflows flat;
    j_subflow_definitions := j_subflow_definitions flat |}.

Definition is_call (step : Step) : Prop := step_kind step = SubflowCall.

#[export] Instance is_call_dec step : Decision (is_call step).
Proof. unfold is_call. apply _. Defined.

Definition too_large (flat : Journey) : bool :=
  (MAX_COMPOSED_STEPS <? Z.of_nat (length (j_steps flat)))%Z.

(** The loop of [compose_inner] and the size check after it. *)
Fixpoint compose_loop (fuel : nat) (flat : Journey) (registry : gmap string Subflow)
    : Run (Result Journey (list JourneyError)) :=
  match list_find is_call (j_steps flat) with
  | Some (index, _) =>
      if too_large flat then Returned (Err [ComposedTooLarge MAX_COMPOSED_STEPS]) else
      match fuel with
      | O => OutOfFuel
      | S n =>
          match inline_one flat index registry with
          | Some flat' => compose_loop n flat' registry
          | None => Panicked
          end
      end
  | None =>
      if too_large flat then Returned (Err [ComposedTooLarge MAX_COMPOSED_STEPS])
      else Returned (Ok flat)
  end.

(** The working document the loop starts from. *)
Definition compose_start (journey : Journey) : Journey := {|
  j_schema_version := j_schema_version journey;
  j_id := j_id journey;
  j_engine_version := j_engine_version journey;
  j_entry := j_entry journey;
  j_comment := j_comment journey;
  j_steps := normalize_call (alias_to_key journey) <$> j_steps journey;
  j_transitions := j_transitions journey;
  j_subflows := None;
  j_subflow_definitions := None |}.

(** Enough iterations: see [compose_loop_terminates]. *)
Definition compose_fuel (registry : gmap string Subflow) : nat :=
  S (size registry * Z.to_nat MAX_COMPOSED_STEPS).

Definition compose_inner (journey : Journey) (admit_builtin_only : bool)
    : Run (Result Journey (list JourneyError)) :=
  match validate_inner journey RESERVED_IDS_REJECTED admit_builtin_only with
  | Err errors => Returned (Err errors)
  | Ok _ =>
      let registry := full_registry journey in
      match compose_loop (compose_fuel registry) (compose_start journey) registry with
      | Returned (Ok flat) =>
          match validate_inner flat RESERVED_IDS_ADMITTED admit_builtin_only with
          | Ok _ => Returned (Ok flat)
          | Err errors => Returned (Err errors)
          end
      | other => other
      end
  end.

Definition compose (journey : Journey) : Run (Result Journey (list JourneyError)) :=
  compose_inner journey BUILTIN_ONLY_REJECTED.

Definition compose_builtin (journey : Journey) : Run (Result Journey (list JourneyError)) :=
  compose_inner journey BUILTIN_ONLY_ADMITTED.

End Compose.

(** ** The registry of a validated journey *)

Section Registry.
Context `{SerdeNumber}.
Variable doc : Journey.
Variable adm : bool.
Hypothesis wf : well_formed RESERVED_IDS_REJECTED adm doc.

Let registry := full_registry doc.

(** The definitions a definition calls. *)
Definition registry_succ (key : string) : list string :=
  match full_registry doc !! key with
  | Some def => called_keys (sf_steps def) (definition_keys doc)
  | None => []
  end.

Lemma inline_pairs {V} (f : Subflow → V) :
  ((λ def, (sf_id def, f def)) <$> inline_definitions doc).*1 = sf_id <$> inline_definitions doc.
Proof. rewrite <-list_fmap_compose. by apply list_fmap_ext. Qed.

Lemma builtin_lookup key def : builtin_subflows !! key = Some def ↔
  key = BUILTIN_MFA_STEP_UP ∧ def = mfa_step_up.
Proof. unfold builtin_subflows. rewrite lookup_singleton_Some. naive_solver. Qed.

Lemma registry_lookup key def : registry !! key = Some def ↔
  (def ∈ inline_definitions doc ∧ sf_id def = key) ∨
  (key = BUILTIN_MFA_STEP_UP ∧ def = mfa_step_up).
Proof.
  destruct (wf_definitions _ _ _ wf) as [Hnd Hcol].
  unfold registry, full_registry. rewrite insert_all_lookup by (rewrite inline_pairs; exact Hnd).
  rewrite inline_pairs, builtin_lookup, list_elem_of_fmap. split.
  - intros [(d & [= -> ->] & Hd)|[_ ?]]; auto.
  - intros [[Hd <-]|[-> ->]]; [left; eauto|]. right. split; [|done].
    intros (d & Heq & Hd)%list_elem_of_fmap. specialize (Hcol d Hd).
    by rewrite <-Heq in Hcol.
Qed.

Lemma registry_dom : dom registry = definition_keys doc.
Proof.
  unfold registry, full_registry, definition_keys. rewrite insert_all_dom, inline_pairs. set_solver.
Qed.

(** The call graph of the validator is the call graph of the registry. *)
Lemma definition_graph_lookup key : 
  definition_graph (inline_definitions doc) builtin_subflows (definition_keys doc) !! key =
  (λ def, called_keys (sf_steps def) (definition_keys doc)) <$> registry !! key.
Proof.
  destruct (wf_definitions _ _ _ wf) as [Hnd Hcol]. apply option_eq. intros keys.
  unfold definition_graph. unfold builtin_subflows at 1. rewrite map_to_list_singleton.
  rewrite fmap_Some. setoid_rewrite registry_lookup.
  rewrite insert_all_lookup by (apply NoDup_singleton).
  rewrite insert_all_lookup by (rewrite inline_pairs; exact Hnd). simpl.
  rewrite inline_pairs, lookup_empty, !list_elem_of_singleton, list_elem_of_fmap. split.
  - intros [[= -> ->]|(_ & [(d & [= -> ->] & Hd)|[_ ?]])]; [eauto..|done].
  - intros (d & [[Hd <-]|[-> ->]] & ->); [|by left]. right. split; [|eauto].
    intros Heq. specialize (Hcol d Hd). by rewrite Heq in Hcol.
Qed.

Lemma definition_calls_succ x y : definition_calls doc x y ↔ y ∈ registry_succ x.
Proof.
  unfold definition_calls, registry_succ. rewrite definition_graph_lookup.
  fold registry. by destruct (registry !! x).
Qed.

Lemma registry_acyclic x : x ∈ dom registry → ¬ tc (edge registry_succ) x x.
Proof.
  intros [def Hdef]%elem_of_dom Htc. pose proof Hdef as [[Hd <-]|[-> ->]]%registry_lookup.
  - apply (wf_acyclic _ _ _ wf def Hd). revert Htc. apply (tc_congruence id).
    intros ??. apply definition_calls_succ.
  - assert (∀ y, ¬ edge registry_succ BUILTIN_MFA_STEP_UP y) as Hno.
    { intros y. unfold edge, registry_succ. fold registry. rewrite Hdef.
      change (y ∉ ([] : list string)). set_solver. }
    inversion Htc; naive_solver.
Qed.

Lemma elem_of_called_keys steps keys key : key ∈ called_keys steps keys ↔
  key ∈ keys ∧ ∃ step, step ∈ steps ∧ step_kind step = SubflowCall ∧ step_subflow step = Some key.
Proof.
  unfold called_keys. rewrite list_elem_of_omap. split.
  - intros (step & Hs & Heq). repeat case_match; simplify_eq. bool_to_prop. eauto.
  - intros (Hk & step & Hs & Hkind & Hsub). exists step. split; [done|].
    by rewrite Hkind, Hsub, bool_decide_eq_true_2.
Qed.

Lemma registry_closed x y : x ∈ dom registry → y ∈ registry_succ x → y ∈ dom registry.
Proof.
  intros [def Hdef]%elem_of_dom. unfold registry_succ. fold registry. rewrite Hdef.
  rewrite elem_of_called_keys, registry_dom. tauto.
Qed.

(** A call step names a definition of the registry. *)
Definition call_resolves (step : Step) : Prop :=
  step_kind step = SubflowCall → ∃ key, step_subflow step = Some key ∧ key ∈ dom registry.

(** Every definition has a step, and its calls resolve. *)
Lemma registry_definition key def : registry !! key = Some def →
  sf_steps def ≠ [] ∧ ∀ step, step ∈ sf_steps def → call_resolves step.
Proof.
  intros [[Hd _]|[-> ->]]%registry_lookup.
  - destruct (wf_fragments _ _ _ wf def Hd) as [_ Hsteps Hentry _ _ _ _ _]. split.
    + intros Hnil. rewrite Hnil in Hentry. set_solver.
    + intros step Hs Hcall. destruct (Hsteps step Hs) as (_ & [Hsub _] & _ & _ & Hkeys).
      destruct (Hsub Hcall) as [k Hk]. exists k. rewrite registry_dom. auto.
  - split; [done|]. intros step ->%list_elem_of_singleton. done.
Qed.

(** *** The potential of a working document *)

Let D := size registry.
Let key_rank := rank registry_succ (dom registry).

Lemma size_nodes : size (dom registry) = D.
Proof. apply size_dom. Qed.

Definition step_rank (step : Step) : nat :=
  match step_kind step, step_subflow step with
  | SubflowCall, Some key => rank registry_succ (dom (full_registry doc)) key
  | _, _ => 0
  end.

Definition potential (steps : list Step) : nat :=
  sum_list ((λ step, size (full_registry doc) - step_rank step) <$> steps).

Lemma key_rank_bound key : key ∈ dom registry → 0 < key_rank key ≤ D.
Proof. rewrite <-size_nodes. apply rank_bound; [apply registry_acyclic|apply registry_closed]. Qed.

Lemma step_rank_call step key :
  step_kind step = SubflowCall → step_subflow step = Some key → step_rank step = key_rank key.
Proof. intros Hk Hs. unfold step_rank. by rewrite Hk, Hs. Qed.

(** The steps of a definition rank below any call to it. *)
Lemma definition_step_rank key def step : registry !! key = Some def → step ∈ sf_steps def →
  step_rank step < key_rank key.
Proof.
  intros Hdef Hs. assert (key ∈ dom registry) as Hkey by (apply elem_of_dom; eauto).
  pose proof (key_rank_bound key Hkey) as Hpos.
  destruct (decide (step_kind step = SubflowCall)) as [Hcall|Hno].
  - destruct (registry_definition key def Hdef) as [_ Hres].
    destruct (Hres step Hs Hcall) as (k & Hk & Hdom). rewrite (step_rank_call step k) by done.
    apply rank_decreases; [apply registry_acyclic|apply registry_closed|done|].
    unfold registry_succ. fold registry. rewrite Hdef, elem_of_called_keys, <-registry_dom. eauto.
  - unfold step_rank. destruct (step_kind step); try lia. done.
Qed.

Lemma potential_app l1 l2 : potential (l1 ++ l2) = potential l1 + potential l2.
Proof. unfold potential. rewrite fmap_app. apply sum_list_with_app. Qed.

Lemma potential_cons s l : potential (s :: l) = (D - step_rank s) + potential l.
Proof. done. Qed.

Lemma potential_le steps : potential steps ≤ D * length steps.
Proof.
  induction steps as [|s steps IH]; [unfold potential; simpl; lia|].
  rewrite potential_cons, length_cons. lia.
Qed.

Lemma potential_ge m steps : (∀ s, s ∈ steps → m ≤ D - step_rank s) → steps ≠ [] → m ≤ potential steps.
Proof. destruct steps as [|s steps]; [done|]. intros Hs _. rewrite potential_cons. specialize (Hs s). set_solver by lia. Qed.

(** *** One inlining *)

Lemma splice_step_rank call entry_ns step : step_rank (splice_step call entry_ns step) = step_rank step.
Proof. done. Qed.

(** Inlining a call that resolves does not panic, keeps every call resolvable
    and raises the potential. *)
Lemma inline_one_progress flat index call :
  Forall call_resolves (j_steps flat) →
  j_steps flat !! index = Some call → step_kind call = SubflowCall →
  ∃ flat', inline_one flat index registry = Some flat' ∧
    Forall call_resolves (j_steps flat') ∧
    potential (j_steps flat) < potential (j_steps flat').
Proof.
  intros Hres Hindex Hcall.
  destruct (Forall_lookup_1 _ _ _ _ Hres Hindex Hcall) as (key & Hkey & Hdom).
  pose proof Hdom as [def Hdef]%elem_of_dom.
  destruct (registry_definition key def Hdef) as [Hne Hdefs].
  unfold inline_one. rewrite Hindex. simpl. rewrite Hkey. simpl. rewrite Hdef. simpl.
  eexists. split; [done|]. simpl.
  pose proof (take_drop_middle _ _ _ Hindex) as Hsplit. rewrite <-Hsplit in Hres.
  apply Forall_app in Hres as [Htake [_ Hdrop]%Forall_cons_1]. split.
  - rewrite !Forall_app. split_and!; [done| |done].
    apply Forall_fmap, Forall_forall. intros step Hs. exact (Hdefs step Hs).
  - rewrite <-Hsplit at 1. rewrite !potential_app, potential_cons, (step_rank_call call key) by done.
    pose proof (key_rank_bound key Hdom).
    enough (S (D - key_rank key) ≤
      potential (splice_step call (namespaced (step_id call) (sf_entry def)) <$> sf_steps def)) by lia.
    apply potential_ge; [|by intros ?%fmap_nil].
    intros ? (step & -> & Hs)%list_elem_of_fmap. rewrite splice_step_rank.
    pose proof (definition_step_rank key def step Hdef Hs). lia.
Qed.

Lemma too_large_false flat : too_large flat = false ↔
  length (j_steps flat) ≤ Z.to_nat MAX_COMPOSED_STEPS.
Proof. unfold too_large, MAX_COMPOSED_STEPS. rewrite Z.ltb_ge. lia. Qed.

(** The loop returns: every iteration raises the potential, which the step
    ceiling bounds. *)
Lemma compose_loop_terminates fuel : ∀ flat,
  Forall call_resolves (j_steps flat) →
  D * Z.to_nat MAX_COMPOSED_STEPS ≤ fuel + potential (j_steps flat) →
  ∃ r, compose_loop fuel flat registry = Returned r.
Proof.
  induction fuel as [|n IH]; intros flat Hres Hfuel; simpl;
    (destruct (list_find is_call (j_steps flat)) as [[index call]|] eqn:Hfind;
     [|by destruct (too_large flat); eauto]);
    (destruct (too_large flat) eqn:Hsize; [by eauto|]);
    apply list_find_Some in Hfind as (Hindex & Hcall & _);
    destruct (inline_one_progress flat index call Hres Hindex Hcall) as (flat' & Hinl & Hres' & Hpot).
  - exfalso. apply too_large_false in Hsize.
    rewrite <-(take_drop_middle _ _ _ Hindex), potential_app, potential_cons in Hfuel.
    pose proof (potential_le (take index (j_steps flat))) as Htake.
    pose proof (potential_le (drop (S index) (j_steps flat))) as Hdrop.
    destruct (Forall_lookup_1 _ _ _ _ Hres Hindex Hcall) as (key & Hkey & Hdom).
    rewrite (step_rank_call call key) in Hfuel by done.
    pose proof (key_rank_bound key Hdom). pose proof (lookup_lt_Some _ _ _ Hindex).
    rewrite length_take in Htake. rewrite length_drop in Hdrop. nia.
  - rewrite Hinl. apply IH; [done|lia].
Qed.

(** The journey-level calls resolve once their aliases are normalised. *)
Lemma compose_start_resolves : Forall call_resolves (j_steps (compose_start doc)).
Proof.
  apply Forall_fmap, Forall_forall. intros step Hs.
  destruct (wf_steps _ _ _ wf step Hs) as (_ & [Hsub _] & _ & Halias).
  destruct (wf_references _ _ _ wf) as [Hnd Hsrc].
  intros Hcall. unfold normalize_call in *. destruct (step_kind step) eqn:Hkind; try congruence.
  destruct (Hsub eq_refl) as [alias Ha]. rewrite Ha in *.
  specialize (Halias alias eq_refl). unfold declared_subflow_ids in Halias.
  apply elem_of_list_to_set, list_elem_of_fmap in Halias as (r & -> & Hr).
  assert (alias_to_key doc !! ref_id r = Some (source_key (ref_source r))) as ->.
  { unfold alias_to_key. apply insert_all_lookup.
    - by rewrite <-list_fmap_compose.
    - left. apply list_elem_of_fmap. eauto. }
  eexists. split; [done|]. rewrite registry_dom. unfold definition_keys.
  specialize (Hsrc r Hr). destruct (ref_source r); set_solver.
Qed.

End Registry.

(** ** Results of the composition *)

Section ComposeTheorems.
Context `{SerdeNumber}.

(** A loop invariant of the composition. *)
Lemma compose_loop_ind (P : Journey → Prop) registry :
  (∀ flat flat' index call, P flat → j_steps flat !! index = Some call →
     step_kind call = SubflowCall → inline_one flat index registry = Some flat' → P flat') →
  ∀ fuel flat flat', P flat → compose_loop fuel flat registry = Returned (Ok flat') →
  P flat' ∧ Forall (λ step, step_kind step ≠ SubflowCall) (j_steps flat') ∧
  too_large flat' = false.
Proof.
  intros HP. induction fuel as [|n IH]; intros flat flat' Hflat; simpl;
    (destruct (list_find is_call (j_steps flat)) as [[index call]|] eqn:Hfind;
     destruct (too_large flat) eqn:Hsize; try done).
  - intros [= <-]. apply list_find_None in Hfind. done.
  - destruct (inline_one flat index registry) eqn:Hinl; [|done].
    apply list_find_Some in Hfind as (Hindex & Hcall & _). eauto.
  - intros [= <-]. apply list_find_None in Hfind. done.
Qed.

Lemma compose_inner_inv doc adm flat :
  compose_inner doc adm = Returned (Ok flat) →
  well_formed RESERVED_IDS_REJECTED adm doc ∧
  compose_loop (compose_fuel (full_registry doc)) (compose_start doc) (full_registry doc)
    = Returned (Ok flat) ∧
  well_formed RESERVED_IDS_ADMITTED adm flat.
Proof.
  unfold compose_inner. rewrite <-!validate_inner_ok. intros Hc.
  repeat case_match; simplify_eq. repeat match goal with x : unit |- _ => destruct x end. done.
Qed.

(** C2 (termination): composition always returns.  The loop that inlines
    subflow calls ends within the fuel [compose_fuel], and neither of the two
    [expect] calls of [inline_one] panics, for every input document. *)
Theorem compose_inner_returns doc adm : ∃ r, compose_inner doc adm = Returned r.
Proof.
  unfold compose_inner. destruct (validate_inner doc _ adm) as [[]|errors] eqn:Hv; [|by eauto].
  apply validate_inner_ok in Hv.
  destruct (compose_loop_terminates doc adm Hv (compose_fuel (full_registry doc)) (compose_start doc))
    as [r Hr]; [by eapply compose_start_resolves|unfold compose_fuel; lia|].
  rewrite Hr. destruct r as [flat|]; [|by eauto]. destruct (validate_inner flat _ adm); eauto.
Qed.

(** *** Provenance *)

(** A step of the composition carries the content of a step it was spliced from. *)
Definition same_content (step origin : Step) : Prop :=
  step_kind step = step_kind origin ∧ step_node_group step = step_node_group origin ∧
  step_decision step = step_decision origin ∧ step_factor step = step_factor origin.

(** The step and transition lists a composition draws on. *)
Definition source_steps (doc : Journey) : list Step :=
  j_steps doc ++ (def ← map_to_list (full_registry doc); sf_steps def.2).

Definition source_transitions (doc : Journey) : list Transition :=
  j_transitions doc ++ (def ← map_to_list (full_registry doc); sf_transitions def.2).

(** Everything in a working document has a source. *)
Record drawn_from (doc flat : Journey) : Prop := {
  drawn_steps : ∀ step, step ∈ j_steps flat →
    ∃ origin, origin ∈ source_steps doc ∧ same_content step origin;
  drawn_guards : ∀ t, t ∈ j_transitions flat →
    ∃ origin, origin ∈ source_transitions doc ∧ tr_guard t = tr_guard origin;
  drawn_header : j_id flat = j_id doc ∧ j_schema_version flat = j_schema_version doc ∧
    j_engine_version flat = j_engine_version doc ∧ j_subflows flat = None ∧
    j_subflow_definitions flat = None
}.

Lemma drawn_from_start doc : drawn_from doc (compose_start doc).
Proof.
  split; [| |done].
  - intros ? (step & -> & Hs)%list_elem_of_fmap. exists step.
    split; [apply elem_of_app; by left|]. unfold normalize_call. by repeat case_match.
  - intros t Ht. exists t. split; [apply elem_of_app; by left|done].
Qed.

Lemma elem_of_registry {A} (f : Subflow → list A) (registry : gmap string Subflow) key def x :
  registry !! key = Some def → x ∈ f def → x ∈ (kv ← map_to_list registry; f kv.2).
Proof. intros Hdef Hx. apply list_elem_of_bind. exists (key, def). by rewrite elem_of_map_to_list. Qed.

Lemma elem_of_inlined_steps flat flat' index registry step' :
  inline_one flat index registry = Some flat' → step' ∈ j_steps flat' →
  step' ∈ j_steps flat ∨ ∃ call key def step,
    registry !! key = Some def ∧ step ∈ sf_steps def ∧
    step' = splice_step call (namespaced (step_id call) (sf_entry def)) step.
Proof.
  unfold inline_one. intros (call & _ & (key & _ & (def & Hdef & [= <-])%bind_Some)%bind_Some)%bind_Some.
  simpl. rewrite !elem_of_app. intros [Ht|[(step & -> & Hs)%list_elem_of_fmap|Hd]].
  - left. by eapply elem_of_take_inv || (apply elem_of_take in Ht as (i & Hi & _); by eapply list_elem_of_lookup_2).
  - right. eauto 10.
  - left. apply list_elem_of_lookup in Hd as [i Hi]. rewrite lookup_drop in Hi.
    by eapply list_elem_of_lookup_2.
Qed.

Lemma elem_of_inlined_transitions flat flat' index registry t' :
  inline_one flat index registry = Some flat' → t' ∈ j_transitions flat' →
  ∃ call key def,
    j_steps flat !! index = Some call ∧ registry !! key = Some def ∧
    let call_id := step_id call in
    ((∃ t, t ∈ j_transitions flat ∧ tr_from t ≠ call_id ∧
       t' = redirect call_id (namespaced call_id (sf_entry def)) t) ∨
     (∃ t, t ∈ sf_transitions def ∧ t' = namespace_transition call_id t) ∨
     (∃ t exit, t ∈ j_transitions flat ∧ tr_from t = call_id ∧ exit ∈ sf_exits def ∧
       t' = graft (namespaced call_id exit) t)).
Proof.
  unfold inline_one.
  intros (call & Hcall & (key & _ & (def & Hdef & [= <-])%bind_Some)%bind_Some)%bind_Some.
  simpl. rewrite !elem_of_app. intros Ht. exists call, key, def. split_and!; [done..|].
  destruct Ht as [(t & -> & Ht)%list_elem_of_fmap|[(t & -> & Ht)%list_elem_of_fmap|Ht]].
  - apply list_elem_of_filter in Ht. left. naive_solver.
  - right; left. eauto.
  - apply list_elem_of_bind in Ht as (exit_ns & (t & -> & Ht)%list_elem_of_fmap & Hexit).
    apply list_elem_of_fmap in Hexit as (exit & -> & Hexit).
    apply list_elem_of_filter in Ht. right; right. naive_solver.
Qed.

Lemma drawn_from_inline doc flat flat' index :
  drawn_from doc flat → inline_one flat index (full_registry doc) = Some flat' →
  drawn_from doc flat'.
Proof.
  intros [Hsteps Hguards Hhead] Hinl. split.
  - intros step' [|(call & key & def & step & Hdef & Hs & ->)]%(elem_of_inlined_steps _ _ _ _ _ Hinl);
      [by apply Hsteps|].
    exists step. split; [|done]. apply elem_of_app. right. by eapply elem_of_registry.
  - intros t' Ht'. destruct (elem_of_inlined_transitions _ _ _ _ _ Hinl Ht')
      as (call & key & def & _ & Hdef & [(t & Ht & _ & ->)|[(t & Ht & ->)|(t & exit & Ht & _ & _ & ->)]]);
      [exact (Hguards t Ht)| |exact (Hguards t Ht)].
    exists t. split; [|done]. apply elem_of_app. right. by eapply elem_of_registry.
  - unfold inline_one in Hinl.
    apply bind_Some in Hinl as (? & _ & (? & _ & (? & _ & [= <-])%bind_Some)%bind_Some).
    exact Hhead.
Qed.

(** A composed journey is call-free, within the step ceiling,
    accepted by the validator, and made only of steps and guards of the source
    journey and of the subflow definitions it references. *)
Theorem composed_journey_spec doc adm flat :
  compose_inner doc adm = Returned (Ok flat) →
  (∀ step, step ∈ j_steps flat → step_kind step ≠ SubflowCall) ∧
  (Z.of_nat (length (j_steps flat)) ≤ MAX_COMPOSED_STEPS)%Z ∧
  validate_inner flat RESERVED_IDS_ADMITTED adm = Ok () ∧
  drawn_from doc flat.
Proof.
  intros (_ & Hloop & Hwf)%compose_inner_inv.
  apply (compose_loop_ind (drawn_from doc)) in Hloop as (Hdrawn & Hcalls & Hsize);
    [|eauto using drawn_from_inline|apply drawn_from_start].
  rewrite Forall_forall in Hcalls. apply Z.ltb_ge in Hsize. rewrite validate_inner_ok. done.
Qed.

(** *** A journey without calls *)

Lemma compose_start_call_free doc :
  (∀ step, step ∈ j_steps doc → step_kind step ≠ SubflowCall) →
  j_steps (compose_start doc) = j_steps doc.
Proof.
  intros Hno. simpl. transitivity (id <$> j_steps doc); [|apply list_fmap_id].
  apply list_fmap_ext. intros i step Hi%list_elem_of_lookup_2. specialize (Hno step Hi).
  unfold normalize_call. by destruct (step_kind step).
Qed.

Lemma well_formed_call_free doc adm :
  well_formed RESERVED_IDS_REJECTED adm doc →
  (∀ step, step ∈ j_steps doc → step_kind step ≠ SubflowCall) →
  well_formed RESERVED_IDS_ADMITTED adm (compose_start doc).
Proof.
  intros Hwf Hno. pose proof (compose_start_call_free doc Hno) as Hsteps.
  pose proof (wf_steps _ _ _ Hwf) as Hwfs. destruct Hwf.
  split; rewrite ?Hsteps; try done; try (by intros ? []%not_elem_of_nil);
    try (split; [apply NoDup_nil_2|by intros ? []%not_elem_of_nil]).
  intros step Hs. destruct (Hwfs step Hs) as (Hv & Ha & _ & _).
  split; [done|]. split; [done|]. split; [done|]. intros alias Halias. exfalso.
  destruct Hv as [Hknown _], Ha as (_ & _ & Hsub & _). destruct Hsub as [|]; [by eauto| |congruence].
  by apply (Hno step).
Qed.

Lemma compose_loop_done fuel flat registry :
  Forall (λ step, step_kind step ≠ SubflowCall) (j_steps flat) → too_large flat = false →
  compose_loop fuel flat registry = Returned (Ok flat).
Proof.
  intros Hno Hsize. pose proof (proj2 (list_find_None is_call (j_steps flat)) Hno) as Hfind.
  by destruct fuel; simpl; rewrite Hfind, Hsize.
Qed.

(** The composition of a call-free journey is its working copy. *)
Lemma compose_inner_call_free doc adm flat :
  (∀ step, step ∈ j_steps doc → step_kind step ≠ SubflowCall) →
  compose_inner doc adm = Returned (Ok flat) → flat = compose_start doc.
Proof.
  intros Hno (_ & Hloop & _)%compose_inner_inv.
  assert (list_find is_call (j_steps (compose_start doc)) = None) as Hfind.
  { apply list_find_None. rewrite compose_start_call_free by done. by apply Forall_forall. }
  revert Hloop Hfind. generalize (compose_start doc) as start, (compose_fuel (full_registry doc)) as n.
  intros start [|n] Hloop Hfind; simpl in Hloop; rewrite Hfind in Hloop; revert Hloop;
    (destruct (too_large start); [done|]); by intros [= <-].
Qed.

(** Composing an accepted journey that calls no subflow, within
    the step ceiling, returns its steps, transitions and entry unchanged and
    drops only the reference lists. *)
Theorem compose_call_free doc adm :
  validate_inner doc RESERVED_IDS_REJECTED adm = Ok () →
  (∀ step, step ∈ j_steps doc → step_kind step ≠ SubflowCall) →
  (Z.of_nat (length (j_steps doc)) ≤ MAX_COMPOSED_STEPS)%Z →
  compose_inner doc adm = Returned (Ok {|
    j_schema_version := j_schema_version doc; j_id := j_id doc;
    j_engine_version := j_engine_version doc; j_entry := j_entry doc;
    j_comment := j_comment doc; j_steps := j_steps doc; j_transitions := j_transitions doc;
    j_subflows := None; j_subflow_definitions := None |}).
Proof.
  intros Hv Hno Hlen. pose proof (compose_start_call_free doc Hno) as Hsteps.
  unfold compose_inner. rewrite Hv, compose_loop_done.
  2: { rewrite Hsteps. by apply Forall_forall. }
  2: { unfold too_large. rewrite Hsteps. by apply Z.ltb_ge. }
  rewrite (proj2 (validate_inner_ok (compose_start doc) _ adm)).
  - do 2 f_equal. unfold compose_start. f_equal. exact Hsteps.
  - apply well_formed_call_free; [by apply validate_inner_ok|done].
Qed.

(** *** Inlining refines the call *)

(** An edge with its guard. *)
Definition guarded_edge (transitions : list Transition) (x y : string) (guard : option Predicate)
    : Prop :=
  ∃ t, t ∈ transitions ∧ tr_from t = x ∧ tr_to t = y ∧ tr_guard t = guard.

(** The step of the document before inlining that a step stands for: the call
    itself for a spliced step. *)
Definition owner (call : Step) (def : Subflow) (id : string) : string :=
  if bool_decide (id ∈ namespaced (step_id call) <$> (step_id <$> sf_steps def)) then step_id call
  else id.

Lemma string_app_length a b : String.length (a +:+ b) = String.length a + String.length b.
Proof. induction a as [|c a IH]; [done|]. simpl. by rewrite IH. Qed.

Lemma namespaced_ne call_id id : namespaced call_id id ≠ call_id.
Proof.
  intros Heq%(f_equal String.length). unfold namespaced in Heq.
  rewrite !string_app_length in Heq. simpl in Heq. lia.
Qed.

Lemma owner_spliced call def id : id ∈ step_id <$> sf_steps def →
  owner call def (namespaced (step_id call) id) = step_id call.
Proof. intros Hid. unfold owner. by rewrite bool_decide_eq_true_2 by (by apply list_elem_of_fmap_2). Qed.

Lemma owner_call call def : owner call def (step_id call) = step_id call.
Proof. unfold owner. by case_bool_decide. Qed.

Lemma spliced_ids call entry_ns (steps : list Step) :
  step_id <$> (splice_step call entry_ns <$> steps) = namespaced (step_id call) <$> (step_id <$> steps).
Proof. by rewrite <-!list_fmap_compose. Qed.

(** The edges that leave a step, in order: their targets and guards. *)
Definition out_edges (transitions : list Transition) (x : string) : list (string * option Predicate) :=
  (λ t, (tr_to t, tr_guard t)) <$> filter (λ t, tr_from t = x) transitions.

(** Where control that reaches a step of the document before arrives: the call is
    entered at the entry of its definition. *)
Definition lands (call : Step) (def : Subflow) (id : string) : string :=
  if bool_decide (id = step_id call) then namespaced (step_id call) (sf_entry def) else id.

(** [flat'] is [flat] with the definition in the place of the call. *)
Record splices (flat : Journey) (call : Step) (def : Subflow) (flat' : Journey) : Prop := {
  sp_entry : j_entry flat' = lands call def (j_entry flat);
  (** the steps of the definition stand where the call stood, with their content *)
  sp_steps : ∃ before spliced after, j_steps flat = before ++ call :: after ∧
    j_steps flat' = before ++ spliced ++ after ∧
    Forall2 (λ step' step, step_id step' = namespaced (step_id call) (step_id step) ∧
      same_content step' step ∧ step_subflow step' = step_subflow step) spliced (sf_steps def);
  (** the other steps route as before, into the entry of the definition for the call *)
  sp_caller : ∀ x, x ∈ step_id <$> j_steps flat → x ≠ step_id call →
    out_edges (j_transitions flat') x =
    prod_map (lands call def) id <$> out_edges (j_transitions flat) x;
  (** a step of the definition routes as in the definition *)
  sp_inner : ∀ x, x ∈ step_id <$> sf_steps def → x ∉ sf_exits def →
    out_edges (j_transitions flat') (namespaced (step_id call) x) =
    prod_map (namespaced (step_id call)) id <$> out_edges (sf_transitions def) x;
  (** an exit routes as the call did, once per listing of the exit *)
  sp_exit : ∀ x, x ∈ sf_exits def → ∃ n,
    out_edges (j_transitions flat') (namespaced (step_id call) x) =
    mjoin (replicate (S n) (out_edges (j_transitions flat) (step_id call)));
  (** edges leave steps only, and reach steps unless the call had an edge to itself *)
  sp_sources : ∀ x, x ∉ step_id <$> j_steps flat' → out_edges (j_transitions flat') x = [];
  sp_targets : ∀ x y guard, (y, guard) ∈ out_edges (j_transitions flat') x →
    y ∈ step_id <$> j_steps flat' ∨
    (y = step_id call ∧ (y, guard) ∈ out_edges (j_transitions flat) (step_id call))
}.

Lemma elem_of_out_edges ts x y guard : (y, guard) ∈ out_edges ts x ↔ guarded_edge ts x y guard.
Proof.
  unfold out_edges, guarded_edge. rewrite list_elem_of_fmap. setoid_rewrite list_elem_of_filter.
  naive_solver.
Qed.

Lemma out_edges_app ts us x : out_edges (ts ++ us) x = out_edges ts x ++ out_edges us x.
Proof. unfold out_edges. by rewrite filter_app, fmap_app. Qed.

Lemma out_edges_nil ts x : (∀ t, t ∈ ts → tr_from t ≠ x) → out_edges ts x = [].
Proof.
  intros Hts. destruct (out_edges ts x) as [|[y guard] l] eqn:Ho; [done|].
  assert ((y, guard) ∈ out_edges ts x) as (t & Ht & Hx & _)%elem_of_out_edges
    by (rewrite Ho; apply list_elem_of_here).
  by destruct (Hts t Ht).
Qed.

Lemma out_edges_redirect call def ts x : x ≠ step_id call →
  out_edges (redirect (step_id call) (namespaced (step_id call) (sf_entry def)) <$>
    filter (λ t, tr_from t ≠ step_id call) ts) x =
  prod_map (lands call def) id <$> out_edges ts x.
Proof.
  intros Hx. unfold out_edges. induction ts as [|t ts IH]; [done|].
  destruct (decide (tr_from t = x)) as [Hf|Hf].
  - rewrite !(filter_cons_True _ t) by congruence. rewrite fmap_cons, filter_cons_True by done.
    rewrite !fmap_cons. by f_equal.
  - rewrite (filter_cons_False (λ t, tr_from t = x) t) by done.
    destruct (decide (tr_from t = step_id call)).
    + by rewrite filter_cons_False by naive_solver.
    + by rewrite filter_cons_True, fmap_cons, filter_cons_False by done.
Qed.

Lemma namespaced_inj call_id x y : namespaced call_id x = namespaced call_id y → x = y.
Proof.
  unfold namespaced. by intros ?%(inj _)%(inj _).
Qed.

Lemma out_edges_namespace call_id ts x :
  out_edges (namespace_transition call_id <$> ts) (namespaced call_id x) =
  prod_map (namespaced call_id) id <$> out_edges ts x.
Proof.
  unfold out_edges. induction ts as [|t ts IH]; [done|]. rewrite fmap_cons.
  destruct (decide (tr_from t = x)) as [Hf|Hf].
  - rewrite !filter_cons_True by (simpl; congruence). rewrite !fmap_cons. by f_equal.
  - rewrite !filter_cons_False; [done|done|]. simpl. by intros ?%namespaced_inj.
Qed.

Lemma out_edges_graft_one ts call_id x :
  out_edges (graft x <$> filter (λ t, tr_from t = call_id) ts) x = out_edges ts call_id.
Proof.
  unfold out_edges. generalize (filter (λ t, tr_from t = call_id) ts). intros l.
  induction l as [|t l IH]; [done|]. rewrite fmap_cons, filter_cons_True by done.
  rewrite !fmap_cons, IH. done.
Qed.

Lemma out_edges_graft exits ts call_id x : ∃ n, (x ∈ exits → n ≠ 0) ∧ (x ∉ exits → n = 0) ∧
  out_edges (exit ← exits; graft exit <$> filter (λ t, tr_from t = call_id) ts) x =
  mjoin (replicate n (out_edges ts call_id)).
Proof.
  induction exits as [|exit exits (n & Hin & Hout & IH)].
  { exists 0. split; [by intros ?%elem_of_nil|done]. }
  rewrite bind_cons, out_edges_app, IH. destruct (decide (exit = x)) as [->|Hne].
  - exists (S n). split; [done|]. split; [set_solver|]. rewrite replicate_S. simpl. f_equal.
    apply out_edges_graft_one.
  - exists n. split; [set_solver|]. split; [set_solver|].
    rewrite out_edges_nil; [done|]. by intros ? (t & -> & _)%list_elem_of_fmap.
Qed.

Section Refinement.
Variables (flat flat' : Journey) (index : nat) (registry : gmap string Subflow).
Variables (call : Step) (key : string) (def : Subflow).
Variables (keys : gset string) (adm : bool).
Hypothesis Hcall : j_steps flat !! index = Some call.
Hypothesis Hkey : step_subflow call = Some key.
Hypothesis Hdef : registry !! key = Some def.
Hypothesis Hfrag : fragment_ok keys adm def.
Hypothesis Hinl : inline_one flat index registry = Some flat'.
Hypothesis Hnd : NoDup (step_id <$> j_steps flat').

Let own := owner call def.

Lemma inlined_eq : inline_one flat index registry = Some flat' →
  j_entry flat' = (if bool_decide (j_entry flat = step_id call)
                   then namespaced (step_id call) (sf_entry def) else j_entry flat) ∧
  step_id <$> j_steps flat' = (step_id <$> take index (j_steps flat)) ++
    (namespaced (step_id call) <$> (step_id <$> sf_steps def)) ++
    (step_id <$> drop (S index) (j_steps flat)) ∧
  j_transitions flat' =
    (redirect (step_id call) (namespaced (step_id call) (sf_entry def)) <$>
       filter (λ t, tr_from t ≠ step_id call) (j_transitions flat)) ++
    (namespace_transition (step_id call) <$> sf_transitions def) ++
    (exit ← namespaced (step_id call) <$> sf_exits def;
     graft exit <$> filter (λ t, tr_from t = step_id call) (j_transitions flat)).
Proof.
  unfold inline_one. rewrite Hcall. simpl. rewrite Hkey. simpl. rewrite Hdef. simpl.
  intros [= <-]. simpl. by rewrite !fmap_app, spliced_ids.
Qed.

(** A step other than the call stands for itself. *)
Lemma owner_other id : id ∈ step_id <$> j_steps flat → own id = id.
Proof.
  intros Hid. destruct (inlined_eq Hinl) as (_ & Hids & _). rewrite Hids in Hnd.
  apply NoDup_app in Hnd as (_ & Htake & (_ & Hdrop & _)%NoDup_app).
  rewrite <-(take_drop_middle _ _ _ Hcall), fmap_app, fmap_cons, elem_of_app, elem_of_cons in Hid.
  unfold own, owner. case_bool_decide as Hs; [|done].
  destruct Hid as [Hid|[->|Hid]]; [|done|].
  - destruct (Htake id Hid). apply elem_of_app. by left.
  - by destruct (Hdrop id Hs).
Qed.

Hypothesis Hentry : j_entry flat ∈ step_id <$> j_steps flat.
Hypothesis Hends : ∀ t, t ∈ j_transitions flat →
  tr_from t ∈ step_id <$> j_steps flat ∧ tr_to t ∈ step_id <$> j_steps flat.

(** A spliced id is new. *)
Lemma spliced_fresh id : id ∈ step_id <$> sf_steps def →
  namespaced (step_id call) id ∉ step_id <$> j_steps flat.
Proof.
  intros Hid Hin. apply owner_other in Hin. unfold own in Hin.
  rewrite owner_spliced in Hin by done. by apply (namespaced_ne (step_id call) id).
Qed.

(** The ids of the result. *)
Lemma inlined_ids id : id ∈ step_id <$> j_steps flat' ↔
  (∃ x, x ∈ step_id <$> sf_steps def ∧ id = namespaced (step_id call) x) ∨
  (id ∈ step_id <$> take index (j_steps flat)) ∨ (id ∈ step_id <$> drop (S index) (j_steps flat)).
Proof.
  destruct (inlined_eq Hinl) as (_ & -> & _). rewrite !elem_of_app.
  rewrite (list_elem_of_fmap (namespaced (step_id call))). naive_solver.
Qed.

Lemma inlined_ids_kept id : id ∈ step_id <$> j_steps flat → id ≠ step_id call →
  id ∈ step_id <$> j_steps flat'.
Proof.
  intros Hid Hne. apply inlined_ids. right.
  rewrite <-(take_drop_middle _ _ _ Hcall), fmap_app, fmap_cons, elem_of_app, elem_of_cons in Hid.
  naive_solver.
Qed.

Lemma inlined_ids_new id : id ∈ step_id <$> sf_steps def →
  namespaced (step_id call) id ∈ step_id <$> j_steps flat'.
Proof. intros Hid. apply inlined_ids. left. eauto. Qed.

Lemma fragment_ids id : id ∈ (list_to_set (step_id <$> sf_steps def) : gset string) ↔ id ∈ step_id <$> sf_steps def.
Proof. set_solver. Qed.

Lemma fragment_entry : own (namespaced (step_id call) (sf_entry def)) = step_id call.
Proof. apply owner_spliced, fragment_ids, (fr_entry _ _ _ Hfrag). Qed.

Lemma inline_entry : own (j_entry flat') = j_entry flat.
Proof.
  destruct (inlined_eq Hinl) as (-> & _ & _). case_bool_decide as He.
  - rewrite He. apply fragment_entry.
  - by apply owner_other.
Qed.

(** The edges of the result by origin: a caller's edge with its landing, an edge of
    the definition, or an edge of the call from an exit. *)
Lemma inlined_edge_inv x y guard : guarded_edge (j_transitions flat') x y guard →
  (∃ y0, x ≠ step_id call ∧ y = lands call def y0 ∧ guarded_edge (j_transitions flat) x y0 guard) ∨
  (∃ x0 y0, x = namespaced (step_id call) x0 ∧ y = namespaced (step_id call) y0 ∧
     guarded_edge (sf_transitions def) x0 y0 guard) ∨
  (∃ exit, exit ∈ sf_exits def ∧ x = namespaced (step_id call) exit ∧
     guarded_edge (j_transitions flat) (step_id call) y guard).
Proof.
  destruct (inlined_eq Hinl) as (_ & _ & Hts). unfold guarded_edge. rewrite Hts.
  intros (t' & Ht' & <- & <- & <-). rewrite !elem_of_app in Ht'.
  destruct Ht' as [Ht|[Ht|Ht]].
  - apply list_elem_of_fmap in Ht as (t & -> & [Hf Ht]%list_elem_of_filter). left.
    exists (tr_to t). eauto 10.
  - apply list_elem_of_fmap in Ht as (t & -> & Ht). right; left.
    exists (tr_from t), (tr_to t). eauto 10.
  - apply list_elem_of_bind in Ht as (? & (t & -> & [Hf Ht]%list_elem_of_filter)%list_elem_of_fmap & Hx).
    apply list_elem_of_fmap in Hx as (exit & -> & Hx). right; right. exists exit. eauto 10.
Qed.

Lemma fragment_edge x y guard : guarded_edge (sf_transitions def) x y guard →
  x ∈ step_id <$> sf_steps def ∧ y ∈ step_id <$> sf_steps def.
Proof.
  intros (t & Ht & <- & <- & _). destruct (fr_endpoints _ _ _ Hfrag) as [He _].
  by rewrite <-!fragment_ids; apply (He t Ht).
Qed.

Lemma flat_edge x y guard : guarded_edge (j_transitions flat) x y guard →
  x ∈ step_id <$> j_steps flat ∧ y ∈ step_id <$> j_steps flat.
Proof. intros (t & Ht & <- & <- & _). by apply Hends. Qed.

Lemma own_lands y : y ∈ step_id <$> j_steps flat → own (lands call def y) = y.
Proof.
  intros Hy. unfold lands. case_bool_decide as Hc; [rewrite Hc; apply fragment_entry|].
  by apply owner_other.
Qed.

Lemma own_exit exit : exit ∈ sf_exits def → own (namespaced (step_id call) exit) = step_id call.
Proof. intros Hx. apply owner_spliced, fragment_ids. by apply (fr_exits _ _ _ Hfrag). Qed.

Lemma inline_edge x y guard : guarded_edge (j_transitions flat') x y guard →
  (∃ x0 y0, x = namespaced (step_id call) x0 ∧ y = namespaced (step_id call) y0 ∧
     own x = step_id call ∧ own y = step_id call ∧ guarded_edge (sf_transitions def) x0 y0 guard) ∨
  guarded_edge (j_transitions flat) (own x) (own y) guard.
Proof.
  intros [(y0 & Hx & -> & He)|[(x0 & y0 & -> & -> & He)|(exit & Hexit & -> & He)]]%inlined_edge_inv.
  - right. destruct (flat_edge _ _ _ He). rewrite own_lands by done. by rewrite (owner_other x).
  - left. destruct (fragment_edge _ _ _ He). exists x0, y0. unfold own. by rewrite !owner_spliced.
  - right. destruct (flat_edge _ _ _ He). rewrite own_exit by done. by rewrite (owner_other y).
Qed.

Lemma caller_edges x : x ∈ step_id <$> j_steps flat → x ≠ step_id call →
  out_edges (j_transitions flat') x =
  prod_map (lands call def) id <$> out_edges (j_transitions flat) x.
Proof.
  intros Hx Hne. destruct (inlined_eq Hinl) as (_ & _ & ->).
  assert (∀ x0, x0 ∈ step_id <$> sf_steps def → x ≠ namespaced (step_id call) x0) as Hfresh
    by (intros x0 Hx0 ->; by apply (spliced_fresh x0)).
  rewrite !out_edges_app, out_edges_redirect by done.
  rewrite (out_edges_nil (namespace_transition _ <$> _)).
  2: { intros ? (t & -> & Ht)%list_elem_of_fmap Heq. destruct (fragment_edge (tr_from t) (tr_to t) (tr_guard t)).
       { by exists t. } by apply (Hfresh (tr_from t)). }
  destruct (out_edges_graft (namespaced (step_id call) <$> sf_exits def) (j_transitions flat)
    (step_id call) x) as (n & _ & Hn & ->).
  rewrite Hn; [by rewrite !app_nil_r|]. intros (exit & -> & Hexit)%list_elem_of_fmap.
  apply (Hfresh exit); [|done]. apply fragment_ids. by apply (fr_exits _ _ _ Hfrag).
Qed.

(** The edges of a spliced step are those of the definition, then those grafted. *)
Lemma spliced_edges x : x ∈ step_id <$> sf_steps def → ∃ n, (x ∈ sf_exits def → n ≠ 0) ∧
  (x ∉ sf_exits def → n = 0) ∧
  out_edges (j_transitions flat') (namespaced (step_id call) x) =
  (prod_map (namespaced (step_id call)) id <$> out_edges (sf_transitions def) x) ++
  mjoin (replicate n (out_edges (j_transitions flat) (step_id call))).
Proof.
  intros Hx. destruct (inlined_eq Hinl) as (_ & _ & ->).
  destruct (out_edges_graft (namespaced (step_id call) <$> sf_exits def) (j_transitions flat)
    (step_id call) (namespaced (step_id call) x)) as (n & Hin & Hout & Hgraft).
  assert (namespaced (step_id call) x ∈ namespaced (step_id call) <$> sf_exits def ↔ x ∈ sf_exits def)
    as Hiff.
  { split; [|apply list_elem_of_fmap_2]. by intros (y & ->%namespaced_inj & Hy)%list_elem_of_fmap. }
  rewrite Hiff in Hin, Hout. exists n. split; [done|]. split; [done|].
  rewrite !out_edges_app, Hgraft, out_edges_namespace. rewrite out_edges_nil; [done|].
  intros ? (t & -> & [_ Ht]%list_elem_of_filter)%list_elem_of_fmap Heq. simpl in Heq.
  apply (spliced_fresh x Hx). rewrite <-Heq. by apply Hends.
Qed.

Lemma inline_targets x y guard : guarded_edge (j_transitions flat') x y guard →
  x ∈ step_id <$> j_steps flat' ∧
  (y ∈ step_id <$> j_steps flat' ∨
   (y = step_id call ∧ guarded_edge (j_transitions flat) (step_id call) y guard)).
Proof.
  intros [(y0 & Hx & -> & He)|[(x0 & y0 & -> & -> & He)|(exit & Hexit & -> & He)]]%inlined_edge_inv.
  - destruct (flat_edge _ _ _ He). split; [by apply inlined_ids_kept|]. left. unfold lands.
    case_bool_decide; [|by apply inlined_ids_kept].
    apply inlined_ids_new, fragment_ids, (fr_entry _ _ _ Hfrag).
  - destruct (fragment_edge _ _ _ He). split; [|left]; by apply inlined_ids_new.
  - destruct (flat_edge _ _ _ He) as [_ Hy]. split.
    + apply inlined_ids_new, fragment_ids. by apply (fr_exits _ _ _ Hfrag).
    + destruct (decide (y = step_id call)); [by right|]. left. by apply inlined_ids_kept.
Qed.

Lemma inline_steps : ∃ before spliced after, j_steps flat = before ++ call :: after ∧
  j_steps flat' = before ++ spliced ++ after ∧
  Forall2 (λ step' step, step_id step' = namespaced (step_id call) (step_id step) ∧
    same_content step' step ∧ step_subflow step' = step_subflow step) spliced (sf_steps def).
Proof.
  exists (take index (j_steps flat)),
    (splice_step call (namespaced (step_id call) (sf_entry def)) <$> sf_steps def),
    (drop (S index) (j_steps flat)).
  split; [by rewrite (take_drop_middle _ _ _ Hcall)|]. split.
  - revert Hinl. unfold inline_one. rewrite Hcall. simpl. rewrite Hkey. simpl. rewrite Hdef. simpl.
    by intros [= <-].
  - apply Forall2_fmap_l, Forall_Forall2_diag, Forall_true. done.
Qed.

Lemma inline_splices : splices flat call def flat'.
Proof.
  split.
  - by destruct (inlined_eq Hinl) as (-> & _ & _).
  - apply inline_steps.
  - apply caller_edges.
  - intros x Hx Hout. destruct (spliced_edges x Hx) as (n & _ & Hn & ->).
    by rewrite Hn, app_nil_r.
  - intros x Hexit. destruct (spliced_edges x) as ([|n] & Hn & _ & ->);
      [apply fragment_ids; by apply (fr_exits _ _ _ Hfrag)|by destruct (Hn Hexit)|].
    exists n. rewrite (out_edges_nil (sf_transitions def)); [done|].
    intros t Ht <-. by apply (fr_leaves _ _ _ Hfrag t Ht).
  - intros x Hx. apply out_edges_nil. intros t Ht <-. apply Hx.
    apply (inline_targets _ (tr_to t) (tr_guard t)). by exists t.
  - intros x y guard. rewrite !elem_of_out_edges. apply inline_targets.
Qed.
End Refinement.

(** C6 (refinement): inlining one call puts the definition in its place.  When the
    spliced ids are fresh, the steps of the definition stand where the call stood
    with their kinds and data; every step keeps its outgoing edges, in order and
    with their guards: a step of the caller routes as before (into the entry of the
    definition where it led to the call), a step of the definition as in the
    definition, and an exit as the call did.  Mapping the spliced steps to the call
    sends the entry to the entry and every edge either to an edge of the document
    before with the same guard or to an edge of the definition with the same guard,
    both ends of which stand for the call.  Every edge of the result joins steps of
    the result, except that an edge of the call to itself is left pointing at the
    call, which is gone. *)
Theorem inline_one_refines flat flat' index registry call key def keys adm :
  j_steps flat !! index = Some call → step_subflow call = Some key → registry !! key = Some def →
  fragment_ok keys adm def →
  j_entry flat ∈ step_id <$> j_steps flat →
  (∀ t, t ∈ j_transitions flat →
     tr_from t ∈ step_id <$> j_steps flat ∧ tr_to t ∈ step_id <$> j_steps flat) →
  inline_one flat index registry = Some flat' → NoDup (step_id <$> j_steps flat') →
  splices flat call def flat' ∧
  let own := owner call def in
  own (j_entry flat') = j_entry flat ∧
  (∀ x y guard, guarded_edge (j_transitions flat') x y guard →
     (∃ x0 y0, x = namespaced (step_id call) x0 ∧ y = namespaced (step_id call) y0 ∧
        own x = step_id call ∧ own y = step_id call ∧ guarded_edge (sf_transitions def) x0 y0 guard) ∨
     guarded_edge (j_transitions flat) (own x) (own y) guard).
Proof.
  intros. split; [by eapply inline_splices|]. split; [by eapply inline_entry|].
  intros ???. by eapply inline_edge.
Qed.

End ComposeTheorems.
