(* ===== verification/JourneyCompile.v ===== *)
(** * Lowering a journey to its transition table
    (crates/ironauth-journey/src/compile.rs)

    [compile_inner] composes a journey, indexes the flat document into maps and
    runs the liveness check; [choose_edge] is the routing primitive of the
    engine and of the replay harness.  The theorems state what holds of every
    compiled table and of every run the engine can make over it. *)

From S2P Require Import Prelude Walk Json JourneyArtifact JourneyEval JourneyChecks JourneySubflow.
From S2P Require Import JourneyCompose.

Section Compile.
Context `{SerdePointer}.

Record CompiledStep : Type := {
  cs_kind : StepKind;
  cs_node_group : option string;
  cs_decision : option DecisionSpec;
  cs_factor : option string
}.

Record GuardedEdge : Type := {
  edge_to : string;
  edge_guard : option Predicate
}.

Record CompiledJourney : Type := {
  cj_entry : string;
  cj_steps : gmap string CompiledStep;
  cj_transitions : gmap string (list GuardedEdge);
  cj_reachable : gset string
}.

Definition compiled_step (compiled : CompiledJourney) (id : string) : option CompiledStep :=
  cj_steps compiled !! id.

Definition edges (compiled : CompiledJourney) (id : string) : list GuardedEdge :=
  default [] (cj_transitions compiled !! id).

(** The loop of [choose_edge]: the first edge whose guard is absent or true; an
    evaluation error routes nowhere. *)
Fixpoint choose_edge_loop (es : list GuardedEdge) (ctx : EvalContext) : option string :=
  match es with
  | [] => None
  | e :: rest =>
      match edge_guard e with
      | None => Some (edge_to e)
      | Some guard =>
          match evaluate guard ctx with
          | Ok taken => if taken then Some (edge_to e) else choose_edge_loop rest ctx
          | Err _ => None
          end
      end
  end.

Definition choose_edge (compiled : CompiledJourney) (from : string) (ctx : EvalContext)
    : option string :=
  choose_edge_loop (edges compiled from) ctx.

Definition lower_step (step : Step) : CompiledStep := {|
  cs_kind := step_kind step; cs_node_group := step_node_group step;
  cs_decision := step_decision step; cs_factor := step_factor step |}.

Definition lower_edge (t : Transition) : GuardedEdge :=
  {| edge_to := tr_to t; edge_guard := tr_guard t |}.

(** [transitions.entry(from).or_default().push(edge)]. *)
Definition push_edge (table : gmap string (list GuardedEdge)) (t : Transition)
    : gmap string (list GuardedEdge) :=
  <[tr_from t := default [] (table !! tr_from t) ++ [lower_edge t]]> table.

(** The part of [compile_inner] after composition. *)
Definition lower (flat : Journey) : Result CompiledJourney (list JourneyError) :=
  let ids : gset string := list_to_set (step_id <$> j_steps flat) in
  let reachable := reachable_steps (j_entry flat) (j_transitions flat) ids in
  let has_reachable_completion :=
    existsb (λ step, is_terminal (step_kind step) && bool_decide (step_id step ∈ reachable))
      (j_steps flat) in
  if negb has_reachable_completion then Err [NoReachableCompletion] else
  Ok {| cj_entry := j_entry flat;
        cj_steps := insert_all ∅ ((λ step, (step_id step, lower_step step)) <$> j_steps flat);
        cj_transitions := foldl push_edge ∅ (j_transitions flat);
        cj_reachable := reachable |}.

Definition compile_inner (doc : Journey) (admit_builtin_only : bool)
    : Run (Result CompiledJourney (list JourneyError)) :=
  match compose_inner doc admit_builtin_only with
  | Returned (Ok flat) => Returned (lower flat)
  | Returned (Err errors) => Returned (Err errors)
  | Panicked => Panicked
  | OutOfFuel => OutOfFuel
  end.

Definition compile (doc : Journey) : Run (Result CompiledJourney (list JourneyError)) :=
  compile_inner doc BUILTIN_ONLY_REJECTED.

Definition compile_builtin (doc : Journey) : Run (Result CompiledJourney (list JourneyError)) :=
  compile_inner doc BUILTIN_ONLY_ADMITTED.

End Compile.

(** ** The table of a flat journey *)

Section Table.
Context `{SerdePointer}.
Implicit Types (compiled : CompiledJourney) (flat : Journey).

(** One routing edge of the table. *)
Definition table_edge compiled (x y : string) : Prop :=
  ∃ e, e ∈ edges compiled x ∧ edge_to e = y.

(** The kind of a step establishes a subject. *)
Definition compiled_establishes compiled (id : string) : Prop :=
  ∃ step, compiled_step compiled id = Some step ∧ establishes_subject (cs_kind step) = true.

(** What holds of every compiled table. *)
Record table_ok (admit_builtin_only : bool) compiled : Prop := {
  tb_entry : is_Some (compiled_step compiled (cj_entry compiled));
  tb_edges : ∀ x y, table_edge compiled x y →
    is_Some (compiled_step compiled x) ∧ is_Some (compiled_step compiled y);
  tb_kinds : ∀ id step, compiled_step compiled id = Some step →
    is_known (cs_kind step) = true ∧ cs_kind step ≠ SubflowCall ∧
    (is_builtin_only (cs_kind step) = true → admit_builtin_only = true) ∧
    (cs_kind step = CustomChallenge ↔ is_Some (cs_factor step));
  tb_exits : ∀ id step, compiled_step compiled id = Some step →
    edges compiled id = [] ↔ cs_kind step = Terminal;
  tb_default : ∀ id, length (filter (λ e, edge_guard e = None) (edges compiled id)) ≤ 1;
  tb_reachable : cj_reachable compiled = dom (cj_steps compiled) ∧
    ∀ id, id ∈ cj_reachable compiled → rtc (table_edge compiled) (cj_entry compiled) id;
  tb_completes : ∃ id step, compiled_step compiled id = Some step ∧ cs_kind step = Terminal ∧
    rtc (table_edge compiled) (cj_entry compiled) id
}.

Lemma push_edge_lookup transitions n : ∀ table,
  default [] (foldl push_edge table transitions !! n) =
  default [] (table !! n) ++ (lower_edge <$> filter (λ t, tr_from t = n) transitions).
Proof.
  induction transitions as [|t ts IH]; intros table; simpl; [by rewrite app_nil_r|].
  rewrite IH, filter_cons. unfold push_edge.
  destruct (decide (tr_from t = n)) as [<-|Hne].
  - rewrite lookup_insert_eq. simpl. by rewrite <-app_assoc.
  - by rewrite lookup_insert_ne.
Qed.

Section Lowered.
Variables (flat : Journey) (compiled : CompiledJourney) (adm : bool).
Hypothesis wf : well_formed RESERVED_IDS_ADMITTED adm flat.
Hypothesis call_free : ∀ step, step ∈ j_steps flat → step_kind step ≠ SubflowCall.
Hypothesis Hlower : lower flat = Ok compiled.

Let ids : gset string := list_to_set (step_id <$> j_steps flat).

Lemma lower_eq :
  cj_entry compiled = j_entry flat ∧
  cj_steps compiled = insert_all ∅ ((λ step, (step_id step, lower_step step)) <$> j_steps flat) ∧
  cj_transitions compiled = foldl push_edge ∅ (j_transitions flat) ∧
  cj_reachable compiled = reachable_steps (j_entry flat) (j_transitions flat) ids ∧
  ∃ step, step ∈ j_steps flat ∧ step_kind step = Terminal.
Proof.
  revert Hlower. unfold lower. destruct (existsb _ _) eqn:He; [|done]. intros [= <-]. simpl.
  split_and!; [done..|]. apply existsb_exists in He as (step & Hs & [Ht _]%andb_true_iff).
  exists step. split; [by apply list_elem_of_In|]. by destruct (step_kind step).
Qed.

Lemma lowered_step id cstep : compiled_step compiled id = Some cstep ↔
  ∃ step, step ∈ j_steps flat ∧ step_id step = id ∧ lower_step step = cstep.
Proof.
  destruct lower_eq as (_ & Hsteps & _). unfold compiled_step. rewrite Hsteps.
  rewrite insert_all_lookup, lookup_empty, list_elem_of_fmap by
    (rewrite <-list_fmap_compose; apply (wf_ids _ _ _ wf)). naive_solver.
Qed.

Lemma lowered_id id : is_Some (compiled_step compiled id) ↔ id ∈ step_id <$> j_steps flat.
Proof.
  unfold is_Some. setoid_rewrite lowered_step. rewrite list_elem_of_fmap. naive_solver.
Qed.

Lemma lowered_edges id :
  edges compiled id = lower_edge <$> filter (λ t, tr_from t = id) (j_transitions flat).
Proof.
  destruct lower_eq as (_ & _ & Htr & _). unfold edges. rewrite Htr. by rewrite push_edge_lookup.
Qed.

Lemma lowered_table_edge x y : table_edge compiled x y ↔ step_edge ids (j_transitions flat) x y.
Proof.
  destruct (wf_endpoints _ _ _ wf) as [Hends _]. unfold table_edge, step_edge.
  rewrite lowered_edges. setoid_rewrite list_elem_of_fmap. setoid_rewrite list_elem_of_filter.
  split.
  - intros (e & (t & -> & <- & Ht) & <-). destruct (Hends t Ht). eauto 10.
  - intros (t & Ht & <- & <- & _ & _). eauto 10.
Qed.

Lemma lowered_reachable id : id ∈ step_id <$> j_steps flat →
  rtc (table_edge compiled) (cj_entry compiled) id.
Proof.
  destruct lower_eq as (-> & _). intros (step & -> & Hs)%list_elem_of_fmap.
  destruct (wf_reach _ _ _ wf step Hs) as [Hr _]. revert Hr. apply rtc_iff.
  intros ??. apply lowered_table_edge.
Qed.

Lemma lowered_reachable_set : cj_reachable compiled = dom (cj_steps compiled).
Proof.
  apply set_eq. intros id. destruct lower_eq as (_ & _ & _ & -> & _).
  rewrite reachable_steps_spec, elem_of_dom. change (cj_steps compiled !! id) with (compiled_step compiled id).
  rewrite lowered_id. split.
  - intros Hr. apply rtc_inv_r in Hr as [<-|(? & _ & t & _ & _ & _ & _ & Hid)]; [|set_solver].
    pose proof (wf_entry _ _ _ wf). set_solver.
  - intros (step & -> & Hs)%list_elem_of_fmap. by apply (wf_reach _ _ _ wf).
Qed.

Lemma lowered_kinds id cstep : compiled_step compiled id = Some cstep →
  is_known (cs_kind cstep) = true ∧ cs_kind cstep ≠ SubflowCall ∧
  (is_builtin_only (cs_kind cstep) = true → adm = true) ∧
  (cs_kind cstep = CustomChallenge ↔ is_Some (cs_factor cstep)).
Proof.
  intros (step & Hs & _ & <-)%lowered_step. simpl.
  destruct (wf_steps _ _ _ wf step Hs) as ((Hknown & Hbuiltin & _) & (_ & Hfac & _ & _ & Hfac') & _).
  split_and!; [done|by apply call_free|done|]. split; [done|]. intros Hf.
  destruct (Hfac' Hf); congruence.
Qed.

Lemma elem_of_terminals step : step ∈ j_steps flat →
  step_id step ∈ terminals (j_steps flat) ↔ step_kind step = Terminal.
Proof.
  intros Hs. unfold terminals. rewrite elem_of_list_to_set, list_elem_of_fmap.
  setoid_rewrite list_elem_of_filter. split.
  - intros (step' & Hid & Ht & Hs'). assert (step = step') as ->.
    { apply list_elem_of_lookup in Hs as [i Hi], Hs' as [j Hj].
      assert (i = j) as ->; [|congruence].
      apply (NoDup_lookup _ _ _ (step_id step) (wf_ids _ _ _ wf)); rewrite list_lookup_fmap.
      - by rewrite Hi.
      - by rewrite Hj, Hid. }
    by destruct (step_kind step').
  - intros Ht. exists step. by rewrite Ht.
Qed.

Lemma lowered_exits id cstep : compiled_step compiled id = Some cstep →
  edges compiled id = [] ↔ cs_kind cstep = Terminal.
Proof.
  intros (step & Hs & <- & <-)%lowered_step. simpl.
  rewrite lowered_edges, fmap_nil, <-elem_of_terminals by done. split.
  - intros Hnil. destruct (wf_reach _ _ _ wf step Hs) as [_ [|(t & Ht & Hf)]]; [done|].
    assert (t ∈ filter (λ t, tr_from t = step_id step) (j_transitions flat)) as Hin
      by (by apply list_elem_of_filter).
    rewrite Hnil in Hin. set_solver.
  - intros Hterm. destruct (filter _ _) as [|t l] eqn:Hf; [done|]. exfalso.
    assert (t ∈ filter (λ t, tr_from t = step_id step) (j_transitions flat)) as [Hfrom Ht]%list_elem_of_filter
      by (rewrite Hf; left).
    apply (wf_terminals _ _ _ wf t Ht). by rewrite Hfrom.
Qed.

Lemma lowered_default id : length (filter (λ e, edge_guard e = None) (edges compiled id)) ≤ 1.
Proof.
  rewrite lowered_edges. destruct (wf_endpoints _ _ _ wf) as [_ Hnd]. revert Hnd.
  generalize (j_transitions flat). intros ts Hnd.
  assert (length (filter (λ e, edge_guard e = None) (lower_edge <$> filter (λ t, tr_from t = id) ts)) =
          length (filter (λ x, x = id) (tr_from <$> filter is_unguarded ts))) as ->.
  { clear Hnd. induction ts as [|t ts IH]; [done|]. rewrite !filter_cons.
    unfold is_unguarded in *.
    repeat case_decide; rewrite ?fmap_cons, ?filter_cons; repeat case_decide; simpl in *;
      repeat case_bool_decide; simpl in *; rewrite ?filter_cons; repeat case_decide; simpl;
      try (by f_equal); try done; try tauto. }
  revert Hnd. generalize (tr_from <$> filter is_unguarded ts). clear. intros l Hnd.
  induction Hnd as [|x l Hx _ IH]; [simpl; lia|]. rewrite filter_cons. case_decide; [|done].
  simpl. subst. assert (filter (λ x, x = id) l = []) as ->; [|simpl; lia].
  apply elem_of_nil_inv. intros y [-> Hy]%list_elem_of_filter. done.
Qed.

Lemma lowered_table : table_ok adm compiled.
Proof.
  split.
  - apply lowered_id. destruct lower_eq as (-> & _). pose proof (wf_entry _ _ _ wf). set_solver.
  - intros x y (t & _ & _ & _ & Hx & Hy)%lowered_table_edge. rewrite !lowered_id. set_solver.
  - apply lowered_kinds.
  - apply lowered_exits.
  - apply lowered_default.
  - split; [apply lowered_reachable_set|]. intros id. rewrite lowered_reachable_set, elem_of_dom.
    intros Hid. apply lowered_reachable. by apply lowered_id.
  - destruct lower_eq as (_ & _ & _ & _ & step & Hs & Ht).
    exists (step_id step), (lower_step step). split_and!; [|done|].
    + apply lowered_step. eauto.
    + apply lowered_reachable. by apply list_elem_of_fmap_2.
Qed.

End Lowered.
(** ** Theorems about compiled journeys *)

Lemma compile_inner_inv doc adm compiled :
  compile_inner doc adm = Returned (Ok compiled) →
  ∃ flat, well_formed RESERVED_IDS_ADMITTED adm flat ∧
    (∀ step, step ∈ j_steps flat → step_kind step ≠ SubflowCall) ∧
    lower flat = Ok compiled.
Proof.
  unfold compile_inner. destruct (compose_inner doc adm) as [[flat|]| |] eqn:Hc; [|done..].
  intros [= Hl]. exists flat. apply compose_inner_inv in Hc as (_ & Hloop & Hwf).
  apply (compose_loop_ind (λ _, True)) in Hloop as (_ & Hcalls & _); [|done..].
  rewrite Forall_forall in Hcalls. done.
Qed.

(** C3 (invariant): every compiled table is well formed.  The entry and both
    ends of every edge are steps; no [subflow_call], unknown or (for a custom
    artifact) built-in-only kind survives; a step has no outgoing edge exactly
    when it is terminal; no step has two unguarded edges; the precomputed
    reachable set is the whole step set and is reachable; and a terminal step is
    reachable from the entry. *)
Theorem compiled_table_ok doc adm compiled :
  compile_inner doc adm = Returned (Ok compiled) → table_ok adm compiled.
Proof.
  intros (flat & Hwf & Hno & Hl)%compile_inner_inv. by eapply lowered_table.
Qed.

(** The guard of an edge holds. *)
Definition edge_holds (ctx : EvalContext) (e : GuardedEdge) : bool :=
  match edge_guard e with None => true | Some guard => sem guard ctx end.

Lemma choose_edge_first es ctx :
  (∀ e guard, e ∈ es → edge_guard e = Some guard → typecheck_predicate guard "" = []) →
  choose_edge_loop es ctx = edge_to <$> head (filter (λ e, edge_holds ctx e = true) es).
Proof.
  induction es as [|e es IH]; intros Hes; [done|]. simpl choose_edge_loop.
  assert (choose_edge_loop es ctx = edge_to <$> head (filter (λ e, edge_holds ctx e = true) es)) as ->.
  { apply IH. intros e' guard He'. apply Hes. by right. }
  rewrite filter_cons.
  case_decide as Hd; unfold edge_holds in Hd; destruct (edge_guard e) as [guard|] eqn:Hg; try done;
    unfold evaluate; rewrite (evaluate_typechecked ctx guard "" 0) by (apply (Hes e guard); [left|done]).
  - by rewrite Hd.
  - by destruct (sem guard ctx).
Qed.

Lemma compiled_guards_typecheck doc adm compiled from e guard :
  compile_inner doc adm = Returned (Ok compiled) →
  e ∈ edges compiled from → edge_guard e = Some guard → typecheck_predicate guard "" = [].
Proof.
  intros (flat & Hwf & Hno & Hl)%compile_inner_inv.
  rewrite (lowered_edges _ _ Hl). intros (t & -> & [_ Ht]%list_elem_of_filter)%list_elem_of_fmap.
  destruct (wf_predicates _ _ _ Hwf) as [Hg _]. simpl. intros Hguard. by eapply Hg.
Qed.

(** C5 (functional): routing over a compiled table never meets an evaluation
    error, so the fail-closed arm of [choose_edge] is dead: the router takes the
    first edge, in document order, whose guard is absent or true under the
    boolean reading of the predicate, and stops only when every guard is false. *)
Theorem routing_takes_first_true_edge doc adm compiled from ctx :
  compile_inner doc adm = Returned (Ok compiled) →
  choose_edge compiled from ctx =
  edge_to <$> head (filter (λ e, edge_holds ctx e = true) (edges compiled from)).
Proof.
  intros Hc. apply choose_edge_first. intros e guard. by eapply compiled_guards_typecheck.
Qed.

(** *** Runs of the engine *)

(** The steps an engine run has left, most recent first, and the step it is at.
    The evaluation context of every hop is arbitrary. *)
Inductive engine_run (compiled : CompiledJourney) : list string → string → Prop :=
| run_start : engine_run compiled [] (cj_entry compiled)
| run_hop visited current ctx next :
    engine_run compiled visited current →
    choose_edge compiled current ctx = Some next →
    engine_run compiled (current :: visited) next.

Lemma choose_edge_table compiled from ctx next :
  choose_edge compiled from ctx = Some next → table_edge compiled from next.
Proof.
  unfold choose_edge, table_edge. induction (edges compiled from) as [|e es IH]; [done|]. simpl.
  destruct (edge_guard e) as [guard|].
  - destruct (evaluate guard ctx) as [[]|]; [|intros Hn|done].
    + intros [= <-]. exists e. split; [left|done].
    + destruct (IH Hn) as (e' & He' & <-). exists e'. split; [by right|done].
  - intros [= <-]. exists e. split; [left|done].
Qed.

(** C4 (safety): no engine run of a compiled journey, under any evaluation
    contexts, arrives at a step that reads the subject (a second factor,
    progressive profiling, the organization picker) without having left a step
    that establishes it. *)
Theorem engine_run_subject_established doc adm compiled visited current step :
  compile_inner doc adm = Returned (Ok compiled) →
  engine_run compiled visited current →
  compiled_step compiled current = Some step → requires_subject (cs_kind step) = true →
  ∃ id, id ∈ visited ∧ compiled_establishes compiled id.
Proof.
  intros (flat & Hwf & Hno & Hl)%compile_inner_inv Hrun Hstep Hreq.
  set (ids := list_to_set (step_id <$> j_steps flat) : gset string).
  assert (rtc (subjectless_edge (j_steps flat) ids (j_transitions flat)) (j_entry flat) current ∨
          ∃ id, id ∈ visited ∧ compiled_establishes compiled id) as [Hpath|]; [|exfalso|done].
  - clear Hstep Hreq. induction Hrun as [|visited current ctx next _ IH Hnext].
    { left. destruct (lower_eq _ _ Hl) as (-> & _). apply rtc_refl. }
    destruct IH as [IH|(id & Hid & He)]; [|right; exists id; split; [by right|done]].
    apply choose_edge_table, (lowered_table_edge _ _ _ Hwf Hl) in Hnext.
    destruct (node_establishes (j_steps flat) current) eqn:Hest; [right|left; by eapply rtc_r].
    exists current. split; [left|]. unfold node_establishes in Hest.
    destruct (kind_by_id _ !! current) as [kind|] eqn:Hkind; [|done].
    apply (kind_by_id_lookup _ _ _ (wf_ids _ _ _ Hwf)) in Hkind as (origin & Ho & Hid & <-).
    exists (lower_step origin). split; [|done]. apply (lowered_step _ _ _ Hwf Hl). eauto.
  - apply (lowered_step _ _ _ Hwf Hl) in Hstep as (origin & Ho & <- & <-).
    by apply (wf_subject _ _ _ Hwf origin Ho).
Qed.

End Table.
