(* ===== verification/JourneyReplay.v ===== *)
(** * Golden-path replay (crates/ironauth-journey/src/replay.rs)

    A recorded transcript replayed against the routing of a compiled journey,
    and the regeneration of its expectations.  The theorems: replaying is
    decided by regeneration, regeneration is idempotent, the in-call routing
    bound loses no outcome, and routing depends only on the inputs the engine
    populates. *)

From stdpp Require Import finite.
From S2P Require Import Prelude Walk Json JourneyArtifact JourneyEval JourneyChecks JourneySubflow.
From S2P Require Import JourneyCompose JourneyCompile.

(** ** Transcripts *)

Inductive SignalName : Type :=
| SnPrimaryVerified | SnMfaRequired | SnEnrollRequired | SnProfilingPending.

#[export] Instance SignalName_eq_dec : EqDecision SignalName.
Proof. solve_decision. Defined.

#[export] Instance SignalName_countable : Countable SignalName.
Proof.
  refine (inj_countable'
    (λ s, match s with SnPrimaryVerified => 0 | SnMfaRequired => 1 | SnEnrollRequired => 2
                     | SnProfilingPending => 3 end)
    (λ n, match n with 0 => SnPrimaryVerified | 1 => SnMfaRequired | 2 => SnEnrollRequired
                     | _ => SnProfilingPending end) _).
  by intros [].
Defined.

Definition to_outcome (name : SignalName) : OutcomeSignal :=
  match name with
  | SnPrimaryVerified => PrimaryVerified
  | SnMfaRequired => MfaRequired
  | SnEnrollRequired => EnrollRequired
  | SnProfilingPending => ProfilingPending
  end.

Record TranscriptSignals : Type := { ts_names : gset SignalName }.

(** [TranscriptSignals::of]. *)
Definition signals_of (names : list SignalName) : TranscriptSignals :=
  {| ts_names := list_to_set names |}.

Definition to_signal_set (signals : TranscriptSignals) : SignalSet :=
  foldl (λ set name, signal_with set (to_outcome name) true) SignalSet_new
    (elements (ts_names signals)).

Inductive TranscriptRiskLevel : Type := TrLow | TrMedium | TrHigh.

Definition to_level (level : TranscriptRiskLevel) : RiskLevel :=
  match level with TrLow => RiskLow | TrMedium => RiskMedium | TrHigh => RiskHigh end.

Record TranscriptRisk : Type := { tk_level : TranscriptRiskLevel; tk_score : Z }.

Definition to_view (risk : TranscriptRisk) : RiskView :=
  {| risk_level := to_level (tk_level risk); risk_score := tk_score risk |}.

Inductive ExpectedHop : Type :=
| ExpectStep (id : string)
| ExpectTerminal (id : string).

#[export] Instance ExpectedHop_eq_dec : EqDecision ExpectedHop.
Proof. solve_decision. Defined.

(** [ExpectedHop::parts]. *)
Definition parts (expect : ExpectedHop) : string * bool :=
  match expect with
  | ExpectStep id => (id, false)
  | ExpectTerminal id => (id, true)
  end.

Definition ExpectedHop_fmt (expect : ExpectedHop) : string :=
  match expect with
  | ExpectStep id => "step " +:+ id
  | ExpectTerminal id => "terminal " +:+ id
  end.

Inductive ObservedHop : Type :=
| Advanced (to : string) (terminal : bool)
| DeadEnded
| PastTerminal
| Incomplete
| Unsettled.

Definition ObservedHop_fmt (observed : ObservedHop) : string :=
  match observed with
  | Advanced to true => "reached terminal " +:+ to
  | Advanced to false => "advanced to step " +:+ to
  | DeadEnded => "dead-ended (no guard matched)"
  | PastTerminal => "had already completed"
  | Incomplete => "never reached a terminal"
  | Unsettled => "did not settle on a step"
  end.

Record Divergence : Type := {
  dv_step_index : nat;
  dv_from : string;
  dv_expected : option ExpectedHop;
  dv_observed : ObservedHop
}.

Definition Divergence_fmt (d : Divergence) : string :=
  match dv_expected d with
  | Some expected =>
      "hop " +:+ fmt_nat (dv_step_index d) +:+ " from " +:+ dv_from d +:+ ": expected "
      +:+ ExpectedHop_fmt expected +:+ ", but routing " +:+ ObservedHop_fmt (dv_observed d)
  | None =>
      "hop " +:+ fmt_nat (dv_step_index d) +:+ " from " +:+ dv_from d +:+ ": routing "
      +:+ ObservedHop_fmt (dv_observed d)
  end.

Inductive ReplayReport : Type :=
| Match
| Diverged (divergence : Divergence).

Definition is_match (report : ReplayReport) : bool :=
  match report with Match => true | Diverged _ => false end.

(** The settled outcome of one hop. *)
Inductive HopOutcome : Type :=
| Landed (to : string) (terminal : bool)
| DeadEnd (at_ : string)
| HopUnsettled.

Inductive RegenerateReason : Type :=
| RgDeadEnded (at_ : string)
| RgPastTerminal
| RgUnsettled.

Record RegenerateError : Type := { rg_step_index : nat; rg_reason : RegenerateReason }.

Definition RegenerateError_fmt (e : RegenerateError) : string :=
  "hop " +:+ fmt_nat (rg_step_index e) +:+
  match rg_reason e with
  | RgDeadEnded at_ => ": routing dead-ended at " +:+ at_ +:+ " (no guard matched)"
  | RgPastTerminal => ": routing had already completed, so the hop cannot be recorded"
  | RgUnsettled => ": routing did not settle on a step"
  end.

Inductive UnfaithfulField : Type := UfGroups | UfScopes.

Record UnfaithfulTranscript : Type := { uf_step_index : nat; uf_field : UnfaithfulField }.

Section Replay.
Context `{SerdePointer}.

Record TranscriptSubject : Type := {
  sub_traits : Value;
  sub_groups : gset string;
  sub_scopes : gset string;
  sub_method_tokens : gset string;
  sub_subject_handle : string;
  sub_risk : option TranscriptRisk
}.

(** [TranscriptSubject::default()]. *)
Definition TranscriptSubject_default : TranscriptSubject := {|
  sub_traits := VNull; sub_groups := ∅; sub_scopes := ∅; sub_method_tokens := ∅;
  sub_subject_handle := ""; sub_risk := None |}.

Record TranscriptStep : Type := {
  ts_comment : option string;
  ts_signals : TranscriptSignals;
  ts_subject : option TranscriptSubject;
  ts_expect : ExpectedHop
}.

Record JourneyTranscript : Type := {
  jt_journey_id : string;
  jt_engine_version : Z;
  jt_description : option string;
  jt_steps : list TranscriptStep
}.

(** ** Routing one hop *)

Definition base_context (step : TranscriptStep) : EvalContext :=
  let subject := default TranscriptSubject_default (ts_subject step) in {|
    ctx_flow := {|
      flow_step_id := "";
      flow_method_tokens := sub_method_tokens subject;
      flow_subject_handle := sub_subject_handle subject;
      flow_signals := to_signal_set (ts_signals step) |};
    ctx_subject_traits := sub_traits subject;
    ctx_subject_groups := ∅;
    ctx_subject_scopes := ∅;
    ctx_risk := match sub_risk subject with
                | Some risk => to_view risk
                | None => {| risk_level := RiskLow; risk_score := 0 |}
                end |}.

(** [ctx.flow.step_id.clone_from(&cursor)] on a copy of the base context. *)
Definition at_step (base : EvalContext) (cursor : string) : EvalContext := {|
  ctx_flow := {|
    flow_step_id := cursor;
    flow_method_tokens := flow_method_tokens (ctx_flow base);
    flow_subject_handle := flow_subject_handle (ctx_flow base);
    flow_signals := flow_signals (ctx_flow base) |};
  ctx_subject_traits := ctx_subject_traits base;
  ctx_subject_groups := ctx_subject_groups base;
  ctx_subject_scopes := ctx_subject_scopes base;
  ctx_risk := ctx_risk base |}.

(** One iteration of [route_hop]: a settled outcome, or the decision step the
    walk continues from. *)
Definition hop (compiled : CompiledJourney) (base : EvalContext) (cursor : string)
    : HopOutcome + string :=
  match choose_edge compiled cursor (at_step base cursor) with
  | None => inl (DeadEnd cursor)
  | Some next_id =>
      match compiled_step compiled next_id with
      | None => inl (DeadEnd cursor)
      | Some next =>
          match cs_kind next with
          | Terminal => inl (Landed next_id true)
          | Decision_ => inr next_id
          | IdentifierPassword | MfaChallenge | MfaEnroll | CustomChallenge
          | ProgressiveProfiling | OrgPicker | Registration | RecoveryStart
          | RecoveryVerify => inl (Landed next_id false)
          | SubflowCall | Unknown _ => inl (DeadEnd cursor)
          end
      end
  end.

Fixpoint route_hop_loop (iterations : nat) (compiled : CompiledJourney) (base : EvalContext)
    (cursor : string) : HopOutcome :=
  match iterations with
  | O => HopUnsettled
  | S n =>
      match hop compiled base cursor with
      | inl outcome => outcome
      | inr next => route_hop_loop n compiled base next
      end
  end.

(** [for _ in 0..=compiled.steps.len()]. *)
Definition route_hop (compiled : CompiledJourney) (start : string) (base : EvalContext)
    : HopOutcome :=
  route_hop_loop (S (size (cj_steps compiled))) compiled base start.

(** ** Replay *)

Fixpoint run_loop (index : nat) (compiled : CompiledJourney) (steps : list TranscriptStep)
    (cursor : string) (completed : bool) : ReplayReport :=
  match steps with
  | [] =>
      if completed then Match
      else Diverged {| dv_step_index := index; dv_from := cursor; dv_expected := None;
                       dv_observed := Incomplete |}
  | step :: rest =>
      if completed then
        Diverged {| dv_step_index := index; dv_from := cursor;
                    dv_expected := Some (ts_expect step); dv_observed := PastTerminal |}
      else
        match route_hop compiled cursor (base_context step) with
        | Landed to terminal =>
            let '(expected_id, expected_terminal) := parts (ts_expect step) in
            if negb (bool_decide (to = expected_id)) ||
               negb (Bool.eqb terminal expected_terminal) then
              Diverged {| dv_step_index := index; dv_from := cursor;
                          dv_expected := Some (ts_expect step);
                          dv_observed := Advanced to terminal |}
            else if terminal then run_loop (S index) compiled rest cursor true
            else run_loop (S index) compiled rest to completed
        | DeadEnd at_ =>
            Diverged {| dv_step_index := index; dv_from := at_;
                        dv_expected := Some (ts_expect step); dv_observed := DeadEnded |}
        | HopUnsettled =>
            Diverged {| dv_step_index := index; dv_from := cursor;
                        dv_expected := Some (ts_expect step); dv_observed := Unsettled |}
        end
  end.

Definition run (compiled : CompiledJourney) (transcript : JourneyTranscript) : ReplayReport :=
  run_loop 0 compiled (jt_steps transcript) (cj_entry compiled) false.

(** ** Regeneration *)

Fixpoint check_engine_faithful_loop (index : nat) (steps : list TranscriptStep)
    : Result unit UnfaithfulTranscript :=
  match steps with
  | [] => Ok ()
  | step :: rest =>
      let unfaithful :=
        match ts_subject step with
        | Some subject =>
            if negb (bool_decide (sub_groups subject = ∅)) then Some UfGroups
            else if negb (bool_decide (sub_scopes subject = ∅)) then Some UfScopes
            else None
        | None => None
        end in
      match unfaithful with
      | Some field => Err {| uf_step_index := index; uf_field := field |}
      | None => check_engine_faithful_loop (S index) rest
      end
  end.

Definition check_engine_faithful (transcript : JourneyTranscript) : Result unit UnfaithfulTranscript :=
  check_engine_faithful_loop 0 (jt_steps transcript).

Definition with_expect (step : TranscriptStep) (expect : ExpectedHop) : TranscriptStep := {|
  ts_comment := ts_comment step; ts_signals := ts_signals step;
  ts_subject := ts_subject step; ts_expect := expect |}.

(** The loop of [regenerated]; the result is the vector it pushes. *)
Fixpoint regenerated_loop (index : nat) (compiled : CompiledJourney) (steps : list TranscriptStep)
    (cursor : string) (completed : bool) : Result (list TranscriptStep) RegenerateError :=
  match steps with
  | [] => Ok []
  | step :: rest =>
      if completed then Err {| rg_step_index := index; rg_reason := RgPastTerminal |} else
      match route_hop compiled cursor (base_context step) with
      | Landed to true =>
          let? steps' := regenerated_loop (S index) compiled rest cursor true in
          Ok (with_expect step (ExpectTerminal to) :: steps')
      | Landed to false =>
          let? steps' := regenerated_loop (S index) compiled rest to completed in
          Ok (with_expect step (ExpectStep to) :: steps')
      | DeadEnd at_ => Err {| rg_step_index := index; rg_reason := RgDeadEnded at_ |}
      | HopUnsettled => Err {| rg_step_index := index; rg_reason := RgUnsettled |}
      end
  end.

Definition regenerated (transcript : JourneyTranscript) (compiled : CompiledJourney)
    : Result JourneyTranscript RegenerateError :=
  let? steps := regenerated_loop 0 compiled (jt_steps transcript) (cj_entry compiled) false in
  Ok {| jt_journey_id := jt_journey_id transcript;
        jt_engine_version := jt_engine_version transcript;
        jt_description := jt_description transcript;
        jt_steps := steps |}.

End Replay.

(** ** Theorems *)

Section ReplayTheorems.
Context `{SerdePointer}.
Implicit Types (compiled : CompiledJourney) (base : EvalContext).

(** *** The bound on in-call routing *)

(** The cursor after [k] decision steps, while the walk continues. *)
Fixpoint orbit compiled base (k : nat) (cursor : string) : option string :=
  match k with
  | O => Some cursor
  | S k' => match hop compiled base cursor with
            | inr next => orbit compiled base k' next
            | inl _ => None
            end
  end.

Lemma orbit_app compiled base i : ∀ j cursor,
  orbit compiled base (i + j) cursor =
  orbit compiled base i cursor ≫= orbit compiled base j.
Proof. induction i as [|i IH]; intros j cursor; simpl; [done|]. destruct (hop _ _ _); [done|apply IH]. Qed.

Lemma orbit_le compiled base i k cursor y :
  orbit compiled base k cursor = Some y → i ≤ k → is_Some (orbit compiled base i cursor).
Proof.
  intros Hk Hle. replace k with (i + (k - i)) in Hk by lia. rewrite orbit_app in Hk.
  apply bind_Some in Hk as (x & Hx & _). eauto.
Qed.

Lemma orbit_step compiled base k cursor y :
  orbit compiled base (S k) cursor = Some y → y ∈ dom (cj_steps compiled).
Proof.
  replace (S k) with (k + 1) by lia. rewrite orbit_app. intros (x & _ & Hx)%bind_Some.
  simpl in Hx. unfold hop, compiled_step in Hx. apply elem_of_dom.
  repeat case_match; simplify_eq; eauto.
Qed.

Lemma route_hop_loop_orbit compiled base n : ∀ cursor outcome, outcome ≠ HopUnsettled →
  route_hop_loop n compiled base cursor = outcome ↔
  ∃ k y, k < n ∧ orbit compiled base k cursor = Some y ∧ hop compiled base y = inl outcome.
Proof.
  induction n as [|n IH]; intros cursor outcome Ho; simpl; [split; [congruence|intros (?&?&?&?); lia]|].
  destruct (hop compiled base cursor) as [o|next] eqn:Hhop.
  - split.
    + intros ->. exists 0, cursor. split; [lia|done].
    + intros ([|k] & y & Hk & Hy & Hho); simpl in Hy; [congruence|]. by rewrite Hhop in Hy.
  - rewrite (IH next outcome Ho). split.
    + intros (k & y & Hk & Hy & Hho). exists (S k), y. simpl. rewrite Hhop. split; [lia|done].
    + intros ([|k] & y & Hk & Hy & Hho); simpl in Hy; [congruence|]. rewrite Hhop in Hy.
      exists k, y. split; [lia|done].
Qed.

(** A walk that settles at all settles before it has left more decision steps
    than the table has steps: a repeated cursor can be cut out. *)
Lemma orbit_short compiled base cursor y k :
  orbit compiled base k cursor = Some y →
  ∃ k', k' ≤ size (cj_steps compiled) ∧ orbit compiled base k' cursor = Some y.
Proof.
  induction (lt_wf k) as [k _ IH]. intros Hk.
  destruct (decide (k ≤ size (cj_steps compiled))) as [|Hlt]; [by eauto|].
  assert (∀ i, i < k → is_Some (orbit compiled base (S i) cursor)) as Hsome.
  { intros i Hi. eapply orbit_le; [exact Hk|lia]. }
  set (f := λ i, default "" (orbit compiled base (S i) cursor)).
  destruct (list_pigeonhole (f <$> seq 0 k) (elements (dom (cj_steps compiled))))
    as (i & j & x & Hij & Hi & Hj).
  - intros x (i & -> & Hi%elem_of_seq)%list_elem_of_fmap. apply elem_of_elements.
    destruct (Hsome i) as [y' Hy']; [lia|]. unfold f. rewrite Hy'. by eapply orbit_step.
  - rewrite length_fmap, length_seq. change (size (dom (cj_steps compiled)) < k).
    rewrite size_dom. lia.
  - apply list_lookup_fmap_Some in Hi as (i' & -> & [-> Hi]%lookup_seq).
    apply list_lookup_fmap_Some in Hj as (j' & Heq & [-> Hj]%lookup_seq). simpl in Heq.
    destruct (Hsome i Hi) as [yi Hyi], (Hsome j Hj) as [yj Hyj].
    unfold f in Heq. rewrite Hyi, Hyj in Heq. simpl in Heq. subst yj.
    destruct (IH (S i + (k - S j))) as (k' & Hk' & Ho); [lia| |by eauto].
    rewrite orbit_app, Hyi. simpl. rewrite <-Hk. replace k with (S j + (k - S j)) at 2 by lia.
    by rewrite orbit_app, Hyj.
Qed.

(** The iteration bound of [route_hop], the number of steps
    plus one, loses no outcome: whenever walking the decision steps longer would
    settle, [route_hop] settles with the same outcome. *)
Theorem route_hop_bound_suffices compiled base start iterations :
  route_hop_loop iterations compiled base start ≠ HopUnsettled →
  route_hop compiled start base = route_hop_loop iterations compiled base start.
Proof.
  intros Ho. apply route_hop_loop_orbit; [done|].
  destruct (proj1 (route_hop_loop_orbit compiled base iterations start _ Ho) eq_refl)
    as (k & y & _ & Hk & Hy).
  destruct (orbit_short compiled base start y k Hk) as (k' & Hk' & Ho').
  exists k', y. split; [lia|done].
Qed.

(** *** Replay and regeneration *)

(** The last recorded hop is a completion (or the run was already complete). *)
Definition completes (completed : bool) (steps : list TranscriptStep) : Prop :=
  match last steps with
  | None => completed = true
  | Some step => ∃ id, ts_expect step = ExpectTerminal id
  end.

Definition expects_terminal (expect : ExpectedHop) : bool := (parts expect).2.

Lemma completes_cons completed step steps :
  completes completed (step :: steps) ↔ completes (expects_terminal (ts_expect step)) steps.
Proof.
  unfold completes. rewrite last_cons. destruct (last steps); [done|].
  destruct (ts_expect step); simpl; naive_solver.
Qed.

Lemma with_expect_self step : with_expect step (ts_expect step) = step.
Proof. by destruct step. Qed.

(** The hop a landing is recorded as. *)
Definition landing (to : string) (terminal : bool) : ExpectedHop :=
  if terminal then ExpectTerminal to else ExpectStep to.

Lemma parts_landing expect to terminal :
  parts expect = (to, terminal) ↔ expect = landing to terminal.
Proof. destruct expect, terminal; simpl; naive_solver. Qed.

(** One step of either loop at a hop that lands. *)
Lemma run_loop_landed index compiled step rest cursor to terminal :
  route_hop compiled cursor (base_context step) = Landed to terminal →
  run_loop index compiled (step :: rest) cursor false =
  if bool_decide (ts_expect step = landing to terminal)
  then run_loop (S index) compiled rest (if terminal then cursor else to) terminal
  else Diverged {| dv_step_index := index; dv_from := cursor;
                   dv_expected := Some (ts_expect step); dv_observed := Advanced to terminal |}.
Proof.
  intros Hr. simpl. rewrite Hr. destruct (parts (ts_expect step)) as [id ends] eqn:Hp.
  destruct (decide (ts_expect step = landing to terminal)) as [He|He].
  - rewrite (bool_decide_eq_true_2 _ He). apply parts_landing in He.
    rewrite Hp in He. injection He as -> ->. rewrite bool_decide_eq_true_2 by done. by destruct terminal.
  - rewrite (bool_decide_eq_false_2 _ He). rewrite <-parts_landing, Hp in He.
    case_bool_decide; [|done]. subst. by destruct ends, terminal.
Qed.

Lemma regenerated_loop_landed index compiled step rest cursor to terminal :
  route_hop compiled cursor (base_context step) = Landed to terminal →
  regenerated_loop index compiled (step :: rest) cursor false =
  let? steps := regenerated_loop (S index) compiled rest (if terminal then cursor else to) terminal in
  Ok (with_expect step (landing to terminal) :: steps).
Proof. intros Hr. simpl. rewrite Hr. by destruct terminal. Qed.

Lemma run_loop_match compiled steps : ∀ index cursor completed,
  run_loop index compiled steps cursor completed = Match ↔
  regenerated_loop index compiled steps cursor completed = Ok steps ∧ completes completed steps.
Proof.
  induction steps as [|step rest IH]; intros index cursor completed.
  { simpl. unfold completes. simpl. destruct completed; naive_solver. }
  destruct completed; [simpl; naive_solver|].
  destruct (route_hop compiled cursor (base_context step)) as [to terminal|at_|] eqn:Hr;
    [|simpl; rewrite Hr; naive_solver..].
  rewrite (run_loop_landed _ _ _ _ _ _ _ Hr), (regenerated_loop_landed _ _ _ _ _ _ _ Hr).
  rewrite completes_cons. case_bool_decide as He.
  - rewrite IH, He. unfold expects_terminal.
    rewrite (proj2 (parts_landing _ to terminal) eq_refl). simpl. rewrite <-He, with_expect_self.
    destruct (regenerated_loop _ _ _ _ _); naive_solver.
  - split; [done|]. intros [Hreg _]. destruct He. destruct (regenerated_loop _ _ _ _ _); [|done].
    injection Hreg as Hstep _. by rewrite <-Hstep.
Qed.

(** Regeneration is a fixed point. *)
Lemma regenerated_loop_idem compiled steps : ∀ index cursor completed steps',
  regenerated_loop index compiled steps cursor completed = Ok steps' →
  regenerated_loop index compiled steps' cursor completed = Ok steps' ∧
  (λ s, (ts_comment s, ts_signals s, ts_subject s)) <$> steps' =
  (λ s, (ts_comment s, ts_signals s, ts_subject s)) <$> steps.
Proof.
  induction steps as [|step rest IH]; intros index cursor completed steps'.
  { simpl. intros [= <-]. done. }
  destruct completed; [done|].
  destruct (route_hop compiled cursor (base_context step)) as [to terminal|at_|] eqn:Hr;
    [|by simpl; rewrite Hr..].
  rewrite (regenerated_loop_landed _ _ _ _ _ _ _ Hr).
  destruct (regenerated_loop _ _ rest _ _) as [rest'|] eqn:Hrest; [|done]. intros [= <-].
  destruct (IH _ _ _ _ Hrest) as [IH1 IH2]. split.
  - rewrite (regenerated_loop_landed _ _ (with_expect step (landing to terminal)) _ _ _ _ Hr), IH1.
    done.
  - rewrite !fmap_cons, IH2. done.
Qed.

(** A regenerated transcript diverges only by being incomplete. *)
Lemma regenerated_loop_replays compiled steps : ∀ index cursor completed,
  regenerated_loop index compiled steps cursor completed = Ok steps →
  run_loop index compiled steps cursor completed = Match ∨
  ∃ from, run_loop index compiled steps cursor completed = Diverged {|
    dv_step_index := index + length steps; dv_from := from;
    dv_expected := None; dv_observed := Incomplete |}.
Proof.
  induction steps as [|step rest IH]; intros index cursor completed.
  { simpl. destruct completed; [by left|]. right. exists cursor. by rewrite Nat.add_0_r. }
  destruct completed; [done|].
  destruct (route_hop compiled cursor (base_context step)) as [to terminal|at_|] eqn:Hr;
    [|by simpl; rewrite Hr..].
  rewrite (regenerated_loop_landed _ _ _ _ _ _ _ Hr), (run_loop_landed _ _ _ _ _ _ _ Hr).
  destruct (regenerated_loop _ _ rest _ _) as [rest'|] eqn:Hrest; [|done]. intros [= Hstep ->].
  rewrite bool_decide_eq_true_2 by (by rewrite <-Hstep).
  rewrite length_cons, <-Nat.add_succ_comm. by apply IH.
Qed.

(** A replay matches exactly when the transcript is a fixed
    point of regeneration and its last hop is a completion. *)
Theorem replay_match_iff_regenerated compiled transcript :
  run compiled transcript = Match ↔
  regenerated transcript compiled = Ok transcript ∧
  ∃ step id, last (jt_steps transcript) = Some step ∧ ts_expect step = ExpectTerminal id.
Proof.
  unfold run, regenerated. rewrite run_loop_match. unfold completes.
  destruct transcript as [id version description steps]. simpl.
  destruct (regenerated_loop _ _ _ _ _) as [steps'|]; [|naive_solver].
  destruct (last steps) as [step|]; naive_solver.
Qed.

(** Regeneration is idempotent, changes nothing but the
    expectations, and its result replays to a match unless its last hop is not a
    completion, in which case the replay reports an incomplete run at the end. *)
Theorem regenerated_fixed_point transcript compiled transcript' :
  regenerated transcript compiled = Ok transcript' →
  regenerated transcript' compiled = Ok transcript' ∧
  (λ s, (ts_comment s, ts_signals s, ts_subject s)) <$> jt_steps transcript' =
  (λ s, (ts_comment s, ts_signals s, ts_subject s)) <$> jt_steps transcript ∧
  (run compiled transcript' = Match ∨
   ∃ from, run compiled transcript' = Diverged {|
     dv_step_index := length (jt_steps transcript'); dv_from := from;
     dv_expected := None; dv_observed := Incomplete |}).
Proof.
  unfold run, regenerated.
  destruct (regenerated_loop _ _ _ _ _) as [steps|] eqn:Hreg; [|done]. intros [= <-]. simpl.
  destruct (regenerated_loop_idem _ _ _ _ _ _ Hreg) as [Hidem Hkeep].
  rewrite Hidem. split; [done|]. split; [done|].
  apply (regenerated_loop_replays _ _ 0) in Hidem. exact Hidem.
Qed.

(** *** The inputs routing reads *)

Lemma choose_edge_live doc adm compiled from ctx ctx' :
  compile_inner doc adm = Returned (Ok compiled) → live_agree ctx ctx' →
  choose_edge compiled from ctx = choose_edge compiled from ctx'.
Proof.
  intros Hc Hagree. unfold choose_edge.
  assert (∀ e guard, e ∈ edges compiled from → edge_guard e = Some guard →
    typecheck_predicate guard "" = []) as Htc by (intros ??; by eapply compiled_guards_typecheck).
  rewrite !choose_edge_first by done. do 2 f_equal. apply list_filter_iff_elem.
  intros e He. unfold edge_holds. destruct (edge_guard e) as [guard|] eqn:Hg; [|done].
  by rewrite (sem_live ctx ctx' guard Hagree "" 0) by (by eapply Htc).
Qed.

(** Routing over a compiled table is a function of the inputs
    the engine populates (flow state, signals, traits and the risk level): two
    contexts that agree on them settle on the same outcome, whatever groups,
    scopes and risk score they carry. *)
Theorem routing_reads_live_sources doc adm compiled start base base' :
  compile_inner doc adm = Returned (Ok compiled) → live_agree base base' →
  route_hop compiled start base = route_hop compiled start base'.
Proof.
  intros Hc Hagree. unfold route_hop. generalize (S (size (cj_steps compiled))) as n.
  intros n. revert start. induction n as [|n IH]; intros cursor; [done|]. simpl.
  assert (hop compiled base cursor = hop compiled base' cursor) as ->; [|by destruct (hop _ _ _)].
  unfold hop. rewrite (choose_edge_live doc adm compiled cursor _ (at_step base' cursor) Hc); [done|].
  destruct Hagree as (Hf & Ht & Hr). unfold live_agree, at_step. simpl. by rewrite Hf, Ht, Hr.
Qed.

Lemma check_engine_faithful_loop_ok steps : ∀ index,
  check_engine_faithful_loop index steps = Ok () ↔
  ∀ step subject, step ∈ steps → ts_subject step = Some subject →
    sub_groups subject = ∅ ∧ sub_scopes subject = ∅.
Proof.
  induction steps as [|step steps IH]; intros index; simpl; [set_solver|].
  setoid_rewrite elem_of_cons. destruct (ts_subject step) as [subject|] eqn:Hs.
  - do 2 case_bool_decide; simpl; rewrite ?IH; naive_solver.
  - rewrite IH. naive_solver.
Qed.

(** The fidelity check accepts a transcript exactly when no hop
    sets a subject field the engine leaves empty, and every context the replay
    assembles from any transcript leaves them empty too. *)
Theorem engine_faithful_iff transcript :
  (check_engine_faithful transcript = Ok () ↔
   ∀ step subject, step ∈ jt_steps transcript → ts_subject step = Some subject →
     sub_groups subject = ∅ ∧ sub_scopes subject = ∅) ∧
  ∀ step, ctx_subject_groups (base_context step) = ∅ ∧ ctx_subject_scopes (base_context step) = ∅.
Proof. split; [apply check_engine_faithful_loop_ok|done]. Qed.

End ReplayTheorems.
