(* ===== verification/JourneyTemplate.v ===== *)
(** * Templates and shipped journeys
    (crates/ironauth-journey/src/template.rs and shipped.rs)

    Materialisation of a template invocation into a concrete journey, and the
    rule that decides which document an environment runs.  Decoding a predicate
    from JSON is derived code of [serde]: it is a parameter. *)

From S2P Require Import Prelude Walk Json JourneyArtifact JourneyEval JourneyChecks JourneySubflow.
From S2P Require Import JourneyCompose JourneyCompile.

Definition TEMPLATE_IDENTIFIER_FIRST_CONDITIONAL_MFA : string := "identifier_first_conditional_mfa".

Definition template_ids : list string := [TEMPLATE_IDENTIFIER_FIRST_CONDITIONAL_MFA].

(** [serde_json::from_value::<Predicate>]. *)
Class SerdePredicate `{SerdeNumber} := {
  predicate_from_value : Value → option Predicate
}.

Section Template.
Context `{SerdePointer} `{!SerdePredicate}.

Record TemplateInvocation : Type := {
  ti_template : string;
  ti_params : Value;
  ti_comment : option string
}.

Definition required_string (object : list (string * Value)) (name : string)
    : Result string JourneyError :=
  match map_get object name with
  | None => Err (MissingTemplateParam "/params" name)
  | Some (VString value) => Ok value
  | Some _ => Err (TemplateParamType ("/params/" +:+ name) name)
  end.

Definition optional_string (object : list (string * Value)) (name : string)
    : Result (option string) JourneyError :=
  match map_get object name with
  | None => Ok None
  | Some (VString value) => Ok (Some value)
  | Some _ => Err (TemplateParamType ("/params/" +:+ name) name)
  end.

Definition required_predicate (object : list (string * Value)) (name : string)
    : Result Predicate JourneyError :=
  match map_get object name with
  | None => Err (MissingTemplateParam "/params" name)
  | Some value =>
      match predicate_from_value value with
      | Some predicate => Ok predicate
      | None => Err (TemplateParamType ("/params/" +:+ name) name)
      end
  end.

Definition named_step (id : string) (kind : StepKind) (node_group comment : option string) : Step := {|
  step_id := id; step_kind := kind; step_node_group := node_group; step_subflow := None;
  step_decision := None; step_factor := None; step_comment := comment |}.

(** The body of the [identifier_first_conditional_mfa] template. *)
Definition conditional_mfa (journey_id : string) (condition : Predicate) (mfa_comment : string)
    : Journey := {|
  j_schema_version := JOURNEY_SCHEMA_VERSION;
  j_id := journey_id;
  j_engine_version := JOURNEY_ENGINE_VERSION;
  j_entry := "primary";
  j_comment := Some "Identifier first, then a second factor only when the condition holds.";
  j_steps :=
    [named_step "primary" IdentifierPassword (Some "password")
       (Some "The identifier and password first factor.");
     named_step "mfa" MfaChallenge (Some "totp") (Some "The conditional second factor.");
     named_step "done" Terminal None (Some "The session is minted here.")];
  j_transitions :=
    [{| tr_from := "primary"; tr_to := "mfa"; tr_guard := Some condition;
        tr_comment := Some mfa_comment |};
     {| tr_from := "primary"; tr_to := "done"; tr_guard := Some (PNot condition);
        tr_comment := Some "Complete directly when the condition does not hold." |};
     {| tr_from := "mfa"; tr_to := "done"; tr_guard := None; tr_comment := None |}];
  j_subflows := None;
  j_subflow_definitions := None |}.

Definition materialize_conditional_mfa (params : Value) : Result Journey JourneyError :=
  match as_object params with
  | None => Err (TemplateParamType "/params" "params")
  | Some object =>
      let? journey_id := required_string object "journey_id" in
      let? condition := required_predicate object "mfa_condition" in
      let? mfa_comment := optional_string object "mfa_comment" in
      Ok (conditional_mfa journey_id condition
            (default "Step up when the condition holds." mfa_comment))
  end.

Definition materialize (invocation : TemplateInvocation) : Result Journey JourneyError :=
  if bool_decide (ti_template invocation = TEMPLATE_IDENTIFIER_FIRST_CONDITIONAL_MFA) then
    materialize_conditional_mfa (ti_params invocation)
  else Err (UnknownTemplate "/template" (ti_template invocation)).

End Template.

(** ** Shipped journeys *)

Record ShippedJourney : Type := { sj_id : string; sj_document : string }.

Inductive DocumentResolution : Type :=
| Override (document : string)
| Shipped (document : string)
| Absent.

Definition resolved_document (r : DocumentResolution) : option string :=
  match r with Override doc | Shipped doc => Some doc | Absent => None end.

Definition is_override (r : DocumentResolution) : bool :=
  match r with Override _ => true | _ => false end.

Section Shipped.
(** The registry [SHIPPED]: the documents are files embedded at build time. *)
Variable SHIPPED : list ShippedJourney.

Definition shipped_journey (id : string) : option ShippedJourney :=
  snd <$> list_find (λ entry, sj_id entry = id) SHIPPED.

Definition resolve (id : string) (environment_document : option string) : DocumentResolution :=
  match environment_document with
  | Some document => Override document
  | None =>
      match shipped_journey id with
      | Some entry => Shipped (sj_document entry)
      | None => Absent
      end
  end.
End Shipped.

(** ** Theorems *)

Section TemplateTheorems.
Context `{SerdePointer} `{!SerdePredicate}.

Lemma materialize_inv invocation journey : materialize invocation = Ok journey →
  ∃ object value condition id comment,
    as_object (ti_params invocation) = Some object ∧
    map_get object "mfa_condition" = Some value ∧ predicate_from_value value = Some condition ∧
    journey = conditional_mfa id condition comment.
Proof.
  unfold materialize, materialize_conditional_mfa, required_predicate.
  case_bool_decide; [|done]. destruct (as_object _) as [object|]; [|done].
  destruct (required_string _ _); [|done].
  destruct (map_get object "mfa_condition") as [raw|] eqn:Hv; [|done].
  destruct (predicate_from_value raw) eqn:Hp; [|done].
  destruct (optional_string _ _); [|done]. intros [= <-]. eauto 10.
Qed.

(** Every check but the one on predicates passes on the template body. *)
Lemma conditional_mfa_errors id condition comment :
  validate_errors (conditional_mfa id condition comment) RESERVED_IDS_REJECTED BUILTIN_ONLY_REJECTED
    = [] ↔
  check_predicates (j_steps (conditional_mfa id condition comment))
    (j_transitions (conditional_mfa id condition comment)) "" = [].
Proof.
  unfold validate_errors. rewrite (surjective_pairing (collect_step_ids _ _)).
  rewrite !app_nil. split; [tauto|]. intros Hp. rewrite Hp.
  split_and!; try reflexivity; vm_compute; reflexivity.
Qed.

Lemma typecheck_shallower predicate : ∀ base depth,
  typecheck_at_depth predicate base (S depth) = [] → typecheck_at_depth predicate base depth = [].
Proof.
  induction predicate as [| | |ops IH|ops IH|operand IH| |] using predicate_ind';
    intros base depth Hty; pose proof (typecheck_depth _ _ _ Hty) as Hd;
    assert ((MAX_PREDICATE_DEPTH <? depth) = false) as Hd'
      by (rewrite Nat.ltb_ge in Hd |- *; lia);
    simpl in Hty |- *; rewrite Hd in Hty; rewrite Hd'; try done.
  - rewrite typecheck_operands, typecheck_operands_nil_iff in Hty |- *.
    rewrite Forall_lookup in IH. eauto.
  - rewrite typecheck_operands, typecheck_operands_nil_iff in Hty |- *.
    rewrite Forall_lookup in IH. eauto.
  - eauto.
Qed.

Lemma conditional_mfa_valid id condition comment :
  validate (conditional_mfa id condition comment) = Ok () ↔
  typecheck_predicate (PNot condition) "" = [].
Proof.
  unfold validate. rewrite validate_inner_ok, <-validate_errors_nil, conditional_mfa_errors,
    check_predicates_nil. unfold predicates_ok. simpl. split.
  - intros [Ht _]. apply (Ht _ (PNot condition) ltac:(right; left)). reflexivity.
  - intros Hty. split; [|set_solver]. intros t guard.
    rewrite !elem_of_cons, elem_of_nil. intros [->|[->|[->|[]]]]; simpl; [| |done].
    + intros [= <-]. apply (typecheck_base_irrelevant _ "/operand").
      by apply typecheck_shallower.
    + intros [= <-]. exact Hty.
Qed.

(** A materialised template is accepted by the validator
    exactly when the negation of its condition type-checks, and its compiled
    table then routes every first factor to exactly one place: the second factor
    when the condition holds, the terminal otherwise. *)
Theorem materialized_template_routes invocation journey :
  materialize invocation = Ok journey →
  ∃ object value condition,
    as_object (ti_params invocation) = Some object ∧
    map_get object "mfa_condition" = Some value ∧ predicate_from_value value = Some condition ∧
    (validate journey = Ok () ↔ typecheck_predicate (PNot condition) "" = []) ∧
    ∀ compiled ctx, compile journey = Returned (Ok compiled) →
      choose_edge compiled "primary" ctx = Some (if sem condition ctx then "mfa" else "done").
Proof.
  intros (object & value & condition & id & comment & Ho & Hv & Hp & ->)%materialize_inv.
  exists object, value, condition. split_and!; [done..|apply conditional_mfa_valid|].
  intros compiled ctx Hc. unfold choose_edge.
  rewrite choose_edge_first by (intros ??; by eapply compiled_guards_typecheck).
  assert (edges compiled "primary" =
    [{| edge_to := "mfa"; edge_guard := Some condition |};
     {| edge_to := "done"; edge_guard := Some (PNot condition) |}]) as ->.
  { unfold compile, compile_inner in Hc.
    destruct (compose_inner _ _) as [[flat|]| |] eqn:Hcomp; [|done..]. injection Hc as Hl.
    apply compose_inner_call_free in Hcomp; [|apply Forall_forall; by repeat constructor].
    rewrite (lowered_edges _ _ Hl), Hcomp. reflexivity. }
  rewrite !filter_cons. unfold edge_holds. simpl. by destruct (sem condition ctx).
Qed.

(** An environment's own document always wins, whatever the
    product ships: the resolution of an override does not depend on the shipped
    registry, and without one the first shipped journey of the id is used. *)
Theorem environment_document_wins shipped shipped' id document :
  resolve shipped id (Some document) = resolve shipped' id (Some document) ∧
  resolved_document (resolve shipped id (Some document)) = Some document ∧
  (is_override (resolve shipped id None) = false) ∧
  (resolved_document (resolve shipped id None) = None ↔ ∀ entry, entry ∈ shipped → sj_id entry ≠ id).
Proof.
  split_and!; try done; unfold resolve, shipped_journey.
  - by destruct (list_find _ _) as [[]|].
  - destruct (list_find _ _) as [[i entry]|] eqn:Hf; simpl.
    + apply list_find_Some in Hf as (Hi & Hid & _). split; [done|].
      intros Hno. destruct (Hno entry); [by eapply list_elem_of_lookup_2|done].
    + apply list_find_None in Hf. rewrite Forall_forall in Hf. naive_solver.
Qed.

End TemplateTheorems.
