(* ===== verification/JourneySamples.v ===== *)
(** * Concrete journeys

    The parameters of the journey files instantiated with concrete functions
    (JSON numbers as integers, the pointer lookup of a top-level member), the
    documents of the crate's own fixtures, and the theorems of the journey files
    applied to them.  The last section holds three documents on which the code
    departs from its comments. *)

From Stdlib Require Import SpecFloat.
From S2P Require Import Prelude Walk Rank Json JourneyArtifact JourneyEval JourneyChecks.
From S2P Require Import JourneySubflow JourneyCompose JourneyCompile JourneyReplay.
From S2P Require Import JourneyTemplate.

(** ** Instances *)

Import JsonSamples.

(** RFC 6901 for the empty pointer and the pointer of a top-level member. *)
#[export] Instance sample_pointer : SerdePointer := {|
  value_pointer value pointer :=
    match strip_slash pointer, value with
    | Some name, VObject fields => snd ∘ snd <$> list_find (λ kv, kv.1 = name) fields
    | Some _, _ => None
    | None, _ => if bool_decide (pointer = "") then Some value else None
    end
|}.

(** ** Documents *)

Definition plain_step (id : string) (kind : StepKind) (node_group : option string) : Step := {|
  step_id := id; step_kind := kind; step_node_group := node_group; step_subflow := None;
  step_decision := None; step_factor := None; step_comment := None |}.

Definition transition (from to : string) (guard : option Predicate) : Transition := {|
  tr_from := from; tr_to := to; tr_guard := guard; tr_comment := None |}.

Definition journey (id entry : string) (steps : list Step) (transitions : list Transition)
    (subflows : option (list SubflowRef)) : Journey := {|
  j_schema_version := JOURNEY_SCHEMA_VERSION; j_id := id; j_engine_version := JOURNEY_ENGINE_VERSION;
  j_entry := entry; j_comment := None; j_steps := steps; j_transitions := transitions;
  j_subflows := subflows; j_subflow_definitions := None |}.

Definition mfa_required (value : bool) : Predicate :=
  PCmp {| field_source := SrcSignals; field_pointer := "/mfa_required" |} OpEq (LBool value).

(** The fixture [login_conditional_mfa]. *)
Definition login_conditional_mfa : Journey :=
  journey "login_conditional_mfa" "primary"
    [plain_step "primary" IdentifierPassword (Some "password");
     plain_step "mfa" MfaChallenge (Some "totp");
     plain_step "done" Terminal None]
    [transition "primary" "mfa" (Some (mfa_required true));
     transition "primary" "done" (Some (mfa_required false));
     transition "mfa" "done" None] None.

Definition call_step : Step := {|
  step_id := "call"; step_kind := SubflowCall; step_node_group := None;
  step_subflow := Some "step_up"; step_decision := None; step_factor := None; step_comment := None |}.

(** The fixture [journey_calling_builtin]. *)
Definition journey_calling_builtin (extra : list Transition) : Journey :=
  journey "login_step_up" "primary"
    [plain_step "primary" IdentifierPassword (Some "password"); call_step;
     plain_step "done" Terminal None]
    (transition "primary" "call" None :: transition "call" "done" None :: extra)
    (Some [{| ref_id := "step_up"; ref_source := Builtin BUILTIN_MFA_STEP_UP |}]).

(** What a run returned, or a default. *)
Definition ok_or {A E} (fallback : A) (r : Run (Result A E)) : A :=
  match r with Returned (Ok a) => a | _ => fallback end.

Definition is_ok {A E} (r : Run (Result A E)) : bool :=
  match r with Returned (Ok _) => true | _ => false end.

Lemma ok_or_eq {A E} (fallback : A) (r : Run (Result A E)) :
  is_ok r = true → r = Returned (Ok (ok_or fallback r)).
Proof. by destruct r as [[]| |]. Qed.

Definition error_of {A E} (r : Run (Result A E)) : option E :=
  match r with Returned (Err e) => Some e | _ => None end.

Lemma error_of_eq {A E} (r : Run (Result A E)) e : error_of r = Some e → r = Returned (Err e).
Proof. destruct r as [[]| |]; naive_solver. Qed.

Definition composed_calling_builtin : Journey :=
  ok_or login_conditional_mfa (compose (journey_calling_builtin [])).

Definition empty_table : CompiledJourney := {|
  cj_entry := ""; cj_steps := ∅; cj_transitions := ∅; cj_reachable := ∅ |}.

Definition conditional_mfa_table : CompiledJourney := ok_or empty_table (compile login_conditional_mfa).

Lemma validate_conditional_mfa : validate login_conditional_mfa = Ok ().
Proof. vm_compute. reflexivity. Qed.

Lemma compile_conditional_mfa : compile login_conditional_mfa = Returned (Ok conditional_mfa_table).
Proof. apply ok_or_eq. vm_compute. reflexivity. Qed.

Lemma compose_calling_builtin :
  compose (journey_calling_builtin []) = Returned (Ok composed_calling_builtin).
Proof. apply ok_or_eq. vm_compute. reflexivity. Qed.

(** ** The theorems on the fixtures *)

(** A context in which a second factor is required. *)
Definition mfa_context : EvalContext := {|
  ctx_flow := {| flow_step_id := "primary"; flow_method_tokens := ∅; flow_subject_handle := "usr_1";
                 flow_signals := signal_with SignalSet_new MfaRequired true |};
  ctx_subject_traits := VNull; ctx_subject_groups := ∅; ctx_subject_scopes := ∅;
  ctx_risk := {| risk_level := RiskLow; risk_score := 0 |} |}.

(** The same context with groups, scopes and a risk score. *)
Definition mfa_context_reserved : EvalContext := {|
  ctx_flow := ctx_flow mfa_context; ctx_subject_traits := VNull;
  ctx_subject_groups := {["admins"]}; ctx_subject_scopes := {["openid"]};
  ctx_risk := {| risk_level := RiskLow; risk_score := 7 |} |}.

Lemma composed_journey_spec_witness :
  drawn_from (journey_calling_builtin []) composed_calling_builtin.
Proof.
  refine (proj2 (proj2 (proj2 (composed_journey_spec _ BUILTIN_ONLY_REJECTED _ _)))).
  exact compose_calling_builtin.
Defined.

Lemma compose_call_free_witness :
  is_ok (compose_inner login_conditional_mfa BUILTIN_ONLY_REJECTED) = true.
Proof.
  rewrite (compose_call_free login_conditional_mfa BUILTIN_ONLY_REJECTED validate_conditional_mfa).
  - reflexivity.
  - apply Forall_forall. by repeat constructor.
  - vm_compute. discriminate.
Defined.

(** The working document of [journey_calling_builtin] and its only inlining. *)
Definition before_inlining : Journey := compose_start (journey_calling_builtin []).
Definition inlining_registry : gmap string Subflow := full_registry (journey_calling_builtin []).
Definition after_inlining : Journey :=
  default before_inlining (inline_one before_inlining 1 inlining_registry).
Definition normalized_call : Step := normalize_call (alias_to_key (journey_calling_builtin [])) call_step.

Lemma inlining_succeeds : inline_one before_inlining 1 inlining_registry = Some after_inlining.
Proof.
  unfold after_inlining. destruct (inline_one _ _ _) eqn:Hi; [done|]. exfalso.
  assert (bool_decide (is_Some (inline_one before_inlining 1 inlining_registry)) = true) as Hs
    by (vm_compute; reflexivity).
  rewrite Hi in Hs. done.
Qed.

Lemma inline_one_refines_witness :
  splices before_inlining normalized_call mfa_step_up after_inlining.
Proof.
  refine (proj1 (inline_one_refines before_inlining after_inlining 1 inlining_registry normalized_call
    BUILTIN_MFA_STEP_UP mfa_step_up ∅ true _ _ _ _ _ _ inlining_succeeds _)).
  - reflexivity.
  - vm_compute. reflexivity.
  - reflexivity.
  - apply (validate_subflow_fragment_nil mfa_step_up "" ∅ true). vm_compute. reflexivity.
  - compute_done.
  - apply Forall_forall. repeat (constructor; [split; compute_done|]).
    constructor.
  - compute_done.
Defined.

Lemma compiled_table_ok_witness : table_ok BUILTIN_ONLY_REJECTED conditional_mfa_table.
Proof. exact (compiled_table_ok _ _ _ compile_conditional_mfa). Defined.

Lemma routing_takes_first_true_edge_witness :
  choose_edge conditional_mfa_table "primary" mfa_context = Some "mfa".
Proof.
  rewrite (routing_takes_first_true_edge _ _ _ "primary" mfa_context compile_conditional_mfa).
  vm_compute. reflexivity.
Defined.

Lemma engine_run_subject_established_witness :
  ∃ id, id ∈ ["primary"] ∧ compiled_establishes conditional_mfa_table id.
Proof.
  apply (engine_run_subject_established _ _ _ ["primary"] "mfa"
    {| cs_kind := MfaChallenge; cs_node_group := Some "totp"; cs_decision := None; cs_factor := None |}
    compile_conditional_mfa).
  - apply (run_hop _ [] "primary" mfa_context); [apply run_start|vm_compute; reflexivity].
  - assert (∀ o : option CompiledStep, cs_kind <$> o = Some MfaChallenge →
      cs_node_group <$> o = Some (Some "totp") → cs_decision <$> o = Some None →
      cs_factor <$> o = Some None → o = Some {| cs_kind := MfaChallenge; cs_node_group := Some "totp";
        cs_decision := None; cs_factor := None |}) as Hstep
      by (by intros [[]|]; simpl; naive_solver).
    apply Hstep; vm_compute; reflexivity.
  - reflexivity.
Defined.

Lemma routing_reads_live_sources_witness :
  route_hop conditional_mfa_table "primary" mfa_context =
  route_hop conditional_mfa_table "primary" mfa_context_reserved.
Proof.
  by apply (routing_reads_live_sources _ _ _ "primary" mfa_context mfa_context_reserved
    compile_conditional_mfa).
Defined.

Lemma route_hop_bound_suffices_witness :
  route_hop conditional_mfa_table "primary" mfa_context =
  route_hop_loop 9 conditional_mfa_table mfa_context "primary".
Proof. apply route_hop_bound_suffices. vm_compute. discriminate. Defined.

(** The stepped-up golden path, with expectations to regenerate. *)
Definition stepped_up : JourneyTranscript := {|
  jt_journey_id := "login_conditional_mfa"; jt_engine_version := 2; jt_description := None;
  jt_steps :=
    [{| ts_comment := None; ts_signals := signals_of [SnPrimaryVerified; SnMfaRequired];
        ts_subject := None; ts_expect := ExpectStep "stale" |};
     {| ts_comment := None; ts_signals := signals_of []; ts_subject := None;
        ts_expect := ExpectStep "stale" |}] |}.

Definition stepped_up_regenerated : JourneyTranscript :=
  match regenerated stepped_up conditional_mfa_table with Ok t => t | Err _ => stepped_up end.

Lemma regenerate_stepped_up :
  regenerated stepped_up conditional_mfa_table = Ok stepped_up_regenerated.
Proof.
  unfold stepped_up_regenerated. destruct (regenerated _ _) eqn:Hr; [done|]. exfalso.
  assert (match regenerated stepped_up conditional_mfa_table with Ok _ => true | Err _ => false end = true)
    as Hok by (vm_compute; reflexivity).
  by rewrite Hr in Hok.
Qed.

Lemma regenerated_fixed_point_witness :
  regenerated stepped_up_regenerated conditional_mfa_table = Ok stepped_up_regenerated.
Proof. exact (proj1 (regenerated_fixed_point _ _ _ regenerate_stepped_up)). Defined.

(** Decoding of the one predicate the invocation below carries. *)
#[export] Instance sample_predicates : SerdePredicate := {|
  predicate_from_value value :=
    match value with VBool value => Some (mfa_required value) | _ => None end
|}.

Definition sample_invocation : TemplateInvocation := {|
  ti_template := TEMPLATE_IDENTIFIER_FIRST_CONDITIONAL_MFA;
  ti_params := VObject [("journey_id", VString "login"); ("mfa_condition", VBool true)];
  ti_comment := None |}.

Lemma materialize_sample : materialize sample_invocation =
  Ok (conditional_mfa "login" (mfa_required true) "Step up when the condition holds.").
Proof. vm_compute. reflexivity. Qed.

Lemma materialized_template_routes_witness :
  ∃ object value condition,
    as_object (ti_params sample_invocation) = Some object ∧
    map_get object "mfa_condition" = Some value ∧ predicate_from_value value = Some condition ∧
    (validate (conditional_mfa "login" (mfa_required true) "Step up when the condition holds.") = Ok () ↔
     typecheck_predicate (PNot condition) "" = []).
Proof.
  destruct (materialized_template_routes sample_invocation
    (conditional_mfa "login" (mfa_required true) "Step up when the condition holds.") materialize_sample)
    as (object & value & condition & Ho & Hv & Hp & Hvalid & _).
  by exists object, value, condition.
Defined.

Lemma typechecked_predicate_evaluates_witness :
  evaluate (mfa_required true) mfa_context = Ok true.
Proof.
  rewrite (typechecked_predicate_evaluates (mfa_required true) "" mfa_context) by (vm_compute; reflexivity).
  vm_compute. reflexivity.
Defined.

Lemma typechecked_cmp_is_well_typed_witness :
  ∃ scalar, resolve_scalar mfa_context
    {| field_source := SrcFlow; field_pointer := "/step_id" |} = Scalar scalar ∧
    (LString "mfa" ≠ LNull → same_type scalar (LString "mfa")) ∧
    (is_ordering OpLt = true → ∃ ordering, typed_ordering scalar (LString "mfa") = Some ordering).
Proof.
  apply (typechecked_cmp_is_well_typed _ OpLt (LString "mfa") "" mfa_context);
    [vm_compute; reflexivity|discriminate].
Defined.

Lemma comparison_operators_coherent_witness :
  eval_cmp mfa_context {| field_source := SrcFlow; field_pointer := "/step_id" |} OpLe (LString "zebra")
  = negb (eval_cmp mfa_context {| field_source := SrcFlow; field_pointer := "/step_id" |} OpGt
            (LString "zebra")).
Proof.
  refine (proj2 (proj2 (proj2 (proj2
    (proj2 (comparison_operators_coherent mfa_context
      {| field_source := SrcFlow; field_pointer := "/step_id" |} (LString "zebra"))
      (RStr "primary") Lt _ _))))); reflexivity.
Defined.

Lemma not_live_sources_refused_witness :
  typecheck_cmp {| field_source := SrcRisk; field_pointer := "/score" |} OpLt (LNumber (5%Z : Number)) "" ≠ [].
Proof.
  refine (proj1 (proj2 (not_live_sources_refused
    {| field_source := SrcRisk; field_pointer := "/score" |} (Group "g") OpLt
    (LNumber (5%Z : Number)) [] "") _)). reflexivity.
Defined.

(** ** Departures from the comments *)

(** A call step with an edge to itself is accepted by the validator, but its
    composition grafts that edge with the id of the call, which no longer exists,
    and the composed document is refused. *)
Lemma self_loop_call_never_composes :
  let doc := journey_calling_builtin [transition "call" "call" (Some (mfa_required true))] in
  validate doc = Ok () ∧
  compose doc = Returned (Err [DanglingTransition "/transitions/2/to" "call"]).
Proof. split; [|apply error_of_eq]; vm_compute; reflexivity. Qed.

(** Two decision steps that route to each other under a guard that always holds
    compile (a terminal is reachable in the graph), but the in-call routing of
    the compiled table does not settle. *)
Definition decision_cycle : Journey :=
  journey "decision_cycle" "primary"
    [plain_step "primary" IdentifierPassword (Some "password");
     plain_step "left" Decision_ None; plain_step "right" Decision_ None;
     plain_step "done" Terminal None]
    [transition "primary" "left" None; transition "left" "right" None;
     transition "right" "left" (Some PAlways); transition "right" "done" None] None.

Lemma compiled_table_may_not_settle :
  ∃ compiled, compile decision_cycle = Returned (Ok compiled) ∧
    route_hop compiled "primary" EvalContext_default = HopUnsettled.
Proof.
  exists (ok_or empty_table (compile decision_cycle)).
  split; [apply ok_or_eq|]; vm_compute; reflexivity.
Qed.

(** An incomplete transcript regenerates, and the result does not replay to a
    match. *)
Lemma regenerated_need_not_match compiled :
  let transcript := {| jt_journey_id := "login_conditional_mfa"; jt_engine_version := 1;
                       jt_description := None; jt_steps := [] |} in
  regenerated transcript compiled = Ok transcript ∧ is_match (run compiled transcript) = false.
Proof. done. Qed.
