(* ===== verification/Bytes.v ===== *)
(** * Bytes and positional notation

    Bytes are integers between 0 and 255; a byte string is a list of them.
    Facts about single bytes are checked on all 256 values.  [groups] is the
    loop that splits an integer into little-endian groups of bits; it is shared
    by the DER length and the base-128 encoders. *)

From S2P Require Import Prelude.

Open Scope Z_scope.

Definition is_byte (b : Z) : Prop := 0 ≤ b < 256.

Abbreviation bytes := (list Z) (only parsing).

(** Reflection on the 256 bytes. *)
Lemma byte_forall (P : Z → bool) :
  forallb P (Z.of_nat <$> seq 0 256) = true → ∀ b, is_byte b → P b = true.
Proof.
  intros Hall b Hb. rewrite forallb_forall in Hall. apply Hall, list_elem_of_In.
  apply list_elem_of_fmap. exists (Z.to_nat b). unfold is_byte in Hb.
  rewrite elem_of_seq. lia.
Qed.

(** Prove a boolean fact about a byte by checking every byte. *)
Ltac by_bytes P b := apply (byte_forall P); [vm_compute; reflexivity|unfold is_byte in *; lia].

Lemma low7 b : is_byte b → (Z.land b 0x80 =? 0) = (b <? 128).
Proof.
  intros Hb. apply Bool.eqb_prop.
  by_bytes (λ b, Bool.eqb (Z.land b 0x80 =? 0) (b <? 128)) b.
Qed.

Lemma mask7 b : is_byte b → Z.land b 0x7F = b mod 128.
Proof. intros Hb. apply Z.eqb_eq. by_bytes (λ b, Z.land b 0x7F =? b mod 128) b. Qed.

Lemma set_high g : 0 ≤ g < 128 → Z.lor g 0x80 = 128 + g.
Proof.
  intros Hg. assert (is_byte g) as Hb by (unfold is_byte; lia).
  apply Z.eqb_eq. revert g Hb Hg. intros g Hb Hg.
  assert ((implb (g <? 128) (Z.lor g 0x80 =? 128 + g)) = true) as H.
  { by_bytes (λ g, implb (g <? 128) (Z.lor g 0x80 =? 128 + g)) g. }
  rewrite (proj2 (Z.ltb_lt g 128)) in H by lia. done.
Qed.

(** ** Positional notation *)

(** The value of a big-endian digit string. *)
Definition value_be (base : Z) (acc : Z) (digits : list Z) : Z :=
  foldl (λ acc d, acc * base + d) acc digits.

(** [while v > 0 { push(v & mask); v >>= width }]. *)
Fixpoint groups (width : Z) (fuel : nat) (v : Z) : list Z :=
  match fuel with
  | O => []
  | S n => if v <=? 0 then [] else Z.land v (Z.ones width) :: groups width n (Z.shiftr v width)
  end.

Section Positional.
Variable width : Z.
Hypothesis width_pos : 0 < width.
Let base := 2 ^ width.

Lemma base_gt_1 : 1 < base.
Proof. unfold base. apply Z.pow_gt_1; lia. Qed.

Lemma groups_S n v : 0 < v →
  groups width (S n) v = v mod base :: groups width n (v / base).
Proof.
  intros Hv. simpl. destruct (v <=? 0) eqn:Hle; [lia|].
  by rewrite Z.land_ones, Z.shiftr_div_pow2 by lia.
Qed.

Lemma groups_0 n : groups width n 0 = [].
Proof. by destruct n. Qed.

Lemma value_be_app acc l1 l2 : value_be base acc (l1 ++ l2) = value_be base (value_be base acc l1) l2.
Proof. unfold value_be. apply foldl_app. Qed.

Lemma value_be_snoc acc l d : value_be base acc (l ++ [d]) = value_be base acc l * base + d.
Proof. by rewrite value_be_app. Qed.

Lemma value_be_ge acc l : 0 ≤ acc → Forall (λ d, 0 ≤ d < base) l → acc ≤ value_be base acc l.
Proof.
  intros Hacc Hl. revert acc Hacc. induction Hl as [|d l Hd _ IH]; intros acc Hacc; simpl; [lia|].
  pose proof base_gt_1. etrans; [|apply IH]; nia.
Qed.

(** Reading what was split gives the integer back. *)
Lemma value_groups n : ∀ v, 0 ≤ v < base ^ Z.of_nat n →
  value_be base 0 (reverse (groups width n v)) = v.
Proof.
  pose proof base_gt_1 as Hb.
  induction n as [|n IH]; intros v Hv; [simpl in *; lia|].
  destruct (decide (v = 0)) as [->|Hne]; [done|].
  rewrite groups_S by lia. rewrite reverse_cons, value_be_app, IH.
  - simpl. pose proof (Z.div_mod v base). lia.
  - rewrite Nat2Z.inj_succ, Z.pow_succ_r in Hv by lia.
    split; [apply Z.div_pos; lia|]. apply Z.div_lt_upper_bound; lia.
Qed.

Lemma groups_range n : ∀ v, Forall (λ d, 0 ≤ d < base) (groups width n v).
Proof.
  pose proof base_gt_1 as Hb. induction n as [|n IH]; intros v; [constructor|].
  destruct (decide (0 < v)) as [Hv|Hv].
  - rewrite groups_S by done. constructor; [apply Z.mod_pos_bound; lia|apply IH].
  - simpl. destruct (v <=? 0) eqn:?; [constructor|lia].
Qed.

(** The most significant group is not zero. *)
Lemma groups_head n : ∀ v, 0 ≤ v < base ^ Z.of_nat n → head (reverse (groups width n v)) ≠ Some 0.
Proof.
  pose proof base_gt_1 as Hb.
  induction n as [|n IH]; intros v Hv; [done|].
  destruct (decide (v = 0)) as [->|Hne]; [done|].
  rewrite groups_S, reverse_cons by lia.
  assert (0 ≤ v / base < base ^ Z.of_nat n) as Hq.
  { rewrite Nat2Z.inj_succ, Z.pow_succ_r in Hv by lia.
    split; [apply Z.div_pos; lia|]. apply Z.div_lt_upper_bound; lia. }
  specialize (IH (v / base) Hq).
  destruct (reverse (groups width n (v / base))) as [|d l] eqn:Hr; [|done].
  simpl. intros [= Hm]. assert (v / base = 0) as Hz; [|pose proof (Z.div_mod v base); lia].
  rewrite <-(value_groups n (v / base)) by done. by rewrite Hr.
Qed.

(** Splitting what was read gives the digits back, unless they had a leading zero. *)
Lemma groups_value n : ∀ l, Forall (λ d, 0 ≤ d < base) l → (length l ≤ n)%nat → head l ≠ Some 0 →
  groups width n (value_be base 0 l) = reverse l.
Proof.
  pose proof base_gt_1 as Hb.
  induction n as [|n IH]; intros l Hl Hlen Hh.
  { destruct l; [done|simpl in Hlen; lia]. }
  destruct l as [|d l _] using rev_ind; [done|].
  apply Forall_app in Hl as [Hl [Hd _]%Forall_cons_1].
  rewrite length_app in Hlen. simpl in Hlen.
  rewrite value_be_snoc.
  assert (0 ≤ value_be base 0 l) as Hge by (apply value_be_ge; [lia|done]).
  assert (head l ≠ Some 0) as Hh' by (destruct l; [done|exact Hh]).
  assert (0 < value_be base 0 l * base + d) as Hpos.
  { destruct l as [|d0 l0]; [simpl in *|].
    - assert (d ≠ 0) by congruence. lia.
    - assert (0 < value_be base 0 (d0 :: l0)); [|nia].
      simpl. apply Forall_cons_1 in Hl as [Hd0 Hl0].
      assert (d0 ≠ 0) by (simpl in Hh; congruence).
      pose proof (value_be_ge (0 * base + d0) l0 ltac:(lia) Hl0). lia. }
  rewrite groups_S by done.
  rewrite (Z.add_comm (value_be base 0 l * base)), Z.mod_add, Z.mod_small, Z.div_add, Z.div_small by lia.
  rewrite Z.add_0_l, IH, reverse_app by (done || lia). done.
Qed.

(** A digit string with a leading digit other than zero is large. *)
Lemma value_be_lower l : Forall (λ d, 0 ≤ d < base) l → head l ≠ Some 0 → l ≠ [] →
  base ^ (Z.of_nat (length l) - 1) ≤ value_be base 0 l.
Proof.
  pose proof base_gt_1 as Hb.
  induction l as [|d l IH] using rev_ind; [done|]. intros Hl Hh _.
  apply Forall_app in Hl as [Hl [Hd _]%Forall_cons_1].
  rewrite value_be_snoc, length_app. simpl length.
  destruct l as [|d0 l0]; [simpl in *; assert (d ≠ 0) by congruence; lia|].
  specialize (IH Hl Hh ltac:(done)). set (l := d0 :: l0) in *.
  replace (Z.of_nat (length l + 1) - 1) with (Z.succ (Z.of_nat (length l) - 1)) by lia.
  rewrite Z.pow_succ_r by (unfold l; simpl; lia). nia.
Qed.

Lemma groups_length n v : (length (groups width n v) ≤ n)%nat.
Proof.
  revert v. induction n as [|n IH]; intros v; simpl; [done|]. case_match; simpl; [lia|].
  specialize (IH (Z.shiftr v width)). lia.
Qed.

End Positional.

#[global] Arguments groups : simpl never.
