(* ===== verification/Der.v ===== *)
(** * The DER reader and writer (crates/ironauth-der/src/lib.rs and write.rs)

    Tag-length-value elements, the reading cursor, object identifiers and
    integers.  A [usize] and a [u64] have 64 bits.  The theorems: the reader
    inverts the writer, and it accepts no other encoding (an accepted element is
    the writer's encoding of what was read), for elements and for object
    identifiers. *)

From S2P Require Import Prelude Bytes.

Open Scope Z_scope.

Inductive DerError : Type := Truncated | BadLength | UnexpectedTag | BadValue.

(** ** Tags *)

Definition tag_BOOLEAN : Z := 0x01.
Definition tag_INTEGER : Z := 0x02.
Definition tag_BIT_STRING : Z := 0x03.
Definition tag_OCTET_STRING : Z := 0x04.
Definition tag_OID : Z := 0x06.
Definition tag_UTF8_STRING : Z := 0x0C.
Definition tag_PRINTABLE_STRING : Z := 0x13.
Definition tag_IA5_STRING : Z := 0x16.
Definition tag_UTC_TIME : Z := 0x17.
Definition tag_GENERALIZED_TIME : Z := 0x18.
Definition tag_SEQUENCE : Z := 0x30.
Definition tag_SET : Z := 0x31.
Definition tag_CONTEXT_CONSTRUCTED : Z := 0xA0.

(** ** Checked 64-bit arithmetic *)

Definition U64_LIMIT : Z := 2 ^ 64.

Definition checked_mul (a b : Z) : option Z :=
  if a * b <? U64_LIMIT then Some (a * b) else None.

Definition checked_add (a b : Z) : option Z :=
  if a + b <? U64_LIMIT then Some (a + b) else None.

(** [a * b + c] with both operations checked. *)
Definition checked_shift_in (acc base digit : Z) : option Z :=
  checked_mul acc base ≫= λ shifted, checked_add shifted digit.

(** ** The reader *)

Definition split_at_checked (slice : bytes) (mid : Z) : Result (bytes * bytes) DerError :=
  if Z.of_nat (length slice) <? mid then Err Truncated
  else Ok (take (Z.to_nat mid) slice, drop (Z.to_nat mid) slice).

(** [size_of::<usize>()]. *)
Definition USIZE_BYTES : Z := 8.

(** The loop that accumulates a long-form length. *)
Fixpoint length_loop (len_bytes : bytes) (length : Z) : Result Z DerError :=
  match len_bytes with
  | [] => Ok length
  | b :: rest =>
      match checked_shift_in length 256 b with
      | Some length' => length_loop rest length'
      | None => Err BadLength
      end
  end.

(** The length octets: the length and what follows them. *)
Definition read_length (after_tag : bytes) : Result (Z * bytes) DerError :=
  match after_tag with
  | [] => Err Truncated
  | len_byte :: after_len_byte =>
      if Z.land len_byte 0x80 =? 0 then Ok (len_byte, after_len_byte)
      else
        let num_bytes := Z.land len_byte 0x7F in
        if (num_bytes =? 0) || (USIZE_BYTES <? num_bytes) then Err BadLength else
        let? (len_bytes, after) := split_at_checked after_len_byte num_bytes in
        if bool_decide (head len_bytes = Some 0) then Err BadLength else
        let? length := length_loop len_bytes 0 in
        if length <? 0x80 then Err BadLength else Ok (length, after)
  end.

Definition read_tlv (bs : bytes) : Result (Z * bytes * bytes) DerError :=
  match bs with
  | [] => Err Truncated
  | tag :: after_tag =>
      if Z.land tag 0x1F =? 0x1F then Err UnexpectedTag else
      let? (length, after_length) := read_length after_tag in
      let? (contents, rest) := split_at_checked after_length length in
      Ok (tag, contents, rest)
  end.

(** A cursor is the bytes it has not read; a method that advances it returns the
    new cursor beside its result. *)
Abbreviation Der := bytes (only parsing).

Definition Der_is_empty (der : Der) : bool := bool_decide (der = []).

Definition take_tag (der : Der) (expected : Z) : Result (bytes * Der) DerError :=
  let? (tag, contents, rest) := read_tlv der in
  if negb (tag =? expected) then Err UnexpectedTag else Ok (contents, rest).

Definition take_any (der : Der) : Result (Z * bytes * Der) DerError :=
  let? (tag, contents, rest) := read_tlv der in Ok (tag, contents, rest).

Definition peek_tag (der : Der) : option Z := head der.

Definition take_element (der : Der) : Result (Z * bytes * bytes * Der) DerError :=
  let? (tag, contents, rest) := read_tlv der in
  let consumed := (length der - length rest)%nat in
  Ok (tag, take consumed der, contents, rest).

Definition take_sequence (der : Der) : Result (Der * Der) DerError :=
  let? (contents, rest) := take_tag der tag_SEQUENCE in Ok (contents, rest).

(** ** The writer *)

(** [len]: the minimal length octets.  A [usize] has at most eight groups. *)
Definition len (value : Z) : bytes :=
  if value <? 0x80 then [value]
  else
    let bytes := reverse (groups 8 8 value) in
    Z.lor 0x80 (Z.of_nat (length bytes)) :: bytes.

Definition tlv (tag_byte : Z) (contents : bytes) : bytes :=
  tag_byte :: len (Z.of_nat (length contents)) ++ contents.

Definition seq_ (elements : list bytes) : bytes := tlv tag_SEQUENCE (concat elements).

Definition set_ (elements : list bytes) : bytes := tlv tag_SET (concat elements).

Definition bit_string (bs : bytes) : bytes := tlv tag_BIT_STRING (0 :: bs).

Definition octet_string (bs : bytes) : bytes := tlv tag_OCTET_STRING bs.

Definition context (number : Z) (contents : bytes) : bytes :=
  tlv (Z.lor 0xA0 (Z.land number 0x1F)) contents.

(** *** Integers *)

(** [while bytes.len() > 1 && bytes[0] == 0 { bytes.remove(0); }]. *)
Fixpoint strip_zeros (bs : bytes) : bytes :=
  match bs with
  | 0 :: ((_ :: _) as rest) => strip_zeros rest
  | _ => bs
  end.

Definition uint_body (magnitude : bytes) : bytes :=
  let stripped := strip_zeros magnitude in
  let signed :=
    match stripped with
    | first :: _ => if negb (Z.land first 0x80 =? 0) then 0 :: stripped else stripped
    | [] => stripped
    end in
  match signed with [] => [0] | _ => signed end.

Definition uint_bytes (magnitude : bytes) : bytes := tlv tag_INTEGER (uint_body magnitude).

(** [u64::to_be_bytes]. *)
Definition to_be_bytes (value : Z) : bytes :=
  (λ i, Z.land (Z.shiftr value (8 * (7 - Z.of_nat i))) 0xFF) <$> seq 0 8.

Definition uint (value : Z) : bytes := uint_bytes (to_be_bytes value).

(** *** Object identifiers *)

Definition base128 (value : Z) : bytes :=
  reverse (Z.land value 0x7F :: ((λ g, Z.lor g 0x80) <$> groups 7 9 (Z.shiftr value 7))).

(** The body of [oid]: the product and the sum wrap at 64 bits (a release build);
    [None] is the panic of the assertion. *)
Definition oid_body (arcs : list Z) : option bytes :=
  match arcs with
  | a :: b :: rest =>
      Some (base128 (((a * 40) mod U64_LIMIT + b) mod U64_LIMIT) ++ concat (base128 <$> rest))
  | _ => None
  end.

Definition oid (arcs : list Z) : option bytes := tlv tag_OID <$> oid_body arcs.

(** The loop of [oid_arcs]: the subidentifiers pushed from here on. *)
Fixpoint oid_loop (contents : bytes) (value : Z) (pending : bool) : Result (list Z) DerError :=
  match contents with
  | [] => if pending then Err BadValue else Ok []
  | b :: rest =>
      if negb pending && (b =? 0x80) then Err BadValue else
      match checked_shift_in value 128 (Z.land b 0x7F) with
      | None => Err BadValue
      | Some value' =>
          if Z.land b 0x80 =? 0 then
            let? subidentifiers := oid_loop rest 0 false in Ok (value' :: subidentifiers)
          else oid_loop rest value' true
      end
  end.

(** The first two arcs of the first subidentifier. *)
Definition split_first_arc (first : Z) : list Z :=
  if first <=? 39 then [0; first] else if first <=? 79 then [1; first - 40] else [2; first - 80].

Definition oid_arcs (contents : bytes) : Result (list Z) DerError :=
  let? subidentifiers := oid_loop contents 0 false in
  match subidentifiers with
  | [] => Err BadValue
  | first :: rest => Ok (split_first_arc first ++ rest)
  end.

(** *** Names *)

Definition utf8_string (text : string) : bytes :=
  tlv tag_UTF8_STRING ((λ c, Z.of_N (N_of_ascii c)) <$> String.list_ascii_of_string text).

Definition name_common (common_name : string) : option bytes :=
  (λ o, seq_ [set_ [seq_ [o; utf8_string common_name]]]) <$> oid [2; 5; 4; 3].

(** ** Lengths *)

Lemma checked_shift_in_spec acc base digit : 0 ≤ acc → 0 ≤ base → 0 ≤ digit →
  checked_shift_in acc base digit =
  if acc * base + digit <? U64_LIMIT then Some (acc * base + digit) else None.
Proof.
  intros. unfold checked_shift_in, checked_mul, checked_add.
  destruct (acc * base <? U64_LIMIT) eqn:Hm; simpl; [done|].
  destruct (acc * base + digit <? U64_LIMIT) eqn:Ha; [lia|done].
Qed.

Lemma length_loop_spec l : ∀ acc, 0 ≤ acc < U64_LIMIT → Forall is_byte l →
  length_loop l acc =
  if value_be 256 acc l <? U64_LIMIT then Ok (value_be 256 acc l) else Err BadLength.
Proof.
  induction l as [|b l IH]; intros acc Hacc Hl; simpl.
  { by rewrite (proj2 (Z.ltb_lt _ _)) by lia. }
  apply Forall_cons_1 in Hl as [Hb Hl]. unfold is_byte in Hb.
  rewrite checked_shift_in_spec by lia.
  destruct (acc * 256 + b <? U64_LIMIT) eqn:Hlt; [apply IH; [lia|done]|].
  pose proof (value_be_ge 8 ltac:(lia) (acc * 256 + b) l ltac:(lia) Hl) as Hge.
  change (2 ^ 8) with 256 in Hge. destruct (value_be 256 _ l <? U64_LIMIT) eqn:?; [lia|done].
Qed.

Lemma split_at_app (a b : bytes) : split_at_checked (a ++ b) (Z.of_nat (length a)) = Ok (a, b).
Proof.
  unfold split_at_checked. rewrite length_app, (proj2 (Z.ltb_ge _ _)) by lia.
  by rewrite Nat2Z.id, take_app_length, drop_app_length.
Qed.

Lemma split_at_inv slice mid a b : 0 ≤ mid → split_at_checked slice mid = Ok (a, b) →
  slice = a ++ b ∧ Z.of_nat (length a) = mid.
Proof.
  unfold split_at_checked. intros Hmid. destruct (_ <? mid) eqn:Hlt; [done|]. intros [= <- <-].
  rewrite take_drop, length_take. split; [done|lia].
Qed.

(** A byte with the high bit set, as a count of length octets. *)
Lemma long_form_byte n : 0 < n ≤ 8 → 
  (Z.land (Z.lor 0x80 n) 0x80 =? 0) = false ∧ Z.land (Z.lor 0x80 n) 0x7F = n.
Proof.
  intros Hn. rewrite (Z.lor_comm 0x80), set_high by lia.
  rewrite low7, mask7 by (unfold is_byte; lia). split; [lia|].
  replace (128 + n) with (n + 1 * 128) by lia. rewrite Z.mod_add, Z.mod_small; lia.
Qed.

Lemma len_groups value : 0x80 ≤ value < U64_LIMIT →
  let l := reverse (groups 8 8 value) in
  value_be 256 0 l = value ∧ Forall is_byte l ∧ head l ≠ Some 0 ∧ (0 < length l ≤ 8)%nat.
Proof.
  intros Hv l. assert (0 ≤ value < (2 ^ 8) ^ Z.of_nat 8) as Hr by (unfold U64_LIMIT in Hv; lia).
  pose proof (value_groups 8 ltac:(lia) 8 value Hr) as Hval. change (2 ^ 8) with 256 in Hval.
  split; [exact Hval|]. split; [|split; [by apply (groups_head 8 ltac:(lia))|]].
  - apply Forall_reverse. apply (groups_range 8 ltac:(lia)).
  - unfold l. rewrite length_reverse. split; [|apply groups_length].
    destruct (groups 8 8 value); [|simpl; lia]. simpl in Hval. lia.
Qed.

(** The reader inverts the length octets. *)
Lemma read_length_len value rest : 0 ≤ value < U64_LIMIT →
  read_length (len value ++ rest) = Ok (value, rest).
Proof.
  intros Hv. unfold len. destruct (value <? 0x80) eqn:Hs; simpl.
  { rewrite low7, (proj2 (Z.ltb_lt _ _)) by (unfold is_byte; lia). done. }
  destruct (len_groups value ltac:(lia)) as (Hval & Hbytes & Hhead & Hlen).
  set (l := reverse (groups 8 8 value)) in *.
  destruct (long_form_byte (Z.of_nat (length l)) ltac:(lia)) as [-> ->].
  unfold USIZE_BYTES. rewrite (proj2 (Z.eqb_neq _ 0)), (proj2 (Z.ltb_ge _ _)) by lia. simpl.
  rewrite split_at_app, bool_decide_eq_false_2 by done.
  rewrite length_loop_spec by (done || (unfold U64_LIMIT; lia)).
  rewrite Hval, (proj2 (Z.ltb_lt _ _)), Hs by lia. done.
Qed.

(** The reader accepts only the minimal length octets. *)
Lemma read_length_canonical bs value rest : Forall is_byte bs →
  read_length bs = Ok (value, rest) → bs = len value ++ rest ∧ 0 ≤ value < U64_LIMIT.
Proof.
  destruct bs as [|len_byte after]; [done|]. intros [Hb Hafter]%Forall_cons_1. simpl.
  rewrite (low7 _ Hb), (mask7 _ Hb). unfold is_byte in Hb.
  destruct (len_byte <? 128) eqn:Hs.
  { intros [= -> ->]. unfold len. rewrite Hs. unfold U64_LIMIT. split; [done|lia]. }
  assert (len_byte mod 128 = len_byte - 128) as ->.
  { replace len_byte with ((len_byte - 128) + 1 * 128) at 1 by lia.
    rewrite Z.mod_add, Z.mod_small; lia. }
  unfold USIZE_BYTES.
  destruct (_ || _) eqn:Hn; [done|]. apply orb_false_iff in Hn as [Hn0 Hn8].
  destruct (split_at_checked after _) as [[l after']|] eqn:Hsplit; [|done].
  apply split_at_inv in Hsplit as [-> Hl]; [|lia].
  case_bool_decide as Hhead; [done|].
  apply Forall_app in Hafter as [Hbytes _].
  rewrite length_loop_spec by (done || (unfold U64_LIMIT; lia)).
  destruct (value_be 256 0 l <? U64_LIMIT) eqn:Hlt; [|done].
  destruct (value_be 256 0 l <? 0x80) eqn:Hmin; [done|]. intros [= <- <-].
  split; [|split; lia]. unfold len. rewrite Hmin.
  pose proof (groups_value 8 ltac:(lia) 8 l Hbytes ltac:(lia) Hhead) as Hg.
  change (2 ^ 8) with 256 in Hg. rewrite Hg, reverse_involutive. simpl.
  f_equal. rewrite (Z.lor_comm 0x80), set_high by lia. lia.
Qed.

(** ** Elements *)

Lemma read_tlv_tlv tag contents rest :
  Z.land tag 0x1F ≠ 0x1F → Z.of_nat (length contents) < U64_LIMIT →
  read_tlv (tlv tag contents ++ rest) = Ok (tag, contents, rest).
Proof.
  intros Htag Hlen. unfold read_tlv, tlv. simpl. rewrite (proj2 (Z.eqb_neq _ _) Htag).
  rewrite <-app_assoc, read_length_len by lia. by rewrite split_at_app.
Qed.

Lemma read_tlv_inv bs tag contents rest : Forall is_byte bs →
  read_tlv bs = Ok (tag, contents, rest) →
  bs = tlv tag contents ++ rest ∧ Z.land tag 0x1F ≠ 0x1F ∧ Z.of_nat (length contents) < U64_LIMIT.
Proof.
  destruct bs as [|t after]; [done|]. intros [_ Hb]%Forall_cons_1. simpl.
  destruct (Z.land t 0x1F =? 0x1F) eqn:Ht; [done|].
  destruct (read_length after) as [[length after']|] eqn:Hl; [|done].
  apply read_length_canonical in Hl as [-> Hlen]; [|done].
  destruct (split_at_checked after' length) as [[c r]|] eqn:Hs; [|done].
  apply split_at_inv in Hs as [-> <-]; [|lia]. intros [= <- <- <-].
  unfold tlv. simpl. rewrite <-app_assoc. split; [done|]. split; lia.
Qed.

(** C39 (roundtrip): DER admits exactly one encoding of an element.  On any byte
    string the reader returns an element exactly when the string is the writer's
    encoding of that element followed by the rest, for a tag below the high-tag
    form and contents shorter than 2^64. *)
Theorem read_tlv_iff_tlv bs tag contents rest :
  Forall is_byte bs →
  read_tlv bs = Ok (tag, contents, rest) ↔
  bs = tlv tag contents ++ rest ∧ Z.land tag 0x1F ≠ 0x1F ∧ Z.of_nat (length contents) < U64_LIMIT.
Proof.
  intros Hb. split; [by apply read_tlv_inv|]. intros (-> & Ht & Hl). by apply read_tlv_tlv.
Qed.

Lemma read_tlv_iff_tlv_witness :
  read_tlv [0x04; 0x02; 0xAA; 0xBB; 0x05] = Ok (0x04, [0xAA; 0xBB], [0x05]).
Proof.
  apply read_tlv_iff_tlv; [repeat constructor; unfold is_byte; lia|]. vm_compute. by split_and!.
Defined.

(** The cursor methods read exactly one element.  Reading an
    element hands out its complete encoding, tag and length included, which with
    the remaining cursor makes up the input; a sequence is entered exactly when
    the next element is one. *)
Theorem cursor_reads_one_element der tag full contents rest :
  Forall is_byte der →
  (take_element der = Ok (tag, full, contents, rest) ↔
   full = tlv tag contents ∧ der = full ++ rest ∧
   Z.land tag 0x1F ≠ 0x1F ∧ Z.of_nat (length contents) < U64_LIMIT) ∧
  (take_any der = Ok (tag, contents, rest) ↔ read_tlv der = Ok (tag, contents, rest)) ∧
  (take_tag der tag = Ok (contents, rest) ↔ read_tlv der = Ok (tag, contents, rest)) ∧
  (take_sequence der = Ok (contents, rest) ↔ read_tlv der = Ok (tag_SEQUENCE, contents, rest)).
Proof.
  intros Hb. unfold take_element, take_any, take_sequence, take_tag. split_and!.
  - split.
    + destruct (read_tlv der) as [[[t c] r]|] eqn:Hr; [|done]. intros [= <- <- <- <-].
      apply read_tlv_inv in Hr as (-> & Ht & Hl); [|done]. rewrite length_app.
      replace (length (tlv t c) + length r - length r)%nat with (length (tlv t c)) by lia.
      by rewrite take_app_length.
    + intros (-> & -> & Ht & Hl). rewrite read_tlv_tlv by done. rewrite length_app.
      replace (length (tlv tag contents) + length rest - length rest)%nat
        with (length (tlv tag contents)) by lia.
      by rewrite take_app_length.
  - by destruct (read_tlv der) as [[[t c] r]|].
  - destruct (read_tlv der) as [[[t c] r]|]; [|naive_solver].
    destruct (t =? tag) eqn:He; simpl; [apply Z.eqb_eq in He|apply Z.eqb_neq in He]; naive_solver.
  - destruct (read_tlv der) as [[[t c] r]|]; [|naive_solver].
    destruct (t =? tag_SEQUENCE) eqn:He; simpl; [apply Z.eqb_eq in He|apply Z.eqb_neq in He];
      naive_solver.
Qed.

Lemma cursor_reads_one_element_witness :
  take_element [0x30; 0x01; 0x00; 0x05] = Ok (0x30, [0x30; 0x01; 0x00], [0x00], [0x05]).
Proof.
  refine (proj2 (proj1 (cursor_reads_one_element _ _ _ _ _ _)) _).
  - repeat constructor; unfold is_byte; lia.
  - vm_compute. by split_and!.
Defined.

(** ** Integers *)

(** The two's complement value of the contents of an [INTEGER]. *)
Definition int_value (body : bytes) : Z :=
  match body with
  | [] => 0
  | first :: _ =>
      value_be 256 0 body - (if 128 <=? first then 256 ^ Z.of_nat (length body) else 0)
  end.

(** X.690 8.3.2 for a non-negative value: no spare leading zero byte. *)
Definition minimal_int (body : bytes) : Prop :=
  match body with
  | [] => False
  | [_] => True
  | first :: second :: _ => first = 0 → 128 ≤ second
  end.

Lemma strip_zeros_value bs : value_be 256 0 (strip_zeros bs) = value_be 256 0 bs.
Proof.
  induction bs as [|b bs IH]; [done|]. destruct b, bs; done.
Qed.

Lemma strip_zeros_shape bs : Forall is_byte bs → bs ≠ [] →
  ∃ first rest, strip_zeros bs = first :: rest ∧ is_byte first ∧ (rest = [] ∨ first ≠ 0).
Proof.
  induction bs as [|b bs IH]; [done|]. intros [Hb Hbs]%Forall_cons_1 _.
  destruct bs as [|b' bs].
  { exists b, []. split; [by destruct b|]. auto. }
  destruct b as [|p|p]; [by apply IH| |unfold is_byte in Hb; lia].
  exists (Z.pos p), (b' :: bs). split_and!; [done..|]. by right.
Qed.

(** The unsigned integer encoder writes a non-negative DER
    integer with the value of the magnitude and no spare leading byte. *)
Theorem uint_body_correct magnitude :
  Forall is_byte magnitude → magnitude ≠ [] →
  int_value (uint_body magnitude) = value_be 256 0 magnitude ∧ minimal_int (uint_body magnitude).
Proof.
  intros Hb Hne. destruct (strip_zeros_shape magnitude Hb Hne) as (first & rest & Hs & Hf & Hmin).
  rewrite <-(strip_zeros_value magnitude). unfold uint_body. rewrite Hs, (low7 _ Hf).
  unfold is_byte in Hf. destruct (first <? 128) eqn:Hsmall; simpl negb; cbv iota.
  - split.
    + unfold int_value. rewrite (proj2 (Z.leb_gt 128 first)) by lia. lia.
    + destruct rest; [done|]. simpl. destruct Hmin; [done|]. lia.
  - split; [|simpl; intros; lia]. unfold int_value. rewrite (proj2 (Z.leb_gt 128 0)) by lia.
    rewrite Z.sub_0_r. done.
Qed.

Lemma uint_body_correct_witness : int_value (uint_body [0x00; 0xC8]) = 200.
Proof.
  rewrite (proj1 (uint_body_correct [0x00; 0xC8] ltac:(repeat constructor; unfold is_byte; lia)
    ltac:(discriminate))). reflexivity.
Defined.

(** ** Object identifiers *)

Abbreviation is_group := (λ d, 0 ≤ d < 128) (only parsing).
Abbreviation continued l := ((λ g, Z.lor g 0x80) <$> l).

Lemma base128_eq value : base128 value =
  continued (reverse (groups 7 9 (value / 128))) ++ [value mod 128].
Proof.
  unfold base128. rewrite reverse_cons, Z.shiftr_div_pow2 by lia.
  change 0x7F with (Z.ones 7). rewrite Z.land_ones by lia.
  change (2 ^ 7) with 128. by rewrite fmap_reverse.
Qed.

Lemma continued_byte d : 0 ≤ d < 128 →
  is_byte (Z.lor d 0x80) ∧ (Z.land (Z.lor d 0x80) 0x80 =? 0) = false ∧ Z.land (Z.lor d 0x80) 0x7F = d.
Proof.
  intros Hd. rewrite set_high by done. assert (is_byte (128 + d)) as Hb by (unfold is_byte; lia).
  split; [done|]. rewrite low7, mask7 by done. split; [lia|].
  replace (128 + d) with (d + 1 * 128) by lia. rewrite Z.mod_add, Z.mod_small; lia.
Qed.

(** The decoder accumulates continuation bytes. *)
Lemma oid_loop_continued l : ∀ acc tail, Forall is_group l → 0 ≤ acc →
  value_be 128 acc l < U64_LIMIT →
  oid_loop (continued l ++ tail) acc true = oid_loop tail (value_be 128 acc l) true.
Proof.
  induction l as [|d l IH]; intros acc tail Hl Hacc Hlt; [done|].
  apply Forall_cons_1 in Hl as [Hd Hl]. rewrite fmap_cons. simpl.
  destruct (continued_byte d Hd) as (_ & Hc & Hm). rewrite Hc, Hm.
  pose proof (value_be_ge 7 ltac:(lia) (acc * 128 + d) l ltac:(lia) Hl) as Hge.
  change (2 ^ 7) with 128 in Hge. simpl in Hlt.
  rewrite checked_shift_in_spec, (proj2 (Z.ltb_lt _ _)) by lia. apply IH; [done|lia|done].
Qed.

(** The decoder reads one encoded subidentifier. *)
Lemma oid_loop_base128 value tail : 0 ≤ value < U64_LIMIT →
  oid_loop (base128 value ++ tail) 0 false =
  let? subidentifiers := oid_loop tail 0 false in Ok (value :: subidentifiers).
Proof.
  intros Hv. rewrite base128_eq, <-app_assoc.
  assert (0 ≤ value / 128 < (2 ^ 7) ^ Z.of_nat 9) as Hq.
  { split; [apply Z.div_pos; lia|]. apply Z.div_lt_upper_bound; [lia|]. unfold U64_LIMIT in Hv. lia. }
  pose proof (value_groups 7 ltac:(lia) 9 _ Hq) as Hval. change (2 ^ 7) with 128 in Hval.
  pose proof (groups_head 7 ltac:(lia) 9 _ Hq) as Hhead.
  assert (Forall is_group (reverse (groups 7 9 (value / 128)))) as Hl
    by (apply Forall_reverse, (groups_range 7 ltac:(lia))).
  pose proof (Z.mod_pos_bound value 128 ltac:(lia)) as Hm.
  assert (value = value / 128 * 128 + value mod 128) as Heq by (pose proof (Z.div_mod value 128); lia).
  assert (∀ pending, oid_loop ([value mod 128] ++ tail) (value / 128) pending =
    let? subidentifiers := oid_loop tail 0 false in Ok (value :: subidentifiers)) as Hlast.
  { intros pending. simpl. rewrite (proj2 (Z.eqb_neq _ 0x80)), andb_false_r by lia.
    rewrite mask7, low7, Z.mod_mod by (unfold is_byte; lia).
    rewrite checked_shift_in_spec, <-Heq, (proj2 (Z.ltb_lt _ _)) by lia.
    by rewrite (proj2 (Z.ltb_lt _ _)) by lia. }
  destruct (reverse _) as [|d l]; [specialize (Hlast false); simpl in Hval; rewrite <-Hval in Hlast; exact Hlast|].
  apply Forall_cons_1 in Hl as [Hd Hl]. rewrite fmap_cons. simpl app. simpl oid_loop at 1.
  destruct (continued_byte d Hd) as (_ & Hc & Hmask). rewrite Hc, Hmask.
  assert ((Z.lor d 0x80 =? 0x80) = false) as ->.
  { rewrite set_high by done. assert (d ≠ 0) by (simpl in Hhead; congruence). lia. }
  rewrite checked_shift_in_spec, (proj2 (Z.ltb_lt _ _)) by (unfold U64_LIMIT; lia). simpl.
  rewrite oid_loop_continued; [simpl in Hval; rewrite Hval; apply (Hlast true)|done|lia|].
  simpl in Hval. rewrite Hval. lia.
Qed.

Lemma oid_loop_concat subs : Forall (λ s, 0 ≤ s < U64_LIMIT) subs →
  oid_loop (concat (base128 <$> subs)) 0 false = Ok subs.
Proof.
  induction 1 as [|s subs Hs _ IH]; [done|]. rewrite fmap_cons. simpl concat.
  by rewrite oid_loop_base128, IH.
Qed.

(** The bytes of a subidentifier are determined by its groups. *)
Lemma base128_groups l b : Forall is_group l → head l ≠ Some 0 → 0 ≤ b < 128 →
  value_be 128 0 l * 128 + b < U64_LIMIT →
  base128 (value_be 128 0 l * 128 + b) = continued l ++ [b].
Proof.
  intros Hl Hh Hb Hlt. rewrite base128_eq.
  rewrite Z.div_add_l, Z.div_small, Z.add_0_r by lia.
  rewrite Z.add_comm, Z.mod_add, Z.mod_small by lia.
  assert (length l ≤ 9)%nat as Hlen.
  { destruct (decide (l = [])) as [->|Hne]; [simpl; lia|].
    pose proof (value_be_lower 7 ltac:(lia) l Hl Hh Hne) as Hlow. change (2 ^ 7) with 128 in Hlow.
    destruct (decide (length l ≤ 9)%nat) as [|Hgt]; [done|]. exfalso.
    assert (128 ^ 9 ≤ 128 ^ (Z.of_nat (length l) - 1)) by (apply Z.pow_le_mono_r; lia).
    unfold U64_LIMIT in Hlt. lia. }
  pose proof (groups_value 7 ltac:(lia) 9 l Hl Hlen Hh) as Hg. change (2 ^ 7) with 128 in Hg.
  by rewrite Hg, reverse_involutive.
Qed.

(** The decoder accepts only minimal encodings: [l] holds the groups of the
    subidentifier being read. *)
Lemma oid_loop_inv contents : ∀ l subs, Forall is_byte contents → Forall is_group l →
  head l ≠ Some 0 → value_be 128 0 l < U64_LIMIT →
  oid_loop contents (value_be 128 0 l) (negb (bool_decide (l = []))) = Ok subs →
  continued l ++ contents = concat (base128 <$> subs) ∧ Forall (λ s, 0 ≤ s < U64_LIMIT) subs.
Proof.
  induction contents as [|b contents IH]; intros l subs Hbs Hl Hh Hlt; simpl.
  { case_bool_decide; simpl; [|done]. intros [= <-]. subst. done. }
  apply Forall_cons_1 in Hbs as [Hb Hbs]. destruct (_ && _) eqn:Hmin; [done|].
  assert (0 ≤ value_be 128 0 l) as Hge.
  { pose proof (value_be_ge 7 ltac:(lia) 0 l ltac:(lia) Hl). done. }
  pose proof (Z.mod_pos_bound b 128 ltac:(lia)) as Hmod.
  rewrite (mask7 _ Hb), (low7 _ Hb), checked_shift_in_spec by lia. unfold is_byte in Hb.
  destruct (_ <? U64_LIMIT) eqn:Hfit; [|done].
  destruct (b <? 128) eqn:Hlast.
  - rewrite Z.mod_small in Hfit |- * by lia.
    destruct (oid_loop contents 0 false) as [subs'|] eqn:Hrest; [|done]. intros [= <-].
    destruct (IH [] subs' Hbs ltac:(constructor) ltac:(done) ltac:(simpl; unfold U64_LIMIT; lia) Hrest)
      as [Heq Hsubs]. split; [|constructor; [lia|done]].
    rewrite fmap_cons. simpl concat. rewrite base128_groups by (done || lia).
    rewrite <-Heq, <-app_assoc. done.
  - assert (b mod 128 = b - 128) as Hd.
    { replace b with ((b - 128) + 1 * 128) at 1 by lia. rewrite Z.mod_add, Z.mod_small; lia. }
    rewrite Hd in *. intros Hloop.
    destruct (IH (l ++ [b - 128]) subs Hbs) as [Heq Hsubs].
    + apply Forall_app. split; [done|]. constructor; [lia|constructor].
    + destruct l; [|done]. simpl in *. intros [= Hz]. lia.
    + rewrite (value_be_snoc 7). change (2 ^ 7) with 128. lia.
    + rewrite (value_be_snoc 7). change (2 ^ 7) with 128.
      rewrite bool_decide_eq_false_2 by (by destruct l). exact Hloop.
    + split; [|done]. rewrite <-Heq, fmap_app, <-app_assoc. simpl.
      rewrite set_high by lia. do 2 f_equal. lia.
Qed.

(** The arcs X.690 8.19.4 allows, within 64 bits. *)
Definition valid_arcs (arcs : list Z) : Prop :=
  match arcs with
  | a :: b :: rest =>
      0 ≤ a ≤ 2 ∧ 0 ≤ b ∧ (a < 2 → b < 40) ∧ a * 40 + b < U64_LIMIT ∧
      Forall (λ s, 0 ≤ s < U64_LIMIT) rest
  | _ => False
  end.

Lemma split_first_arc_spec first : 0 ≤ first < U64_LIMIT →
  ∃ a b, split_first_arc first = [a; b] ∧ a * 40 + b = first ∧
    0 ≤ a ≤ 2 ∧ 0 ≤ b ∧ (a < 2 → b < 40).
Proof.
  intros Hf. unfold split_first_arc.
  destruct (first <=? 39) eqn:?; [eexists _, _; split; [done|lia]|].
  destruct (first <=? 79) eqn:?; eexists _, _; (split; [done|lia]).
Qed.

Lemma split_first_arc_inv a b : 0 ≤ a ≤ 2 → 0 ≤ b → (a < 2 → b < 40) →
  split_first_arc (a * 40 + b) = [a; b].
Proof.
  intros Ha Hb Hab. unfold split_first_arc.
  destruct (a * 40 + b <=? 39) eqn:?; [assert (a = 0) as -> by lia; done|].
  destruct (a * 40 + b <=? 79) eqn:?.
  - assert (a = 1) as -> by lia. do 2 f_equal. lia.
  - assert (a = 2) as -> by lia. do 2 f_equal. lia.
Qed.

(** Object identifiers have exactly one encoding.  The decoder
    accepts the contents of an object identifier exactly when they are the
    encoder's output for the arcs it returns, and those arcs are the ones X.690
    allows within 64 bits. *)
Theorem oid_arcs_iff_oid contents arcs :
  Forall is_byte contents →
  oid_arcs contents = Ok arcs ↔ valid_arcs arcs ∧ oid_body arcs = Some contents.
Proof.
  intros Hb. unfold oid_arcs. split.
  - destruct (oid_loop contents 0 false) as [subs|] eqn:Hloop; [|done].
    destruct (oid_loop_inv contents [] subs Hb ltac:(constructor) ltac:(done)
      ltac:(simpl; unfold U64_LIMIT; lia) Hloop) as [Heq Hsubs].
    destruct subs as [|first rest]; [done|]. intros [= <-].
    apply Forall_cons_1 in Hsubs as [Hf Hrest].
    destruct (split_first_arc_spec first Hf) as (a & b & -> & Hab & Ha & Hb0 & Hlim).
    simpl. split; [split_and!; lia || done|].
    rewrite (Z.mod_small (a * 40)), Z.mod_small, Hab by lia. simpl in Heq. by rewrite Heq.
  - destruct arcs as [|a [|b rest]]; [naive_solver..|].
    intros [(Ha & Hb0 & Hlim & Hfit & Hrest) Hbody]. simpl in Hbody.
    rewrite (Z.mod_small (a * 40)), Z.mod_small in Hbody by lia. injection Hbody as <-.
    change (base128 (a * 40 + b) ++ concat (base128 <$> rest))
      with (concat (base128 <$> (a * 40 + b) :: rest)).
    rewrite oid_loop_concat by (constructor; [lia|done]).
    by rewrite split_first_arc_inv.
Qed.

Lemma oid_arcs_iff_oid_witness : oid_arcs [0x81; 0x34; 0x03] = Ok [2; 100; 3].
Proof.
  apply oid_arcs_iff_oid; [repeat constructor; unfold is_byte; lia|].
  split; [|vm_compute; reflexivity]. unfold valid_arcs, U64_LIMIT.
  split_and!; try lia. repeat constructor; lia.
Defined.
