(* ===== verification/DerTime.v ===== *)
(** * X.509 times (crates/ironauth-der/src/lib.rs and write.rs)

    Conversion between a Unix timestamp and a civil date, and the two DER time
    forms.  The theorem: reading what the writer wrote gives the timestamp back,
    for every instant of the years 0 to 9999.  Seconds, days and years are [i64];
    nothing here leaves its range for the instants considered. *)

From S2P Require Import Prelude Bytes Der.

Open Scope Z_scope.

(** A civil date and time: year, month, day, hour, minute, second. *)
Record Civil : Type := {
  c_year : Z; c_month : Z; c_day : Z; c_hour : Z; c_minute : Z; c_second : Z
}.

(** Rust's [/] on [i64] truncates: [Z.quot]. *)
Definition civil_to_unix (year month day hour minute second : Z) : Z :=
  let y := if month <=? 2 then year - 1 else year in
  let era := Z.quot (if 0 <=? y then y else y - 399) 400 in
  let yoe := y - era * 400 in
  let doy := Z.quot (153 * (if 2 <? month then month - 3 else month + 9) + 2) 5 + day - 1 in
  let doe := yoe * 365 + Z.quot yoe 4 - Z.quot yoe 100 + doy in
  let days := era * 146097 + doe - 719468 in
  days * 86400 + hour * 3600 + minute * 60 + second.

Definition civil_from_unix (unix : Z) : Civil :=
  let days := unix / 86400 in
  let seconds := unix mod 86400 in
  let z := days + 719468 in
  let era := Z.quot (if 0 <=? z then z else z - 146096) 146097 in
  let doe := z - era * 146097 in
  let yoe := Z.quot (doe - Z.quot doe 1460 + Z.quot doe 36524 - Z.quot doe 146096) 365 in
  let year_of_era := yoe + era * 400 in
  let doy := doe - (365 * yoe + Z.quot yoe 4 - Z.quot yoe 100) in
  let mp := Z.quot (5 * doy + 2) 153 in
  let day := doy - Z.quot (153 * mp + 2) 5 + 1 in
  let month := if mp <? 10 then mp + 3 else mp - 9 in
  let year := if month <=? 2 then year_of_era + 1 else year_of_era in
  {| c_year := year; c_month := month; c_day := day;
     c_hour := Z.quot seconds 3600; c_minute := Z.quot (Z.rem seconds 3600) 60;
     c_second := Z.rem seconds 60 |}.

(** ** Text *)

(** [is_ascii_digit]. *)
Definition is_ascii_digit (b : Z) : bool := (48 <=? b) && (b <=? 57).

(** [str::parse] on a string of ASCII digits. *)
Definition parse_digits (s : bytes) : Z := value_be 10 0 ((λ b, b - 48) <$> s).

Definition parse_2 (s : bytes) : Result Z DerError :=
  if negb (length s =? 2)%nat || negb (forallb is_ascii_digit s) then Err BadValue
  else Ok (parse_digits s).

(** [format!("{n:0width$}")] for a non-negative [n] with at most [width] digits
    is the last [width] digits; a longer or negative number prints wider. *)
Fixpoint digits_be (width : nat) (n : Z) : bytes :=
  match width with
  | O => []
  | S w => digits_be w (n / 10) ++ [48 + n mod 10]
  end.

(** The digits of a positive number, without padding. *)
Fixpoint digits_free (fuel : nat) (n : Z) : bytes :=
  match fuel with
  | O => []
  | S f => if n <=? 0 then [] else digits_free f (n / 10) ++ [48 + n mod 10]
  end.

(** [{n:0width$}] in full: a sign counts towards the width. *)
Definition fmt_padded (width : nat) (n : Z) : bytes :=
  let body w m := if m <? 10 ^ Z.of_nat w then digits_be w m else digits_free 20 m in
  if n <? 0 then 45 :: body (width - 1)%nat (- n) else body width n.

(** [&text[a..b]] within range. *)
Definition slice (text : bytes) (a b : nat) : bytes := take (b - a) (drop a text).

(** ** Reading a time *)

(** The [Z] suffix is removed; a non-ASCII value is refused.  (A byte string that
    is not UTF-8 is refused with the same error, and an ASCII one is UTF-8.) *)
Definition strip_Z (contents : bytes) : option bytes :=
  match reverse contents with
  | 90 :: rest => Some (reverse rest)
  | _ => None
  end.

Definition parse_time (tag_byte : Z) (contents : bytes) : Result Z DerError :=
  match strip_Z contents with
  | None => Err BadValue
  | Some text =>
      if negb (forallb (λ b, b <? 128) text) then Err BadValue else
      let? (year, rest) :=
        (if tag_byte =? tag_UTC_TIME then
           if negb (length text =? 12)%nat then Err BadValue else
           let? yy := parse_2 (slice text 0 2) in
           Ok (if yy <? 50 then 2000 + yy else 1900 + yy, drop 2 text)
         else if tag_byte =? tag_GENERALIZED_TIME then
           if negb (length text =? 14)%nat then Err BadValue else
           if negb (forallb is_ascii_digit (slice text 0 4)) then Err BadValue else
           Ok (parse_digits (slice text 0 4), drop 4 text)
         else Err BadValue) in
      let? month := parse_2 (slice rest 0 2) in
      let? day := parse_2 (slice rest 2 4) in
      let? hour := parse_2 (slice rest 4 6) in
      let? minute := parse_2 (slice rest 6 8) in
      let? second := parse_2 (slice rest 8 10) in
      if negb ((1 <=? month) && (month <=? 12)) || negb ((1 <=? day) && (day <=? 31)) ||
         (23 <? hour) || (59 <? minute) || (60 <? second)
      then Err BadValue
      else Ok (civil_to_unix year month day hour minute second)
  end.

(** ** Writing a time *)

(** The fields after the year, and the [Z]. *)
Definition time_tail (c : Civil) : bytes :=
  fmt_padded 2 (c_month c) ++ fmt_padded 2 (c_day c) ++ fmt_padded 2 (c_hour c) ++
  fmt_padded 2 (c_minute c) ++ fmt_padded 2 (c_second c) ++ [90].

Definition generalized_time (unix_seconds : Z) : bytes :=
  let c := civil_from_unix unix_seconds in
  tlv tag_GENERALIZED_TIME (fmt_padded 4 (c_year c) ++ time_tail c).

Definition x509_time (unix_seconds : Z) : bytes :=
  let c := civil_from_unix unix_seconds in
  if (1950 <=? c_year c) && (c_year c <=? 2049) then
    tlv tag_UTC_TIME (fmt_padded 2 (Z.rem (c_year c) 100) ++ time_tail c)
  else generalized_time unix_seconds.

(** ** The calendar *)

(** The year and the day of an era of 146097 days. *)
Lemma day_of_year doe : 0 ≤ doe < 146097 →
  let yoe := (doe - doe / 1460 + doe / 36524 - doe / 146096) / 365 in
  0 ≤ yoe < 400 ∧ 0 ≤ doe - (365 * yoe + yoe / 4 - yoe / 100) ≤ 365.
Proof. intros Hd yoe. unfold yoe. Z.to_euclidean_division_equations. lia. Qed.

(** The truncating division with an adjusted dividend is the floor. *)
Lemma quot_floor z n : 0 < n → Z.quot (if 0 <=? z then z else z - (n - 1)) n = z / n.
Proof.
  intros Hn. destruct (0 <=? z) eqn:Hz; [apply Z.quot_div_nonneg; lia|].
  Z.to_euclidean_division_equations. nia.
Qed.

(** The fields of a date, from its era, year of era, day of year and second. *)
Definition civil_of (era yoe doy seconds : Z) : Civil :=
  let mp := (5 * doy + 2) / 153 in
  let month := if mp <? 10 then mp + 3 else mp - 9 in
  {| c_year := if month <=? 2 then yoe + era * 400 + 1 else yoe + era * 400;
     c_month := month; c_day := doy - (153 * mp + 2) / 5 + 1;
     c_hour := seconds / 3600; c_minute := seconds mod 3600 / 60; c_second := seconds mod 60 |}.

Lemma civil_from_unix_spec unix : ∃ era yoe doy seconds,
  civil_from_unix unix = civil_of era yoe doy seconds ∧
  0 ≤ yoe < 400 ∧ 0 ≤ doy ≤ 365 ∧ 0 ≤ seconds < 86400 ∧
  unix = (era * 146097 + (yoe * 365 + yoe / 4 - yoe / 100 + doy) - 719468) * 86400 + seconds.
Proof.
  set (z := unix / 86400 + 719468). set (doe := z mod 146097).
  assert (0 ≤ doe < 146097) as Hdoe by (apply Z.mod_pos_bound; lia).
  pose proof (day_of_year doe Hdoe) as [Hyoe Hdoy].
  set (yoe := (doe - doe / 1460 + doe / 36524 - doe / 146096) / 365) in *.
  set (doy := doe - (365 * yoe + yoe / 4 - yoe / 100)) in *.
  assert (0 ≤ unix mod 86400 < 86400) as Hs by (apply Z.mod_pos_bound; lia).
  assert (unix = unix / 86400 * 86400 + unix mod 86400) as Hu by (pose proof (Z.div_mod unix 86400); lia).
  assert (z = z / 146097 * 146097 + doe) as Hz by (pose proof (Z.div_mod z 146097); unfold doe; lia).
  exists (z / 146097), yoe, doy, (unix mod 86400). split; [|split_and!; lia].
  unfold civil_from_unix. fold z.
  replace (z - 146096) with (z - (146097 - 1)) by lia. rewrite quot_floor by lia.
  replace (z - z / 146097 * 146097) with doe by lia.
  rewrite (Z.quot_div_nonneg doe 1460), (Z.quot_div_nonneg doe 36524),
    (Z.quot_div_nonneg doe 146096) by lia.
  rewrite (Z.quot_div_nonneg _ 365) by (Z.to_euclidean_division_equations; lia). fold yoe.
  rewrite (Z.quot_div_nonneg yoe 4), (Z.quot_div_nonneg yoe 100) by lia. fold doy.
  rewrite (Z.quot_div_nonneg (5 * doy + 2)) by lia.
  assert (0 ≤ (5 * doy + 2) / 153) as Hmp by (apply Z.div_pos; lia).
  rewrite (Z.quot_div_nonneg (153 * _ + 2)), (Z.quot_div_nonneg _ 3600) by lia.
  rewrite !Z.rem_mod_nonneg by lia.
  rewrite Z.quot_div_nonneg by (pose proof (Z.mod_pos_bound (unix mod 86400) 3600); lia).
  done.
Qed.

(** Every field is in its calendar range. *)
Lemma civil_of_ranges era yoe doy seconds : 0 ≤ doy ≤ 365 → 0 ≤ seconds < 86400 →
  let c := civil_of era yoe doy seconds in
  1 ≤ c_month c ≤ 12 ∧ 1 ≤ c_day c ≤ 31 ∧ 0 ≤ c_hour c ≤ 23 ∧ 0 ≤ c_minute c ≤ 59 ∧
  0 ≤ c_second c ≤ 59.
Proof.
  intros Hd Hs. cbn [c_month c_day c_hour c_minute c_second civil_of].
  assert (0 ≤ (5 * doy + 2) / 153 ≤ 11) as Hmp by (Z.to_euclidean_division_equations; lia).
  split; [destruct (_ <? 10) eqn:?; lia|].
  split; [Z.to_euclidean_division_equations; lia|].
  split; [Z.to_euclidean_division_equations; lia|].
  split; Z.to_euclidean_division_equations; lia.
Qed.

(** The calendar conversion inverts [civil_of]. *)
Lemma civil_to_unix_of era yoe doy seconds :
  0 ≤ yoe < 400 → 0 ≤ doy ≤ 365 → 0 ≤ seconds < 86400 →
  let c := civil_of era yoe doy seconds in
  civil_to_unix (c_year c) (c_month c) (c_day c) (c_hour c) (c_minute c) (c_second c) =
  (era * 146097 + (yoe * 365 + yoe / 4 - yoe / 100 + doy) - 719468) * 86400 + seconds.
Proof.
  intros Hy Hd Hs. unfold civil_to_unix. cbn [c_year c_month c_day c_hour c_minute c_second civil_of].
  set (mp := (5 * doy + 2) / 153).
  assert (0 ≤ mp ≤ 11) as Hmp by (unfold mp; Z.to_euclidean_division_equations; lia).
  set (month := if mp <? 10 then mp + 3 else mp - 9).
  assert ((if month <=? 2 then (if month <=? 2 then yoe + era * 400 + 1 else yoe + era * 400) - 1
           else (if month <=? 2 then yoe + era * 400 + 1 else yoe + era * 400)) = yoe + era * 400) as ->
    by (destruct (month <=? 2); lia).
  assert ((if 2 <? month then month - 3 else month + 9) = mp) as ->.
  { unfold month. destruct (mp <? 10) eqn:?; destruct (2 <? _) eqn:?; lia. }
  set (y := yoe + era * 400). replace (y - 399) with (y - (400 - 1)) by lia. rewrite quot_floor by lia.
  assert (y / 400 = era) as -> by (unfold y; rewrite Z.div_add, Z.div_small; lia).
  replace (y - era * 400) with yoe by (unfold y; lia).
  rewrite !Z.quot_div_nonneg by lia.
  pose proof (Z.div_mod seconds 3600). pose proof (Z.div_mod (seconds mod 3600) 60).
  assert (seconds mod 60 = seconds mod 3600 mod 60) as ->
    by (Z.to_euclidean_division_equations; lia).
  lia.
Qed.

(** ** Text round trip *)

Lemma digits_be_length w : ∀ n, length (digits_be w n) = w.
Proof. induction w as [|w IH]; intros n; [done|]. simpl. rewrite length_app, IH. simpl. lia. Qed.

Lemma digits_be_digit w : ∀ n, Forall (λ b, is_ascii_digit b = true) (digits_be w n).
Proof.
  induction w as [|w IH]; intros n; [constructor|]. simpl. apply Forall_app. split; [apply IH|].
  constructor; [|constructor]. unfold is_ascii_digit.
  pose proof (Z.mod_pos_bound n 10 ltac:(lia)). apply andb_true_iff. lia.
Qed.

Lemma parse_digits_be w : ∀ n, 0 ≤ n < 10 ^ Z.of_nat w → parse_digits (digits_be w n) = n.
Proof.
  unfold parse_digits. induction w as [|w IH]; intros n Hn; [simpl in *; lia|].
  simpl digits_be. rewrite fmap_app. unfold value_be. rewrite foldl_app. fold (value_be 10 0).
  rewrite Nat2Z.inj_succ, Z.pow_succ_r in Hn by lia.
  unfold value_be in IH. rewrite IH by
    (split; [apply Z.div_pos; lia|apply Z.div_lt_upper_bound; lia]).
  simpl. pose proof (Z.div_mod n 10). lia.
Qed.

Lemma fmt_padded_small w n : 0 ≤ n < 10 ^ Z.of_nat w → fmt_padded w n = digits_be w n.
Proof.
  intros Hn. unfold fmt_padded. rewrite (proj2 (Z.ltb_ge _ _)) by lia.
  by rewrite (proj2 (Z.ltb_lt _ _)) by lia.
Qed.

Lemma forallb_digits w n : forallb is_ascii_digit (digits_be w n) = true.
Proof.
  apply forallb_forall. intros b Hb%list_elem_of_In.
  pose proof (digits_be_digit w n) as Hd. rewrite Forall_forall in Hd. auto.
Qed.

Lemma ascii_digits w n : forallb (λ b, b <? 128) (digits_be w n) = true.
Proof.
  apply forallb_forall. intros b Hb%list_elem_of_In.
  pose proof (digits_be_digit w n) as Hd. rewrite Forall_forall in Hd.
  specialize (Hd b Hb). unfold is_ascii_digit in Hd. lia.
Qed.

Lemma parse_2_digits n : 0 ≤ n < 100 → parse_2 (digits_be 2 n) = Ok n.
Proof.
  intros Hn. unfold parse_2. rewrite digits_be_length, forallb_digits. cbn -[digits_be parse_digits].
  f_equal. by apply parse_digits_be.
Qed.

Lemma strip_Z_app text : strip_Z (text ++ [90]) = Some text.
Proof. unfold strip_Z. rewrite reverse_app. simpl. by rewrite reverse_involutive. Qed.

(** The five two-byte fields after the year are read at their offsets. *)
Lemma slices_of_fields (a b c d e : bytes) :
  length a = 2%nat → length b = 2%nat → length c = 2%nat → length d = 2%nat → length e = 2%nat →
  let rest := a ++ b ++ c ++ d ++ e in
  slice rest 0 2 = a ∧ slice rest 2 4 = b ∧ slice rest 4 6 = c ∧ slice rest 6 8 = d ∧
  slice rest 8 10 = e.
Proof.
  intros Ha Hb Hc Hd He.
  destruct a as [|? [|? []]], b as [|? [|? []]], c as [|? [|? []]], d as [|? [|? []]],
    e as [|? [|? []]]; try done.
Qed.

(** The fields after the year, without the suffix. *)
Definition tail_digits (c : Civil) : bytes :=
  digits_be 2 (c_month c) ++ digits_be 2 (c_day c) ++ digits_be 2 (c_hour c) ++
  digits_be 2 (c_minute c) ++ digits_be 2 (c_second c).

Definition in_calendar (c : Civil) : Prop :=
  1 ≤ c_month c ≤ 12 ∧ 1 ≤ c_day c ≤ 31 ∧ 0 ≤ c_hour c ≤ 23 ∧ 0 ≤ c_minute c ≤ 59 ∧
  0 ≤ c_second c ≤ 59.

Lemma time_tail_digits c : in_calendar c → time_tail c = tail_digits c ++ [90].
Proof.
  intros (Hm & Hd & Hh & Hmi & Hs). unfold time_tail, tail_digits.
  rewrite !fmt_padded_small by lia. by rewrite <-!app_assoc.
Qed.

(** Reading a written time, whatever the form of the year. *)
Lemma parse_time_written tag_byte c year_text :
  in_calendar c → forallb (λ b, b <? 128) year_text = true →
  (tag_byte = tag_UTC_TIME ∧ (∃ yy, year_text = digits_be 2 yy ∧ 0 ≤ yy < 100 ∧
     c_year c = (if yy <? 50 then 2000 + yy else 1900 + yy))) ∨
  (tag_byte = tag_GENERALIZED_TIME ∧ year_text = digits_be 4 (c_year c) ∧ 0 ≤ c_year c < 10000) →
  parse_time tag_byte (year_text ++ time_tail c) =
  Ok (civil_to_unix (c_year c) (c_month c) (c_day c) (c_hour c) (c_minute c) (c_second c)).
Proof.
  intros Hc Hascii Hyear. unfold parse_time.
  rewrite time_tail_digits, app_assoc, strip_Z_app by done.
  assert (forallb (λ b, b <? 128) (year_text ++ tail_digits c) = true) as ->.
  { unfold tail_digits. rewrite !forallb_app, Hascii, !ascii_digits. done. }
  assert (length (tail_digits c) = 10%nat) as Hlen
    by (unfold tail_digits; rewrite !length_app, !digits_be_length; done).
  destruct (slices_of_fields (digits_be 2 (c_month c)) (digits_be 2 (c_day c))
    (digits_be 2 (c_hour c)) (digits_be 2 (c_minute c)) (digits_be 2 (c_second c)))
    as (S1 & S2 & S3 & S4 & S5); try apply digits_be_length. fold (tail_digits c) in S1, S2, S3, S4, S5.
  destruct Hc as (Hm & Hd & Hh & Hmi & Hs).
  assert ((negb ((1 <=? c_month c) && (c_month c <=? 12)) || negb ((1 <=? c_day c) && (c_day c <=? 31)) ||
    (23 <? c_hour c) || (59 <? c_minute c) || (60 <? c_second c)) = false) as Hrange.
  { repeat (apply orb_false_iff; split); lia. }
  cbn [negb]. cbv iota.
  destruct Hyear as [(-> & yy & -> & Hyy & Hy)|(-> & -> & Hy)].
  - rewrite Z.eqb_refl, length_app, digits_be_length, Hlen. cbn [Nat.eqb Nat.add negb]. cbv iota.
    assert (slice (digits_be 2 yy ++ tail_digits c) 0 2 = digits_be 2 yy) as ->
      by (by apply (take_app_length' _ _ 2); rewrite digits_be_length).
    rewrite (drop_app_length' _ _ 2) by (by rewrite digits_be_length).
    rewrite (parse_2_digits yy) by lia. rewrite S1, S2, S3, S4, S5, !parse_2_digits by lia.
    rewrite Hrange, Hy. done.
  - change (tag_GENERALIZED_TIME =? tag_UTC_TIME) with false.
    rewrite Z.eqb_refl, length_app, digits_be_length, Hlen. cbn [Nat.eqb Nat.add negb]. cbv iota.
    assert (slice (digits_be 4 (c_year c) ++ tail_digits c) 0 4 = digits_be 4 (c_year c)) as ->
      by (by apply (take_app_length' _ _ 4); rewrite digits_be_length).
    rewrite (drop_app_length' _ _ 4) by (by rewrite digits_be_length).
    rewrite forallb_digits, parse_digits_be by (simpl; lia). cbn [negb]. cbv iota.
    rewrite S1, S2, S3, S4, S5, !parse_2_digits by lia. rewrite Hrange. done.
Qed.

(** The first instant of year 0 and the last of year 9999. *)
Definition YEAR_0000 : Z := -62167219200.
Definition YEAR_9999_END : Z := 253402300799.

Lemma civil_year_bounds unix : YEAR_0000 ≤ unix ≤ YEAR_9999_END →
  0 ≤ c_year (civil_from_unix unix) ≤ 9999.
Proof.
  destruct (civil_from_unix_spec unix) as (era & yoe & doy & seconds & -> & Hy & Hd & Hs & Hu).
  unfold YEAR_0000, YEAR_9999_END. intros Hr. cbn [c_year civil_of].
  set (mp := (5 * doy + 2) / 153).
  assert (153 * mp ≤ 5 * doy + 2 < 153 * mp + 153) as Hmp
    by (unfold mp; Z.to_euclidean_division_equations; lia).
  assert (-1 ≤ era ≤ 24) as Hera by (Z.to_euclidean_division_equations; lia).
  destruct (mp <? 10) eqn:?; destruct (_ <=? 2) eqn:?; Z.to_euclidean_division_equations; lia.
Qed.

Lemma civil_in_calendar unix : in_calendar (civil_from_unix unix).
Proof.
  destruct (civil_from_unix_spec unix) as (era & yoe & doy & seconds & -> & _ & Hd & Hs & _).
  by apply civil_of_ranges.
Qed.

Lemma civil_inverse unix : let c := civil_from_unix unix in
  civil_to_unix (c_year c) (c_month c) (c_day c) (c_hour c) (c_minute c) (c_second c) = unix.
Proof.
  destruct (civil_from_unix_spec unix) as (era & yoe & doy & seconds & -> & Hy & Hd & Hs & Hu).
  simpl. rewrite Hu. by apply civil_to_unix_of.
Qed.

Lemma read_time_tlv tag w n c rest : in_calendar c → Z.land tag 0x1F ≠ 0x1F → (w ≤ 4)%nat →
  read_tlv (tlv tag (digits_be w n ++ time_tail c) ++ rest) =
  Ok (tag, digits_be w n ++ time_tail c, rest).
Proof.
  intros Hc Ht Hw. apply read_tlv_tlv; [done|].
  rewrite time_tail_digits by done. unfold tail_digits.
  rewrite !length_app, !digits_be_length. simpl. unfold U64_LIMIT. lia.
Qed.

(** A time the certificate writer encodes reads back as the same
    instant, in both forms, for every second of the years 0 to 9999; and the
    form is the one RFC 5280 requires, UTCTime exactly for 1950 to 2049. *)
Theorem time_round_trip unix rest :
  YEAR_0000 ≤ unix ≤ YEAR_9999_END →
  (∃ contents, read_tlv (generalized_time unix ++ rest) = Ok (tag_GENERALIZED_TIME, contents, rest) ∧
     parse_time tag_GENERALIZED_TIME contents = Ok unix) ∧
  (∃ tag contents, read_tlv (x509_time unix ++ rest) = Ok (tag, contents, rest) ∧
     parse_time tag contents = Ok unix ∧
     tag = if (1950 <=? c_year (civil_from_unix unix)) && (c_year (civil_from_unix unix) <=? 2049)
           then tag_UTC_TIME else tag_GENERALIZED_TIME).
Proof.
  intros Hr. pose proof (civil_year_bounds unix Hr) as Hy.
  pose proof (civil_in_calendar unix) as Hc. pose proof (civil_inverse unix) as Hinv. cbv zeta in Hinv.
  assert (∃ contents, read_tlv (generalized_time unix ++ rest) = Ok (tag_GENERALIZED_TIME, contents, rest) ∧
    parse_time tag_GENERALIZED_TIME contents = Ok unix) as Hg.
  { unfold generalized_time. rewrite fmt_padded_small by lia. eexists.
    split; [by apply read_time_tlv; [|done|lia]|].
    etrans; [apply parse_time_written; [done|apply ascii_digits|]|by rewrite Hinv].
    right. split; [done|]. split; [done|lia]. }
  split; [exact Hg|]. unfold x509_time.
  destruct (_ && _) eqn:Hutc; [|destruct Hg as (contents & ? & ?); eauto].
  apply andb_true_iff in Hutc as [H1 H2]. rewrite Z.rem_mod_nonneg by lia.
  pose proof (Z.mod_pos_bound (c_year (civil_from_unix unix)) 100 ltac:(lia)) as Hm.
  rewrite fmt_padded_small by lia. eexists tag_UTC_TIME, _.
  split; [by apply read_time_tlv; [|done|lia]|]. split; [|done].
  etrans; [apply parse_time_written; [done|apply ascii_digits|]|by rewrite Hinv].
  left. split; [done|].
  eexists. split; [done|]. split; [lia|].
  destruct (_ <? 50) eqn:?; Z.to_euclidean_division_equations; lia.
Qed.

Lemma time_round_trip_witness :
  ∃ contents, read_tlv (generalized_time 1700000000 ++ []) = Ok (tag_GENERALIZED_TIME, contents, []) ∧
    parse_time tag_GENERALIZED_TIME contents = Ok 1700000000.
Proof.
  refine (proj1 (time_round_trip 1700000000 [] _)). unfold YEAR_0000, YEAR_9999_END. lia.
Defined.

(** A day that its month does not have is accepted and read as a later day: the
    31st of February 2026 is the 3rd of March. *)
Lemma impossible_day_accepted :
  let text day := (λ c, Z.of_N (N_of_ascii c)) <$> String.list_ascii_of_string day in
  parse_time tag_UTC_TIME (text "260231000000Z"%string) =
  parse_time tag_UTC_TIME (text "260303000000Z"%string) ∧
  parse_time tag_UTC_TIME (text "260231000000Z"%string) = Ok 1772496000.
Proof. by vm_compute. Qed.
