(* ===== verification/SigningPolicy.v ===== *)
(** * Signing algorithms and the signing policy
    (crates/ironauth-jose/src/policy.rs, the algorithm matrix, and
    crates/ironauth-jose/src/signing_policy.rs) *)

From S2P Require Import Prelude.

(** ** Algorithms *)

Inductive JwsAlgorithm : Type :=
| EdDsa | Es256 | Es384 | Rs256 | Rs384 | Rs512 | Ps256 | Ps384 | Ps512.

#[export] Instance JwsAlgorithm_eq_dec : EqDecision JwsAlgorithm.
Proof. solve_decision. Defined.

Inductive KeyFamily : Type := Ed25519 | EcP256 | EcP384 | Rsa.

Definition as_jose_name (algorithm : JwsAlgorithm) : string :=
  match algorithm with
  | EdDsa => "EdDSA" | Es256 => "ES256" | Es384 => "ES384"
  | Rs256 => "RS256" | Rs384 => "RS384" | Rs512 => "RS512"
  | Ps256 => "PS256" | Ps384 => "PS384" | Ps512 => "PS512"
  end.

Definition from_jose_name (name : string) : option JwsAlgorithm :=
  if bool_decide (name = "EdDSA") || bool_decide (name = "Ed25519") then Some EdDsa
  else if bool_decide (name = "ES256") then Some Es256
  else if bool_decide (name = "ES384") then Some Es384
  else if bool_decide (name = "RS256") then Some Rs256
  else if bool_decide (name = "RS384") then Some Rs384
  else if bool_decide (name = "RS512") then Some Rs512
  else if bool_decide (name = "PS256") then Some Ps256
  else if bool_decide (name = "PS384") then Some Ps384
  else if bool_decide (name = "PS512") then Some Ps512
  else None.

Definition fully_specified_name (algorithm : JwsAlgorithm) : string :=
  match algorithm with EdDsa => "Ed25519" | other => as_jose_name other end.

Definition key_family (algorithm : JwsAlgorithm) : KeyFamily :=
  match algorithm with
  | EdDsa => Ed25519
  | Es256 => EcP256
  | Es384 => EcP384
  | Rs256 | Rs384 | Rs512 | Ps256 | Ps384 | Ps512 => Rsa
  end.

(** ** The policy *)

Record SigningPolicy : Type := { allowed : list JwsAlgorithm }.

Inductive SigningPolicyError : Type := EmptyAllowlist.

(** One iteration of the loop of [new]: keep an algorithm the first time it is seen. *)
Definition push_new (deduped : list JwsAlgorithm) (alg : JwsAlgorithm) : list JwsAlgorithm :=
  if bool_decide (alg ∈ deduped) then deduped else deduped ++ [alg].

Definition dedup (algorithms : list JwsAlgorithm) : list JwsAlgorithm := foldl push_new [] algorithms.

Definition SigningPolicy_new (algorithms : list JwsAlgorithm) : Result SigningPolicy SigningPolicyError :=
  match algorithms with
  | [] => Err EmptyAllowlist
  | _ => Ok {| allowed := dedup algorithms |}
  end.

Definition eddsa_default : SigningPolicy := {| allowed := [EdDsa] |}.

Definition fips : SigningPolicy := {| allowed := [Es256; Rs256] |}.

Definition preferred (policy : SigningPolicy) : JwsAlgorithm :=
  match allowed policy with alg :: _ => alg | [] => EdDsa end.

Definition permits (policy : SigningPolicy) (algorithm : JwsAlgorithm) : bool :=
  bool_decide (algorithm ∈ allowed policy).

Definition retains_in_jwks (policy : SigningPolicy) (algorithm : JwsAlgorithm) : bool :=
  permits policy algorithm || bool_decide (algorithm = Rs256).

Definition resolve_policy (tenant_default environment_override : option SigningPolicy) : SigningPolicy :=
  match environment_override, tenant_default with
  | Some policy, _ => policy
  | None, Some policy => policy
  | None, None => eddsa_default
  end.

(** ** Theorems *)

Lemma from_jose_name_inv name algorithm : from_jose_name name = Some algorithm →
  name = as_jose_name algorithm ∨ name = fully_specified_name algorithm.
Proof. unfold from_jose_name. repeat case_bool_decide; simpl; intros [= <-]; subst; auto. Qed.

(** The algorithm names round-trip, in the polymorphic and in
    the fully specified form, and no other name parses: in particular neither
    [none] nor an HMAC name does, whatever its case. *)
Theorem jose_names_closed algorithm name :
  from_jose_name (as_jose_name algorithm) = Some algorithm ∧
  from_jose_name (fully_specified_name algorithm) = Some algorithm ∧
  (from_jose_name name = Some algorithm ↔
   name = as_jose_name algorithm ∨ name = fully_specified_name algorithm).
Proof.
  split; [by destruct algorithm|]. split; [by destruct algorithm|]. split.
  - apply from_jose_name_inv.
  - intros [->| ->]; by destruct algorithm.
Qed.

Lemma dedup_spec algorithms : ∀ acc, NoDup acc →
  let l := foldl push_new acc algorithms in
  NoDup l ∧ (∀ alg, alg ∈ l ↔ alg ∈ acc ∨ alg ∈ algorithms) ∧ ∃ tail, l = acc ++ tail.
Proof.
  induction algorithms as [|a algorithms IH]; intros acc Hnd; simpl.
  { split; [done|]. split; [set_solver|]. exists []. by rewrite app_nil_r. }
  destruct (decide (a ∈ acc)) as [Ha|Ha].
  - assert (push_new acc a = acc) as -> by (unfold push_new; by rewrite bool_decide_eq_true_2).
    destruct (IH acc Hnd) as (? & ? & ?). set_solver.
  - assert (push_new acc a = acc ++ [a]) as -> by (unfold push_new; by rewrite bool_decide_eq_false_2).
    destruct (IH (acc ++ [a])) as (Hn & Hin & tail & Heq).
    { apply NoDup_app. split_and!; [done|set_solver|apply NoDup_singleton]. }
    split; [exact Hn|]. split; [intros alg; rewrite Hin; set_solver|].
    exists (a :: tail). by rewrite Heq, <-app_assoc.
Qed.

(** Building a policy fails only on an empty allowlist, keeps
    exactly the listed algorithms without duplicates and the first of them as the
    preferred one, and RS256 stays published under every policy. *)
Theorem signing_policy_new_spec algorithms :
  (algorithms = [] → SigningPolicy_new algorithms = Err EmptyAllowlist) ∧
  (algorithms ≠ [] → ∃ policy, SigningPolicy_new algorithms = Ok policy ∧
    NoDup (allowed policy) ∧ head algorithms = Some (preferred policy) ∧
    (∀ alg, permits policy alg = true ↔ alg ∈ algorithms) ∧
    (∀ alg, retains_in_jwks policy alg = true ↔ alg ∈ algorithms ∨ alg = Rs256)).
Proof.
  split; [by intros ->|]. destruct algorithms as [|a algorithms]; [done|]. intros _.
  exists {| allowed := foldl push_new [a] algorithms |}. split; [reflexivity|].
  destruct (dedup_spec algorithms [a]) as (Hnd & Hin & tail & Heq); [apply NoDup_singleton|].
  simpl in Hnd, Hin, Heq. unfold retains_in_jwks, permits, preferred. simpl.
  assert (∀ alg, alg ∈ foldl push_new [a] algorithms ↔ alg ∈ a :: algorithms) as Hmem.
  { intros alg. rewrite Hin, list_elem_of_singleton, elem_of_cons. done. }
  split; [done|]. split; [by rewrite Heq|].
  split; intros alg; rewrite ?orb_true_iff, !bool_decide_eq_true, Hmem; done.
Qed.

Lemma signing_policy_new_spec_witness :
  ∃ policy, SigningPolicy_new [Es256; Rs256; Es256] = Ok policy ∧ NoDup (allowed policy).
Proof.
  destruct (proj2 (signing_policy_new_spec [Es256; Rs256; Es256]) ltac:(discriminate))
    as (policy & Hnew & Hnd & _).
  by exists policy.
Defined.
