(* ===== verification/Rotation.v ===== *)
(** * Signing-key rotation (crates/ironauth-jose/src/rotation.rs)

    A key set with the publication, activation, retirement and expiry instants
    of each key, the rotation command and the queries.  An instant is a number
    of nanoseconds since the Unix epoch within the range of [SystemTime] on a
    64-bit Unix target; a duration saturates at the maximum of [Duration].  Key
    material is a parameter: only the algorithm and the [kid] of a key are read. *)

From S2P Require Import Prelude SigningPolicy.

Open Scope Z_scope.

(** ** Time *)

Definition NANOS : Z := 1000000000.
Definition TIME_MIN : Z := - 2 ^ 63 * NANOS.
Definition TIME_MAX : Z := 2 ^ 63 * NANOS - 1.
Definition DURATION_MAX : Z := 2 ^ 64 * NANOS - 1.
Definition UNIX_EPOCH : Z := 0.

Definition saturating_add (a b : Z) : Z := Z.min (a + b) DURATION_MAX.

(** [SystemTime::checked_add] and [checked_sub]. *)
Definition time_checked_add (t d : Z) : option Z :=
  if t + d <=? TIME_MAX then Some (t + d) else None.

Definition time_checked_sub (t d : Z) : option Z :=
  if TIME_MIN <=? t - d then Some (t - d) else None.

(** [Iterator::max_by_key]: the last of the greatest elements. *)
Definition max_by_key {A} (key : A → Z) (l : list A) : option A :=
  foldl (λ best x,
    match best with
    | None => Some x
    | Some b => if key b <=? key x then Some x else Some b
    end) None l.

Record RotationParams : Type := {
  cache_ttl : Z;
  max_token_lifetime : Z;
  prepublish_buffer : Z
}.

Definition prepublish_lead (params : RotationParams) : Z :=
  saturating_add (saturating_add (cache_ttl params) (max_token_lifetime params))
    (prepublish_buffer params).

Definition retention_after_retire (params : RotationParams) : Z := max_token_lifetime params.

Record KeyLifecycle : Type := {
  publish_at : Z;
  activate_at : Z;
  retire_at : option Z;
  expire_at : option Z
}.

Inductive RotationError : Type := NonMonotonicActivation.

(** The secret material of a signing key ([KeyInner]) belongs to the cryptography
    crates: a parameter. *)
Class SecretMaterial := { KeyInner : Type }.

Record SigningKey `{SecretMaterial} : Type := {
  kid : option string;
  algorithm : JwsAlgorithm;
  inner : KeyInner
}.

Record ManagedKey `{SecretMaterial} : Type := { mk_key : SigningKey; lifecycle : KeyLifecycle }.

(** [KeySet] has one field, the vector of keys. *)
Abbreviation KeySet := (list ManagedKey) (only parsing).

Section Rotation.
Context `{SecretMaterial}.

Definition mk_algorithm (managed : ManagedKey) : JwsAlgorithm := algorithm (mk_key managed).

Definition from_lifecycles (keys : list (SigningKey * KeyLifecycle)) : KeySet :=
  (λ kl, {| mk_key := kl.1; lifecycle := kl.2 |}) <$> keys.

(** A key published and active from one instant. *)
Definition day_one (key : SigningKey) (activate : Z) : ManagedKey := {|
  mk_key := key;
  lifecycle := {| publish_at := activate; activate_at := activate;
                  retire_at := None; expire_at := None |} |}.

Definition bootstrap (initial : SigningKey) (activate : Z) : KeySet := [day_one initial activate].

Definition add (keys : KeySet) (key : SigningKey) (activate : Z) : KeySet :=
  keys ++ [day_one key activate].

Definition is_head (alg : JwsAlgorithm) (managed : ManagedKey) : bool :=
  bool_decide (mk_algorithm managed = alg) && bool_decide (retire_at (lifecycle managed) = None).

Definition head_index_for (keys : KeySet) (alg : JwsAlgorithm) : option nat :=
  fst <$> max_by_key (λ im : nat * ManagedKey, activate_at (lifecycle im.2))
            (filter (λ im : nat * ManagedKey, is_head alg im.2) (imap pair keys)).

(** Retire a key at the activation of its successor. *)
Definition retire (params : RotationParams) (activate : Z) (managed : ManagedKey) : ManagedKey := {|
  mk_key := mk_key managed;
  lifecycle := {|
    publish_at := publish_at (lifecycle managed);
    activate_at := activate_at (lifecycle managed);
    retire_at := Some activate;
    expire_at := time_checked_add activate (retention_after_retire params) |} |}.

(** The successor, published a full lead before its first use. *)
Definition successor (next : SigningKey) (activate : Z) (params : RotationParams) : ManagedKey := {|
  mk_key := next;
  lifecycle := {|
    publish_at := default UNIX_EPOCH (time_checked_sub activate (prepublish_lead params));
    activate_at := activate; retire_at := None; expire_at := None |} |}.

Definition rotate (keys : KeySet) (next : SigningKey) (activate : Z) (params : RotationParams)
    : Result KeySet RotationError :=
  match head_index_for keys (algorithm next) ≫= λ head, pair head <$> keys !! head with
  | Some (head, managed) =>
      if activate <=? activate_at (lifecycle managed) then Err NonMonotonicActivation
      else Ok (<[head := retire params activate managed]> keys ++ [successor next activate params])
  | None => Ok (keys ++ [successor next activate params])
  end.

Definition is_active (now : Z) (managed : ManagedKey) : bool :=
  (activate_at (lifecycle managed) <=? now) &&
  match retire_at (lifecycle managed) with None => true | Some r => now <? r end.

Definition active_managed_for (keys : KeySet) (now : Z) (alg : JwsAlgorithm) : option ManagedKey :=
  max_by_key (λ m, activate_at (lifecycle m))
    (filter (λ m, bool_decide (mk_algorithm m = alg) && is_active now m) keys).

Definition active_signer_for (keys : KeySet) (now : Z) (alg : JwsAlgorithm) : option SigningKey :=
  mk_key <$> active_managed_for keys now alg.

Definition active_signer (keys : KeySet) (now : Z) : option SigningKey :=
  mk_key <$> max_by_key (λ m, activate_at (lifecycle m)) (filter (λ m, is_active now m) keys).

Definition active_kid (keys : KeySet) (now : Z) : option string := active_signer keys now ≫= kid.

(** [find_map] over the policy's algorithms in preference order. *)
Definition signer_for_policy (keys : KeySet) (now : Z) (policy : SigningPolicy) : option SigningKey :=
  head (omap (active_signer_for keys now) (allowed policy)).

Definition is_published (now : Z) (managed : ManagedKey) : bool :=
  (publish_at (lifecycle managed) <=? now) &&
  match expire_at (lifecycle managed) with None => true | Some e => now <? e end.

Definition published_keys (keys : KeySet) (now : Z) : list ManagedKey :=
  filter (λ m, is_published now m) keys.

(** The keys [published_jwks] serialises. *)
Definition published_under (keys : KeySet) (now : Z) (policy : SigningPolicy) : list ManagedKey :=
  filter (λ m, retains_in_jwks policy (mk_algorithm m)) (published_keys keys now).

Definition published_kids (keys : KeySet) (now : Z) (policy : SigningPolicy) : list string :=
  omap (λ m, kid (mk_key m)) (published_under keys now policy).

Definition published_signing_keys (keys : KeySet) (now : Z) : list SigningKey :=
  mk_key <$> published_keys keys now.

Definition all_kids (keys : KeySet) : list string := omap (λ m, kid (mk_key m)) keys.

(** The [HashSet::insert] loop of [kids_are_unique]. *)
Fixpoint all_fresh (kids : list string) (seen : gset string) : bool :=
  match kids with
  | [] => true
  | k :: rest => negb (bool_decide (k ∈ seen)) && all_fresh rest ({[k]} ∪ seen)
  end.

Definition kids_are_unique (keys : KeySet) : bool :=
  (length (all_kids keys) =? length keys)%nat && all_fresh (all_kids keys) ∅.

Definition includes_downgrade_key (algorithms : list JwsAlgorithm) : bool :=
  bool_decide (Rs256 ∈ algorithms).

(** [JwkSet::from_signing_keys]: the JSON Web Keys in order, or the first error.
    Deriving one public key from the secret material is a parameter. *)
Fixpoint from_signing_keys {Jwk E} (from_signing_key : SigningKey → Result Jwk E)
    (keys : list SigningKey) : Result (list Jwk) E :=
  match keys with
  | [] => Ok []
  | key :: rest =>
      let? jwk := from_signing_key key in
      let? jwks := from_signing_keys from_signing_key rest in
      Ok (jwk :: jwks)
  end.

Definition published_jwks {Jwk E} (from_signing_key : SigningKey → Result Jwk E)
    (keys : KeySet) (now : Z) (policy : SigningPolicy) : Result (list Jwk) E :=
  from_signing_keys from_signing_key (mk_key <$> published_under keys now policy).

End Rotation.

(** ** Selecting the greatest *)

Lemma max_by_key_fold {A} (key : A → Z) l : ∀ b, ∃ m,
  foldl (λ best x, match best with None => Some x
                   | Some b => if key b <=? key x then Some x else Some b end) (Some b) l = Some m ∧
  (m = b ∨ m ∈ l) ∧ key b ≤ key m ∧ ∀ x, x ∈ l → key x ≤ key m.
Proof.
  induction l as [|x l IH]; intros b; simpl.
  { exists b. split; [done|]. split; [by left|]. split; [lia|set_solver]. }
  destruct (key b <=? key x) eqn:Hle.
  - destruct (IH x) as (m & Hm & Hin & Hge & Hall). exists m. split; [done|].
    split; [set_solver|]. split; [lia|]. intros y [->|Hy]%elem_of_cons; auto.
  - destruct (IH b) as (m & Hm & Hin & Hge & Hall). exists m. split; [done|].
    split; [set_solver|]. split; [lia|]. intros y [->|Hy]%elem_of_cons; [lia|auto].
Qed.

Lemma max_by_key_Some {A} (key : A → Z) l m : max_by_key key l = Some m →
  m ∈ l ∧ ∀ x, x ∈ l → key x ≤ key m.
Proof.
  unfold max_by_key. destruct l as [|x l]; [done|]. simpl.
  destruct (max_by_key_fold key l x) as (m' & -> & Hin & Hge & Hall). intros [= <-].
  split; [set_solver|]. intros y [->|Hy]%elem_of_cons; auto.
Qed.

Lemma max_by_key_None {A} (key : A → Z) l : max_by_key key l = None ↔ l = [].
Proof.
  unfold max_by_key. destruct l as [|x l]; [done|]. simpl.
  destruct (max_by_key_fold key l x) as (m' & -> & _). done.
Qed.

(** ** Rotation *)

Section RotationTheorems.
Context `{SecretMaterial}.
Implicit Types (keys : KeySet) (m : ManagedKey) (alg : JwsAlgorithm).

Abbreviation activation m := (activate_at (lifecycle m)).
Abbreviation retirement m := (retire_at (lifecycle m)).

Lemma is_head_spec alg m : is_head alg m = true ↔ mk_algorithm m = alg ∧ retirement m = None.
Proof. unfold is_head. by rewrite andb_true_iff, !bool_decide_eq_true. Qed.

Lemma head_index_for_Some keys alg i : head_index_for keys alg = Some i →
  ∃ m, keys !! i = Some m ∧ mk_algorithm m = alg ∧ retirement m = None.
Proof.
  unfold head_index_for. intros ([j m] & Hmax & ->)%fmap_Some.
  apply max_by_key_Some in Hmax as [[Hh Him]%list_elem_of_filter _].
  apply elem_of_lookup_imap_1 in Him as (j' & m' & [= -> ->] & Hj). exists m'.
  apply Is_true_true, is_head_spec in Hh. naive_solver.
Qed.

Lemma head_index_for_None keys alg m : head_index_for keys alg = None →
  m ∈ keys → mk_algorithm m = alg → retirement m ≠ None.
Proof.
  unfold head_index_for. intros Hnone%fmap_None%max_by_key_None [i Hi]%list_elem_of_lookup Ha Hr.
  assert ((i, m) ∈ filter (λ im : nat * ManagedKey, is_head alg im.2) (imap pair keys)) as Hin.
  { apply list_elem_of_filter. split; [by apply Is_true_true, is_head_spec|].
    by eapply (elem_of_lookup_imap_2 pair). }
  rewrite Hnone in Hin. set_solver.
Qed.

(** The two ways a rotation succeeds. *)
Lemma rotate_inv keys next activate params keys' : rotate keys next activate params = Ok keys' →
  (∃ i m, keys !! i = Some m ∧ mk_algorithm m = algorithm next ∧ retirement m = None ∧
     activation m < activate ∧
     keys' = <[i := retire params activate m]> keys ++ [successor next activate params]) ∨
  ((∀ m, m ∈ keys → mk_algorithm m = algorithm next → retirement m ≠ None) ∧
   keys' = keys ++ [successor next activate params]).
Proof.
  unfold rotate. destruct (head_index_for keys (algorithm next)) as [i|] eqn:Hh; simpl.
  - destruct (head_index_for_Some _ _ _ Hh) as (m & Hm & Ha & Hr). rewrite Hm. simpl.
    destruct (_ <=? _) eqn:Hle; [done|]. intros [= <-]. left. exists i, m.
    split_and!; [done..|lia|done].
  - intros [= <-]. right. split; [|done]. intros m Hm Ha. by eapply head_index_for_None.
Qed.

(** *** One signer per algorithm *)

(** The keys of one algorithm, in insertion order. *)
Definition lineage keys alg : list ManagedKey := filter (λ m, mk_algorithm m = alg) keys.

(** Each key retires when the next one activates, later than itself; the last
    one has not retired. *)
Fixpoint chained (l : list ManagedKey) : Prop :=
  match l with
  | [] => True
  | m :: rest =>
      match rest with
      | [] => retirement m = None
      | next :: _ => retirement m = Some (activation next) ∧ activation m < activation next
      end ∧ chained rest
  end.

(** The commands on a key set.  A refused rotation leaves the set as it was. *)
Inductive KeyCommand : Type :=
| AddKey (key : SigningKey) (activate : Z)
| RotateKey (next : SigningKey) (activate : Z) (params : RotationParams).

Definition apply_command keys (command : KeyCommand) : KeySet :=
  match command with
  | AddKey key activate => add keys key activate
  | RotateKey next activate params =>
      match rotate keys next activate params with Ok keys' => keys' | Err _ => keys end
  end.

(** The key set a genesis key and a sequence of commands build. *)
Definition built (initial : SigningKey) (activate : Z) (commands : list KeyCommand) : KeySet :=
  foldl apply_command (bootstrap initial activate) commands.

(** Every addition brings the first key of its algorithm.  [add] does not check it. *)
Fixpoint adds_new_algorithms keys (commands : list KeyCommand) : bool :=
  match commands with
  | [] => true
  | command :: rest =>
      match command with
      | AddKey key _ => bool_decide (lineage keys (algorithm key) = [])
      | RotateKey _ _ _ => true
      end && adds_new_algorithms (apply_command keys command) rest
  end.

Lemma chained_app_unretired l m l' : chained (l ++ m :: l') → retirement m = None → l' = [].
Proof.
  induction l as [|x l IH]; simpl; intros Hc Hr.
  - destruct l' as [|y l']; [done|]. destruct Hc as [[Hs _] _]. congruence.
  - destruct Hc as [_ Hc]. by apply IH.
Qed.

Lemma chained_last l : chained l → l ≠ [] → ∃ m, m ∈ l ∧ retirement m = None.
Proof.
  induction l as [|x l IH]; [done|]. intros Hc _. destruct l as [|y l].
  - destruct Hc as [Hr _]. exists x. split; [left|done].
  - destruct Hc as [_ Hc]. destruct (IH Hc) as (m & Hm & Hr); [done|]. exists m.
    split; [by right|done].
Qed.

Lemma chained_extend l m m' next : chained (l ++ [m]) →
  activation m' = activation m → retirement m' = Some (activation next) →
  activation m < activation next → retirement next = None →
  chained (l ++ [m'; next]).
Proof.
  induction l as [|x l IH]; simpl; intros Hc Ha Hr Hlt Hn.
  - rewrite Ha. done.
  - destruct Hc as [Hx Hc]. split; [|by apply IH]. destruct l; simpl in *; [by rewrite Ha|done].
Qed.

Lemma lineage_app k1 k2 alg : lineage (k1 ++ k2) alg = lineage k1 alg ++ lineage k2 alg.
Proof. apply filter_app. Qed.

Lemma lineage_cons m keys alg :
  lineage (m :: keys) alg = if decide (mk_algorithm m = alg) then m :: lineage keys alg else lineage keys alg.
Proof. unfold lineage. by rewrite filter_cons. Qed.

Lemma rotate_chained keys next activate params keys' :
  (∀ alg, chained (lineage keys alg)) → rotate keys next activate params = Ok keys' →
  ∀ alg, chained (lineage keys' alg).
Proof.
  intros Hc [(i & m & Hi & Ha & Hr & Hlt & ->)|[Hno ->]]%rotate_inv alg; specialize (Hc alg).
  - rewrite insert_take_drop by (by eapply lookup_lt_Some).
    rewrite <-(take_drop_middle _ _ _ Hi) in Hc.
    rewrite !lineage_app, !lineage_cons in *. change (lineage [] alg) with (@nil ManagedKey).
    change (mk_algorithm (retire params activate m)) with (mk_algorithm m).
    change (mk_algorithm (successor next activate params)) with (algorithm next).
    destruct (decide (mk_algorithm m = alg)) as [Hm|Hm].
    + rewrite decide_True by congruence.
      rewrite (chained_app_unretired _ _ _ Hc Hr) in Hc |- *. simpl. rewrite <-app_assoc. simpl.
      by eapply chained_extend.
    + rewrite decide_False by congruence. by rewrite app_nil_r.
  - rewrite lineage_app, lineage_cons. change (lineage [] alg) with (@nil ManagedKey).
    change (mk_algorithm (successor next activate params)) with (algorithm next).
    case_decide as Hn; [|by rewrite app_nil_r].
    destruct (decide (lineage keys alg = [])) as [->|Hne]; [done|].
    destruct (chained_last _ Hc Hne) as (m & [Hm Hin]%list_elem_of_filter & Hr).
    destruct (Hno m); [done|congruence|done].
Qed.

Lemma built_chained keys commands : (∀ alg, chained (lineage keys alg)) →
  adds_new_algorithms keys commands = true →
  ∀ alg, chained (lineage (foldl apply_command keys commands) alg).
Proof.
  revert keys. induction commands as [|command commands IH]; intros keys Hc; [done|].
  cbn [adds_new_algorithms foldl]. intros [Hnew Hrest]%andb_true_iff. apply IH; [|done]. intros alg.
  destruct command as [key activate|next activate params]; cbn [apply_command].
  - apply bool_decide_eq_true in Hnew. unfold add. rewrite lineage_app, lineage_cons.
    change (lineage [] alg) with (@nil ManagedKey).
    case_decide as Ha; [|rewrite app_nil_r; apply Hc].
    change (mk_algorithm (day_one key activate)) with (algorithm key) in Ha. subst alg.
    by rewrite Hnew.
  - destruct (rotate keys next activate params) as [keys'|] eqn:Hrot; [|apply Hc].
    by eapply rotate_chained.
Qed.

Lemma bootstrap_chained key activate alg : chained (lineage (bootstrap key activate) alg).
Proof. unfold bootstrap. rewrite lineage_cons. by case_decide. Qed.

(** A key that retires has a successor: a later key of its algorithm that activates
    when it retires. *)
Definition lineage_succeeded keys : Prop :=
  ∀ m r, m ∈ keys → retirement m = Some r → activation m < r ∧
    ∃ m', m' ∈ keys ∧ mk_algorithm m' = mk_algorithm m ∧ activation m' = r.

Lemma lineage_succeeded_snoc keys m : lineage_succeeded keys → retirement m = None → lineage_succeeded (keys ++ [m]).
Proof.
  intros Hs Hr x r. rewrite elem_of_app, list_elem_of_singleton. intros [Hx| ->] Hret; [|congruence].
  destruct (Hs x r Hx Hret) as [Hlt (m' & Hm' & Hrest)]. split; [done|]. exists m'. split; [set_solver|done].
Qed.

Lemma lineage_succeeded_retire keys i m next activate params : lineage_succeeded keys → keys !! i = Some m →
  mk_algorithm m = algorithm next → activation m < activate →
  lineage_succeeded (<[i := retire params activate m]> keys ++ [successor next activate params]).
Proof.
  intros Hs Hi Ha Hlt x r. rewrite elem_of_app, list_elem_of_singleton. intros [Hx| ->] Hret; [|done].
  assert (∀ y, y ∈ keys → ∃ y', y' ∈ <[i := retire params activate m]> keys ∧
            mk_algorithm y' = mk_algorithm y ∧ activation y' = activation y) as Hkeep.
  { intros y [j Hj]%list_elem_of_lookup. destruct (decide (i = j)) as [->|Hne].
    - assert (y = m) as -> by congruence. exists (retire params activate m). split; [|done].
      apply list_elem_of_insert. by eapply lookup_lt_Some.
    - exists y. split; [|done]. apply (list_elem_of_lookup_2 _ j). by rewrite list_lookup_insert_ne. }
  apply list_elem_of_lookup in Hx as [j Hj].
  apply list_lookup_insert_Some in Hj as [(-> & <- & _)|[_ Hj]].
  - injection Hret as <-. split; [done|]. exists (successor next activate params). split; [set_solver|done].
  - destruct (Hs x r (list_elem_of_lookup_2 _ _ _ Hj) Hret) as [Hx (m' & Hm' & Halg & Hact)].
    split; [done|]. destruct (Hkeep m' Hm') as (m'' & Hin & Halg' & Hact'). exists m''.
    split; [set_solver|]. split; congruence.
Qed.

Lemma built_lineage_succeeded initial activate commands : lineage_succeeded (built initial activate commands).
Proof.
  unfold built. assert (lineage_succeeded (bootstrap initial activate)) as Hs
    by (by intros m r ->%list_elem_of_singleton).
  revert Hs. generalize (bootstrap initial activate).
  induction commands as [|command commands IH]; intros keys Hs; [done|]. simpl. apply IH.
  destruct command as [key act|next act params]; cbn [apply_command].
  - by apply lineage_succeeded_snoc.
  - destruct (rotate keys next act params) as [keys'|] eqn:Hrot; [|done].
    apply rotate_inv in Hrot as [(i & m & Hi & Ha & _ & Hlt & ->)|[_ ->]].
    + by apply lineage_succeeded_retire.
    + by apply lineage_succeeded_snoc.
Qed.

(** The key of an algorithm that activated last is active. *)
Lemma lineage_succeeded_active keys now alg m : lineage_succeeded keys →
  m ∈ keys → mk_algorithm m = alg → activation m ≤ now →
  ∃ m', m' ∈ keys ∧ mk_algorithm m' = alg ∧ is_active now m' = true.
Proof.
  intros Hs Hm Ha Hle.
  set (candidates := filter (λ m, bool_decide (mk_algorithm m = alg ∧ activation m ≤ now)) keys).
  destruct (max_by_key (λ m, activation m) candidates) as [top|] eqn:Hmax.
  - apply max_by_key_Some in Hmax as [[[Htop Hnow]%bool_decide_eq_true Hin]%elem_of_filter_true Hall].
    exists top. split; [done|]. split; [done|]. unfold is_active. apply andb_true_iff. split; [lia|].
    destruct (retirement top) as [r|] eqn:Hr; [|done]. apply Z.ltb_lt.
    destruct (Hs top r Hin Hr) as [Hlt (m' & Hm' & Halg & Hact)]. apply Z.nle_gt. intros Hrn.
    assert (m' ∈ candidates) as Hc.
    { apply elem_of_filter_true. split; [|done]. apply bool_decide_eq_true. split; [congruence|lia]. }
    specialize (Hall m' Hc). simpl in Hall. lia.
  - apply max_by_key_None in Hmax. assert (m ∈ candidates) as Hc.
    { apply elem_of_filter_true. split; [by apply bool_decide_eq_true|done]. }
    rewrite Hmax in Hc. by apply elem_of_nil in Hc.
Qed.

(** In a chain the activity windows partition the time from the first
    activation on. *)
Lemma chained_active now l : chained l →
  length (filter (λ m, is_active now m) l) =
  match head l with Some first => if activation first <=? now then 1%nat else 0%nat | None => 0%nat end.
Proof.
  induction l as [|m l IH]; [done|]. intros [Hm Hc]. rewrite filter_cons.
  assert (is_active now m = (activation m <=? now) &&
    match head l with None => true | Some next => now <? activation next end) as Hact.
  { unfold is_active. destruct l as [|next l]; simpl; [by rewrite Hm|]. by rewrite (proj1 Hm). }
  specialize (IH Hc). destruct l as [|next l]; cbn [head hd_error] in *; cbv iota in *.
  - rewrite andb_true_r in Hact.
    case_decide as Hd; rewrite Hact in Hd; by destruct (_ <=? now).
  - destruct Hm as [_ Hlt]. case_decide as Hd; rewrite Hact in Hd;
      destruct (activation m <=? now) eqn:H1, (now <? activation next) eqn:H2,
        (activation next <=? now) eqn:H3; simpl in Hd; try done; try lia;
      rewrite ?length_cons, IH; done.
Qed.

(** C10 (invariant): an algorithm is never left without a signer.  In the key set
    that a genesis key and any sequence of additions and rotations build, an
    algorithm has an active signer at exactly the instants at or after the earliest
    activation of its keys.  When moreover every addition brings the first key of
    its algorithm, exactly one key of the algorithm is active at each of these
    instants, so the signer is not ambiguous. *)
Theorem one_active_signer initial activate commands now alg :
  let keys := built initial activate commands in
  (active_signer_for keys now alg = None ↔
   ∀ m, m ∈ keys → mk_algorithm m = alg → now < activation m) ∧
  (adds_new_algorithms (bootstrap initial activate) commands = true →
   length (filter (λ m, is_active now m) (lineage keys alg)) =
     match head (lineage keys alg) with
     | Some first => if activation first <=? now then 1%nat else 0%nat
     | None => 0%nat
     end).
Proof.
  intros keys. split.
  - unfold active_signer_for, active_managed_for. rewrite fmap_None, max_by_key_None. split.
    + intros Hnil m Hm Ha. apply Z.nle_gt. intros Hle.
      destruct (lineage_succeeded_active keys now alg m (built_lineage_succeeded _ _ _) Hm Ha Hle) as (m' & Hm' & Ha' & Hact).
      assert (m' ∈ filter (λ m, bool_decide (mk_algorithm m = alg) && is_active now m) keys) as Hin.
      { apply elem_of_filter_true. split; [|done]. by rewrite Hact, bool_decide_eq_true_2. }
      rewrite Hnil in Hin. by apply elem_of_nil in Hin.
    + intros Hall. destruct (filter _ keys) as [|m l] eqn:Hf; [done|].
      assert (m ∈ filter (λ m, bool_decide (mk_algorithm m = alg) && is_active now m) keys) as Hin
        by (rewrite Hf; left).
      apply elem_of_filter_true in Hin as [[Ha%bool_decide_eq_true Hact]%andb_true_iff Hm].
      specialize (Hall m Hm Ha). unfold is_active in Hact. lia.
  - intros Hnew. apply chained_active. apply built_chained; [|done]. apply bootstrap_chained.
Qed.

(** *** The policy *)

(** The signer is found at the first permitted algorithm that has an active key. *)
Lemma signer_for_policy_inv keys now policy key :
  signer_for_policy keys now policy = Some key →
  ∃ before m after, allowed policy = before ++ algorithm key :: after ∧
    (∀ alg, alg ∈ before → active_signer_for keys now alg = None) ∧
    m ∈ keys ∧ mk_key m = key ∧ is_active now m = true.
Proof.
  unfold signer_for_policy. intros Hhead.
  assert (∃ before alg after, allowed policy = before ++ alg :: after ∧
    (∀ alg, alg ∈ before → active_signer_for keys now alg = None) ∧
    active_signer_for keys now alg = Some key) as (before & alg & after & Hall & Hbefore & Hs).
  { induction (allowed policy) as [|alg algs IH]; [done|]. simpl in Hhead.
    destruct (active_signer_for keys now alg) as [k|] eqn:Hk.
    - injection Hhead as ->. exists [], alg, algs. set_solver.
    - destruct (IH Hhead) as (before & alg' & after & -> & Hb & Hs).
      exists (alg :: before), alg', after. split; [done|]. split; [|done].
      intros a [->|Ha]%elem_of_cons; auto. }
  unfold active_signer_for in Hs. apply fmap_Some in Hs as (m & Hm & ->).
  apply max_by_key_Some in Hm as [[[Ha%bool_decide_eq_true Hact]%andb_true_iff Hin]%elem_of_filter_true _].
  exists before, m, after. change (algorithm (mk_key m)) with (mk_algorithm m). by rewrite Ha.
Qed.

Lemma permits_app policy before alg after :
  allowed policy = before ++ alg :: after → permits policy alg = true.
Proof. intros Hall. apply bool_decide_eq_true. rewrite Hall. set_solver. Qed.

(** The signer chosen under a policy is an active key of an
    algorithm the policy permits, preferred over every later one; a banned
    algorithm never signs. *)
Theorem signer_for_policy_permitted keys now policy key :
  signer_for_policy keys now policy = Some key →
  permits policy (algorithm key) = true ∧
  (∃ m, m ∈ keys ∧ mk_key m = key ∧ is_active now m = true) ∧
  ∃ before after, allowed policy = before ++ algorithm key :: after ∧
    ∀ alg, alg ∈ before → active_signer_for keys now alg = None.
Proof.
  intros (before & m & after & Hall & Hbefore & Hm)%signer_for_policy_inv.
  split; [by eapply permits_app|]. split; eauto.
Qed.

(** *** No live token is orphaned *)

(** A token: the key that signed it, the instant it was minted and the one it
    expires. *)
Record Token : Type := { tk_key : SigningKey; tk_minted : Z; tk_expiry : Z }.

(** The issuer over time: the clock, the key set, the tokens minted so far. *)
Record Issuer : Type := { is_clock : Z; is_keys : KeySet; is_tokens : list Token }.

(** Time passes; an operator runs a command on the key set; the issuer mints a
    token under an algorithm. *)
Inductive IssuerEvent : Type :=
| Elapse (duration : N)
| Rotate (next : SigningKey) (activate : Z)
| Add (key : SigningKey) (activate : Z)
| MintToken (alg : JwsAlgorithm) (lifetime : Z).

(** One event under the rotation parameters.  A rotation or an addition may name any
    instant, past ones too; a refused rotation changes nothing.  A token is minted
    when the algorithm has an active signer and the lifetime is within the longest
    one the parameters declare. *)
Definition issuer_step (params : RotationParams) (s : Issuer) (event : IssuerEvent) : Issuer :=
  match event with
  | Elapse duration =>
      {| is_clock := is_clock s + Z.of_N duration; is_keys := is_keys s; is_tokens := is_tokens s |}
  | Rotate next activate =>
      {| is_clock := is_clock s;
         is_keys := apply_command (is_keys s) (RotateKey next activate params);
         is_tokens := is_tokens s |}
  | Add key activate =>
      {| is_clock := is_clock s; is_keys := apply_command (is_keys s) (AddKey key activate);
         is_tokens := is_tokens s |}
  | MintToken alg lifetime =>
      match active_signer_for (is_keys s) (is_clock s) alg with
      | Some key =>
          if lifetime <=? max_token_lifetime params then
            {| is_clock := is_clock s; is_keys := is_keys s;
               is_tokens := {| tk_key := key; tk_minted := is_clock s;
                               tk_expiry := is_clock s + lifetime |} :: is_tokens s |}
          else s
      | None => s
      end
  end.

(** No rotation of the run takes effect before the moment it is commanded.  [rotate]
    does not check it: it has no clock. *)
Fixpoint prospective (params : RotationParams) (s : Issuer) (events : list IssuerEvent) : bool :=
  match events with
  | [] => true
  | event :: rest =>
      match event with Rotate _ activate => is_clock s <=? activate | _ => true end &&
      prospective params (issuer_step params s event) rest
  end.

(** The lifecycle of a key is consistent with the parameters. *)
Definition scheduled (params : RotationParams) m : Prop :=
  publish_at (lifecycle m) ≤ Z.max UNIX_EPOCH (activation m) ∧
  match retirement m with
  | None => expire_at (lifecycle m) = None
  | Some r => ∀ e, expire_at (lifecycle m) = Some e → e = r + max_token_lifetime params
  end.

(** A key was retired as of an instant before another. *)
Definition retired_before (minted : Z) m : Prop := ∃ r, retirement m = Some r ∧ r < minted.

Record issuer_ok (params : RotationParams) (future : Prop) (s : Issuer) : Prop := {
  io_clock : 0 ≤ is_clock s;
  io_keys : ∀ m, m ∈ is_keys s → scheduled params m;
  io_tokens : ∀ token, token ∈ is_tokens s →
    tk_minted token ≤ is_clock s ∧
    tk_expiry token ≤ tk_minted token + max_token_lifetime params ∧
    ∃ m, m ∈ is_keys s ∧ mk_key m = tk_key token ∧ publish_at (lifecycle m) ≤ tk_minted token ∧
      (future → ¬ retired_before (tk_minted token) m)
}.

Lemma successor_scheduled next activate params :
  0 ≤ prepublish_lead params → scheduled params (successor next activate params).
Proof.
  intros Hl. split; [|done]. simpl. unfold time_checked_sub, UNIX_EPOCH.
  destruct (_ <=? _); simpl; lia.
Qed.

Lemma retire_scheduled params activate m : scheduled params m →
  scheduled params (retire params activate m).
Proof.
  intros [Hp _]. split; [done|]. simpl. unfold time_checked_add, retention_after_retire.
  intros e. destruct (_ <=? _); [|done]. by intros [= <-].
Qed.

#[local] Hint Resolve successor_scheduled retire_scheduled : ironauth.

(** A rotation keeps every key, retired or not, in the set. *)
Lemma rotate_keeps keys next activate params keys' m :
  rotate keys next activate params = Ok keys' → m ∈ keys →
  m ∈ keys' ∨ (retirement m = None ∧ retire params activate m ∈ keys').
Proof.
  intros [(i & h & Hi & _ & Hr & _ & ->)|[_ ->]]%rotate_inv [j Hj]%list_elem_of_lookup.
  - destruct (decide (i = j)) as [->|Hne].
    + right. assert (h = m) as -> by congruence. split; [done|]. apply elem_of_app_in_l.
      apply list_elem_of_insert. by eapply lookup_lt_Some.
    + left. apply elem_of_app_in_l, (list_elem_of_lookup_2 _ j). by rewrite list_lookup_insert_ne.
  - left. eauto with ironauth.
Qed.

Lemma rotate_scheduled keys next activate params keys' : 0 ≤ prepublish_lead params →
  rotate keys next activate params = Ok keys' →
  (∀ m, m ∈ keys → scheduled params m) → ∀ m, m ∈ keys' → scheduled params m.
Proof.
  intros Hl [(i & h & Hi & _ & Hr & _ & ->)|[_ ->]]%rotate_inv Hs m;
    rewrite elem_of_app, list_elem_of_singleton; intros [Hm| ->]; auto with ironauth.
  apply list_elem_of_lookup in Hm as [j Hj].
  apply list_lookup_insert_Some in Hj as [(-> & <- & _)|[_ Hj]]; eauto with ironauth.
Qed.

Lemma active_managed_spec keys now alg key : active_signer_for keys now alg = Some key →
  ∃ m, m ∈ keys ∧ mk_key m = key ∧ is_active now m = true.
Proof.
  unfold active_signer_for. intros (m & Hm & ->)%fmap_Some. exists m.
  apply max_by_key_Some in Hm as [[[_ Hact]%andb_true_iff Hin]%elem_of_filter_true _]. done.
Qed.

Lemma rotated_token_ok params future s next activate token keys' :
  (future → is_clock s ≤ activate) → rotate (is_keys s) next activate params = Ok keys' →
  tk_minted token ≤ is_clock s →
  (∃ m, m ∈ is_keys s ∧ mk_key m = tk_key token ∧ publish_at (lifecycle m) ≤ tk_minted token ∧
     (future → ¬ retired_before (tk_minted token) m)) →
  ∃ m, m ∈ keys' ∧ mk_key m = tk_key token ∧ publish_at (lifecycle m) ≤ tk_minted token ∧
    (future → ¬ retired_before (tk_minted token) m).
Proof.
  intros Hfut Hrot Hmint (m & Hm & Hk & Hp & Hret).
  destruct (rotate_keeps _ _ _ _ _ _ Hrot Hm) as [Hin|[_ Hin]]; [by exists m|].
  exists (retire params activate m). split_and!; [done..|].
  intros Hf (r & [= <-] & Hlt). specialize (Hfut Hf). lia.
Qed.

Lemma issuer_step_ok params (future : Prop) s event : 0 ≤ prepublish_lead params →
  (future → match event with Rotate _ activate => is_clock s <=? activate | _ => true end = true) →
  issuer_ok params future s → issuer_ok params future (issuer_step params s event).
Proof.
  intros Hl Hfut [Hclock Hkeys Htokens].
  destruct event as [duration|next activate|key activate|alg lifetime]; cbn [issuer_step apply_command].
  - split; simpl; [lia|done|]. intros token Ht.
    destruct (Htokens token Ht) as (Hm & He & Hkey). split; [lia|done].
  - destruct (rotate (is_keys s) next activate params) as [keys'|] eqn:Hrot; [|by destruct s].
    split; simpl; [done|by eapply rotate_scheduled|]. intros token Ht.
    destruct (Htokens token Ht) as (Hm & He & Hkey). split; [done|]. split; [done|].
    eapply rotated_token_ok; [|done..]. intros Hf. specialize (Hfut Hf). simpl in Hfut. lia.
  - unfold add. split; simpl; [done| |].
    + intros m. rewrite elem_of_app, list_elem_of_singleton. intros [Hm| ->]; [by apply Hkeys|].
      split; [simpl; lia|done].
    + intros token Ht. destruct (Htokens token Ht) as (Hm & He & m & Hin & Hk). split; [done|].
      split; [done|]. exists m. split; [apply elem_of_app; by left|done].
  - destruct (active_signer_for _ _ _) as [key|] eqn:Hact; [|done]. destruct (_ <=? _) eqn:Hlife; [|done].
    split; simpl; [done..|]. intros token [->|Ht]%elem_of_cons; [|by apply Htokens]. simpl.
    split; [lia|]. split; [lia|]. destruct (active_managed_spec _ _ _ _ Hact) as (m & Hm & Hk & Ha).
    exists m. destruct (Hkeys m Hm) as [Hpub _]. unfold is_active in Ha.
    apply andb_true_iff in Ha as [Ha Hr]. unfold UNIX_EPOCH in Hpub. split_and!; [done..|lia|].
    intros _ (r & Hret & Hlt). rewrite Hret in Hr. lia.
Qed.

Lemma issuer_run_ok params (future : Prop) events : ∀ s, 0 ≤ prepublish_lead params →
  (future → prospective params s events = true) → issuer_ok params future s →
  issuer_ok params future (foldl (issuer_step params) s events).
Proof.
  induction events as [|event events IH]; intros s Hl Hfut Hok; [done|]. simpl in *.
  apply IH; [done| |].
  - intros Hf. by apply Hfut in Hf as [_ Hf]%andb_true_iff.
  - apply issuer_step_ok; [done| |done]. intros Hf. by apply Hfut in Hf as [Hf _]%andb_true_iff.
Qed.

(** The key of a live token is published, unless it was retired as of an instant
    before the token was minted. *)
Lemma live_key_published params future s token : issuer_ok params future s →
  token ∈ is_tokens s → is_clock s < tk_expiry token →
  tk_key token ∈ published_signing_keys (is_keys s) (is_clock s) ∨
  ∃ m, m ∈ is_keys s ∧ mk_key m = tk_key token ∧ retired_before (tk_minted token) m ∧ ¬ future.
Proof.
  intros [Hclock Hkeys Htokens] Ht Hlive.
  destruct (Htokens token Ht) as (Hmint & He & m & Hm & Hk & Hp & Hfut).
  destruct (decide (is_published (is_clock s) m = true)) as [Hpub|Hpub].
  - left. rewrite <-Hk. unfold published_signing_keys, published_keys.
    apply list_elem_of_fmap_2, list_elem_of_filter. split; [by apply Is_true_true|done].
  - assert (retired_before (tk_minted token) m) as Hret; [|right; naive_solver].
    unfold is_published in Hpub. destruct (Hkeys m Hm) as [_ Hexp]. unfold retired_before.
    destruct (expire_at (lifecycle m)) as [e|]; [|rewrite andb_true_r in Hpub; lia].
    destruct (retirement m) as [r|]; [|done]. exists r. split; [done|].
    rewrite (Hexp e eq_refl) in Hpub. lia.
Qed.

(** C9 (safety): a live token keeps its key.  Through any sequence of additions,
    rotations, mints and passage of time under one set of parameters, the key of
    every unexpired token is published, or a rotation has retired it as of an instant
    before the token was minted.  In a run whose rotations take effect no earlier
    than the moment they are commanded, the second never happens: no in-flight token
    is orphaned from its key. *)
Theorem live_tokens_verifiable params keys clock events token :
  let start := {| is_clock := clock; is_keys := keys; is_tokens := [] |} in
  let s := foldl (issuer_step params) start events in
  0 ≤ prepublish_lead params → 0 ≤ clock →
  (∀ m, m ∈ keys → scheduled params m) →
  token ∈ is_tokens s → is_clock s < tk_expiry token →
  (tk_key token ∈ published_signing_keys (is_keys s) (is_clock s) ∨
   ∃ m, m ∈ is_keys s ∧ mk_key m = tk_key token ∧ retired_before (tk_minted token) m) ∧
  (prospective params start events = true →
   tk_key token ∈ published_signing_keys (is_keys s) (is_clock s)).
Proof.
  intros start s Hl Hclock Hkeys Ht Hlive.
  assert (∀ future : Prop, (future → prospective params start events = true) → issuer_ok params future s)
    as Hok by (intros future Hfut; apply issuer_run_ok; [done..|]; split; simpl; [done..|set_solver]).
  split.
  - destruct (live_key_published params False s token) as [|(m & Hm & Hk & Hr & _)]; eauto.
  - intros Hp. destruct (live_key_published params True s token) as [|(m & _ & _ & _ & [])]; eauto.
Qed.

(** *** The published set serves the signer *)

(** The keys are serialised one by one, in order. *)
Lemma from_signing_keys_Forall2 {Jwk E} (f : SigningKey → Result Jwk E) ks jwks :
  from_signing_keys f ks = Ok jwks ↔ Forall2 (λ k jwk, f k = Ok jwk) ks jwks.
Proof.
  revert jwks. induction ks as [|k ks IH]; intros jwks; simpl.
  { split; [intros [= <-]; constructor|]. by inversion 1. }
  destruct (f k) as [jwk|e] eqn:Hk; [|split; [done|inversion 1; congruence]].
  destruct (from_signing_keys f ks) as [rest|e] eqn:Hr.
  - split; [intros [= <-]; constructor; [done|by apply IH]|].
    inversion 1 as [|? ? ? ? Hy Hrest]; subst. apply IH in Hrest. congruence.
  - split; [done|]. inversion 1 as [|? ? ? ? Hy Hrest]; subst. apply IH in Hrest. congruence.
Qed.

(** An active key of a consistent lifecycle is published. *)
Lemma active_is_published params now m : 0 ≤ max_token_lifetime params → UNIX_EPOCH ≤ now →
  scheduled params m → is_active now m = true → is_published now m = true.
Proof.
  intros Hl Hnow [Hpub Hret] [Ha Hr]%andb_true_iff. apply andb_true_iff. split; [lia|].
  destruct (expire_at (lifecycle m)) as [e|] eqn:He; [|done].
  destruct (retirement m) as [r|]; [|congruence]. rewrite (Hret e eq_refl). lia.
Qed.

(** The published key set always serves the key that signs.  Under
    one policy and at one instant, the JSON Web Key of the signer is in the
    published set, which holds the JSON Web Keys of exactly the published keys
    the policy retains, in the order of the key set. *)
Theorem published_jwks_serves_signer {Jwk E} (f : SigningKey → Result Jwk E)
    params keys now policy jwks :
  0 ≤ max_token_lifetime params → UNIX_EPOCH ≤ now → (∀ m, m ∈ keys → scheduled params m) →
  published_jwks f keys now policy = Ok jwks →
  (∀ key, signer_for_policy keys now policy = Some key → ∃ jwk, f key = Ok jwk ∧ jwk ∈ jwks) ∧
  ∀ jwk, jwk ∈ jwks ↔ ∃ m, m ∈ keys ∧ is_published now m = true ∧
    (permits policy (mk_algorithm m) = true ∨ mk_algorithm m = Rs256) ∧ f (mk_key m) = Ok jwk.
Proof.
  intros Hlife Hnow Hkeys Hall%from_signing_keys_Forall2.
  assert (∀ m, m ∈ published_under keys now policy ↔ m ∈ keys ∧ is_published now m = true ∧
    (permits policy (mk_algorithm m) = true ∨ mk_algorithm m = Rs256)) as Hunder.
  { intros m. unfold published_under, published_keys. rewrite !elem_of_filter_true.
    unfold retains_in_jwks. rewrite orb_true_iff, bool_decide_eq_true. tauto. }
  assert (∀ jwk, jwk ∈ jwks ↔ ∃ m, m ∈ published_under keys now policy ∧ f (mk_key m) = Ok jwk) as Hin.
  { intros jwk. split.
    - intros [i Hi]%list_elem_of_lookup.
      destruct (Forall2_lookup_r _ _ _ _ _ Hall Hi) as (k & Hk & Hf).
      apply list_elem_of_lookup_2, list_elem_of_fmap in Hk as (m & -> & Hm). eauto.
    - intros (m & Hm & Hf). assert (mk_key m ∈ mk_key <$> published_under keys now policy)
        as [i Hi]%list_elem_of_lookup by by apply list_elem_of_fmap_2.
      destruct (Forall2_lookup_l _ _ _ _ _ Hall Hi) as (j & Hj & Hf').
      apply (list_elem_of_lookup_2 _ i). congruence. }
  split; [|intros jwk; rewrite Hin; setoid_rewrite Hunder; naive_solver].
  intros key (before & m & after & Hp%permits_app & _ & Hm & <- & Hact)%signer_for_policy_inv.
  assert (m ∈ published_under keys now policy) as Hmu
    by (apply Hunder; split_and!; [done|eapply active_is_published; eauto|by left]).
  destruct (proj1 (list_elem_of_lookup _ _) (list_elem_of_fmap_2 mk_key _ _ Hmu)) as [i Hi].
  destruct (Forall2_lookup_l _ _ _ _ _ Hall Hi) as (j & Hj & Hf). eauto with ironauth.
Qed.

(** *** Pre-publication *)

(** A rotated-in key is published the whole of the longest cache
    lifetime, token lifetime and buffer before it first signs: for instants after
    the epoch whose lead does not saturate, a relying party that fetched the key
    set at any moment within that lead of the activation saw the key. *)
Theorem successor_prepublished keys next activate params keys' fetched :
  0 ≤ cache_ttl params → 0 ≤ max_token_lifetime params → 0 ≤ prepublish_buffer params →
  cache_ttl params + max_token_lifetime params + prepublish_buffer params ≤ DURATION_MAX →
  TIME_MIN ≤ activate - prepublish_lead params →
  rotate keys next activate params = Ok keys' →
  activate - (cache_ttl params + max_token_lifetime params + prepublish_buffer params) ≤ fetched →
  next ∈ published_signing_keys keys' fetched ∧
  ∃ m, last keys' = Some m ∧ mk_key m = next ∧
    (∀ now, now < activate → is_active now m = false) ∧
    (∀ now, activate ≤ now → is_active now m = true).
Proof.
  intros H1 H2 H3 Hd Hmin Hrot Hf.
  assert (∃ l, keys' = l ++ [successor next activate params]) as [l ->].
  { apply rotate_inv in Hrot as [(i & m & _ & _ & _ & _ & ->)|[_ ->]]; eauto. }
  assert (prepublish_lead params =
    cache_ttl params + max_token_lifetime params + prepublish_buffer params) as Hlead.
  { unfold prepublish_lead, saturating_add. lia. }
  split.
  - unfold published_signing_keys, published_keys. rewrite filter_app, fmap_app, elem_of_app. right.
    rewrite filter_cons. rewrite decide_True; [simpl; left|]. apply Is_true_true.
    unfold is_published. simpl. unfold time_checked_sub.
    rewrite (proj2 (Z.leb_le _ _) Hmin), andb_true_r. simpl. lia.
  - exists (successor next activate params). rewrite last_snoc. split; [done|]. split; [done|].
    unfold is_active. simpl. split; intros now Hnow; rewrite andb_true_r; lia.
Qed.

(** *** Key identifiers *)

Lemma all_fresh_spec kids : ∀ seen, all_fresh kids seen = true ↔
  NoDup kids ∧ ∀ k, k ∈ kids → k ∉ seen.
Proof.
  induction kids as [|k kids IH]; intros seen; simpl.
  { split; [|done]. intros _. split; [apply NoDup_nil_2|set_solver]. }
  rewrite andb_true_iff, negb_true_iff, bool_decide_eq_false, IH, NoDup_cons. set_solver.
Qed.

(** The uniqueness check accepts a key set exactly when every
    key has an identifier and no two keys of its full history share one. *)
Theorem kids_are_unique_spec keys :
  kids_are_unique keys = true ↔
  (∀ m, m ∈ keys → is_Some (kid (mk_key m))) ∧ NoDup (all_kids keys).
Proof.
  unfold kids_are_unique. rewrite andb_true_iff, all_fresh_spec, Nat.eqb_eq.
  assert (length (all_kids keys) = length keys ↔ ∀ m, m ∈ keys → is_Some (kid (mk_key m))) as ->;
    [|set_solver].
  unfold all_kids. induction keys as [|m keys IH]; [set_solver|].
  assert (length (omap (λ m, kid (mk_key m)) keys) ≤ length keys)%nat as Hle.
  { clear. induction keys as [|m keys IH]; [done|]. csimpl. destruct (kid _); rewrite ?length_cons; lia. }
  setoid_rewrite elem_of_cons. csimpl. destruct (kid (mk_key m)) as [k|] eqn:Hk; rewrite ?length_cons.
  - split; [|intros Hall; f_equal; apply IH; auto].
    intros [= Hlen]. pose proof (proj1 IH Hlen) as Hall. intros m' [->|Hm']; [by rewrite Hk|auto].
  - split; [lia|]. intros Hall. destruct (Hall m (or_introl eq_refl)). congruence.
Qed.

End RotationTheorems.

(** ** A concrete key set *)

Module RotationSamples.

(** The secret material as a seed. *)
#[export] Instance sample_keys : SecretMaterial := {| KeyInner := Z |}.

Definition genesis : SigningKey := {| kid := Some "genesis"%string; algorithm := EdDsa; inner := 1 |}.
Definition next_key : SigningKey := {| kid := Some "next"%string; algorithm := EdDsa; inner := 2 |}.

Definition sample_params : RotationParams :=
  {| cache_ttl := 300; max_token_lifetime := 3600; prepublish_buffer := 60 |}.

Definition sample_commands : list KeyCommand := [RotateKey next_key 200 sample_params].

Lemma one_active_signer_witness :
  active_signer_for (built genesis 100 sample_commands) 50 EdDsa = None ∧
  length (filter (λ m, is_active 250 m) (lineage (built genesis 100 sample_commands) EdDsa)) = 1%nat.
Proof.
  split.
  - refine (proj2 (proj1 (one_active_signer genesis 100 sample_commands 50 EdDsa)) _).
    apply (Forall_forall (λ m, mk_algorithm m = EdDsa → 50 < activate_at (lifecycle m))).
    repeat (constructor; [by intros _; vm_compute|]). constructor.
  - exact (proj2 (one_active_signer genesis 100 sample_commands 250 EdDsa) eq_refl).
Defined.

(** Two additions of one algorithm leave two keys of it active. *)
Lemma second_addition_overlaps :
  length (filter (λ m, is_active 250 m) (lineage (built genesis 100 [AddKey next_key 200]) EdDsa)) = 2%nat.
Proof. reflexivity. Qed.

Lemma signer_for_policy_permitted_witness : permits eddsa_default (algorithm genesis) = true.
Proof.
  refine (proj1 (signer_for_policy_permitted (bootstrap genesis 100) 150 eddsa_default genesis _)).
  reflexivity.
Defined.

Definition sample_start : Issuer :=
  {| is_clock := 10; is_keys := bootstrap genesis 0; is_tokens := [] |}.

Lemma live_tokens_verifiable_witness :
  genesis ∈ published_signing_keys
    (is_keys (foldl (issuer_step sample_params) sample_start
       [MintToken EdDsa 3600; Elapse 10; Rotate next_key 30; Elapse 100])) 120.
Proof.
  refine (proj2 (live_tokens_verifiable sample_params (bootstrap genesis 0) 10
    [MintToken EdDsa 3600; Elapse 10; Rotate next_key 30; Elapse 100]
    {| tk_key := genesis; tk_minted := 10; tk_expiry := 3610 |} _ _ _ _ _) _).
  - vm_compute. discriminate.
  - lia.
  - intros m ->%list_elem_of_singleton. split; [simpl; lia|reflexivity].
  - left.
  - simpl. lia.
  - reflexivity.
Defined.

(** A rotation dated before a mint takes the key of a live token out of the published
    set: [rotate] compares the instant only with the activation of the head. *)
Lemma backdated_rotation_withdraws :
  let s := foldl (issuer_step sample_params)
    {| is_clock := 5000; is_keys := bootstrap genesis 0; is_tokens := [] |}
    [MintToken EdDsa 3600; Rotate next_key 100; Elapse 1] in
  is_tokens s = [{| tk_key := genesis; tk_minted := 5000; tk_expiry := 8600 |}] ∧
  is_clock s = 5001 ∧ published_signing_keys (is_keys s) (is_clock s) = [next_key].
Proof. done. Qed.

Lemma published_jwks_serves_signer_witness :
  ∃ jwk, Ok (kid genesis) = (Ok jwk : Result (option string) ()) ∧ jwk ∈ [Some "genesis"%string].
Proof.
  refine (proj1 (published_jwks_serves_signer (E := ()) (λ key, Ok (kid key)) sample_params
    (bootstrap genesis 100) 150 eddsa_default _ _ _ _ _) genesis _).
  - vm_compute. discriminate.
  - vm_compute. discriminate.
  - intros m ->%list_elem_of_singleton. split; [simpl; lia|reflexivity].
  - reflexivity.
  - reflexivity.
Defined.

Lemma successor_prepublished_witness :
  next_key ∈ published_signing_keys
    ([retire sample_params 10000 (day_one genesis 0)] ++ [successor next_key 10000 sample_params]) 6040.
Proof.
  refine (proj1 (successor_prepublished (bootstrap genesis 0) next_key 10000 sample_params
    _ 6040 _ _ _ _ _ _ _)); try (simpl; lia); try (vm_compute; discriminate).
  reflexivity.
Defined.

End RotationSamples.
