(* ===== verification/JosePolicy.v ===== *)
(** * The verification policy (crates/ironauth-jose/src/policy.rs)

    The trusted keys, the token profiles with their media types, and the policy a
    token is verified against.  A duration is a number of nanoseconds. *)

From S2P Require Import Prelude Bytes Text SigningPolicy.

Local Open Scope Z_scope.

(** ** Trusted keys *)

Inductive KeyMaterial : Type :=
| MatEd25519 (pk : bytes)
| MatEcP256 (point : bytes)
| MatEcP384 (point : bytes)
| MatRsa (n e : bytes).

Definition material_family (material : KeyMaterial) : KeyFamily :=
  match material with
  | MatEd25519 _ => Ed25519
  | MatEcP256 _ => EcP256
  | MatEcP384 _ => EcP384
  | MatRsa _ _ => Rsa
  end.

Record TrustedKey : Type := { trusted_kid : option string; material : KeyMaterial }.

Inductive KeyError : Type :=
| BadLength (expected actual : Z)
| BadEncoding.

Definition sec1_point (x y : bytes) (coord_len : Z) : Result bytes KeyError :=
  if negb (Z.of_nat (length x) =? coord_len) then Err (BadLength coord_len (Z.of_nat (length x)))
  else if negb (Z.of_nat (length y) =? coord_len) then Err (BadLength coord_len (Z.of_nat (length y)))
  else Ok (0x04 :: x ++ y).

Definition check_uncompressed_point (point : bytes) (expected : Z) : Result () KeyError :=
  if negb (Z.of_nat (length point) =? expected) then
    Err (BadLength expected (Z.of_nat (length point)))
  else if negb (bool_decide (head point = Some 0x04)) then Err BadEncoding
  else Ok ().

Fixpoint strip_leading_zeros (bs : bytes) : bytes :=
  match bs with
  | b :: rest => if b =? 0 then strip_leading_zeros rest else bs
  | [] => []
  end.

Definition trusted_ed25519 (kid : option string) (public_key : bytes) : Result TrustedKey KeyError :=
  if negb (Z.of_nat (length public_key) =? 32) then
    Err (BadLength 32 (Z.of_nat (length public_key)))
  else Ok {| trusted_kid := kid; material := MatEd25519 public_key |}.

Definition trusted_ecdsa_p256 (kid : option string) (x y : bytes) : Result TrustedKey KeyError :=
  let? point := sec1_point x y 32 in
  Ok {| trusted_kid := kid; material := MatEcP256 point |}.

Definition trusted_ecdsa_p384 (kid : option string) (x y : bytes) : Result TrustedKey KeyError :=
  let? point := sec1_point x y 48 in
  Ok {| trusted_kid := kid; material := MatEcP384 point |}.

Definition trusted_ecdsa_p256_point (kid : option string) (point : bytes)
    : Result TrustedKey KeyError :=
  let? _ := check_uncompressed_point point 65 in
  Ok {| trusted_kid := kid; material := MatEcP256 point |}.

Definition trusted_ecdsa_p384_point (kid : option string) (point : bytes)
    : Result TrustedKey KeyError :=
  let? _ := check_uncompressed_point point 97 in
  Ok {| trusted_kid := kid; material := MatEcP384 point |}.

Definition trusted_rsa (kid : option string) (n e : bytes) : Result TrustedKey KeyError :=
  let n_trimmed := strip_leading_zeros n in
  if Z.of_nat (length n_trimmed) <? 256 then
    Err (BadLength 256 (Z.of_nat (length n_trimmed)))
  else
    let e_trimmed := strip_leading_zeros e in
    match e_trimmed with
    | [] => Err (BadLength 1 0)
    | _ => Ok {| trusted_kid := kid; material := MatRsa n_trimmed e_trimmed |}
    end.

Definition trusted_family (key : TrustedKey) : KeyFamily := material_family (material key).

(** ** Caps *)

Record VerificationCaps : Type := {
  max_token_bytes : Z;
  max_header_bytes : Z;
  max_payload_bytes : Z;
  max_decompression_ratio : Z;
  max_pbes2_count : Z
}.

Definition CAPS_DEFAULT : VerificationCaps := {|
  max_token_bytes := 16 * 1024;
  max_header_bytes := 4 * 1024;
  max_payload_bytes := 16 * 1024;
  max_decompression_ratio := 10;
  max_pbes2_count := 10000 |}.

(** ** Token profiles *)

Inductive TokenTyp : Type :=
| AccessToken | IdToken | LogoutToken | JourneyInterchange | SessionToken | TransactionToken
| SecurityEventToken.

#[export] Instance TokenTyp_eq_dec : EqDecision TokenTyp.
Proof. solve_decision. Defined.

Definition media_type (typ : TokenTyp) : string :=
  match typ with
  | AccessToken => "at+jwt"
  | IdToken => "JWT"
  | LogoutToken => "logout+jwt"
  | JourneyInterchange => "iaj+jws"
  | SessionToken => "session+jwt"
  | TransactionToken => "txn_token"
  | SecurityEventToken => "secevent+jwt"
  end.

Definition ALL_PROFILES : list TokenTyp :=
  [AccessToken; IdToken; LogoutToken; JourneyInterchange; SessionToken; TransactionToken;
   SecurityEventToken].

Definition MEDIA_TYPE_PREFIX : string := "application/".

(** The first bytes can only equal the ASCII prefix when they end at a character
    boundary, so the [None] of [str::get] needs no case. *)
Definition foreign_media_type_is (header_typ : option string) (expected : string) : bool :=
  match header_typ with
  | None => false
  | Some candidate =>
      let candidate := lit candidate in
      let prefix := lit MEDIA_TYPE_PREFIX in
      let bare :=
        if (length prefix <=? length candidate)%nat &&
           eq_ignore_ascii_case (take (length prefix) candidate) prefix
        then drop (length prefix) candidate else candidate in
      eq_ignore_ascii_case bare (lit expected)
  end.

Definition typ_matches (typ : TokenTyp) (header_typ : option string) : bool :=
  foreign_media_type_is header_typ (media_type typ).

Inductive ExpectedTyp : Type :=
| Required (typ : TokenTyp)
| ForeignIssuer.

Definition accepts (expected : ExpectedTyp) (header_typ : option string) : bool :=
  match expected with
  | Required typ => typ_matches typ header_typ
  | ForeignIssuer => true
  end.

(** ** The policy *)

Record VerificationPolicy : Type := {
  vp_algorithms : list JwsAlgorithm;
  vp_keys : list TrustedKey;
  vp_expected_iss : string;
  vp_expected_aud : string;
  vp_expected_typ : ExpectedTyp;
  vp_max_skew : Z;
  vp_caps : VerificationCaps;
  vp_require_iat : bool;
  vp_allow_expired : bool;
  vp_allow_absent_exp : bool
}.

Inductive PolicyError : Type := EmptyPolicyAllowlist | NoKeys | EmptyIssuer | EmptyAudience.

Definition NANOS_PER_SEC : Z := 1000000000.

Definition DEFAULT_SKEW : Z := 60 * NANOS_PER_SEC.

Definition VerificationPolicy_new (algorithms : list JwsAlgorithm) (keys : list TrustedKey)
    (expected_iss expected_aud : string) (expected_typ : ExpectedTyp)
    : Result VerificationPolicy PolicyError :=
  if bool_decide (algorithms = []) then Err EmptyPolicyAllowlist
  else match keys with
  | [] => Err NoKeys
  | _ =>
      if bool_decide (expected_iss = "") then Err EmptyIssuer
      else if bool_decide (expected_aud = "") then Err EmptyAudience
      else Ok {|
        vp_algorithms := algorithms; vp_keys := keys;
        vp_expected_iss := expected_iss; vp_expected_aud := expected_aud;
        vp_expected_typ := expected_typ; vp_max_skew := DEFAULT_SKEW; vp_caps := CAPS_DEFAULT;
        vp_require_iat := false; vp_allow_expired := false; vp_allow_absent_exp := false |}
  end.

Definition with_skew (policy : VerificationPolicy) (skew : Z) : VerificationPolicy := {|
  vp_algorithms := vp_algorithms policy; vp_keys := vp_keys policy;
  vp_expected_iss := vp_expected_iss policy; vp_expected_aud := vp_expected_aud policy;
  vp_expected_typ := vp_expected_typ policy; vp_max_skew := skew; vp_caps := vp_caps policy;
  vp_require_iat := vp_require_iat policy; vp_allow_expired := vp_allow_expired policy;
  vp_allow_absent_exp := vp_allow_absent_exp policy |}.

Definition with_caps (policy : VerificationPolicy) (caps : VerificationCaps) : VerificationPolicy := {|
  vp_algorithms := vp_algorithms policy; vp_keys := vp_keys policy;
  vp_expected_iss := vp_expected_iss policy; vp_expected_aud := vp_expected_aud policy;
  vp_expected_typ := vp_expected_typ policy; vp_max_skew := vp_max_skew policy; vp_caps := caps;
  vp_require_iat := vp_require_iat policy; vp_allow_expired := vp_allow_expired policy;
  vp_allow_absent_exp := vp_allow_absent_exp policy |}.

Definition require_iat (policy : VerificationPolicy) (required : bool) : VerificationPolicy := {|
  vp_algorithms := vp_algorithms policy; vp_keys := vp_keys policy;
  vp_expected_iss := vp_expected_iss policy; vp_expected_aud := vp_expected_aud policy;
  vp_expected_typ := vp_expected_typ policy; vp_max_skew := vp_max_skew policy;
  vp_caps := vp_caps policy;
  vp_require_iat := required; vp_allow_expired := vp_allow_expired policy;
  vp_allow_absent_exp := vp_allow_absent_exp policy |}.

Definition allow_expired (policy : VerificationPolicy) (allow : bool) : VerificationPolicy := {|
  vp_algorithms := vp_algorithms policy; vp_keys := vp_keys policy;
  vp_expected_iss := vp_expected_iss policy; vp_expected_aud := vp_expected_aud policy;
  vp_expected_typ := vp_expected_typ policy; vp_max_skew := vp_max_skew policy;
  vp_caps := vp_caps policy;
  vp_require_iat := vp_require_iat policy; vp_allow_expired := allow;
  vp_allow_absent_exp := vp_allow_absent_exp policy |}.

Definition allow_absent_exp (policy : VerificationPolicy) (allow : bool) : VerificationPolicy := {|
  vp_algorithms := vp_algorithms policy; vp_keys := vp_keys policy;
  vp_expected_iss := vp_expected_iss policy; vp_expected_aud := vp_expected_aud policy;
  vp_expected_typ := vp_expected_typ policy; vp_max_skew := vp_max_skew policy;
  vp_caps := vp_caps policy;
  vp_require_iat := vp_require_iat policy; vp_allow_expired := vp_allow_expired policy;
  vp_allow_absent_exp := allow |}.

(** ** Profiles are separate *)

(** No media type is another one up to case, with or without the prefix. *)
Lemma media_types_separate typ typ' header_typ :
  typ_matches typ header_typ = true → typ_matches typ' header_typ = true → typ = typ'.
Proof.
  destruct header_typ as [candidate|]; [|done]. unfold typ_matches, foreign_media_type_is.
  set (bare := if _ && _ then _ else _). clearbody bare.
  intros H%bool_decide_eq_true H'%bool_decide_eq_true. rewrite H in H'.
  by destruct typ, typ'.
Qed.
