(* ===== verification/JoseHeader.v ===== *)
(** * The protected header of a token (crates/ironauth-jose/src/header.rs, json.rs
    and error.rs)

    The reasons a token is refused, the parser of an object with distinct keys, and
    the guards of the protected header.  The theorem [parse_header_ok] lists what a
    header must satisfy to pass them. *)

From S2P Require Import Prelude Bytes Text Json SigningPolicy JosePolicy.

Local Open Scope Z_scope.

(** ** Reasons *)

Inductive RejectReason : Type :=
| TokenTooLarge | MalformedStructure | SegmentTooLarge | Base64Malformed | HeaderMalformed
| AlgNone | UnsupportedAlg | AlgNotAllowed | EmbeddedKeyInjection | UnknownCrit | MalformedCrit
| EncryptionPresent | CompressionPresent | UnsupportedHeaderParam | Pbes2Present | UnknownKid
| TypMismatch | KeyTypeMismatch | SignatureInvalid | ClaimsMalformed | ClaimMissing | Expired
| NotYetValid | IssuedInFuture | IssuerMismatch | AudienceMismatch.

(** ** Objects with distinct keys *)

(** [serde_json], third-party: the entries of a byte string that is a JSON object,
    in order and with repeated keys, and the value of a JSON byte string. *)
Class JsonReader `{SerdeNumber} := {
  json_entries : bytes → option Map;
  json_value : bytes → option Value
}.

Section Header.
Context `{JsonReader}.

(** The visitor's loop: a repeated key is an error. *)
Fixpoint visit_map (entries map : Map) : option Map :=
  match entries with
  | [] => Some map
  | (key, value) :: rest =>
      if contains_key map key then None else visit_map rest (map ++ [(key, value)])
  end.

Definition parse_unique_object (bs : bytes) : option Map :=
  json_entries bs ≫= λ entries, visit_map entries [].

(** ** The header *)

Record ProtectedHeader : Type := {
  header_alg : JwsAlgorithm;
  header_kid : option string;
  header_typ : option string
}.

Definition REGISTERED_HEADER_PARAMS : list string :=
  ["alg"; "jku"; "jwk"; "kid"; "x5u"; "x5c"; "x5t"; "x5t#S256"; "typ"; "cty"; "crit"; "enc";
   "zip"; "epk"; "apu"; "apv"; "iv"; "tag"; "aad"; "p2s"; "p2c"].

Definition classify_alg (alg : option Value) : Result JwsAlgorithm RejectReason :=
  match alg with
  | None | Some VNull => Err AlgNone
  | Some (VString name) =>
      let trimmed := trim (lit name) in
      if bool_decide (trimmed = []) || eq_ignore_ascii_case trimmed (lit "none") then Err AlgNone
      else match from_jose_name name with
      | Some algorithm => Ok algorithm
      | None => Err UnsupportedAlg
      end
  | Some _ => Err HeaderMalformed
  end.

Fixpoint classify_crit_loop (members : list Value) (seen : list string) : RejectReason :=
  match members with
  | [] => UnknownCrit
  | VString name :: rest =>
      if bool_decide (name ∈ seen) then MalformedCrit
      else if bool_decide (name ∈ REGISTERED_HEADER_PARAMS) then MalformedCrit
      else classify_crit_loop rest (seen ++ [name])
  | _ :: _ => MalformedCrit
  end.

Definition classify_crit (crit : Value) : RejectReason :=
  match crit with
  | VArray [] => MalformedCrit
  | VArray members => classify_crit_loop members []
  | _ => MalformedCrit
  end.

Definition value_as_u64 (value : Value) : option Z :=
  match value with VNumber n => as_u64 n | _ => None end.

(** A member that must be a string when it is present. *)
Definition optional_member (object : Map) (name : string) (malformed : RejectReason)
    : Result (option string) RejectReason :=
  match map_get object name with
  | None | Some VNull => Ok None
  | Some (VString s) => Ok (Some s)
  | Some _ => Err malformed
  end.

Definition parse_header (bs : bytes) (caps : VerificationCaps) : Result ProtectedHeader RejectReason :=
  match parse_unique_object bs with
  | None => Err HeaderMalformed
  | Some object =>
      if contains_key object "enc" || contains_key object "epk" || contains_key object "tag" then
        Err EncryptionPresent
      else if contains_key object "zip" then Err CompressionPresent
      else if contains_key object "b64" then Err UnsupportedHeaderParam
      else if contains_key object "p2s" then Err Pbes2Present
      else match map_get object "p2c" with
      | Some p2c =>
          match value_as_u64 p2c with
          | Some count => if max_pbes2_count caps <? count then Err Pbes2Present else Err Pbes2Present
          | None => Err Pbes2Present
          end
      | None =>
          if contains_key object "jwk" || contains_key object "jku" || contains_key object "x5u" ||
             contains_key object "x5c" then Err EmbeddedKeyInjection
          else match map_get object "crit" with
          | Some crit => Err (classify_crit crit)
          | None =>
              let? alg := classify_alg (map_get object "alg") in
              let? kid := optional_member object "kid" HeaderMalformed in
              let? typ := optional_member object "typ" HeaderMalformed in
              Ok {| header_alg := alg; header_kid := kid; header_typ := typ |}
          end
      end
  end.

(** ** What a header must satisfy *)

Lemma map_get_None (object : Map) name : map_get object name = None ↔ name ∉ object.*1.
Proof.
  unfold map_get. rewrite fmap_None, list_find_None, Forall_forall. split.
  - intros Hn ([k v] & Hk & Hkv)%list_elem_of_fmap. by apply (Hn (k, v)).
  - intros Hn [k v] Hkv Hk. apply Hn, list_elem_of_fmap. by exists (k, v).
Qed.

Lemma contains_key_true (object : Map) name : contains_key object name = true ↔ name ∈ object.*1.
Proof.
  unfold contains_key. rewrite bool_decide_eq_true, <-not_eq_None_Some, map_get_None.
  destruct (decide (name ∈ object.*1)); tauto.
Qed.

Lemma contains_key_false (object : Map) name : contains_key object name = false ↔ name ∉ object.*1.
Proof. by rewrite <-not_true_iff_false, contains_key_true. Qed.

(** An object is parsed exactly when no key repeats. *)
Lemma visit_map_spec entries : ∀ map object : Map, NoDup map.*1 →
  visit_map entries map = Some object ↔ object = map ++ entries ∧ NoDup object.*1.
Proof.
  induction entries as [|[k v] entries IH]; intros map object Hmap; simpl.
  { rewrite app_nil_r. naive_solver. }
  destruct (contains_key map k) eqn:Hk.
  - apply contains_key_true in Hk. split; [done|]. intros [-> Hnd]. exfalso.
    rewrite fmap_app in Hnd. apply NoDup_app in Hnd as (_ & Hd & _). apply (Hd k Hk). left.
  - apply contains_key_false in Hk. rewrite IH, <-app_assoc; [done|].
    rewrite fmap_app. apply NoDup_app. split; [done|]. simpl. split; [set_solver|].
    apply NoDup_singleton.
Qed.

Lemma parse_unique_object_spec bs object :
  parse_unique_object bs = Some object ↔ json_entries bs = Some object ∧ NoDup object.*1.
Proof.
  unfold parse_unique_object. destruct (json_entries bs) as [entries|]; simpl; [|naive_solver].
  rewrite visit_map_spec by apply NoDup_nil_2. naive_solver.
Qed.

(** The header members that would let a token steer its own verification. *)
Definition STEERING_PARAMS : list string :=
  ["enc"; "epk"; "tag"; "zip"; "b64"; "p2s"; "p2c"; "jwk"; "jku"; "x5u"; "x5c"; "crit"].

(** A member is absent or null, or is a string. *)
Definition string_member (object : Map) (name : string) (v : option string) : Prop :=
  match v with
  | None => map_get object name = None ∨ map_get object name = Some VNull
  | Some s => map_get object name = Some (VString s)
  end.

Lemma optional_member_spec object name malformed v :
  optional_member object name malformed = Ok v ↔ string_member object name v.
Proof.
  unfold optional_member, string_member.
  destruct (map_get object name) as [[]|], v; naive_solver.
Qed.

Lemma string_member_fun object name v v' :
  string_member object name v → string_member object name v' → v = v'.
Proof. unfold string_member. destruct v, v'; naive_solver congruence. Qed.

Record header_ok (object : Map) (header : ProtectedHeader) : Prop := {
  ho_steering : ∀ name, name ∈ STEERING_PARAMS → name ∉ object.*1;
  ho_alg : ∃ name, map_get object "alg" = Some (VString name) ∧
    from_jose_name name = Some (header_alg header);
  ho_kid : string_member object "kid" (header_kid header);
  ho_typ : string_member object "typ" (header_typ header)
}.

(** No supported name is blank or spells [none]. *)
Lemma classify_alg_spec alg algorithm :
  classify_alg alg = Ok algorithm ↔
  ∃ name, alg = Some (VString name) ∧ from_jose_name name = Some algorithm.
Proof.
  split.
  - destruct alg as [[]|]; try done. simpl. destruct (_ || _); [done|].
    destruct (from_jose_name s) eqn:Hs; [|done]. intros [= <-]. eauto.
  - intros (name & -> & Hname). unfold classify_alg. cbv zeta. rewrite Hname.
    assert (bool_decide (trim (lit name) = []) ||
      eq_ignore_ascii_case (trim (lit name)) (lit "none") = false) as ->; [|done].
    apply from_jose_name_inv in Hname as [->| ->]; destruct algorithm; vm_compute; reflexivity.
Qed.

Lemma parse_header_ok bs caps header :
  parse_header bs caps = Ok header ↔
  ∃ object, json_entries bs = Some object ∧ NoDup object.*1 ∧ header_ok object header.
Proof.
  unfold parse_header. setoid_rewrite (assoc (∧)). setoid_rewrite <-parse_unique_object_spec.
  destruct (parse_unique_object bs) as [object|]; [|naive_solver].
  transitivity (header_ok object header); [|naive_solver].
  destruct (decide (Forall (λ name, name ∉ object.*1) STEERING_PARAMS)) as [Hf|Hf].
  - rewrite Forall_forall in Hf.
    rewrite !(proj2 (contains_key_false object _)) by (apply Hf; set_solver).
    rewrite !(proj2 (map_get_None object _)) by (apply Hf; set_solver). simpl. split.
    + intros Hp. destruct (classify_alg _) eqn:Ha; [|done].
      destruct (optional_member object "kid" _) eqn:Hkid; [|done].
      destruct (optional_member object "typ" _) eqn:Htyp; [|done]. injection Hp as <-.
      split; simpl; [done|by apply classify_alg_spec|by eapply optional_member_spec..].
    + intros [_ Halg%classify_alg_spec Hkid Htyp].
      apply (optional_member_spec _ _ HeaderMalformed) in Hkid, Htyp.
      rewrite Halg, Hkid, Htyp. by destruct header.
  - split; [|intros [Hs]; destruct Hf; by apply Forall_forall]. intros Hp. destruct Hf.
    repeat case_match; simplify_eq; bool_to_prop;
      repeat (apply Forall_cons; split; [first [by apply contains_key_false|by apply map_get_None]|]);
      apply Forall_nil_2.
Qed.

End Header.
