(* ===== verification/JoseClaims.v ===== *)
(** * The claims of a token (crates/ironauth-jose/src/claims.rs)

    The claims are read and enforced only after the signature is verified: issuer
    and audience exactly, the dates against a clock with a bounded skew.  The
    lemma [parse_and_enforce_ok] states what the claims of an accepted token
    satisfy.  Seconds are [i64]; a date is cut off at 2^53. *)

From Stdlib Require Import SpecFloat.
From S2P Require Import Prelude Machine Float Bytes Text Json SigningPolicy JosePolicy JoseHeader.

Local Open Scope Z_scope.

(** [i64::try_from(n).unwrap_or(i64::MAX)] on a [u64]. *)
Definition i64_or_max (n : Z) : Z := if n <=? I64_MAX then n else I64_MAX.

(** ** Dates *)

Definition MAX_ABS_NUMERIC_DATE : Z := 9007199254740992.

Section Claims.
Context `{JsonReader}.

Definition value_as_i64 (value : Value) : option Z :=
  match value with VNumber n => as_i64 n | _ => None end.

Definition value_as_f64 (value : Value) : option spec_float :=
  match value with VNumber n => as_f64 n | _ => None end.

Definition out_of_range (secs : Z) : bool :=
  (MAX_ABS_NUMERIC_DATE <=? secs) || (secs <=? - MAX_ABS_NUMERIC_DATE).

Definition numeric_date (value : Value) : Result Z RejectReason :=
  let? secs :=
    match value_as_i64 value with
    | Some n => Ok n
    | None =>
        match value_as_f64 value with
        | Some f =>
            if negb (is_finite f) then Err ClaimsMalformed
            else if out_of_range (floor f) then Err ClaimsMalformed
            else Ok (floor f)
        | None => Err ClaimsMalformed
        end
    end in
  if out_of_range secs then Err ClaimsMalformed else Ok secs.

(** ** Enforcement *)

Definition enforce_issuer (raw : Map) (expected : string) : Result string RejectReason :=
  match map_get raw "iss" with
  | None | Some VNull => Err ClaimMissing
  | Some (VString iss) => if bool_decide (iss = expected) then Ok iss else Err IssuerMismatch
  | Some _ => Err ClaimsMalformed
  end.

(** The loop over the members of an [aud] array. *)
Fixpoint string_items (items : list Value) : Result (list string) RejectReason :=
  match items with
  | [] => Ok []
  | VString s :: rest => let? auds := string_items rest in Ok (s :: auds)
  | _ :: _ => Err ClaimsMalformed
  end.

Definition enforce_audience (raw : Map) (expected : string) : Result (list string) RejectReason :=
  match map_get raw "aud" with
  | None | Some VNull => Err ClaimMissing
  | Some (VString aud) => if bool_decide (aud = expected) then Ok [aud] else Err AudienceMismatch
  | Some (VArray items) =>
      let? auds := string_items items in
      if bool_decide (expected ∈ auds) then Ok auds else Err AudienceMismatch
  | Some _ => Err ClaimsMalformed
  end.

Definition enforce_exp (raw : Map) (now_secs skew : Z) (expired_allowed absent_allowed : bool)
    : Result (option Z) RejectReason :=
  match map_get raw "exp" with
  | None | Some VNull => if absent_allowed then Ok None else Err ClaimMissing
  | Some value =>
      let? exp := numeric_date value in
      if negb expired_allowed && (i64_saturating_add exp skew <? now_secs) then Err Expired
      else Ok (Some exp)
  end.

Definition enforce_nbf (raw : Map) (now_secs skew : Z) : Result (option Z) RejectReason :=
  match map_get raw "nbf" with
  | None | Some VNull => Ok None
  | Some value =>
      let? nbf := numeric_date value in
      if i64_saturating_add now_secs skew <? nbf then Err NotYetValid else Ok (Some nbf)
  end.

Definition enforce_iat (raw : Map) (now_secs skew : Z) (require : bool)
    : Result (option Z) RejectReason :=
  match map_get raw "iat" with
  | None | Some VNull => if require then Err ClaimMissing else Ok None
  | Some value =>
      let? iat := numeric_date value in
      if i64_saturating_add now_secs skew <? iat then Err IssuedInFuture else Ok (Some iat)
  end.

Record VerifiedClaims : Type := {
  vc_issuer : string;
  vc_subject : option string;
  vc_audiences : list string;
  vc_expiration : option Z;
  vc_not_before : option Z;
  vc_issued_at : option Z;
  vc_raw : Map
}.

(** The tolerance in whole seconds. *)
Definition skew_secs (policy : VerificationPolicy) : Z :=
  i64_or_max (vp_max_skew policy / NANOS_PER_SEC).

Definition parse_and_enforce (bs : bytes) (policy : VerificationPolicy) (now_secs : Z)
    : Result VerifiedClaims RejectReason :=
  match parse_unique_object bs with
  | None => Err ClaimsMalformed
  | Some raw =>
      let? issuer := enforce_issuer raw (vp_expected_iss policy) in
      let? audiences := enforce_audience raw (vp_expected_aud policy) in
      let skew := skew_secs policy in
      let? expiration :=
        enforce_exp raw now_secs skew (vp_allow_expired policy) (vp_allow_absent_exp policy) in
      let? not_before := enforce_nbf raw now_secs skew in
      let? issued_at := enforce_iat raw now_secs skew (vp_require_iat policy) in
      let? subject := optional_member raw "sub" ClaimsMalformed in
      Ok {| vc_issuer := issuer; vc_subject := subject; vc_audiences := audiences;
            vc_expiration := expiration; vc_not_before := not_before; vc_issued_at := issued_at;
            vc_raw := raw |}
  end.

(** [VerifiedClaims::get]. *)
Definition vc_get (claims : VerifiedClaims) (name : string) : option Value :=
  map_get (vc_raw claims) name.

(** ** What the claims must satisfy *)

(** A date claim is absent or null, or is a date. *)
Definition date_member (raw : Map) (name : string) (date : option Z) : Prop :=
  match date with
  | None => map_get raw name = None ∨ map_get raw name = Some VNull
  | Some secs => ∃ value, map_get raw name = Some value ∧ numeric_date value = Ok secs
  end.

(** The [aud] claim is one string, or an array of strings. *)
Definition audience_member (raw : Map) (audiences : list string) : Prop :=
  (∃ aud, map_get raw "aud" = Some (VString aud) ∧ audiences = [aud]) ∨
  map_get raw "aud" = Some (VArray (VString <$> audiences)).

Record claims_ok (policy : VerificationPolicy) (now_secs : Z) (raw : Map) (c : VerifiedClaims)
    : Prop := {
  co_issuer : map_get raw "iss" = Some (VString (vp_expected_iss policy)) ∧
    vc_issuer c = vp_expected_iss policy;
  co_audience : audience_member raw (vc_audiences c) ∧ vp_expected_aud policy ∈ vc_audiences c;
  co_expiration : date_member raw "exp" (vc_expiration c) ∧
    match vc_expiration c with
    | None => vp_allow_absent_exp policy = true
    | Some exp => vp_allow_expired policy = true ∨ now_secs ≤ i64_saturating_add exp (skew_secs policy)
    end;
  co_not_before : date_member raw "nbf" (vc_not_before c) ∧
    ∀ nbf, vc_not_before c = Some nbf → nbf ≤ i64_saturating_add now_secs (skew_secs policy);
  co_issued_at : date_member raw "iat" (vc_issued_at c) ∧
    (vc_issued_at c = None → vp_require_iat policy = false) ∧
    ∀ iat, vc_issued_at c = Some iat → iat ≤ i64_saturating_add now_secs (skew_secs policy);
  co_subject : string_member raw "sub" (vc_subject c);
  co_raw : vc_raw c = raw
}.

Lemma numeric_date_range value secs :
  numeric_date value = Ok secs → - MAX_ABS_NUMERIC_DATE < secs < MAX_ABS_NUMERIC_DATE.
Proof.
  unfold numeric_date, out_of_range. intros Hd. repeat case_match; simplify_eq; bool_to_prop; lia.
Qed.

Lemma enforce_issuer_spec raw expected iss :
  enforce_issuer raw expected = Ok iss ↔ map_get raw "iss" = Some (VString expected) ∧ iss = expected.
Proof.
  unfold enforce_issuer. destruct (map_get raw "iss") as [[]|]; try naive_solver.
  case_bool_decide; naive_solver.
Qed.

Lemma string_items_spec items auds : string_items items = Ok auds ↔ items = VString <$> auds.
Proof.
  revert auds. induction items as [|item items IH]; intros auds; simpl.
  { destruct auds; naive_solver. }
  destruct item; try (destruct auds; naive_solver).
  destruct auds as [|a auds]; [by destruct (string_items items)|]. csimpl.
  specialize (IH auds). destruct (string_items items) as [rest|e]; naive_solver congruence.
Qed.

Lemma enforce_audience_spec raw expected auds :
  enforce_audience raw expected = Ok auds ↔ audience_member raw auds ∧ expected ∈ auds.
Proof.
  unfold enforce_audience, audience_member.
  destruct (map_get raw "aud") as [[]|]; try naive_solver.
  - case_bool_decide as Hd; split; [intros [= <-]| |done|].
    + split; [by eauto|]. rewrite Hd. left.
    + intros [[(aud & [= <-] & ->)|[=]] _]. done.
    + intros [[(aud & [= <-] & ->)|[=]] Hin%list_elem_of_singleton]. done.
  - destruct (string_items items) as [l|e] eqn:Hl.
    + apply string_items_spec in Hl as ->. case_bool_decide as Hd; split.
      * intros [= <-]. auto.
      * intros [[(aud & [=] & _)|[= Heq]] _].
        apply string_items_spec in Heq. by rewrite (proj2 (string_items_spec _ l) eq_refl) in Heq.
      * done.
      * intros [[(aud & [=] & _)|[= Heq]] Hin]. apply string_items_spec in Heq.
        rewrite (proj2 (string_items_spec _ l) eq_refl) in Heq. congruence.
    + split; [done|]. intros [[(aud & [=] & _)|[= ->]] _].
      by rewrite (proj2 (string_items_spec _ auds) eq_refl) in Hl.
Qed.

(** The shape the three date checks share. *)
Lemma date_enforced raw name (absent : bool) missing (refuse : Z → bool) reason date :
  match map_get raw name with
  | None | Some VNull => if absent then Ok None else Err missing
  | Some value => let? d := numeric_date value in if refuse d then Err reason else Ok (Some d)
  end = Ok date ↔
  date_member raw name date ∧
  match date with None => absent = true | Some d => refuse d = false end.
Proof.
  assert (∀ value, map_get raw name = Some value → value ≠ VNull →
    (let? d := numeric_date value in if refuse d then Err reason else Ok (Some d)) = Ok date ↔
    date_member raw name date ∧ match date with None => absent = true | Some d => refuse d = false end)
    as Hsome.
  { intros value Hv Hnn. unfold date_member. rewrite Hv. split.
    - intros Hok. destruct (numeric_date value) as [d|] eqn:Hd; [|done].
      destruct (refuse d) eqn:Hr; [done|]. injection Hok as <-. eauto.
    - intros [Hdm Hx]. destruct date as [d|]; [|destruct Hdm; congruence].
      destruct Hdm as (v & [= <-] & ->). by rewrite Hx. }
  destruct (map_get raw name) as [value|] eqn:Hv.
  - destruct value; try (by apply Hsome). unfold date_member. rewrite Hv.
    destruct absent, date; naive_solver.
  - unfold date_member. rewrite Hv. destruct absent, date; naive_solver.
Qed.

Lemma enforce_exp_spec raw now skew expired absent exp :
  enforce_exp raw now skew expired absent = Ok exp ↔
  date_member raw "exp" exp ∧
  match exp with
  | None => absent = true
  | Some e => expired = true ∨ now ≤ i64_saturating_add e skew
  end.
Proof.
  unfold enforce_exp. rewrite date_enforced. apply and_iff_compat_l. destruct exp as [e|]; [|done].
  destruct expired; simpl; [naive_solver|]. rewrite Z.ltb_ge. naive_solver.
Qed.

Lemma enforce_nbf_spec raw now skew nbf :
  enforce_nbf raw now skew = Ok nbf ↔
  date_member raw "nbf" nbf ∧ ∀ n, nbf = Some n → n ≤ i64_saturating_add now skew.
Proof.
  unfold enforce_nbf. rewrite (date_enforced raw "nbf" true ClaimMissing). apply and_iff_compat_l.
  destruct nbf as [n|]; [|naive_solver]. rewrite Z.ltb_ge. naive_solver.
Qed.

Lemma enforce_iat_spec raw now skew required iat :
  enforce_iat raw now skew required = Ok iat ↔
  date_member raw "iat" iat ∧ (iat = None → required = false) ∧
  ∀ n, iat = Some n → n ≤ i64_saturating_add now skew.
Proof.
  assert (enforce_iat raw now skew required =
    match map_get raw "iat" with
    | None | Some VNull => if negb required then Ok None else Err ClaimMissing
    | Some value => let? d := numeric_date value in
        if i64_saturating_add now skew <? d then Err IssuedInFuture else Ok (Some d)
    end) as -> by (unfold enforce_iat; repeat case_match; by destruct required).
  rewrite date_enforced. apply and_iff_compat_l.
  destruct iat as [n|]; [rewrite Z.ltb_ge; naive_solver|]. rewrite negb_true_iff. naive_solver.
Qed.

Lemma parse_and_enforce_ok bs policy now c :
  parse_and_enforce bs policy now = Ok c ↔
  ∃ raw, json_entries bs = Some raw ∧ NoDup raw.*1 ∧ claims_ok policy now raw c.
Proof.
  unfold parse_and_enforce. setoid_rewrite (assoc (∧)). setoid_rewrite <-parse_unique_object_spec.
  destruct (parse_unique_object bs) as [raw|]; [|naive_solver].
  transitivity (claims_ok policy now raw c); [|naive_solver]. split.
  - intros Hp.
    destruct (enforce_issuer _ _) eqn:H1; [|done]. destruct (enforce_audience _ _) eqn:H2; [|done].
    destruct (enforce_exp _ _ _ _ _) eqn:H3; [|done]. destruct (enforce_nbf _ _ _) eqn:H4; [|done].
    destruct (enforce_iat _ _ _ _) eqn:H5; [|done]. destruct (optional_member _ _ _) eqn:H6; [|done].
    injection Hp as <-. split; simpl; [by apply enforce_issuer_spec|by apply enforce_audience_spec|
      by apply enforce_exp_spec|by apply enforce_nbf_spec|by apply enforce_iat_spec|
      by eapply optional_member_spec|done].
  - intros [H1%enforce_issuer_spec H2%enforce_audience_spec H3%enforce_exp_spec
      H4%enforce_nbf_spec H5%enforce_iat_spec H6%(optional_member_spec _ _ ClaimsMalformed) H7].
    rewrite H1, H2, H3, H4, H5, H6, <-H7. by destruct c.
Qed.

(** ** The window of a token *)

(** Whether accepted claims are outside their dates at another instant, and how. *)
Definition window_verdict (policy : VerificationPolicy) (c : VerifiedClaims) (now_secs : Z)
    : option RejectReason :=
  let skew := skew_secs policy in
  let late := λ exp, negb (vp_allow_expired policy) && (i64_saturating_add exp skew <? now_secs) in
  let early := λ date, i64_saturating_add now_secs skew <? date in
  if from_option late false (vc_expiration c) then Some Expired
  else if from_option early false (vc_not_before c) then Some NotYetValid
  else if from_option early false (vc_issued_at c) then Some IssuedInFuture
  else None.

(** A date check that passed once is decided by the date alone. *)
Lemma date_rechecked {E} (absent : Result (option Z) E) (raw : option Value)
    (read : Value → Result Z E) (refuse refuse' : Z → bool) reason date :
  match raw with
  | None | Some VNull => absent
  | Some value => let? d := read value in if refuse d then Err reason else Ok (Some d)
  end = Ok date →
  absent = Ok None ∨ (∃ e, absent = Err e) →
  match raw with
  | None | Some VNull => absent
  | Some value => let? d := read value in if refuse' d then Err reason else Ok (Some d)
  end = if from_option refuse' false date then Err reason else Ok date.
Proof.
  intros Hd Habsent.
  assert (∀ value, (let? d := read value in if refuse d then Err reason else Ok (Some d)) = Ok date →
    (let? d := read value in if refuse' d then Err reason else Ok (Some d)) =
    if from_option refuse' false date then Err reason else Ok date) as Hvalue.
  { intros value. destruct (read value) as [d|]; [|done]. destruct (refuse d); [done|]. by intros [= <-]. }
  destruct raw as [[]|]; try (by apply Hvalue);
    (destruct Habsent as [->|[e ->]]; [injection Hd as <-; done|done]).
Qed.

Lemma parse_and_enforce_window bs policy now now' c :
  parse_and_enforce bs policy now = Ok c →
  parse_and_enforce bs policy now' =
  match window_verdict policy c now' with Some reason => Err reason | None => Ok c end.
Proof.
  unfold parse_and_enforce. destruct (parse_unique_object bs) as [raw|]; [|done].
  destruct (enforce_issuer _ _); [|done]. destruct (enforce_audience _ _); [|done].
  destruct (enforce_exp _ now _ _ _) eqn:Hexp; [|done].
  destruct (enforce_nbf _ now _) eqn:Hnbf; [|done].
  destruct (enforce_iat _ now _ _) eqn:Hiat; [|done].
  destruct (optional_member _ _ _); [|done]. intros [= <-].
  unfold enforce_exp in *. rewrite (date_rechecked _ _ _ _ _ _ _ Hexp);
    [|destruct (vp_allow_absent_exp policy); eauto].
  unfold enforce_nbf in *. rewrite (date_rechecked _ _ _ _ _ _ _ Hnbf); [|eauto].
  unfold enforce_iat in *. rewrite (date_rechecked _ _ _ _ _ _ _ Hiat);
    [|destruct (vp_require_iat policy); eauto].
  unfold window_verdict. simpl.
  destruct (from_option _ _ value1); [done|]. destruct (from_option _ _ value2); [done|].
  by destruct (from_option _ _ value3).
Qed.

(** ** The relaxations *)

Lemma allow_expired_relaxes bs policy now c :
  parse_and_enforce bs (allow_expired policy false) now = Ok c ↔
  parse_and_enforce bs (allow_expired policy true) now = Ok c ∧
  ∀ exp, vc_expiration c = Some exp → now ≤ i64_saturating_add exp (skew_secs policy).
Proof.
  rewrite !parse_and_enforce_ok. split.
  - intros (raw & Hr & Hnd & [H1 H2 [H3 H3'] H4 H5 H6 H7]). split.
    + exists raw. split_and!; [done..|]. split; try done. split; [done|].
      destruct (vc_expiration c); [by left|done].
    + intros exp He. rewrite He in H3'. by destruct H3'.
  - intros [(raw & Hr & Hnd & [H1 H2 [H3 H3'] H4 H5 H6 H7]) Hexp]. exists raw. split_and!; [done..|].
    split; try done. split; [done|]. destruct (vc_expiration c) as [exp|]; [right; by apply Hexp|done].
Qed.

Lemma allow_absent_exp_relaxes bs policy now c :
  parse_and_enforce bs (allow_absent_exp policy false) now = Ok c ↔
  parse_and_enforce bs (allow_absent_exp policy true) now = Ok c ∧ is_Some (vc_expiration c).
Proof.
  rewrite !parse_and_enforce_ok. split.
  - intros (raw & Hr & Hnd & [H1 H2 [H3 H3'] H4 H5 H6 H7]). split.
    + exists raw. split_and!; [done..|]. split; try done. split; [done|].
      destruct (vc_expiration c); done.
    + destruct (vc_expiration c); [by eauto|done].
  - intros [(raw & Hr & Hnd & [H1 H2 [H3 H3'] H4 H5 H6 H7]) [exp Hexp]]. exists raw.
    split_and!; [done..|]. split; try done. rewrite Hexp in *. by split.
Qed.

End Claims.
