(* ===== verification/JoseVerify.v ===== *)
(** * Token verification (crates/ironauth-jose/src/verify.rs and crypto.rs)

    The one verification entry point: size caps, the split into three segments, the
    header guards, key selection, the signature check and the claims, in that
    order.  The signature primitives of [ring] and the base64 decoder are
    third-party and are parameters; which primitive an algorithm and a key select is
    the crate's own and is modelled.  The theorems: an exact characterisation of the
    accepted tokens, the separation of token profiles, the interval of instants at
    which a token is accepted, and what the two relaxations of a policy relax. *)

From S2P Require Import Prelude Machine Bytes Text Json SigningPolicy JosePolicy JoseHeader JoseClaims.

Local Open Scope Z_scope.

(** ** Signatures *)

(** The verification algorithms of [ring::signature]. *)
Inductive VerificationAlgorithm : Type :=
| ED25519 | ECDSA_P256_SHA256_FIXED | ECDSA_P384_SHA384_FIXED.

Inductive RsaParameters : Type :=
| RSA_PKCS1_2048_8192_SHA256 | RSA_PKCS1_2048_8192_SHA384 | RSA_PKCS1_2048_8192_SHA512
| RSA_PSS_2048_8192_SHA256 | RSA_PSS_2048_8192_SHA384 | RSA_PSS_2048_8192_SHA512.

(** [UnparsedPublicKey::verify], [RsaPublicKeyComponents::verify] and the unpadded
    base64url decoder. *)
Class Primitives := {
  verify_asymmetric : VerificationAlgorithm → bytes → bytes → bytes → bool;
  verify_rsa : RsaParameters → bytes → bytes → bytes → bytes → bool;
  b64url_decode : text → option bytes
}.

Section Verify.
Context `{JsonReader} `{!Primitives}.

(** [verify_signature(...).is_ok()]. *)
Definition verify_signature (alg : JwsAlgorithm) (key : KeyMaterial) (signing_input signature : bytes)
    : bool :=
  match alg, key with
  | EdDsa, MatEd25519 pk => verify_asymmetric ED25519 pk signing_input signature
  | Es256, MatEcP256 point => verify_asymmetric ECDSA_P256_SHA256_FIXED point signing_input signature
  | Es384, MatEcP384 point => verify_asymmetric ECDSA_P384_SHA384_FIXED point signing_input signature
  | Rs256, MatRsa n e => verify_rsa RSA_PKCS1_2048_8192_SHA256 n e signing_input signature
  | Rs384, MatRsa n e => verify_rsa RSA_PKCS1_2048_8192_SHA384 n e signing_input signature
  | Rs512, MatRsa n e => verify_rsa RSA_PKCS1_2048_8192_SHA512 n e signing_input signature
  | Ps256, MatRsa n e => verify_rsa RSA_PSS_2048_8192_SHA256 n e signing_input signature
  | Ps384, MatRsa n e => verify_rsa RSA_PSS_2048_8192_SHA384 n e signing_input signature
  | Ps512, MatRsa n e => verify_rsa RSA_PSS_2048_8192_SHA512 n e signing_input signature
  | _, _ => false
  end.

(** ** Verification *)

(** The uniform error and its internal reason. *)
Record VerifyError : Type := { ve_reason : RejectReason }.

Record VerifiedToken : Type := {
  vt_algorithm : JwsAlgorithm;
  vt_key_id : option string;
  vt_token_typ : option string;
  vt_claims : VerifiedClaims
}.

Definition reject {T} (reason : RejectReason) : Result T VerifyError := Err {| ve_reason := reason |}.

(** [map_err(VerifyError::new)]. *)
Definition map_reason {T} (r : Result T RejectReason) : Result T VerifyError :=
  match r with Ok x => Ok x | Err reason => reject reason end.

Definition split_segments (token : text) : option (text * text * text) :=
  match split_char "."%char token with
  | [header; payload; signature] =>
      if bool_decide (header = []) || bool_decide (payload = []) || bool_decide (signature = [])
      then None else Some (header, payload, signature)
  | _ => None
  end.

Definition USIZE_MAX : Z := 2 ^ 64 - 1.

Definition max_b64_len (decoded_bytes : Z) : Z :=
  Z.min USIZE_MAX (Z.min USIZE_MAX (decoded_bytes * 4) / 3 + 4).

Definition decode_b64 (segment : text) : Result bytes VerifyError :=
  match b64url_decode segment with Some bs => Ok bs | None => reject Base64Malformed end.

(** [str::as_bytes]. *)
Definition as_bytes (s : text) : bytes := code <$> s.

Definition signing_input_bytes (header_b64 payload_b64 : text) : bytes :=
  as_bytes header_b64 ++ [46] ++ as_bytes payload_b64.

(** Whether a key answers to the [kid] of the token, when it has one. *)
Definition kid_matches (kid : option string) (key : TrustedKey) : bool :=
  match kid with
  | Some k => bool_decide (trusted_kid key = Some k)
  | None => true
  end.

#[export] Instance KeyFamily_eq_dec : EqDecision KeyFamily.
Proof. solve_decision. Defined.

Definition select_keys (policy : VerificationPolicy) (header : ProtectedHeader)
    : Result (list TrustedKey) VerifyError :=
  let family := key_family (header_alg header) in
  let names_a_key :=
    match header_kid header with
    | Some kid => existsb (λ key, bool_decide (trusted_kid key = Some kid)) (vp_keys policy)
    | None => true
    end in
  if negb names_a_key then reject UnknownKid
  else
    match filter (λ key, kid_matches (header_kid header) key &&
                         bool_decide (material_family (material key) = family)) (vp_keys policy) with
    | [] => reject KeyTypeMismatch
    | candidates => Ok candidates
    end.

(** The clock in whole seconds; an instant before the epoch reads as zero. *)
Definition now_seconds (now : Z) : Z :=
  i64_or_max (if now <? 0 then 0 else now / NANOS_PER_SEC).

Definition verify (token : text) (policy : VerificationPolicy) (now : Z)
    : Result VerifiedToken VerifyError :=
  let caps := vp_caps policy in
  if max_token_bytes caps <? Z.of_nat (length token) then reject TokenTooLarge
  else match split_segments token with
  | None => reject MalformedStructure
  | Some (header_b64, payload_b64, signature_b64) =>
      if max_b64_len (max_header_bytes caps) <? Z.of_nat (length header_b64) then
        reject SegmentTooLarge
      else if max_b64_len (max_payload_bytes caps) <? Z.of_nat (length payload_b64) then
        reject SegmentTooLarge
      else
        let? header_bytes := decode_b64 header_b64 in
        let? header := map_reason (parse_header header_bytes caps) in
        if negb (bool_decide (header_alg header ∈ vp_algorithms policy)) then reject AlgNotAllowed
        else if negb (accepts (vp_expected_typ policy) (header_typ header)) then reject TypMismatch
        else
          let? candidates := select_keys policy header in
          let? signature := decode_b64 signature_b64 in
          let signing_input := signing_input_bytes header_b64 payload_b64 in
          if negb (existsb (λ key, verify_signature (header_alg header) (material key)
                                     signing_input signature) candidates)
          then reject SignatureInvalid
          else
            let? payload_bytes := decode_b64 payload_b64 in
            let? claims := map_reason (parse_and_enforce payload_bytes policy (now_seconds now)) in
            Ok {| vt_algorithm := header_alg header; vt_key_id := header_kid header;
                  vt_token_typ := header_typ header; vt_claims := claims |}
  end.

Definition MAX_HINT_HEADER_B64 : Z := 8192.

Definition compact_jws_kid (token : text) : option string :=
  header_b64 ← head (split_char "."%char token);
  if bool_decide (header_b64 = []) || (MAX_HINT_HEADER_B64 <? Z.of_nat (length header_b64)) then None
  else
    bs ← b64url_decode header_b64;
    value ← json_value bs;
    object ← as_object value;
    match map_get object "kid" with Some (VString kid) => Some kid | _ => None end.

(** ** What an accepted token satisfies *)

(** A trusted key that answers to the token's [kid] and has the family of its
    algorithm verifies the signature. *)
Definition signed (policy : VerificationPolicy) (header : ProtectedHeader)
    (signing_input signature : bytes) : Prop :=
  ∃ key, key ∈ vp_keys policy ∧
    (∀ kid, header_kid header = Some kid → trusted_kid key = Some kid) ∧
    material_family (material key) = key_family (header_alg header) ∧
    verify_signature (header_alg header) (material key) signing_input signature = true.

(** The specification of verification, without its order of stages. *)
Inductive accepted (policy : VerificationPolicy) (now : Z) (token : text) (v : VerifiedToken) : Prop :=
| accepted_intro h p s header_bytes payload_bytes signature object raw header :
    token = h ++ "."%char :: p ++ "."%char :: s →
    h ≠ [] ∧ p ≠ [] ∧ s ≠ [] → "."%char ∉ h ++ p ++ s →
    Z.of_nat (length token) ≤ max_token_bytes (vp_caps policy) →
    Z.of_nat (length h) ≤ max_b64_len (max_header_bytes (vp_caps policy)) →
    Z.of_nat (length p) ≤ max_b64_len (max_payload_bytes (vp_caps policy)) →
    b64url_decode h = Some header_bytes → b64url_decode p = Some payload_bytes →
    b64url_decode s = Some signature →
    json_entries header_bytes = Some object → NoDup object.*1 → header_ok object header →
    header_alg header ∈ vp_algorithms policy →
    accepts (vp_expected_typ policy) (header_typ header) = true →
    signed policy header (signing_input_bytes h p) signature →
    json_entries payload_bytes = Some raw → NoDup raw.*1 →
    claims_ok policy (now_seconds now) raw (vt_claims v) →
    vt_algorithm v = header_alg header → vt_key_id v = header_kid header →
    vt_token_typ v = header_typ header →
    accepted policy now token v.

Lemma split_segments_spec token h p s :
  split_segments token = Some (h, p, s) ↔
  token = h ++ "."%char :: p ++ "."%char :: s ∧ (h ≠ [] ∧ p ≠ [] ∧ s ≠ []) ∧ "."%char ∉ h ++ p ++ s.
Proof.
  unfold split_segments. split.
  - destruct (split_char "." token) as [|h' [|p' [|s' [|]]]] eqn:Hs; try done.
    destruct (_ || _) eqn:Hne; [done|]. intros [= -> -> ->]. bool_to_prop.
    apply split_char_inv in Hs as [Hh [[? _]|(r1 & -> & Hs)]]; [done|].
    apply split_char_inv in Hs as [Hp [[? _]|(r2 & -> & Hs)]]; [done|].
    apply split_char_inv in Hs as [Hs' [[_ ->]|(r3 & _ & Hs)]].
    + split; [done|]. split; [done|]. rewrite !elem_of_app. tauto.
    + destruct (split_char_cons "." r3) as (? & ? & ?). congruence.
  - rewrite !elem_of_app. intros (-> & (Hh & Hp & Hs) & Hd).
    rewrite split_char_app, split_char_app, split_char_free by tauto.
    by rewrite !bool_decide_eq_false_2 by done.
Qed.

Lemma select_keys_signed policy header signing_input signature :
  (∃ candidates, select_keys policy header = Ok candidates ∧
     existsb (λ key, verify_signature (header_alg header) (material key) signing_input signature)
       candidates = true) ↔
  signed policy header signing_input signature.
Proof.
  assert (∀ key, kid_matches (header_kid header) key = true ↔
    ∀ kid, header_kid header = Some kid → trusted_kid key = Some kid) as Hkid.
  { intros key. unfold kid_matches. destruct (header_kid header) as [k|]; [|naive_solver].
    rewrite bool_decide_eq_true. naive_solver. }
  unfold select_keys, signed. set (eligible := filter _ _).
  assert (∀ key, key ∈ eligible ↔ key ∈ vp_keys policy ∧
    (∀ kid, header_kid header = Some kid → trusted_kid key = Some kid) ∧
    material_family (material key) = key_family (header_alg header)) as Hel.
  { intros key. unfold eligible. rewrite elem_of_filter_true, andb_true_iff, Hkid, bool_decide_eq_true.
    tauto. }
  split.
  - intros (cs & Hsel & (key & Hin & Hv)%existsb_exists). destruct (negb _); [done|].
    assert (key ∈ eligible) as (Hk & Hkk & Hf)%Hel; [|by exists key].
    apply list_elem_of_In in Hin. destruct eligible; [done|]. by injection Hsel as <-.
  - intros (key & Hk & Hkk & Hf & Hv). assert (key ∈ eligible) as Hin by by apply Hel.
    assert (negb match header_kid header with
      | Some kid => existsb (λ key, bool_decide (trusted_kid key = Some kid)) (vp_keys policy)
      | None => true end = false) as ->.
    { apply negb_false_iff. destruct (header_kid header) as [kid|]; [|done]. apply existsb_exists.
      exists key. split; [by apply list_elem_of_In|]. apply bool_decide_eq_true. by apply Hkk. }
    exists eligible. split; [destruct eligible; [by apply not_elem_of_nil in Hin|done]|].
    apply existsb_exists. exists key. split; [by apply list_elem_of_In|done].
Qed.

Lemma decode_b64_ok segment bs : decode_b64 segment = Ok bs ↔ b64url_decode segment = Some bs.
Proof. unfold decode_b64. destruct (b64url_decode segment); naive_solver. Qed.

Lemma map_reason_ok {T} (r : Result T RejectReason) x : map_reason r = Ok x ↔ r = Ok x.
Proof. destruct r; naive_solver. Qed.

Lemma verify_spec token policy now v :
  verify token policy now = Ok v ↔ accepted policy now token v.
Proof.
  unfold verify. split.
  - destruct (max_token_bytes _ <? _) eqn:Hlen; [done|].
    destruct (split_segments token) as [[[h p] s]|] eqn:Hsplit; [|done].
    destruct (max_b64_len _ <? Z.of_nat (length h)) eqn:Hh; [done|].
    destruct (max_b64_len _ <? Z.of_nat (length p)) eqn:Hp; [done|].
    destruct (decode_b64 h) as [hb|] eqn:Hhb; [|done].
    destruct (map_reason (parse_header hb _)) as [header|] eqn:Hheader; [|done].
    destruct (negb (bool_decide _)) eqn:Halg; [done|].
    destruct (negb (accepts _ _)) eqn:Htyp; [done|].
    destruct (select_keys policy header) as [candidates|] eqn:Hsel; [|done].
    destruct (decode_b64 s) as [sb|] eqn:Hsb; [|done].
    destruct (negb (existsb _ _)) eqn:Hsig; [done|].
    destruct (decode_b64 p) as [pb|] eqn:Hpb; [|done].
    destruct (map_reason (parse_and_enforce _ _ _)) as [claims|] eqn:Hclaims; [|done].
    intros [= <-]. bool_to_prop. apply split_segments_spec in Hsplit as (Htoken & Hne & Hdots).
    apply decode_b64_ok in Hhb, Hsb, Hpb. apply map_reason_ok in Hheader, Hclaims.
    apply parse_header_ok in Hheader as (object & Ho & Hond & Hok).
    apply parse_and_enforce_ok in Hclaims as (raw & Hr & Hrnd & Hcok).
    eapply (accepted_intro _ _ _ _ h p s hb pb sb object raw header); try done; try lia.
    apply select_keys_signed. eauto.
  - intros [h p s hb pb sb object raw header Htoken Hne Hdots Hlen Hh Hp Hhb Hpb Hsb Ho Hond Hok Halg
      Htyp Hsigned Hr Hrnd Hcok Hva Hvk Hvt].
    apply Z.ltb_ge in Hlen, Hh, Hp. rewrite Hlen.
    rewrite (proj2 (split_segments_spec token h p s)) by done. rewrite Hh, Hp.
    apply decode_b64_ok in Hhb, Hsb, Hpb. rewrite Hhb.
    rewrite (proj2 (parse_header_ok hb (vp_caps policy) header)) by eauto. simpl.
    rewrite bool_decide_eq_true_2, Htyp by done. simpl.
    apply select_keys_signed in Hsigned as (candidates & -> & Hsig).
    rewrite Hsb, Hsig, Hpb. simpl.
    rewrite (proj2 (parse_and_enforce_ok pb policy _ (vt_claims v))) by eauto. simpl.
    rewrite <-Hva, <-Hvk, <-Hvt. by destruct v.
Qed.

(** ** The stages before the claims *)

(** The part of a policy the stages before the claims read. *)
Definition same_trust (policy policy' : VerificationPolicy) : Prop :=
  vp_algorithms policy' = vp_algorithms policy ∧ vp_keys policy' = vp_keys policy ∧
  vp_expected_typ policy' = vp_expected_typ policy ∧ vp_caps policy' = vp_caps policy.

Lemma select_keys_trust policy policy' header : same_trust policy policy' →
  select_keys policy' header = select_keys policy header.
Proof. intros (_ & Hk & _). unfold select_keys. by rewrite Hk. Qed.

(** Compute a verification whose stages are known from the context. *)
Ltac run_stages :=
  intros policy' now Hsame; unfold verify; destruct (Hsame) as (-> & _ & -> & ->);
  repeat match goal with
  | Heq : ?x = _ |- context [?x] => rewrite Heq; simpl
  | Hsame : same_trust ?policy ?policy' |- context [select_keys ?policy' ?header] =>
      rewrite (select_keys_trust policy policy' header Hsame)
  end;
  reflexivity.

(** A token is refused before its claims are read, whatever the clock and the claim
    rules, or its outcome is that of the claims. *)
Lemma verify_stages token policy :
  (∃ e, ∀ policy' now, same_trust policy policy' → verify token policy' now = Err e) ∨
  (∃ payload_bytes alg kid typ, ∀ policy' now, same_trust policy policy' →
    verify token policy' now =
    let? claims := map_reason (parse_and_enforce payload_bytes policy' (now_seconds now)) in
    Ok {| vt_algorithm := alg; vt_key_id := kid; vt_token_typ := typ; vt_claims := claims |}).
Proof.
  destruct (max_token_bytes (vp_caps policy) <? Z.of_nat (length token)) eqn:Hlen;
    [left; eexists; run_stages|].
  destruct (split_segments token) as [[[h p] s]|] eqn:Hsplit; [|left; eexists; run_stages].
  destruct (max_b64_len (max_header_bytes (vp_caps policy)) <? Z.of_nat (length h)) eqn:Hh;
    [left; eexists; run_stages|].
  destruct (max_b64_len (max_payload_bytes (vp_caps policy)) <? Z.of_nat (length p)) eqn:Hp;
    [left; eexists; run_stages|].
  destruct (decode_b64 h) as [hb|] eqn:Hhb; [|left; eexists; run_stages].
  destruct (map_reason (parse_header hb (vp_caps policy))) as [header|] eqn:Hheader;
    [|left; eexists; run_stages].
  destruct (bool_decide (header_alg header ∈ vp_algorithms policy)) eqn:Halg;
    [|left; eexists; run_stages].
  destruct (accepts (vp_expected_typ policy) (header_typ header)) eqn:Htyp;
    [|left; eexists; run_stages].
  destruct (select_keys policy header) as [candidates|] eqn:Hsel; [|left; eexists; run_stages].
  destruct (decode_b64 s) as [sb|] eqn:Hsb; [|left; eexists; run_stages].
  destruct (existsb (λ key, verify_signature (header_alg header) (material key)
    (signing_input_bytes h p) sb) candidates) eqn:Hsig; [|left; eexists; run_stages].
  destruct (decode_b64 p) as [pb|] eqn:Hpb; [|left; eexists; run_stages].
  right. exists pb, (header_alg header), (header_kid header), (header_typ header). run_stages.
Qed.

(** ** Theorems *)

(** C7 (equivalence): verification accepts exactly the tokens its specification
    allows.  The token is three non-empty dot-separated segments within the caps;
    the header is an object with distinct keys, carries none of the members that
    steer verification and names a supported algorithm of the allowlist and an
    accepted media type; a trusted key that answers to the [kid] and has the family
    of the algorithm verifies the signature over the first two segments; and the
    claims have the expected issuer and audience and acceptable dates.  The result
    carries what was read. *)
Theorem verify_accepts_iff token policy now v :
  verify token policy now = Ok v ↔ accepted policy now token v.
Proof. apply verify_spec. Qed.

(** C8 (safety): token profiles are separate.  A token that any policy accepts for
    one of the profiles is refused by every policy for another one, whatever the
    keys, issuers, audiences and instants. *)
Theorem profiles_separated token policy policy' now now' v typ typ' :
  verify token policy now = Ok v →
  vp_expected_typ policy = Required typ → vp_expected_typ policy' = Required typ' →
  typ ≠ typ' → ∃ e, verify token policy' now' = Err e.
Proof.
  intros Hv Htyp Htyp' Hne. destruct (verify token policy' now') as [v'|e] eqn:Hv'; [|eauto].
  apply verify_spec in Hv as [h p s hb pb sb object raw header Ht Hn Hd _ _ _ Hb _ _ Ho _ Hok _ Hacc].
  apply verify_spec in Hv'
    as [h' p' s' hb' pb' sb' object' raw' header' Ht' Hn' Hd' _ _ _ Hb' _ _ Ho' _ Hok' _ Hacc'].
  assert (split_segments token = Some (h, p, s)) as Hs by by apply split_segments_spec.
  assert (split_segments token = Some (h', p', s')) as Hs' by by apply split_segments_spec.
  simplify_eq. destruct Hne. rewrite Htyp in Hacc. rewrite Htyp' in Hacc'. simpl in Hacc, Hacc'.
  assert (header_typ header' = header_typ header) as Heq
    by eauto using string_member_fun, ho_typ.
  rewrite Heq in Hacc'. by eapply media_types_separate.
Qed.

(** The clock only moves a token in and out of its window.  Once a
    token is accepted, its outcome at any other instant is decided by the dates it
    carries: the same result within them, and outside them exactly the refusal of
    the first date that fails. *)
Theorem acceptance_window token policy now now' v :
  verify token policy now = Ok v →
  verify token policy now' =
  match window_verdict policy (vt_claims v) (now_seconds now') with
  | Some reason => reject reason
  | None => Ok v
  end.
Proof.
  destruct (verify_stages token policy) as [[e He]|(pb & alg & kid & typ & Hstage)].
  { rewrite He by done. done. }
  rewrite !Hstage by done. intros Hv.
  destruct (parse_and_enforce pb policy (now_seconds now)) as [c|] eqn:Hc; [|done].
  injection Hv as <-. simpl. rewrite (parse_and_enforce_window _ _ _ _ _ Hc).
  by destruct (window_verdict _ _ _).
Qed.

(** Each relaxation of a policy waives one check and nothing else.
    A policy that does not allow expired tokens accepts exactly what the same policy
    with the allowance accepts before the expiry; a policy that requires [exp]
    accepts exactly what the same policy without the requirement accepts among the
    tokens that carry one; in both cases with the same result. *)
Theorem relaxations_waive_one_check token policy now v :
  (verify token (allow_expired policy false) now = Ok v ↔
   verify token (allow_expired policy true) now = Ok v ∧
   ∀ exp, vc_expiration (vt_claims v) = Some exp →
     now_seconds now ≤ i64_saturating_add exp (skew_secs policy)) ∧
  (verify token (allow_absent_exp policy false) now = Ok v ↔
   verify token (allow_absent_exp policy true) now = Ok v ∧ is_Some (vc_expiration (vt_claims v))).
Proof.
  destruct (verify_stages token policy) as [[e He]|(pb & alg & kid & typ & Hstage)].
  { rewrite !He by done. naive_solver. }
  rewrite !Hstage by done.
  assert (∀ policy' : VerificationPolicy,
    (let? claims := map_reason (parse_and_enforce pb policy' (now_seconds now)) in
     Ok {| vt_algorithm := alg; vt_key_id := kid; vt_token_typ := typ; vt_claims := claims |}) = Ok v ↔
    parse_and_enforce pb policy' (now_seconds now) = Ok (vt_claims v) ∧
    vt_algorithm v = alg ∧ vt_key_id v = kid ∧ vt_token_typ v = typ) as Hok.
  { intros policy'. destruct (parse_and_enforce _ _ _), v; naive_solver. }
  rewrite !Hok, allow_expired_relaxes, allow_absent_exp_relaxes. tauto.
Qed.

End Verify.

(** ** A concrete verifier *)

Module VerifySamples.
Import JsonSamples.

(** A header with an algorithm, a media type and a key id, and claims that expire at
    second 1000, behind fixed bytes. *)
#[export] Instance sample_reader : JsonReader := {|
  json_entries bs :=
    if bool_decide (bs = [1]) then
      Some [("alg", VString "EdDSA"); ("typ", VString "application/at+JWT"); ("kid", VString "k1")]
    else if bool_decide (bs = [2]) then
      Some [("iss", VString "https://idp.example"); ("aud", VArray [VString "api"; VString "web"]);
            ("exp", VNumber 1000); ("sub", VString "usr_1")]
    else None;
  json_value bs := None
|}.

(** One-character segments, and a key that signs with its own bytes. *)
#[export] Instance sample_primitives : Primitives := {|
  verify_asymmetric _ pk _ signature := bool_decide (pk = signature);
  verify_rsa _ _ _ _ _ := false;
  b64url_decode s :=
    if bool_decide (s = lit "H") then Some [1]
    else if bool_decide (s = lit "P") then Some [2]
    else if bool_decide (s = lit "S") then Some [7]
    else None
|}.

Definition sample_policy (typ : TokenTyp) : VerificationPolicy := {|
  vp_algorithms := [EdDsa]; vp_keys := [{| trusted_kid := Some "k1"; material := MatEd25519 [7] |}];
  vp_expected_iss := "https://idp.example"; vp_expected_aud := "web";
  vp_expected_typ := Required typ; vp_max_skew := DEFAULT_SKEW; vp_caps := CAPS_DEFAULT;
  vp_require_iat := false; vp_allow_expired := false; vp_allow_absent_exp := false |}.

Definition sample_claims : VerifiedClaims := {|
  vc_issuer := "https://idp.example"; vc_subject := Some "usr_1"; vc_audiences := ["api"; "web"];
  vc_expiration := Some 1000; vc_not_before := None; vc_issued_at := None;
  vc_raw := [("iss", VString "https://idp.example"); ("aud", VArray [VString "api"; VString "web"]);
             ("exp", VNumber 1000); ("sub", VString "usr_1")] |}.

Definition sample_token : VerifiedToken := {|
  vt_algorithm := EdDsa; vt_key_id := Some "k1"; vt_token_typ := Some "application/at+JWT";
  vt_claims := sample_claims |}.

Lemma sample_accepted :
  verify (lit "H.P.S") (sample_policy AccessToken) (500 * NANOS_PER_SEC) = Ok sample_token.
Proof. vm_compute. reflexivity. Qed.

Lemma profiles_separated_witness :
  ∃ e, verify (lit "H.P.S") (sample_policy IdToken) (500 * NANOS_PER_SEC) = Err e.
Proof.
  apply (profiles_separated (lit "H.P.S") (sample_policy AccessToken) (sample_policy IdToken)
    (500 * NANOS_PER_SEC) (500 * NANOS_PER_SEC) sample_token AccessToken IdToken sample_accepted);
    [reflexivity|reflexivity|discriminate].
Defined.

Lemma acceptance_window_witness :
  verify (lit "H.P.S") (sample_policy AccessToken) (1061 * NANOS_PER_SEC) = reject Expired.
Proof.
  exact (acceptance_window (lit "H.P.S") (sample_policy AccessToken) (500 * NANOS_PER_SEC)
    (1061 * NANOS_PER_SEC) sample_token sample_accepted).
Defined.

(** An algorithm name of the password-based family is refused as unsupported, not
    for its family. *)
Lemma pbes2_name_unsupported :
  classify_alg (Some (VString "PBES2-HS256+A128KW")) = Err UnsupportedAlg.
Proof. vm_compute. reflexivity. Qed.

End VerifySamples.
