(* ===== verification/Redirect.v ===== *)
(** * Redirect URIs (crates/ironauth-store/src/redirect.rs)

    The registrability rule and the comparator of redirect URIs.  A [&str] is its
    bytes, a list of characters; the functions look only at ASCII characters, so
    the byte offsets they cut at are character boundaries.  The theorems say
    exactly which pairs of URIs match and which URIs are registrable. *)

From S2P Require Import Prelude Text.

Local Open Scope char_scope.

(** The pattern [\['/', '?'\]]. *)
Definition ends_authority (c : ascii) : bool := is_char "/" c || is_char "?" c.

(** ** Registrability *)

Definition is_valid_scheme (scheme : text) : bool :=
  match scheme with
  | first :: rest =>
      is_ascii_alphabetic first &&
      forallb (λ c, is_ascii_alphanumeric c || (is_char "+" c || is_char "-" c || is_char "." c)) rest
  | [] => false
  end.

Definition split_scheme (uri : text) : option (text * text) :=
  colon ← find_char (is_char ":") uri;
  let scheme := take colon uri in
  if negb (is_valid_scheme scheme) then None else Some (scheme, drop (S colon) uri).

Definition hier_authority (rest : text) : option text :=
  after ← strip_prefix (lit "//") rest;
  let end_ := default (length after) (find_char ends_authority after) in
  Some (take end_ after).

Definition is_reverse_domain_scheme (scheme : text) : bool :=
  if negb (contains_char "." scheme) then false
  else forallb (λ label, negb (bool_decide (label = []))) (split_char "." scheme).

(** [str::parse::<u16>]: an optional plus sign, then at least one digit, within
    the range of a [u16]. *)
Definition parse_u16 (s : text) : option Z :=
  let digits := match s with "+" :: rest => rest | _ => s end in
  match digits with
  | [] => None
  | _ =>
      if forallb is_digit digits then
        let value := foldl (λ acc c, acc * 10 + (code c - 48))%Z 0%Z digits in
        if (value <=? 65535)%Z then Some value else None
      else None
  end.

Definition port_is_valid (port : text) : bool :=
  match port with
  | [] => true
  | _ => match parse_u16 port with Some value => negb (value =? 0)%Z | None => false end
  end.

(** A loopback host literal and the text of the port. *)
Definition split_loopback_host_and_port (authority : text) : option (string * text) :=
  match strip_prefix (lit "[") authority with
  | Some rest =>
      close ← find_char (is_char "]") rest;
      if negb (bool_decide (take close rest = lit "::1")) then None else
      let after := drop (S close) rest in
      match strip_prefix (lit ":") after with
      | Some port => Some ("::1"%string, port)
      | None => if bool_decide (after = []) then Some ("::1"%string, []) else None
      end
  | None =>
      let '(host, port) :=
        match find_char (is_char ":") authority with
        | Some colon => (take colon authority, drop (S colon) authority)
        | None => (authority, [])
        end in
      if negb (bool_decide (host = lit "127.0.0.1")) then None else Some ("127.0.0.1"%string, port)
  end.

Definition loopback_host_and_port (authority : text) : option (string * text) :=
  if contains_char "@" authority then None else
  '(host, port) ← split_loopback_host_and_port authority;
  if port_is_valid port then Some (host, port) else None.

Definition loopback_ip_literal_authority (authority : text) : bool :=
  bool_decide (is_Some (loopback_host_and_port authority)).

Definition redirect_uri_is_registrable (uri : text) : bool :=
  if bool_decide (uri = []) then false else
  if negb (forallb (between 0x21 0x7E) uri) then false else
  if contains_char "#" uri then false else
  match split_scheme uri with
  | None => false
  | Some (scheme, rest) =>
      let scheme_lower := to_ascii_lowercase scheme in
      if bool_decide (scheme_lower = lit "https") then
        match hier_authority rest with
        | Some authority => negb (bool_decide (authority = [])) && negb (contains_char "@" authority)
        | None => false
        end
      else if bool_decide (scheme_lower = lit "http") then
        match hier_authority rest with
        | Some authority => loopback_ip_literal_authority authority
        | None => false
        end
      else is_reverse_domain_scheme scheme_lower
  end.

(** ** The comparator *)

Definition strip_http_scheme_ci (uri : text) : option text :=
  let head := take 7 uri in
  if (length head =? 7)%nat && bool_decide (to_ascii_lowercase head = lit "http://")
  then Some (drop 7 uri) else None.

Definition split_authority_and_tail (rest : text) : text * text :=
  match find_char ends_authority rest with
  | Some index => (take index rest, drop index rest)
  | None => (rest, [])
  end.

Definition loopback_port_variant_matches (registered presented : text) : bool :=
  match strip_http_scheme_ci registered, strip_http_scheme_ci presented with
  | Some reg_rest, Some pre_rest =>
      let '(reg_authority, reg_tail) := split_authority_and_tail reg_rest in
      let '(pre_authority, pre_tail) := split_authority_and_tail pre_rest in
      if negb (bool_decide (reg_tail = pre_tail)) then false else
      match loopback_host_and_port reg_authority, loopback_host_and_port pre_authority with
      | Some (reg_host, _), Some (pre_host, _) => bool_decide (reg_host = pre_host)
      | _, _ => false
      end
  | _, _ => false
  end.

Definition redirect_uri_matches (registered presented : text) : bool :=
  if bool_decide (registered = presented) then true
  else loopback_port_variant_matches registered presented.

(** ** Splitting at a character *)

(** The tail of an authority is empty or starts with a slash or a question mark;
    the authority has neither. *)
Definition tail_ok (tail : text) : Prop :=
  tail = [] ∨ ∃ c rest, tail = c :: rest ∧ (c = "/" ∨ c = "?").

Definition no_delimiter (authority : text) : Prop := ("/" ∉ authority) ∧ ("?" ∉ authority).

Lemma ends_authority_iff c : ends_authority c = true ↔ c = "/" ∨ c = "?".
Proof. unfold ends_authority, is_char. rewrite orb_true_iff, !bool_decide_eq_true. naive_solver. Qed.

Lemma no_delimiter_Forall authority :
  no_delimiter authority ↔ Forall (λ c, ends_authority c = false) authority.
Proof.
  unfold no_delimiter. rewrite Forall_forall. setoid_rewrite <-not_true_iff_false.
  setoid_rewrite ends_authority_iff. naive_solver.
Qed.

Lemma split_authority_spec rest authority tail :
  split_authority_and_tail rest = (authority, tail) ↔
  rest = authority ++ tail ∧ no_delimiter authority ∧ tail_ok tail.
Proof.
  unfold split_authority_and_tail. rewrite no_delimiter_Forall. split.
  - destruct (find_char ends_authority rest) as [i|] eqn:Hf.
    + apply find_char_Some in Hf as (c & Hs & Hc & Hb). intros [= <- <-].
      rewrite take_drop. split; [done|]. split; [done|]. right.
      exists c, (drop (S i) rest). split; [|by apply ends_authority_iff].
      apply (app_inv_head (take i rest)). by rewrite take_drop.
    + apply find_char_None in Hf. intros [= <- <-]. rewrite app_nil_r. split_and!; [done..|by left].
  - intros (-> & Ha & [->|(c & tail' & -> & Hc%ends_authority_iff)]).
    + rewrite app_nil_r. by rewrite (proj2 (find_char_None _ _) Ha).
    + rewrite find_char_app by done. by rewrite take_app_length, drop_app_length.
Qed.

Lemma hier_authority_spec rest authority : hier_authority rest = Some authority ↔
  ∃ tail, rest = lit "//" ++ authority ++ tail ∧ no_delimiter authority ∧ tail_ok tail.
Proof.
  unfold hier_authority. rewrite bind_Some. setoid_rewrite strip_prefix_Some. split.
  - intros (after & -> & [= <-]).
    destruct (split_authority_and_tail after) as [a t] eqn:Hs. exists t.
    assert (take (default (length after) (find_char ends_authority after)) after = a) as ->.
    { revert Hs. unfold split_authority_and_tail.
      destruct (find_char _ _); intros [= <- <-]; [done|]. simpl. by rewrite firstn_all. }
    apply split_authority_spec in Hs as (-> & Ha & Ht). done.
  - intros (tail & -> & Ha & Ht). eexists. split; [done|].
    assert (split_authority_and_tail (authority ++ tail) = (authority, tail)) as Hs
      by (by apply split_authority_spec).
    revert Hs. unfold split_authority_and_tail.
    destruct (find_char _ _); intros [= Hs _]; f_equal; [done|]. simpl. by rewrite firstn_all.
Qed.

(** ** Loopback authorities *)

Definition host_literal (host : string) : text :=
  if bool_decide (host = "::1"%string) then lit "[::1]" else lit host.

(** The character classes of the grammars, by code. *)
Definition letter (c : ascii) : Prop := (65 ≤ code c ≤ 90 ∨ 97 ≤ code c ≤ 122)%Z.

Definition digit (c : ascii) : Prop := (48 ≤ code c ≤ 57)%Z.

(** Decimal digits and the number they write, most significant first. *)
Inductive decimal : text → Z → Prop :=
  | decimal_nil : decimal [] 0
  | decimal_snoc digits c value : decimal digits value → digit c →
      decimal (digits ++ [c]) (10 * value + (code c - 48)).

(** A port a loopback redirect may carry: nothing, or decimal digits that write a
    number from 1 to 65535.  One plus sign may precede the digits: [u16::from_str]
    reads it, so this is wider than the [port] of RFC 3986. *)
Definition loopback_port (port : text) : Prop :=
  port = [] ∨ ∃ sign digits value, port = sign ++ digits ∧ (sign = [] ∨ sign = ["+"]) ∧
    digits ≠ [] ∧ decimal digits value ∧ (1 ≤ value ≤ 65535)%Z.

(** The grammar of a loopback authority: a literal, then nothing or a colon and a
    (possibly empty) port. *)
Definition loopback_authority (host : string) (authority : text) : Prop :=
  (host = "127.0.0.1"%string ∨ host = "::1"%string) ∧
  (authority = host_literal host ∨
   ∃ port, loopback_port port ∧ authority = host_literal host ++ ":" :: port).

Lemma is_digit_iff c : is_digit c = true ↔ digit c.
Proof. unfold is_digit, between, digit. lia. Qed.

Lemma is_ascii_alphabetic_iff c : is_ascii_alphabetic c = true ↔ letter c.
Proof. unfold is_ascii_alphabetic, between, letter. lia. Qed.

Lemma forallb_Forall_iff (p : ascii → bool) (P : ascii → Prop) s :
  (∀ c, p c = true ↔ P c) → forallb p s = true ↔ Forall P s.
Proof.
  intros Hp. rewrite forallb_forall, Forall_forall. setoid_rewrite list_elem_of_In.
  by setoid_rewrite Hp.
Qed.

(** The fold of the parser computes the number the digits write. *)
Lemma decimal_fold digits value : decimal digits value ↔
  Forall digit digits ∧ value = foldl (λ acc c, acc * 10 + (code c - 48))%Z 0%Z digits.
Proof.
  split.
  - induction 1 as [|digits c value _ [Hd ->] Hc]; [done|].
    rewrite Forall_app, foldl_app. simpl. split; [split; [done|by apply Forall_singleton]|lia].
  - intros [Hd ->]. induction digits as [|c digits IH] using rev_ind; [constructor|].
    apply Forall_app in Hd as [Hd Hc]. rewrite Forall_singleton in Hc. rewrite foldl_app. simpl.
    rewrite Z.mul_comm. constructor; [by apply IH|done].
Qed.

Lemma parse_u16_spec s value : parse_u16 s = Some value ↔
  ∃ sign digits, s = sign ++ digits ∧ (sign = [] ∨ sign = ["+"]) ∧ digits ≠ [] ∧
    decimal digits value ∧ (value ≤ 65535)%Z.
Proof.
  assert (∃ sign digits, s = sign ++ digits ∧ (sign = [] ∨ sign = ["+"]) ∧
            (sign = [] → ∀ rest, s ≠ "+" :: rest) ∧
            match s with "+" :: rest => rest | _ => s end = digits) as (sign & digits & Hs & Hsign & Hplus & Hd).
  { destruct s as [|c s]; [exists [], []; naive_solver|].
    destruct (decide (c = "+")) as [->|Hne]; [exists ["+"], s; naive_solver|].
    exists [], (c :: s). split_and!; [done|by left|naive_solver|].
    by destruct c as [[] [] [] [] [] [] [] []]. }
  unfold parse_u16. rewrite Hd. split.
  - intros Hp. exists sign, digits. split; [done|]. split; [done|].
    destruct digits as [|c digits]; [done|]. split; [done|].
    destruct (forallb _ _) eqn:Hf; [|done]. apply (forallb_Forall_iff _ _ _ is_digit_iff) in Hf.
    cbv zeta in Hp. destruct (_ <=? _)%Z eqn:Hle in Hp; [|done]. simplify_eq.
    rewrite decimal_fold. split; [done|by apply Z.leb_le].
  - intros (sign' & digits' & Hs' & Hsign' & Hne & [Hall ->]%decimal_fold & Hle).
    assert (digits' = digits) as ->.
    { assert (∀ rest, digits' ≠ "+" :: rest) as Hnp.
      { intros rest ->. inversion Hall as [|? ? Hbad]. unfold digit in Hbad.
        change (code "+") with 43%Z in Hbad. lia. }
      rewrite Hs in Hs', Hplus. destruct Hsign as [->| ->], Hsign' as [->| ->]; simpl in *.
      - done.
      - by destruct (Hplus eq_refl digits').
      - by destruct (Hnp digits).
      - by injection Hs' as ->. }
    apply (forallb_Forall_iff _ _ _ is_digit_iff) in Hall. rewrite Hall.
    destruct digits; [done|]. by rewrite (proj2 (Z.leb_le _ _) Hle).
Qed.

Lemma decimal_nonneg digits value : decimal digits value → (0 ≤ value)%Z.
Proof. induction 1 as [|digits c value _ IH Hc]; [done|]. unfold digit in Hc. lia. Qed.

(** The parser's ports are the grammar's. *)
Lemma port_is_valid_iff port : port_is_valid port = true ↔ loopback_port port.
Proof.
  unfold port_is_valid, loopback_port. destruct port as [|c port]; [naive_solver|]. split.
  - destruct (parse_u16 _) as [value|] eqn:Hp; [|done]. intros Hz. right.
    apply parse_u16_spec in Hp as (sign & digits & Hs & Hsign & Hne & Hd & Hle).
    exists sign, digits, value. apply decimal_nonneg in Hd as Hn. split_and!; try done. lia.
  - intros [?|(sign & digits & value & Hs & Hsign & Hne & Hd & Hv)]; [done|].
    rewrite (proj2 (parse_u16_spec _ value)); [lia|]. exists sign, digits. split_and!; try done. lia.
Qed.

Lemma port_chars port : loopback_port port → Forall (λ c, c = "+" ∨ digit c) port.
Proof.
  intros [->|(sign & digits & value & -> & Hsign & _ & [Hd _]%decimal_fold & _)]; [constructor|].
  apply Forall_app. split.
  - destruct Hsign as [->| ->]; [done|]. repeat constructor.
  - eapply Forall_impl; [exact Hd|]. eauto.
Qed.

Lemma port_avoids port c : loopback_port port → c ≠ "+" → is_digit c = false → c ∉ port.
Proof.
  intros Hp Hplus Hd Hin. apply port_chars in Hp. rewrite Forall_forall in Hp.
  destruct (Hp c Hin) as [|Hc%is_digit_iff]; congruence.
Qed.

Lemma loopback_authority_clean host authority : loopback_authority host authority →
  ("@" ∉ authority) ∧ no_delimiter authority.
Proof.
  intros [Hhost Hauth]. unfold no_delimiter.
  assert (∀ c, c ∈ ["@"; "/"; "?"] → c ∉ host_literal host) as Hlit.
  { destruct Hhost as [-> | ->]; vm_compute; set_solver. }
  assert (∀ c, c ∈ ["@"; "/"; "?"] → c ∉ authority) as Hclean.
  { intros c Hc. specialize (Hlit c Hc). destruct Hauth as [->|(port & Hp & ->)]; [done|].
    pose proof (port_avoids port c Hp) as Hport. rewrite elem_of_app, elem_of_cons.
    repeat setoid_rewrite elem_of_cons in Hc. destruct Hc as [->|[->|[->|[]%elem_of_nil]]]; naive_solver. }
  split_and!; apply Hclean; set_solver.
Qed.

Lemma split_loopback_inv authority host port :
  split_loopback_host_and_port authority = Some (host, port) →
  (host = "127.0.0.1"%string ∨ host = "::1"%string) ∧
  (authority = host_literal host ∧ port = [] ∨ authority = host_literal host ++ ":" :: port).
Proof.
  unfold split_loopback_host_and_port.
  destruct (strip_prefix (lit "[") authority) as [rest|] eqn:Hb.
  - apply strip_prefix_Some in Hb as ->. intros (close & Hc & Hrest)%bind_Some.
    apply find_char_Some in Hc as (c & Hs & Hc & _). unfold is_char in Hc.
    apply bool_decide_eq_true in Hc as <-.
    case_bool_decide as Hhost; [|done]. cbn [negb] in Hrest. rewrite Hhost in Hs. rewrite Hs.
    destruct (strip_prefix (lit ":") (drop (S close) rest)) as [p|] eqn:Hp.
    + apply strip_prefix_Some in Hp. injection Hrest as <- <-. rewrite Hp.
      split; [by right|]. by right.
    + case_bool_decide as Hnil; [|done]. injection Hrest as <- <-. rewrite Hnil.
      split; [by right|]. by left.
  - destruct (find_char (is_char ":") authority) as [colon|] eqn:Hc.
    + apply find_char_Some in Hc as (c & Hs & Hc & _). unfold is_char in Hc.
      apply bool_decide_eq_true in Hc as <-.
      case_bool_decide as Hhost; [|done]. simpl. intros [= <- <-].
      split; [by left|]. right. etrans; [exact Hs|]. by rewrite Hhost.
    + case_bool_decide as Hhost; [|done]. simpl. intros [= <- <-]. split; [by left|]. by left.
Qed.

(** The splitter recognises exactly the grammar. *)
Lemma loopback_host_and_port_spec authority host :
  (∃ port, loopback_host_and_port authority = Some (host, port)) ↔ loopback_authority host authority.
Proof.
  unfold loopback_host_and_port. split.
  - intros [port Hp]. unfold contains_char in Hp. case_bool_decide; [done|].
    apply bind_Some in Hp as ([h q] & Hsplit & Hp). destruct (port_is_valid q) eqn:Hv; [|done].
    apply port_is_valid_iff in Hv. injection Hp as -> ->. apply split_loopback_inv in Hsplit as [Hhost [[Ha _]|Ha]];
      (split; [done|]); [by left|right; eauto].
  - intros Hauth. pose proof (loopback_authority_clean _ _ Hauth) as [Hat _].
    unfold contains_char. rewrite bool_decide_eq_false_2 by done.
    destruct Hauth as [[-> | ->] [->|(port & Hp%port_is_valid_iff & ->)]].
    + exists []. reflexivity.
    + exists port. change (split_loopback_host_and_port (host_literal "127.0.0.1" ++ ":" :: port))
        with (Some ("127.0.0.1"%string, port)). simpl. by rewrite Hp.
    + exists []. reflexivity.
    + exists port. change (split_loopback_host_and_port (host_literal "::1" ++ ":" :: port))
        with (Some ("::1"%string, port)). simpl. by rewrite Hp.
Qed.

(** ** Theorems *)

(** An [http] URI on a loopback literal, with its path and query. *)
Definition loopback_uri (host : string) (tail uri : text) : Prop :=
  ∃ scheme authority, uri = scheme ++ authority ++ tail ∧
    to_ascii_lowercase scheme = lit "http://" ∧ loopback_authority host authority ∧ tail_ok tail.

Lemma strip_http_spec uri rest : strip_http_scheme_ci uri = Some rest ↔
  ∃ scheme, uri = scheme ++ rest ∧ to_ascii_lowercase scheme = lit "http://".
Proof.
  unfold strip_http_scheme_ci. split.
  - destruct (_ && _) eqn:Hc; [|done]. apply andb_true_iff in Hc as [_ Hc%bool_decide_eq_true].
    intros [= <-]. exists (take 7 uri). by rewrite take_drop.
  - intros (scheme & -> & Hs). assert (length scheme = 7) as Hlen.
    { apply (f_equal length) in Hs. unfold to_ascii_lowercase in Hs. by rewrite length_fmap in Hs. }
    rewrite take_app_length', drop_app_length' by done. rewrite Hlen, Hs. done.
Qed.

Lemma loopback_uri_parts host tail uri : loopback_uri host tail uri ↔
  ∃ rest authority, strip_http_scheme_ci uri = Some rest ∧
    split_authority_and_tail rest = (authority, tail) ∧
    ∃ port, loopback_host_and_port authority = Some (host, port).
Proof.
  unfold loopback_uri. setoid_rewrite strip_http_spec. setoid_rewrite split_authority_spec.
  setoid_rewrite loopback_host_and_port_spec. split.
  - intros (scheme & authority & -> & Hs & Ha & Ht). exists (authority ++ tail), authority.
    pose proof (loopback_authority_clean _ _ Ha) as [_ Hd]. split_and!; eauto.
  - intros (rest & authority & (scheme & -> & Hs) & (-> & _ & Ht) & Ha). eauto 10.
Qed.

(** The comparator accepts a pair exactly when the strings are
    identical or both are [http] URIs on the same loopback literal with identical
    path and query: nothing but the port, and the case of [http], may differ. *)
Theorem redirect_uri_matches_iff registered presented :
  redirect_uri_matches registered presented = true ↔
  registered = presented ∨
  ∃ host tail, loopback_uri host tail registered ∧ loopback_uri host tail presented.
Proof.
  unfold redirect_uri_matches. case_bool_decide as Heq; [naive_solver|].
  setoid_rewrite loopback_uri_parts. unfold loopback_port_variant_matches. split.
  - intros Hm. right.
    destruct (strip_http_scheme_ci registered) as [r|]; [|done].
    destruct (strip_http_scheme_ci presented) as [p|]; [|done].
    destruct (split_authority_and_tail r) as [ra rt] eqn:Hr.
    destruct (split_authority_and_tail p) as [pa pt] eqn:Hp.
    case_bool_decide as Ht; [|done]. subst pt. simpl in Hm.
    destruct (loopback_host_and_port ra) as [[rh rp]|] eqn:Hra; [|done].
    destruct (loopback_host_and_port pa) as [[ph pp]|] eqn:Hpa; [|done].
    apply bool_decide_eq_true in Hm as ->. exists ph, rt. eauto 20.
  - intros [|(host & tail & (r & ra & -> & Hr & rp & Hra) & (p & pa & -> & Hp & pp & Hpa))]; [done|].
    rewrite Hr, Hp, bool_decide_eq_true_2 by done. simpl. rewrite Hra, Hpa.
    by apply bool_decide_eq_true.
Qed.

(** A scheme of RFC 3986: a letter, then letters, digits, pluses, hyphens and dots. *)
Definition scheme_grammar (scheme : text) : Prop :=
  ∃ first rest, scheme = first :: rest ∧ letter first ∧
    Forall (λ c, letter c ∨ digit c ∨ c ∈ ["+"; "-"; "."]) rest.

(** A scheme that spells a lower-case literal, whatever its case. *)
Definition spells (name : string) (scheme : text) : Prop :=
  Forall2 (λ c d, c = d ∨ (65 ≤ code c ≤ 90)%Z ∧ code d = (code c + 32)%Z) scheme (lit name).

(** A reverse-domain scheme: at least two labels, none of them empty, between dots. *)
Definition reverse_domain (scheme : text) : Prop :=
  ∃ labels, scheme = join ["."] labels ∧ 2 ≤ length labels ∧
    Forall (λ label, label ≠ [] ∧ "." ∉ label) labels.

(** The three shapes of a redirect, by scheme. *)
Definition redirect_shape (scheme rest : text) : Prop :=
  (spells "https" scheme ∧ ∃ authority tail, rest = lit "//" ++ authority ++ tail ∧
     no_delimiter authority ∧ tail_ok tail ∧ authority ≠ [] ∧ "@" ∉ authority) ∨
  (spells "http" scheme ∧ ∃ host authority tail, rest = lit "//" ++ authority ++ tail ∧
     loopback_authority host authority ∧ tail_ok tail) ∨
  reverse_domain scheme.

Lemma is_valid_scheme_iff scheme : is_valid_scheme scheme = true ↔ scheme_grammar scheme.
Proof.
  unfold is_valid_scheme, scheme_grammar. destruct scheme as [|first rest]; [naive_solver|].
  rewrite andb_true_iff, is_ascii_alphabetic_iff, (forallb_Forall_iff _ (λ c, letter c ∨ digit c ∨ c ∈ ["+"; "-"; "."])).
  - naive_solver.
  - intros c. unfold is_ascii_alphanumeric, is_char.
    rewrite !orb_true_iff, is_ascii_alphabetic_iff, is_digit_iff, !bool_decide_eq_true.
    rewrite !elem_of_cons, elem_of_nil. naive_solver.
Qed.

Lemma lower_char_iff c d : ¬ (65 ≤ code d ≤ 90)%Z →
  lower_char c = d ↔ c = d ∨ (65 ≤ code c ≤ 90)%Z ∧ code d = (code c + 32)%Z.
Proof.
  intros Hd. unfold lower_char, is_ascii_uppercase, between.
  destruct (_ && _) eqn:Hup; apply andb_true_iff in Hup || apply andb_false_iff in Hup.
  - assert (code (ascii_of_N (N_of_ascii c + 32)) = code c + 32)%Z as Hcode.
    { unfold code in *. rewrite N_ascii_embedding by lia. lia. }
    split; [intros <-; right; lia|]. intros [->|[_ Heq]]; [lia|]. apply code_inj. lia.
  - split; [naive_solver|]. intros [->|[Hr _]]; [done|lia].
Qed.

Lemma lowercase_spells name scheme : Forall (λ d, ¬ (65 ≤ code d ≤ 90)%Z) (lit name) →
  to_ascii_lowercase scheme = lit name ↔ spells name scheme.
Proof.
  unfold to_ascii_lowercase, spells. generalize (lit name). intros target. revert scheme.
  induction target as [|d target IH]; intros [|c scheme] Hf; simpl.
  - split; [constructor|done].
  - split; [done|]. intros H; inversion H.
  - split; [done|]. intros H; inversion H.
  - inversion Hf as [|? ? Hd Hf']. rewrite Forall2_cons, <-lower_char_iff, <-IH by done. naive_solver.
Qed.

Lemma lower_char_dot c : lower_char c = "." ↔ c = ".".
Proof.
  rewrite lower_char_iff by (vm_compute; intuition discriminate). split; [|naive_solver].
  intros [|[Hc Heq]]; [done|]. change (code ".") with 46%Z in Heq. lia.
Qed.

Lemma split_lowercase scheme :
  split_char "." (to_ascii_lowercase scheme) = to_ascii_lowercase <$> split_char "." scheme.
Proof.
  induction scheme as [|c scheme IH]; [done|]. simpl.
  change (lower_char <$> scheme) with (to_ascii_lowercase scheme). rewrite IH.
  assert (is_char "." (lower_char c) = is_char "." c) as ->.
  { unfold is_char. apply bool_decide_ext. pose proof (lower_char_dot c). naive_solver. }
  destruct (is_char "." c); [done|].
  by destruct (split_char_cons "." scheme) as (part & parts & ->).
Qed.

Lemma split_char_parts sep s : Forall (λ part, sep ∉ part) (split_char sep s).
Proof.
  remember (split_char sep s) as parts eqn:Hs. revert s Hs.
  induction parts as [|part parts IH]; [constructor|]. intros s Hs. symmetry in Hs.
  apply split_char_inv in Hs as [Hpart [[-> _]|(rest & _ & Hr)]]; constructor; eauto.
Qed.

Lemma reverse_domain_iff scheme :
  is_reverse_domain_scheme (to_ascii_lowercase scheme) = true ↔ reverse_domain scheme.
Proof.
  assert (is_reverse_domain_scheme (to_ascii_lowercase scheme) = true ↔
          "." ∈ scheme ∧ Forall (λ label, label ≠ []) (split_char "." scheme)) as ->.
  { unfold is_reverse_domain_scheme, contains_char. rewrite split_lowercase.
    assert ("." ∈ to_ascii_lowercase scheme ↔ "." ∈ scheme) as Hdot.
    { unfold to_ascii_lowercase. rewrite list_elem_of_fmap. split.
      - intros (c & Heq & Hc). symmetry in Heq. apply (proj1 (lower_char_dot c)) in Heq. by subst.
      - intros Hin. exists ".". split; [done|done]. }
    rewrite (bool_decide_ext _ _ Hdot). case_bool_decide; simpl; [|naive_solver].
    rewrite forallb_forall, Forall_forall. setoid_rewrite <-list_elem_of_In.
    setoid_rewrite negb_true_iff. setoid_rewrite bool_decide_eq_false.
    setoid_rewrite list_elem_of_fmap. split.
    - intros Hall. split; [done|]. intros label Hl ->. by apply (Hall []); [exists []|].
    - intros [_ Hall] label (part & -> & Hp). specialize (Hall part Hp). by destruct part. }
  unfold reverse_domain. split.
  - intros [Hdot Hall]. exists (split_char "." scheme). split; [by rewrite join_split_char|]. split.
    + destruct (split_char_cons "." scheme) as (part & parts & Hs). pose proof Hs as Hs'. rewrite Hs'.
      apply split_char_inv in Hs as [Hpart [[_ ->]|(rest & _ & <-)]]; [done|].
      destruct (split_char_cons "." rest) as (p & ps & ->). simpl. lia.
    + pose proof (split_char_parts "." scheme) as Hp. by apply Forall_and.
  - intros (labels & -> & Hlen & Hall). apply Forall_and in Hall as [Hne Hdot].
    assert (labels ≠ []) as Hnil by (intros ->; simpl in Hlen; lia).
    rewrite split_char_join by done. split; [|done].
    destruct labels as [|l1 [|l2 labels]]; simpl in Hlen; [lia..|]. simpl.
    set_solver.
Qed.

Lemma valid_scheme_no_colon scheme : is_valid_scheme scheme = true →
  Forall (λ c, is_char ":" c = false) scheme.
Proof.
  destruct scheme as [|first rest]; [done|]. simpl. intros [Hf Hr]%andb_true_iff.
  assert (∀ c, is_char ":" c = true → c = ":") as Hcolon by (by intros c <-%bool_decide_eq_true).
  constructor.
  - apply not_true_iff_false. by intros ->%Hcolon.
  - rewrite forallb_forall in Hr. apply Forall_forall. intros c Hc%list_elem_of_In.
    apply not_true_iff_false. intros ->%Hcolon. by specialize (Hr _ Hc).
Qed.

Lemma split_scheme_spec uri scheme rest : split_scheme uri = Some (scheme, rest) ↔
  uri = scheme ++ ":" :: rest ∧ is_valid_scheme scheme = true.
Proof.
  unfold split_scheme. rewrite bind_Some. split.
  - intros (colon & (c & Hs & Hc & _)%find_char_Some & Hv).
    unfold is_char in Hc. apply bool_decide_eq_true in Hc as <-.
    destruct (is_valid_scheme (take colon uri)) eqn:Hval; [|done]. by injection Hv as <- <-.
  - intros [-> Hval]. exists (length scheme). split.
    + apply find_char_app; [|by apply bool_decide_eq_true]. apply valid_scheme_no_colon, Hval.
    + rewrite take_app_length, Hval. simpl. do 2 f_equal.
      by rewrite cons_middle, app_assoc, drop_app_length' by (rewrite length_app; simpl; lia).
Qed.

(** The dispatch on the scheme. *)
Lemma redirect_shape_spec scheme rest :
  (let scheme_lower := to_ascii_lowercase scheme in
   if bool_decide (scheme_lower = lit "https") then
     match hier_authority rest with
     | Some authority => negb (bool_decide (authority = [])) && negb (bool_decide ("@" ∈ authority))
     | None => false
     end
   else if bool_decide (scheme_lower = lit "http") then
     match hier_authority rest with
     | Some authority => loopback_ip_literal_authority authority
     | None => false
     end
   else is_reverse_domain_scheme scheme_lower) = true ↔
  redirect_shape scheme rest.
Proof.
  unfold redirect_shape. rewrite <-reverse_domain_iff.
  rewrite <-!lowercase_spells by (repeat constructor; vm_compute; intuition discriminate).
  cbv zeta. set (lower := to_ascii_lowercase scheme).
  destruct (decide (lower = lit "https")) as [Hs|Hs].
  - rewrite bool_decide_eq_true_2 by done. rewrite Hs. split.
    + destruct (hier_authority rest) as [authority|] eqn:Ha; [|done].
      apply hier_authority_spec in Ha as (tail & -> & Hd & Ht). intros Hc. left. split; [done|].
      bool_to_prop. eauto 10.
    + intros [[_ (authority & tail & -> & Hd & Ht & Hne & Hat)]|[[Hbad _]|Hbad]]; [|by vm_compute in Hbad..].
      rewrite (proj2 (hier_authority_spec _ authority)) by eauto.
      by rewrite !bool_decide_eq_false_2.
  - rewrite bool_decide_eq_false_2 by done. destruct (decide (lower = lit "http")) as [Hh|Hh].
    + rewrite bool_decide_eq_true_2 by done. unfold loopback_ip_literal_authority.
      rewrite Hh. split.
      * destruct (hier_authority rest) as [authority|] eqn:Ha; [|done].
        apply hier_authority_spec in Ha as (tail & -> & Hd & Ht).
        intros [[host port] Hl]%bool_decide_eq_true. right; left. split; [done|].
        exists host, authority, tail. split_and!; [done| |done]. apply loopback_host_and_port_spec. eauto.
      * intros [[Hbad _]|[[_ (host & authority & tail & -> & Hl & Ht)]|Hbad]];
          [by vm_compute in Hbad| |by vm_compute in Hbad].
        pose proof (loopback_authority_clean _ _ Hl) as [_ Hd].
        rewrite (proj2 (hier_authority_spec _ authority)) by eauto.
        apply bool_decide_eq_true. apply loopback_host_and_port_spec in Hl as [port ->]. eauto.
    + rewrite bool_decide_eq_false_2 by done. naive_solver.
Qed.

(** C40 (safety): a URI is registrable exactly when it is printable ASCII without
    a fragment, starts with a scheme of RFC 3986 and a colon, and has one of three
    shapes: an [https] URL with a non-empty authority without userinfo, an [http]
    URL on one of the two loopback literals with no port, an empty one or one from
    1 to 65535, or a scheme of at least two non-empty labels between dots.  The
    shapes are those of RFC 8252 but for one deviation: the digits of a port may
    follow a plus sign, which [u16::from_str] reads. *)
Theorem registrable_iff uri :
  redirect_uri_is_registrable uri = true ↔
  (∀ c, c ∈ uri → (0x21 ≤ code c ≤ 0x7E)%Z ∧ c ≠ "#") ∧
  ∃ scheme rest, uri = scheme ++ ":" :: rest ∧ scheme_grammar scheme ∧ redirect_shape scheme rest.
Proof.
  setoid_rewrite <-is_valid_scheme_iff.
  unfold redirect_uri_is_registrable, contains_char. split.
  - case_bool_decide; [done|]. destruct (forallb _ uri) eqn:Hascii; [|done]. simpl.
    case_bool_decide as Hfrag; [done|]. intros Hr. split.
    { intros c Hc. rewrite forallb_forall in Hascii.
      specialize (Hascii c (proj1 (list_elem_of_In _ _) Hc)). unfold between in Hascii.
      split; [lia|]. by intros ->. }
    destruct (split_scheme uri) as [[scheme rest]|] eqn:Hs; [|done].
    apply split_scheme_spec in Hs as [-> Hv]. exists scheme, rest. split; [done|]. split; [done|].
    by apply redirect_shape_spec.
  - intros [Hc (scheme & rest & -> & Hv & Hshape)].
    rewrite bool_decide_eq_false_2 by (by destruct scheme).
    rewrite (proj2 (forallb_forall _ _)).
    2: { intros c Hin%list_elem_of_In. unfold between. destruct (Hc c Hin). lia. }
    simpl. rewrite bool_decide_eq_false_2 by (intros Hin; by destruct (Hc _ Hin)).
    rewrite (proj2 (split_scheme_spec _ scheme rest)) by done. by apply redirect_shape_spec.
Qed.

(** The port parser follows [u16::from_str], which accepts a leading plus sign:
    an authority with one is registrable and matches any other port. *)
Lemma plus_sign_port_accepted :
  redirect_uri_is_registrable (lit "http://127.0.0.1:+8080/cb") = true ∧
  redirect_uri_matches (lit "http://127.0.0.1/cb") (lit "http://127.0.0.1:+8080/cb") = true.
Proof. by vm_compute. Qed.
