(* ===== verification/Authn.v ===== *)
(** * Authentication methods

    The recorded authentication event of crates/ironauth-oidc/src/authn.rs: the method
    registry [AuthMethod] and its [amr] and [acr] rows, the credential classes, the
    constructors of [AuthenticationEvent], and the string an event is persisted as.  The
    base64url codec is the class [Base64Url].  The theorems: every constructed event is
    well formed and its string reads back as the event, the derived [acr] is the strongest
    of the recorded methods, and the credential class an event reaches never claims more
    than its [acr]. *)

From S2P Require Import Prelude Text.

(** ** The registry *)

Definition ACR_PWD : text := lit "urn:ironauth:acr:pwd".
Definition ACR_MFA : text := lit "urn:ironauth:acr:mfa".
Definition ACR_MFA_REMEMBERED : text := lit "urn:ironauth:acr:mfa_remembered".
Definition ACR_PHR : text := lit "phr".
Definition ACR_PHRH : text := lit "phrh".
Definition ACR_ATTESTED : text := lit "urn:ironauth:acr:attested_passkey".
Definition ACR_FEDERATED : text := lit "urn:ironauth:acr:federated".

Inductive AuthMethod : Type :=
| Password | Federated | EmailOtp | Sms | TrustedDevice | Totp | RecoveryCode
| Passkey | PasskeyVerified | PasskeyHardware | PasskeyHardwareVerified
| AttestedPasskey | AttestedPasskeyVerified | AttestedPasskeyHardware
| AttestedPasskeyHardwareVerified.

#[export] Instance AuthMethod_eq_dec : EqDecision AuthMethod.
Proof. solve_decision. Defined.

Definition ALL_METHODS : list AuthMethod :=
  [Password; Federated; EmailOtp; Sms; TrustedDevice; Totp; RecoveryCode; Passkey;
   PasskeyVerified; PasskeyHardware; PasskeyHardwareVerified; AttestedPasskey;
   AttestedPasskeyVerified; AttestedPasskeyHardware; AttestedPasskeyHardwareVerified].

Definition as_token (m : AuthMethod) : text :=
  match m with
  | Password => lit "pwd"
  | Federated => lit "federated"
  | EmailOtp => lit "email_otp"
  | Sms => lit "sms"
  | TrustedDevice => lit "trusted_device"
  | Totp => lit "totp"
  | RecoveryCode => lit "recovery_code"
  | Passkey => lit "passkey"
  | PasskeyVerified => lit "passkey_uv"
  | PasskeyHardware => lit "passkey_hw"
  | PasskeyHardwareVerified => lit "passkey_hw_uv"
  | AttestedPasskey => lit "attested_passkey"
  | AttestedPasskeyVerified => lit "attested_passkey_uv"
  | AttestedPasskeyHardware => lit "attested_passkey_hw"
  | AttestedPasskeyHardwareVerified => lit "attested_passkey_hw_uv"
  end.

Definition from_token (token : text) : option AuthMethod :=
  List.find (λ m, bool_decide (as_token m = token)) ALL_METHODS.

Definition amr (m : AuthMethod) : list text :=
  match m with
  | Password => [lit "pwd"]
  | EmailOtp => [lit "otp"]
  | Sms => [lit "sms"]
  | TrustedDevice | Federated => []
  | Totp => [lit "otp"; lit "mfa"]
  | RecoveryCode => [lit "kba"; lit "mfa"]
  | Passkey | AttestedPasskey => [lit "swk"; lit "user"]
  | PasskeyVerified | AttestedPasskeyVerified => [lit "swk"; lit "user"; lit "mfa"]
  | PasskeyHardware | AttestedPasskeyHardware => [lit "hwk"; lit "user"]
  | PasskeyHardwareVerified | AttestedPasskeyHardwareVerified =>
      [lit "hwk"; lit "user"; lit "mfa"]
  end.

Definition acr (m : AuthMethod) : text :=
  match m with
  | Password | EmailOtp | Sms => ACR_PWD
  | Federated => ACR_FEDERATED
  | TrustedDevice => ACR_MFA_REMEMBERED
  | Totp | RecoveryCode => ACR_MFA
  | Passkey | PasskeyVerified => ACR_PHR
  | PasskeyHardware | PasskeyHardwareVerified => ACR_PHRH
  | AttestedPasskey | AttestedPasskeyVerified | AttestedPasskeyHardware
  | AttestedPasskeyHardwareVerified => ACR_ATTESTED
  end.

Definition method_is_active (m : AuthMethod) : bool :=
  match m with
  | Password | Federated | EmailOtp | Sms | TrustedDevice | Totp | RecoveryCode
  | Passkey | PasskeyVerified | PasskeyHardware | PasskeyHardwareVerified
  | AttestedPasskey | AttestedPasskeyVerified | AttestedPasskeyHardware
  | AttestedPasskeyHardwareVerified => true
  end.

Definition acr_for_mfa : text := ACR_MFA.
Definition acr_federated : text := ACR_FEDERATED.

(** [Vec::contains] and [slice::contains]. *)
Definition vec_contains {A} `{EqDecision A} (x : A) (l : list A) : bool := bool_decide (x ∈ l).

(** [if !out.contains(&x) { out.push(x) }]. *)
Definition push_fresh {A} `{EqDecision A} (out : list A) (x : A) : list A :=
  if vec_contains x out then out else out ++ [x].

Definition amr_values (methods : list AuthMethod) : list text :=
  foldl (λ out m, foldl push_fresh out (amr m)) [] methods.

Definition performed_second_factor (methods : list AuthMethod) : bool :=
  vec_contains (lit "mfa") (amr_values methods).

Definition includes_trusted_device (methods : list AuthMethod) : bool :=
  vec_contains TrustedDevice methods.

Definition is_passkey_method (m : AuthMethod) : bool :=
  match m with
  | Passkey | PasskeyVerified | PasskeyHardware | PasskeyHardwareVerified
  | AttestedPasskey | AttestedPasskeyVerified | AttestedPasskeyHardware
  | AttestedPasskeyHardwareVerified => true
  | _ => false
  end.

Definition includes_passkey (methods : list AuthMethod) : bool := existsb is_passkey_method methods.

(** The last row of the registry among the recorded methods decides the [acr]. *)
Definition achieved_acr (methods : list AuthMethod) : text :=
  acr (default Password (List.find (λ c, vec_contains c methods) (reverse ALL_METHODS))).

Definition acr_values_supported : list text :=
  foldl (λ out m,
    if bool_decide (m = Federated) then out
    else if method_is_active m && negb (vec_contains (acr m) out) then out ++ [acr m] else out)
  [] ALL_METHODS.

(** ** The authentication event *)

Record AuthenticationEvent : Type := mkEvent {
  methods : list AuthMethod;
  auth_time_unix_micros : Z;
  federated_amr : list text;
  federated_acr : option text
}.

Definition ev_password (t : Z) : AuthenticationEvent := mkEvent [Password] t [] None.
Definition ev_email_otp (t : Z) : AuthenticationEvent := mkEvent [EmailOtp] t [] None.
Definition ev_sms (t : Z) : AuthenticationEvent := mkEvent [Sms] t [] None.

Definition ev_passkey (t : Z) (backup_eligible user_verified : bool) : AuthenticationEvent :=
  let m := match backup_eligible, user_verified with
           | true, true => PasskeyVerified
           | true, false => Passkey
           | false, true => PasskeyHardwareVerified
           | false, false => PasskeyHardware
           end in
  mkEvent [m] t [] None.

Definition ev_attested_passkey (t : Z) (backup_eligible user_verified : bool) : AuthenticationEvent :=
  let m := match backup_eligible, user_verified with
           | true, true => AttestedPasskeyVerified
           | true, false => AttestedPasskey
           | false, true => AttestedPasskeyHardwareVerified
           | false, false => AttestedPasskeyHardware
           end in
  mkEvent [m] t [] None.

Definition ev_password_and_totp (t : Z) : AuthenticationEvent :=
  mkEvent [Password; Totp] t [] None.
Definition ev_password_and_recovery_code (t : Z) : AuthenticationEvent :=
  mkEvent [Password; RecoveryCode] t [] None.

(** The loop that keeps the active methods, each once. *)
Definition keep_methods (base : list AuthMethod) : list AuthMethod :=
  foldl (λ kept m,
    if method_is_active m && negb (vec_contains m kept) then kept ++ [m] else kept) [] base.

Definition from_methods (base : list AuthMethod) (t : Z) : AuthenticationEvent :=
  let kept := keep_methods base in
  mkEvent (if bool_decide (kept = []) then [Password] else kept) t [] None.

Definition with_trusted_device (base : list AuthMethod) (t : Z) : AuthenticationEvent :=
  let kept := keep_methods base in
  mkEvent (if vec_contains TrustedDevice kept then kept else kept ++ [TrustedDevice]) t [] None.

(** The condition under which a trimmed upstream value is kept. *)
Definition amr_fresh (out : list text) (trimmed : text) : bool :=
  negb (bool_decide (trimmed = [])) && negb (existsb (λ seen, bool_decide (seen = trimmed)) out).

(** The upstream [amr] values, trimmed, each once, without blanks. *)
Definition keep_amr (upstream_amr : list text) : list text :=
  foldl (λ out value, if amr_fresh out (trim value) then out ++ [trim value] else out) []
    upstream_amr.

Definition ev_federated (t : Z) (upstream_amr : list text) (upstream_acr : option text)
    : AuthenticationEvent :=
  let kept := upstream_acr ≫= λ value,
    let value := trim value in if bool_decide (value = []) then None else Some value in
  mkEvent [Federated] t (keep_amr upstream_amr) kept.

(** ** Persistence *)

Definition methods_token (ms : list AuthMethod) : text := join (lit " ") (as_token <$> ms).

Definition parse_methods (auth_methods : text) : list AuthMethod :=
  let parsed := filter (λ m, Is_true (method_is_active m))
                  (omap from_token (split_whitespace auth_methods)) in
  if bool_decide (parsed = []) then [Password] else parsed.

Definition FEDERATED_AMR_TOKEN_PREFIX : text := lit "fedamr:".
Definition NUL : ascii := ascii_of_N 0.
Definition FEDERATED_AMR_SEPARATOR : text := [NUL].

(** The URL-safe base64 codec without padding. *)
Class Base64Url := {
  b64_encode : text → text;
  b64_decode : text → option text
}.

(** What the codec documents: decoding undoes encoding, and encodings are words of its
    alphabet. *)
Class Base64UrlLaws `{Base64Url} : Prop := {
  b64_decode_encode bytes : b64_decode (b64_encode bytes) = Some bytes;
  b64_encode_graphic bytes : Forall (λ c, is_graphic c = true) (b64_encode bytes)
}.

Section Persistence.
Context `{Base64Url}.

Definition ev_methods_token (ev : AuthenticationEvent) : text :=
  let token := methods_token (methods ev) in
  if bool_decide (federated_amr ev = []) then token
  else token ++ lit " " ++ FEDERATED_AMR_TOKEN_PREFIX ++
       b64_encode (join FEDERATED_AMR_SEPARATOR (federated_amr ev)).

(** The loop over the tokens; it returns at the first token with the prefix. *)
Fixpoint federated_amr_loop (tokens : list text) : list text :=
  match tokens with
  | [] => []
  | token :: rest =>
      match strip_prefix FEDERATED_AMR_TOKEN_PREFIX token with
      | None => federated_amr_loop rest
      | Some encoded =>
          match b64_decode encoded with
          | None => []
          | Some bytes =>
              if from_utf8 bytes
              then filter (λ value, value ≠ []) (split_char NUL bytes)
              else []
          end
      end
  end.

Definition federated_amr_from_auth_methods (auth_methods : text) : list text :=
  federated_amr_loop (split_whitespace auth_methods).

End Persistence.

(** ** Credential classes *)

Inductive CredentialClass : Type := ClassAny | ClassMfa | ClassPasskey | ClassAttestedPasskey.

#[export] Instance CredentialClass_eq_dec : EqDecision CredentialClass.
Proof. solve_decision. Defined.

Definition class_as_str (c : CredentialClass) : text :=
  match c with
  | ClassAny => lit "any"
  | ClassMfa => lit "mfa"
  | ClassPasskey => lit "passkey"
  | ClassAttestedPasskey => lit "attested_passkey"
  end.

Definition class_from_token (token : text) : option CredentialClass :=
  if bool_decide (token = lit "any") then Some ClassAny
  else if bool_decide (token = lit "mfa") then Some ClassMfa
  else if bool_decide (token = lit "passkey") then Some ClassPasskey
  else if bool_decide (token = lit "attested_passkey") then Some ClassAttestedPasskey
  else None.

(** The derived [Ord]: the position of the variant. *)
Definition class_rank (c : CredentialClass) : nat :=
  match c with ClassAny => 0 | ClassMfa => 1 | ClassPasskey => 2 | ClassAttestedPasskey => 3 end.

Record CredentialFacts : Type := mkFacts {
  require_user_verification : bool;
  attestation_verified : bool
}.

Definition is_user_verified (m : AuthMethod) : bool :=
  match m with
  | PasskeyVerified | PasskeyHardwareVerified | AttestedPasskeyVerified
  | AttestedPasskeyHardwareVerified => true
  | _ => false
  end.

Definition is_attested (m : AuthMethod) : bool :=
  match m with
  | AttestedPasskey | AttestedPasskeyVerified | AttestedPasskeyHardware
  | AttestedPasskeyHardwareVerified => true
  | _ => false
  end.

Definition satisfied_class (ev : AuthenticationEvent) (facts : CredentialFacts) : CredentialClass :=
  let has_passkey := existsb is_passkey_method (methods ev) in
  let user_verified := existsb is_user_verified (methods ev) in
  let has_attested_method := existsb is_attested (methods ev) in
  if has_passkey && (negb (require_user_verification facts) || user_verified) then
    if has_attested_method && attestation_verified facts then ClassAttestedPasskey
    else ClassPasskey
  else if bool_decide (achieved_acr (methods ev) = ACR_MFA) then ClassMfa
  else ClassAny.

(** [Iterator::max]: the last of the greatest elements. *)
Definition class_max (a b : CredentialClass) : CredentialClass :=
  if decide (class_rank a ≤ class_rank b) then b else a.

Definition required_class (policies : list CredentialClass) : CredentialClass :=
  match policies with
  | [] => ClassAny
  | first :: rest => foldl class_max first rest
  end.

Definition acr_for_class (c : CredentialClass) : text :=
  match c with
  | ClassAny => ACR_PWD
  | ClassMfa => ACR_MFA
  | ClassPasskey => ACR_PHR
  | ClassAttestedPasskey => ACR_ATTESTED
  end.

(** ** The registry rows *)

Lemma elem_of_ALL_METHODS m : m ∈ ALL_METHODS.
Proof. destruct m; unfold ALL_METHODS; set_solver. Qed.

Lemma method_is_active_true m : method_is_active m = true.
Proof. by destruct m. Qed.

Lemma from_as_token m : from_token (as_token m) = Some m.
Proof. by destruct m. Qed.

Lemma as_token_word m : blank_free (as_token m).
Proof. apply is_word_blank_free. by destruct m. Qed.

Lemma vec_contains_spec {A} `{EqDecision A} (x : A) l : vec_contains x l = true ↔ x ∈ l.
Proof. apply bool_decide_eq_true. Qed.

(** ** Constructed events *)

(** What every constructor promises: at least one method, none twice, and an upstream
    [amr] only on a federated event, with trimmed values that are not blank and not
    repeated. *)
Record event_wf (ev : AuthenticationEvent) : Prop := {
  wf_methods : methods ev ≠ [];
  wf_methods_nodup : NoDup (methods ev);
  wf_upstream : federated_amr ev ≠ [] ∨ federated_acr ev ≠ None → methods ev = [Federated];
  wf_amr : Forall (λ value, value ≠ []) (federated_amr ev);
  wf_amr_nodup : NoDup (federated_amr ev)
}.

(** A loop that appends the elements a condition on the vector so far lets through, where
    the condition refuses elements already there, builds a vector without duplicates. *)
Lemma foldl_fresh_nodup {A B} (f : A → B) (cond : list B → B → bool) (l : list A) :
  (∀ out y, cond out y = true → y ∉ out) → ∀ out, NoDup out →
  NoDup (foldl (λ out x, if cond out (f x) then out ++ [f x] else out) out l).
Proof.
  intros Hcond. induction l as [|x l IH]; intros out Hout; [done|]. simpl. apply IH.
  destruct (cond out (f x)) eqn:Hc; [|done]. apply NoDup_app. split; [done|].
  apply Hcond in Hc. split; [set_solver|]. apply NoDup_singleton.
Qed.

Lemma foldl_keep_Forall {A B} (P : B → Prop) (f : A → B) (cond : list B → B → bool) (l : list A) :
  (∀ out y, cond out y = true → P y) → ∀ out, Forall P out →
  Forall P (foldl (λ out x, if cond out (f x) then out ++ [f x] else out) out l).
Proof.
  intros Hcond. induction l as [|x l IH]; intros out Hout; [done|]. simpl. apply IH.
  destruct (cond out (f x)) eqn:Hc; [|done]. apply Forall_app. split; [done|].
  apply Forall_singleton. by eapply Hcond.
Qed.

Lemma keep_methods_nodup base : NoDup (keep_methods base).
Proof.
  apply (foldl_fresh_nodup id (λ kept m, method_is_active m && negb (vec_contains m kept)));
    [|apply NoDup_nil_2].
  intros out m Hm. bool_to_prop. rewrite <-vec_contains_spec. congruence.
Qed.

Lemma elem_of_keep_methods m base : m ∈ keep_methods base ↔ m ∈ base.
Proof.
  unfold keep_methods. assert (∀ kept, m ∈ foldl (λ kept m, if method_is_active m &&
    negb (vec_contains m kept) then kept ++ [m] else kept) kept base ↔ m ∈ kept ∨ m ∈ base) as Hg.
  { induction base as [|b base IH]; intros kept; simpl; [set_solver|]. rewrite IH.
    rewrite method_is_active_true. simpl. destruct (vec_contains b kept) eqn:Hb; simpl.
    - apply vec_contains_spec in Hb. set_solver.
    - set_solver. }
  rewrite Hg. set_solver.
Qed.

Lemma keep_amr_fresh (out : list text) (value : text) :
  amr_fresh out value = true → value ≠ [] ∧ (value ∉ out).
Proof.
  unfold amr_fresh. intros Hv. bool_to_prop. split; [done|]. intros Hin. apply not_true_iff_false in H0. apply H0.
  apply existsb_exists. exists value. rewrite bool_decide_eq_true. by rewrite <-list_elem_of_In.
Qed.

Lemma keep_amr_nodup l : NoDup (keep_amr l).
Proof.
  apply (foldl_fresh_nodup trim amr_fresh); [|apply NoDup_nil_2].
  intros out y Hy. by apply keep_amr_fresh in Hy as [_ ?].
Qed.

Lemma keep_amr_nonblank l : Forall (λ value, value ≠ []) (keep_amr l).
Proof.
  apply (foldl_keep_Forall _ trim amr_fresh); [|constructor].
  intros out y Hy. by apply keep_amr_fresh in Hy as [? _].
Qed.

(** An event without upstream data is well formed when its methods are. *)
Lemma local_event_wf ms t : ms ≠ [] → NoDup ms → event_wf (mkEvent ms t [] None).
Proof.
  intros Hne Hnd. split; simpl; [done|done|naive_solver|constructor|apply NoDup_nil_2].
Qed.

Lemma singleton_event_wf m t : event_wf (mkEvent [m] t [] None).
Proof. apply local_event_wf; [done|apply NoDup_singleton]. Qed.

(** The events of the program are those its constructors build. *)
Inductive recorded : AuthenticationEvent → Prop :=
| rec_password t : recorded (ev_password t)
| rec_email_otp t : recorded (ev_email_otp t)
| rec_sms t : recorded (ev_sms t)
| rec_passkey t be uv : recorded (ev_passkey t be uv)
| rec_attested t be uv : recorded (ev_attested_passkey t be uv)
| rec_totp t : recorded (ev_password_and_totp t)
| rec_recovery t : recorded (ev_password_and_recovery_code t)
| rec_from_methods base t : recorded (from_methods base t)
| rec_trusted base t : recorded (with_trusted_device base t)
| rec_federated t ups upa : recorded (ev_federated t ups upa).

Lemma recorded_wf ev : recorded ev → event_wf ev.
Proof.
  destruct 1; try apply singleton_event_wf; try (apply local_event_wf; [done|]).
  - apply NoDup_cons. split; [set_solver|apply NoDup_singleton].
  - apply NoDup_cons. split; [set_solver|apply NoDup_singleton].
  - unfold from_methods. case_bool_decide; [apply singleton_event_wf|].
    apply local_event_wf; [done|apply keep_methods_nodup].
  - unfold with_trusted_device. destruct (vec_contains TrustedDevice _) eqn:Hc.
    + apply local_event_wf; [|apply keep_methods_nodup]. intros Hn.
      by rewrite Hn in Hc.
    + apply local_event_wf; [by intros [_ ?]%app_nil|]. apply NoDup_app.
      split; [apply keep_methods_nodup|]. split; [|apply NoDup_singleton].
      intros m Hm ->%list_elem_of_singleton. apply vec_contains_spec in Hm. congruence.
  - split; simpl; [done|apply NoDup_singleton|done|apply keep_amr_nonblank|apply keep_amr_nodup].
Qed.

(** ** Reading an event back *)

Lemma list_filter_all {A} (P : A → Prop) `{∀ x, Decision (P x)} (l : list A) :
  (∀ x, x ∈ l → P x) → filter P l = l.
Proof.
  induction l as [|x l IH]; intros Hl; [done|]. rewrite filter_cons_True by (apply Hl; set_solver).
  rewrite IH; set_solver.
Qed.

Lemma parse_methods_words tokens ms : Forall blank_free tokens → ms ≠ [] →
  omap from_token tokens = ms → parse_methods (join (lit " ") tokens) = ms.
Proof.
  intros Hw Hne Hms. unfold parse_methods. change (lit " ") with [" "%char].
  rewrite split_whitespace_join, Hms by done.
  rewrite list_filter_all by (intros; by rewrite method_is_active_true).
  by rewrite bool_decide_eq_false_2.
Qed.

Lemma omap_from_as_token (ms : list AuthMethod) : omap from_token (as_token <$> ms) = ms.
Proof.
  induction ms as [|m ms IH]; [done|]. change (omap from_token (as_token <$> (m :: ms))) with
    (match from_token (as_token m) with
     | Some y => y :: omap from_token (as_token <$> ms)
     | None => omap from_token (as_token <$> ms)
     end). by rewrite from_as_token, IH.
Qed.

Lemma tokens_words (ms : list AuthMethod) : Forall blank_free (as_token <$> ms).
Proof. apply Forall_fmap, Forall_true. intros m. apply as_token_word. Qed.

Section PersistenceLemmas.
Context `{Base64UrlLaws}.

Definition fed_token (values : list text) : text :=
  FEDERATED_AMR_TOKEN_PREFIX ++ b64_encode (join FEDERATED_AMR_SEPARATOR values).

Lemma fed_token_word values : blank_free (fed_token values).
Proof.
  apply is_word_blank_free, is_word_spec. split; [done|]. apply Forall_app. split; [|apply b64_encode_graphic].
  repeat (constructor; [done|]). constructor.
Qed.

(** The reserved token is no method. *)
Lemma from_token_fed values : from_token (fed_token values) = None.
Proof. reflexivity. Qed.

(** An event's string, as the words it joins. *)
Lemma ev_methods_token_words ev : methods ev ≠ [] → ev_methods_token ev =
  join (lit " ") ((as_token <$> methods ev) ++
    (if bool_decide (federated_amr ev = []) then [] else [fed_token (federated_amr ev)])).
Proof.
  intros Hne. unfold ev_methods_token, methods_token. case_bool_decide; [by rewrite app_nil_r|].
  rewrite join_snoc by (by intros ?%fmap_nil_inv). done.
Qed.

Lemma strip_prefix_as_token m : strip_prefix FEDERATED_AMR_TOKEN_PREFIX (as_token m) = None.
Proof. by destruct m. Qed.

Lemma federated_amr_loop_methods (ms : list AuthMethod) tokens :
  federated_amr_loop ((as_token <$> ms) ++ tokens) = federated_amr_loop tokens.
Proof. induction ms as [|m ms IH]; [done|]. simpl. by rewrite strip_prefix_as_token. Qed.

Lemma federated_amr_loop_fed values : values ≠ [] →
  Forall (λ v, v ≠ [] ∧ (NUL ∉ v) ∧ from_utf8 v = true) values →
  federated_amr_loop [fed_token values] = values.
Proof.
  intros Hne Hv. cbn [federated_amr_loop]. unfold fed_token.
  rewrite (proj2 (strip_prefix_Some _ _ _) eq_refl), b64_decode_encode.
  rewrite from_utf8_join by (done || (eapply Forall_impl; [exact Hv|]; naive_solver)).
  rewrite split_char_join by (done || (eapply Forall_impl; [exact Hv|]; naive_solver)).
  apply list_filter_all. intros v Hin. rewrite list.Forall_forall in Hv. naive_solver.
Qed.

(** The string an event is persisted as reads back as the event: the
    parser returns exactly its methods, in order, and the pass-through reader exactly the
    upstream [amr] values, for every event the constructors build whose upstream values
    are Rust strings without a NUL. *)
Theorem event_round_trip ev : recorded ev →
  Forall (λ v, (NUL ∉ v) ∧ from_utf8 v = true) (federated_amr ev) →
  parse_methods (ev_methods_token ev) = methods ev ∧
  federated_amr_from_auth_methods (ev_methods_token ev) = federated_amr ev.
Proof.
  intros [Hne _ _ Hnb _]%recorded_wf Hv. rewrite ev_methods_token_words by done.
  set (extra := if bool_decide _ then _ else _).
  assert (Forall blank_free ((as_token <$> methods ev) ++ extra)) as Hw.
  { apply Forall_app. split; [apply tokens_words|]. unfold extra.
    case_bool_decide; [constructor|]. apply Forall_singleton, fed_token_word. }
  split.
  - apply parse_methods_words; [done|done|]. rewrite omap_app, omap_from_as_token.
    unfold extra. case_bool_decide; simpl; rewrite ?from_token_fed; apply app_nil_r.
  - unfold federated_amr_from_auth_methods. change (lit " ") with [" "%char].
    rewrite split_whitespace_join by done. rewrite federated_amr_loop_methods. unfold extra.
    case_bool_decide as Hf; [done|]. apply federated_amr_loop_fed; [done|].
    rewrite Forall_and; split; done.
Qed.

End PersistenceLemmas.

(** ** A codec that meets the laws *)

Module AuthnSamples.

(** Two letters per byte, one for each half. *)
Definition letters (c : ascii) : text :=
  [ascii_of_N (65 + N_of_ascii c / 16); ascii_of_N (65 + N_of_ascii c `mod` 16)].

Definition byte_of (hi lo : ascii) : ascii :=
  ascii_of_N ((N_of_ascii hi - 65) * 16 + (N_of_ascii lo - 65)).

Fixpoint pairs (s : text) : option text :=
  match s with
  | [] => Some []
  | [_] => None
  | hi :: lo :: rest => (λ bytes, byte_of hi lo :: bytes) <$> pairs rest
  end.

#[export] Instance letter_codec : Base64Url :=
  {| b64_encode bytes := concat (letters <$> bytes); b64_decode := pairs |}.

Lemma byte_of_letters c : byte_of (ascii_of_N (65 + N_of_ascii c / 16))
  (ascii_of_N (65 + N_of_ascii c `mod` 16)) = c ∧
  Forall (λ d, is_graphic d = true) (letters c).
Proof.
  destruct c as [[] [] [] [] [] [] [] []]; (split; [reflexivity|]);
    (constructor; [reflexivity|]); (constructor; [reflexivity|]); constructor.
Qed.

#[export] Instance letter_codec_laws : Base64UrlLaws.
Proof.
  split; intros bytes; simpl.
  - induction bytes as [|c bytes IH]; [done|].
    change (concat (letters <$> c :: bytes)) with (letters c ++ concat (letters <$> bytes)).
    simpl. rewrite IH. simpl. by rewrite (proj1 (byte_of_letters c)).
  - apply Forall_concat, Forall_fmap, Forall_true. intros c. apply byte_of_letters.
Qed.

Definition upstream : AuthenticationEvent :=
  ev_federated 7 [lit "hwk"; lit " pin "; lit "hwk"] (Some (lit "urn:upstream:gold")).

Lemma event_round_trip_witness : federated_amr upstream = [lit "hwk"; lit "pin"] ∧
  parse_methods (ev_methods_token upstream) = [Federated] ∧
  federated_amr_from_auth_methods (ev_methods_token upstream) = [lit "hwk"; lit "pin"].
Proof.
  split; [reflexivity|]. apply (event_round_trip upstream).
  - apply rec_federated.
  - change (federated_amr upstream) with [lit "hwk"; lit "pin"].
    repeat constructor; by apply (bool_decide_unpack _).
Defined.

End AuthnSamples.
