(* ===== verification/StepUp.v ===== *)
(** * Step-up authentication

    The authentication requirement of crates/ironauth-oidc/src/step_up.rs: the [acr] order,
    the assembly of a requirement from the request, the client, the scope policies and the
    credential-class policies, its evaluation against a recorded authentication, and the
    remediation of an unmet one.  The store reads of [requirement_for_request],
    [credential_class_floor] and [decide_remediation] are arguments that carry what the
    read returned.  The theorems: the assembled requirement is met exactly when every
    source is met, when every floor is ranked; the derived [acr] is the strongest of the
    recorded methods; and a remediation is always chosen for an unmet requirement and leads
    on, each outcome in its own way. *)

From S2P Require Import Prelude Text Machine Authn.

(** ** The order *)

Definition default_acr_order : list text := acr_values_supported.

Definition known_step_up_acrs : list text := acr_values_supported.

(** [s.rsplit(c).next()]: the part after the last separator. *)
Definition rsplit_next (c : ascii) (s : text) : option text := last (split_char c s).

(** Whether a supported value is the given one or has it as its last segment. *)
Definition acr_named (value acr : text) : bool :=
  bool_decide (acr = value) || bool_decide (rsplit_next ":" acr = Some value).

Definition is_known_step_up_acr (value : text) : bool :=
  existsb (acr_named value) acr_values_supported.

Definition canonical_step_up_acr (alias : text) : text :=
  default alias (List.find (acr_named alias) acr_values_supported).

Definition acr_rank (acr : text) (order : list text) : option nat :=
  fst <$> list_find (λ candidate, candidate = acr) order.

Definition acr_satisfies (achieved required : text) (order : list text) : bool :=
  if bool_decide (achieved = required) then true
  else match acr_rank achieved order, acr_rank required order with
       | Some achieved_rank, Some required_rank => required_rank <=? achieved_rank
       | _, _ => false
       end.

(** ** Requirements *)

Record AuthnRequirement : Type := mkRequirement {
  min_acr : option text;
  max_auth_age_secs : option Z
}.

Definition is_empty_requirement (r : AuthnRequirement) : bool :=
  bool_decide (min_acr r = None) && bool_decide (max_auth_age_secs r = None).

Definition stronger_acr (left right : text) (order : list text) : text :=
  match acr_rank left order, acr_rank right order with
  | Some l, Some r => if l <? r then right else left
  | None, Some _ => right
  | _, _ => left
  end.

Definition merge_stronger (self other : AuthnRequirement) (order : list text) : AuthnRequirement :=
  mkRequirement
    (match min_acr other with
     | Some candidate =>
         Some (match min_acr self with
               | Some current => stronger_acr current candidate order
               | None => candidate
               end)
     | None => min_acr self
     end)
    (match max_auth_age_secs other with
     | Some candidate =>
         Some (match max_auth_age_secs self with
               | Some current => Z.min current candidate
               | None => candidate
               end)
     | None => max_auth_age_secs self
     end).

(** The fold over the listed values. *)
Definition strongest_listed (order : list text) (values : list text) : option text :=
  foldl (λ acc value,
    match acc with
    | Some current => Some (stronger_acr current value order)
    | None => Some value
    end) None values.

Definition requirement_from_acr_values (acr_values : option text) (max_age_secs : option Z)
    (order : list text) : AuthnRequirement :=
  mkRequirement (strongest_listed order (from_option split_whitespace [] acr_values)) max_age_secs.

(** ** Evaluation *)

Inductive Satisfaction : Type :=
| Satisfied
| NeedsStepUp (acr_unmet age_lapsed : bool).

Definition age_lapsed (max_age_secs : Z) (auth_time_micros : option Z) (now_micros : Z) : bool :=
  match auth_time_micros with
  | None => true
  | Some auth_time =>
      let elapsed := i64_saturating_sub now_micros auth_time in
      let window := i64_saturating_mul (default I64_MAX (i64_try_from max_age_secs)) 1000000 in
      (window <? elapsed)%Z
  end.

Definition privilege_is_fresh (auth_time_micros : option Z) (window_secs now_micros : Z) : bool :=
  negb (age_lapsed window_secs auth_time_micros now_micros).

Definition evaluate_requirement (requirement : AuthnRequirement) (achieved : text)
    (auth_time_micros : option Z) (now_micros : Z) (order : list text) : Satisfaction :=
  let acr_unmet := from_option (λ floor, negb (acr_satisfies achieved floor order)) false
                     (min_acr requirement) in
  let lapsed := from_option (λ secs, age_lapsed secs auth_time_micros now_micros) false
                  (max_auth_age_secs requirement) in
  if acr_unmet || lapsed then NeedsStepUp acr_unmet lapsed else Satisfied.

Definition floor_is_achievable (floor : text) (order : list text) : bool :=
  existsb (λ supported, acr_satisfies supported floor order) acr_values_supported.

(** ** Assembling the requirement of a request *)

(** The columns of a client, of a scope policy and of a credential-class policy that are
    read here. *)
Record ClientFloor : Type := mkClientFloor {
  step_up_acr : option text;
  step_up_max_age_secs : option Z
}.

Record ScopeStepUpPolicy : Type := mkScopePolicy {
  scope_token : text;
  policy_min_acr : option text;
  policy_max_auth_age_secs : option Z
}.

Record CredentialClassPolicy : Type := mkClassPolicy {
  subject_kind : text;
  min_class : text
}.

Record RequirementForRequest : Type := mkForRequest {
  requirement : AuthnRequirement;
  mfa_baseline_required : bool;
  policy_read_faulted : bool
}.

Definition credential_class_floor (policies : Result (list CredentialClassPolicy) unit)
    : Result (option CredentialClass) unit :=
  let? policies := policies in
  let applicable := omap (λ policy, class_from_token (min_class policy))
    (filter (λ policy, subject_kind policy = lit "tenant") policies) in
  let required := required_class applicable in
  if bool_decide (required = ClassAny) then Ok None else Ok (Some required).

Definition required_credential_class (policies : Result (list CredentialClassPolicy) unit)
    : CredentialClass :=
  match credential_class_floor policies with Ok (Some c) => c | _ => ClassAny end.

(** The values of [acr_values] some method can reach, joined again. *)
Definition achievable_acr_values (order : list text) (acr_values : option text) : option text :=
  (λ values, join (lit " ")
     (filter (λ value, floor_is_achievable value order = true) (split_whitespace values)))
  <$> acr_values.

Definition client_requirement (client : ClientFloor) : AuthnRequirement :=
  mkRequirement (step_up_acr client) (step_up_max_age_secs client ≫= u64_try_from).

Definition scope_requirement (policy : ScopeStepUpPolicy) : AuthnRequirement :=
  mkRequirement (policy_min_acr policy) (policy_max_auth_age_secs policy ≫= u64_try_from).

Definition class_requirement (class : CredentialClass) : AuthnRequirement :=
  mkRequirement (Some (acr_for_class class)) None.

(** The loop over the scope policies. *)
Definition merge_scope_policies (order : list text) (requested_tokens : list text)
    (policies : list ScopeStepUpPolicy) (r : AuthnRequirement) : AuthnRequirement :=
  foldl (λ r policy,
    if vec_contains (scope_token policy) requested_tokens
    then merge_stronger r (scope_requirement policy) order else r) r policies.

(** The scope-policy source: the requirement and whether the read failed. *)
Definition merge_scope_source (order : list text) (requested_scope : option text)
    (scope_policies : Result (list ScopeStepUpPolicy) unit) (r : AuthnRequirement)
    : AuthnRequirement * bool :=
  match requested_scope with
  | None => (r, false)
  | Some requested =>
      match scope_policies with
      | Ok policies => (merge_scope_policies order (split_whitespace requested) policies r, false)
      | Err _ => (r, true)
      end
  end.

Definition requirement_for_request (order : list text) (client : ClientFloor)
    (requested_scope acr_values : option text) (max_age_secs : option Z)
    (scope_policies : Result (list ScopeStepUpPolicy) unit)
    (class_policies : Result (list CredentialClassPolicy) unit) : RequirementForRequest :=
  let r := requirement_from_acr_values (achievable_acr_values order acr_values) max_age_secs order in
  let r := merge_stronger r (client_requirement client) order in
  let '(r, faulted) := merge_scope_source order requested_scope scope_policies r in
  match credential_class_floor class_policies with
  | Ok (Some ClassMfa) => mkForRequest r true faulted
  | Ok (Some class) => mkForRequest (merge_stronger r (class_requirement class) order) false faulted
  | Ok None => mkForRequest r false faulted
  | Err _ => mkForRequest r false true
  end.

(** ** Remediation *)

Inductive Remediation : Type := FullReauth | SecondFactor | PasskeyReauth | Enroll | Fail.

(** What the subject has enrolled and what the deployment offers. *)
Record FactorState : Type := mkFactors {
  has_active_totp : bool;
  has_passkey : bool;
  totp_enabled : bool;
  webauthn_enabled : bool
}.

(** The recursive call has [acr_unmet] set; [None] is fuel that ran out. *)
Fixpoint decide_remediation (fuel : nat) (order : list text) (factors : FactorState)
    (r : AuthnRequirement) (acr_unmet age_lapsed session_is_federated : bool) : option Remediation :=
  match fuel with
  | O => None
  | S n =>
      if from_option (λ floor, negb (floor_is_achievable floor order)) false (min_acr r)
      then Some Fail
      else
        let floor_is_mfa_level :=
          from_option (λ floor, acr_satisfies acr_for_mfa floor order) true (min_acr r) in
        if acr_unmet then
          if floor_is_mfa_level then
            if has_active_totp factors then Some SecondFactor
            else if has_passkey factors then Some PasskeyReauth
            else if totp_enabled factors || webauthn_enabled factors then Some Enroll
            else Some Fail
          else if has_passkey factors then Some PasskeyReauth
          else Some Fail
        else if age_lapsed && negb acr_unmet && session_is_federated then
          decide_remediation n order factors (mkRequirement (Some acr_for_mfa) None)
            true age_lapsed session_is_federated
        else Some FullReauth
  end.

(** The event a completed second-factor challenge records. *)
Definition second_factor_event (session : list AuthMethod) (new_method : AuthMethod) (now : Z)
    : AuthenticationEvent :=
  from_methods (push_fresh session new_method) now.

(** Whether a session has no local way to refresh its time. *)
Definition session_is_federated (session : list AuthMethod) : bool :=
  vec_contains Federated session && negb (performed_second_factor session).

(** ** The order of [acr] values *)

Definition ranked (order : list text) (floor : text) : Prop := is_Some (acr_rank floor order).

#[export] Instance ranked_dec order floor : Decision (ranked order floor).
Proof. unfold ranked. apply _. Defined.

(** With a ranked floor the exact-match case is one of the comparison. *)
Lemma acr_satisfies_ranked achieved floor order k : acr_rank floor order = Some k →
  acr_satisfies achieved floor order =
  match acr_rank achieved order with Some j => k <=? j | None => false end.
Proof.
  intros Hk. unfold acr_satisfies. case_bool_decide as He.
  - subst. rewrite Hk. symmetry. apply Nat.leb_refl.
  - by rewrite Hk.
Qed.

Lemma stronger_acr_ranked left right order : ranked order left → ranked order right →
  ranked order (stronger_acr left right order).
Proof.
  intros [l Hl] [r Hr]. unfold stronger_acr. rewrite Hl, Hr. destruct (l <? r); eexists; eauto.
Qed.

(** The stronger of two ranked floors is met exactly when both are. *)
Lemma acr_satisfies_stronger achieved left right order : ranked order left → ranked order right →
  acr_satisfies achieved (stronger_acr left right order) order =
  acr_satisfies achieved left order && acr_satisfies achieved right order.
Proof.
  intros [l Hl] [r Hr]. rewrite (acr_satisfies_ranked _ _ _ _ Hl), (acr_satisfies_ranked _ _ _ _ Hr).
  unfold stronger_acr. rewrite Hl, Hr. destruct (l <? r) eqn:Hlt.
  - rewrite (acr_satisfies_ranked _ _ _ _ Hr). destruct (acr_rank achieved order) as [j|]; [|done].
    apply Nat.ltb_lt in Hlt. destruct (r <=? j) eqn:Hj; [|by rewrite andb_false_r].
    apply Nat.leb_le in Hj. symmetry. rewrite andb_true_r. apply Nat.leb_le. lia.
  - rewrite (acr_satisfies_ranked _ _ _ _ Hl). destruct (acr_rank achieved order) as [j|]; [|done].
    apply Nat.ltb_ge in Hlt. destruct (l <=? j) eqn:Hj; [|done].
    apply Nat.leb_le in Hj. symmetry. apply Nat.leb_le. lia.
Qed.

(** ** Meeting a requirement *)

(** The achieved [acr] and the recorded time meet the requirement. *)
Definition met (achieved : text) (auth_time : option Z) (now : Z) (order : list text)
    (r : AuthnRequirement) : Prop :=
  from_option (λ floor, acr_satisfies achieved floor order = true) True (min_acr r) ∧
  from_option (λ secs, age_lapsed secs auth_time now = false) True (max_auth_age_secs r).

Lemma evaluate_satisfied r achieved t now order :
  evaluate_requirement r achieved t now order = Satisfied ↔ met achieved t now order r.
Proof.
  unfold evaluate_requirement, met. destruct (min_acr r) as [f|], (max_auth_age_secs r) as [s|]; simpl;
    try destruct (acr_satisfies achieved f order); try destruct (age_lapsed s t now); simpl;
    split; try done; by intros [? ?].
Qed.

Lemma age_lapsed_mono a b t now : (a ≤ b)%Z → age_lapsed b t now = true → age_lapsed a t now = true.
Proof.
  unfold age_lapsed. destruct t as [t|]; [|done]. intros Hab. rewrite !Z.ltb_lt.
  apply Z.le_lt_trans. unfold i64_try_from, i64_saturating_mul, clamp.
  destruct (Z.leb_spec a I64_MAX), (Z.leb_spec b I64_MAX); simpl; unfold I64_MAX, I64_MIN in *; lia.
Qed.

(** A shorter window lapses no later. *)
Lemma age_lapsed_min a b t now :
  age_lapsed (Z.min a b) t now = age_lapsed a t now || age_lapsed b t now.
Proof.
  destruct (Z.min_spec a b) as [[Hlt ->]|[Hle ->]].
  - destruct (age_lapsed b t now) eqn:Hb; [|by rewrite orb_false_r].
    rewrite orb_true_r. apply (age_lapsed_mono a b); [lia|done].
  - destruct (age_lapsed a t now) eqn:Ha; [|done].
    apply (age_lapsed_mono b a); done.
Qed.

Definition floor_ranked (order : list text) (r : AuthnRequirement) : Prop :=
  from_option (ranked order) True (min_acr r).

#[export] Instance floor_ranked_dec order r : Decision (floor_ranked order r).
Proof. unfold floor_ranked. destruct (min_acr r); simpl; apply _. Defined.

#[export] Instance met_dec achieved t now order r : Decision (met achieved t now order r).
Proof. unfold met. destruct (min_acr r), (max_auth_age_secs r); simpl; apply _. Defined.

Lemma merge_floor_ranked order a b : floor_ranked order a → floor_ranked order b →
  floor_ranked order (merge_stronger a b order).
Proof.
  unfold floor_ranked. simpl. destruct (min_acr b) as [fb|], (min_acr a) as [fa|]; simpl; try done.
  apply stronger_acr_ranked.
Qed.

(** Merging ranked requirements is conjunction. *)
Lemma merge_met achieved t now order a b : floor_ranked order a → floor_ranked order b →
  met achieved t now order (merge_stronger a b order) ↔
  met achieved t now order a ∧ met achieved t now order b.
Proof.
  unfold floor_ranked, met, merge_stronger; simpl. intros Ha Hb.
  assert (∀ P Q P' Q' R S : Prop, (P ↔ P' ∧ R) → (Q ↔ Q' ∧ S) → (P ∧ Q ↔ (P' ∧ Q') ∧ (R ∧ S))) as Hc
    by tauto.
  apply Hc.
  - destruct (min_acr b) as [fb|], (min_acr a) as [fa|]; simpl in *; try tauto.
    by rewrite acr_satisfies_stronger, andb_true_iff.
  - destruct (max_auth_age_secs b) as [sb|], (max_auth_age_secs a) as [sa|]; simpl; try tauto.
    by rewrite age_lapsed_min, orb_false_iff.
Qed.

(** ** The sources of a requirement *)

Lemma strongest_listed_from order values : ∀ acc,
  Forall (ranked order) values → from_option (ranked order) True acc →
  let out := foldl (λ acc value,
    match acc with
    | Some current => Some (stronger_acr current value order)
    | None => Some value
    end) acc values in
  from_option (ranked order) True out ∧
  ∀ achieved, from_option (λ f, acr_satisfies achieved f order = true) True out ↔
    from_option (λ f, acr_satisfies achieved f order = true) True acc ∧
    Forall (λ v, acr_satisfies achieved v order = true) values.
Proof.
  induction values as [|v values IH]; intros acc Hv Hacc; simpl.
  { split; [done|]. intros. rewrite Forall_nil. tauto. }
  apply Forall_cons in Hv as [Hv Hvs].
  destruct acc as [cur|]; simpl in *.
  - destruct (IH (Some (stronger_acr cur v order))) as [Hr Hiff]; [done|by apply stronger_acr_ranked|].
    split; [done|]. intros achieved. rewrite Hiff, Forall_cons. simpl.
    rewrite acr_satisfies_stronger, andb_true_iff by done. tauto.
  - destruct (IH (Some v)) as [Hr Hiff]; [done|done|]. split; [done|].
    intros achieved. rewrite Hiff, Forall_cons. simpl. tauto.
Qed.

(** The values of [acr_values] that count. *)
Definition listed_values (order : list text) (acr_values : option text) : list text :=
  filter (λ value, floor_is_achievable value order = true) (from_option split_whitespace [] acr_values).

Lemma split_achievable order acr_values :
  from_option split_whitespace [] (achievable_acr_values order acr_values) =
  listed_values order acr_values.
Proof.
  unfold listed_values. destruct acr_values as [values|]; [|done].
  unfold achievable_acr_values. cbn [fmap option_fmap option_map from_option].
  change (lit " ") with [" "%char]. apply split_whitespace_join.
  apply list.Forall_forall. intros w [_ Hw]%list_elem_of_filter.
  pose proof (split_whitespace_parts values) as Hp. rewrite list.Forall_forall in Hp. by apply Hp.
Qed.

Lemma request_requirement_met order acr_values max_age achieved t now :
  Forall (ranked order) (listed_values order acr_values) →
  let r := requirement_from_acr_values (achievable_acr_values order acr_values) max_age order in
  floor_ranked order r ∧
  (met achieved t now order r ↔
   Forall (λ v, acr_satisfies achieved v order = true) (listed_values order acr_values) ∧
   from_option (λ secs, age_lapsed secs t now = false) True max_age).
Proof.
  intros Hr. unfold requirement_from_acr_values, floor_ranked, met, strongest_listed. simpl.
  rewrite split_achievable. destruct (strongest_listed_from order _ None Hr I) as [Hk Hiff].
  split; [done|]. rewrite Hiff. simpl. tauto.
Qed.

Lemma merge_scope_policies_met order tokens achieved t now policies : ∀ r,
  floor_ranked order r →
  Forall (λ p, scope_token p ∈ tokens → floor_ranked order (scope_requirement p)) policies →
  let out := merge_scope_policies order tokens policies r in
  floor_ranked order out ∧
  (met achieved t now order out ↔ met achieved t now order r ∧
   Forall (λ p, scope_token p ∈ tokens → met achieved t now order (scope_requirement p)) policies).
Proof.
  induction policies as [|p policies IH]; intros r Hr Hps; simpl.
  { split; [done|]. rewrite Forall_nil. tauto. }
  apply Forall_cons in Hps as [Hp Hps]. unfold vec_contains. case_bool_decide as Hin.
  - destruct (IH (merge_stronger r (scope_requirement p) order)) as [Hk Hiff];
      [apply merge_floor_ranked; auto|done|].
    split; [done|]. rewrite Hiff, Forall_cons, merge_met by auto. tauto.
  - destruct (IH r) as [Hk Hiff]; [done|done|]. split; [done|]. rewrite Hiff, Forall_cons. tauto.
Qed.

(** The scope policies that apply to a request. *)
Definition applicable_policies (requested_scope : option text)
    (policies : Result (list ScopeStepUpPolicy) unit) : list ScopeStepUpPolicy :=
  match requested_scope, policies with
  | Some requested, Ok policies =>
      filter (λ p, scope_token p ∈ split_whitespace requested) policies
  | _, _ => []
  end.

(** The credential class that is folded into the requirement. *)
Definition folded_class (class_policies : Result (list CredentialClassPolicy) unit) : option CredentialClass :=
  match credential_class_floor class_policies with
  | Ok (Some ClassMfa) => None
  | Ok floor => floor
  | Err _ => None
  end.

Lemma Forall_filter_impl {A} (P Q : A → Prop) `{∀ x, Decision (P x)} (l : list A) :
  Forall Q (filter P l) ↔ Forall (λ x, P x → Q x) l.
Proof. rewrite !list.Forall_forall. setoid_rewrite list_elem_of_filter. naive_solver. Qed.

Lemma scope_source_met order requested_scope scopes achieved t now r :
  floor_ranked order r →
  Forall (λ p, floor_ranked order (scope_requirement p)) (applicable_policies requested_scope scopes) →
  let '(out, faulted) := merge_scope_source order requested_scope scopes r in
  floor_ranked order out ∧
  (met achieved t now order out ↔ met achieved t now order r ∧
   Forall (λ p, met achieved t now order (scope_requirement p))
     (applicable_policies requested_scope scopes)) ∧
  (faulted = true ↔ requested_scope ≠ None ∧ scopes = Err ()).
Proof.
  intros Hr. unfold merge_scope_source, applicable_policies.
  destruct requested_scope as [requested|]; [destruct scopes as [policies|[]]|].
  - rewrite !Forall_filter_impl. intros Hps.
    destruct (merge_scope_policies_met order _ achieved t now policies r Hr Hps) as [Hk Hiff].
    split; [done|]. split; [done|]. naive_solver.
  - intros _. rewrite Forall_nil. naive_solver.
  - intros _. rewrite Forall_nil. naive_solver.
Qed.

Lemma class_requirement_met achieved t now order c :
  met achieved t now order (class_requirement c) ↔
  acr_satisfies achieved (acr_for_class c) order = true.
Proof. unfold met, class_requirement. cbn [min_acr max_auth_age_secs from_option]. tauto. Qed.

Lemma credential_class_floor_Err classes : (∃ e, credential_class_floor classes = Err e) ↔ classes = Err ().
Proof.
  destruct classes as [l|[]]; unfold credential_class_floor; [|split; eauto].
  case_bool_decide; (split; [intros [e He]; discriminate He|discriminate]).
Qed.

Section AllSources.
Context (order : list text) (client : ClientFloor) (requested_scope acr_values : option text).
Context (max_age : option Z) (scopes : Result (list ScopeStepUpPolicy) unit).
Context (classes : Result (list CredentialClassPolicy) unit).

(** Every floor a source states is in the order. *)
Definition sources_ranked : Prop :=
  Forall (ranked order) (listed_values order acr_values) ∧
  floor_ranked order (client_requirement client) ∧
  Forall (λ p, floor_ranked order (scope_requirement p)) (applicable_policies requested_scope scopes) ∧
  from_option (λ c, ranked order (acr_for_class c)) True (folded_class classes).

(** Every source is met on its own. *)
Definition sources_met (achieved : text) (t : option Z) (now : Z) : Prop :=
  Forall (λ v, acr_satisfies achieved v order = true) (listed_values order acr_values) ∧
  from_option (λ secs, age_lapsed secs t now = false) True max_age ∧
  met achieved t now order (client_requirement client) ∧
  Forall (λ p, met achieved t now order (scope_requirement p))
    (applicable_policies requested_scope scopes) ∧
  from_option (λ c, acr_satisfies achieved (acr_for_class c) order = true) True (folded_class classes).

(** C22 (refinement): assembling the requirement of a request is conjunction of its
    sources.  When every stated floor is ranked, the assembled requirement evaluates to
    satisfied exactly when the achievable requested values, the age bound, the client
    floor, every policy of a requested scope and the folded credential class are each
    satisfied; the baseline flag is set exactly for an MFA class floor, and the fault flag
    exactly when a policy read that was made failed. *)
Theorem requirement_all_sources achieved t now : sources_ranked →
  let out := requirement_for_request order client requested_scope acr_values max_age scopes classes in
  (evaluate_requirement (requirement out) achieved t now order = Satisfied ↔
   sources_met achieved t now) ∧
  (mfa_baseline_required out = true ↔ credential_class_floor classes = Ok (Some ClassMfa)) ∧
  (policy_read_faulted out = true ↔
   (requested_scope ≠ None ∧ scopes = Err ()) ∨ classes = Err ()).
Proof.
  intros (Hl & Hc & Hs & Hk). unfold sources_met, requirement_for_request.
  destruct (request_requirement_met order acr_values max_age achieved t now Hl) as [Hr0 Hm0].
  set (r0 := requirement_from_acr_values _ _ _) in *.
  pose proof (merge_floor_ranked _ _ _ Hr0 Hc) as Hr1.
  pose proof (merge_met achieved t now _ _ _ Hr0 Hc) as Hm1.
  set (r1 := merge_stronger r0 _ _) in *.
  pose proof (scope_source_met order requested_scope scopes achieved t now r1 Hr1 Hs) as H2.
  destruct (merge_scope_source order requested_scope scopes r1) as [r2 faulted].
  destruct H2 as (Hr2 & Hm2 & Hf2).
  assert (match credential_class_floor classes with
          | Ok _ => classes ≠ Err () | Err _ => classes = Err () end) as He.
  { pose proof (credential_class_floor_Err classes) as Herr.
    destruct (credential_class_floor classes); rewrite <-Herr; [by intros [? ?]|eauto]. }
  unfold folded_class in *.
  destruct (credential_class_floor classes) as [[class|]|e] eqn:Hcl;
    [destruct class|..];
    cbn [requirement mfa_baseline_required policy_read_faulted from_option] in *;
    rewrite evaluate_satisfied, ?merge_met, ?class_requirement_met by done;
    rewrite Hm2, Hm1, Hm0, ?Hf2;
    (split; [tauto|split; [by split|tauto]]).
Qed.
End AllSources.

(** ** The derived [acr] *)

(** The position of a method in the registry. *)
Definition method_rank (m : AuthMethod) : nat :=
  default 0 (fst <$> list_find (λ c, c = m) ALL_METHODS).

(** The registry row that decides the [acr] is a recorded one, and no recorded one comes
    after it. *)
Lemma achieved_acr_last ms : ms ≠ [] →
  ∃ m, m ∈ ms ∧ achieved_acr ms = acr m ∧ ∀ m', m' ∈ ms → method_rank m' ≤ method_rank m.
Proof.
  intros Hne. unfold achieved_acr.
  change (reverse ALL_METHODS) with
    [AttestedPasskeyHardwareVerified; AttestedPasskeyHardware; AttestedPasskeyVerified;
     AttestedPasskey; PasskeyHardwareVerified; PasskeyHardware; PasskeyVerified; Passkey;
     RecoveryCode; Totp; TrustedDevice; Sms; EmailOtp; Federated; Password].
  cbn [List.find]. unfold vec_contains.
  repeat (case_bool_decide; [eexists; split; [eassumption|]; split; [reflexivity|];
    intros [] Hm; try contradiction; vm_compute; lia|]).
  destruct ms as [|m ms]; [done|]. exfalso.
  assert (m ∈ m :: ms) by (by left). by destruct m.
Qed.

(** Among local methods the registry order is the default order of the [acr] values. *)
Lemma method_rank_acr a b : a ≠ Federated → b ≠ Federated → method_rank b ≤ method_rank a →
  acr_satisfies (acr a) (acr b) default_acr_order = true.
Proof.
  intros Ha Hb. destruct a; try done; destruct b; try done; vm_compute; try done; lia.
Qed.

Lemma achieved_acr_satisfies ms m : ms ≠ [] → (Federated ∉ ms) → m ∈ ms →
  acr_satisfies (achieved_acr ms) (acr m) default_acr_order = true.
Proof.
  intros Hne Hf Hm. destruct (achieved_acr_last ms Hne) as (m0 & Hm0 & -> & Hmax).
  apply method_rank_acr; [congruence|congruence|auto].
Qed.

Lemma satisfies_trans a b c order : ranked order c → ranked order b →
  acr_satisfies a b order = true → acr_satisfies b c order = true → acr_satisfies a c order = true.
Proof.
  intros [k Hk] [j Hj]. rewrite (acr_satisfies_ranked _ _ _ _ Hk), (acr_satisfies_ranked _ _ _ _ Hj).
  rewrite (acr_satisfies_ranked _ _ _ _ Hk), Hj. destruct (acr_rank a order); [|done].
  rewrite !Nat.leb_le. lia.
Qed.

Lemma supported_ranked m : m ≠ Federated → ranked default_acr_order (acr m).
Proof. intros Hm. destruct m; try done; eexists; vm_compute; reflexivity. Qed.

Lemma class_ranked c : ranked default_acr_order (acr_for_class c).
Proof. destruct c; eexists; vm_compute; reflexivity. Qed.

(** The class of a local event is backed by one of its methods. *)
Lemma satisfied_class_backed ev facts : methods ev ≠ [] → (Federated ∉ methods ev) →
  acr_satisfies (achieved_acr (methods ev)) (acr_for_class (satisfied_class ev facts))
    default_acr_order = true.
Proof.
  intros Hne Hf.
  assert (∀ (p : AuthMethod → bool) c, existsb p (methods ev) = true →
    (∀ m, p m = true → acr_satisfies (acr m) (acr_for_class c) default_acr_order = true) →
    acr_satisfies (achieved_acr (methods ev)) (acr_for_class c) default_acr_order = true) as Hgo.
  { intros p c Hp Hall. apply existsb_exists in Hp as (m & Hm & Hpm).
    apply list_elem_of_In in Hm. eapply (satisfies_trans _ (acr m)).
    - apply class_ranked.
    - apply supported_ranked. congruence.
    - by apply achieved_acr_satisfies.
    - by apply Hall. }
  unfold satisfied_class. destruct (existsb is_passkey_method (methods ev)) eqn:Hp; simpl andb.
  - destruct (_ || _); [destruct (existsb is_attested (methods ev) && _) eqn:Ha|].
    + bool_to_prop. apply (Hgo is_attested); [done|]. by intros [].
    + apply (Hgo is_passkey_method); [done|]. by intros [].
    + case_bool_decide as Hm; [rewrite Hm; by vm_compute|].
      apply (Hgo is_passkey_method); [done|]. by intros [].
  - case_bool_decide as Hm; [rewrite Hm; by vm_compute|].
    destruct (achieved_acr_last _ Hne) as (m & Hin & -> & _).
    assert (m ≠ Federated) by congruence. by destruct m.
Qed.

(** The derived [acr] of a local authentication is the strongest of its
    methods: it is the [acr] of a recorded method, it meets the [acr] of every recorded
    method under the default order, and the credential class the event reaches never
    claims more than that [acr]. *)
Theorem achieved_acr_strongest ev facts : recorded ev → (Federated ∉ methods ev) →
  (∃ m, m ∈ methods ev ∧ achieved_acr (methods ev) = acr m) ∧
  (∀ m, m ∈ methods ev →
     acr_satisfies (achieved_acr (methods ev)) (acr m) default_acr_order = true) ∧
  acr_satisfies (achieved_acr (methods ev)) (acr_for_class (satisfied_class ev facts))
    default_acr_order = true.
Proof.
  intros [Hne _ _ _ _]%recorded_wf Hf. split; [|split].
  - destruct (achieved_acr_last _ Hne) as (m & Hm & Ha & _). eauto.
  - intros m Hm. by apply achieved_acr_satisfies.
  - by apply satisfied_class_backed.
Qed.

(** ** Remediation *)

(** The call that recurses recurses once. *)
Lemma decide_remediation_returns n order factors r acr_unmet lapsed fed :
  ∃ out, decide_remediation (S (S n)) order factors r acr_unmet lapsed fed = Some out.
Proof.
  cbn [decide_remediation]. destruct (from_option _ _ _); [eauto|].
  destruct acr_unmet; [repeat (destruct (_ : bool)); eauto|].
  destruct (_ && _ && _); [|eauto]. destruct (from_option _ _ _); [eauto|].
  repeat (destruct (_ : bool)); eauto.
Qed.

Lemma acr_satisfies_ranked_floor achieved floor order : ranked order achieved →
  acr_satisfies achieved floor order = true → ranked order floor.
Proof.
  intros [j Hj]. unfold acr_satisfies, ranked. case_bool_decide as He; [subst; eauto|].
  rewrite Hj. destruct (acr_rank floor order); [eauto|done].
Qed.

(** A session with a second factor reaches every floor at the MFA level. *)
Lemma second_factor_reaches ms new floor : new = Totp ∨ new = RecoveryCode → new ∈ ms →
  acr_satisfies acr_for_mfa floor default_acr_order = true →
  acr_satisfies (achieved_acr ms) floor default_acr_order = true.
Proof.
  intros Hnew Hin Hfloor.
  assert (ranked default_acr_order acr_for_mfa) as Hmfa by (apply (class_ranked ClassMfa)).
  apply (satisfies_trans _ acr_for_mfa); [by eapply acr_satisfies_ranked_floor|done| |done].
  destruct (achieved_acr_last ms) as (m & _ & -> & Hmax); [by intros ->; apply elem_of_nil in Hin|].
  specialize (Hmax _ Hin). destruct Hnew as [-> | ->]; destruct m; vm_compute in Hmax; try lia; by vm_compute.
Qed.

Lemma second_factor_event_method session new now : new ∈ methods (second_factor_event session new now).
Proof.
  assert (new ∈ push_fresh session new) as Hin.
  { unfold push_fresh. destruct (vec_contains new session) eqn:Hc; [by apply vec_contains_spec|set_solver]. }
  unfold second_factor_event, from_methods. cbn [methods]. rewrite <-elem_of_keep_methods in Hin.
  case_bool_decide as Hk; [|done]. rewrite Hk in Hin. by apply elem_of_nil in Hin.
Qed.

Lemma age_now secs now : (0 ≤ secs)%Z → age_lapsed secs (Some now) now = false.
Proof.
  intros Hs. unfold age_lapsed. rewrite i64_saturating_sub_self. apply Z.ltb_ge.
  unfold i64_saturating_mul, i64_try_from, clamp, I64_MIN, I64_MAX.
  destruct (Z.leb_spec secs (2 ^ 63 - 1)); simpl; lia.
Qed.

(** A fresh authentication meets a requirement whose floor it reaches. *)
Lemma fresh_met achieved now order r :
  from_option (λ s, 0 ≤ s)%Z True (max_auth_age_secs r) →
  from_option (λ f, acr_satisfies achieved f order = true) True (min_acr r) →
  met achieved (Some now) now order r.
Proof.
  intros Hage Hacr. split; [done|]. destruct (max_auth_age_secs r); [|done]. by apply age_now.
Qed.

Lemma needs_step_up_flags r achieved t now order unmet lapsed :
  evaluate_requirement r achieved t now order = NeedsStepUp unmet lapsed →
  unmet = from_option (λ f, negb (acr_satisfies achieved f order)) false (min_acr r).
Proof. unfold evaluate_requirement. destruct (_ || _); naive_solver. Qed.

(** An authentication meets a requirement at the moment it is recorded. *)
Definition meets (ev : AuthenticationEvent) (r : AuthnRequirement) : Prop :=
  evaluate_requirement r (achieved_acr (methods ev)) (Some (auth_time_unix_micros ev))
    (auth_time_unix_micros ev) default_acr_order = Satisfied.

(** A level reaches the floor of a requirement. *)
Definition attains (level : text) (r : AuthnRequirement) : Prop :=
  from_option (λ floor, acr_satisfies level floor default_acr_order = true) True (min_acr r).

(** The events a passkey sign-in records, with the level of the passkey used: synced,
    bound to its hardware, or attested. *)
Inductive passkey_ceremony : AuthenticationEvent → text → Prop :=
| ceremony_synced now uv : passkey_ceremony (ev_passkey now true uv) ACR_PHR
| ceremony_hardware now uv : passkey_ceremony (ev_passkey now false uv) ACR_PHRH
| ceremony_attested now be uv : passkey_ceremony (ev_attested_passkey now be uv) ACR_ATTESTED.

Definition holding_totp (factors : FactorState) : FactorState :=
  mkFactors true (has_passkey factors) (totp_enabled factors) (webauthn_enabled factors).

Definition holding_passkey (factors : FactorState) : FactorState :=
  mkFactors (has_active_totp factors) true (totp_enabled factors) (webauthn_enabled factors).

(** What a chosen remediation leads to.  A second factor the subject holds meets the
    requirement.  A passkey sign-in of a subject with a passkey meets it exactly when the
    passkey used reaches the floor.  A repeated login is chosen for a local session that
    reached the floor: whatever it records either meets the requirement or misses the
    floor only, and then no further login is asked for.  Enrolment is offered to a
    subject without a factor, and what is enrolled is what is asked for next.  Failing
    means that no factor the subject holds would meet the requirement. *)
Definition outcome_ok (session : list AuthMethod) (factors : FactorState) (r : AuthnRequirement)
    (unmet lapsed : bool) (out : Remediation) : Prop :=
  let fed := session_is_federated session in
  match out with
  | SecondFactor => has_active_totp factors = true ∧
      ∀ new now, new = Totp ∨ new = RecoveryCode → meets (second_factor_event session new now) r
  | PasskeyReauth => has_passkey factors = true ∧
      ∀ ev level, passkey_ceremony ev level → (meets ev r ↔ attains level r)
  | FullReauth => unmet = false ∧ lapsed = true ∧ fed = false ∧
      ∀ ev, meets ev r ∨
        (evaluate_requirement r (achieved_acr (methods ev)) (Some (auth_time_unix_micros ev))
           (auth_time_unix_micros ev) default_acr_order = NeedsStepUp true false ∧
         ∃ next, decide_remediation 2 default_acr_order factors r true false
                   (session_is_federated (methods ev)) = Some next ∧ next ≠ FullReauth)
  | Enroll => has_active_totp factors = false ∧ has_passkey factors = false ∧
      totp_enabled factors || webauthn_enabled factors = true ∧
      decide_remediation 2 default_acr_order (holding_totp factors) r unmet lapsed fed = Some SecondFactor ∧
      decide_remediation 2 default_acr_order (holding_passkey factors) r unmet lapsed fed = Some PasskeyReauth
  | Fail =>
      (has_active_totp factors = true → ∀ new now, new = Totp ∨ new = RecoveryCode →
         ¬ meets (second_factor_event session new now) r) ∧
      (has_passkey factors = true → ∀ ev level, passkey_ceremony ev level → ¬ meets ev r)
  end.

Lemma meets_iff ev r : from_option (λ s, 0 ≤ s)%Z True (max_auth_age_secs r) →
  meets ev r ↔ attains (achieved_acr (methods ev)) r.
Proof.
  intros Hage. unfold meets, attains. rewrite evaluate_satisfied. split; [by intros [? _]|].
  by apply fresh_met.
Qed.

Lemma ceremony_level ev level : passkey_ceremony ev level → achieved_acr (methods ev) = level.
Proof. destruct 1 as [now []|now []|now [] []]; reflexivity. Qed.

Lemma ceremony_method ev level : passkey_ceremony ev level →
  ∃ m, m ≠ Federated ∧ achieved_acr (methods ev) = acr m.
Proof.
  intros Hev. rewrite (ceremony_level _ _ Hev).
  destruct Hev; [exists Passkey|exists PasskeyHardware|exists AttestedPasskey]; done.
Qed.

(** A fresh authentication misses the floor only. *)
Lemma fresh_step_up ev r : from_option (λ s, 0 ≤ s)%Z True (max_auth_age_secs r) → ¬ meets ev r →
  evaluate_requirement r (achieved_acr (methods ev)) (Some (auth_time_unix_micros ev))
    (auth_time_unix_micros ev) default_acr_order = NeedsStepUp true false.
Proof.
  intros Hage Hno. rewrite meets_iff in Hno by done. unfold evaluate_requirement, attains in *.
  assert (from_option (λ secs, age_lapsed secs (Some (auth_time_unix_micros ev)) (auth_time_unix_micros ev))
            false (max_auth_age_secs r) = false) as ->
    by (destruct (max_auth_age_secs r); [by apply age_now|done]).
  destruct (min_acr r) as [floor|]; [|done]. cbn [from_option] in *.
  by destruct (acr_satisfies _ _ _).
Qed.

(** The decision when the floor is missed, and when only the age lapsed. *)
Lemma decide_floor n factors r lapsed fed :
  decide_remediation (S n) default_acr_order factors r true lapsed fed = Some
    (if from_option (λ floor, negb (floor_is_achievable floor default_acr_order)) false (min_acr r) then Fail
     else if from_option (λ floor, acr_satisfies acr_for_mfa floor default_acr_order) true (min_acr r) then
       if has_active_totp factors then SecondFactor
       else if has_passkey factors then PasskeyReauth
       else if totp_enabled factors || webauthn_enabled factors then Enroll else Fail
     else if has_passkey factors then PasskeyReauth else Fail).
Proof. cbn [decide_remediation]. by repeat case_match. Qed.

Lemma decide_age factors r fed :
  decide_remediation 2 default_acr_order factors r false true fed =
  if from_option (λ floor, negb (floor_is_achievable floor default_acr_order)) false (min_acr r) then Some Fail
  else if fed then
    decide_remediation 1 default_acr_order factors (mkRequirement (Some acr_for_mfa) None) true true true
  else Some FullReauth.
Proof. cbn [decide_remediation]. by destruct fed. Qed.

(** Adding a second factor never lowers a floor that was met. *)
Lemma second_factor_keeps session ms new floor : new = Totp ∨ new = RecoveryCode → new ∈ ms →
  session ≠ [] → session ⊆ ms → floor_is_achievable floor default_acr_order = true →
  acr_satisfies (achieved_acr session) floor default_acr_order = true →
  acr_satisfies (achieved_acr ms) floor default_acr_order = true.
Proof.
  intros Hnew Hin Hne Hsub Hach Hsat.
  destruct (achieved_acr_last session Hne) as (m0 & Hm0 & Heq & _). rewrite Heq in Hsat.
  destruct (achieved_acr_last ms) as (m1 & _ & -> & Hmax); [by intros ->; apply elem_of_nil in Hin|].
  destruct (decide (m0 = Federated)) as [->|Hf].
  { exfalso. unfold acr_satisfies in Hsat. case_bool_decide as Hfl.
    - subst floor. by vm_compute in Hach.
    - by destruct (acr_rank floor default_acr_order); vm_compute in Hsat. }
  assert (m1 ≠ Federated) as Hm1.
  { intros ->. specialize (Hmax _ Hin). destruct Hnew as [-> | ->]; vm_compute in Hmax; lia. }
  apply (satisfies_trans _ (acr m0)).
  - eapply acr_satisfies_ranked_floor; [|exact Hsat]. by apply supported_ranked.
  - by apply supported_ranked.
  - apply method_rank_acr; [done..|]. apply Hmax, Hsub, Hm0.
  - done.
Qed.

Lemma second_factor_event_extends session new now :
  session ⊆ methods (second_factor_event session new now).
Proof.
  intros m Hm. pose proof (second_factor_event_method session new now) as Hn. revert Hn.
  unfold second_factor_event, from_methods. cbn [methods]. case_bool_decide as Hk.
  - assert (m ∈ keep_methods (push_fresh session new)) as Hin.
    { apply elem_of_keep_methods. unfold push_fresh. destruct (vec_contains _ _); set_solver. }
    rewrite Hk in Hin. by apply elem_of_nil in Hin.
  - intros _. apply elem_of_keep_methods. unfold push_fresh. destruct (vec_contains _ _); set_solver.
Qed.

Lemma second_factor_event_only session new now m :
  m ∈ methods (second_factor_event session new now) → m = new ∨ m ∈ session.
Proof.
  pose proof (second_factor_event_method session new now) as Hn. revert Hn.
  unfold second_factor_event, from_methods. cbn [methods]. case_bool_decide as Hk.
  - intros Hn%list_elem_of_singleton ->%list_elem_of_singleton. by left.
  - intros _ Hm. rewrite elem_of_keep_methods in Hm. unfold push_fresh in Hm. destruct (vec_contains new session) in Hm; [by right|].
    apply elem_of_app in Hm as [Hm| ->%list_elem_of_singleton]; [by right|by left].
Qed.

(** The strongest method of a completed second factor is a local one. *)
Lemma second_factor_strongest session new now : new = Totp ∨ new = RecoveryCode →
  ∃ m, m ≠ Federated ∧ (m = new ∨ m ∈ session) ∧
    achieved_acr (methods (second_factor_event session new now)) = acr m ∧
    method_rank new ≤ method_rank m.
Proof.
  intros Hnew. pose proof (second_factor_event_method session new now) as Hin.
  destruct (achieved_acr_last (methods (second_factor_event session new now))) as (m & Hm & Ha & Hmax);
    [by intros Hnil; rewrite Hnil in Hin; apply elem_of_nil in Hin|].
  exists m. split; [|split; [by eapply second_factor_event_only|split; [done|]]].
  - intros ->. specialize (Hmax _ Hin). destruct Hnew as [-> | ->]; vm_compute in Hmax; lia.
  - by apply Hmax.
Qed.

(** No local method reaches a floor that is not achievable. *)
Lemma unachievable_not_reached m floor : m ≠ Federated →
  floor_is_achievable floor default_acr_order = false →
  acr_satisfies (acr m) floor default_acr_order = false.
Proof.
  intros Hm Hach. apply not_true_iff_false. intros Hsat. unfold floor_is_achievable in Hach.
  apply not_true_iff_false in Hach. apply Hach. apply existsb_exists. exists (acr m).
  split; [|done]. apply list_elem_of_In.
  destruct m; try done; apply (bool_decide_unpack _); vm_compute; exact I.
Qed.

(** A second factor reaches no floor that neither the session nor the MFA level reaches. *)
Lemma second_factor_no_gain session new now floor : session ≠ [] → new = Totp ∨ new = RecoveryCode →
  acr_satisfies (achieved_acr session) floor default_acr_order = false →
  acr_satisfies acr_for_mfa floor default_acr_order = false →
  acr_satisfies (achieved_acr (methods (second_factor_event session new now))) floor default_acr_order = false.
Proof.
  intros Hne Hnew Hsess Hmfa.
  destruct (second_factor_strongest session new now Hnew) as (m & Hm & Hcase & -> & Hnewm).
  apply not_true_iff_false. intros Hsat.
  assert (acr new = acr_for_mfa) as Hacr by (by destruct Hnew as [-> | ->]).
  destruct Hcase as [->|Hin]; [congruence|].
  destruct (achieved_acr_last session Hne) as (m0 & Hm0 & Ha & Hmax0). rewrite Ha in Hsess.
  destruct (decide (m0 = Federated)) as [->|Hf].
  { specialize (Hmax0 _ Hin). destruct Hnew as [-> | ->]; vm_compute in Hmax0, Hnewm; lia. }
  assert (acr_satisfies (acr m0) floor default_acr_order = true); [|congruence].
  apply (satisfies_trans _ (acr m)).
  - eapply acr_satisfies_ranked_floor; [|exact Hsat]. by apply supported_ranked.
  - by apply supported_ranked.
  - by apply method_rank_acr; auto.
  - done.
Qed.

Lemma fail_unachievable session factors r unmet lapsed floor :
  from_option (λ s, 0 ≤ s)%Z True (max_auth_age_secs r) → min_acr r = Some floor →
  floor_is_achievable floor default_acr_order = false → outcome_ok session factors r unmet lapsed Fail.
Proof.
  intros Hage Hf Hach. split; intros _.
  - intros new now Hnew. rewrite meets_iff by done. unfold attains. rewrite Hf. cbn [from_option].
    destruct (second_factor_strongest session new now Hnew) as (m & Hm & _ & -> & _).
    by rewrite unachievable_not_reached.
  - intros ev level Hev. rewrite meets_iff by done. unfold attains. rewrite Hf. cbn [from_option].
    destruct (ceremony_method ev level Hev) as (m & Hm & ->). by rewrite unachievable_not_reached.
Qed.

(** The decision for a missed floor. *)
Lemma floor_outcome session factors r lapsed : session ≠ [] →
  from_option (λ s, 0 ≤ s)%Z True (max_auth_age_secs r) → ¬ attains (achieved_acr session) r →
  ∃ out, decide_remediation 2 default_acr_order factors r true lapsed (session_is_federated session) = Some out ∧
    outcome_ok session factors r true lapsed out.
Proof.
  intros Hne Hage Hmiss. rewrite decide_floor. eexists. split; [done|].
  unfold attains in Hmiss. destruct (min_acr r) as [floor|] eqn:Hf; [|done]. cbn [from_option] in *.
  apply not_true_iff_false in Hmiss.
  destruct (floor_is_achievable floor default_acr_order) eqn:Hach; cbn [negb];
    [|by eapply fail_unachievable].
  destruct (acr_satisfies acr_for_mfa floor default_acr_order) eqn:Hmfa.
  - destruct (has_active_totp factors) eqn:Ht; [split; [done|]|].
    { intros new now Hnew. rewrite meets_iff by done. unfold attains. rewrite Hf. cbn [from_option].
      eapply second_factor_reaches; [exact Hnew|apply second_factor_event_method|done]. }
    destruct (has_passkey factors) eqn:Hp; [split; [done|]|].
    { intros ev level Hev. by rewrite meets_iff, (ceremony_level _ _ Hev). }
    destruct (totp_enabled factors || webauthn_enabled factors) eqn:He.
    + unfold outcome_ok, holding_totp, holding_passkey. cbv zeta. rewrite !decide_floor, Hf.
      cbn [from_option has_active_totp has_passkey]. rewrite Hach, Hmfa, Ht, Hp, He. cbn [negb].
      split_and!; reflexivity.
    + split; intros; congruence.
  - destruct (has_passkey factors) eqn:Hp; [split; [done|]|].
    { intros ev level Hev. by rewrite meets_iff, (ceremony_level _ _ Hev). }
    split; [|intros; congruence]. intros _ new now Hnew. rewrite meets_iff by done. unfold attains.
    rewrite Hf. cbn [from_option]. by rewrite second_factor_no_gain.
Qed.

(** The decision for a lapsed age. *)
Lemma age_outcome session factors r : session ≠ [] →
  from_option (λ s, 0 ≤ s)%Z True (max_auth_age_secs r) → attains (achieved_acr session) r →
  ∃ out, decide_remediation 2 default_acr_order factors r false true (session_is_federated session) = Some out ∧
    outcome_ok session factors r false true out.
Proof.
  intros Hne Hage Hmet. rewrite decide_age.
  destruct (from_option _ false (min_acr r)) eqn:Hach.
  { eexists. split; [done|]. destruct (min_acr r) as [floor|] eqn:Hf; [|done]. cbn [from_option] in Hach.
    eapply fail_unachievable; [done..|]. by apply negb_true_iff. }
  destruct (session_is_federated session) eqn:Hfed.
  - rewrite decide_floor. eexists. split; [done|].
    change (from_option _ false (min_acr (mkRequirement (Some acr_for_mfa) None))) with false.
    change (from_option _ true (min_acr (mkRequirement (Some acr_for_mfa) None))) with true. cbv iota.
    destruct (has_active_totp factors) eqn:Ht; [split; [done|]|].
    { intros new now Hnew. rewrite meets_iff by done. unfold attains in *.
      destruct (min_acr r) as [floor|]; [|exact I]. cbn [from_option] in *.
      apply (second_factor_keeps session _ new); [exact Hnew|apply second_factor_event_method|exact Hne| |by apply negb_false_iff|exact Hmet].
      apply second_factor_event_extends. }
    destruct (has_passkey factors) eqn:Hp; [split; [done|]|].
    { intros ev level Hev. by rewrite meets_iff, (ceremony_level _ _ Hev). }
    destruct (totp_enabled factors || webauthn_enabled factors) eqn:He.
    + unfold outcome_ok, holding_totp, holding_passkey. cbv zeta. rewrite !decide_age, Hach, !decide_floor, Hfed.
      change (from_option _ false (min_acr (mkRequirement (Some acr_for_mfa) None))) with false.
      change (from_option _ true (min_acr (mkRequirement (Some acr_for_mfa) None))) with true.
      cbn [has_active_totp has_passkey]. rewrite Ht, Hp, He. split_and!; reflexivity.
    + split; intros; congruence.
  - eexists. split; [done|]. split_and!; [done..|]. intros ev.
    assert (Decision (meets ev r)) as [Hsat|Hno]; [|by left|right].
    { unfold meets. destruct (evaluate_requirement _ _ _ _ _); [by left|by right]. }
    split; [by apply fresh_step_up|]. rewrite decide_floor. eexists. split; [done|]. by repeat case_match.
Qed.

(** C23 (liveness): step-up does not go in circles.  For a requirement a session does not
    meet, under the default order, a remediation is always chosen, and it leads on: a
    second factor the subject holds meets the requirement once completed; a passkey
    sign-in meets it exactly when the passkey used reaches the floor; a repeated login
    meets it or misses the floor only, and is not asked for again; enrolment is offered
    only to a subject without a factor, and leads to the factor enrolled; and failing
    means that no factor the subject holds would meet the requirement. *)
Theorem remediation_meets_requirement session r t now factors unmet lapsed :
  session ≠ [] → from_option (λ s, 0 ≤ s)%Z True (max_auth_age_secs r) →
  evaluate_requirement r (achieved_acr session) t now default_acr_order = NeedsStepUp unmet lapsed →
  ∃ out, decide_remediation 2 default_acr_order factors r unmet lapsed
           (session_is_federated session) = Some out ∧
    outcome_ok session factors r unmet lapsed out.
Proof.
  intros Hne Hage Heval. pose proof (needs_step_up_flags _ _ _ _ _ _ _ Heval) as Hu.
  destruct unmet.
  - apply floor_outcome; [done..|]. unfold attains. destruct (min_acr r); [|done]. cbn [from_option] in *.
    by destruct (acr_satisfies _ _ _).
  - assert (lapsed = true) as ->.
    { unfold evaluate_requirement in Heval. destruct (_ || _) eqn:Hor; [|done].
      injection Heval as Ha Hl. rewrite Ha, Hl in Hor. done. }
    apply age_outcome; [done..|]. unfold attains. destruct (min_acr r); [|done]. cbn [from_option] in *.
    by destruct (acr_satisfies _ _ _).
Qed.

Lemma acr_ladder : acr_values_supported =
  [ACR_PWD; ACR_MFA_REMEMBERED; ACR_MFA; ACR_PHR; ACR_PHRH; ACR_ATTESTED].
Proof. vm_compute. reflexivity. Qed.

(** Each rung is ranked and its own canonical form. *)
Lemma ladder_canonical : Forall (λ c,
  bool_decide (ranked default_acr_order c) && bool_decide (canonical_step_up_acr c = c) = true)
  acr_values_supported.
Proof. rewrite acr_ladder. repeat (constructor; [vm_compute; reflexivity|]). constructor. Qed.

(** A value the write path accepts as a floor is ranked in its canonical form, and the
    canonical form is its own. *)
Lemma known_floor_ranked value : is_known_step_up_acr value = true →
  ranked default_acr_order (canonical_step_up_acr value) ∧
  canonical_step_up_acr (canonical_step_up_acr value) = canonical_step_up_acr value.
Proof.
  unfold is_known_step_up_acr. intros Hk.
  assert (canonical_step_up_acr value ∈ acr_values_supported) as Hin.
  { unfold canonical_step_up_acr. destruct (List.find _ _) as [c|] eqn:Hf.
    - apply find_some in Hf as [Hin _]. by apply list_elem_of_In.
    - apply existsb_exists in Hk as (c & Hin & Hc). pose proof (find_none _ _ Hf c Hin) as Hn. rewrite Hc in Hn.
      discriminate Hn. }
  pose proof ladder_canonical as Hl. rewrite list.Forall_forall in Hl.
  apply Hl, andb_true_iff in Hin as [Hr Hc]. apply bool_decide_eq_true in Hr, Hc.
  split; assumption.
Qed.

(** ** Concrete requests *)

(** Close a decidable goal by evaluation. *)
Ltac by_decision := apply (bool_decide_unpack _); vm_compute; exact I.

Module StepUpSamples.

Definition tenant_passkey : list CredentialClassPolicy :=
  [mkClassPolicy (lit "tenant") (lit "passkey"); mkClassPolicy (lit "org") (lit "attested_passkey")].

Definition payments : list ScopeStepUpPolicy :=
  [mkScopePolicy (lit "payments") (Some ACR_MFA) (Some 300%Z)].

Lemma requirement_all_sources_witness :
  let out := requirement_for_request default_acr_order (mkClientFloor (Some ACR_PWD) (Some 600%Z))
    (Some (lit "openid payments")) (Some (lit "phr unknown")) None (Ok payments) (Ok tenant_passkey) in
  evaluate_requirement (requirement out) ACR_PHRH (Some 0%Z) 1000000%Z default_acr_order = Satisfied.
Proof.
  apply (requirement_all_sources default_acr_order _ _ _ _ _ _ ACR_PHRH (Some 0%Z) 1000000%Z).
  - repeat split; by_decision.
  - repeat split; by_decision.
Defined.

Lemma achieved_acr_strongest_witness :
  acr_satisfies (achieved_acr [Password; Totp]) (acr_for_class ClassMfa) default_acr_order = true.
Proof.
  apply (achieved_acr_strongest (ev_password_and_totp 5%Z) (mkFacts true true)).
  - apply rec_totp.
  - by apply (bool_decide_unpack _).
Defined.

Lemma remediation_meets_requirement_witness :
  meets (second_factor_event [Password] Totp 9%Z) (mkRequirement (Some ACR_MFA) (Some 60%Z)).
Proof.
  destruct (remediation_meets_requirement [Password] (mkRequirement (Some ACR_MFA) (Some 60%Z))
    (Some 0%Z) 8%Z (mkFactors true false true true) true false) as (out & Hout & H).
  - discriminate.
  - simpl. lia.
  - reflexivity.
  - vm_compute in Hout. injection Hout as <-. apply H. by left.
Defined.

(** A stale session at the MFA level is sent to a full login; a password login then
    leaves the floor unmet, and the second factor is asked for next. *)
Lemma full_reauth_takes_two :
  let r := mkRequirement (Some ACR_MFA) (Some 60%Z) in
  let factors := mkFactors true false true true in
  evaluate_requirement r (achieved_acr [Password; Totp]) (Some 0%Z) 61000000%Z default_acr_order =
    NeedsStepUp false true ∧
  decide_remediation 2 default_acr_order factors r false true
    (session_is_federated [Password; Totp]) = Some FullReauth ∧
  evaluate_requirement r (achieved_acr (methods (ev_password 62000000%Z))) (Some 62000000%Z) 62000000%Z
    default_acr_order = NeedsStepUp true false ∧
  decide_remediation 2 default_acr_order factors r true false false = Some SecondFactor.
Proof. split_and!; vm_compute; reflexivity. Qed.

(** A client floor outside the order is dropped when the request lists a ranked value:
    the merged requirement is met by an authentication that does not meet the client
    floor. *)
Lemma unranked_floor_dropped :
  let client := mkClientFloor (Some (lit "urn:example:hsm")) None in
  let out := requirement_for_request default_acr_order client None
    (Some ACR_PWD) None (Ok []) (Ok []) in
  evaluate_requirement (requirement out) ACR_PWD (Some 0%Z) 1%Z default_acr_order = Satisfied ∧
  evaluate_requirement (client_requirement client) ACR_PWD (Some 0%Z) 1%Z default_acr_order =
    NeedsStepUp true false.
Proof. split; vm_compute; reflexivity. Qed.

(** A subject whose passkey is synced is sent to the passkey ceremony for a floor that
    asks for a hardware-bound one, and completing it leaves the same requirement unmet. *)
Lemma passkey_reauth_repeats :
  let r := mkRequirement (Some ACR_PHRH) None in
  let factors := mkFactors false true true true in
  decide_remediation 2 default_acr_order factors r true false false = Some PasskeyReauth ∧
  evaluate_requirement r (achieved_acr (methods (ev_passkey 9%Z true true))) (Some 9%Z) 9%Z
    default_acr_order = NeedsStepUp true false.
Proof. split; vm_compute; reflexivity. Qed.

End StepUpSamples.
