(* ===== verification/OrgPolicy.v ===== *)
(** * Organization authentication policies

    The policy document of crates/ironauth-store/src/org_policy.rs: its validation, the
    resolution of the documents of the four levels into one effective policy, and the
    aggregation of a subject's organizations in
    crates/ironauth-oidc/src/step_up.rs ([org_session_policy]), whose store reads are
    arguments.  The theorems: resolution is strictest-wins on every field, the verdict on
    satisfiability is right about the logins the registry of methods allows, validation
    accepts exactly the coherent documents, and a subject cannot escape one organization's
    policy by joining another. *)

From Stdlib Require Import Sorting.Sorted.
From S2P Require Import Prelude Text Authn.

Local Open Scope char_scope.

(** ** The document *)

Definition KNOWN_FACTOR_TOKENS : list text :=
  [lit "pwd"; lit "federated"; lit "email_otp"; lit "sms"; lit "trusted_device"; lit "totp";
   lit "recovery_code"; lit "passkey"; lit "passkey_uv"; lit "passkey_hw"; lit "passkey_hw_uv";
   lit "attested_passkey"; lit "attested_passkey_uv"; lit "attested_passkey_hw";
   lit "attested_passkey_hw_uv"].

Definition SECOND_FACTOR_TOKENS : list text :=
  [lit "totp"; lit "recovery_code"; lit "passkey_uv"; lit "passkey_hw_uv";
   lit "attested_passkey_uv"; lit "attested_passkey_hw_uv"].

Definition ORG_POLICY_MAX_SESSION_TTL_SECS : Z := 2592000.

Definition is_known_factor_token (token : text) : bool := vec_contains token KNOWN_FACTOR_TOKENS.
Definition is_second_factor_token (token : text) : bool := vec_contains token SECOND_FACTOR_TOKENS.

Record TemplateOverride : Type := mkTemplate {
  template_id : text;
  locked : bool
}.

(** A [BTreeSet<String>]. *)
Abbreviation tokens := (gset (list ascii)).

Record AuthPolicy : Type := mkAuthPolicy {
  mfa_required : option bool;
  allowed_factors : option tokens;
  allowed_email_domains : option tokens;
  jit_provisioning : option bool;
  invitations_enabled : option bool;
  session_ttl_secs : option Z;
  session_idle_ttl_secs : option Z;
  access_token_ttl_secs : option Z;
  template_override : option TemplateOverride
}.

Definition empty_policy : AuthPolicy := mkAuthPolicy None None None None None None None None None.

#[export] Instance TemplateOverride_eq_dec : EqDecision TemplateOverride.
Proof. solve_decision. Defined.
#[export] Instance AuthPolicy_eq_dec : EqDecision AuthPolicy.
Proof. solve_decision. Defined.

Definition policy_is_empty (p : AuthPolicy) : bool := bool_decide (p = empty_policy).

Record PolicyLevels : Type := mkLevels {
  tenant : option AuthPolicy;
  environment : option AuthPolicy;
  organization : option AuthPolicy;
  client : option AuthPolicy
}.

Definition slots (levels : PolicyLevels) : list (option AuthPolicy) :=
  [tenant levels; environment levels; organization levels; client levels].

(** ** Resolution *)

(** [AllowedFactors] and [AllowedDomains] have the same three cases. *)
Inductive Allowed : Type :=
| Unconstrained
| Restricted (permitted : tokens)
| Empty.

Inductive Satisfiability : Type :=
| Satisfiable | NoFactorPermitted | MfaRequiredWithNoSecondFactor_.

Record ResolvedAuthPolicy : Type := mkResolved {
  res_mfa_required : option bool;
  res_allowed_factors : Allowed;
  res_allowed_email_domains : Allowed;
  res_jit_provisioning : option bool;
  res_invitations_enabled : option bool;
  res_session_ttl_secs : option Z;
  res_template_override : option TemplateOverride;
  res_session_idle_ttl_secs : option Z;
  res_access_token_ttl_secs : option Z
}.

Definition fold_or (slot candidate : option bool) : option bool :=
  match candidate with Some value => Some (default false slot || value) | None => slot end.

Definition fold_and (slot candidate : option bool) : option bool :=
  match candidate with Some value => Some (default true slot && value) | None => slot end.

Definition fold_min (slot candidate : option Z) : option Z :=
  match candidate with
  | Some value => Some (from_option (λ current, Z.min current value) value slot)
  | None => slot
  end.

Definition fold_intersect (slot candidate : option tokens) : option tokens :=
  match candidate with
  | None => slot
  | Some values =>
      match slot with
      | None => Some values
      | Some current => Some (current ∩ values)
      end
  end.

Definition fold_template (acc next : option TemplateOverride) : option TemplateOverride :=
  if from_option locked false acc then acc
  else match next with Some next => Some next | None => acc end.

(** The accumulators of the loop, as the document they add up to. *)
Definition fold_level (acc : AuthPolicy) (slot : option AuthPolicy) : AuthPolicy :=
  match slot with
  | None => acc
  | Some level =>
      mkAuthPolicy
        (fold_or (mfa_required acc) (mfa_required level))
        (fold_intersect (allowed_factors acc) (allowed_factors level))
        (fold_intersect (allowed_email_domains acc) (allowed_email_domains level))
        (fold_and (jit_provisioning acc) (jit_provisioning level))
        (fold_and (invitations_enabled acc) (invitations_enabled level))
        (fold_min (session_ttl_secs acc) (session_ttl_secs level))
        (fold_min (session_idle_ttl_secs acc) (session_idle_ttl_secs level))
        (fold_min (access_token_ttl_secs acc) (access_token_ttl_secs level))
        (fold_template (template_override acc) (template_override level))
  end.

Definition to_allowed (set : option tokens) : Allowed :=
  match set with
  | None => Unconstrained
  | Some set => if bool_decide (set = ∅) then Empty else Restricted set
  end.

Definition resolve_slots (levels : list (option AuthPolicy)) : ResolvedAuthPolicy :=
  let acc := foldl fold_level empty_policy levels in
  mkResolved (mfa_required acc) (to_allowed (allowed_factors acc))
    (to_allowed (allowed_email_domains acc)) (jit_provisioning acc) (invitations_enabled acc)
    (session_ttl_secs acc) (template_override acc) (session_idle_ttl_secs acc)
    (access_token_ttl_secs acc).

Definition resolve_levels (levels : PolicyLevels) : ResolvedAuthPolicy := resolve_slots (slots levels).

(** ** The accessors *)

Definition get_mfa_required (r : ResolvedAuthPolicy) : bool := default false (res_mfa_required r).
Definition get_jit_provisioning (r : ResolvedAuthPolicy) : bool :=
  default false (res_jit_provisioning r).
Definition get_invitations_enabled (r : ResolvedAuthPolicy) : bool :=
  default true (res_invitations_enabled r).

(** Whether some token of a set passes a test. *)
Definition any_token (f : text → bool) (set : tokens) : bool := existsb f (elements set).

Definition satisfiability (r : ResolvedAuthPolicy) : Satisfiability :=
  match res_allowed_factors r with
  | Empty => NoFactorPermitted
  | Unconstrained => Satisfiable
  | Restricted permitted =>
      if get_mfa_required r && negb (any_token is_second_factor_token permitted)
      then MfaRequiredWithNoSecondFactor_ else Satisfiable
  end.

Definition effective_session_ttl_secs (r : ResolvedAuthPolicy) (deployment_secs : Z) : Z :=
  from_option (λ policy, Z.min policy deployment_secs) deployment_secs (res_session_ttl_secs r).

Definition effective_session_idle_ttl_secs (r : ResolvedAuthPolicy) (deployment_secs : Z) : Z :=
  from_option (λ policy, Z.min policy deployment_secs) deployment_secs (res_session_idle_ttl_secs r).

Definition resolved_session_pair_is_coherent (r : ResolvedAuthPolicy) : bool :=
  match res_session_ttl_secs r, res_session_idle_ttl_secs r with
  | Some absolute, Some idle => (idle <=? absolute)%Z
  | _, _ => true
  end.

(** ** Validation *)

Inductive AuthPolicyError : Type :=
| UnknownFactor | EmptyFactorList | EmptyDomainList | MfaRequiredWithNoSecondFactor
| IdleExceedsAbsolute | SessionTtlAboveCeiling | NonPositiveSessionLifetime
| InvalidEmailDomain | NonPositiveTokenLifetime.

#[export] Instance AuthPolicyError_eq_dec : EqDecision AuthPolicyError.
Proof. solve_decision. Defined.

(** The derived [Ord]. *)
Definition error_rank (e : AuthPolicyError) : nat :=
  match e with
  | UnknownFactor => 0 | EmptyFactorList => 1 | EmptyDomainList => 2
  | MfaRequiredWithNoSecondFactor => 3 | IdleExceedsAbsolute => 4 | SessionTtlAboveCeiling => 5
  | NonPositiveSessionLifetime => 6 | InvalidEmailDomain => 7 | NonPositiveTokenLifetime => 8
  end.

(** [str::contains] with [char::is_whitespace]. *)
Fixpoint contains_whitespace (s : text) : bool :=
  match s with
  | [] => false
  | _ :: rest => bool_decide (is_Some (whitespace_front s)) || contains_whitespace rest
  end.

Definition DOMAIN_DELIMITERS : list ascii := ["/"; ":"; "@"; "?"; "#"; "\"; "%"].

Definition label_is_valid (label : text) : bool :=
  negb (bool_decide (label = [])) && (length label <=? 63)%nat
  && negb (bool_decide (head label = Some "-")) && negb (bool_decide (last label = Some "-"))
  && forallb (λ c, is_ascii_alphanumeric c || is_char "-" c) label.

Definition domain_is_registrable (domain : text) : bool :=
  if bool_decide (domain = []) || (253 <? length domain)%nat || contains_whitespace domain
     || existsb (λ c, vec_contains c DOMAIN_DELIMITERS) domain
  then false
  else
    let labels := split_char "." domain in
    if (length labels <? 2)%nat then false
    else if negb (forallb label_is_valid labels) then false
    else if (length labels =? 4)%nat && forallb (forallb is_digit) labels then false
    else from_option (forallb is_ascii_alphabetic) false (last labels).

Definition report_if (cond : bool) (e : AuthPolicyError) : list AuthPolicyError :=
  if cond then [e] else [].

(** The errors in the order the checks push them: the factor list, the domain list, the
    lifetimes. *)
Definition factor_errors (p : AuthPolicy) : list AuthPolicyError :=
  match allowed_factors p with
  | None => []
  | Some factors =>
      report_if (bool_decide (factors = ∅)) EmptyFactorList ++
      report_if (any_token (λ token, negb (is_known_factor_token token)) factors) UnknownFactor ++
      report_if (bool_decide (mfa_required p = Some true) && negb (bool_decide (factors = ∅))
               && negb (any_token is_second_factor_token factors)) MfaRequiredWithNoSecondFactor
  end.

Definition domain_errors (p : AuthPolicy) : list AuthPolicyError :=
  match allowed_email_domains p with
  | None => []
  | Some domains =>
      report_if (bool_decide (domains = ∅)) EmptyDomainList ++
      report_if (any_token (λ domain, negb (domain_is_registrable domain)) domains) InvalidEmailDomain
  end.

Definition lifetime_errors (p : AuthPolicy) (session_ttl_ceiling_secs : Z) : list AuthPolicyError :=
  report_if (from_option (λ ttl, session_ttl_ceiling_secs <? ttl)%Z false (session_ttl_secs p) ||
           from_option (λ idle, session_ttl_ceiling_secs <? idle)%Z false (session_idle_ttl_secs p))
    SessionTtlAboveCeiling ++
  report_if (bool_decide (session_ttl_secs p = Some 0%Z) ||
           bool_decide (session_idle_ttl_secs p = Some 0%Z)) NonPositiveSessionLifetime ++
  report_if (bool_decide (access_token_ttl_secs p = Some 0%Z)) NonPositiveTokenLifetime ++
  (match session_ttl_secs p, session_idle_ttl_secs p with
   | Some absolute, Some idle => report_if (absolute <? idle)%Z IdleExceedsAbsolute
   | _, _ => []
   end).

Definition collect_errors (p : AuthPolicy) (session_ttl_ceiling_secs : Z) : list AuthPolicyError :=
  factor_errors p ++ domain_errors p ++ lifetime_errors p session_ttl_ceiling_secs.

(** [sort_unstable] by the derived order: insertion sort. *)
Fixpoint insert_error (e : AuthPolicyError) (l : list AuthPolicyError) : list AuthPolicyError :=
  match l with
  | [] => [e]
  | x :: rest => if (error_rank e <=? error_rank x)%nat then e :: l else x :: insert_error e rest
  end.

Definition sort_errors (l : list AuthPolicyError) : list AuthPolicyError := foldr insert_error [] l.

(** [Vec::dedup]: drop an element equal to the one before it. *)
Fixpoint dedup_errors (l : list AuthPolicyError) : list AuthPolicyError :=
  match l with
  | [] => []
  | x :: rest =>
      match rest with
      | [] => [x]
      | y :: _ => if bool_decide (x = y) then dedup_errors rest else x :: dedup_errors rest
      end
  end.

Definition validate_policy (p : AuthPolicy) (session_ttl_ceiling_secs : Z)
    : Result unit (list AuthPolicyError) :=
  match collect_errors p session_ttl_ceiling_secs with
  | [] => Ok tt
  | errors => Err (dedup_errors (sort_errors errors))
  end.

(** ** Audit detail *)

Definition detail_flag (value : option bool) : string :=
  match value with None => "inherit" | Some true => "true" | Some false => "false" end.

Definition detail_list (value : option tokens) (present : string) : string :=
  match value with Some _ => present | None => "inherit" end.

Definition detail_secs (value : option Z) : string :=
  match value with None => "inherit" | Some seconds => pretty seconds end.

Definition audit_detail (p : AuthPolicy) : string :=
  "mfa_required=" +:+ detail_flag (mfa_required p) +:+
  " factors=" +:+ detail_list (allowed_factors p) "restricted" +:+
  " domains=" +:+ detail_list (allowed_email_domains p) "set" +:+
  " jit=" +:+ detail_flag (jit_provisioning p) +:+
  " invitations=" +:+ detail_flag (invitations_enabled p) +:+
  " session_ttl=" +:+ detail_secs (session_ttl_secs p) +:+
  " session_idle=" +:+ detail_secs (session_idle_ttl_secs p) +:+
  " token_ttl=" +:+ detail_secs (access_token_ttl_secs p).

(** ** A subject's organizations *)

Record OrgSessionPolicy : Type := mkOrgSession {
  org_mfa_required : bool;
  org_session_ttl_secs : option Z;
  org_session_idle_ttl_secs : option Z
}.

Definition shortest (current candidate : option Z) : option Z :=
  match current, candidate with
  | Some a, Some b => Some (Z.min a b)
  | Some only, None | None, Some only => Some only
  | None, None => None
  end.

(** The loop over the memberships; each read of a document may fail. *)
Fixpoint org_policy_loop (aggregate : OrgSessionPolicy)
    (documents : list (Result (option AuthPolicy) unit)) : Result OrgSessionPolicy unit :=
  match documents with
  | [] => Ok aggregate
  | read :: rest =>
      let? document := read in
      match document with
      | None => org_policy_loop aggregate rest
      | Some document =>
          let resolved := resolve_levels (mkLevels None None (Some document) None) in
          org_policy_loop
            (mkOrgSession
               (org_mfa_required aggregate || get_mfa_required resolved)
               (shortest (org_session_ttl_secs aggregate) (res_session_ttl_secs resolved))
               (shortest (org_session_idle_ttl_secs aggregate) (res_session_idle_ttl_secs resolved)))
            rest
      end
  end.

Definition org_session_policy {M : Type} (memberships : Result (list M) unit)
    (document_for_org : M → Result (option AuthPolicy) unit) : Result OrgSessionPolicy unit :=
  let? memberships := memberships in
  org_policy_loop (mkOrgSession false None None) (document_for_org <$> memberships).

Definition org_baseline_mfa_required {M : Type} (memberships : Result (list M) unit)
    (document_for_org : M → Result (option AuthPolicy) unit) : Result bool unit :=
  let? policy := org_session_policy memberships document_for_org in Ok (org_mfa_required policy).

(** ** Folding the levels *)

(** What the levels state for a field, in their order. *)
Definition stated {A} (proj : AuthPolicy → option A) (levels : list (option AuthPolicy)) : list A :=
  omap (λ slot, slot ≫= proj) levels.

(** A field of the loop is the fold of its operator over what the levels state. *)
Lemma fold_field {A} (proj : AuthPolicy → option A) (op : option A → option A → option A) :
  (∀ acc level, proj (fold_level acc (Some level)) = op (proj acc) (proj level)) →
  (∀ x, op x None = x) → ∀ levels acc,
  proj (foldl fold_level acc levels) = foldl (λ a x, op a (Some x)) (proj acc) (stated proj levels).
Proof.
  intros Hop Hnone. induction levels as [|slot levels IH]; intros acc; [done|]. simpl. rewrite IH.
  change (stated proj (slot :: levels)) with
    (match slot ≫= proj with Some x => x :: stated proj levels | None => stated proj levels end).
  destruct slot as [level|]; [|done]. rewrite Hop. simpl.
  destruct (proj level); simpl; [done|]. by rewrite Hnone.
Qed.

Lemma fold_or_spec l : ∀ slot,
  default false (foldl (λ a x, fold_or a (Some x)) slot l) = true ↔ default false slot = true ∨ true ∈ l.
Proof.
  induction l as [|b l IH]; intros slot; [set_solver|]. cbn [foldl]. rewrite IH, elem_of_cons.
  destruct slot as [[]|], b; simpl; naive_solver.
Qed.

Lemma fold_and_spec l : ∀ slot b, foldl (λ a x, fold_and a (Some x)) slot l = Some b ↔
  if b then (slot = Some true ∨ true ∈ l) ∧ slot ≠ Some false ∧ (false ∉ l)
  else slot = Some false ∨ false ∈ l.
Proof.
  induction l as [|x l IH]; intros slot b; simpl; [destruct b; set_solver|].
  rewrite IH. destruct slot as [[]|], x, b; simpl; set_solver.
Qed.

(** The least of a list. *)
Definition least (v : Z) (l : list Z) : Prop := v ∈ l ∧ ∀ w, w ∈ l → (v ≤ w)%Z.

Lemma fold_min_spec l : ∀ slot v, foldl (λ a x, fold_min a (Some x)) slot l = Some v ↔
  least v (option_list slot ++ l).
Proof.
  unfold least. induction l as [|x l IH]; intros slot v; cbn [foldl].
  { destruct slot as [s|]; simpl; set_solver by lia. }
  rewrite IH. destruct slot as [s|]; simpl; [|done]. rewrite !elem_of_cons.
  repeat setoid_rewrite elem_of_cons. split.
  - intros [Hv Hmin]. split.
    + destruct Hv as [->|Hv]; [destruct (Z.min_spec s x) as [[_ ->]|[_ ->]]; auto|auto].
    + assert (v ≤ Z.min s x)%Z by auto. intros w [->|[->|Hw]]; [lia|lia|auto].
  - intros [Hv Hmin]. split.
    + assert (v ≤ s)%Z by auto. assert (v ≤ x)%Z by auto.
      destruct Hv as [->|[->|Hv]]; [left; lia|left; lia|by right].
    + intros w [->|Hw]; [|auto]. destruct (Z.min_spec s x) as [[_ ->]|[_ ->]]; auto.
Qed.

Lemma fold_intersect_spec l : ∀ slot,
  match foldl (λ a x, fold_intersect a (Some x)) slot l with
  | None => slot = None ∧ l = []
  | Some out => ∀ token, token ∈ out ↔ ∀ set, set ∈ option_list slot ++ l → token ∈ set
  end.
Proof.
  induction l as [|x l IH]; intros slot; cbn [foldl].
  { destruct slot as [s|]; simpl; [|done]. set_solver. }
  specialize (IH (fold_intersect slot (Some x))). simpl in IH.
  destruct (foldl _ _ l) as [out|]; [|by destruct IH as [? _]; destruct slot].
  intros token. rewrite IH. destruct slot as [s|]; simpl; [|done].
  repeat setoid_rewrite elem_of_cons. split.
  - intros H. assert (token ∈ s ∩ x) as [? ?]%elem_of_intersection by auto. naive_solver.
  - intros H set [->|Hset]; [|auto]. apply elem_of_intersection. split; auto.
Qed.

(** The first template that is locked, or the last one stated. *)
Definition chosen_template (l : list TemplateOverride) : option TemplateOverride :=
  match List.find locked l with Some t => Some t | None => last l end.

Lemma fold_template_spec l : ∀ slot,
  foldl (λ a x, fold_template a (Some x)) slot l = chosen_template (option_list slot ++ l).
Proof.
  induction l as [|t l IH]; intros slot; cbn [foldl].
  { unfold chosen_template. destruct slot as [s|]; simpl; [by destruct (locked s)|done]. }
  rewrite IH. unfold fold_template, chosen_template. destruct slot as [s|]; simpl; [|done].
  destruct (locked s) eqn:Hs; simpl; [by rewrite Hs|].
  destruct (locked t); [done|]. destruct (List.find locked l); [done|]. by destruct l.
Qed.

(** ** Strictest wins *)

(** Whether a resolved set permits a token. *)
Definition permits_token (allowed : Allowed) (token : text) : Prop :=
  match allowed with
  | Unconstrained => True
  | Restricted permitted => token ∈ permitted
  | Empty => False
  end.

Lemma to_allowed_permits l token :
  permits_token (to_allowed (foldl (λ a x, fold_intersect a (Some x)) None l)) token ↔
  ∀ set, set ∈ l → token ∈ set.
Proof.
  pose proof (fold_intersect_spec l None) as Hs. unfold to_allowed.
  destruct (foldl _ None l) as [out|]; simpl in *.
  - case_bool_decide as He; simpl; rewrite <-Hs; [|done]. subst out. set_solver.
  - destruct Hs as [_ ->]. set_solver.
Qed.

Lemma resolved_fields levels :
  let acc := foldl fold_level empty_policy levels in
  mfa_required acc = foldl (λ a x, fold_or a (Some x)) None (stated mfa_required levels) ∧
  allowed_factors acc = foldl (λ a x, fold_intersect a (Some x)) None (stated allowed_factors levels) ∧
  allowed_email_domains acc =
    foldl (λ a x, fold_intersect a (Some x)) None (stated allowed_email_domains levels) ∧
  jit_provisioning acc = foldl (λ a x, fold_and a (Some x)) None (stated jit_provisioning levels) ∧
  invitations_enabled acc = foldl (λ a x, fold_and a (Some x)) None (stated invitations_enabled levels) ∧
  session_ttl_secs acc = foldl (λ a x, fold_min a (Some x)) None (stated session_ttl_secs levels) ∧
  session_idle_ttl_secs acc =
    foldl (λ a x, fold_min a (Some x)) None (stated session_idle_ttl_secs levels) ∧
  access_token_ttl_secs acc =
    foldl (λ a x, fold_min a (Some x)) None (stated access_token_ttl_secs levels) ∧
  template_override acc =
    foldl (λ a x, fold_template a (Some x)) None (stated template_override levels).
Proof.
  repeat split;
    match goal with |- ?proj (foldl _ _ _) = _ => apply (fold_field proj) end; try done;
    intros x; try done. unfold fold_template. by destruct (from_option locked false x).
Qed.

Lemma default_true_iff (o : option bool) : default false o = true ↔ o = Some true.
Proof. destruct o as [[]|]; naive_solver. Qed.

Lemma default_false_iff (o : option bool) : default true o = false ↔ o = Some false.
Proof. destruct o as [[]|]; naive_solver. Qed.

(** [r] is the strictest reading of what [said] gives for each field. *)
Definition strictest (r : ResolvedAuthPolicy)
    (said : ∀ A, (AuthPolicy → option A) → list A) : Prop :=
  (get_mfa_required r = true ↔ true ∈ said _ mfa_required) ∧
  (∀ token, permits_token (res_allowed_factors r) token ↔
     ∀ set, set ∈ said _ allowed_factors → token ∈ set) ∧
  (∀ domain, permits_token (res_allowed_email_domains r) domain ↔
     ∀ set, set ∈ said _ allowed_email_domains → domain ∈ set) ∧
  (get_jit_provisioning r = true ↔ true ∈ said _ jit_provisioning ∧ (false ∉ said _ jit_provisioning)) ∧
  (get_invitations_enabled r = false ↔ false ∈ said _ invitations_enabled) ∧
  (∀ v, res_session_ttl_secs r = Some v ↔ least v (said _ session_ttl_secs)) ∧
  (∀ v, res_session_idle_ttl_secs r = Some v ↔ least v (said _ session_idle_ttl_secs)) ∧
  (∀ v, res_access_token_ttl_secs r = Some v ↔ least v (said _ access_token_ttl_secs)) ∧
  res_template_override r = chosen_template (said _ template_override).

Lemma resolve_slots_strictest levels : strictest (resolve_slots levels) (λ A proj, stated proj levels).
Proof.
  unfold strictest, resolve_slots, get_mfa_required, get_jit_provisioning, get_invitations_enabled.
  cbn [res_mfa_required res_allowed_factors res_allowed_email_domains res_jit_provisioning
    res_invitations_enabled res_session_ttl_secs res_session_idle_ttl_secs
    res_access_token_ttl_secs res_template_override].
  destruct (resolved_fields levels) as (-> & -> & -> & -> & -> & -> & -> & -> & ->).
  split; [rewrite fold_or_spec; simpl; naive_solver|].
  split; [intros; apply to_allowed_permits|]. split; [intros; apply to_allowed_permits|].
  split. { rewrite default_true_iff, fold_and_spec. naive_solver. }
  split. { rewrite default_false_iff, fold_and_spec. naive_solver. }
  repeat (split; [intros; apply fold_min_spec|]). apply fold_template_spec.
Qed.

(** Resolution is strictest-wins, field by field: a second factor is
    required exactly when some level requires it, a factor or domain is permitted exactly
    when every level that states a list lists it, provisioning is on exactly when some
    level turns it on and none off, invitations are off exactly when some level turns them
    off, each lifetime is the least one stated, and the template is the outermost locked
    one or else the innermost one stated. *)
Theorem resolution_strictest_wins (levels : PolicyLevels) :
  strictest (resolve_levels levels) (λ A proj, stated proj (slots levels)).
Proof. apply resolve_slots_strictest. Qed.

(** The levels in another order. *)
Lemma foldl_permutation {A B} (op : A → B → A) (l l' : list B) :
  (∀ a x y, op (op a x) y = op (op a y) x) → l ≡ₚ l' → ∀ a, foldl op a l = foldl op a l'.
Proof.
  intros Hop. induction 1 as [|x l l' _ IH|x y l|l l' l'' _ IH1 _ IH2]; intros a; simpl; [done|auto| |].
  - by rewrite Hop.
  - by rewrite IH1.
Qed.

(** Everything but the template. *)
Definition without_template (p : AuthPolicy) : AuthPolicy :=
  mkAuthPolicy (mfa_required p) (allowed_factors p) (allowed_email_domains p) (jit_provisioning p)
    (invitations_enabled p) (session_ttl_secs p) (session_idle_ttl_secs p) (access_token_ttl_secs p)
    None.

Definition resolved_without_template (r : ResolvedAuthPolicy) : ResolvedAuthPolicy :=
  mkResolved (res_mfa_required r) (res_allowed_factors r) (res_allowed_email_domains r)
    (res_jit_provisioning r) (res_invitations_enabled r) (res_session_ttl_secs r) None
    (res_session_idle_ttl_secs r) (res_access_token_ttl_secs r).

Lemma fold_or_comm a x y : fold_or (fold_or a x) y = fold_or (fold_or a y) x.
Proof. destruct x as [[]|], y as [[]|], a as [[]|]; done. Qed.

Lemma fold_and_comm a x y : fold_and (fold_and a x) y = fold_and (fold_and a y) x.
Proof. destruct x as [[]|], y as [[]|], a as [[]|]; done. Qed.

Lemma fold_min_comm a x y : fold_min (fold_min a x) y = fold_min (fold_min a y) x.
Proof. destruct x, y, a; simpl; f_equal; lia. Qed.

Lemma fold_intersect_comm a x y : fold_intersect (fold_intersect a x) y = fold_intersect (fold_intersect a y) x.
Proof. destruct x, y, a; simpl; f_equal; set_solver. Qed.

Lemma fold_field_permutation {A} (proj : AuthPolicy → option A) op levels levels' acc :
  (∀ acc level, proj (fold_level acc (Some level)) = op (proj acc) (proj level)) →
  (∀ x, op x None = x) → (∀ a x y, op (op a x) y = op (op a y) x) → levels ≡ₚ levels' →
  proj (foldl fold_level acc levels) = proj (foldl fold_level acc levels').
Proof.
  intros Hop Hnone Hcomm Hp. rewrite !(fold_field proj op) by done.
  apply foldl_permutation; [naive_solver|]. unfold stated. by rewrite Hp.
Qed.

(** Every field but the template is independent of the order of the levels. *)
Lemma resolve_slots_permutation levels levels' : levels ≡ₚ levels' →
  resolved_without_template (resolve_slots levels) = resolved_without_template (resolve_slots levels').
Proof.
  intros Hp. unfold resolved_without_template, resolve_slots.
  cbn [res_mfa_required res_allowed_factors res_allowed_email_domains res_jit_provisioning
    res_invitations_enabled res_session_ttl_secs res_session_idle_ttl_secs res_access_token_ttl_secs].
  f_equal; [|f_equal|f_equal|..];
    first [ by eapply (fold_field_permutation _ fold_or); [| |apply fold_or_comm|]
          | by eapply (fold_field_permutation _ fold_and); [| |apply fold_and_comm|]
          | by eapply (fold_field_permutation _ fold_min); [| |apply fold_min_comm|]
          | by eapply (fold_field_permutation _ fold_intersect); [| |apply fold_intersect_comm|] ].
Qed.

(** At least as strict on a lifetime. *)
Definition no_longer (narrow wide : option Z) : Prop :=
  ∀ w, wide = Some w → ∃ n, narrow = Some n ∧ (n ≤ w)%Z.

(** At least as strict on every field but provisioning and the template. *)
Definition narrower (narrow wide : ResolvedAuthPolicy) : Prop :=
  (get_mfa_required wide = true → get_mfa_required narrow = true) ∧
  (∀ token, permits_token (res_allowed_factors narrow) token →
     permits_token (res_allowed_factors wide) token) ∧
  (∀ domain, permits_token (res_allowed_email_domains narrow) domain →
     permits_token (res_allowed_email_domains wide) domain) ∧
  (get_invitations_enabled narrow = true → get_invitations_enabled wide = true) ∧
  no_longer (res_session_ttl_secs narrow) (res_session_ttl_secs wide) ∧
  no_longer (res_session_idle_ttl_secs narrow) (res_session_idle_ttl_secs wide) ∧
  no_longer (res_access_token_ttl_secs narrow) (res_access_token_ttl_secs wide).

Lemma least_exists l w : w ∈ l → ∃ n, least n l ∧ (n ≤ w)%Z.
Proof.
  intros Hw. destruct (foldl (λ a x, fold_min a (Some x)) None l) as [n|] eqn:Hf.
  - apply fold_min_spec in Hf. exists n. split; [done|]. by apply Hf.
  - exfalso. destruct l as [|x l]; [by apply elem_of_nil in Hw|]. revert Hf. clear.
    cbn [foldl fold_min from_option]. generalize x. induction l as [|y l IH]; intros z; [done|]. apply IH.
Qed.

Lemma no_longer_subset (narrow wide : option Z) l l' :
  (∀ v, narrow = Some v ↔ least v l) → (∀ v, wide = Some v ↔ least v l') → l' ⊆ l →
  no_longer narrow wide.
Proof.
  intros Hn Hw Hsub w [Hin _]%Hw. destruct (least_exists l w) as (n & Hl & Hle); [by apply Hsub|].
  exists n. split; [by apply Hn|done].
Qed.

Lemma stated_subset {A} (proj : AuthPolicy → option A) levels levels' :
  levels' ⊆ levels → stated proj levels' ⊆ stated proj levels.
Proof.
  intros Hsub x. unfold stated. rewrite !list_elem_of_omap. naive_solver.
Qed.

Lemma resolve_slots_narrower levels levels' : levels' ⊆ levels →
  narrower (resolve_slots levels) (resolve_slots levels').
Proof.
  intros Hsub.
  destruct (resolve_slots_strictest levels) as (M & F & D & _ & I & T & Ti & Ta & _).
  destruct (resolve_slots_strictest levels') as (M' & F' & D' & _ & I' & T' & Ti' & Ta' & _).
  pose proof (λ A proj, @stated_subset A proj levels levels' Hsub) as Hs.
  split; [rewrite M, M'; apply Hs|]. split; [intros t; rewrite F, F'; intros H set Hin; by apply H, Hs|].
  split; [intros d; rewrite D, D'; intros H set Hin; by apply H, Hs|].
  split. { rewrite <-!not_false_iff_true, I, I'. intros H Hin. by apply H, Hs. }
  repeat split; eapply no_longer_subset; eauto.
Qed.

(** A level can only narrow.  Resolving more levels, in any position, never
    drops a required second factor, never permits a factor or domain that was not
    permitted, never re-enables invitations and never lengthens a lifetime; every field but
    the template is the same whatever the order of the levels; and the session lifetimes
    applied never exceed those of the deployment. *)
Theorem levels_only_narrow levels levels' deployment : levels' ⊆ levels →
  narrower (resolve_slots levels) (resolve_slots levels') ∧
  (∀ shuffled, shuffled ≡ₚ levels →
     resolved_without_template (resolve_slots shuffled) =
     resolved_without_template (resolve_slots levels)) ∧
  (effective_session_ttl_secs (resolve_slots levels) deployment ≤
     effective_session_ttl_secs (resolve_slots levels') deployment ≤ deployment)%Z ∧
  (effective_session_idle_ttl_secs (resolve_slots levels) deployment ≤
     effective_session_idle_ttl_secs (resolve_slots levels') deployment ≤ deployment)%Z.
Proof.
  intros Hsub. pose proof (resolve_slots_narrower levels levels' Hsub) as Hn.
  split; [done|]. split; [intros; by apply resolve_slots_permutation|].
  destruct Hn as (_ & _ & _ & _ & Ht & Hi & _). unfold effective_session_ttl_secs,
    effective_session_idle_ttl_secs, no_longer in *.
  split; [destruct (res_session_ttl_secs (resolve_slots levels')) as [w|];
          [destruct (Ht w eq_refl) as (n & -> & ?)|destruct (res_session_ttl_secs _)]
         |destruct (res_session_idle_ttl_secs (resolve_slots levels')) as [w|];
          [destruct (Hi w eq_refl) as (n & -> & ?)|destruct (res_session_idle_ttl_secs _)]];
    simpl; lia.
Qed.

(** ** Satisfiability *)

Lemma elem_of_amr_values token ms : token ∈ amr_values ms ↔ ∃ m, m ∈ ms ∧ token ∈ amr m.
Proof.
  assert (∀ l out, token ∈ foldl push_fresh out l ↔ token ∈ out ∨ token ∈ l) as Hin.
  { induction l as [|x l IH]; intros out; simpl; [set_solver|]. rewrite IH. unfold push_fresh.
    destruct (vec_contains x out) eqn:Hc; [apply vec_contains_spec in Hc|]; set_solver. }
  unfold amr_values. assert (∀ out, token ∈ foldl (λ out m, foldl push_fresh out (amr m)) out ms ↔
    token ∈ out ∨ ∃ m, m ∈ ms ∧ token ∈ amr m) as Hgo; [|rewrite Hgo; set_solver].
  induction ms as [|m ms IH]; intros out; simpl; [set_solver|]. rewrite IH, Hin.
  setoid_rewrite elem_of_cons. naive_solver.
Qed.

Lemma performed_second_factor_spec ms :
  performed_second_factor ms = true ↔ ∃ m, m ∈ ms ∧ performed_second_factor [m] = true.
Proof.
  unfold performed_second_factor. setoid_rewrite vec_contains_spec.
  setoid_rewrite elem_of_amr_values. set_solver.
Qed.

(** The token vocabularies are those of the registry of methods. *)
Lemma second_factor_token_method m : is_second_factor_token (as_token m) = performed_second_factor [m].
Proof. destruct m; vm_compute; reflexivity. Qed.

Lemma known_token_method token : is_known_factor_token token = true → ∃ m, as_token m = token.
Proof.
  intros Hk%vec_contains_spec. assert (KNOWN_FACTOR_TOKENS = as_token <$> ALL_METHODS) as He
    by reflexivity. rewrite He in Hk. apply list_elem_of_fmap in Hk as (m & -> & _). by exists m.
Qed.

Lemma any_token_spec f set : any_token f set = true ↔ ∃ token, token ∈ set ∧ f token = true.
Proof.
  unfold any_token. rewrite existsb_exists. setoid_rewrite <-list_elem_of_In.
  setoid_rewrite elem_of_elements. done.
Qed.

(** A login the resolved policy lets through: methods that are all permitted, with a
    genuine second factor where one is required. *)
Definition login_permitted (r : ResolvedAuthPolicy) (ms : list AuthMethod) : Prop :=
  ms ≠ [] ∧ (∀ m, m ∈ ms → permits_token (res_allowed_factors r) (as_token m)) ∧
  (get_mfa_required r = true → performed_second_factor ms = true).

(** Resolution never leaves an empty restriction, and restricts to known tokens when every
    list it read is of known tokens. *)
Lemma restricted_nonempty levels permitted :
  res_allowed_factors (resolve_slots levels) = Restricted permitted → permitted ≠ ∅.
Proof.
  unfold resolve_slots. cbn [res_allowed_factors]. unfold to_allowed.
  destruct (allowed_factors _); [|done]. case_bool_decide; [done|]. by intros [= <-].
Qed.

Lemma restricted_known levels permitted :
  (∀ set, set ∈ stated allowed_factors levels → ∀ token, token ∈ set → is_known_factor_token token = true) →
  res_allowed_factors (resolve_slots levels) = Restricted permitted →
  ∀ token, token ∈ permitted → is_known_factor_token token = true.
Proof.
  intros Hk Hr token Ht. destruct (resolve_slots_strictest levels) as (_ & F & _).
  destruct (stated allowed_factors levels) as [|set l] eqn:Hs.
  - exfalso. revert Hr. unfold resolve_slots. cbn [res_allowed_factors].
    destruct (resolved_fields levels) as (_ & -> & _). by rewrite Hs.
  - specialize (F token). rewrite Hr in F. apply (Hk set); [by left|]. apply F; [done|by left].
Qed.

Lemma satisfiability_login levels :
  (∀ set, set ∈ stated allowed_factors levels → ∀ token, token ∈ set → is_known_factor_token token = true) →
  satisfiability (resolve_slots levels) = Satisfiable ↔ ∃ ms, login_permitted (resolve_slots levels) ms.
Proof.
  intros Hk. pose proof (restricted_nonempty levels) as Hne. pose proof (restricted_known levels) as Hkn.
  set (r := resolve_slots levels) in *. unfold satisfiability, login_permitted.
  destruct (res_allowed_factors r) as [|permitted|] eqn:Hf.
  - split; [|done]. intros _. exists [Totp]. split; [done|]. by split; [|vm_compute].
  - specialize (Hne _ eq_refl). specialize (Hkn _ Hk eq_refl).
    assert (∀ token, token ∈ permitted → ∃ m, as_token m = token) as Hm
      by (intros; by apply known_token_method, Hkn).
    destruct (get_mfa_required r) eqn:Hmfa; simpl.
    + destruct (any_token is_second_factor_token permitted) eqn:Ha; simpl; (split; [|try done]).
      * intros _. apply any_token_spec in Ha as (token & Hin & Hs).
        destruct (Hm token Hin) as [m <-]. exists [m]. split; [done|].
        split; [by intros ? ->%list_elem_of_singleton|]. by rewrite <-second_factor_token_method.
      * done.
      * intros (ms & _ & Hp & Hs). exfalso. apply not_true_iff_false in Ha. apply Ha.
        apply any_token_spec. specialize (Hs eq_refl).
        apply performed_second_factor_spec in Hs as (m & Hin & Hm').
        exists (as_token m). rewrite second_factor_token_method. auto.
    + split; [|done]. intros _. apply set_choose_L in Hne as [token Ht].
      destruct (Hm token Ht) as [m <-]. exists [m]. split; [done|].
      split; [by intros ? ->%list_elem_of_singleton|done].
  - split; [done|]. intros ([|m ms] & Hms & Hp & _); [done|]. by destruct (Hp m ltac:(by left)).
Qed.

(** ** Validation *)

(** What makes a document coherent, one condition per error. *)
Definition violates (p : AuthPolicy) (ceiling : Z) (e : AuthPolicyError) : Prop :=
  match e with
  | UnknownFactor => ∃ set token, allowed_factors p = Some set ∧ token ∈ set ∧
      is_known_factor_token token = false
  | EmptyFactorList => allowed_factors p = Some ∅
  | EmptyDomainList => allowed_email_domains p = Some ∅
  | MfaRequiredWithNoSecondFactor => mfa_required p = Some true ∧ ∃ set, allowed_factors p = Some set ∧
      set ≠ ∅ ∧ ∀ token, token ∈ set → is_second_factor_token token = false
  | IdleExceedsAbsolute => ∃ absolute idle, session_ttl_secs p = Some absolute ∧
      session_idle_ttl_secs p = Some idle ∧ (absolute < idle)%Z
  | SessionTtlAboveCeiling => ∃ ttl, (session_ttl_secs p = Some ttl ∨ session_idle_ttl_secs p = Some ttl) ∧
      (ceiling < ttl)%Z
  | NonPositiveSessionLifetime => session_ttl_secs p = Some 0%Z ∨ session_idle_ttl_secs p = Some 0%Z
  | InvalidEmailDomain => ∃ set domain, allowed_email_domains p = Some set ∧ domain ∈ set ∧
      domain_is_registrable domain = false
  | NonPositiveTokenLifetime => access_token_ttl_secs p = Some 0%Z
  end.

Lemma elem_of_push_if cond e e' : e ∈ report_if cond e' ↔ cond = true ∧ e = e'.
Proof. unfold report_if. destruct cond; set_solver. Qed.

Lemma any_token_negb_spec f set : any_token (λ t, negb (f t)) set = true ↔
  ∃ token, token ∈ set ∧ f token = false.
Proof. rewrite any_token_spec. by setoid_rewrite negb_true_iff. Qed.

Lemma any_token_false f set : any_token f set = false ↔ ∀ token, token ∈ set → f token = false.
Proof.
  rewrite <-not_true_iff_false, any_token_spec. split.
  - intros H token Ht. apply not_true_iff_false. naive_solver.
  - intros H (token & Ht & Hf). rewrite H in Hf; done.
Qed.

Ltac error_cases :=
  rewrite ?elem_of_app, ?elem_of_push_if, ?elem_of_nil; simpl;
  rewrite ?any_token_negb_spec, ?orb_true_iff, ?andb_true_iff, ?negb_true_iff, ?any_token_false,
    ?bool_decide_eq_true, ?bool_decide_eq_false, ?Z.ltb_lt.

Lemma elem_of_factor_errors p ceiling e : e ∈ factor_errors p ↔
  e ∈ [EmptyFactorList; UnknownFactor; MfaRequiredWithNoSecondFactor] ∧ violates p ceiling e.
Proof.
  unfold factor_errors. destruct (allowed_factors p) as [fs|] eqn:Hf; error_cases;
    rewrite !elem_of_cons, elem_of_nil; destruct e; simpl; rewrite ?Hf; naive_solver.
Qed.

Lemma elem_of_domain_errors p ceiling e : e ∈ domain_errors p ↔
  e ∈ [EmptyDomainList; InvalidEmailDomain] ∧ violates p ceiling e.
Proof.
  unfold domain_errors. destruct (allowed_email_domains p) as [fs|] eqn:Hf; error_cases;
    rewrite !elem_of_cons, elem_of_nil; destruct e; simpl; rewrite ?Hf; naive_solver.
Qed.

Lemma elem_of_lifetime_errors p ceiling e : e ∈ lifetime_errors p ceiling ↔
  e ∈ [SessionTtlAboveCeiling; NonPositiveSessionLifetime; NonPositiveTokenLifetime;
       IdleExceedsAbsolute] ∧ violates p ceiling e.
Proof.
  unfold lifetime_errors.
  destruct (session_ttl_secs p) as [ttl|] eqn:Ht, (session_idle_ttl_secs p) as [idle|] eqn:Hi; error_cases;
    rewrite !elem_of_cons, elem_of_nil; destruct e; simpl; rewrite ?Ht, ?Hi; naive_solver.
Qed.

(** The checks push an error exactly when the document violates its condition. *)
Lemma elem_of_collect_errors p ceiling e : e ∈ collect_errors p ceiling ↔ violates p ceiling e.
Proof.
  unfold collect_errors. rewrite !elem_of_app, (elem_of_factor_errors _ ceiling),
    (elem_of_domain_errors _ ceiling), elem_of_lifetime_errors.
  rewrite !elem_of_cons, !elem_of_nil. destruct e; naive_solver.
Qed.

(** Strictly increasing in the derived order. *)
Definition errors_sorted (l : list AuthPolicyError) : Prop :=
  StronglySorted (λ a b, error_rank a < error_rank b) l.

Lemma error_rank_inj a b : error_rank a = error_rank b → a = b.
Proof. by destruct a, b. Qed.

Lemma insert_error_perm e l : insert_error e l ≡ₚ e :: l.
Proof.
  induction l as [|x l IH]; simpl; [done|]. destruct (_ <=? _)%nat; [done|].
  rewrite IH. apply Permutation_swap.
Qed.

Lemma sort_errors_perm l : sort_errors l ≡ₚ l.
Proof. induction l as [|x l IH]; simpl; [done|]. by rewrite insert_error_perm, IH. Qed.

Lemma insert_error_sorted e l : StronglySorted (λ a b, error_rank a ≤ error_rank b) l →
  StronglySorted (λ a b, error_rank a ≤ error_rank b) (insert_error e l).
Proof.
  induction 1 as [|x l Hl IH Hx]; simpl; [repeat constructor|].
  destruct (Nat.leb_spec (error_rank e) (error_rank x)).
  - constructor; [by constructor|]. constructor; [done|]. eapply Forall_impl; [exact Hx|]. simpl. lia.
  - constructor; [done|]. rewrite insert_error_perm. constructor; [lia|done].
Qed.

Lemma sort_errors_sorted l : StronglySorted (λ a b, error_rank a ≤ error_rank b) (sort_errors l).
Proof. induction l as [|x l IH]; simpl; [constructor|]. by apply insert_error_sorted. Qed.

Lemma elem_of_dedup_errors e l : e ∈ dedup_errors l ↔ e ∈ l.
Proof.
  induction l as [|x l IH]; [done|]. destruct l as [|y l]; [done|].
  change (dedup_errors (x :: y :: l)) with
    (if bool_decide (x = y) then dedup_errors (y :: l) else x :: dedup_errors (y :: l)).
  case_bool_decide as Hxy.
  - subst y. rewrite IH. set_solver.
  - rewrite elem_of_cons, IH. set_solver.
Qed.

Lemma dedup_errors_sorted l : StronglySorted (λ a b, error_rank a ≤ error_rank b) l →
  errors_sorted (dedup_errors l).
Proof.
  unfold errors_sorted. induction 1 as [|x l Hl IH Hx]; [constructor|].
  destruct l as [|y l]; [repeat constructor|].
  change (dedup_errors (x :: y :: l)) with
    (if bool_decide (x = y) then dedup_errors (y :: l) else x :: dedup_errors (y :: l)).
  case_bool_decide as Hxy; [done|]. constructor; [done|]. apply list.Forall_forall.
  intros e He. rewrite elem_of_dedup_errors in He. apply Forall_cons in Hx as [Hx _].
  assert (error_rank x ≠ error_rank y) by (by intros ?%error_rank_inj).
  apply elem_of_cons in He as [->|He]; [lia|].
  apply StronglySorted_inv in Hl as [_ Hl]. rewrite list.Forall_forall in Hl. specialize (Hl e He). lia.
Qed.

Lemma validate_policy_result p ceiling :
  match validate_policy p ceiling with
  | Ok _ => ∀ e, ¬ violates p ceiling e
  | Err errors => errors ≠ [] ∧ errors_sorted errors ∧ ∀ e, e ∈ errors ↔ violates p ceiling e
  end.
Proof.
  unfold validate_policy. pose proof (elem_of_collect_errors p ceiling) as He.
  destruct (collect_errors p ceiling) as [|e l] eqn:Hc.
  - intros e. rewrite <-He. apply not_elem_of_nil.
  - set (out := dedup_errors (sort_errors (e :: l))).
    assert (∀ e', e' ∈ out ↔ violates p ceiling e') as Hout.
    { intros e'. unfold out. by rewrite elem_of_dedup_errors, sort_errors_perm. }
    split; [|split; [apply dedup_errors_sorted, sort_errors_sorted|done]].
    intros Hn. assert (e ∈ out) as Hin by (apply Hout, He; by left). rewrite Hn in Hin.
    by apply elem_of_nil in Hin.
Qed.

(** Validation reports exactly what is wrong with a document.  It accepts a
    document exactly when no condition is violated; otherwise the errors are exactly the
    violated conditions, each once, in the order of the variants. *)
Theorem validate_policy_complete p ceiling :
  (validate_policy p ceiling = Ok tt ↔ ∀ e, ¬ violates p ceiling e) ∧
  (∀ errors, validate_policy p ceiling = Err errors →
     errors ≠ [] ∧ errors_sorted errors ∧ ∀ e, e ∈ errors ↔ violates p ceiling e).
Proof.
  pose proof (validate_policy_result p ceiling) as H.
  destruct (validate_policy p ceiling) as [[]|errors]; split; try done.
  - split; [done|]. intros Hnone. destruct H as (Hne & _ & H). destruct errors as [|e errors]; [done|].
    exfalso. apply (Hnone e), H. by left.
  - by intros ? [= <-].
Qed.

(** The verdict on a resolved policy is right.  Whatever levels state
    validated documents, the policy they resolve to is satisfiable exactly when some login
    of the method registry is permitted by it, and a single validated document always
    is. *)
Theorem satisfiability_correct levels ceiling :
  Forall (λ slot, ∀ p, slot = Some p → validate_policy p ceiling = Ok tt) (slots levels) →
  (satisfiability (resolve_levels levels) = Satisfiable ↔
   ∃ ms, login_permitted (resolve_levels levels) ms) ∧
  (∀ p, levels = mkLevels None None (Some p) None →
   satisfiability (resolve_levels levels) = Satisfiable).
Proof.
  intros Hv.
  assert (∀ p e, Some p ∈ slots levels → ¬ violates p ceiling e) as Hok.
  { intros p e Hp. rewrite list.Forall_forall in Hv. specialize (Hv _ Hp p eq_refl).
    pose proof (validate_policy_result p ceiling) as H. rewrite Hv in H. apply H. }
  split.
  - apply satisfiability_login. intros set Hset token Ht.
    apply list_elem_of_omap in Hset as ([p|] & Hp & Hs); [|done].
    destruct (is_known_factor_token token) eqn:Hk; [done|]. exfalso.
    apply (Hok p UnknownFactor Hp). by exists set, token.
  - intros p ->. specialize (λ e, Hok p e ltac:(unfold slots; simpl; set_solver)).
    unfold resolve_levels, satisfiability, resolve_slots, get_mfa_required. simpl.
    destruct (allowed_factors p) as [fs|] eqn:Hf; simpl; [|done].
    case_bool_decide as He; [destruct (Hok EmptyFactorList); simpl; by rewrite Hf, He|].
    destruct (mfa_required p) as [[]|] eqn:Hm; simpl; [|done..].
    destruct (any_token is_second_factor_token fs) eqn:Ha; simpl; [done|]. exfalso.
    apply (Hok MfaRequiredWithNoSecondFactor). split; [done|]. exists fs.
    split; [done|]. split; [done|]. by apply any_token_false.
Qed.

(** ** A subject's organizations *)

Lemma shortest_fold_min a b : shortest a b = fold_min a b.
Proof. by destruct a, b. Qed.

(** The documents the reads returned. *)
Definition read_documents (reads : list (Result (option AuthPolicy) unit)) : list (option AuthPolicy) :=
  omap (λ r, match r with Ok d => Some d | Err _ => None end) reads.

Lemma single_level p : resolve_levels (mkLevels None None (Some p) None) = resolve_slots [Some p].
Proof. reflexivity. Qed.

(** The fields of the one-level resolution are those the document states. *)
Lemma single_level_fields p :
  let r := resolve_levels (mkLevels None None (Some p) None) in
  get_mfa_required r = default false (mfa_required p) ∧
  res_session_ttl_secs r = session_ttl_secs p ∧ res_session_idle_ttl_secs r = session_idle_ttl_secs p.
Proof.
  cbv zeta. rewrite single_level. unfold resolve_slots, get_mfa_required. simpl.
  by destruct (mfa_required p), (session_ttl_secs p), (session_idle_ttl_secs p).
Qed.

Lemma org_policy_loop_spec reads : ∀ agg,
  match org_policy_loop agg reads with
  | Err _ => Err () ∈ reads
  | Ok out => (Err () ∉ reads) ∧
      org_mfa_required out =
        default false (foldl (λ a x, fold_or a (Some x)) (Some (org_mfa_required agg))
                         (stated mfa_required (read_documents reads))) ∧
      org_session_ttl_secs out = foldl (λ a x, fold_min a (Some x)) (org_session_ttl_secs agg)
        (stated session_ttl_secs (read_documents reads)) ∧
      org_session_idle_ttl_secs out = foldl (λ a x, fold_min a (Some x)) (org_session_idle_ttl_secs agg)
        (stated session_idle_ttl_secs (read_documents reads))
  end.
Proof.
  induction reads as [|[d|[]] reads IH]; intros agg; [by split; [apply not_elem_of_nil|]| |by left].
  cbn [org_policy_loop]. change (read_documents (Ok d :: reads)) with (d :: read_documents reads).
  assert (∀ l, (Err () ∉ Ok d :: l) ↔ Err () ∉ (l : list (Result (option AuthPolicy) unit))) as Hne by set_solver.
  destruct d as [p|].
  - destruct (single_level_fields p) as (-> & -> & ->). rewrite !shortest_fold_min.
    specialize (IH (mkOrgSession (org_mfa_required agg || default false (mfa_required p))
      (fold_min (org_session_ttl_secs agg) (session_ttl_secs p))
      (fold_min (org_session_idle_ttl_secs agg) (session_idle_ttl_secs p)))).
    destruct (org_policy_loop _ reads) as [out|e]; [|by right]. rewrite Hne.
    destruct IH as (Hok & -> & -> & ->). split; [done|].
    cbn [org_mfa_required org_session_ttl_secs org_session_idle_ttl_secs].
    change (stated ?proj (Some p :: ?l)) with
      (match proj p with Some x => x :: stated proj l | None => stated proj l end).
    destruct (mfa_required p), (session_ttl_secs p), (session_idle_ttl_secs p); simpl;
      rewrite ?orb_false_r; done.
  - specialize (IH agg). destruct (org_policy_loop agg reads); [by rewrite Hne|by right].
Qed.

(** A subject gets the strictest of their organizations.  The aggregate
    fails exactly when a read failed; otherwise it requires a second factor exactly when
    some organization's document does, and each session lifetime is the least any of the
    documents states, so another membership can tighten and never relax. *)
Theorem org_session_policy_strictest {M} (memberships : list M) document_for_org :
  let reads := document_for_org <$> memberships in
  match org_session_policy (Ok memberships) document_for_org with
  | Err _ => Err () ∈ reads
  | Ok out => (Err () ∉ reads) ∧
      (org_mfa_required out = true ↔ ∃ m p, m ∈ memberships ∧
         document_for_org m = Ok (Some p) ∧ mfa_required p = Some true) ∧
      (∀ v, org_session_ttl_secs out = Some v ↔ least v (stated session_ttl_secs (read_documents reads))) ∧
      (∀ v, org_session_idle_ttl_secs out = Some v ↔
         least v (stated session_idle_ttl_secs (read_documents reads)))
  end.
Proof.
  cbv zeta. unfold org_session_policy. set (reads := document_for_org <$> memberships).
  pose proof (org_policy_loop_spec reads (mkOrgSession false None None)) as H.
  destruct (org_policy_loop _ reads) as [out|]; [|done]. destruct H as (Hok & -> & -> & ->).
  split; [done|]. split; [|split; intros v; apply fold_min_spec].
  rewrite fold_or_spec. unfold stated, read_documents. rewrite list_elem_of_omap.
  setoid_rewrite list_elem_of_omap. unfold reads. setoid_rewrite list_elem_of_fmap. simpl. split.
  - intros [?|(slot & (r & (m & -> & Hm) & Hr) & Hp)]; [done|]. exists m.
    destruct (document_for_org m) as [[p|]|]; simplify_eq/=. eauto.
  - intros (m & p & Hm & Hd & Hp). right. exists (Some p). split; [|done].
    exists (document_for_org m). rewrite Hd. split; [|done]. exists m. auto.
Qed.

Module OrgPolicySamples.

Definition strict_org : AuthPolicy :=
  mkAuthPolicy (Some true) (Some {[lit "totp"; lit "pwd"]}) None None None (Some 3600%Z) None None None.
Definition open_org : AuthPolicy :=
  mkAuthPolicy None None None (Some true) None (Some 7200%Z) None None None.

Lemma levels_only_narrow_witness :
  narrower (resolve_slots [Some open_org; Some strict_org]) (resolve_slots [Some open_org]) ∧
  (effective_session_ttl_secs (resolve_slots [Some open_org; Some strict_org]) 5000 ≤ 5000)%Z.
Proof.
  destruct (levels_only_narrow [Some open_org; Some strict_org] [Some open_org] 5000) as (H & _ & Ht & _).
  - set_solver.
  - split; [exact H|lia].
Defined.

Lemma satisfiability_correct_witness :
  satisfiability (resolve_levels (mkLevels None None (Some strict_org) None)) = Satisfiable.
Proof.
  apply (satisfiability_correct (mkLevels None None (Some strict_org) None)
    ORG_POLICY_MAX_SESSION_TTL_SECS) with (p := strict_org); [|reflexivity].
  repeat constructor; intros p [= <-]; vm_compute; reflexivity.
Defined.

(** The template is the one field whose resolution depends on the order of the levels. *)
Lemma template_depends_on_order :
  let level id := Some (mkAuthPolicy None None None None None None None None
    (Some (mkTemplate id false))) in
  res_template_override (resolve_slots [level (lit "a"); level (lit "b")]) ≠
  res_template_override (resolve_slots [level (lit "b"); level (lit "a")]).
Proof. vm_compute. discriminate. Qed.

(** Adding a level can turn provisioning on. *)
Lemma provisioning_can_widen :
  get_jit_provisioning (resolve_slots []) = false ∧
  get_jit_provisioning (resolve_slots [Some open_org]) = true.
Proof. vm_compute. done. Qed.

End OrgPolicySamples.
