(* ===== verification/AccessRules.v ===== *)
(** * Access rules

    The rule engine of crates/ironauth-oidc/src/rules.rs: rules over request facts, the
    first-match walk with its two recorders, the readings of one rule set by its consumers
    ([decide], [refusal], [step_up_floor], [explain], [dry_run]) and the sentences they
    print.  Compiled regular expressions are the class [RegexEngine] and the [Debug]
    rendering of a list of strings is the class [DebugFormat].  The theorems: the walk
    decides by the first rule whose criteria hold, its trace accounts for every rule and
    agrees with the decision, a prefix covers whole segments, a pattern covers the whole
    path, and a claim about a subject never holds without one. *)

From S2P Require Import Prelude Text Authn StepUp.

Local Open Scope char_scope.

(** ** What the engine does not define *)

(** The result of [Regex::captures]: the span of group 0 and the named groups that took
    part, in the order of [capture_names]. *)
Record Captures : Type := mkCaptures {
  whole_start : nat;
  whole_end : nat;
  named : list (list ascii * list ascii)
}.

(** The [regex] crate: [Regex::new] compiles a pattern or fails. *)
Class RegexEngine := {
  Regex : Type;
  regex_new : text → option Regex;
  as_str : Regex → text;
  captures_of : Regex → text → option Captures
}.

(** [Regex::as_str] returns the original string of the regex. *)
Class RegexEngineLaws `{RegexEngine} : Prop := {
  as_str_new pattern r : regex_new pattern = Some r → as_str r = pattern
}.

(** [format!("{:?}", strings)] of a vector of strings. *)
Class DebugFormat := { fmt_debug : list text → text }.

(** Two vectors never render alike: every string is quoted and its quotes are escaped. *)
Class DebugFormatLaws `{DebugFormat} : Prop := {
  fmt_debug_inj l l' : fmt_debug l = fmt_debug l' → l = l'
}.

(** ** Rules and facts *)

Inductive Action : Type :=
| Allow
| Deny
| StepUp (acr : list ascii).

#[export] Instance Action_eq_dec : EqDecision Action.
Proof. solve_decision. Defined.

Inductive SubjectCheck : Type :=
| Is (subject : list ascii)
| InGroup (group : list ascii)
| HasRole (role : list ascii)
| EqualsCapture (name : list ascii)
| Authenticated
| Anonymous.

Inductive Criterion `{RegexEngine} : Type :=
| Method (allowed : list (list ascii))
| Host (host : list ascii)
| PathPrefix (prefix : list ascii)
| PathMatches (pattern : Regex)
| Header (name value : list ascii)
| Subject (check : SubjectCheck)
| AcrAtLeast (floor : list ascii).

Record Rule `{RegexEngine} : Type := mkRule {
  rule_name : text;
  criteria : list Criterion;
  action : Action
}.

Record RequestFacts : Type := mkRequestFacts {
  method : text;
  host : text;
  path : text;
  headers : gmap (list ascii) (list ascii);
  subject : option text;
  groups : list text;
  roles : list text;
  facts_acr : option text
}.

Record Decision : Type := mkDecision {
  decided_action : Action;
  matched : option text
}.

Record RuleSet `{RegexEngine} : Type := mkRuleSet {
  rules : list Rule;
  acr_order : list text
}.

Arguments mkRule {_} rule_name criteria action.
Arguments mkRuleSet {_} rules acr_order.

(** [RuleSet::new] ranks by the default ladder; [with_acr_order] replaces it. *)
Definition RuleSet_new `{RegexEngine} (rules : list Rule) : RuleSet := mkRuleSet rules default_acr_order.
Definition with_acr_order `{RegexEngine} (rs : RuleSet) (order : list text) : RuleSet :=
  mkRuleSet (rules rs) order.

(** [Option::filter] with the test that a string is not empty. *)
Definition non_empty (s : option text) : option text :=
  s ≫= λ s, if bool_decide (s = []) then None else Some s.

Definition authenticated_subject (facts : RequestFacts) : option text := non_empty (subject facts).
Definition facts_achieved_acr (facts : RequestFacts) : option text := non_empty (facts_acr facts).

Definition no_match : Decision := mkDecision Deny None.

(** ** Criteria *)

Definition path_has_prefix (path prefix : text) : bool :=
  let trimmed := trim_end_char "/" prefix in
  if bool_decide (trimmed = []) then false
  else if bool_decide (strip_prefix trimmed path = None) then false
  else match path !! length trimmed with
       | None => true
       | Some c => is_char "/" c
       end.

Definition subject_matches (check : SubjectCheck) (facts : RequestFacts)
    (captures : gmap (list ascii) (list ascii)) : bool :=
  let subject := authenticated_subject facts in
  match check with
  | Is expected => bool_decide (subject = Some expected)
  | InGroup group =>
      bool_decide (is_Some subject) && existsb (λ held, bool_decide (held = group)) (groups facts)
  | HasRole role =>
      bool_decide (is_Some subject) && existsb (λ held, bool_decide (held = role)) (roles facts)
  | EqualsCapture name =>
      match captures !! name, subject with
      | Some expected, Some subject => bool_decide (expected = subject)
      | _, _ => false
      end
  | Authenticated => bool_decide (is_Some subject)
  | Anonymous => bool_decide (subject = None)
  end.

Section Engine.
Context `{RegexEngine} `{DebugFormat}.

(** Whether a criterion holds, with the captures it leaves. *)
Definition matches (criterion : Criterion) (facts : RequestFacts)
    (captures : gmap (list ascii) (list ascii)) (acr_order : list text)
    : bool * gmap (list ascii) (list ascii) :=
  match criterion with
  | AcrAtLeast floor =>
      (from_option (λ achieved, acr_satisfies achieved floor acr_order) false
         (facts_achieved_acr facts), captures)
  | Method allowed => (existsb (λ m, eq_ignore_ascii_case m (method facts)) allowed, captures)
  | Host h => (eq_ignore_ascii_case h (host facts), captures)
  | PathPrefix prefix => (path_has_prefix (path facts) prefix, captures)
  | PathMatches pattern =>
      match captures_of pattern (path facts) with
      | Some found =>
          if negb (whole_start found =? 0)%nat || negb (whole_end found =? length (path facts))%nat
          then (false, captures)
          else (true, insert_all captures (named found))
      | None => (false, captures)
      end
  | Header name value =>
      (existsb (λ entry, eq_ignore_ascii_case entry.1 name && bool_decide (entry.2 = value))
         (map_to_list (headers facts)), captures)
  | Subject check => (subject_matches check facts captures, captures)
  end.

(** [position] with the closure that threads the captures. *)
Fixpoint first_failing_from (order : list text) (facts : RequestFacts)
    (captures : gmap (list ascii) (list ascii)) (i : nat) (cs : list Criterion) : option nat :=
  match cs with
  | [] => None
  | c :: rest =>
      let '(holds, captures) := matches c facts captures order in
      if holds then first_failing_from order facts captures (S i) rest else Some i
  end.

Definition first_failing_criterion (rs : RuleSet) (rule : Rule) (facts : RequestFacts) : option nat :=
  first_failing_from (acr_order rs) facts ∅ 0 (criteria rule).

Definition resolve_action (rs : RuleSet) (a : Action) (facts : RequestFacts) : Action :=
  match a with
  | StepUp acr =>
      if from_option (λ achieved, acr_satisfies achieved acr (acr_order rs)) false
           (facts_achieved_acr facts)
      then Allow else StepUp acr
  | other => other
  end.

Definition constrains_the_principal (rule : Rule) : bool :=
  existsb (λ c, match c with Subject _ | AcrAtLeast _ => true | _ => false end) (criteria rule).

(** ** Rendering *)

Definition describe (c : Criterion) : text :=
  match c with
  | Method allowed => lit "method in " ++ fmt_debug allowed
  | Host host => lit "host == " ++ host
  | PathPrefix prefix => lit "path under " ++ prefix
  | PathMatches pattern => lit "path matches /" ++ as_str pattern ++ lit "/"
  | Header name _ => lit "header " ++ name ++ lit " has the configured value"
  | Subject check =>
      match check with
      | Is subject => lit "subject is " ++ subject
      | InGroup group => lit "subject in group " ++ group
      | HasRole role => lit "subject has role " ++ role
      | EqualsCapture name => lit "subject equals capture " ++ name
      | Authenticated => lit "subject is authenticated"
      | Anonymous => lit "subject is anonymous"
      end
  | AcrAtLeast floor => lit "authentication reaches " ++ floor
  end.

Inductive RuleOutcome : Type :=
| Matched
| Failed (criterion_index : nat) (criterion : list ascii)
| NotReached.

Record RuleTrace : Type := mkRuleTrace { trace_rule : text; outcome : RuleOutcome }.

(** ** The walk *)

(** The trait [Recorder]. *)
Record Recorder (R : Type) : Type := mkRecorder {
  RECORDS : bool;
  rec_matched : R → Rule → R;
  rec_failed : R → Rule → nat → R;
  rec_not_reached : R → Rule → R
}.

Definition Silent : Recorder unit :=
  mkRecorder unit false (λ r _, r) (λ r _ _, r) (λ r _, r).

(** The index is one [first_failing_criterion] returned, so the criterion is there. *)
Definition Recording : Recorder (list RuleTrace) :=
  mkRecorder (list RuleTrace) true
    (λ r rule, r ++ [mkRuleTrace (rule_name rule) Matched])
    (λ r rule i, r ++ [mkRuleTrace (rule_name rule)
                         (Failed i (from_option describe [] (criteria rule !! i)))])
    (λ r rule, r ++ [mkRuleTrace (rule_name rule) NotReached]).

Fixpoint walk_loop {R} (recorder : Recorder R) (rs : RuleSet) (facts : RequestFacts)
    (decided : option Decision) (rec : R) (l : list Rule) : Decision * R :=
  match l with
  | [] => (default no_match decided, rec)
  | rule :: rest =>
      match decided with
      | Some _ => walk_loop recorder rs facts decided (rec_not_reached R recorder rec rule) rest
      | None =>
          match first_failing_criterion rs rule facts with
          | Some index => walk_loop recorder rs facts None (rec_failed R recorder rec rule index) rest
          | None =>
              let rec := rec_matched R recorder rec rule in
              let decision := mkDecision (resolve_action rs (action rule) facts)
                                (Some (rule_name rule)) in
              if RECORDS R recorder then walk_loop recorder rs facts (Some decision) rec rest
              else (decision, rec)
          end
      end
  end.

Definition walk_filtered {R} (recorder : Recorder R) (rs : RuleSet) (facts : RequestFacts)
    (rec : R) (eligible : Rule → bool) : Decision * R :=
  walk_loop recorder rs facts None rec (filter (λ rule, eligible rule = true) (rules rs)).

Definition walk {R} (recorder : Recorder R) (rs : RuleSet) (facts : RequestFacts) (rec : R)
    : Decision * R :=
  walk_filtered recorder rs facts rec (λ _, true).

Definition decide_rules (rs : RuleSet) (facts : RequestFacts) : Decision :=
  fst (walk Silent rs facts tt).

Definition refusal (rs : RuleSet) (facts : RequestFacts) : option text :=
  let decision := fst (walk_filtered Silent rs facts tt constrains_the_principal) in
  match decided_action decision, matched decision with
  | Deny, Some rule => Some rule
  | _, _ => None
  end.

Definition step_up_floor (rs : RuleSet) (facts : RequestFacts) : option text :=
  List.find (λ rule, bool_decide (first_failing_criterion rs rule facts = None))
    (filter (λ rule, constrains_the_principal rule = true) (rules rs))
  ≫= λ rule, match action rule with StepUp acr => Some acr | Allow | Deny => None end.

Record Explanation : Type := mkExplanation { decision : Decision; trace : list RuleTrace }.

Definition explain (rs : RuleSet) (facts : RequestFacts) : Explanation :=
  let '(decision, trace) := walk Recording rs facts [] in mkExplanation decision trace.

(** [DryRun] wraps an explanation. *)
Definition dry_run (rs : RuleSet) (facts : RequestFacts) : Explanation := explain rs facts.

(** The attempts listed when no rule matched. *)
Definition attempt (entry : RuleTrace) : option text :=
  match outcome entry with
  | Failed i criterion =>
      Some (trace_rule entry ++ lit " failed at criterion " ++ lit (fmt_nat i) ++
            lit " (" ++ criterion ++ lit ")")
  | _ => None
  end.

Definition why_denied (e : Explanation) : option text :=
  if negb (bool_decide (decided_action (decision e) = Deny)) then None
  else match matched (decision e) with
       | Some rule => Some (lit "denied by rule " ++ rule)
       | None =>
           match trace e with
           | [] => Some (lit "denied because no rules are configured")
           | _ => Some (lit "denied because no rule matched: " ++
                        join (lit "; ") (omap attempt (trace e)))
           end
       end.

Definition reason (e : Explanation) : text :=
  match decided_action (decision e), matched (decision e) with
  | Deny, _ => default (lit "denied") (why_denied e)
  | Allow, Some rule => lit "allowed by rule " ++ rule
  | Allow, None => lit "allowed"
  | StepUp acr, Some rule => lit "rule " ++ rule ++ lit " requires step-up to " ++ acr
  | StepUp acr, None => lit "step-up to " ++ acr ++ lit " required"
  end.

Definition would_allow (e : Explanation) : bool := bool_decide (decided_action (decision e) = Allow).

End Engine.

(** ** Paths *)

(** A prefix covers whole segments: it covers a path exactly when its own segments, its
    trailing slashes apart, are the first segments of the path, and it is not blank. *)
Lemma path_has_prefix_iff path prefix : path_has_prefix path prefix = true ↔
  trim_end_char "/" prefix ≠ [] ∧
  split_char "/" (trim_end_char "/" prefix) `prefix_of` split_char "/" path.
Proof.
  unfold path_has_prefix. set (t := trim_end_char "/" prefix).
  rewrite split_char_prefix. case_bool_decide as Ht; [naive_solver|].
  case_bool_decide as Hs.
  - rewrite strip_prefix_None in Hs. split; [done|]. intros [_ [->|[rest ->]]].
    + destruct (Hs []). by rewrite app_nil_r.
    + by destruct (Hs ("/" :: rest)).
  - destruct (strip_prefix t path) as [rest|] eqn:Hr; [|done].
    apply strip_prefix_Some in Hr as ->. rewrite lookup_app_r, Nat.sub_diag by lia.
    destruct rest as [|c rest]; simpl.
    + split; [|done]. intros _. split; [done|]. left. by rewrite app_nil_r.
    + unfold is_char. rewrite bool_decide_eq_true. split.
      * intros <-. split; [done|]. right. by exists rest.
      * intros [_ [H|[r H]]]; [|by apply app_inv_head in H as [= -> _]].
        apply (f_equal length) in H. rewrite length_app in H. simpl in H. lia.
Qed.

(** ** The walk *)

Section WalkLemmas.
Context `{RegexEngine} `{DebugFormat}.

(** A rule matches when no criterion fails. *)
Definition rule_matches (rs : RuleSet) (facts : RequestFacts) (rule : Rule) : bool :=
  bool_decide (first_failing_criterion rs rule facts = None).

(** The reference reading of a list of rules: the first one that matches decides. *)
Definition first_match (rs : RuleSet) (facts : RequestFacts) (l : list Rule) : Decision :=
  match List.find (rule_matches rs facts) l with
  | Some rule => mkDecision (resolve_action rs (action rule) facts) (Some (rule_name rule))
  | None => no_match
  end.

Lemma walk_loop_decided {R} (recorder : Recorder R) rs facts d l : ∀ rec,
  fst (walk_loop recorder rs facts (Some d) rec l) = d.
Proof. induction l as [|rule l IH]; intros rec; [done|]. apply IH. Qed.

Lemma walk_loop_first_match {R} (recorder : Recorder R) rs facts l : ∀ rec,
  fst (walk_loop recorder rs facts None rec l) = first_match rs facts l.
Proof.
  unfold first_match. induction l as [|rule l IH]; intros rec; [done|]. cbn [walk_loop List.find].
  unfold rule_matches at 1. destruct (first_failing_criterion rs rule facts) as [i|]; simpl; [apply IH|].
  destruct (RECORDS R recorder); [apply walk_loop_decided|done].
Qed.

Lemma filter_all_rules (l : list Rule) : filter (λ _ : Rule, true = true) l = l.
Proof. by apply list_filter_all. Qed.

Lemma decide_rules_first_match rs facts : decide_rules rs facts = first_match rs facts (rules rs).
Proof.
  unfold decide_rules, walk, walk_filtered. rewrite walk_loop_first_match. by rewrite filter_all_rules.
Qed.

Lemma explain_decision rs facts : decision (explain rs facts) = decide_rules rs facts.
Proof.
  rewrite decide_rules_first_match. unfold explain, walk, walk_filtered.
  pose proof (walk_loop_first_match Recording rs facts
    (filter (λ _ : Rule, true = true) (rules rs)) []) as Hw.
  destruct (walk_loop _ _ _ _ _ _) as [d t]. simpl in *. by rewrite Hw, filter_all_rules.
Qed.

(** What the trace says of a rule. *)
Definition trace_entry (rs : RuleSet) (facts : RequestFacts) (reached : bool) (rule : Rule) : RuleTrace :=
  mkRuleTrace (rule_name rule)
    (if reached then
       match first_failing_criterion rs rule facts with
       | Some i => Failed i (from_option describe [] (criteria rule !! i))
       | None => Matched
       end
     else NotReached).

Fixpoint reference_trace (rs : RuleSet) (facts : RequestFacts) (reached : bool) (l : list Rule)
    : list RuleTrace :=
  match l with
  | [] => []
  | rule :: rest => trace_entry rs facts reached rule ::
      reference_trace rs facts (reached && negb (rule_matches rs facts rule)) rest
  end.

Lemma walk_loop_trace rs facts l : ∀ decided rec,
  snd (walk_loop Recording rs facts decided rec l) =
  rec ++ reference_trace rs facts (bool_decide (decided = None)) l.
Proof.
  induction l as [|rule l IH]; intros decided rec; [by rewrite app_nil_r|]. cbn [walk_loop reference_trace].
  destruct decided as [d|].
  - rewrite IH. cbn -[describe reference_trace]. by rewrite <-app_assoc.
  - unfold trace_entry, rule_matches. cbn [bool_decide].
    destruct (first_failing_criterion rs rule facts) as [i|] eqn:Hf;
      cbn [RECORDS Recording]; rewrite IH; cbn -[describe reference_trace]; by rewrite <-app_assoc.
Qed.

Lemma explain_trace rs facts : trace (explain rs facts) = reference_trace rs facts true (rules rs).
Proof.
  unfold explain, walk, walk_filtered. rewrite filter_all_rules.
  pose proof (walk_loop_trace rs facts (rules rs) None []) as Hw.
  destruct (walk_loop _ _ _ _ _ _) as [d t]. done.
Qed.

Lemma reference_trace_lookup rs facts l : ∀ reached i,
  reference_trace rs facts reached l !! i =
  (λ rule, trace_entry rs facts (reached && forallb (λ r, negb (rule_matches rs facts r)) (take i l)) rule)
  <$> l !! i.
Proof.
  induction l as [|rule l IH]; intros reached i; [done|]. destruct i as [|i]; simpl.
  - by rewrite andb_true_r.
  - by rewrite IH, andb_assoc.
Qed.
End WalkLemmas.

Section Readings.
Context `{RegexEngine} `{DebugFormat}.

(** The first rule about the principal that matches. *)
Definition principal_match (rs : RuleSet) (facts : RequestFacts) : option Rule :=
  List.find (rule_matches rs facts) (filter (λ rule, constrains_the_principal rule = true) (rules rs)).

Lemma refusal_spec rs facts name : refusal rs facts = Some name ↔
  ∃ rule, principal_match rs facts = Some rule ∧ action rule = Deny ∧ rule_name rule = name.
Proof.
  unfold refusal, walk_filtered, principal_match. rewrite walk_loop_first_match. unfold first_match.
  destruct (List.find _ _) as [rule|].
  - cbn [fst decided_action matched]. unfold resolve_action.
    destruct (action rule) as [| |acr] eqn:Ha; [|naive_solver|destruct (from_option _ _ _)];
      (split; [done|]); by intros (? & [= <-] & Hd & _); rewrite Ha in Hd.
  - split; [done|]. by intros (? & ? & _).
Qed.

Lemma step_up_floor_spec rs facts acr : step_up_floor rs facts = Some acr ↔
  ∃ rule, principal_match rs facts = Some rule ∧ action rule = StepUp acr.
Proof.
  unfold step_up_floor, principal_match, rule_matches.
  destruct (List.find _ _) as [rule|]; simpl.
  - split.
    + destruct (action rule) as [| |a] eqn:Ha; [done|done|]. intros [= <-]. by exists rule.
    + intros (? & [= <-] & Ha). by rewrite Ha.
  - split; [done|]. by intros (? & ? & _).
Qed.

(** The three readings of one rule set.  A decision is that of the first
    rule, in declaration order, all of whose criteria hold, and a denial attributed to
    nothing when there is none; a step-up decision means the request has not reached the
    level, and the same rule admits once it has.  Issuance is refused, and a step-up floor
    set, exactly by the first matching rule among those that constrain the principal. *)
Theorem rule_set_readings rs facts :
  decide_rules rs facts =
    (match List.find (rule_matches rs facts) (rules rs) with
     | Some rule => mkDecision
         (match action rule with
          | StepUp acr =>
              if from_option (λ achieved, acr_satisfies achieved acr (acr_order rs)) false
                   (facts_achieved_acr facts)
              then Allow else StepUp acr
          | other => other
          end) (Some (rule_name rule))
     | None => mkDecision Deny None
     end) ∧
  (∀ name, refusal rs facts = Some name ↔
     ∃ rule, principal_match rs facts = Some rule ∧ action rule = Deny ∧ rule_name rule = name) ∧
  (∀ acr, step_up_floor rs facts = Some acr ↔
     ∃ rule, principal_match rs facts = Some rule ∧ action rule = StepUp acr).
Proof.
  split.
  { rewrite decide_rules_first_match. unfold first_match, resolve_action.
    destruct (List.find _ _) as [rule|]; [by destruct (action rule)|done]. }
  split; intros; [apply refusal_spec|apply step_up_floor_spec].
Qed.

Lemma first_failing_from_bound order facts cs : ∀ caps i j,
  first_failing_from order facts caps i cs = Some j → i ≤ j < i + length cs.
Proof.
  induction cs as [|c cs IH]; intros caps i j; simpl; [done|].
  destruct (matches c facts caps order) as [[] caps'].
  - intros Hj%IH. lia.
  - intros [= <-]. lia.
Qed.

(** An explanation explains the decision that is enforced.  Its decision
    is that of [decide], and its trace has one entry per rule in declaration order: a rule
    after the one that decided is not reached, the one that decided matched, and a rule
    before it failed at the criterion, which exists, that the entry renders. *)
Theorem explanation_accounts rs facts :
  decision (explain rs facts) = decide_rules rs facts ∧
  length (trace (explain rs facts)) = length (rules rs) ∧
  ∀ i rule, rules rs !! i = Some rule →
    ∃ entry, trace (explain rs facts) !! i = Some entry ∧ trace_rule entry = rule_name rule ∧
    match outcome entry with
    | NotReached => ∃ k earlier, k < i ∧ rules rs !! k = Some earlier ∧ rule_matches rs facts earlier = true
    | Matched => rule_matches rs facts rule = true ∧
        ∀ k earlier, k < i → rules rs !! k = Some earlier → rule_matches rs facts earlier = false
    | Failed j rendered => first_failing_criterion rs rule facts = Some j ∧
        (∃ c, criteria rule !! j = Some c ∧ rendered = describe c) ∧
        ∀ k earlier, k < i → rules rs !! k = Some earlier → rule_matches rs facts earlier = false
    end.
Proof.
  split; [apply explain_decision|]. rewrite explain_trace. split.
  { generalize true. induction (rules rs) as [|rule l IH]; intros b; simpl; [done|]. by rewrite IH. }
  intros i rule Hi. rewrite reference_trace_lookup, Hi. eexists. split; [reflexivity|]. split; [done|].
  simpl. destruct (forallb _ (take i (rules rs))) eqn:Hb.
  - assert (∀ k earlier, k < i → rules rs !! k = Some earlier → rule_matches rs facts earlier = false) as Hearly.
    { intros k earlier Hk Hl. rewrite forallb_forall in Hb. apply negb_true_iff, Hb, list_elem_of_In.
      eapply list_elem_of_lookup_2, lookup_take_Some. eauto. }
    destruct (first_failing_criterion rs rule facts) as [j|] eqn:Hf; simpl.
    + split; [done|]. split; [|done].
      pose proof (first_failing_from_bound _ _ _ _ _ _ Hf) as Hj. simpl in Hj.
      destruct (lookup_lt_is_Some_2 (criteria rule) j) as [c Hc]; [lia|]. exists c.
      by rewrite Hc.
    + split; [|done]. unfold rule_matches. by rewrite Hf.
  - apply not_true_iff_false in Hb. rewrite forallb_forall in Hb.
    destruct (decide (Exists (λ r, rule_matches rs facts r = true) (take i (rules rs)))) as [He|He].
    + apply list.Exists_exists in He as (earlier & Hin & Hm).
      apply list_elem_of_lookup in Hin as [k Hk]. apply lookup_take_Some in Hk as [Hk Hlt]. eauto.
    + exfalso. apply Hb. intros r Hr%list_elem_of_In. apply negb_true_iff, not_true_iff_false.
      intros Hm. apply He, list.Exists_exists. eauto.
Qed.

(** A claim about a path or a subject is never satisfied by less.  A prefix
    covers only paths that continue it at a segment boundary; a pattern holds only when it
    spans the whole path; and every subject check other than anonymity fails without an
    authenticated subject that is not blank, captured or not. *)
Theorem criteria_fail_closed facts captures order c :
  fst (matches c facts captures order) = true →
  match c with
  | PathPrefix prefix => trim_end_char "/" prefix ≠ [] ∧
      split_char "/" (trim_end_char "/" prefix) `prefix_of` split_char "/" (path facts)
  | PathMatches pattern => ∃ found, captures_of pattern (path facts) = Some found ∧
      whole_start found = 0 ∧ whole_end found = length (path facts)
  | Subject Anonymous => subject facts = None ∨ subject facts = Some []
  | Subject (EqualsCapture name) => ∃ s, subject facts = Some s ∧ s ≠ [] ∧ captures !! name = Some s
  | Subject _ => ∃ s, subject facts = Some s ∧ s ≠ []
  | AcrAtLeast floor => ∃ achieved, facts_acr facts = Some achieved ∧ achieved ≠ [] ∧
      acr_satisfies achieved floor order = true
  | _ => True
  end.
Proof.
  assert (∀ o : option text, (∃ s, non_empty o = Some s) ↔ ∃ s, o = Some s ∧ s ≠ []) as Hne.
  { intros [s|]; unfold non_empty; simpl; [case_bool_decide|]; naive_solver. }
  assert (∀ (o : option text) s, non_empty o = Some s → o = Some s ∧ s ≠ []) as Hne1.
  { intros [s|] s'; unfold non_empty; simpl; [case_bool_decide|]; naive_solver. }
  destruct c as [| |prefix|pattern| |check|floor]; simpl; try done.
  - by rewrite path_has_prefix_iff.
  - destruct (captures_of pattern (path facts)) as [found|]; [|done].
    destruct (whole_start found =? 0)%nat eqn:Hs, (whole_end found =? length (path facts))%nat eqn:He;
      simpl; try done. apply Nat.eqb_eq in Hs, He. eauto.
  - destruct check; simpl; rewrite ?bool_decide_eq_true, ?andb_true_iff,
      ?bool_decide_eq_true; unfold authenticated_subject, is_Some; try (rewrite <-Hne; naive_solver).
    + destruct (captures !! name) as [e|]; [|done].
      destruct (non_empty (subject facts)) as [s|] eqn:Hs; [|done].
      rewrite bool_decide_eq_true. intros ->. apply Hne1 in Hs. naive_solver.
    + unfold non_empty. destruct (subject facts) as [s|]; simpl; [|auto].
      case_bool_decide; [subst; auto|done].
  - unfold facts_achieved_acr. destruct (non_empty (facts_acr facts)) as [a|] eqn:Ha; [|done].
    simpl. intros Hsat. apply Hne1 in Ha. naive_solver.
Qed.

End Readings.
