(* ===== verification/AccessCache.v ===== *)
(** * Cached access decisions

    The decision cache of crates/ironauth-oidc/src/rules.rs: the facts a rule set reads, the
    key they give a request, the fingerprint of a rule set, [CachedRuleSet] over the
    interface [DecisionStore], and its in-process implementation [MemoryStore].  The
    standard hasher is the class [Hasher] and the order in which a [HashMap] iterates the
    class [HashIteration].  The theorems: requests with one key get one decision; a cached
    rule set decides like the uncached one through any sequence of requests and rule
    changes, over every store that keeps the interface's promise, when no literal subject is
    spelled like a state and the hashes do not collide; and the in-process store
    keeps that promise, serves nothing older than its bound and never outgrows its
    ceiling. *)

From stdpp Require Import sorting.
From S2P Require Import Prelude Text Authn StepUp AccessRules.

(** ** Sorting strings *)

Definition text_le (a b : list ascii) : Prop := text_leb a b = true.

#[export] Instance text_le_dec : RelDecision text_le.
Proof. intros a b. unfold text_le. apply _. Defined.

(** [sort_unstable] on strings. *)
Definition sort_texts (l : list text) : list text := merge_sort text_le l.

(** ** What a rule set reads *)

Inductive FactField : Type :=
| FieldMethod | FieldHost | FieldPath | FieldSubject | FieldGroups | FieldRoles | FieldAcr.

#[export] Instance FactField_eq_dec : EqDecision FactField.
Proof. solve_decision. Defined.

(** The fields in their derived order. *)
Definition ALL_FIELDS : list FactField :=
  [FieldMethod; FieldHost; FieldPath; FieldSubject; FieldGroups; FieldRoles; FieldAcr].

Definition field_index (f : FactField) : nat :=
  match f with
  | FieldMethod => 0 | FieldHost => 1 | FieldPath => 2 | FieldSubject => 3 | FieldGroups => 4
  | FieldRoles => 5 | FieldAcr => 6
  end.

#[export] Instance FactField_countable : Countable FactField :=
  inj_countable field_index (λ n, ALL_FIELDS !! n) (λ f, ltac:(by destruct f)).

Record FactDependencies : Type := mkDependencies {
  fields : gset FactField;
  dep_headers : gset (list ascii)
}.

Definition no_dependencies : FactDependencies := mkDependencies ∅ ∅.

Definition reads (deps : FactDependencies) (field : FactField) : bool := bool_decide (field ∈ fields deps).

Definition reads_nothing (deps : FactDependencies) : bool :=
  bool_decide (fields deps = ∅) && bool_decide (dep_headers deps = ∅).

Definition read_field (field : FactField) (deps : FactDependencies) : FactDependencies :=
  mkDependencies ({[field]} ∪ fields deps) (dep_headers deps).

Definition read_header (name : text) (deps : FactDependencies) : FactDependencies :=
  mkDependencies (fields deps) ({[to_ascii_lowercase name]} ∪ dep_headers deps).

(** The standard hasher, on the sequence of values written to it. *)
Inductive HashWrite : Type :=
| WStr (s : list ascii)
| WUsize (n : nat)
| WU8 (n : nat).

#[export] Instance WStr_inj : Inj (=) (=) WStr.
Proof. by intros s s' [= ->]. Qed.

Class Hasher := { hash_finish : list HashWrite → Z }.

(** ** Keys *)

Record DecisionKey : Type := mkKey {
  generation : Z;
  key_fields : list (FactField * option (list ascii));
  key_headers : list (list ascii * list (list ascii));
  key_groups : option (list (list ascii));
  key_roles : option (list (list ascii))
}.

#[export] Instance DecisionKey_eq_dec : EqDecision DecisionKey.
Proof. solve_decision. Defined.

#[export] Instance DecisionKey_countable : Countable DecisionKey :=
  inj_countable' (λ k, (generation k, key_fields k, key_headers k, key_groups k, key_roles k))
    (λ '(g, f, h, gr, ro), mkKey g f h gr ro) (λ k, ltac:(by destruct k)).

Inductive CacheOutcome : Type :=
| Hit (d : Decision)
| Miss
| Unavailable.

(** The trait [DecisionStore]; [put] through a shared reference is state passing. *)
Class DecisionStore (S : Type) := {
  store_get : S → DecisionKey → Z → CacheOutcome;
  store_put : S → DecisionKey → Decision → Z → S
}.

(** What a store promises: it only ever answers with a decision that was put under the
    key. *)
Class DecisionStoreLaws (S : Type) `{DecisionStore S} := {
  store_holds : S → DecisionKey → Decision → Prop;
  store_get_holds s k now d : store_get s k now = Hit d → store_holds s k d;
  store_put_holds s k d now k' d' :
    store_holds (store_put s k d now) k' d' → (k' = k ∧ d' = d) ∨ store_holds s k' d'
}.

Record CachedDecision : Type := mkCached {
  cached_decision : Decision;
  cached : bool;
  store_available : bool
}.

Section Cache.
Context `{RegexEngine} `{DebugFormat} `{Hasher}.

Definition criterion_dependencies (deps : FactDependencies) (c : Criterion) : FactDependencies :=
  match c with
  | Method _ => read_field FieldMethod deps
  | Host _ => read_field FieldHost deps
  | PathPrefix _ | PathMatches _ => read_field FieldPath deps
  | Header name _ => read_header name deps
  | Subject check =>
      match check with
      | Is _ | Authenticated | Anonymous => read_field FieldSubject deps
      | EqualsCapture _ => read_field FieldPath (read_field FieldSubject deps)
      | InGroup _ => read_field FieldGroups (read_field FieldSubject deps)
      | HasRole _ => read_field FieldRoles (read_field FieldSubject deps)
      end
  | AcrAtLeast _ => read_field FieldAcr deps
  end.

Definition rule_dependencies (deps : FactDependencies) (rule : Rule) : FactDependencies :=
  let deps := foldl criterion_dependencies deps (criteria rule) in
  match action rule with
  | Allow | Deny => deps
  | StepUp _ => read_field FieldAcr deps
  end.

Definition dependencies (rs : RuleSet) : FactDependencies :=
  foldl rule_dependencies no_dependencies (rules rs).

(** ** The fingerprint *)

Definition hash_criterion (c : Criterion) : list HashWrite :=
  WStr (describe c) :: match c with Header _ value => [WStr value] | _ => [] end.

Definition hash_action (a : Action) : list HashWrite :=
  match a with
  | Allow => [WU8 0]
  | Deny => [WU8 1]
  | StepUp acr => [WU8 2; WStr acr]
  end.

Definition hash_rule (rule : Rule) : list HashWrite :=
  [WStr (rule_name rule); WUsize (length (criteria rule))] ++
  concat (hash_criterion <$> criteria rule) ++ hash_action (action rule).

(** A vector hashes its length and then its elements. *)
Definition hash_stream (rs : RuleSet) : list HashWrite :=
  (WUsize (length (acr_order rs)) :: (WStr <$> acr_order rs)) ++
  WUsize (length (rules rs)) :: concat (hash_rule <$> rules rs).

Definition fingerprint (rs : RuleSet) : Z := hash_finish (hash_stream rs).

(** ** The cached rule set *)

Record CachedRuleSet (S : Type) : Type := mkCachedRuleSet {
  cache_rules : RuleSet;
  cache_dependencies : FactDependencies;
  cache_generation : Z;
  cache_store : S
}.
Arguments mkCachedRuleSet {S}.
Arguments cache_rules {S}.
Arguments cache_dependencies {S}.
Arguments cache_generation {S}.
Arguments cache_store {S}.

Definition CachedRuleSet_new {S} (rs : RuleSet) (store : S) : CachedRuleSet S :=
  mkCachedRuleSet rs (dependencies rs) (fingerprint rs) store.

Definition replace_rules {S} (c : CachedRuleSet S) (rs : RuleSet) : CachedRuleSet S :=
  mkCachedRuleSet rs (dependencies rs) (fingerprint rs) (cache_store c).

(** The value a field contributes; groups and roles are carried in fields of their own. *)
Definition field_value (facts : RequestFacts) (field : FactField) : option (option text) :=
  match field with
  | FieldMethod => Some (Some (to_ascii_lowercase (method facts)))
  | FieldHost => Some (Some (to_ascii_lowercase (host facts)))
  | FieldPath => Some (Some (path facts))
  | FieldSubject => Some (authenticated_subject facts)
  | FieldAcr => Some (facts_achieved_acr facts)
  | FieldGroups | FieldRoles => None
  end.

(** Every value under any spelling of a header name, sorted. *)
Definition header_values (facts : RequestFacts) (name : text) : list text :=
  sort_texts (snd <$> filter (λ entry, eq_ignore_ascii_case entry.1 name = true)
                        (map_to_list (headers facts))).

Definition key_for_with (deps : FactDependencies) (gen : Z) (facts : RequestFacts) : DecisionKey :=
  mkKey gen
    (omap (λ field, (λ value, (field, value)) <$> field_value facts field)
       (filter (λ field, field ∈ fields deps) ALL_FIELDS))
    ((λ name, (name, header_values facts name)) <$> sort_texts (elements (dep_headers deps)))
    (if reads deps FieldGroups then Some (sort_texts (groups facts)) else None)
    (if reads deps FieldRoles then Some (sort_texts (roles facts)) else None).

Definition key_for {S} (c : CachedRuleSet S) (facts : RequestFacts) : DecisionKey :=
  key_for_with (cache_dependencies c) (cache_generation c) facts.

Definition cached_decide {S} `{DecisionStore S} (c : CachedRuleSet S) (facts : RequestFacts) (now : Z)
    : CachedDecision * CachedRuleSet S :=
  let key := key_for c facts in
  match store_get (cache_store c) key now with
  | Hit decision => (mkCached decision true true, c)
  | Miss =>
      let decision := decide_rules (cache_rules c) facts in
      (mkCached decision false true,
       mkCachedRuleSet (cache_rules c) (cache_dependencies c) (cache_generation c)
         (store_put (cache_store c) key decision now))
  | Unavailable => (mkCached (decide_rules (cache_rules c) facts) false false, c)
  end.

End Cache.

Arguments mkCachedRuleSet {_ S}.
Arguments cache_rules {_ S}.
Arguments cache_dependencies {_ S}.
Arguments cache_generation {_ S}.
Arguments cache_store {_ S}.

(** ** The in-process store *)

Record MemoryStore : Type := mkMemoryStore {
  ttl : Z;
  max_entries : nat;
  entries : gmap DecisionKey (Decision * Z)
}.

Definition DEFAULT_MAX_DECISIONS : N := 100000.

Definition MemoryStore_new (ttl : Z) : MemoryStore :=
  mkMemoryStore ttl (N.to_nat DEFAULT_MAX_DECISIONS) ∅.

Definition with_max_entries (s : MemoryStore) (n : nat) : MemoryStore :=
  mkMemoryStore (ttl s) (Nat.max n 1) (entries s).

Definition memory_len (s : MemoryStore) : nat := size (entries s).

(** [Instant::checked_duration_since]. *)
Definition checked_duration_since (now stored : Z) : option Z :=
  if (stored <=? now)%Z then Some (now - stored)%Z else None.

Definition memory_get (s : MemoryStore) (key : DecisionKey) (now : Z) : CacheOutcome :=
  match entries s !! key with
  | None => Miss
  | Some (decision, stored) =>
      match checked_duration_since now stored with
      | None => Miss
      | Some age => if (ttl s <=? age)%Z then Miss else Hit decision
      end
  end.

(** The order in which a hash map iterates. *)
Class HashIteration := { hash_iter : gmap DecisionKey (Decision * Z) → list (DecisionKey * (Decision * Z)) }.
Class HashIterationLaws `{HashIteration} : Prop := {
  hash_iter_permutation m : hash_iter m ≡ₚ map_to_list m
}.

(** [sort_by_key] on the instant: a stable insertion sort. *)
Fixpoint insert_by_age (x : DecisionKey * Z) (l : list (DecisionKey * Z)) : list (DecisionKey * Z) :=
  match l with
  | [] => [x]
  | y :: rest => if (x.2 <=? y.2)%Z then x :: l else y :: insert_by_age x rest
  end.
Definition sort_by_age (l : list (DecisionKey * Z)) : list (DecisionKey * Z) := foldr insert_by_age [] l.

Section Memory.
Context `{HashIteration}.

(** The pass that drops expired entries. *)
Definition is_live (s : MemoryStore) (now stored : Z) : bool :=
  from_option (λ age, age <? ttl s)%Z false (checked_duration_since now stored).

Definition retain_live (s : MemoryStore) (now : Z) : gmap DecisionKey (Decision * Z) :=
  filter (λ entry, is_live s now entry.2.2 = true) (entries s).

(** The pass that drops the oldest. *)
Definition by_age (m : gmap DecisionKey (Decision * Z)) : list (DecisionKey * Z) :=
  sort_by_age ((λ entry, (entry.1, entry.2.2)) <$> hash_iter m).

Definition evict_oldest (limit : nat) (m : gmap DecisionKey (Decision * Z))
    : gmap DecisionKey (Decision * Z) :=
  let excess := size m + 1 - limit in
  foldl (λ m victim, delete victim.1 m) m (take excess (by_age m)).

Definition memory_put (s : MemoryStore) (key : DecisionKey) (decision : Decision) (now : Z) : MemoryStore :=
  let m := if max_entries s <=? size (entries s) then retain_live s now else entries s in
  let m := if max_entries s <=? size m then evict_oldest (max_entries s) m else m in
  mkMemoryStore (ttl s) (max_entries s) (<[key := (decision, now)]> m).

#[export] Instance memory_store : DecisionStore MemoryStore :=
  {| store_get := memory_get; store_put := memory_put |}.

End Memory.

(** ** Sorted strings *)

#[export] Instance text_le_total : Total text_le.
Proof.
  intros a. unfold text_le. induction a as [|x a IH]; intros [|y b]; simpl; auto.
  destruct (Z.ltb_spec (code x) (code y)), (Z.ltb_spec (code y) (code x)); auto.
  destruct (Z.eqb_spec (code x) (code y)), (Z.eqb_spec (code y) (code x)); try lia. apply IH.
Qed.

#[export] Instance text_le_trans : Transitive text_le.
Proof.
  intros a. unfold text_le. induction a as [|x a IH]; intros [|y b] [|z c]; simpl; try done.
  destruct (Z.ltb_spec (code x) (code y)), (Z.eqb_spec (code x) (code y)),
    (Z.ltb_spec (code y) (code z)), (Z.eqb_spec (code y) (code z)); try done; try lia;
    destruct (Z.ltb_spec (code x) (code z)), (Z.eqb_spec (code x) (code z)); try done; try lia.
  apply IH.
Qed.

#[export] Instance text_le_antisymm : AntiSymm (=) text_le.
Proof.
  intros a. unfold text_le. induction a as [|x a IH]; intros [|y b]; simpl; try done.
  destruct (Z.ltb_spec (code x) (code y)), (Z.ltb_spec (code y) (code x)); try lia;
    destruct (Z.eqb_spec (code x) (code y)), (Z.eqb_spec (code y) (code x)); try done; try lia.
  intros H1 H2. f_equal; [by apply code_inj|by apply IH].
Qed.

Lemma sort_texts_perm l : sort_texts l ≡ₚ l.
Proof. apply merge_sort_Permutation. Qed.

(** Sorting forgets the order, and nothing else. *)
Lemma sort_texts_eq l l' : sort_texts l = sort_texts l' ↔ l ≡ₚ l'.
Proof.
  split; intros Heq.
  - by rewrite <-(sort_texts_perm l), <-(sort_texts_perm l'), Heq.
  - apply (StronglySorted_unique text_le); [apply (StronglySorted_merge_sort text_le)..|].
    by rewrite !sort_texts_perm.
Qed.

(** ** Case folding *)

Lemma lower_char_idemp c : lower_char (lower_char c) = lower_char c.
Proof. by destruct c as [[] [] [] [] [] [] [] []]. Qed.

Lemma to_ascii_lowercase_idemp s : to_ascii_lowercase (to_ascii_lowercase s) = to_ascii_lowercase s.
Proof.
  unfold to_ascii_lowercase. rewrite <-list_fmap_compose. apply list_fmap_ext.
  intros i c _. apply lower_char_idemp.
Qed.

Lemma eq_ignore_ascii_case_lower a b : eq_ignore_ascii_case a (to_ascii_lowercase b) = eq_ignore_ascii_case a b.
Proof. unfold eq_ignore_ascii_case. by rewrite to_ascii_lowercase_idemp. Qed.

Lemma existsb_elem {A} (f : A → bool) l : existsb f l = true ↔ ∃ x, x ∈ l ∧ f x = true.
Proof. rewrite existsb_exists. by setoid_rewrite list_elem_of_In. Qed.

Lemma existsb_iff {A B} (f : A → bool) (g : B → bool) l k :
  ((∃ x, x ∈ l ∧ f x = true) ↔ ∃ y, y ∈ k ∧ g y = true) → existsb f l = existsb g k.
Proof. intros Hiff. apply eq_iff_eq_true. by rewrite !existsb_elem. Qed.

(** ** Keys cover what rules read *)

(** Two sets of facts agree on everything a dependency set reads. *)
Record agree_on (deps : FactDependencies) (f f' : RequestFacts) : Prop := {
  agree_value field : field ∈ fields deps → field_value f field = field_value f' field;
  agree_headers name : name ∈ dep_headers deps → header_values f name = header_values f' name;
  agree_groups : FieldGroups ∈ fields deps → groups f ≡ₚ groups f';
  agree_roles : FieldRoles ∈ fields deps → roles f ≡ₚ roles f'
}.

Lemma omap_pair_eq (v v' : FactField → option (option text)) l :
  (∀ x, is_Some (v x) ↔ is_Some (v' x)) →
  omap (λ x, (λ y, (x, y)) <$> v x) l = omap (λ x, (λ y, (x, y)) <$> v' x) l ↔
  Forall (λ x, v x = v' x) l.
Proof.
  intros Hsome. induction l as [|x l IH]; [done|]. rewrite Forall_cons, <-IH. specialize (Hsome x).
  change (omap ?g (x :: l)) with (match g x with Some y => y :: omap g l | None => omap g l end).
  destruct (v x) as [y|] eqn:Hy, (v' x) as [y'|] eqn:Hy'; rewrite ?Hy, ?Hy'; simpl;
    unfold is_Some in Hsome.
  - split; [by intros [= -> ->]|]. by intros [[= ->] ->].
  - by destruct (proj1 Hsome (ex_intro _ y eq_refl)) as [? ?].
  - by destruct (proj2 Hsome (ex_intro _ y' eq_refl)) as [? ?].
  - tauto.
Qed.

Lemma field_value_is_Some f f' field : is_Some (field_value f field) ↔ is_Some (field_value f' field).
Proof. destruct field; simpl; split; eauto. Qed.

Lemma elem_of_ALL_FIELDS f : f ∈ ALL_FIELDS.
Proof. destruct f; unfold ALL_FIELDS; set_solver. Qed.

(** Equal keys under one dependency set mean agreement, and conversely. *)
Lemma key_agree deps gen f f' :
  key_for_with deps gen f = key_for_with deps gen f' ↔ agree_on deps f f'.
Proof.
  unfold key_for_with, reads. split.
  - intros [= Hf Hh Hg Hr]. split.
    + intros field Hin. apply omap_pair_eq in Hf; [|intros; apply field_value_is_Some].
      rewrite list.Forall_forall in Hf. apply Hf, list_elem_of_filter. auto using elem_of_ALL_FIELDS.
    + intros name Hin.
      assert (Forall (λ n, header_values f n = header_values f' n) (sort_texts (elements (dep_headers deps)))) as Hall.
      { revert Hh. induction (sort_texts (elements (dep_headers deps))) as [|n l IH]; intros Hh; [constructor|].
        injection Hh as Hn Hl. constructor; auto. }
      rewrite list.Forall_forall in Hall. apply Hall. rewrite sort_texts_perm. by apply elem_of_elements.
    + intros Hin. rewrite bool_decide_eq_true_2 in Hg by done. apply sort_texts_eq. congruence.
    + intros Hin. rewrite bool_decide_eq_true_2 in Hr by done. apply sort_texts_eq. congruence.
  - intros [Hv Hh Hg Hr]. f_equal.
    + apply omap_pair_eq; [intros; apply field_value_is_Some|]. apply list.Forall_forall.
      intros field [Hin _]%list_elem_of_filter. auto.
    + apply list_fmap_ext. intros i name Hi. f_equal. apply Hh.
      apply list_elem_of_lookup_2 in Hi. rewrite sort_texts_perm in Hi. by apply elem_of_elements.
    + case_bool_decide; [|done]. f_equal. apply sort_texts_eq. auto.
    + case_bool_decide; [|done]. f_equal. apply sort_texts_eq. auto.
Qed.

(** ** Agreement is enough *)

Definition deps_le (d d' : FactDependencies) : Prop :=
  fields d ⊆ fields d' ∧ dep_headers d ⊆ dep_headers d'.

#[export] Instance deps_le_preorder : PreOrder deps_le.
Proof. split; [split; set_solver|]. intros a b c [? ?] [? ?]. split; set_solver. Qed.

Section Coverage.
Context `{RegexEngine} `{DebugFormat} `{Hasher}.

(** What one criterion reads. *)
Definition criterion_reads (c : Criterion) : FactDependencies := criterion_dependencies no_dependencies c.

Lemma criterion_dependencies_le deps c :
  deps_le deps (criterion_dependencies deps c) ∧
  deps_le (criterion_reads c) (criterion_dependencies deps c).
Proof.
  unfold criterion_reads. destruct c as [| | | | |[]|]; simpl; unfold deps_le; simpl; set_solver.
Qed.

Lemma criteria_dependencies_le cs : ∀ deps,
  deps_le deps (foldl criterion_dependencies deps cs) ∧
  ∀ c, c ∈ cs → deps_le (criterion_reads c) (foldl criterion_dependencies deps cs).
Proof.
  induction cs as [|c cs IH]; intros deps; [split; [done|set_solver]|]. simpl.
  destruct (IH (criterion_dependencies deps c)) as [Hle Hall].
  destruct (criterion_dependencies_le deps c) as [Hd1 Hd2]. split; [by etrans|].
  intros c' [->|Hc']%elem_of_cons; [by etrans|by apply Hall].
Qed.

(** What one rule reads is covered. *)
Definition rule_covered (deps : FactDependencies) (rule : Rule) : Prop :=
  (∀ c, c ∈ criteria rule → deps_le (criterion_reads c) deps) ∧
  (∀ acr, action rule = StepUp acr → FieldAcr ∈ fields deps).

Lemma rule_covered_le deps deps' rule : deps_le deps deps' → rule_covered deps rule → rule_covered deps' rule.
Proof.
  intros Hle [Hc Ha]. split; [intros c Hin; etrans; [by apply Hc|done]|].
  intros acr Hacr. apply Hle. by eapply Ha.
Qed.

Lemma rule_dependencies_le deps rule :
  deps_le deps (rule_dependencies deps rule) ∧ rule_covered (rule_dependencies deps rule) rule.
Proof.
  unfold rule_dependencies. destruct (criteria_dependencies_le (criteria rule) deps) as [Hle Hall].
  set (d := foldl criterion_dependencies deps (criteria rule)) in *.
  assert (deps_le d (read_field FieldAcr d)) as Hr by (split; simpl; set_solver).
  unfold rule_covered. destruct (action rule) as [| |acr] eqn:Ha.
  - split; [done|]. by split.
  - split; [done|]. by split.
  - split; [by etrans|]. split; [intros c Hc; etrans; [by apply Hall|done]|]. intros _ _. simpl. set_solver.
Qed.

Lemma rules_dependencies_le l : ∀ deps,
  deps_le deps (foldl rule_dependencies deps l) ∧
  ∀ rule, rule ∈ l → rule_covered (foldl rule_dependencies deps l) rule.
Proof.
  induction l as [|r l IH]; intros deps; [split; [done|set_solver]|]. simpl.
  destruct (IH (rule_dependencies deps r)) as [Hle Hall].
  destruct (rule_dependencies_le deps r) as [Hd1 Hd2]. split; [by etrans|].
  intros rule [->|Hr]%elem_of_cons; [by eapply rule_covered_le|by apply Hall].
Qed.

(** Every rule of a rule set is covered by its dependencies. *)
Lemma dependencies_cover rs rule : rule ∈ rules rs → rule_covered (dependencies rs) rule.
Proof. apply rules_dependencies_le. Qed.

(** The value a header criterion looks for is among the values of the key. *)
Lemma header_matches_values facts name value :
  existsb (λ entry, eq_ignore_ascii_case entry.1 name && bool_decide (entry.2 = value))
    (map_to_list (headers facts)) = true ↔
  value ∈ header_values facts (to_ascii_lowercase name).
Proof.
  unfold header_values. rewrite sort_texts_perm, list_elem_of_fmap, existsb_elem.
  setoid_rewrite list_elem_of_filter. setoid_rewrite andb_true_iff.
  setoid_rewrite eq_ignore_ascii_case_lower. setoid_rewrite bool_decide_eq_true. naive_solver.
Qed.

Lemma existsb_permutation {A} (f : A → bool) l k : l ≡ₚ k → existsb f l = existsb f k.
Proof. intros Hp. apply existsb_iff. by setoid_rewrite Hp. Qed.

(** A criterion decides alike on facts that agree on what it reads. *)
Lemma matches_agree deps f f' c caps order : deps_le (criterion_reads c) deps → agree_on deps f f' →
  matches c f caps order = matches c f' caps order.
Proof.
  intros [Hf Hh] [Av Ah Ag Ar].
  assert (∀ field, field ∈ fields (criterion_reads c) → field_value f field = field_value f' field) as Hv
    by (intros; apply Av; set_solver).
  destruct c as [allowed|h|prefix|pattern|name value|check|floor]; simpl in *.
  - specialize (Hv FieldMethod ltac:(set_solver)). simplify_eq/=. unfold eq_ignore_ascii_case. by rewrite Hv.
  - specialize (Hv FieldHost ltac:(set_solver)). simplify_eq/=. unfold eq_ignore_ascii_case. by rewrite Hv.
  - specialize (Hv FieldPath ltac:(set_solver)). simplify_eq/=. by rewrite Hv.
  - specialize (Hv FieldPath ltac:(set_solver)). simplify_eq/=. by rewrite Hv.
  - f_equal. apply eq_iff_eq_true. rewrite !header_matches_values. rewrite Ah; [done|set_solver].
  - assert (authenticated_subject f = authenticated_subject f') as Hs.
    { specialize (Hv FieldSubject ltac:(destruct check; simpl; set_solver)). by simplify_eq/=. }
    f_equal. unfold subject_matches. rewrite Hs. destruct check; try done.
    + f_equal. apply existsb_permutation, Ag. set_solver.
    + f_equal. apply existsb_permutation, Ar. set_solver.
  - specialize (Hv FieldAcr ltac:(set_solver)). simplify_eq/=. by rewrite Hv.
Qed.

Lemma first_failing_agree deps f f' order cs : ∀ caps i,
  (∀ c, c ∈ cs → deps_le (criterion_reads c) deps) → agree_on deps f f' →
  first_failing_from order f caps i cs = first_failing_from order f' caps i cs.
Proof.
  induction cs as [|c cs IH]; intros caps i Hc Ha; [done|]. simpl.
  rewrite (matches_agree deps f f') by (done || (apply Hc; by left)).
  destruct (matches c f' caps order) as [[] caps']; [|done]. apply IH; [|done].
  intros c' Hc'. apply Hc. by right.
Qed.

Lemma rule_matches_agree deps rs f f' rule : rule_covered deps rule → agree_on deps f f' →
  rule_matches rs f rule = rule_matches rs f' rule ∧
  resolve_action rs (action rule) f = resolve_action rs (action rule) f'.
Proof.
  intros [Hc Ha] Hag. split.
  - unfold rule_matches, first_failing_criterion. by rewrite (first_failing_agree deps f f').
  - unfold resolve_action. destruct (action rule) as [| |acr] eqn:Hact; [done|done|].
    pose proof (agree_value _ _ _ Hag FieldAcr (Ha acr eq_refl)) as Hv. simplify_eq/=. by rewrite Hv.
Qed.

(** Facts that agree on what a rule set reads get one decision. *)
Lemma decide_agree rs f f' : agree_on (dependencies rs) f f' → decide_rules rs f = decide_rules rs f'.
Proof.
  intros Hag. rewrite !decide_rules_first_match. unfold first_match.
  pose proof (dependencies_cover rs) as Hcov. induction (rules rs) as [|rule l IH] in Hcov |- *; [done|].
  simpl. destruct (rule_matches_agree (dependencies rs) rs f f' rule) as [Hm Hr]; [apply Hcov; by left|done|].
  rewrite Hm. destruct (rule_matches rs f' rule); [by rewrite Hr|]. apply IH. intros r Hin. apply Hcov. by right.
Qed.

End Coverage.

(** ** What a fingerprint covers *)

Section Fingerprint.
Context `{RegexEngineLaws} `{DebugFormatLaws} `{Hasher}.

(** The criteria whose rendering is not that of another one: a literal subject is not
    spelled like one of the two states, and a pattern was compiled by [Regex::new], as
    the conversion of the configured rules does. *)
Definition unambiguous (c : Criterion) : Prop :=
  match c with
  | Subject (Is s) => s ≠ lit "authenticated" ∧ s ≠ lit "anonymous"
  | PathMatches r => ∃ pattern, regex_new pattern = Some r
  | _ => True
  end.

Definition unambiguous_rules (rs : RuleSet) : Prop :=
  Forall (λ rule, Forall unambiguous (criteria rule)) (rules rs).

(** Patterns compiled by [Regex::new] are told apart by their text. *)
Lemma compiled_inj r r' : (∃ pattern, regex_new pattern = Some r) →
  (∃ pattern, regex_new pattern = Some r') → as_str r = as_str r' → r = r'.
Proof.
  intros [pattern Hr] [pattern' Hr'] Heq. rewrite (as_str_new _ _ Hr), (as_str_new _ _ Hr') in Heq. congruence.
Qed.

(** A criterion is read back from what is hashed for it. *)
Lemma hash_criterion_inj c c' l l' : unambiguous c → unambiguous c' →
  hash_criterion c ++ l = hash_criterion c' ++ l' → c = c' ∧ l = l'.
Proof.
  intros Hu Hu' Heq. unfold hash_criterion in Heq. simpl in Heq. injection Heq as Hd Hl.
  destruct c as [a|h|p|r|n v|[s|g|ro|cp| |]|fl], c' as [a'|h'|p'|r'|n' v'|[s'|g'|ro'|cp'| |]|fl'];
    simpl in Hd, Hl, Hu, Hu'; try discriminate Hd; try (injection Hd as Hd); simpl; subst;
    try (split; [congruence|done]); try naive_solver.
  - by apply fmt_debug_inj in Hd as ->.
  - split; [|done]. apply app_inj_2 in Hd as [Hd _]; [|done]. f_equal. by apply compiled_inj.
  - apply app_inj_2 in Hd as [-> _]; [|done]. by injection Hl as -> ->.
Qed.

Lemma hash_criteria_inj cs : ∀ cs' l l', length cs = length cs' →
  Forall unambiguous cs → Forall unambiguous cs' →
  concat (hash_criterion <$> cs) ++ l = concat (hash_criterion <$> cs') ++ l' →
  cs = cs' ∧ l = l'.
Proof.
  induction cs as [|c cs IH]; intros [|c' cs'] l l' Hlen Hu Hu' Heq; try done.
  apply Forall_cons in Hu as [Hc Hcs]. apply Forall_cons in Hu' as [Hc' Hcs'].
  change (concat (hash_criterion <$> ?x :: ?k)) with (hash_criterion x ++ concat (hash_criterion <$> k)) in Heq.
  rewrite <-!app_assoc in Heq. apply hash_criterion_inj in Heq as [-> Heq]; [|done..].
  by apply IH in Heq as [-> ->]; [|by injection Hlen|..].
Qed.

Lemma hash_action_inj a a' l l' : hash_action a ++ l = hash_action a' ++ l' → a = a' ∧ l = l'.
Proof. destruct a, a'; simpl; intros [=]; by subst. Qed.

Lemma hash_rule_inj r r' l l' : Forall unambiguous (criteria r) → Forall unambiguous (criteria r') →
  hash_rule r ++ l = hash_rule r' ++ l' → r = r' ∧ l = l'.
Proof.
  intros Hu Hu' Heq. unfold hash_rule in Heq. simpl in Heq. injection Heq as Hn Hlen Heq.
  rewrite <-!app_assoc in Heq. apply hash_criteria_inj in Heq as [Hc Heq]; [|done..].
  apply hash_action_inj in Heq as [Ha ->]. destruct r, r'; simpl in *. by subst.
Qed.

Lemma hash_rules_inj rl : ∀ rl' l l', length rl = length rl' →
  Forall (λ r, Forall unambiguous (criteria r)) rl → Forall (λ r, Forall unambiguous (criteria r)) rl' →
  concat (hash_rule <$> rl) ++ l = concat (hash_rule <$> rl') ++ l' →
  rl = rl' ∧ l = l'.
Proof.
  induction rl as [|c rl IH]; intros [|c' rl'] l l' Hlen Hu Hu' Heq; try done.
  apply Forall_cons in Hu as [Hc Hcs]. apply Forall_cons in Hu' as [Hc' Hcs'].
  change (concat (hash_rule <$> ?x :: ?k)) with (hash_rule x ++ concat (hash_rule <$> k)) in Heq.
  rewrite <-!app_assoc in Heq. apply hash_rule_inj in Heq as [-> Heq]; [|done..].
  by apply IH in Heq as [-> ->]; [|by injection Hlen|..].
Qed.

(** The hashed stream determines an unambiguous rule set. *)
Lemma hash_stream_inj rs rs' : unambiguous_rules rs → unambiguous_rules rs' →
  hash_stream rs = hash_stream rs' → rs = rs'.
Proof.
  intros Hu Hu' Heq. unfold hash_stream in Heq. injection Heq as Hlen Heq.
  apply app_inj_1 in Heq as [Ho Heq]; [|by rewrite !length_fmap].
  injection Heq as Hrl Heq. apply (inj (fmap WStr)) in Ho.
  apply (f_equal (λ k, k ++ [])) in Heq. apply hash_rules_inj in Heq as [? _]; [|done..].
  destruct rs, rs'; simpl in *. by subst.
Qed.
End Fingerprint.

(** ** Replicas over one store *)

Section Replicas.
Context `{RegexEngineLaws} `{DebugFormatLaws} `{Hasher}.
Context {S : Type} `{DecisionStoreLaws S}.

(** A replica keeps its rules; the store is shared. *)
Abbreviation replica := (CachedRuleSet unit).

Definition over_store (c : replica) (s : S) : CachedRuleSet S :=
  mkCachedRuleSet (cache_rules c) (cache_dependencies c) (cache_generation c) s.

Inductive CacheOp : Type :=
| OpDecide (replica_index : nat) (facts : RequestFacts) (now : Z)
| OpReplace (replica_index : nat) (rs : RuleSet).

(** What the replicas answer, in order. *)
Fixpoint run_cached (replicas : list replica) (s : S) (ops : list CacheOp) : list Decision :=
  match ops with
  | [] => []
  | OpDecide i facts now :: rest =>
      match replicas !! i with
      | None => run_cached replicas s rest
      | Some c =>
          let '(out, c') := cached_decide (over_store c s) facts now in
          cached_decision out :: run_cached replicas (cache_store c') rest
      end
  | OpReplace i rs :: rest => run_cached (alter (λ c, replace_rules c rs) i replicas) s rest
  end.

(** The specification: every replica evaluates its current rules. *)
Fixpoint run_uncached (replicas : list RuleSet) (ops : list CacheOp) : list Decision :=
  match ops with
  | [] => []
  | OpDecide i facts now :: rest =>
      match replicas !! i with
      | None => run_uncached replicas rest
      | Some rs => decide_rules rs facts :: run_uncached replicas rest
      end
  | OpReplace i rs :: rest => run_uncached (alter (λ _, rs) i replicas) rest
  end.

Definition replaced (ops : list CacheOp) : list RuleSet :=
  omap (λ op, match op with OpReplace _ rs => Some rs | _ => None end) ops.

(** The rule sets of a run can be told apart by their fingerprints. *)
Definition separated (universe : list RuleSet) : Prop :=
  Forall unambiguous_rules universe ∧
  ∀ rs rs', rs ∈ universe → rs' ∈ universe → fingerprint rs = fingerprint rs' →
    hash_stream rs = hash_stream rs'.

(** Every answer the store could give is right for every rule set of the run. *)
Definition store_sound (universe : list RuleSet) (s : S) : Prop :=
  ∀ k d, store_holds s k d → ∀ rs f, rs ∈ universe →
    key_for_with (dependencies rs) (fingerprint rs) f = k → d = decide_rules rs f.

Lemma equal_keys_decide universe rs rs' f f' : separated universe → rs ∈ universe → rs' ∈ universe →
  key_for_with (dependencies rs) (fingerprint rs) f =
  key_for_with (dependencies rs') (fingerprint rs') f' →
  decide_rules rs f = decide_rules rs' f'.
Proof.
  intros [Hu Hsep] Hin Hin' Hk. rewrite list.Forall_forall in Hu.
  assert (rs = rs') as ->.
  { apply hash_stream_inj; auto. apply Hsep; auto. by injection Hk. }
  by apply decide_agree, (key_agree _ (fingerprint rs')).
Qed.

Lemma store_sound_put universe s rs f now : separated universe → rs ∈ universe → store_sound universe s →
  store_sound universe
    (store_put s (key_for_with (dependencies rs) (fingerprint rs) f) (decide_rules rs f) now).
Proof.
  intros Hsep Hrs Hs k d Hh rs' f' Hrs' Hk. apply store_put_holds in Hh as [[-> ->]|Hh]; [|by eapply Hs].
  by eapply equal_keys_decide.
Qed.

(** A replica in step with its rules. *)
Definition in_step (universe : list RuleSet) (c : replica) : Prop :=
  cache_rules c ∈ universe ∧ cache_dependencies c = dependencies (cache_rules c) ∧
  cache_generation c = fingerprint (cache_rules c).

Lemma cached_decide_sound universe c s facts now : separated universe → in_step universe c →
  store_sound universe s →
  let '(out, c') := cached_decide (over_store c s) facts now in
  cached_decision out = decide_rules (cache_rules c) facts ∧ store_sound universe (cache_store c').
Proof.
  intros Hsep (Hin & Hd & Hg) Hs. unfold cached_decide, key_for, over_store. simpl. rewrite Hd, Hg.
  destruct (store_get s _ now) as [d| |] eqn:Hget; simpl.
  - split; [|done]. by eapply Hs; [eapply store_get_holds|..].
  - split; [done|]. by apply store_sound_put.
  - done.
Qed.

Lemma run_cached_uncached universe ops : ∀ replicas s, separated universe →
  Forall (in_step universe) replicas → replaced ops ⊆ universe → store_sound universe s →
  run_cached replicas s ops = run_uncached (cache_rules <$> replicas) ops.
Proof.
  induction ops as [|[i facts now|i rs] ops IH]; intros replicas s Hsep Hr Hu Hs; [done|..]; simpl.
  - rewrite list_lookup_fmap. destruct (replicas !! i) as [c|] eqn:Hi; simpl; [|by apply IH].
    assert (in_step universe c) as Hc by (by eapply Forall_lookup_1).
    pose proof (cached_decide_sound universe c s facts now Hsep Hc Hs) as Hd.
    destruct (cached_decide (over_store c s) facts now) as [out c']. destruct Hd as [-> Hs'].
    f_equal. by apply IH.
  - change (replaced (OpReplace i rs :: ops)) with (rs :: replaced ops) in Hu.
    assert (rs ∈ universe) as Hrs by (apply Hu; by left).
    rewrite (IH (alter (λ c, replace_rules c rs) i replicas)); [|done| |set_solver|done].
    + f_equal. apply list_eq. intros j. rewrite list_lookup_fmap.
      destruct (decide (i = j)) as [->|Hne].
      * rewrite !list_lookup_alter_eq, list_lookup_fmap. by destruct (replicas !! j).
      * rewrite !list_lookup_alter_ne by done. by rewrite list_lookup_fmap.
    + apply Forall_alter; [done|]. intros c Hc _. split; [done|by split].
Qed.

(** C20 (refinement): the cache is invisible.  Any number of replicas over one shared store,
    starting from a store that holds nothing wrong, answer every sequence of requests and
    rule changes exactly as evaluating each replica's current rules afresh would, when the
    rule sets of the run do not spell a literal subject like a state, have their patterns
    from [Regex::new], and their hashes do not collide.  A rule change therefore takes effect at the next request of its replica,
    whatever the other replicas stored. *)
Theorem cache_refines_evaluation replicas s ops :
  let universe := replicas ++ replaced ops in
  separated universe → store_sound universe s →
  run_cached ((λ rs, CachedRuleSet_new rs tt) <$> replicas) s ops = run_uncached replicas ops.
Proof.
  intros universe Hsep Hs. rewrite (run_cached_uncached universe); [|done| |set_solver|done].
  - rewrite <-list_fmap_compose. f_equal. by apply list_fmap_id.
  - apply Forall_fmap, list.Forall_forall. intros rs Hrs. split; [simpl; set_solver|done].
Qed.

End Replicas.

(** C21 (safety): the key covers the decision.  Under one rule set, two requests with the
    same key get the same decision; and two requests have the same key exactly when they
    agree on every fact the rules read, where the method and the host count up to case,
    every value of a header counts under any spelling of its name, a blank subject or level
    counts as none, and memberships count as sets. *)
Theorem equal_keys_equal_decisions `{RegexEngine} `{DebugFormat} `{Hasher} rs f f' :
  (key_for (CachedRuleSet_new rs tt) f = key_for (CachedRuleSet_new rs tt) f' ↔
   agree_on (dependencies rs) f f') ∧
  (key_for (CachedRuleSet_new rs tt) f = key_for (CachedRuleSet_new rs tt) f' →
   decide_rules rs f = decide_rules rs f').
Proof.
  unfold key_for. simpl. split; [apply key_agree|]. intros Hk%key_agree. by apply decide_agree.
Qed.

(** ** The in-process store *)

Section MemoryLemmas.
Context `{HashIterationLaws}.

Lemma memory_get_hit s k now d : memory_get s k now = Hit d →
  ∃ stored, entries s !! k = Some (d, stored) ∧ (stored ≤ now < stored + ttl s)%Z.
Proof.
  unfold memory_get, checked_duration_since. destruct (entries s !! k) as [[d' stored]|]; [|done].
  destruct (Z.leb_spec stored now); [|done]. destruct (Z.leb_spec (ttl s) (now - stored)); [done|].
  intros [= ->]. exists stored. split; [done|lia].
Qed.

Lemma insert_by_age_perm x l : insert_by_age x l ≡ₚ x :: l.
Proof.
  induction l as [|y l IH]; simpl; [done|]. destruct (_ <=? _)%Z; [done|]. rewrite IH. apply Permutation_swap.
Qed.

Lemma sort_by_age_perm l : sort_by_age l ≡ₚ l.
Proof. induction l as [|x l IH]; simpl; [done|]. by rewrite insert_by_age_perm, IH. Qed.

Lemma insert_by_age_sorted x l : StronglySorted (λ a b, a.2 ≤ b.2)%Z l →
  StronglySorted (λ a b, a.2 ≤ b.2)%Z (insert_by_age x l).
Proof.
  induction 1 as [|y l Hl IH Hy]; simpl; [repeat constructor|].
  destruct (Z.leb_spec (x.2) (y.2)).
  - constructor; [by constructor|]. constructor; [done|]. eapply Forall_impl; [exact Hy|]. simpl. lia.
  - constructor; [done|]. rewrite insert_by_age_perm. constructor; [lia|done].
Qed.

Lemma sort_by_age_sorted l : StronglySorted (λ a b, a.2 ≤ b.2)%Z (sort_by_age l).
Proof. induction l as [|x l IH]; simpl; [constructor|]. by apply insert_by_age_sorted. Qed.

Lemma by_age_perm m : by_age m ≡ₚ (λ entry, (entry.1, entry.2.2)) <$> map_to_list m.
Proof. unfold by_age. by rewrite sort_by_age_perm, hash_iter_permutation. Qed.

Lemma by_age_keys_nodup m : NoDup (by_age m).*1.
Proof.
  rewrite by_age_perm, <-list_fmap_compose.
  change (fst ∘ (λ entry : DecisionKey * (Decision * Z), (entry.1, entry.2.2))) with
    (fst : DecisionKey * (Decision * Z) → DecisionKey).
  apply NoDup_fst_map_to_list.
Qed.

Lemma elem_of_by_age m k t : (k, t) ∈ by_age m ↔ ∃ d, m !! k = Some (d, t).
Proof.
  rewrite by_age_perm, list_elem_of_fmap. setoid_rewrite <-elem_of_map_to_list. split.
  - intros ([k' [d t']] & [= -> ->] & Hin). eauto.
  - intros [d Hin]. by exists (k, (d, t)).
Qed.

(** Deleting listed keys. *)
Lemma delete_all_lookup (victims : list (DecisionKey * Z)) k : ∀ m : gmap DecisionKey (Decision * Z),
  foldl (λ m v, delete v.1 m) m victims !! k = if decide (k ∈ victims.*1) then None else m !! k.
Proof.
  induction victims as [|v victims IH]; intros m; simpl; [done|]. rewrite IH.
  destruct (decide (k = v.1)) as [->|Hne].
  - rewrite lookup_delete_eq. repeat case_decide; set_solver.
  - rewrite lookup_delete_ne by done. repeat case_decide; set_solver.
Qed.

Lemma delete_all_size (victims : list (DecisionKey * Z)) : ∀ m : gmap DecisionKey (Decision * Z),
  NoDup victims.*1 → (∀ v, v ∈ victims → is_Some (m !! v.1)) →
  size (foldl (λ m v, delete v.1 m) m victims) = size m - length victims.
Proof.
  induction victims as [|v victims IH]; intros m Hnd Hin; simpl; [lia|].
  apply NoDup_cons in Hnd as [Hv Hnd]. rewrite IH; [|done|].
  - rewrite map_size_delete_Some by (apply Hin; by left). lia.
  - intros w Hw. rewrite lookup_delete_ne; [apply Hin; by right|].
    intros Heq. apply Hv. rewrite Heq. by apply list_elem_of_fmap_2.
Qed.

Lemma by_age_length m : length (by_age m) = size m.
Proof. by rewrite by_age_perm, length_fmap, length_map_to_list. Qed.

Lemma evict_oldest_size limit m : limit ≤ size m → 1 ≤ limit → size (evict_oldest limit m) = limit - 1.
Proof.
  intros Hle Hlim. unfold evict_oldest. rewrite delete_all_size.
  - rewrite length_take, by_age_length. lia.
  - rewrite fmap_take. pose proof (by_age_keys_nodup m) as Hnd.
    rewrite <-(take_drop (size m + 1 - limit)) in Hnd. by apply NoDup_app in Hnd as [? _].
  - intros [k t] Hin. assert ((k, t) ∈ by_age m) as Hb by (by eapply elem_of_take in Hin as (? & ? & _);
      eapply list_elem_of_lookup_2).
    apply elem_of_by_age in Hb as [d Hd]. eauto.
Qed.
(** The entries an insertion keeps. *)
Lemma evict_oldest_lookup limit m k x : evict_oldest limit m !! k = Some x →
  m !! k = Some x ∧ ∀ k' d' t', m !! k' = Some (d', t') → evict_oldest limit m !! k' = None →
    (t' ≤ x.2)%Z.
Proof.
  unfold evict_oldest. set (excess := size m + 1 - limit). rewrite delete_all_lookup.
  case_decide as Hk; [done|]. intros Hx. split; [done|]. intros k' d' t' Hk'.
  rewrite delete_all_lookup. case_decide as Hv; [|congruence]. intros _.
  destruct x as [d t].
  assert ((k, t) ∈ by_age m) as Hin by (apply elem_of_by_age; eauto).
  pose proof (sort_by_age_sorted ((λ entry, (entry.1, entry.2.2)) <$> hash_iter m)) as Hs.
  change (sort_by_age _) with (by_age m) in Hs.
  apply list_elem_of_fmap in Hv as ([k2 t2] & -> & Hv). simpl in *.
  assert ((k2, t2) ∈ by_age m) as Hv'.
  { rewrite <-(take_drop excess (by_age m)). apply elem_of_app. by left. }
  apply elem_of_by_age in Hv' as [d2 Hd2]. rewrite Hk' in Hd2. injection Hd2 as <- <-.
  rewrite <-(take_drop excess (by_age m)) in Hin, Hs.
  apply elem_of_app in Hin as [Hin|Hin]; [destruct Hk; by apply (list_elem_of_fmap_2 fst _ (k, t))|].
  exact (StronglySorted_app_1_elem_of _ _ _ _ _ Hs Hv Hin).
Qed.

(** The in-process store is bounded in time and in space.  A decision is
    served only at an instant not before it was stored and less than the bound after; the
    store never holds more than its ceiling, however many distinct requests arrive; and
    what an insertion drops is expired, or no younger than everything kept. *)
Theorem memory_store_bounded s k d now : 1 ≤ max_entries s → memory_len s ≤ max_entries s →
  (∀ k' d' later, memory_get s k' later = Hit d' →
     ∃ stored, entries s !! k' = Some (d', stored) ∧ (stored ≤ later < stored + ttl s)%Z) ∧
  memory_len (memory_put s k d now) ≤ max_entries s ∧
  memory_get (memory_put s k d now) k now = (if (ttl s <=? 0)%Z then Miss else Hit d) ∧
  ∀ k' d' t', entries s !! k' = Some (d', t') → entries (memory_put s k d now) !! k' = None →
    is_live s now t' = false ∨
    ∀ k2 d2 t2, k2 ≠ k → entries (memory_put s k d now) !! k2 = Some (d2, t2) → (t' ≤ t2)%Z.
Proof.
  intros Hmax Hlen. unfold memory_len in *. split; [intros; by apply memory_get_hit|].
  unfold memory_put. simpl.
  set (m1 := if max_entries s <=? size (entries s) then retain_live s now else entries s).
  assert (∀ k', m1 !! k' = entries s !! k' ∨ m1 !! k' = None ∧
    ∀ d' t', entries s !! k' = Some (d', t') → is_live s now t' = false) as Hm1.
  { intros k'. unfold m1, retain_live. destruct (_ <=? _); [|by left].
    rewrite map_lookup_filter. destruct (entries s !! k') as [[d' t']|]; simpl; [|by left].
    destruct (is_live s now t') eqn:Hl; simpl; [by left|right].
    split; [done|]. by intros ? ? [= <- <-]. }
  assert (size m1 ≤ size (entries s)) as Hsz.
  { apply map_subseteq_size, map_subseteq_spec. intros k' x Hx.
    destruct (Hm1 k') as [<-|[Hn _]]; [done|congruence]. }
  split; [|split].
  - rewrite map_size_insert. destruct (max_entries s <=? size m1) eqn:Hc.
    + apply Nat.leb_le in Hc. pose proof (evict_oldest_size _ _ Hc Hmax) as He. case_match; unfold id; lia.
    + apply Nat.leb_gt in Hc. case_match; unfold id; lia.
  - unfold memory_get, checked_duration_since. simpl. rewrite lookup_insert_eq.
    by rewrite Z.leb_refl, Z.sub_diag.
  - intros k' d' t' Hk'. destruct (decide (k = k')) as [->|Hne]; [by rewrite lookup_insert_eq|].
    rewrite lookup_insert_ne by done. intros Hgone. destruct (Hm1 k') as [Hk1|[_ Hdead]]; [|left; eauto].
    right. intros k2 d2 t2 Hk2. rewrite lookup_insert_ne by done.
    destruct (max_entries s <=? size m1); [|congruence]. intros Hx.
    apply evict_oldest_lookup in Hx as [_ Hold]. simpl in Hold. eapply Hold; [|done]. by rewrite Hk1.
Qed.

(** The in-process store keeps the promise of the interface. *)
#[export] Instance memory_store_laws : DecisionStoreLaws MemoryStore.
Proof.
  refine {| store_holds s k d := ∃ stored, entries s !! k = Some (d, stored) |}.
  - intros s k now d (stored & Hk & _)%memory_get_hit. eauto.
  - intros s k d now k' d' [stored Hk']. simpl in Hk'. unfold memory_put in Hk'. simpl in Hk'.
    destruct (decide (k = k')) as [->|Hne].
    + rewrite lookup_insert_eq in Hk'. injection Hk' as <- <-. by left.
    + rewrite lookup_insert_ne in Hk' by done. right. exists stored.
      revert Hk'. set (m1 := if max_entries s <=? size (entries s) then _ else _).
      assert (m1 ⊆ entries s) as Hsub.
      { unfold m1, retain_live. destruct (_ <=? _); [apply map_filter_subseteq|done]. }
      intros Hk'. eapply lookup_weaken; [|exact Hsub].
      destruct (max_entries s <=? size m1); [|done]. by apply evict_oldest_lookup in Hk' as [? _].
Defined.

End MemoryLemmas.

(** ** Concrete deployments *)

Module AccessSamples.

(** A pattern is a literal followed by one named group that takes the rest of the path. *)
#[export] Instance literal_engine : RegexEngine := {|
  Regex := list ascii;
  regex_new pattern := Some pattern;
  as_str r := r;
  captures_of r p := match strip_prefix r p with
                     | Some (c :: rest) => Some (mkCaptures 0 (length p) [(lit "uid", c :: rest)])
                     | _ => None
                     end
|}.

#[export] Instance literal_engine_laws : RegexEngineLaws.
Proof. split. simpl. by intros pattern r [= ->]. Qed.

(** Every character marked, every string closed. *)
Definition marked (s : text) : text := concat ((λ c, [ "."%char; c ]) <$> s) ++ [";"%char].

#[export] Instance marked_format : DebugFormat := {| fmt_debug l := concat (marked <$> l) |}.

Lemma marked_inj s : ∀ s' l l', marked s ++ l = marked s' ++ l' → s = s' ∧ l = l'.
Proof.
  induction s as [|c s IH]; intros [|c' s'] l l'; [by intros [=]|by intros [=]|by intros [=]|].
  change (marked (?x :: ?k)) with ("."%char :: x :: marked k). simpl. intros [= -> Heq].
  by apply IH in Heq as [-> ->].
Qed.

#[export] Instance marked_format_laws : DebugFormatLaws.
Proof.
  split. simpl. induction l as [|s l IH]; intros [|s' l'].
  - done.
  - change (concat (marked <$> s' :: l')) with (marked s' ++ concat (marked <$> l')). by destruct s'.
  - change (concat (marked <$> s :: l)) with (marked s ++ concat (marked <$> l)). by destruct s.
  - change (concat (marked <$> ?x :: ?k)) with (marked x ++ concat (marked <$> k)).
    intros [-> Heq]%marked_inj. by rewrite (IH l').
Qed.

Definition write_code (w : HashWrite) : Z :=
  match w with
  | WStr s => foldl (λ h c, h * 257 + code c + 1)%Z 3%Z s
  | WUsize n => 4 * Z.of_nat n + 1
  | WU8 n => 4 * Z.of_nat n + 2
  end.

#[export] Instance polynomial_hasher : Hasher :=
  {| hash_finish l := (foldl (λ h w, h * 1000003 + write_code w) 17 l `mod` 2 ^ 64)%Z |}.

#[export] Instance list_iteration : HashIteration := {| hash_iter := map_to_list |}.
#[export] Instance list_iteration_laws : HashIterationLaws.
Proof. by split. Qed.

Definition own_record : Rule :=
  mkRule (lit "own record") [PathMatches (lit "/users/" : Regex); Subject (EqualsCapture (lit "uid"))] Allow.
Definition admins : Rule :=
  mkRule (lit "admins") [PathPrefix (lit "/admin/"); Subject (HasRole (lit "admin"))] (StepUp ACR_MFA).
Definition members_only : Rule := mkRule (lit "members") [Subject Authenticated] Allow.
Definition one_subject : Rule := mkRule (lit "members") [Subject (Is (lit "authenticated"))] Allow.

Definition first_rules : RuleSet := RuleSet_new [own_record; admins].
Definition second_rules : RuleSet := RuleSet_new [admins].

Definition request (path : string) (who : string) (role : string) (level : option (list ascii)) : RequestFacts :=
  mkRequestFacts (lit "GET") (lit "app.example") (lit path) ∅ (Some (lit who)) [] [lit role] level.

Definition own : RequestFacts := request "/users/alice" "alice" "user" None.

Lemma criteria_fail_closed_witness :
  split_char "/" (lit "/admin") `prefix_of` split_char "/" (lit "/admin/keys").
Proof.
  apply (criteria_fail_closed (request "/admin/keys" "root" "admin" None) ∅ []
    (PathPrefix (lit "/admin/"))).
  vm_compute. reflexivity.
Defined.

Definition sample_ops : list CacheOp :=
  [OpDecide 0 own 0; OpDecide 1 own 1; OpReplace 0 second_rules; OpDecide 0 own 2;
   OpDecide 1 own 3].

Lemma cache_refines_evaluation_witness :
  run_cached ((λ rs, CachedRuleSet_new rs tt) <$> [first_rules; first_rules]) (MemoryStore_new 60)
    sample_ops = run_uncached [first_rules; first_rules] sample_ops.
Proof.
  apply (cache_refines_evaluation (S := MemoryStore) [first_rules; first_rules] (MemoryStore_new 60) sample_ops).
  - split.
    + assert (unambiguous (PathMatches (lit "/users/" : Regex))) by (by exists (lit "/users/")).
      repeat constructor; done.
    + change ([first_rules; first_rules] ++ replaced sample_ops) with [first_rules; first_rules; second_rules].
      intros rs rs' Hrs Hrs'. rewrite !elem_of_cons, elem_of_nil in Hrs, Hrs'.
      destruct Hrs as [->|[->|[->|[]]]], Hrs' as [->|[->|[->|[]]]]; try reflexivity;
        vm_compute; discriminate.
  - intros k d [stored Hk]. simpl in Hk. by rewrite lookup_empty in Hk.
Defined.

Definition full_store : MemoryStore :=
  with_max_entries (memory_put (with_max_entries (MemoryStore_new 60) 1)
    (mkKey 1 [] [] None None) no_match 5) 1.

Lemma memory_store_bounded_witness :
  memory_len (memory_put full_store (mkKey 2 [] [] None None) no_match 6) ≤ 1.
Proof.
  apply (memory_store_bounded full_store (mkKey 2 [] [] None None) no_match 6); vm_compute; lia.
Defined.

(** A literal subject spelled like a state renders like the state, so the two rule sets
    below have one fingerprint whatever the hasher, although they decide differently. *)
Lemma fingerprint_ambiguous :
  hash_stream (RuleSet_new [members_only]) = hash_stream (RuleSet_new [one_subject]) ∧
  decided_action (decide_rules (RuleSet_new [members_only]) own) = Allow ∧
  decided_action (decide_rules (RuleSet_new [one_subject]) own) = Deny.
Proof. split; [reflexivity|]. split; vm_compute; reflexivity. Qed.

(** A decision stored under the first is served under the second. *)
Lemma stale_allow_after_replace :
  let ops := [OpDecide 0 own 0; OpReplace 0 (RuleSet_new [one_subject]); OpDecide 0 own 1] in
  decided_action <$>
    run_cached ((λ rs, CachedRuleSet_new rs tt) <$> [RuleSet_new [members_only]])
      (MemoryStore_new 60) ops = [Allow; Allow] ∧
  decided_action <$> run_uncached [RuleSet_new [members_only]] ops = [Allow; Deny].
Proof. split; vm_compute; reflexivity. Qed.

End AccessSamples.
