(* ===== verification/FetchPolicy.v ===== *)
(** * The destination policy of the outbound fetcher

    crates/ironauth-fetch policy.rs: which addresses the server never connects to.  An
    [Ipv4Addr] is its [u32] and an [Ipv6Addr] its [u128], in the big-endian reading of
    [to_bits]; a block of addresses is a base and a prefix length, and an address is in it
    when the two agree under the mask.  The theorems compare the two tables with intervals
    of addresses written in the usual notation. *)

From S2P Require Import Prelude.

Local Open Scope Z_scope.

(** ** Addresses *)

(** [std::net::IpAddr]. *)
Inductive IpAddr : Set :=
| V4 (bits : Z)
| V6 (bits : Z).

#[export] Instance IpAddr_eq_dec : EqDecision IpAddr.
Proof. solve_decision. Defined.

(** The values of the type. *)
Definition is_ip (ip : IpAddr) : Prop :=
  match ip with V4 bits => 0 ≤ bits < 2 ^ 32 | V6 bits => 0 ≤ bits < 2 ^ 128 end.

(** [Ipv4Addr::new] and [Ipv6Addr::new], from the octets and from the segments. *)
Definition ipv4 (a b c d : Z) : Z := ((a * 256 + b) * 256 + c) * 256 + d.
Definition ipv6 (segments : list Z) : Z := foldl (λ acc s, acc * 65536 + s) 0 segments.

(** [Ipv6Addr::to_ipv4]: the segments are five zeros, then 0 or 0xffff, then the two
    halves of the IPv4 address. *)
Definition to_ipv4 (bits : Z) : option Z :=
  if (Z.shiftr bits 32 =? 0) || (Z.shiftr bits 32 =? 0xffff)
  then Some (Z.land bits 0xffffffff) else None.

(** ** The tables *)

Inductive BlockClass : Set :=
| Unspecified
| Loopback
| Private
| SharedCgn
| LinkLocal
| SiteLocal
| Multicast
| Reserved
| Documentation
| Benchmarking
| ProtocolAssignment
| EmbeddedIpv4.

#[export] Instance BlockClass_eq_dec : EqDecision BlockClass.
Proof. solve_decision. Defined.

Definition BlockClass_label (class : BlockClass) : string :=
  match class with
  | Unspecified => "unspecified"
  | Loopback => "loopback"
  | Private => "private"
  | SharedCgn => "shared_cgn"
  | LinkLocal => "link_local"
  | SiteLocal => "site_local"
  | Multicast => "multicast"
  | Reserved => "reserved"
  | Documentation => "documentation"
  | Benchmarking => "benchmarking"
  | ProtocolAssignment => "protocol_assignment"
  | EmbeddedIpv4 => "embedded_ipv4"
  end.

(** [Cidr4] and [Cidr6] differ in the width of the base only. *)
Record Cidr : Set := { cidr_base : Z; cidr_prefix : Z; cidr_class : BlockClass }.

(** [MAX << n] for an integer type of the given width. *)
Definition wrapping_mask (width n : Z) : Z := Z.shiftl (2 ^ width - 1) n mod 2 ^ width.

(** [Cidr4::contains]: the mask is [u32::MAX << (32 - prefix)]. *)
Definition Cidr4_contains (net : Cidr) (addr : Z) : bool :=
  let mask := wrapping_mask 32 (32 - cidr_prefix net) in
  Z.land addr mask =? Z.land (cidr_base net) mask.

(** [Cidr6::contains]: the mask is [u128::MAX << (128 - prefix)]. *)
Definition Cidr6_contains (net : Cidr) (addr : Z) : bool :=
  let mask := wrapping_mask 128 (128 - cidr_prefix net) in
  Z.land addr mask =? Z.land (cidr_base net) mask.

Definition DENY_V4 : list Cidr :=
  [ {| cidr_base := 0x00000000; cidr_prefix := 8; cidr_class := Unspecified |};
    {| cidr_base := 0x0A000000; cidr_prefix := 8; cidr_class := Private |};
    {| cidr_base := 0x64400000; cidr_prefix := 10; cidr_class := SharedCgn |};
    {| cidr_base := 0x7F000000; cidr_prefix := 8; cidr_class := Loopback |};
    {| cidr_base := 0xA9FE0000; cidr_prefix := 16; cidr_class := LinkLocal |};
    {| cidr_base := 0xAC100000; cidr_prefix := 12; cidr_class := Private |};
    {| cidr_base := 0xC0000000; cidr_prefix := 24; cidr_class := ProtocolAssignment |};
    {| cidr_base := 0xC0000200; cidr_prefix := 24; cidr_class := Documentation |};
    {| cidr_base := 0xC0586300; cidr_prefix := 24; cidr_class := ProtocolAssignment |};
    {| cidr_base := 0xC0A80000; cidr_prefix := 16; cidr_class := Private |};
    {| cidr_base := 0xC6120000; cidr_prefix := 15; cidr_class := Benchmarking |};
    {| cidr_base := 0xC6336400; cidr_prefix := 24; cidr_class := Documentation |};
    {| cidr_base := 0xCB007100; cidr_prefix := 24; cidr_class := Documentation |};
    {| cidr_base := 0xE0000000; cidr_prefix := 4; cidr_class := Multicast |};
    {| cidr_base := 0xF0000000; cidr_prefix := 4; cidr_class := Reserved |} ].

Definition DENY_V6 : list Cidr :=
  [ {| cidr_base := 0x0064ff9b000000000000000000000000; cidr_prefix := 96;
       cidr_class := EmbeddedIpv4 |};
    {| cidr_base := 0x0064ff9b000100000000000000000000; cidr_prefix := 48;
       cidr_class := EmbeddedIpv4 |};
    {| cidr_base := 0x01000000000000000000000000000000; cidr_prefix := 64;
       cidr_class := ProtocolAssignment |};
    {| cidr_base := 0x20010000000000000000000000000000; cidr_prefix := 23;
       cidr_class := ProtocolAssignment |};
    {| cidr_base := 0x20010db8000000000000000000000000; cidr_prefix := 32;
       cidr_class := Documentation |};
    {| cidr_base := 0x20020000000000000000000000000000; cidr_prefix := 16;
       cidr_class := EmbeddedIpv4 |};
    {| cidr_base := 0x3fff0000000000000000000000000000; cidr_prefix := 20;
       cidr_class := Documentation |};
    {| cidr_base := 0xfc000000000000000000000000000000; cidr_prefix := 7;
       cidr_class := Private |};
    {| cidr_base := 0xfe800000000000000000000000000000; cidr_prefix := 10;
       cidr_class := LinkLocal |};
    {| cidr_base := 0xfec00000000000000000000000000000; cidr_prefix := 10;
       cidr_class := SiteLocal |};
    {| cidr_base := 0xff000000000000000000000000000000; cidr_prefix := 8;
       cidr_class := Multicast |} ].

(** ** Classification *)

Definition classify_v4 (bits : Z) : option BlockClass :=
  cidr_class <$> List.find (λ net, Cidr4_contains net bits) DENY_V4.

Definition classify_v6 (bits : Z) : option BlockClass :=
  if bits =? 0 then Some Unspecified
  else if bits =? 1 then Some Loopback
  else match to_ipv4 bits with
       | Some embedded => Some (default EmbeddedIpv4 (classify_v4 embedded))
       | None => cidr_class <$> List.find (λ net, Cidr6_contains net bits) DENY_V6
       end.

Definition classify (ip : IpAddr) : option BlockClass :=
  match ip with V4 bits => classify_v4 bits | V6 bits => classify_v6 bits end.

(** ** The denied intervals *)

Abbreviation interval := (Z * Z * BlockClass)%type (only parsing).

(** The special-use blocks of IPv4, first and last address. *)
Definition RANGES_V4 : list interval :=
  [ (ipv4 0 0 0 0, ipv4 0 255 255 255, Unspecified);
    (ipv4 10 0 0 0, ipv4 10 255 255 255, Private);
    (ipv4 100 64 0 0, ipv4 100 127 255 255, SharedCgn);
    (ipv4 127 0 0 0, ipv4 127 255 255 255, Loopback);
    (ipv4 169 254 0 0, ipv4 169 254 255 255, LinkLocal);
    (ipv4 172 16 0 0, ipv4 172 31 255 255, Private);
    (ipv4 192 0 0 0, ipv4 192 0 0 255, ProtocolAssignment);
    (ipv4 192 0 2 0, ipv4 192 0 2 255, Documentation);
    (ipv4 192 88 99 0, ipv4 192 88 99 255, ProtocolAssignment);
    (ipv4 192 168 0 0, ipv4 192 168 255 255, Private);
    (ipv4 198 18 0 0, ipv4 198 19 255 255, Benchmarking);
    (ipv4 198 51 100 0, ipv4 198 51 100 255, Documentation);
    (ipv4 203 0 113 0, ipv4 203 0 113 255, Documentation);
    (ipv4 224 0 0 0, ipv4 239 255 255 255, Multicast);
    (ipv4 240 0 0 0, ipv4 255 255 255 255, Reserved) ].

(** The special-use blocks of IPv6 outside the first 2^48 addresses. *)
Definition RANGES_V6 : list interval :=
  let f := 0xffff in
  [ (ipv6 [0x64; 0xff9b; 0; 0; 0; 0; 0; 0], ipv6 [0x64; 0xff9b; 0; 0; 0; 0; f; f], EmbeddedIpv4);
    (ipv6 [0x64; 0xff9b; 1; 0; 0; 0; 0; 0], ipv6 [0x64; 0xff9b; 1; f; f; f; f; f], EmbeddedIpv4);
    (ipv6 [0x100; 0; 0; 0; 0; 0; 0; 0], ipv6 [0x100; 0; 0; 0; f; f; f; f], ProtocolAssignment);
    (ipv6 [0x2001; 0; 0; 0; 0; 0; 0; 0], ipv6 [0x2001; 0x1ff; f; f; f; f; f; f], ProtocolAssignment);
    (ipv6 [0x2001; 0xdb8; 0; 0; 0; 0; 0; 0], ipv6 [0x2001; 0xdb8; f; f; f; f; f; f], Documentation);
    (ipv6 [0x2002; 0; 0; 0; 0; 0; 0; 0], ipv6 [0x2002; f; f; f; f; f; f; f], EmbeddedIpv4);
    (ipv6 [0x3fff; 0; 0; 0; 0; 0; 0; 0], ipv6 [0x3fff; 0xfff; f; f; f; f; f; f], Documentation);
    (ipv6 [0xfc00; 0; 0; 0; 0; 0; 0; 0], ipv6 [0xfdff; f; f; f; f; f; f; f], Private);
    (ipv6 [0xfe80; 0; 0; 0; 0; 0; 0; 0], ipv6 [0xfebf; f; f; f; f; f; f; f], LinkLocal);
    (ipv6 [0xfec0; 0; 0; 0; 0; 0; 0; 0], ipv6 [0xfeff; f; f; f; f; f; f; f], SiteLocal);
    (ipv6 [0xff00; 0; 0; 0; 0; 0; 0; 0], ipv6 [0xffff; f; f; f; f; f; f; f], Multicast) ].

(** An address of one of the intervals, and the class it is charged to. *)
Definition in_ranges (ranges : list interval) (addr : Z) (class : BlockClass) : Prop :=
  ∃ lo hi, (lo, hi, class) ∈ ranges ∧ lo ≤ addr ≤ hi.

(** What an IPv4 address in an IPv6 form is charged to: the block of the address, or the
    form itself. *)
Definition embedded_class (v4 : Z) (class : BlockClass) : Prop :=
  in_ranges RANGES_V4 v4 class
  ∨ ((∀ other, ¬ in_ranges RANGES_V4 v4 other) ∧ class = EmbeddedIpv4).

(** The specification of the policy. *)
Definition denied (ip : IpAddr) (class : BlockClass) : Prop :=
  match ip with
  | V4 addr => in_ranges RANGES_V4 addr class
  | V6 addr =>
      (addr = 0 ∧ class = Unspecified) ∨ (addr = 1 ∧ class = Loopback)
      ∨ (1 < addr ∧ ∃ v4, 0 ≤ v4 < 2 ^ 32
           ∧ (addr = v4 ∨ addr = ipv6 [0; 0; 0; 0; 0; 0xffff; 0; 0] + v4) ∧ embedded_class v4 class)
      ∨ in_ranges RANGES_V6 addr class
  end.

(** ** Blocks are intervals *)

Lemma testbit_wrapping_mask width n i : 0 ≤ n ≤ width → 0 ≤ i →
  Z.testbit (wrapping_mask width n) i = (n <=? i) && (i <? width).
Proof.
  intros Hn Hi. unfold wrapping_mask. destruct (Z.ltb_spec i width) as [Hw|Hw].
  - rewrite Z.mod_pow2_bits_low, Z.shiftl_spec, andb_true_r by lia.
    replace (2 ^ width - 1) with (Z.ones width) by (rewrite Z.ones_equiv; lia).
    destruct (Z.leb_spec n i); [apply Z.ones_spec_low; lia|apply Z.testbit_neg_r; lia].
  - by rewrite Z.mod_pow2_bits_high, andb_false_r by lia.
Qed.

(** Under the mask an integer keeps its bits from [n] on. *)
Lemma land_wrapping_mask width n a : 0 ≤ n ≤ width → 0 ≤ a < 2 ^ width →
  Z.land a (wrapping_mask width n) = a / 2 ^ n * 2 ^ n.
Proof.
  intros Hn Ha. rewrite <-Z.shiftr_div_pow2, <-Z.shiftl_mul_pow2 by lia.
  apply Z.bits_inj'. intros i Hi. rewrite Z.land_spec, testbit_wrapping_mask by lia.
  rewrite Z.shiftl_spec by lia. destruct (Z.leb_spec n i) as [Hle|Hlt].
  - rewrite Z.shiftr_spec by lia. replace (i - n + n) with i by lia.
    destruct (Z.ltb_spec i width); rewrite ?andb_true_r, ?andb_false_r; [done|].
    symmetry. destruct (decide (a = 0)) as [->|]; [apply Z.testbit_0_l|].
    apply Z.bits_above_log2; [lia|]. apply Z.log2_lt_pow2; [lia|].
    apply Z.lt_le_trans with (2 ^ width); [lia|]. apply Z.pow_le_mono_r; lia.
  - rewrite (Z.testbit_neg_r _ (i - n)) by lia. by rewrite andb_false_r.
Qed.

(** Two integers agree under the mask exactly when the one is in the block that starts at
    the other. *)
Lemma same_block width n a b : 0 ≤ n ≤ width → 0 ≤ a < 2 ^ width → 0 ≤ b < 2 ^ width →
  b mod 2 ^ n = 0 →
  (Z.land a (wrapping_mask width n) =? Z.land b (wrapping_mask width n)) = true
  ↔ b ≤ a ≤ b + 2 ^ n - 1.
Proof.
  intros Hn Ha Hb Halign. rewrite Z.eqb_eq, !land_wrapping_mask by lia.
  assert (0 < 2 ^ n) by (apply Z.pow_pos_nonneg; lia).
  pose proof (Z.div_mod a (2 ^ n)). pose proof (Z.div_mod b (2 ^ n)).
  pose proof (Z.mod_pos_bound a (2 ^ n)). split; [nia|].
  intros Hab. f_equal. symmetry. apply Z.div_unique with (a - b); lia.
Qed.

(** The interval of a block. *)
Definition interval_of (width : Z) (net : Cidr) : interval :=
  (cidr_base net, cidr_base net + 2 ^ (width - cidr_prefix net) - 1, cidr_class net).

(** A block of a table is well placed: its shift amount is within the width of the type, and
    its base is an address with no bit outside the prefix. *)
Definition placed (width : Z) (net : Cidr) : bool :=
  (0 <? cidr_prefix net) && (cidr_prefix net <=? width) && (0 <=? cidr_base net)
  && (cidr_base net <? 2 ^ width) && (cidr_base net mod 2 ^ (width - cidr_prefix net) =? 0).

Lemma placed_V4 : forallb (placed 32) DENY_V4 = true.
Proof. vm_compute. reflexivity. Qed.

Lemma placed_V6 : forallb (placed 128) DENY_V6 = true.
Proof. vm_compute. reflexivity. Qed.

Lemma intervals_V4 : interval_of 32 <$> DENY_V4 = RANGES_V4.
Proof. vm_compute. reflexivity. Qed.

Lemma intervals_V6 : interval_of 128 <$> DENY_V6 = RANGES_V6.
Proof. vm_compute. reflexivity. Qed.

(** The test of a block of the given width. *)
Definition contains (width : Z) (net : Cidr) (addr : Z) : bool :=
  let mask := wrapping_mask width (width - cidr_prefix net) in
  Z.land addr mask =? Z.land (cidr_base net) mask.

Lemma contains_interval width net addr : placed width net = true → 0 ≤ addr < 2 ^ width →
  contains width net addr = true ↔ (interval_of width net).1.1 ≤ addr ≤ (interval_of width net).1.2.
Proof.
  unfold placed. rewrite !andb_true_iff, !Z.ltb_lt, !Z.leb_le, Z.eqb_eq.
  intros [[[[Hp Hw] Hb] Hb'] Halign] Ha. apply same_block; [lia|done|by split|done].
Qed.

(** ** The search of a table *)

(** When at most one entry matches, the search finds the one that does, in any order. *)
Lemma find_unique {A} (f : A → bool) (l : list A) (x : A) :
  (∀ y z, y ∈ l → z ∈ l → f y = true → f z = true → y = z) →
  List.find f l = Some x ↔ x ∈ l ∧ f x = true.
Proof.
  intros Huniq. split.
  - intros Hf. apply List.find_some in Hf as [Hin Hx]. by rewrite list_elem_of_In.
  - intros [Hin Hx]. destruct (List.find f l) as [y|] eqn:Hf.
    + apply List.find_some in Hf as [Hy Hfy]. f_equal. apply Huniq; [by apply list_elem_of_In|done..].
    + eapply List.find_none in Hf; [|by apply list_elem_of_In]. congruence.
Qed.

Definition apart (x y : interval) : bool := (x.1.2 <? y.1.1) || (y.1.2 <? x.1.1).

(** No two blocks of a table share an address. *)
Definition disjoint_table (width : Z) (table : list Cidr) : Prop :=
  ∀ i j x y, table !! i = Some x → table !! j = Some y → i ≠ j →
    apart (interval_of width x) (interval_of width y) = true.

Definition disjoint_check (width : Z) (table : list Cidr) : bool :=
  forallb (λ '(i, x), forallb (λ '(j, y),
    Nat.eqb i j || apart (interval_of width x) (interval_of width y))
    (imap pair table)) (imap pair table).

Lemma disjoint_check_sound width table : disjoint_check width table = true → disjoint_table width table.
Proof.
  unfold disjoint_check. rewrite forallb_forall. intros Hall i j x y Hi Hj Hne.
  assert (∀ k z, table !! k = Some z → In (k, z) (imap pair table)) as Hin.
  { intros k z Hk. apply list_elem_of_In, elem_of_lookup_imap. eauto. }
  specialize (Hall _ (Hin i x Hi)). simpl in Hall. rewrite forallb_forall in Hall.
  specialize (Hall _ (Hin j y Hj)). simpl in Hall. apply orb_true_iff in Hall as [Heq|?]; [|done].
  apply Nat.eqb_eq in Heq. lia.
Qed.

Lemma disjoint_V4 : disjoint_table 32 DENY_V4.
Proof. apply disjoint_check_sound. vm_compute. reflexivity. Qed.

Lemma disjoint_V6 : disjoint_table 128 DENY_V6.
Proof. apply disjoint_check_sound. vm_compute. reflexivity. Qed.

Section table.
Context (width : Z) (table : list Cidr).
Hypothesis Hplaced : forallb (placed width) table = true.
Hypothesis Hdisjoint : disjoint_table width table.

Lemma table_placed net : net ∈ table → placed width net = true.
Proof. intros Hin. rewrite forallb_forall in Hplaced. by apply Hplaced, list_elem_of_In. Qed.

Lemma table_unique addr y z : 0 ≤ addr < 2 ^ width → y ∈ table → z ∈ table →
  contains width y addr = true → contains width z addr = true → y = z.
Proof.
  intros Ha Hy Hz. rewrite !contains_interval by (try apply table_placed; done).
  apply list_elem_of_lookup in Hy as [i Hi], Hz as [j Hj]. intros Hcy Hcz.
  destruct (decide (i = j)) as [->|Hne]; [congruence|].
  specialize (Hdisjoint i j y z Hi Hj Hne). unfold apart in Hdisjoint.
  rewrite orb_true_iff, !Z.ltb_lt in Hdisjoint. lia.
Qed.

(** The class the search returns is the class of an interval of the table. *)
Lemma find_class_spec addr class : 0 ≤ addr < 2 ^ width →
  cidr_class <$> List.find (λ net, contains width net addr) table = Some class
  ↔ in_ranges (interval_of width <$> table) addr class.
Proof.
  intros Ha. rewrite fmap_Some. setoid_rewrite find_unique; [|intros; by eapply table_unique].
  unfold in_ranges. setoid_rewrite list_elem_of_fmap. split.
  - intros (net & [Hin Hc] & ->). apply contains_interval in Hc; [|by apply table_placed|done].
    by eexists _, _; split; [exists net|].
  - intros (lo & hi & (net & Heq & Hin) & Hr). exists net. split; [split; [done|]|].
    + apply contains_interval; [by apply table_placed|done|]. by rewrite <-Heq.
    + by apply (f_equal snd) in Heq.
Qed.

(** The order of the entries does not matter. *)
Lemma find_class_order addr table' : 0 ≤ addr < 2 ^ width → table ≡ₚ table' →
  List.find (λ net, contains width net addr) table' = List.find (λ net, contains width net addr) table.
Proof.
  intros Ha Hperm. apply option_eq. intros net.
  rewrite !find_unique; [by rewrite Hperm|intros; by eapply table_unique|].
  intros y z. rewrite <-Hperm. intros. by eapply table_unique.
Qed.
End table.

Lemma classify_v4_spec addr class : 0 ≤ addr < 2 ^ 32 →
  classify_v4 addr = Some class ↔ in_ranges RANGES_V4 addr class.
Proof.
  intros Ha. rewrite <-intervals_V4. exact (find_class_spec 32 DENY_V4 placed_V4 disjoint_V4 addr class Ha).
Qed.

Lemma to_ipv4_spec addr v4 : 0 ≤ addr → to_ipv4 addr = Some v4 ↔
  0 ≤ v4 < 2 ^ 32 ∧ (addr = v4 ∨ addr = ipv6 [0; 0; 0; 0; 0; 0xffff; 0; 0] + v4).
Proof.
  intros Ha. unfold to_ipv4. change 0xffffffff with (Z.ones 32).
  rewrite Z.land_ones, Z.shiftr_div_pow2 by lia.
  change (ipv6 _) with (0xffff * 2 ^ 32). pose proof (Z.div_mod addr (2 ^ 32)).
  pose proof (Z.mod_pos_bound addr (2 ^ 32)).
  destruct (Z.eqb_spec (addr / 2 ^ 32) 0); simpl; [|destruct (Z.eqb_spec (addr / 2 ^ 32) 0xffff); simpl];
    (split; [intros Heq; (discriminate || injection Heq as <-); lia|intros [Hv Hcase]]);
    [f_equal|f_equal|exfalso];
    Z.to_euclidean_division_equations; lia.
Qed.

(** The first blocks of the IPv6 table start above the embedded forms. *)
Lemma ranges_V6_high addr class : in_ranges RANGES_V6 addr class → 2 ^ 48 ≤ addr.
Proof.
  intros (lo & hi & Hin & Hr). assert (forallb (λ r, 2 ^ 48 <=? r.1.1) RANGES_V6 = true) as Hall
    by (vm_compute; reflexivity).
  rewrite forallb_forall in Hall. apply list_elem_of_In, Hall, Z.leb_le in Hin. simpl in Hin. lia.
Qed.

Lemma embedded_class_spec v4 class : 0 ≤ v4 < 2 ^ 32 →
  default EmbeddedIpv4 (classify_v4 v4) = class ↔ embedded_class v4 class.
Proof.
  intros Hv. unfold embedded_class. setoid_rewrite <-classify_v4_spec; [|done..].
  destruct (classify_v4 v4) as [c|]; simpl.
  - split; [intros ->; by left|]. intros [[= ->]|[Hno _]]; [done|]. by destruct (Hno c).
  - split; [intros <-; by right|]. by intros [?|[_ ->]].
Qed.

Lemma classify_v6_spec addr class : 0 ≤ addr < 2 ^ 128 →
  classify_v6 addr = Some class ↔ denied (V6 addr) class.
Proof.
  intros Ha. unfold classify_v6. cbn [denied].
  assert (∀ c, in_ranges RANGES_V6 addr c → 2 ^ 48 ≤ addr) as Hhigh by (intros c; apply ranges_V6_high).
  destruct (Z.eqb_spec addr 0) as [->|H0]; [|destruct (Z.eqb_spec addr 1) as [->|H1]].
  - split; [intros [= <-]; by left|]. intros [[_ ->]|[?|[?|?%Hhigh]]]; [done|lia..].
  - split; [intros [= <-]; right; by left|]. intros [?|[[_ ->]|[?|?%Hhigh]]]; [lia|done|lia..].
  - destruct (to_ipv4 addr) as [v4|] eqn:Hv.
    + pose proof Hv as Hv'. apply to_ipv4_spec in Hv' as [Hr Hcase]; [|lia].
      rewrite inj_iff, embedded_class_spec by (apply _ || done). split.
      * intros He. right; right; left. split; [lia|]. by exists v4.
      * intros [?|[?|[(_ & w & Hw & Hcw & He)|Hc]]]; [lia..| |].
        { assert (to_ipv4 addr = Some w) as Hvw by (apply to_ipv4_spec; [lia|done]).
          by rewrite Hv in Hvw; injection Hvw as ->. }
        { apply Hhigh in Hc. exfalso. destruct Hcase as [->| ->]; [lia|].
          change (ipv6 _) with (0xffff * 2 ^ 32) in *. lia. }
    + rewrite <-intervals_V6. transitivity (in_ranges (interval_of 128 <$> DENY_V6) addr class).
      { exact (find_class_spec 128 DENY_V6 placed_V6 disjoint_V6 addr class Ha). }
      split; [by right; right; right|]. intros [?|[?|[(_ & w & Hw & Hcw & _)|Hc]]]; [lia..| |done].
      assert (to_ipv4 addr = Some w) by (apply to_ipv4_spec; [lia|done]). congruence.
Qed.

(** C32 (equivalence): the classifier charges an address to a class exactly when the address
    is in one of the special-use intervals of that class, is the unspecified or the loopback
    address of IPv6, or is an IPv6 form of an IPv4 address: then the class is the one of the
    IPv4 address, or the form itself when that address is public.  No other address is
    denied. *)
Theorem classify_denies_exactly ip class : is_ip ip → classify ip = Some class ↔ denied ip class.
Proof. destruct ip; simpl; [apply classify_v4_spec|apply classify_v6_spec]. Qed.

Lemma classify_denies_exactly_witness :
  classify (V6 (ipv6 [0; 0; 0; 0; 0; 0xffff; 0xa9fe; 0xa9fe])) = Some LinkLocal
  ∧ denied (V6 (ipv6 [0; 0; 0; 0; 0; 0xffff; 0xa9fe; 0xa9fe])) LinkLocal.
Proof. split; [reflexivity|]. apply classify_denies_exactly; [vm_compute; split; congruence|reflexivity]. Defined.

(** The blocks of each table are disjoint, so their order does not matter, and no shift by
    the width of the integer type is ever made. *)
Theorem tables_order_free : (∀ table addr, 0 ≤ addr < 2 ^ 32 → DENY_V4 ≡ₚ table →
    List.find (λ net, Cidr4_contains net addr) table = List.find (λ net, Cidr4_contains net addr) DENY_V4)
  ∧ (∀ table addr, 0 ≤ addr < 2 ^ 128 → DENY_V6 ≡ₚ table →
    List.find (λ net, Cidr6_contains net addr) table = List.find (λ net, Cidr6_contains net addr) DENY_V6)
  ∧ Forall (λ net, 0 ≤ 32 - cidr_prefix net < 32) DENY_V4
  ∧ Forall (λ net, 0 ≤ 128 - cidr_prefix net < 128) DENY_V6.
Proof.
  split; [intros table addr; exact (find_class_order 32 DENY_V4 placed_V4 disjoint_V4 addr table)|].
  split; [intros table addr; exact (find_class_order 128 DENY_V6 placed_V6 disjoint_V6 addr table)|].
  split; repeat (constructor; [simpl; lia|]); constructor.
Qed.

(** The shortest prefixes of the IPv4 table are shorter than the eight bits the comment in
    [Cidr4::contains] promises. *)
Example prefix_four : ∃ net, net ∈ DENY_V4 ∧ cidr_prefix net = 4.
Proof. exists {| cidr_base := 0xE0000000; cidr_prefix := 4; cidr_class := Multicast |}. split; [|done]. set_solver. Qed.
