(* ===== verification/FetchTarget.v ===== *)
(** * The targets of the outbound fetcher

    crates/ironauth-fetch target.rs: from a URL to the scheme, host, port and path of a
    request.  The URI parser of the http crate is the parameter [HttpUri]; the parser of
    address literals, [IpAddr::from_str], belongs to the Standard Library of Rust and is
    written out, since a literal is not resolved but used as it is. *)

From S2P Require Import Prelude Text FetchPolicy.
From S2P Require Import Redirect.

Local Open Scope char_scope.
Local Open Scope Z_scope.

(** ** Address literals *)

(** The parser of std::net: what is read, and the characters left. *)
Abbreviation parser A := (text → option (A * text)) (only parsing).

(** The loop of [read_number]: the value, the number of digits and the rest. *)
Fixpoint read_digits (radix limit : Z) (max_digits count : nat) (result : Z) (s : text)
    : option (Z * nat * text) :=
  match s with
  | c :: rest =>
      match to_digit radix c with
      | Some d =>
          let result := result * radix + d in
          if limit <? result then None
          else if (max_digits <? S count)%nat then None
          else read_digits radix limit max_digits (S count) result rest
      | None => Some (result, count, s)
      end
  | [] => Some (result, count, [])
  end.

Definition read_number (radix limit : Z) (max_digits : nat) (allow_zero_prefix : bool) : parser Z :=
  λ s,
    let has_leading_zero := bool_decide (head s = Some "0") in
    '(result, count, rest) ← read_digits radix limit max_digits 0 0 s;
    if (count =? 0)%nat then None
    else if negb allow_zero_prefix && has_leading_zero && (1 <? count)%nat then None
    else Some (result, rest).

Definition read_given_char (c : ascii) : parser () :=
  λ s, match s with d :: rest => if is_char c d then Some ((), rest) else None | [] => None end.

(** The separator is read before every element but the first. *)
Definition read_separator {A} (sep : ascii) (index : nat) (inner : parser A) : parser A :=
  λ s, if (0 <? index)%nat then '(_, rest) ← read_given_char sep s; inner rest else inner s.

Definition read_octet : parser Z := read_number 10 255 3 false.

Definition read_ipv4_addr : parser Z :=
  λ s,
    '(a, s) ← read_separator "." 0 read_octet s;
    '(b, s) ← read_separator "." 1 read_octet s;
    '(c, s) ← read_separator "." 2 read_octet s;
    '(d, s) ← read_separator "." 3 read_octet s;
    Some (ipv4 a b c d, s).

(** [read_groups]: at most [limit - i] more groups, the last two of which may be an IPv4
    address; whether they were. *)
Fixpoint read_groups (i limit : nat) (s : text) : list Z * bool * text :=
  match limit with
  | O => ([], false, s)
  | S more =>
      let group :=
        match read_separator ":" i (read_number 16 0xffff 4 true) s with
        | Some (g, rest) => let '(groups, v4, rest) := read_groups (S i) more rest in (g :: groups, v4, rest)
        | None => ([], false, s)
        end in
      match more with
      | O => group
      | S _ =>
          match read_separator ":" i read_ipv4_addr s with
          | Some (v4, rest) => ([Z.shiftr v4 16; Z.land v4 0xffff], true, rest)
          | None => group
          end
      end
  end.

Definition read_ipv6_addr : parser Z :=
  λ s,
    let '(head, head_ipv4, s) := read_groups 0 8 s in
    if (length head =? 8)%nat then Some (ipv6 head, s)
    else if head_ipv4 then None
    else
      '(_, s) ← read_given_char ":" s;
      '(_, s) ← read_given_char ":" s;
      let '(tail, _, s) := read_groups 0 (8 - (length head + 1)) s in
      Some (ipv6 (head ++ replicate (8 - length head - length tail) 0 ++ tail), s).

(** [IpAddr::from_str]: an IPv4 address, or else an IPv6 address, and nothing after it. *)
Definition parse_ip (s : text) : option IpAddr :=
  match match read_ipv4_addr s with
        | Some (bits, rest) => Some (V4 bits, rest)
        | None => '(bits, rest) ← read_ipv6_addr s; Some (V6 bits, rest)
        end with
  | Some (ip, []) => Some ip
  | _ => None
  end.

(** ** Targets *)

Inductive Scheme : Set := Https | Http.

#[export] Instance Scheme_eq_dec : EqDecision Scheme.
Proof. solve_decision. Defined.

Definition default_port (scheme : Scheme) : Z := match scheme with Https => 443 | Http => 80 end.

Definition Scheme_as_str (scheme : Scheme) : text :=
  match scheme with Https => lit "https" | Http => lit "http" end.

Record Target : Type := {
  scheme : Scheme;
  host : text;
  port : Z;
  path_and_query : text;
  literal_ip : option IpAddr;
}.

Definition host_header (target : Target) : text :=
  let name := if contains_char ":" (host target) then lit "[" ++ host target ++ lit "]" else host target in
  if port target =? default_port (scheme target) then name else name ++ lit ":" ++ fmt_uint (port target).

Inductive TargetError : Set := Malformed | UnsupportedScheme | MissingHost | UserinfoPresent.

#[export] Instance TargetError_eq_dec : EqDecision TargetError.
Proof. solve_decision. Defined.

Definition TargetError_to_string (err : TargetError) : text :=
  match err with
  | Malformed => lit "not a valid absolute URL"
  | UnsupportedScheme => lit "scheme must be http or https"
  | MissingHost => lit "URL has no host"
  | UserinfoPresent => lit "URL must not contain userinfo"
  end.

(** [http::Uri]: the parser and the accessors. *)
Class HttpUri := {
  Uri : Type;
  uri_from_str : text → option Uri;
  uri_scheme_str : Uri → option text;
  uri_authority : Uri → option text;
  uri_host : Uri → option text;
  uri_path_and_query : Uri → option text;
}.

(** [str::strip_suffix] with a character. *)
Definition strip_suffix_char (c : ascii) (s : text) : option text :=
  match reverse s with d :: front => if is_char c d then Some (reverse front) else None | [] => None end.

Definition raw_port (authority : text) : option text :=
  match strip_prefix (lit "[") authority with
  | Some rest =>
      close ← find_char (is_char "]") rest;
      strip_prefix (lit ":") (drop (S close) rest)
  | None => snd <$> split_once ":" authority
  end.

Section parse.
Context `{HttpUri}.

Definition parse_scheme (uri : Uri) : Result Scheme TargetError :=
  match uri_scheme_str uri with
  | Some name =>
      if bool_decide (name = lit "https") then Ok Https
      else if bool_decide (name = lit "http") then Ok Http
      else Err UnsupportedScheme
  | None => Err UnsupportedScheme
  end.

Definition parse_port (scheme : Scheme) (authority : text) : Result Z TargetError :=
  match raw_port authority with
  | None => Ok (default_port scheme)
  | Some raw =>
      match parse_u16 raw with
      | Some port => if port =? 0 then Err Malformed else Ok port
      | None => Err Malformed
      end
  end.

Definition parse_path (uri : Uri) : text :=
  match uri_path_and_query uri with
  | Some pq =>
      match pq with
      | [] => lit "/"
      | c :: _ => if is_char "/" c then pq else lit "/" ++ pq
      end
  | None => lit "/"
  end.

(** The host without the brackets of an IPv6 literal. *)
Definition strip_brackets (raw_host : text) : text :=
  default raw_host (rest ← strip_prefix (lit "[") raw_host; strip_suffix_char "]" rest).

Definition parse_target (url : text) : Result Target TargetError :=
  match uri_from_str url with
  | None => Err Malformed
  | Some uri =>
      let? scheme := parse_scheme uri in
      match uri_authority uri with
      | None => Err MissingHost
      | Some authority =>
          if contains_char "@" authority then Err UserinfoPresent else
          match uri_host uri with
          | None => Err MissingHost
          | Some raw_host =>
              if bool_decide (raw_host = []) then Err MissingHost else
              let host := strip_brackets raw_host in
              if bool_decide (host = []) then Err MissingHost else
              let literal_ip := parse_ip host in
              let? port := parse_port scheme authority in
              Ok {| scheme := scheme; host := host; port := port;
                    path_and_query := parse_path uri; literal_ip := literal_ip |}
          end
      end
  end.
End parse.

(** Literals in the forms the adversarial tables use. *)
Example literals :
  parse_ip (lit "169.254.169.254") = Some (V4 (ipv4 169 254 169 254))
  ∧ parse_ip (lit "127.1") = None ∧ parse_ip (lit "0177.0.0.1") = None ∧ parse_ip (lit "2130706433") = None
  ∧ parse_ip (lit "127.0.0.1.") = None ∧ parse_ip (lit "256.0.0.1") = None
  ∧ parse_ip (lit "::ffff:169.254.169.254") = Some (V6 (ipv6 [0; 0; 0; 0; 0; 0xffff; 0xa9fe; 0xa9fe]))
  ∧ parse_ip (lit "::") = Some (V6 0) ∧ parse_ip (lit "2001:DB8::1") = Some (V6 (ipv6 [0x2001; 0xdb8; 0; 0; 0; 0; 0; 1]))
  ∧ parse_ip (lit "1:2:3:4:5:6:7::") = Some (V6 (ipv6 [1; 2; 3; 4; 5; 6; 7; 0]))
  ∧ parse_ip (lit "1:2:3:4:5:6:1.2.3.4") = Some (V6 (ipv6 [1; 2; 3; 4; 5; 6; 0x102; 0x304]))
  ∧ parse_ip (lit "1:2:3:4:5:6:7:8:9") = None ∧ parse_ip (lit "1::2::3") = None
  ∧ parse_ip (lit "fe80::1%eth0") = None ∧ parse_ip (lit ":::") = None ∧ parse_ip [] = None.
Proof. vm_compute. repeat split. Qed.

(** ** Literals are addresses *)

Lemma read_digits_range radix limit max count result s n k rest : 0 ≤ radix → 0 ≤ result ≤ limit →
  read_digits radix limit max count result s = Some (n, k, rest) → 0 ≤ n ≤ limit.
Proof.
  intros Hradix. revert count result. induction s as [|c s IH]; intros count result Hr; simpl.
  { by intros [= <- <- <-]. }
  destruct (to_digit radix c) as [d|] eqn:Hd; [|by intros [= <- <- <-]].
  apply to_digit_range in Hd. destruct (Z.ltb_spec limit (result * radix + d)); [done|].
  case_match; [done|]. apply IH. nia.
Qed.

Lemma read_number_range radix limit max zero s n rest : 0 ≤ radix → 0 ≤ limit →
  read_number radix limit max zero s = Some (n, rest) → 0 ≤ n ≤ limit.
Proof.
  intros Hradix Hlimit Hn. unfold read_number in Hn. apply bind_Some in Hn as ([[v k] r] & Hv & Hn).
  apply read_digits_range in Hv; [|done|lia]. repeat case_match; try done. by injection Hn as <- <-.
Qed.

Lemma read_separator_Some {A} sep i (inner : parser A) s a rest :
  read_separator sep i inner s = Some (a, rest) →
  ∃ s', inner s' = Some (a, rest) ∧ s = (if (0 <? i)%nat then [sep] else []) ++ s'.
Proof.
  unfold read_separator, read_given_char, is_char. destruct (0 <? i)%nat; [|by exists s].
  destruct s as [|c s]; [done|]. simpl. case_bool_decide as Hc; [|done]. simpl. subst. by exists s.
Qed.

Lemma read_octet_range s n rest : read_octet s = Some (n, rest) → 0 ≤ n ≤ 255.
Proof. by apply read_number_range. Qed.

(** Split a [do] block of the parser. *)
Ltac parse_inv H :=
  repeat (let a := fresh "a" in let r := fresh "r" in let Ha := fresh "Ha" in
          apply bind_Some in H as ([a r] & Ha & H)).

Lemma read_ipv4_addr_Some s bits rest : read_ipv4_addr s = Some (bits, rest) →
  ∃ a b c d s1 s2 s3, bits = ipv4 a b c d
    ∧ read_octet s = Some (a, "." :: s1) ∧ read_octet s1 = Some (b, "." :: s2)
    ∧ read_octet s2 = Some (c, "." :: s3) ∧ read_octet s3 = Some (d, rest).
Proof.
  unfold read_ipv4_addr. intros Hs. parse_inv Hs. injection Hs as <- <-.
  apply read_separator_Some in Ha as (? & Ha & ->), Ha0 as (? & Ha0 & ->),
    Ha1 as (? & Ha1 & ->), Ha2 as (? & Ha2 & ->).
  simpl in *. eexists _, _, _, _, _, _, _. split; [reflexivity|]. done.
Qed.

Lemma ipv4_range a b c d : 0 ≤ a ≤ 255 → 0 ≤ b ≤ 255 → 0 ≤ c ≤ 255 → 0 ≤ d ≤ 255 →
  0 ≤ ipv4 a b c d < 2 ^ 32.
Proof. unfold ipv4. lia. Qed.

Lemma read_ipv4_addr_range s bits rest : read_ipv4_addr s = Some (bits, rest) → 0 ≤ bits < 2 ^ 32.
Proof.
  intros (a & b & c & d & s1 & s2 & s3 & -> & Ha & Hb & Hc & Hd)%read_ipv4_addr_Some.
  apply ipv4_range; by eapply read_octet_range.
Qed.

Abbreviation is_segment := (λ s : Z, 0 ≤ s ≤ 0xffff) (only parsing).

Lemma read_groups_spec limit i s groups v4 rest : read_groups i limit s = (groups, v4, rest) →
  Forall is_segment groups ∧ (length groups ≤ limit)%nat.
Proof.
  revert i s groups v4 rest. induction limit as [|more IH]; intros i s groups v4 rest; simpl.
  { intros [= <- <- <-]. split; [constructor|done]. }
  intros Hg. assert (∀ g, match read_separator ":" i (read_number 16 0xffff 4 true) s with
     | Some (g, rest) => let '(groups, v4, rest) := read_groups (S i) more rest in (g :: groups, v4, rest)
     | None => ([], false, s) end = g → g = (groups, v4, rest) → Forall is_segment groups ∧ (length groups ≤ S more)%nat) as Hgroup.
  { intros g <-. destruct (read_separator _ _ _ s) as [[g r]|] eqn:Hr.
    - destruct (read_groups (S i) more r) as [[gs w] r'] eqn:Hgs. intros [= <- <- <-].
      apply IH in Hgs as [Hgs Hlen]. apply read_separator_Some in Hr as (s' & Hr & _).
      apply read_number_range in Hr; [|lia..]. split; [by constructor|simpl; lia].
    - intros [= <- <- <-]. split; [constructor|simpl; lia]. }
  destruct more as [|more]; [by eapply Hgroup|].
  destruct (read_separator ":" i read_ipv4_addr s) as [[w r]|] eqn:Hw; [|by eapply Hgroup].
  injection Hg as <- <- <-. apply read_separator_Some in Hw as (s' & Hw & _).
  apply read_ipv4_addr_range in Hw. split; [|simpl; lia].
  constructor; [rewrite Z.shiftr_div_pow2 by lia; Z.to_euclidean_division_equations; lia|].
  constructor; [|constructor]. change (Z.land w 0xffff) with (Z.land w (Z.ones 16)).
  rewrite Z.land_ones by lia. pose proof (Z.mod_pos_bound w (2 ^ 16)). lia.
Qed.

Lemma ipv6_range segments acc : 0 ≤ acc → Forall is_segment segments →
  0 ≤ foldl (λ acc s, acc * 65536 + s) acc segments < (acc + 1) * 2 ^ (16 * Z.of_nat (length segments)).
Proof.
  revert acc. induction segments as [|s segments IH]; intros acc Hacc Hs; cbn [foldl length].
  - change (2 ^ _) with 1. lia.
  - inversion_clear Hs as [|?? Hseg Hrest]. specialize (IH (acc * 65536 + s) ltac:(lia) Hrest).
    replace (16 * Z.of_nat (S (length segments))) with (16 + 16 * Z.of_nat (length segments)) by lia.
    rewrite Z.pow_add_r by lia. change (2 ^ 16) with 65536. nia.
Qed.

(** What the parser returns is an address. *)
Lemma parse_ip_is_ip s ip : parse_ip s = Some ip → is_ip ip.
Proof.
  unfold parse_ip. destruct (read_ipv4_addr s) as [[bits rest]|] eqn:H4.
  { destruct rest; [|done]. intros [= <-]. by eapply read_ipv4_addr_range. }
  destruct (read_ipv6_addr s) as [[bits rest]|] eqn:H6; simpl; [|done]. destruct rest; [|done].
  intros [= <-]. unfold read_ipv6_addr in H6.
  destruct (read_groups 0 8 s) as [[head h4] r] eqn:Hh. apply read_groups_spec in Hh as [Hh Hlen].
  destruct (Nat.eqb_spec (length head) 8) as [H8|H8].
  { injection H6 as <- _. pose proof (ipv6_range head 0 ltac:(lia) Hh) as Hr. rewrite H8 in Hr. exact Hr. }
  destruct h4; [done|]. apply bind_Some in H6 as ([[] r1] & _ & H6). apply bind_Some in H6 as ([[] r2] & _ & H6).
  destruct (read_groups 0 _ r2) as [[tail t4] r3] eqn:Ht. apply read_groups_spec in Ht as [Ht Htl].
  injection H6 as <- _. pose proof (ipv6_range (head ++ replicate (8 - length head - length tail) 0 ++ tail) 0 ltac:(lia)) as Hr.
  rewrite !length_app, length_replicate in Hr.
  replace (length head + (8 - length head - length tail + length tail))%nat with 8%nat in Hr by lia.
  apply Hr. rewrite !Forall_app. split; [done|]. split; [|done]. apply Forall_replicate. lia.
Qed.

(** ** One spelling of an IPv4 literal *)

Definition dotted (a b c d : Z) : text :=
  fmt_uint a ++ "." :: fmt_uint b ++ "." :: fmt_uint c ++ "." :: fmt_uint d.

Definition DIGITS : text := lit "0123456789".

Definition no_digit (radix : Z) (s : text) : Prop := ∀ c, head s = Some c → to_digit radix c = None.

Definition decimal_value (digits : text) (acc : Z) : Z :=
  foldl (λ acc c, acc * 10 + default 0 (to_digit 10 c)) acc digits.

Lemma to_digit_decimal c d : to_digit 10 c = Some d → c ∈ DIGITS.
Proof. destruct c as [[] [] [] [] [] [] [] []]; vm_compute; (discriminate || intros _; set_solver). Qed.

Lemma read_digits_inv limit max count result s n k rest : (count ≤ max)%nat →
  read_digits 10 limit max count result s = Some (n, k, rest) →
  ∃ digits, s = digits ++ rest ∧ k = (count + length digits)%nat ∧ (k ≤ max)%nat
    ∧ Forall (.∈ DIGITS) digits ∧ n = decimal_value digits result.
Proof.
  revert count result. induction s as [|c s IH]; intros count result Hle; cbn [read_digits].
  { intros [= <- <- <-]. exists []. split_and!; simpl; [done|lia|lia|constructor|done]. }
  destruct (to_digit 10 c) as [d|] eqn:Hd.
  - destruct (limit <? _); [done|]. destruct (Nat.ltb_spec max (S count)); [done|].
    intros (digits & -> & -> & Hk & Hds & ->)%IH; [|lia]. exists (c :: digits).
    split_and!; simpl; [done|lia|lia| |by rewrite Hd].
    constructor; [by eapply to_digit_decimal|done].
  - intros [= <- <- <-]. exists []. split_and!; simpl; [done|lia|lia|constructor|done].
Qed.

(** The strings of one, two and three digits without a leading zero. *)
Definition octet_texts : list text :=
  ((λ a, [a]) <$> DIGITS)
  ++ (a ← drop 1 DIGITS; b ← DIGITS; [[a; b]])
  ++ (a ← drop 1 DIGITS; b ← DIGITS; c ← DIGITS; [[a; b; c]]).

Lemma octet_texts_canonical digits : digits ∈ octet_texts → fmt_uint (decimal_value digits 0) = digits.
Proof.
  intros Hin. assert (forallb (λ ds, bool_decide (fmt_uint (decimal_value ds 0) = ds)) octet_texts = true)
    as Hall by (vm_compute; reflexivity).
  rewrite forallb_forall in Hall. apply list_elem_of_In, Hall in Hin. by apply bool_decide_eq_true in Hin.
Qed.

Lemma octet_texts_complete digits : (1 ≤ length digits ≤ 3)%nat → Forall (.∈ DIGITS) digits →
  (head digits ≠ Some "0" ∨ length digits = 1%nat) → digits ∈ octet_texts.
Proof.
  intros Hlen Hds Hz. unfold octet_texts. rewrite !elem_of_app, list_elem_of_fmap.
  assert (∀ a, a ∈ DIGITS → a ≠ "0" → a ∈ drop 1 DIGITS) as Hdrop by (unfold DIGITS; simpl; set_solver).
  destruct digits as [|a [|b [|c [|d digits]]]]; simpl in Hlen, Hz; [lia|..|lia].
  - left. exists a. by inversion_clear Hds.
  - right; left. inversion_clear Hds as [|?? Ha Hb]. inversion_clear Hb as [|?? Hb' _].
    apply list_elem_of_bind. exists a. split; [|apply Hdrop; naive_solver].
    apply list_elem_of_bind. exists b. by split; [apply list_elem_of_singleton|].
  - right; right. inversion_clear Hds as [|?? Ha Hb]. inversion_clear Hb as [|?? Hb' Hc].
    inversion_clear Hc as [|?? Hc' _].
    apply list_elem_of_bind. exists a. split; [|apply Hdrop; naive_solver].
    apply list_elem_of_bind. exists b. split; [|done].
    apply list_elem_of_bind. exists c. by split; [apply list_elem_of_singleton|].
Qed.

(** An octet is read from its decimal form only. *)
Lemma read_octet_inv s n rest : read_octet s = Some (n, rest) → s = fmt_uint n ++ rest.
Proof.
  unfold read_octet, read_number. intros Hs. apply bind_Some in Hs as ([[v k] r] & Hv & Hs).
  apply read_digits_inv in Hv as (digits & -> & -> & Hk & Hds & ->); [|lia]. simpl in Hs.
  destruct (Nat.eqb_spec (length digits) 0) as [|Hne]; [done|].
  destruct (bool_decide _ && _) eqn:Hz; [done|]. injection Hs as <- <-. f_equal. symmetry.
  apply octet_texts_canonical, octet_texts_complete; [lia|done|].
  apply andb_false_iff in Hz as [Hz|Hz].
  - left. apply bool_decide_eq_false in Hz. destruct digits; [done|exact Hz].
  - right. apply Nat.ltb_ge in Hz. lia.
Qed.

Lemma read_digits_app radix limit max count result ds n k rest : no_digit radix rest →
  read_digits radix limit max count result ds = Some (n, k, []) →
  read_digits radix limit max count result (ds ++ rest) = Some (n, k, rest).
Proof.
  intros Hrest. revert count result. induction ds as [|c ds IH]; intros count result; cbn [read_digits app].
  - intros [= <- <-]. destruct rest as [|c rest]; [done|]. simpl. by rewrite (Hrest c).
  - destruct (to_digit radix c); [|done]. destruct (limit <? _); [done|]. destruct (_ <? _)%nat; [done|]. apply IH.
Qed.

(** The decimal form of an octet, without what follows. *)
Definition octet_check (n : Z) : bool :=
  match read_digits 10 255 3 0 0 (fmt_uint n), fmt_uint n with
  | Some (m, k, []), c :: _ =>
      (m =? n) && negb (k =? 0)%nat && negb (is_char "0" c && (1 <? k)%nat)
  | _, _ => false
  end.

Lemma read_octet_fmt n rest : 0 ≤ n ≤ 255 → no_digit 10 rest →
  read_octet (fmt_uint n ++ rest) = Some (n, rest).
Proof.
  intros Hn Hrest. assert (forallb octet_check (seqZ 0 256) = true) as Hall by (vm_compute; reflexivity).
  rewrite forallb_forall in Hall. assert (octet_check n = true) as Hc.
  { apply Hall, list_elem_of_In, elem_of_seqZ. lia. }
  unfold octet_check in Hc. unfold read_octet, read_number.
  destruct (read_digits 10 255 3 0 0 (fmt_uint n)) as [[[m k] l]|] eqn:Hr; [|done]. destruct l; [|done].
  destruct (fmt_uint n) as [|c ds] eqn:Hf; [done|].
  rewrite !andb_true_iff, !negb_true_iff, Z.eqb_eq in Hc. destruct Hc as [[-> Hk] Hz].
  rewrite (read_digits_app _ _ _ _ _ _ _ _ _ Hrest Hr). simpl. rewrite Hk.
  assert (bool_decide (Some c = Some "0") = is_char "0" c) as ->.
  { unfold is_char. apply bool_decide_ext. naive_solver. }
  by rewrite Hz.
Qed.

Lemma read_separator_next {A} sep i (inner : parser A) s : read_separator sep (S i) inner (sep :: s) = inner s.
Proof. unfold read_separator, read_given_char, is_char. simpl. by rewrite bool_decide_eq_true_2. Qed.

Lemma no_digit_dot s : no_digit 10 ("." :: s).
Proof. by intros c [= <-]. Qed.

(** An IPv4 literal has one spelling: four decimal octets without leading zeros.  Every
    other form of the address (octal, hexadecimal, fewer parts, one integer) is a name. *)
Lemma parse_ip_v4 s bits : parse_ip s = Some (V4 bits) ↔
  ∃ a b c d, 0 ≤ a ≤ 255 ∧ 0 ≤ b ≤ 255 ∧ 0 ≤ c ≤ 255 ∧ 0 ≤ d ≤ 255
    ∧ bits = ipv4 a b c d ∧ s = dotted a b c d.
Proof.
  split.
  - unfold parse_ip. destruct (read_ipv4_addr s) as [[v r]|] eqn:H4.
    + destruct r; [|done]. intros [= <-].
      apply read_ipv4_addr_Some in H4 as (a & b & c & d & s1 & s2 & s3 & -> & Ha & Hb & Hc & Hd).
      exists a, b, c, d. split_and!; [by eapply read_octet_range..|done|].
      apply read_octet_inv in Ha as ->, Hb as ->, Hc as ->, Hd as ->. unfold dotted. by rewrite app_nil_r.
    + destruct (read_ipv6_addr s) as [[v [|]]|]; done.
  - intros (a & b & c & d & Ha & Hb & Hc & Hd & -> & ->). unfold parse_ip.
    assert (read_ipv4_addr (dotted a b c d) = Some (ipv4 a b c d, [])) as ->; [|done].
    unfold read_ipv4_addr, dotted. change (read_separator "." 0 read_octet) with read_octet.
    rewrite read_octet_fmt by (done || apply no_digit_dot). cbn [mbind option_bind].
    do 2 (rewrite read_separator_next, read_octet_fmt by (done || apply no_digit_dot); cbn [mbind option_bind]).
    rewrite read_separator_next, <-(app_nil_r (fmt_uint d)), read_octet_fmt by done. done.
Qed.

(** ** Authorities *)

(** The two shapes of a host: a name without colon, or an address in brackets. *)
Definition plain_host (h : text) : Prop := (":" ∉ h) ∧ ("[" ∉ h).
Definition bracketed (inner : text) : text := "[" :: inner ++ ["]"].
Definition bracket_free (inner : text) : Prop := ("[" ∉ inner) ∧ ("]" ∉ inner).

(** A host, and a port after a colon. *)
Definition authority_of (h : text) (raw : option text) : text :=
  match raw with Some p => h ++ ":" :: p | None => h end.

Lemma strip_prefix_plain h rest : "[" ∉ h → head rest ≠ Some "[" →
  strip_prefix (lit "[") (h ++ rest) = None.
Proof.
  intros Hh Hr. apply strip_prefix_None. intros r Heq. destruct h as [|c h]; simpl in Heq.
  - destruct rest as [|c rest]; [done|]. by injection Heq as -> _.
  - injection Heq as -> _. set_solver.
Qed.

Lemma is_char_refl c : is_char c c = true.
Proof. by apply bool_decide_eq_true. Qed.

(** [raw_port] finds the port of either shape. *)
Lemma raw_port_plain h raw : plain_host h → raw_port (authority_of h raw) = raw.
Proof.
  intros [Hc Hb]. unfold raw_port, split_once. destruct raw as [p|]; simpl.
  - rewrite strip_prefix_plain by (done || intros [= ]).
    rewrite find_char_app by (apply not_in_is_char || apply is_char_refl; done).
    simpl. by rewrite cons_middle, app_assoc, drop_app_length' by (rewrite length_app; simpl; lia).
  - rewrite <-(app_nil_r h), strip_prefix_plain, app_nil_r by done.
    by rewrite (proj2 (find_char_None _ _) (not_in_is_char _ _ Hc)).
Qed.

Lemma raw_port_bracketed inner raw : bracket_free inner → raw_port (authority_of (bracketed inner) raw) = raw.
Proof.
  intros [_ Hb]. unfold raw_port. set (rest := match raw with Some p => ":" :: p | None => [] end).
  assert (authority_of (bracketed inner) raw = "[" :: inner ++ "]" :: rest) as ->.
  { unfold bracketed, rest. destruct raw; simpl; by rewrite <-?app_assoc. }
  assert (strip_prefix (lit "[") ("[" :: inner ++ "]" :: rest) = Some (inner ++ "]" :: rest)) as ->
    by by apply strip_prefix_Some.
  cbn [mbind option_bind]. rewrite find_char_app by (apply not_in_is_char || apply is_char_refl; done).
  cbn [mbind option_bind]. rewrite cons_middle, app_assoc, drop_app_length' by (rewrite length_app; simpl; lia).
  unfold rest. destruct raw; [by apply strip_prefix_Some|done].
Qed.

Lemma strip_brackets_bracketed inner : strip_brackets (bracketed inner) = inner.
Proof.
  unfold strip_brackets, bracketed. assert (strip_prefix (lit "[") ("[" :: inner ++ ["]"]) = Some (inner ++ ["]"])) as ->
    by by apply strip_prefix_Some.
  unfold strip_suffix_char. cbn [mbind option_bind]. rewrite reverse_snoc, is_char_refl. simpl.
  by rewrite reverse_involutive.
Qed.

Lemma strip_brackets_plain h : "[" ∉ h → strip_brackets h = h.
Proof.
  intros Hb. unfold strip_brackets. rewrite <-(app_nil_r h), strip_prefix_plain by done. simpl. done.
Qed.

Definition digits_value (acc : Z) (s : text) : Z := foldl (λ acc c, acc * 10 + (code c - 48)) acc s.

Lemma pretty_char_digit x : (x < 10)%N →
  is_digit (pretty_N_char x) = true ∧ code (pretty_N_char x) - 48 = Z.of_N x.
Proof.
  intros Hx. assert (x = 0 ∨ x = 1 ∨ x = 2 ∨ x = 3 ∨ x = 4 ∨ x = 5 ∨ x = 6 ∨ x = 7 ∨ x = 8 ∨ x = 9)%N
    as Hcases by lia. destruct_or! Hcases; subst x; by split.
Qed.

(** The loop that prints a number writes digits before the rest, and the number is read back
    from them. *)
Lemma pretty_N_go_value x : ∀ s, forallb is_digit (lit s) = true →
  forallb is_digit (lit (pretty_N_go x s)) = true
  ∧ digits_value 0 (lit (pretty_N_go x s)) = digits_value (Z.of_N x) (lit s).
Proof.
  induction (N.lt_wf_0 x) as [x _ IH]; intros s Hs. destruct (decide (x = 0)%N) as [->|Hx].
  { by rewrite pretty_N_go_0. }
  rewrite pretty_N_go_step by lia. pose proof (N.mod_lt x 10 ltac:(lia)) as Hmod.
  destruct (pretty_char_digit (x `mod` 10) Hmod) as [Hd Hv].
  destruct (IH (x `div` 10)%N ltac:(apply N.div_lt; lia) (String (pretty_N_char (x `mod` 10)) s)) as [Hf Hval].
  { unfold lit in *. cbn [String.list_ascii_of_string forallb]. by rewrite Hd. }
  split; [done|]. rewrite Hval. unfold digits_value, lit. cbn [String.list_ascii_of_string foldl]. f_equal.
  rewrite Hv, N2Z.inj_div, N2Z.inj_mod. pose proof (Z.div_mod (Z.of_N x) 10). simpl. lia.
Qed.

Lemma parse_u16_fmt p : 0 ≤ p ≤ 65535 → parse_u16 (fmt_uint p) = Some p.
Proof.
  intros Hp. destruct p as [|p|p]; [done| |lia].
  assert (fmt_uint (Z.pos p) = lit (pretty_N_go (N.pos p) "")) as Hfmt by done.
  destruct (pretty_N_go_value (N.pos p) "" eq_refl) as [Hf Hv]. rewrite <-Hfmt in Hf, Hv.
  unfold parse_u16. destruct (fmt_uint (Z.pos p)) as [|c ds]; [done|].
  assert (match c :: ds with "+" :: rest => rest | _ => c :: ds end = c :: ds) as ->.
  { cbn [forallb] in Hf. apply andb_true_iff in Hf as [Hc _].
    destruct c as [[] [] [] [] [] [] [] []]; done. }
  rewrite Hf. change (foldl _ 0 (c :: ds)) with (digits_value 0 (c :: ds)). rewrite Hv.
  change (digits_value (Z.of_N (N.pos p)) (lit "")) with (Z.pos p).
  by rewrite (proj2 (Z.leb_le (Z.pos p) 65535)) by lia.
Qed.

Lemma parse_u16_range s p : parse_u16 s = Some p → 0 ≤ p ≤ 65535.
Proof.
  unfold parse_u16. set (digits := match s with "+" :: rest => rest | _ => s end).
  assert (∀ ds acc, 0 ≤ acc → forallb is_digit ds = true →
    0 ≤ foldl (λ acc c, acc * 10 + (code c - 48)) acc ds) as Hpos.
  { induction ds as [|c ds IH]; simpl; intros acc Hacc; [done|]. rewrite andb_true_iff. intros [Hc Hds].
    apply IH; [|done]. unfold is_digit, between in Hc. rewrite andb_true_iff, !Z.leb_le in Hc. lia. }
  destruct digits as [|c ds] eqn:Hd; [done|]. destruct (forallb is_digit (c :: ds)) eqn:Hf; [|done].
  pose proof (Hpos _ 0 ltac:(lia) Hf). set (value := foldl _ 0 (c :: ds)) in *.
  destruct (Z.leb_spec value 65535); [|done]. intros Heq. injection Heq as <-. by split.
Qed.

(** The [Host] header of a target names its port. *)
Lemma host_header_port t : bracket_free (host t) → 1 ≤ port t ≤ 65535 →
  parse_port (scheme t) (host_header t) = Ok (port t).
Proof.
  intros Hb Hp. unfold host_header, parse_port, contains_char.
  set (raw := if port t =? default_port (scheme t) then None else Some (fmt_uint (port t))).
  set (name := if bool_decide (":" ∈ host t) then bracketed (host t) else host t).
  assert (raw_port (authority_of name raw) = raw) as Hraw.
  { unfold name. case_bool_decide; [by apply raw_port_bracketed|]. apply raw_port_plain. by destruct Hb. }
  transitivity (match raw_port (authority_of name raw) with
                | None => Ok (default_port (scheme t))
                | Some raw => match parse_u16 raw with
                              | Some port => if port =? 0 then Err Malformed else Ok port
                              | None => Err Malformed end end).
  { unfold raw, authority_of. destruct (port t =? _); reflexivity. }
  rewrite Hraw. unfold raw. destruct (Z.eqb_spec (port t) (default_port (scheme t))) as [->|]; [done|].
  rewrite parse_u16_fmt by lia. destruct (Z.eqb_spec (port t) 0); [lia|done].
Qed.

(** What the http crate documents of the authority of a parsed URI: without userinfo it is
    the host, then a port after a colon or nothing; the host is a name without colon, or is
    in brackets. *)
Class UriAuthority `{HttpUri} : Prop := authority_shape url uri authority raw_host :
  uri_from_str url = Some uri → uri_authority uri = Some authority → "@" ∉ authority →
  uri_host uri = Some raw_host →
  (∃ raw, authority = authority_of raw_host raw)
  ∧ (bracket_free raw_host ∧ plain_host raw_host ∨ ∃ inner, raw_host = bracketed inner ∧ bracket_free inner).

Section target.
Context `{UriAuthority}.

Lemma parse_scheme_Ok uri s : parse_scheme uri = Ok s → uri_scheme_str uri = Some (Scheme_as_str s).
Proof.
  unfold parse_scheme. destruct (uri_scheme_str uri) as [name|]; [|done].
  case_bool_decide as H1; [|case_bool_decide as H2]; intros Hs; [| |done]; injection Hs as <-; by subst.
Qed.

Lemma parse_path_absolute uri : head (parse_path uri) = Some "/".
Proof.
  unfold parse_path. destruct (uri_path_and_query uri) as [[|c pq]|]; [done| |done].
  unfold is_char. case_bool_decide; by subst.
Qed.

Lemma parse_port_Ok s h raw p : raw_port (authority_of h raw) = raw →
  parse_port s (authority_of h raw) = Ok p →
  1 ≤ p ≤ 65535 ∧ match raw with Some r => parse_u16 r = Some p | None => p = default_port s end.
Proof.
  intros Hraw. unfold parse_port. rewrite Hraw. destruct raw as [r|].
  - destruct (parse_u16 r) as [q|] eqn:Hq; [|done]. destruct (Z.eqb_spec q 0); [done|].
    intros Hp. injection Hp as <-. apply parse_u16_range in Hq as Hr. split; [lia|done].
  - intros Hp. injection Hp as <-. split; [destruct s; simpl; lia|done].
Qed.

(** A target the parser accepts recomposes the authority of its URL: the
    authority is the host, in brackets or not, and then the port, which is an explicit
    number between 1 and 65535 or, when the URL has none, the default of the scheme; there
    is no userinfo, the request path is absolute, and the host is a literal address exactly
    when it parses as one.  The [Host] header of the target denotes the same port. *)
Theorem target_recomposes_authority url t : parse_target url = Ok t →
  ∃ uri authority raw, uri_from_str url = Some uri ∧ uri_authority uri = Some authority
    ∧ uri_scheme_str uri = Some (Scheme_as_str (scheme t)) ∧ ("@" ∉ authority)
    ∧ (authority = authority_of (host t) raw ∨ authority = authority_of (bracketed (host t)) raw)
    ∧ match raw with Some r => parse_u16 r = Some (port t) | None => port t = default_port (scheme t) end
    ∧ 1 ≤ port t ≤ 65535 ∧ host t ≠ [] ∧ head (path_and_query t) = Some "/"
    ∧ literal_ip t = parse_ip (host t)
    ∧ parse_port (scheme t) (host_header t) = Ok (port t).
Proof.
  unfold parse_target. destruct (uri_from_str url) as [uri|] eqn:Huri; [|done].
  destruct (parse_scheme uri) as [s|] eqn:Hs; [|done]. apply parse_scheme_Ok in Hs.
  destruct (uri_authority uri) as [authority|] eqn:Ha; [|done].
  destruct (contains_char "@" authority) eqn:Hat; [done|]. apply bool_decide_eq_false in Hat.
  destruct (uri_host uri) as [raw_host|] eqn:Hh; [|done].
  case_bool_decide as Hne; [done|]. case_bool_decide as Hne'; [done|].
  destruct (authority_shape url uri authority raw_host Huri Ha Hat Hh) as [[raw ->] Hshape].
  destruct (parse_port s (authority_of raw_host raw)) as [p|] eqn:Hp; [|done]. intros Ht. injection Ht as <-.
  exists uri, (authority_of raw_host raw), raw. cbn [scheme host port path_and_query literal_ip].
  assert (raw_port (authority_of raw_host raw) = raw ∧ bracket_free (strip_brackets raw_host)
    ∧ (raw_host = strip_brackets raw_host ∨ raw_host = bracketed (strip_brackets raw_host)))
    as (Hraw & Hfree & Hname).
  { destruct Hshape as [[Hfree Hplain]|(inner & -> & Hfree)].
    - rewrite strip_brackets_plain by apply Hfree. split; [by apply raw_port_plain|]. split; [done|by left].
    - rewrite strip_brackets_bracketed. split; [by apply raw_port_bracketed|]. split; [done|by right]. }
  destruct (parse_port_Ok s raw_host raw p Hraw Hp) as [Hrange Hval].
  split_and!; try done; [destruct Hname as [<-|<-]; auto|lia..|apply parse_path_absolute|].
  by apply (host_header_port {| scheme := s; host := strip_brackets raw_host; port := p;
    path_and_query := parse_path uri; literal_ip := parse_ip (strip_brackets raw_host) |}).
Qed.
End target.

(** A parser of two URLs. *)
Definition sample_url : text := lit "https://[2606:4700::1]:8443".
Definition sample_name_url : text := lit "http://example.com/jwks.json".

Definition sample_uri : HttpUri := {|
  Uri := bool;
  uri_from_str := λ url, if bool_decide (url = sample_url) then Some true
                         else if bool_decide (url = sample_name_url) then Some false else None;
  uri_scheme_str := λ uri, Some (if uri then lit "https" else lit "http");
  uri_authority := λ uri, Some (if uri then lit "[2606:4700::1]:8443" else lit "example.com");
  uri_host := λ uri, Some (if uri then lit "[2606:4700::1]" else lit "example.com");
  uri_path_and_query := λ uri, if uri then None else Some (lit "/jwks.json");
|}.

Lemma sample_authority : @UriAuthority sample_uri.
Proof.
  intros url [] authority raw_host _ [= <-] _ [= <-].
  - split; [by exists (Some (lit "8443"))|]. right. exists (lit "2606:4700::1"). split; [done|].
    split; apply (bool_decide_eq_true_1 _); vm_compute; reflexivity.
  - split; [by exists None|]. left. split; split; apply (bool_decide_eq_true_1 _); vm_compute; reflexivity.
Qed.

Definition sample_target : Target :=
  {| scheme := Https; host := lit "2606:4700::1"; port := 8443; path_and_query := lit "/";
     literal_ip := Some (V6 (ipv6 [0x2606; 0x4700; 0; 0; 0; 0; 0; 1])) |}.

Lemma target_recomposes_authority_witness :
  @parse_target sample_uri sample_url = Ok sample_target ∧ 1 ≤ port sample_target ≤ 65535
  ∧ parse_port (scheme sample_target) (host_header sample_target) = Ok (port sample_target).
Proof.
  split; [vm_compute; reflexivity|].
  destruct (@target_recomposes_authority sample_uri sample_authority sample_url sample_target)
    as (uri & authority & raw & _ & _ & _ & _ & _ & _ & Hp & _ & _ & _ & Hh); [vm_compute; reflexivity|].
  exact (conj Hp Hh).
Defined.
