(* ===== verification/Interaction.v ===== *)
(** * Interactive programs and their histories

    An asynchronous function that awaits its environment is an interaction tree: its events
    are the calls it awaits, and a loop over a stream may go on forever.  The environment is
    a function of the history, the calls made so far, so that the same call may be answered
    differently later.  A future that is dropped at a deadline has made a prefix of its calls:
    [run_prefix] runs a number of steps.  [safe] is the logic the client proofs use: an
    invariant of the history that holds at every point the program can be cut, and a
    postcondition of its result. *)

From ITree Require Import ITree.
From S2P Require Import Prelude.

Section interaction.
Context {Call : Type} {Answer : Call → Type}.

(** Awaiting a call. *)
Variant AwaitE : Type → Type :=
| Await (c : Call) : AwaitE (Answer c).

Abbreviation history := (list Call) (only parsing).

(** What the environment answers to a call, after a history. *)
Abbreviation environment := (history → ∀ c, Answer c) (only parsing).

(** The calls made within a number of steps, and the result if the program is done. *)
Fixpoint run_prefix {R} (steps : nat) (world : environment) (h : history) (t : itree AwaitE R)
    : history * option R :=
  match steps with
  | O => (h, None)
  | S steps =>
      match observe t with
      | RetF r => (h, Some r)
      | TauF t => run_prefix steps world h t
      | @VisF _ _ _ X e k =>
          match e in AwaitE X return (X → itree AwaitE R) → history * option R with
          | Await c => λ k, run_prefix steps world (h ++ [c]) (k (world h c))
          end k
      end
  end.

Lemma observe_bind {A B} (t : itree AwaitE A) (k : A → itree AwaitE B) :
  observe (ITree.bind t k) =
  match observe t with
  | RetF r => observe (k r)
  | TauF t => TauF (ITree.bind t k)
  | VisF e ke => VisF e (λ x, ITree.bind (ke x) k)
  end.
Proof.
  transitivity (observe (match observe t with
    | RetF r => k r | TauF t => Tau (ITree.bind t k) | VisF e ke => Vis e (λ x, ITree.bind (ke x) k) end));
    [reflexivity|]. by destruct (observe t).
Qed.

(** More steps make more calls, and do not change a result. *)
Lemma run_prefix_mono {R} steps more world h (t : itree AwaitE R) : steps ≤ more →
  (run_prefix steps world h t).1 `prefix_of` (run_prefix more world h t).1
  ∧ ∀ r, (run_prefix steps world h t).2 = Some r → run_prefix more world h t = run_prefix steps world h t.
Proof.
  revert more h t. induction steps as [|steps IH]; intros more h t Hle; cbn [run_prefix].
  - split; [|done]. clear Hle. revert h t. induction more as [|more IH]; intros h t; [done|]. cbn [run_prefix].
    destruct (observe t) as [r|t'|X e k]; [done|apply IH|]. destruct e.
    etrans; [|apply IH]. by apply prefix_app_r.
  - destruct more as [|more]; [lia|]. cbn [run_prefix]. destruct (observe t) as [r|t'|X e k]; [done|apply IH; lia|].
    destruct e. apply IH. lia.
Qed.

Section logic.
Context (world : environment) (I : history → Prop).

(** For a number of steps the history satisfies [I], and the result [Q]. *)
Fixpoint safe {R} (steps : nat) (Q : history → R → Prop) (h : history) (t : itree AwaitE R) : Prop :=
  I h ∧
  match steps with
  | O => True
  | S steps =>
      match observe t with
      | RetF r => Q h r
      | TauF t => safe steps Q h t
      | @VisF _ _ _ X e k =>
          match e in AwaitE X return (X → itree AwaitE R) → Prop with
          | Await c => λ k, safe steps Q (h ++ [c]) (k (world h c))
          end k
      end
  end.

Lemma safe_run {R} steps Q h (t : itree AwaitE R) : safe steps Q h t →
  I (run_prefix steps world h t).1
  ∧ ∀ r, (run_prefix steps world h t).2 = Some r → Q (run_prefix steps world h t).1 r.
Proof.
  revert h t. induction steps as [|steps IH]; intros h t; simpl; [by intros [? _]|].
  intros [HI Ht]. destruct (observe t) as [r|t'|X e k]; [|by apply IH|].
  - split; [done|]. by intros ? [= <-].
  - destruct e. by apply IH.
Qed.

Lemma safe_ret {R} steps (Q : history → R → Prop) h r : I h → Q h r → safe steps Q h (Ret r).
Proof. intros HI HQ. by destruct steps; split. Qed.

Lemma safe_tau {R} steps (Q : history → R → Prop) h t : I h → (∀ m, m < steps → safe m Q h t) →
  safe steps Q h (Tau t).
Proof. intros HI Ht. destruct steps; split; [done..|]. simpl. apply Ht. lia. Qed.

Lemma safe_mono {R} steps m (Q : history → R → Prop) h t : m ≤ steps → safe steps Q h t → safe m Q h t.
Proof.
  revert m h t. induction steps as [|steps IH]; intros [|m] h t Hle; try lia; [done|by intros [? _]|].
  simpl. intros [HI Ht]. split; [done|]. destruct (observe t) as [r|t'|X e k]; [done|apply IH; [lia|done]|].
  destruct e. apply IH; [lia|done].
Qed.

Lemma safe_bind {A B} steps (P : history → A → Prop) (Q : history → B → Prop) h t (k : A → itree AwaitE B) :
  safe steps P h t → (∀ h' a m, m ≤ steps → I h' → P h' a → safe m Q h' (k a)) →
  safe steps Q h (ITree.bind t k).
Proof.
  revert h t. induction steps as [|steps IH]; intros h t Ht Hk; [by destruct Ht|].
  destruct Ht as [HI Ht].
  pose proof (observe_bind t k) as Hob. destruct (observe t) as [a|t'|X e ke].
  - specialize (Hk h a (S steps) ltac:(lia) HI Ht). cbn [safe] in *. by rewrite Hob.
  - cbn [safe]. rewrite Hob. split; [done|]. apply IH; [done|]. intros h' a m Hm. apply Hk. lia.
  - cbn [safe]. rewrite Hob. split; [done|]. destruct e. apply IH; [done|]. intros h' a m Hm. apply Hk. lia.
Qed.

(** Awaiting a call: the invariant must hold once the call is made, answered or not. *)
Lemma safe_await {R} steps (Q : history → R → Prop) h c (k : Answer c → itree AwaitE R) :
  I h → I (h ++ [c]) → (∀ m, m < steps → safe m Q (h ++ [c]) (k (world h c))) →
  safe steps Q h (ITree.bind (ITree.trigger (Await c)) k).
Proof.
  intros HI HI' Hk. destruct steps as [|steps]; [done|]. split; [done|].
  change (safe steps Q (h ++ [c]) (ITree.bind (Ret (world h c)) k)).
  apply safe_bind with (P := λ h' a, h' = h ++ [c] ∧ a = world h c); [by apply safe_ret|].
  intros h' a m Hm _ [-> ->]. apply Hk. lia.
Qed.

Lemma safe_observe {R} steps (Q : history → R → Prop) h t u : observe t = observe u →
  safe steps Q h t → safe steps Q h u.
Proof. intros Hob. destruct steps; [done|]. cbn [safe]. by rewrite Hob. Qed.

(** A loop with an invariant [J] of its state. *)
Lemma safe_iter {A B} steps (J : history → A → Prop) (Q : history → B → Prop) h a
    (body : A → itree AwaitE (A + B)) :
  J h a →
  (∀ h a m, m ≤ steps → J h a →
     safe m (λ h r, match r with inl a => J h a | inr b => Q h b end) h (body a)) →
  safe steps Q h (ITree.iter body a).
Proof.
  revert h a. induction (lt_wf steps) as [steps _ IH]. intros h a HJ Hbody.
  apply safe_observe with (ITree.bind (body a) (λ lr,
    match lr with inl a => Tau (ITree.iter body a) | inr b => Ret b end)); [reflexivity|].
  eapply safe_bind; [apply Hbody; [lia|done]|]. intros h' [a'|b] m Hm HI Hr; [|by apply safe_ret].
  apply safe_tau; [done|]. intros m' Hm'. apply IH; [lia|done|].
  intros h'' a'' m'' Hm''. apply Hbody. lia.
Qed.
End logic.
End interaction.
