(* ===== verification/FetchTxt.v ===== *)
(** * DNS TXT lookups

    crates/ironauth-fetch txt.rs: the query and the parser of its answer, by which a tenant
    proves that it controls a domain.  A message is a list of bytes, each an [ascii]; an
    offset is a natural number, and every addition of offsets is checked against the range
    of [usize]: [usize_checked_add] is an error of the parser, and a plain [+] out of range is a
    panic.  [io::Error::other] is its message.  The theorems: the parser always returns; it
    reads back every well-formed answer; and what of a datagram it checks. *)

From S2P Require Import Prelude Machine Text FetchPolicy.
From S2P Require Import FetchTarget.

Local Open Scope char_scope.
Local Open Scope Z_scope.

(** ** Bytes and offsets *)

(** [u16::to_be_bytes] and [u32::to_be_bytes]. *)
Definition u16_be (n : Z) : text := [chr (n / 256); chr (n mod 256)].
Definition u32_be (n : Z) : text := u16_be (n / 65536) ++ u16_be (n mod 65536).

(** The result of a fallible function whose additions may overflow. *)
Abbreviation io A := (Run (Result A text)) (only parsing).

Definition other {A} (message : string) : io A := Returned (Err (lit message)).

(** [a + b] on [usize]. *)
Definition usize_add (a b : nat) : io nat :=
  if (Z.of_nat a + Z.of_nat b <=? U64_MAX) then Returned (Ok (a + b)%nat) else Panicked.

(** [a.usize_checked_add(b).ok_or_else(..)]. *)
Definition usize_checked_add (a b : nat) (message : string) : io nat :=
  if (Z.of_nat a + Z.of_nat b <=? U64_MAX) then Returned (Ok (a + b)%nat) else other message.

(** [slice.get(from..to).ok_or_else(..)]. *)
Definition get_range (s : text) (from to : nat) (message : string) : io text :=
  if ((from <=? to) && (to <=? length s))%nat then Returned (Ok (take (to - from) (drop from s)))
  else other message.

(** [slice.get(i).ok_or_else(..)]. *)
Definition get_byte (s : text) (i : nat) (message : string) : io ascii :=
  match s !! i with Some b => Returned (Ok b) | None => other message end.

(** [slice[i]]. *)
Definition index_byte (s : text) (i : nat) : io ascii :=
  match s !! i with Some b => Returned (Ok b) | None => Panicked end.

(** ** Lossy decoding *)

Definition REPLACEMENT : text := chr <$> [0xEF; 0xBF; 0xBD].

(** The second bytes of an encoding of three and of four bytes. *)
Definition second_of_three (a b : ascii) : bool :=
  (between 0xE0 0xE0 a && between 0xA0 0xBF b) || (between 0xE1 0xEC a && is_continuation b)
  || (between 0xED 0xED a && between 0x80 0x9F b) || (between 0xEE 0xEF a && is_continuation b).
Definition second_of_four (a b : ascii) : bool :=
  (between 0xF0 0xF0 a && between 0x90 0xBF b) || (between 0xF1 0xF3 a && is_continuation b)
  || (between 0xF4 0xF4 a && between 0x80 0x8F b).

(** [String::from_utf8_lossy]: a maximal prefix of an encoding that is cut short is replaced
    as a whole. *)
Fixpoint from_utf8_lossy (s : text) : text :=
  match s with
  | [] => []
  | a :: s1 =>
      if between 0 0x7F a then a :: from_utf8_lossy s1
      else match s1 with
           | [] => REPLACEMENT
           | b :: s2 =>
               if between 0xC2 0xDF a then
                 if is_continuation b then a :: b :: from_utf8_lossy s2
                 else REPLACEMENT ++ from_utf8_lossy s1
               else if second_of_three a b then
                 match s2 with
                 | [] => REPLACEMENT
                 | c :: s3 =>
                     if is_continuation c then a :: b :: c :: from_utf8_lossy s3
                     else REPLACEMENT ++ from_utf8_lossy s2
                 end
               else if second_of_four a b then
                 match s2 with
                 | [] => REPLACEMENT
                 | c :: s3 =>
                     if is_continuation c then
                       match s3 with
                       | [] => REPLACEMENT
                       | d :: s4 =>
                           if is_continuation d then a :: b :: c :: d :: from_utf8_lossy s4
                           else REPLACEMENT ++ from_utf8_lossy s3
                       end
                     else REPLACEMENT ++ from_utf8_lossy s2
                 end
               else REPLACEMENT ++ from_utf8_lossy s1
           end
  end.

(** ** The query *)

Definition TYPE_TXT : Z := 16.
Definition CLASS_IN : Z := 1.
Definition TYPE_OPT : Z := 41.
Definition UDP_PAYLOAD : nat := 1232.
Definition MAX_POINTER_JUMPS : nat := 16.
Definition MAX_ANSWERS : nat := 64.

Definition label_error : text := lit "a domain label may not exceed 63 bytes".

(** The loop of [encode_qname] over the labels. *)
Fixpoint encode_labels (labels : list text) : Result text text :=
  match labels with
  | [] => Ok [chr 0]
  | label :: rest =>
      match label with
      | [] => Err (lit "a domain label may not be empty")
      | _ =>
          let len := Z.of_nat (length label) in
          if 255 <? len then Err label_error
          else if 63 <? len then Err label_error
          else let? out := encode_labels rest in Ok (chr len :: label ++ out)
      end
  end.

Definition encode_qname (domain : text) : Result text text :=
  encode_labels (split_char "." (trim_end_char "." domain)).

Definition build_query (id : Z) (domain : text) : Result text text :=
  let? qname := encode_qname domain in
  Ok (u16_be id ++ u16_be 0x0100 ++ u16_be 1 ++ u16_be 0 ++ u16_be 0 ++ u16_be 1
      ++ qname ++ u16_be TYPE_TXT ++ u16_be CLASS_IN
      ++ [chr 0] ++ u16_be TYPE_OPT ++ u16_be (Z.of_nat UDP_PAYLOAD) ++ u32_be 0 ++ u16_be 0).

(** ** The answer *)

(** The loop of [skip_name]. *)
Fixpoint skip_name_loop (fuel : nat) (message : text) (at_ jumps : nat) : io nat :=
  match fuel with
  | O => OutOfFuel
  | S fuel =>
      let! len := get_byte message at_ "name runs past the end of the message" in
      if Z.land (code len) 0xC0 =? 0xC0 then
        let! next := usize_add at_ 1 in
        if (length message <=? next)%nat then other "truncated compression pointer" else
        let jumps := S jumps in
        if (MAX_POINTER_JUMPS <? jumps)%nat then other "too many compression pointers" else
        usize_add at_ 2
      else if code len =? 0 then usize_add at_ 1
      else
        let! at_ := usize_checked_add at_ (1 + Z.to_nat (code len)) "name length overflow" in
        skip_name_loop fuel message at_ jumps
  end.

Definition skip_name (message : text) (at_ : nat) : io nat :=
  skip_name_loop (S (length message)) message at_ 0.

Definition u16_at (message : text) (at_ : nat) : io Z :=
  let! to := usize_add at_ 2 in
  let! bytes := get_range message at_ to "message ends mid-field" in
  let! hi := index_byte bytes 0 in
  let! lo := index_byte bytes 1 in
  Returned (Ok (code hi * 256 + code lo)).

(** [for _ in 0..qdcount]. *)
Fixpoint skip_questions (message : text) (qdcount : nat) (at_ : nat) : io nat :=
  match qdcount with
  | O => Returned (Ok at_)
  | S qdcount =>
      let! at_ := skip_name message at_ in
      let! at_ := usize_checked_add at_ 4 "question overflow" in
      skip_questions message qdcount at_
  end.

(** The loop over the character-strings of a TXT record. *)
Fixpoint read_chunks (fuel : nat) (rdata : text) (chunk_at : nat) (value : text) : io text :=
  match fuel with
  | O => OutOfFuel
  | S fuel =>
      if (chunk_at <? length rdata)%nat then
        let! len := index_byte rdata chunk_at in
        let! start := usize_add chunk_at 1 in
        let! to := usize_add start (Z.to_nat (code len)) in
        let! chunk := get_range rdata start to "txt chunk runs past the record" in
        read_chunks fuel rdata to (value ++ from_utf8_lossy chunk)
      else Returned (Ok value)
  end.

(** One record: the values it adds and the offset after it. *)
Definition read_record (message : text) (at_ : nat) (out : list text) : io (list text * nat) :=
  let! at_ := skip_name message at_ in
  let! rtype := u16_at message at_ in
  let! length_at := usize_add at_ 8 in
  let! rdlength := u16_at message length_at in
  let rdlength := Z.to_nat rdlength in
  let! rdata_at := usize_add at_ 10 in
  let! rdata_to := usize_add rdata_at rdlength in
  let! rdata := get_range message rdata_at rdata_to "record data runs past the end of the message" in
  let! out :=
    if rtype =? TYPE_TXT then
      let! value := read_chunks (S (length rdata)) rdata 0 [] in Returned (Ok (out ++ [value]))
    else Returned (Ok out) in
  let! at_ := usize_checked_add rdata_at rdlength "record overflow" in
  Returned (Ok (out, at_)).

(** [for _ in 0..ancount.min(MAX_ANSWERS)]. *)
Fixpoint read_records (message : text) (count : nat) (at_ : nat) (out : list text) : io (list text) :=
  match count with
  | O => Returned (Ok out)
  | S count =>
      let! step := read_record message at_ out in
      read_records message count step.2 step.1
  end.

Definition parse_txt_response (message : text) (expected_id : Z) : io (list text) :=
  if (length message <? 12)%nat then other "response shorter than a DNS header" else
  let! id := u16_at message 0 in
  if negb (id =? expected_id) then other "response id does not match the query" else
  let! flags := u16_at message 2 in
  if negb (Z.land flags 0x0200 =? 0) then other "response truncated" else
  let rcode := Z.land flags 0x000F in
  if rcode =? 3 then Returned (Ok []) else
  if negb (rcode =? 0) then Returned (Err (lit "resolver returned rcode " ++ fmt_uint rcode)) else
  let! qdcount := u16_at message 4 in
  let! ancount := u16_at message 6 in
  let! at_ := skip_questions message (Z.to_nat qdcount) 12 in
  read_records message (Nat.min (Z.to_nat ancount) MAX_ANSWERS) at_ [].

(** ** Resolvers *)

(** [str::lines]: a line ends at a line feed, with a carriage return before it or not; there
    is no line after the last line feed. *)
Definition lines (s : text) : list text :=
  match reverse (split_char (chr 10) s) with
  | [] => []
  | last :: before =>
      ((λ line, default line (strip_suffix_char (chr 13) line)) <$> reverse before)
      ++ (if bool_decide (last = []) then [] else [last])
  end.

(** A line of /etc/resolv.conf. *)
Definition nameserver_line (line : text) : option IpAddr :=
  let line := trim (default [] (head (split_char "#" line))) in
  rest ← strip_prefix (lit "nameserver ") line;
  parse_ip (trim rest).

(** [system_nameservers], given the contents of the file. *)
Definition system_nameservers (conf : Result text text) : Result (list IpAddr) text :=
  let? conf := conf in
  let servers := omap nameserver_line (lines conf) in
  match servers with
  | [] => Err (lit "no nameserver in /etc/resolv.conf")
  | _ => Ok servers
  end.

(** The UDP socket of tokio: binding to an unspecified address of either family, sending to
    port 53 of a server, and what is received before the deadline, with its source. *)
Record UdpSocket : Type := {
  udp_bind : bool → Result () text;
  udp_send : IpAddr → text → Result () text;
  udp_recv : IpAddr → text → option (Result (text * IpAddr) text);
}.

Definition is_ipv6 (ip : IpAddr) : bool := match ip with V6 _ => true | V4 _ => false end.

(** One datagram is read into a buffer of [UDP_PAYLOAD] bytes. *)
Definition ask (socket : UdpSocket) (id : Z) (server : IpAddr) (domain : text) : io (list text) :=
  let! query := Returned (build_query id domain) in
  let! _ := Returned (udp_bind socket (is_ipv6 server)) in
  let! _ := Returned (udp_send socket server query) in
  match udp_recv socket server query with
  | None => other "dns query timed out"
  | Some received =>
      let! datagram := Returned received in
      if negb (bool_decide (datagram.2 = server)) then other "dns response from an unexpected address"
      else parse_txt_response (take UDP_PAYLOAD datagram.1) id
  end.

(** [TxtLookup::txt]: the resolvers in order, until one answers.  [ids] are the random
    identifiers of the queries. *)
Fixpoint txt_loop (socket : UdpSocket) (ids : nat → Z) (servers : list IpAddr) (domain : text)
    (last : text) : io (list text) :=
  match servers with
  | [] => Returned (Err last)
  | server :: servers =>
      match ask socket (ids 0%nat) server domain with
      | Returned (Ok records) => Returned (Ok records)
      | Returned (Err error) => txt_loop socket (λ i, ids (S i)) servers domain error
      | Panicked => Panicked
      | OutOfFuel => OutOfFuel
      end
  end.

Definition txt (socket : UdpSocket) (ids : nat → Z) (servers : list IpAddr) (domain : text) : io (list text) :=
  txt_loop socket ids servers domain (lit "no nameserver answered").

(** ** The parser returns *)

(** The function returns, and a value it returns satisfies [P]. *)
Definition returns {A} (P : A → Prop) (m : io A) : Prop :=
  match m with Returned (Ok a) => P a | Returned (Err _) => True | Panicked | OutOfFuel => False end.

Lemma returns_bind {A B} (P : A → Prop) (Q : B → Prop) (m : io A) (k : A → io B) :
  returns P m → (∀ a, P a → returns Q (k a)) → returns Q (let! x := m in k x).
Proof. destruct m as [[a|e]| |]; simpl; eauto. Qed.

Lemma returns_iff {A} (m : io A) : returns (λ _, True) m ↔ ∃ r, m = Returned r.
Proof. destruct m as [[a|e]| |]; simpl; naive_solver. Qed.

Lemma usize_add_ok a b : Z.of_nat a + Z.of_nat b ≤ U64_MAX → usize_add a b = Returned (Ok (a + b)%nat).
Proof. unfold usize_add. intros H. by rewrite (proj2 (Z.leb_le _ _) H). Qed.

Lemma usize_checked_add_ok a b e : Z.of_nat a + Z.of_nat b ≤ U64_MAX → usize_checked_add a b e = Returned (Ok (a + b)%nat).
Proof. unfold usize_checked_add. intros H. by rewrite (proj2 (Z.leb_le _ _) H). Qed.

Lemma usize_checked_add_returns a b e : returns (λ c, c = (a + b)%nat) (usize_checked_add a b e).
Proof. unfold usize_checked_add. by destruct (_ <=? _). Qed.

Lemma get_range_returns s a b e : returns (λ r, (b ≤ length s)%nat ∧ length r = (b - a)%nat) (get_range s a b e).
Proof.
  unfold get_range. destruct (Nat.leb_spec a b); [|done]. destruct (Nat.leb_spec b (length s)); [|done].
  simpl. rewrite length_take, length_drop. lia.
Qed.

Lemma get_byte_returns s i e : returns (λ b, s !! i = Some b) (get_byte s i e).
Proof. unfold get_byte. by destruct (s !! i). Qed.

Lemma code_range c : 0 ≤ code c ≤ 255.
Proof. unfold code. destruct c as [[] [] [] [] [] [] [] []]; vm_compute; split; congruence. Qed.

Section total.
Context (message : text) (Hmessage : Z.of_nat (length message) < 2 ^ 63).
Abbreviation inside := (λ at_ : nat, (at_ ≤ length message)%nat) (only parsing).

Lemma u16_at_returns at_ : Z.of_nat at_ < 2 ^ 63 + 65536 →
  returns (λ n, 0 ≤ n ≤ 65535 ∧ (at_ + 2 ≤ length message)%nat) (u16_at message at_).
Proof.
  intros Hat. unfold u16_at. rewrite usize_add_ok by (unfold U64_MAX; lia). cbn beta.
  eapply returns_bind; [apply get_range_returns|]. intros bytes [Hto Hlen].
  destruct bytes as [|hi [|lo bytes]]; simpl in Hlen; [lia|lia|]. simpl.
  pose proof (code_range hi). pose proof (code_range lo). lia.
Qed.

Lemma skip_name_loop_returns fuel at_ : (length message - at_ < fuel)%nat →
  returns inside (skip_name_loop fuel message at_ 0).
Proof.
  revert at_. induction fuel as [|fuel IH]; intros at_ Hfuel; [lia|]. cbn [skip_name_loop].
  eapply returns_bind; [apply get_byte_returns|]. intros len Hlen. apply lookup_lt_Some in Hlen.
  destruct (Z.land _ _ =? _).
  - rewrite !usize_add_ok by (unfold U64_MAX; lia). destruct (Nat.leb_spec (length message) (at_ + 1)); [done|].
    simpl. lia.
  - destruct (Z.eqb_spec (code len) 0); [rewrite usize_add_ok by (unfold U64_MAX; lia); simpl; lia|].
    eapply returns_bind; [apply usize_checked_add_returns|]. intros to ->. apply IH.
    pose proof (code_range len). lia.
Qed.

Lemma skip_name_returns at_ : returns inside (skip_name message at_).
Proof. apply skip_name_loop_returns. lia. Qed.

Lemma skip_questions_returns count at_ : (at_ ≤ length message + 4)%nat →
  returns (λ at_, (at_ ≤ length message + 4)%nat) (skip_questions message count at_).
Proof.
  revert at_. induction count as [|count IH]; intros at_ Hat; cbn [skip_questions]; [done|].
  eapply returns_bind; [apply skip_name_returns|]. intros to Hto. cbn beta in Hto.
  eapply returns_bind; [apply usize_checked_add_returns|]. intros next ->. apply IH. lia.
Qed.

Lemma read_chunks_returns rdata fuel at_ value : Z.of_nat (length rdata) < 2 ^ 63 →
  (length rdata - at_ < fuel)%nat → returns (λ _, True) (read_chunks fuel rdata at_ value).
Proof.
  intros Hr. revert at_ value. induction fuel as [|fuel IH]; intros at_ value Hfuel; [lia|]. cbn [read_chunks].
  destruct (Nat.ltb_spec at_ (length rdata)) as [Hlt|]; [|done]. unfold index_byte.
  destruct (rdata !! at_) as [len|] eqn:Hlen; [|apply lookup_ge_None in Hlen; lia].
  pose proof (code_range len). rewrite usize_add_ok by (unfold U64_MAX; lia).
  rewrite usize_add_ok by (unfold U64_MAX; lia).
  eapply returns_bind; [apply get_range_returns|]. intros chunk _. apply IH. lia.
Qed.

Lemma read_record_returns at_ out : returns (λ step, inside step.2) (read_record message at_ out).
Proof.
  unfold read_record. eapply returns_bind; [apply skip_name_returns|]. intros to Hto. cbn beta in Hto.
  eapply returns_bind; [apply u16_at_returns; lia|]. intros rtype _.
  rewrite usize_add_ok by (unfold U64_MAX; lia).
  eapply returns_bind; [apply u16_at_returns; lia|]. intros rdlength [Hrd _].
  rewrite usize_add_ok by (unfold U64_MAX; lia). rewrite usize_add_ok by (unfold U64_MAX; lia).
  eapply returns_bind; [apply get_range_returns|]. intros rdata [Hend Hlen].
  eapply (returns_bind (λ _, True)).
  { destruct (_ =? _); [|done]. eapply returns_bind; [apply read_chunks_returns; lia|]. done. }
  intros out' _. eapply returns_bind; [apply usize_checked_add_returns|]. intros next ->. simpl. lia.
Qed.

Lemma read_records_returns count at_ out : returns (λ _, True) (read_records message count at_ out).
Proof.
  revert at_ out. induction count as [|count IH]; intros at_ out; [done|]. cbn [read_records].
  eapply returns_bind; [apply read_record_returns|]. intros step _. apply IH.
Qed.

(** The parser of an answer returns on every message, with the records or
    an error: no loop runs forever, whatever the lengths and compression pointers in the
    message say, no index is out of bounds and no offset overflows. *)
Theorem parse_txt_response_total id : ∃ r, parse_txt_response message id = Returned r.
Proof.
  apply returns_iff. unfold parse_txt_response.
  destruct (Nat.ltb_spec (length message) 12); [done|].
  eapply returns_bind; [apply u16_at_returns; lia|]. intros got _. destruct (negb _); [done|].
  eapply returns_bind; [apply u16_at_returns; lia|]. intros flags _. destruct (negb _); [done|].
  destruct (_ =? 3); [done|]. destruct (negb _); [done|].
  eapply returns_bind; [apply u16_at_returns; lia|]. intros qdcount _.
  eapply returns_bind; [apply u16_at_returns; lia|]. intros ancount _.
  eapply returns_bind; [apply skip_questions_returns; lia|]. intros at_ _. apply read_records_returns.
Qed.
End total.

(** ** Reading back an answer *)

(** A name on the wire: labels, then a zero byte or a pointer to an earlier name. *)
Record Name : Type := { labels : list text; pointer : option Z }.

Definition name_ok (name : Name) : Prop :=
  Forall (λ l, (1 ≤ length l ≤ 63)%nat) (labels name)
  ∧ match pointer name with Some p => 0 ≤ p < 2 ^ 14 | None => True end.

Definition encode_label (l : text) : text := chr (Z.of_nat (length l)) :: l.

Definition encode_name (name : Name) : text :=
  (labels name ≫= encode_label)
  ++ match pointer name with Some p => u16_be (0xC000 + p) | None => [chr 0] end.

(** The data of a record: the character-strings of a TXT record, or that of another type. *)
Inductive Rdata : Type :=
| TxtData (chunks : list text)
| OtherData (rtype : Z) (raw : text).

Definition rdata_type (data : Rdata) : Z := match data with TxtData _ => TYPE_TXT | OtherData rtype _ => rtype end.

Definition encode_rdata (data : Rdata) : text :=
  match data with TxtData chunks => chunks ≫= encode_label | OtherData _ raw => raw end.

Record ResourceRecord : Type := { rr_name : Name; rr_class : Z; rr_ttl : Z; rr_data : Rdata }.

Definition rdata_ok (data : Rdata) : Prop :=
  Z.of_nat (length (encode_rdata data)) ≤ 65535
  ∧ match data with
    | TxtData chunks => Forall (λ c, (length c ≤ 255)%nat) chunks
    | OtherData rtype _ => 0 ≤ rtype ≤ 65535 ∧ rtype ≠ TYPE_TXT
    end.

Definition record_ok (rr : ResourceRecord) : Prop := name_ok (rr_name rr) ∧ rdata_ok (rr_data rr).

Definition encode_record (rr : ResourceRecord) : text :=
  encode_name (rr_name rr) ++ u16_be (rdata_type (rr_data rr)) ++ u16_be (rr_class rr)
  ++ u32_be (rr_ttl rr) ++ u16_be (Z.of_nat (length (encode_rdata (rr_data rr)))) ++ encode_rdata (rr_data rr).

(** A question: a name, a type and a class. *)
Record Question : Type := { q_name : Name; q_type : Z; q_class : Z }.

Definition encode_question (q : Question) : text := encode_name (q_name q) ++ u16_be (q_type q) ++ u16_be (q_class q).

(** A message: the header, the questions and the answers, then the other sections. *)
Definition encode_response (id flags : Z) (questions : list Question) (answers : list ResourceRecord)
    (nscount arcount : Z) (rest : text) : text :=
  u16_be id ++ u16_be flags ++ u16_be (Z.of_nat (length questions)) ++ u16_be (Z.of_nat (length answers))
  ++ u16_be nscount ++ u16_be arcount
  ++ (questions ≫= encode_question) ++ (answers ≫= encode_record) ++ rest.

(** The value of a record: its character-strings without a separator. *)
Definition record_values (rr : ResourceRecord) : list text :=
  match rr_data rr with TxtData chunks => [chunks ≫= from_utf8_lossy] | OtherData _ _ => [] end.

Lemma length_u16_be n : length (u16_be n) = 2%nat.
Proof. done. Qed.

Lemma get_byte_at pre b post e : get_byte (pre ++ b :: post) (length pre) e = Returned (Ok b).
Proof. unfold get_byte. by rewrite list_lookup_middle. Qed.

Lemma get_range_at pre s post e :
  get_range (pre ++ s ++ post) (length pre) (length pre + length s) e = Returned (Ok s).
Proof.
  unfold get_range. rewrite (proj2 (Nat.leb_le _ _)) by lia. rewrite !length_app, (proj2 (Nat.leb_le _ _)) by lia.
  rewrite drop_app_length. replace (length pre + length s - length pre)%nat with (length s) by lia.
  by rewrite take_app_length.
Qed.

Lemma u16_at_be pre n post : 0 ≤ n ≤ 65535 → Z.of_nat (length (pre ++ u16_be n ++ post)) < 2 ^ 63 →
  u16_at (pre ++ u16_be n ++ post) (length pre) = Returned (Ok n).
Proof.
  intros Hn Hlen. rewrite length_app in Hlen. unfold u16_at. rewrite usize_add_ok by (unfold U64_MAX; lia).
  change 2%nat with (length (u16_be n)). rewrite get_range_at. unfold u16_be, index_byte. simpl.
  rewrite !code_chr by (Z.to_euclidean_division_equations; lia). do 2 f_equal.
  Z.to_euclidean_division_equations; lia.
Qed.

(** The length byte of a label is not a pointer. *)
Lemma label_length_byte n : 0 ≤ n ≤ 63 → (Z.land (code (chr n)) 0xC0 =? 0xC0) = false.
Proof.
  intros Hn. rewrite code_chr by lia.
  assert (forallb (λ n, negb (Z.land n 0xC0 =? 0xC0)) (seqZ 0 64) = true) as Hall by (vm_compute; reflexivity).
  rewrite forallb_forall in Hall. apply negb_true_iff, Hall, list_elem_of_In, elem_of_seqZ. lia.
Qed.

Lemma pointer_byte p : 0 ≤ p < 2 ^ 14 → (Z.land (code (chr ((0xC000 + p) / 256))) 0xC0 =? 0xC0) = true.
Proof.
  intros Hp. assert (0xC0 ≤ (0xC000 + p) / 256 ≤ 0xFF) as Hr by (Z.to_euclidean_division_equations; lia).
  rewrite code_chr by lia. set (b := (0xC000 + p) / 256) in *. clearbody b.
  assert (forallb (λ n, Z.land n 0xC0 =? 0xC0) (seqZ 0xC0 64) = true) as Hall by (vm_compute; reflexivity).
  rewrite forallb_forall in Hall. apply Hall, list_elem_of_In, elem_of_seqZ. lia.
Qed.

Lemma skip_name_loop_encoded name fuel pre post : name_ok name →
  Z.of_nat (length (pre ++ encode_name name ++ post)) < 2 ^ 63 → (length (labels name) < fuel)%nat →
  skip_name_loop fuel (pre ++ encode_name name ++ post) (length pre) 0
  = Returned (Ok (length pre + length (encode_name name))%nat).
Proof.
  destruct name as [ls ptr]. intros [Hls Hptr]. cbn [labels pointer] in *. revert fuel pre.
  induction Hls as [|l ls Hl Hls IH]; intros fuel pre Hlen Hfuel; destruct fuel as [|fuel]; [simpl in Hfuel; lia| |simpl in Hfuel; lia|].
  - unfold encode_name in *. cbn [labels pointer mbind list_bind app] in *. rewrite !length_app in Hlen.
    cbn [skip_name_loop]. destruct ptr as [p|].
    + unfold u16_be. cbn [app]. rewrite get_byte_at, pointer_byte by done. rewrite !usize_add_ok by (unfold U64_MAX; simpl in Hlen; lia).
      rewrite (proj2 (Nat.leb_gt _ _)) by (rewrite length_app; simpl; lia). done.
    + cbn [app]. rewrite get_byte_at. simpl. by rewrite usize_add_ok by (unfold U64_MAX; simpl in Hlen; lia).
  - set (name := {| labels := ls; pointer := ptr |}) in *.
    assert (encode_name {| labels := l :: ls; pointer := ptr |} = chr (Z.of_nat (length l)) :: l ++ encode_name name) as Henc.
    { unfold encode_name, name. cbn [labels pointer mbind list_bind]. unfold encode_label at 1. simpl. by rewrite <-!app_assoc. }
    rewrite Henc in *. cbn [app] in *. cbn [skip_name_loop]. rewrite get_byte_at, label_length_byte, code_chr by lia.
    destruct (Z.eqb_spec (Z.of_nat (length l)) 0); [lia|]. rewrite Nat2Z.id.
    rewrite usize_checked_add_ok by (rewrite !length_app in Hlen; simpl in Hlen; unfold U64_MAX; lia).
    replace (pre ++ chr (Z.of_nat (length l)) :: (l ++ encode_name name) ++ post)
      with ((pre ++ chr (Z.of_nat (length l)) :: l) ++ encode_name name ++ post) in * by (rewrite <-app_assoc; simpl; by rewrite <-app_assoc).
    replace (length pre + (1 + length l))%nat with (length (pre ++ chr (Z.of_nat (length l)) :: l)) by (rewrite length_app; simpl; lia).
    rewrite IH; [|done|simpl in Hfuel; lia]. do 2 f_equal. rewrite !length_app. simpl. rewrite length_app. lia.
Qed.

Lemma bind_length_le {A B} (f : A → list B) (l : list A) : (∀ x, x ∈ l → f x ≠ []) → (length l ≤ length (l ≫= f))%nat.
Proof.
  induction l as [|x l IH]; intros Hf; [done|]. cbn [mbind list_bind length]. rewrite length_app.
  specialize (IH ltac:(intros y Hy; apply Hf; by right)). specialize (Hf x ltac:(left)).
  destruct (f x); [done|]. simpl. cbn [mbind list_bind] in IH. lia.
Qed.

Lemma skip_name_encoded name pre post : name_ok name →
  Z.of_nat (length (pre ++ encode_name name ++ post)) < 2 ^ 63 →
  skip_name (pre ++ encode_name name ++ post) (length pre)
  = Returned (Ok (length (pre ++ encode_name name))).
Proof.
  intros Hok Hlen. unfold skip_name. rewrite skip_name_loop_encoded, length_app; [done|done|done|].
  rewrite !length_app. unfold encode_name. rewrite length_app.
  pose proof (bind_length_le encode_label (labels name) ltac:(done)). lia.
Qed.

Lemma skip_questions_encoded questions pre post : Forall (λ q, name_ok (q_name q)) questions →
  Z.of_nat (length (pre ++ (questions ≫= encode_question) ++ post)) < 2 ^ 63 →
  skip_questions (pre ++ (questions ≫= encode_question) ++ post) (length questions) (length pre)
  = Returned (Ok (length (pre ++ (questions ≫= encode_question)))).
Proof.
  intros Hq. revert pre. induction Hq as [|q questions Hq Hqs IH]; intros pre Hlen.
  { simpl. by rewrite app_nil_r. }
  cbn [mbind list_bind length skip_questions] in *. fold (mbind (M:=list) encode_question questions) in *.
  set (rest := questions ≫= encode_question) in *.
  assert (pre ++ (encode_question q ++ rest) ++ post
    = pre ++ encode_name (q_name q) ++ (u16_be (q_type q) ++ u16_be (q_class q) ++ rest ++ post)) as Heq
    by (unfold encode_question; by rewrite <-!app_assoc).
  rewrite Heq in *. rewrite skip_name_encoded by done.
  rewrite usize_checked_add_ok by (rewrite !length_app in *; unfold U64_MAX; lia).
  rewrite <-Heq, app_assoc in *. rewrite (app_assoc pre (encode_question q)) in *. rewrite <-!(app_assoc (pre ++ _)) in *.
  replace (length (pre ++ encode_name (q_name q)) + 4)%nat with (length (pre ++ encode_question q)).
  2: { unfold encode_question. rewrite !length_app, !length_u16_be. lia. }
  apply IH. done.
Qed.

Lemma read_chunks_encoded chunks fuel pre value : Forall (λ c, (length c ≤ 255)%nat) chunks →
  Z.of_nat (length (pre ++ (chunks ≫= encode_label))) < 2 ^ 63 → (length chunks < fuel)%nat →
  read_chunks fuel (pre ++ (chunks ≫= encode_label)) (length pre) value
  = Returned (Ok (value ++ (chunks ≫= from_utf8_lossy))).
Proof.
  intros Hc. revert fuel pre value. induction Hc as [|c chunks Hc Hcs IH]; intros fuel pre value Hlen Hfuel;
    (destruct fuel as [|fuel]; [simpl in Hfuel; lia|]); cbn [read_chunks mbind list_bind] in *.
  - rewrite app_nil_r, Nat.ltb_irrefl. simpl. by rewrite app_nil_r.
  - fold (mbind (M:=list) encode_label chunks) in *. fold (mbind (M:=list) from_utf8_lossy chunks).
    set (rest := chunks ≫= encode_label) in *. unfold encode_label in *. cbn [app] in *.
    rewrite (proj2 (Nat.ltb_lt _ _)) by (rewrite length_app; simpl; lia).
    unfold index_byte at 1. rewrite list_lookup_middle by done. rewrite code_chr, Nat2Z.id by lia.
    rewrite length_app in Hlen. simpl in Hlen. rewrite length_app in Hlen.
    rewrite !usize_add_ok by (unfold U64_MAX; lia).
    replace (pre ++ chr (Z.of_nat (length c)) :: c ++ rest)
      with ((pre ++ [chr (Z.of_nat (length c))]) ++ c ++ rest) by by rewrite <-app_assoc.
    replace (length pre + 1)%nat with (length (pre ++ [chr (Z.of_nat (length c))])) by (rewrite length_app; simpl; lia).
    rewrite get_range_at.
    rewrite <-length_app, app_assoc. rewrite IH; [by rewrite <-app_assoc| |simpl in Hfuel; lia].
    rewrite !length_app. simpl. lia.
Qed.

Lemma read_record_encoded rr pre post out : record_ok rr →
  Z.of_nat (length (pre ++ encode_record rr ++ post)) < 2 ^ 63 →
  read_record (pre ++ encode_record rr ++ post) (length pre) out
  = Returned (Ok (out ++ record_values rr, length (pre ++ encode_record rr))).
Proof.
  intros [Hname Hdata] Hlen. unfold read_record. destruct rr as [name class ttl data]. cbn [rr_name rr_data rr_class rr_ttl] in *.
  set (raw := encode_rdata data) in *. set (size := Z.of_nat (length raw)).
  set (at_ := pre ++ encode_name name).
  assert (0 ≤ rdata_type data ≤ 65535) as Htype.
  { destruct data; [done|]. by destruct Hdata as [_ [? _]]. }
  assert (0 ≤ size ≤ 65535) as Hsize by (destruct Hdata as [Hmax _]; fold raw in Hmax; unfold size; lia).
  assert (Z.of_nat (length raw) = size) as Hraw by reflexivity.
  (* The message, cut where each field is read. *)
  set (message := pre ++ encode_record _ ++ post) in *.
  assert (message = pre ++ encode_name name ++ (u16_be (rdata_type data) ++ u16_be class ++ u32_be ttl ++ u16_be size ++ raw ++ post))
    as E1 by (unfold message, encode_record; cbn [rr_name rr_class rr_ttl rr_data]; by rewrite <-!app_assoc).
  assert (message = at_ ++ u16_be (rdata_type data) ++ (u16_be class ++ u32_be ttl ++ u16_be size ++ raw ++ post))
    as E2 by (rewrite E1; unfold at_; by rewrite <-!app_assoc).
  set (head := at_ ++ u16_be (rdata_type data) ++ u16_be class ++ u32_be ttl).
  assert (message = head ++ u16_be size ++ (raw ++ post)) as E3 by (rewrite E2; unfold head; by rewrite <-!app_assoc).
  assert (message = (head ++ u16_be size) ++ raw ++ post) as E4 by (rewrite E3; by rewrite <-!app_assoc).
  assert (length head = length at_ + 8)%nat as Hhead by (unfold head; rewrite !length_app; reflexivity).
  assert (length (head ++ u16_be size) = length at_ + 10)%nat as Hbody by (rewrite length_app, length_u16_be; lia).
  assert (Z.of_nat (length at_) + 10 + size < 2 ^ 63) as Hall.
  { rewrite E4, (length_app (head ++ _)), Hbody, length_app in Hlen. unfold size. lia. }
  assert (skip_name message (length pre) = Returned (Ok (length at_))) as ->
    by (rewrite E1; apply skip_name_encoded; [done|by rewrite <-E1]).
  assert (u16_at message (length at_) = Returned (Ok (rdata_type data))) as ->
    by (rewrite E2; apply u16_at_be; [done|by rewrite <-E2]).
  rewrite usize_add_ok, <-Hhead by (unfold U64_MAX; lia).
  assert (u16_at message (length head) = Returned (Ok size)) as ->
    by (rewrite E3; apply u16_at_be; [done|by rewrite <-E3]).
  rewrite usize_add_ok, <-Hbody by (unfold U64_MAX; lia).
  assert (Z.to_nat size = length raw) as -> by lia. rewrite usize_add_ok by (unfold U64_MAX; lia).
  assert (get_range message (length (head ++ u16_be size)) (length (head ++ u16_be size) + length raw)
            "record data runs past the end of the message" = Returned (Ok raw)) as ->
    by (rewrite E4; apply get_range_at).
  assert (length (pre ++ encode_record {| rr_name := name; rr_class := class; rr_ttl := ttl; rr_data := data |})
          = length (head ++ u16_be size) + length raw)%nat as ->.
  { pose proof (f_equal length E4) as Hl. unfold message in Hl. rewrite !length_app in *. lia. }
  rewrite usize_checked_add_ok by (unfold U64_MAX; lia). unfold record_values. cbn [rr_data].
  destruct data as [chunks|rtype other_raw]; cbn [rdata_type].
  - rewrite Z.eqb_refl. unfold raw. cbn [encode_rdata].
    rewrite (read_chunks_encoded chunks _ [] []); [done|by destruct Hdata|simpl; unfold size, raw in *; simpl in *; lia|].
    pose proof (bind_length_le encode_label chunks ltac:(done)). lia.
  - destruct Hdata as [_ [_ Hne]]. rewrite (proj2 (Z.eqb_neq _ _) Hne). by rewrite app_nil_r.
Qed.

Lemma read_records_encoded count answers pre post out : Forall record_ok answers →
  (count ≤ length answers)%nat →
  Z.of_nat (length (pre ++ (answers ≫= encode_record) ++ post)) < 2 ^ 63 →
  read_records (pre ++ (answers ≫= encode_record) ++ post) count (length pre) out
  = Returned (Ok (out ++ (take count answers ≫= record_values))).
Proof.
  intros Hok. revert count pre out. induction Hok as [|rr answers Hrr Hrest IH]; intros [|count] pre out Hle Hlen;
    cbn [read_records take mbind list_bind length] in *; [by rewrite app_nil_r|lia|by rewrite app_nil_r|].
  fold (mbind (M:=list) encode_record answers) in *. fold (mbind (M:=list) record_values (take count answers)).
  rewrite <-(app_assoc (encode_record rr)) in *. rewrite read_record_encoded by done. cbn [fst snd].
  rewrite app_assoc in *. rewrite IH by (done || lia). by rewrite <-app_assoc.
Qed.

(** The flags of an answer the parser reads: not truncated, and no error. *)
Definition flags_ok (flags : Z) : Prop :=
  0 ≤ flags ≤ 65535 ∧ Z.land flags 0x0200 = 0 ∧ Z.land flags 0x000F = 0.

(** The parser reads back every well-formed answer with the identifier of the
    query: whatever the questions, the owner names (compressed or not), the classes, the other
    records among the answers and the sections after them, it returns the values of the TXT
    records among the first 64 answers, in order, each with its character-strings joined. *)
Theorem parse_encoded_response id flags questions answers nscount arcount rest :
  0 ≤ id ≤ 65535 → flags_ok flags → Forall (λ q, name_ok (q_name q)) questions → Forall record_ok answers →
  Z.of_nat (length questions) ≤ 65535 → Z.of_nat (length answers) ≤ 65535 →
  Z.of_nat (length (encode_response id flags questions answers nscount arcount rest)) < 2 ^ 63 →
  parse_txt_response (encode_response id flags questions answers nscount arcount rest) id
  = Returned (Ok (take MAX_ANSWERS answers ≫= record_values)).
Proof.
  intros Hid [Hflags [Htc Hrcode]] Hq Ha Hql Hal Hlen. unfold parse_txt_response.
  set (message := encode_response _ _ _ _ _ _ _) in *.
  set (qs := questions ≫= encode_question) in *. set (rs := answers ≫= encode_record) in *.
  set (nq := Z.of_nat (length questions)) in *. set (na := Z.of_nat (length answers)) in *.
  set (tail := u16_be nscount ++ u16_be arcount ++ qs ++ rs ++ rest).
  set (head := u16_be id ++ u16_be flags ++ u16_be nq ++ u16_be na ++ u16_be nscount ++ u16_be arcount).
  assert (message = head ++ qs ++ (rs ++ rest)) as Eq by (unfold message, encode_response, head; by rewrite <-!app_assoc).
  rewrite (proj2 (Nat.ltb_ge _ _)) by (rewrite Eq, length_app; unfold head; simpl; lia).
  assert (u16_at message 0 = Returned (Ok id)) as -> by (apply (u16_at_be []); done).
  rewrite Z.eqb_refl. cbn [negb].
  assert (u16_at message 2 = Returned (Ok flags)) as ->
    by (apply (u16_at_be (u16_be id) flags (u16_be nq ++ u16_be na ++ tail)); done).
  rewrite Htc, Hrcode. cbn [negb Z.eqb].
  assert (u16_at message 4 = Returned (Ok nq)) as ->.
  { apply (u16_at_be (u16_be id ++ u16_be flags) nq (u16_be na ++ tail)); [unfold nq; lia|done]. }
  assert (u16_at message 6 = Returned (Ok na)) as ->.
  { apply (u16_at_be (u16_be id ++ u16_be flags ++ u16_be nq) na tail); [unfold na; lia|done]. }
  unfold nq, na. rewrite !Nat2Z.id.
  assert (skip_questions message (length questions) 12 = Returned (Ok (length (head ++ qs)))) as ->.
  { rewrite Eq. apply (skip_questions_encoded questions head (rs ++ rest)); [done|].
    change (questions ≫= encode_question) with qs. by rewrite <-Eq. }
  rewrite Eq, app_assoc in *. rewrite (read_records_encoded _ answers (head ++ qs) rest []) by (done || lia).
  simpl. do 3 f_equal. rewrite Nat.min_comm, <-take_take, (take_ge answers (length answers)); done.
Qed.

(** An answer to the query of a domain, with one TXT record of two character-strings whose
    owner is a pointer to the question, and an address record before it. *)
Definition sample_name : Name := {| labels := [lit "acme"; lit "example"]; pointer := None |}.
Definition to_question : Name := {| labels := []; pointer := Some 12 |}.
Definition sample_answers : list ResourceRecord :=
  [ {| rr_name := to_question; rr_class := 1; rr_ttl := 60; rr_data := OtherData 1 (chr <$> [10; 0; 0; 1]) |};
    {| rr_name := to_question; rr_class := 1; rr_ttl := 60; rr_data := TxtData [lit "ironauth-"; lit "token"] |} ].
Definition sample_message : text :=
  encode_response 7 0x8180 [ {| q_name := sample_name; q_type := 16; q_class := 1 |} ] sample_answers 0 0 [].

Lemma parse_txt_response_total_witness :
  Z.of_nat (length sample_message) < 2 ^ 63 ∧ ∃ r, parse_txt_response sample_message 7 = Returned r.
Proof.
  assert (Z.of_nat (length sample_message) < 2 ^ 63) as Hlen by (vm_compute; reflexivity).
  split; [exact Hlen|]. exact (parse_txt_response_total sample_message Hlen 7).
Defined.

Lemma parse_encoded_response_witness :
  parse_txt_response sample_message 7 = Returned (Ok [lit "ironauth-token"]).
Proof.
  refine (parse_encoded_response 7 0x8180 _ sample_answers 0 0 [] _ _ _ _ _ _ _).
  - lia.
  - split; [lia|]. split; reflexivity.
  - constructor; [|constructor]. split; [|exact I]. repeat (constructor; [simpl; lia|]). constructor.
  - constructor; [|constructor; [|constructor]]; (split; [split; [constructor|simpl; lia]|]).
    + split; [vm_compute; discriminate|]. cbn. unfold TYPE_TXT. lia.
    + split; [vm_compute; discriminate|]. repeat (constructor; [simpl; lia|]). constructor.
  - simpl. lia.
  - simpl. lia.
  - vm_compute. reflexivity.
Defined.

(** ** What a lookup trusts *)

(** A datagram the lookup accepts as the answer of a server to the query [id]. *)
Definition accepted_answer (socket : UdpSocket) (id : Z) (server : IpAddr) (domain : text) (records : list text) : Prop :=
  ∃ query datagram, build_query id domain = Ok query ∧ udp_recv socket server query = Some (Ok (datagram, server))
    ∧ u16_at (take UDP_PAYLOAD datagram) 0 = Returned (Ok id)
    ∧ (∃ flags, u16_at (take UDP_PAYLOAD datagram) 2 = Returned (Ok flags) ∧ Z.land flags 0x0200 = 0
         ∧ (Z.land flags 0x000F = 0 ∨ Z.land flags 0x000F = 3 ∧ records = []))
    ∧ parse_txt_response (take UDP_PAYLOAD datagram) id = Returned (Ok records).

Lemma ask_accepted socket id server domain records :
  ask socket id server domain = Returned (Ok records) → accepted_answer socket id server domain records.
Proof.
  unfold ask. destruct (build_query id domain) as [query|] eqn:Hq; [|done].
  destruct (udp_bind socket _); [|done]. destruct (udp_send socket server query); [|done].
  destruct (udp_recv socket server query) as [[[datagram from]|]|] eqn:Hr; [|done..]. cbn [fst snd].
  case_bool_decide as Hfrom; [|done]. subst from. cbn [negb]. intros Hp. exists query, datagram.
  split; [done|]. split; [done|]. revert Hp. set (message := take UDP_PAYLOAD datagram). intros Hp.
  pose proof Hp as Hparse. unfold parse_txt_response in Hp. destruct (length message <? 12)%nat; [done|].
  destruct (u16_at message 0) as [[got|]| |]; [|discriminate Hp..]. destruct (Z.eqb_spec got id) as [Hid|Hid]; [|discriminate Hp].
  cbn [negb] in Hp. split; [by rewrite Hid|]. destruct (u16_at message 2) as [[flags|]| |]; [|discriminate Hp..].
  split; [|done]. exists flags. split; [done|].
  destruct (Z.eqb_spec (Z.land flags 0x0200) 0) as [Htc|]; [|done]. split; [done|]. cbn [negb] in Hp.
  destruct (Z.eqb_spec (Z.land flags 0x000F) 3) as [H3|]; [right; injection Hp as <-; done|].
  destruct (Z.eqb_spec (Z.land flags 0x000F) 0); [by left|done].
Qed.

Lemma ask_returns socket id server domain : ∃ r, ask socket id server domain = Returned r.
Proof.
  unfold ask. destruct (build_query id domain) as [query|]; [|eauto].
  destruct (udp_bind socket _); [|eauto]. destruct (udp_send socket server query); [|eauto].
  destruct (udp_recv socket server query) as [[[datagram from]|]|]; [|eauto..].
  destruct (negb _); [eauto|]. apply parse_txt_response_total.
  rewrite length_take. unfold UDP_PAYLOAD. lia.
Qed.

Lemma txt_loop_spec socket servers : ∀ ids domain last,
  (∃ e, txt_loop socket ids servers domain last = Returned (Err e)
     ∧ ∀ i server, servers !! i = Some server → ∃ e, ask socket (ids i) server domain = Returned (Err e))
  ∨ ∃ i server records, servers !! i = Some server
      ∧ txt_loop socket ids servers domain last = Returned (Ok records)
      ∧ ask socket (ids i) server domain = Returned (Ok records)
      ∧ ∀ j other, (j < i)%nat → servers !! j = Some other → ∃ e, ask socket (ids j) other domain = Returned (Err e).
Proof.
  induction servers as [|server servers IH]; intros ids domain last; cbn [txt_loop].
  { left. exists last. split; [done|]. by intros i ? ?. }
  destruct (ask_returns socket (ids 0%nat) server domain) as [[records|e] Ha]; rewrite Ha.
  - right. exists 0%nat, server, records. split_and!; try done. intros j other Hj. lia.
  - destruct (IH (λ i, ids (S i)) domain e) as [(e' & -> & Hall)|(i & s & records & Hi & -> & Hask & Hbefore)].
    + left. exists e'. split; [done|]. intros [|i] s Hs; [injection Hs as <-; by exists e|exact (Hall i s Hs)].
    + right. exists (S i), s, records. split_and!; try done.
      intros [|j] other Hj Hs; [injection Hs as <-; by exists e|].
      exact (Hbefore j other ltac:(lia) Hs).
Qed.

(** A lookup returns; it fails only after every resolver failed, and the records
    it reports come from the first resolver that answered: a datagram from the address of that
    resolver, with the random identifier of that very query, not truncated, and without an
    error code; a name that does not exist reports no record. *)
Theorem lookup_reports_an_answer socket ids servers domain :
  (∃ e, txt socket ids servers domain = Returned (Err e)
     ∧ ∀ i server, servers !! i = Some server → ∃ e, ask socket (ids i) server domain = Returned (Err e))
  ∨ ∃ i server records, servers !! i = Some server ∧ txt socket ids servers domain = Returned (Ok records)
      ∧ accepted_answer socket (ids i) server domain records
      ∧ ∀ j other, (j < i)%nat → servers !! j = Some other → ∃ e, ask socket (ids j) other domain = Returned (Err e).
Proof.
  destruct (txt_loop_spec socket servers ids domain (lit "no nameserver answered"))
    as [?|(i & server & records & Hi & Ht & Ha & Hb)]; [by left|right].
  exists i, server, records. split_and!; try done. by apply ask_accepted.
Qed.

(** A valid encoding is decoded as it is. *)
Lemma from_utf8_lossy_valid n s : (length s ≤ n)%nat → from_utf8 s = true → from_utf8_lossy s = s.
Proof.
  revert s. induction n as [|n IH]; intros [|a s]; try done; cbn [length]; [lia|]. intros Hn.
  cbn [from_utf8 from_utf8_lossy]. destruct (between 0 0x7F a); [intros; f_equal; by apply IH; [lia|]|].
  destruct s as [|b s]; [done|]. simpl in Hn. unfold utf8_two.
  destruct (between 0xC2 0xDF a) eqn:H2; cbn [andb].
  - destruct (is_continuation b) eqn:Hb; [intros; do 2 f_equal; apply IH; [lia|done]|]. intros Hs. exfalso.
    assert (∀ lo hi, 0xDF < lo → between lo hi a = false) as Hno.
    { intros lo hi Hlo. unfold between in *. apply andb_true_iff in H2 as [_ H2]. apply Z.leb_le in H2.
      apply andb_false_iff. left. apply Z.leb_gt. lia. }
    destruct s as [|c s]; [done|]. unfold utf8_three, utf8_four in Hs. rewrite !Hno in Hs by lia. cbn [orb andb] in Hs.
    by destruct s as [|d s].
  - destruct s as [|c s]; [done|]. simpl in Hn.
    change (utf8_three a b c) with (second_of_three a b && is_continuation c).
    destruct (second_of_three a b) eqn:H3; cbn [andb].
    + destruct (is_continuation c) eqn:Hc; [intros; do 3 f_equal; apply IH; [lia|done]|]. intros Hs. exfalso.
      destruct s as [|d s]; [done|]. unfold utf8_four in Hs. by rewrite Hc, andb_false_r in Hs.
    + destruct s as [|d s]; [done|]. simpl in Hn.
      change (utf8_four a b c d) with (second_of_four a b && is_continuation c && is_continuation d).
      destruct (second_of_four a b); cbn [andb]; [|discriminate].
      destruct (is_continuation c); cbn [andb]; [|discriminate]. destruct (is_continuation d); [|discriminate].
      intros. do 4 f_equal. apply IH; [lia|done].
Qed.

(** ** Where the code departs from its comments *)

(** The module comment says that a response is matched on the question too; the questions are
    only skipped, so an answer to the question of another name is accepted_answer, as is a message
    that is not marked as a response, and a record of another owner and class. *)
Definition other_name : Name := {| labels := [lit "attacker"; lit "test"]; pointer := None |}.

Example question_not_matched :
  let answer := {| rr_name := other_name; rr_class := 3; rr_ttl := 0; rr_data := TxtData [lit "token"] |} in
  let datagram := encode_response 7 0x0100 [ {| q_name := other_name; q_type := 1; q_class := 3 |} ] [answer] 0 0 [] in
  let socket := {| udp_bind := λ _, Ok (); udp_send := λ _ _, Ok ();
                   udp_recv := λ server _, Some (Ok (datagram, server)) |} in
  txt socket (λ _, 7) [V4 (ipv4 9 9 9 9)] (lit "acme.example") = Returned (Ok [lit "token"]).
Proof. vm_compute. reflexivity. Qed.

(** A truncated answer is an error because a partial set could omit the record; the records
    after the 64th are omitted without one. *)
Example sixty_fifth_record_omitted :
  let rr value := {| rr_name := to_question; rr_class := 1; rr_ttl := 0; rr_data := TxtData [lit value] |} in
  let message := encode_response 7 0x8180 [ {| q_name := sample_name; q_type := 16; q_class := 1 |} ]
                   (replicate 64 (rr "x"%string) ++ [rr "token"%string]) 0 0 [] in
  (length message ≤ UDP_PAYLOAD)%nat
  ∧ parse_txt_response message 7 = Returned (Ok (replicate 64 (lit "x"))).
Proof. split; [apply Nat.leb_le|]; vm_compute; reflexivity. Qed.

(** A name ends at its first pointer, so the budget of pointers is never used up. *)
Lemma jump_budget_unused message fuel at_ :
  skip_name_loop fuel message at_ 0 ≠ Returned (Err (lit "too many compression pointers")).
Proof.
  revert at_. induction fuel as [|fuel IH]; intros at_; cbn [skip_name_loop]; [done|]. unfold get_byte.
  destruct (message !! at_); [|done]. destruct (_ =? 0xC0).
  - unfold usize_add. destruct (Z.of_nat at_ + Z.of_nat 1 <=? U64_MAX); [|done]. destruct (_ <=? _)%nat; [done|].
    cbn [Nat.ltb Nat.leb MAX_POINTER_JUMPS]. by destruct (_ <=? _).
  - destruct (_ =? 0); [unfold usize_add; by destruct (_ <=? _)|].
    unfold usize_checked_add. destruct (_ <=? _); [apply IH|done].
Qed.
