(* ===== verification/FetchDispatch.v ===== *)
(** * The outbound dispatcher

    crates/ironauth-fetch lib.rs, connect.rs, error.rs and observe.rs: the one path by which
    the server makes an outbound HTTP request.  The exchange is an interaction tree over the
    calls it awaits: name resolution, the TCP connection, the TLS handshake, the HTTP
    handshake and request, and each frame of the body.  A connection is a handle; the
    environment answers each call as it likes, and differently each time.  The total deadline
    drops the exchange after some number of steps, which [clock] gives for each deadline.

    Parameters: the header map of the http crate ([HeaderMap], a class with its documented
    laws), and its checks of header values, request targets and server names ([HttpChecks]). *)

From ITree Require Import ITree.
From S2P Require Import Prelude Machine Text FetchPolicy Interaction.
From S2P Require Import FetchTarget.

Local Open Scope char_scope.
Local Open Scope Z_scope.

(** ** The http crate *)

(** [http::HeaderMap]: names are lower case. *)
Class HeaderMap := {
  Headers : Type;
  hm_empty : Headers;
  hm_append : Headers → text → text → Headers;
  hm_insert : Headers → text → text → Headers;
  hm_contains_key : Headers → text → bool;
  hm_iter : Headers → list (text * text);
}.

(** The values of a name, in the order of the iterator. *)
Definition values_of (name : text) (pairs : list (text * text)) : list text :=
  snd <$> filter (λ pair, pair.1 = name) pairs.

(** Its documentation: [append] adds a value to the values of a name, [insert] replaces them,
    and the iterator yields the values of each name in order. *)
Class HeaderMapLaws `{HeaderMap} : Prop := {
  iter_empty : hm_iter hm_empty = [];
  iter_append h name value other :
    values_of other (hm_iter (hm_append h name value))
    = values_of other (hm_iter h) ++ (if bool_decide (name = other) then [value] else []);
  iter_insert h name value other :
    values_of other (hm_iter (hm_insert h name value))
    = if bool_decide (name = other) then [value] else values_of other (hm_iter h);
  contains_iter h name : hm_contains_key h name = true ↔ values_of name (hm_iter h) ≠ [];
}.

(** [HeaderValue::from_str], [Request::builder] with a method and a target, and
    [ServerName::try_from]: whether they succeed. *)
Class HttpChecks := {
  header_value_ok : text → bool;
  request_ok : text → text → bool;
  server_name_ok : text → bool;
}.

(** ** Requests *)

Inductive FetchPurpose : Set :=
| JwksUri | ClaimsEnrichment | SectorIdentifier | ClientMetadata | AdvisoryPoll | HookFetch
| WebhookDelivery | SsfPush | MessageDelivery | ExternalSigner | LogStreamDelivery | FlowTarget
| Logo | AcmeDirectory | KmsRequest | LazyMigration | BreachScreening | Mds3Sync
| FederationDiscovery | FederationJwks | FederationUserinfo | FederationToken | ScimPush.

#[export] Instance FetchPurpose_eq_dec : EqDecision FetchPurpose.
Proof. solve_decision. Defined.

Definition FetchPurpose_label (purpose : FetchPurpose) : string :=
  match purpose with
  | ScimPush => "scim_push"
  | JwksUri => "jwks_uri"
  | ClaimsEnrichment => "claims_enrichment"
  | SectorIdentifier => "sector_identifier"
  | ClientMetadata => "client_metadata"
  | HookFetch => "hook_fetch"
  | WebhookDelivery => "webhook_delivery"
  | SsfPush => "ssf_push"
  | MessageDelivery => "message_delivery"
  | ExternalSigner => "external_signer"
  | LogStreamDelivery => "log_stream_delivery"
  | AdvisoryPoll => "advisory_poll"
  | FlowTarget => "flow_target"
  | Logo => "logo"
  | AcmeDirectory => "acme_directory"
  | KmsRequest => "kms_request"
  | LazyMigration => "lazy_migration"
  | BreachScreening => "breach_screening"
  | Mds3Sync => "mds3_sync"
  | FederationDiscovery => "federation_discovery"
  | FederationJwks => "federation_jwks"
  | FederationUserinfo => "federation_userinfo"
  | FederationToken => "federation_token"
  end.

Definition DEFAULT_MAX_RESPONSE_BYTES : Z := Z.shiftl 1 20.
Definition MDS3_SYNC_MIN_RESPONSE_BYTES : Z := Z.shiftl 32 20.

(** A [Duration], in nanoseconds. *)
Definition DEFAULT_TOTAL_TIMEOUT : Z := 10 * 1000000000.

Definition response_cap (purpose : FetchPurpose) (configured : Z) : Z :=
  match purpose with
  | Mds3Sync =>
      if configured <? MDS3_SYNC_MIN_RESPONSE_BYTES then MDS3_SYNC_MIN_RESPONSE_BYTES else configured
  | _ => configured
  end.

Record FetchLimits : Set := { max_response_bytes : Z; total_timeout : Z }.

Definition FetchLimits_default : FetchLimits :=
  {| max_response_bytes := DEFAULT_MAX_RESPONSE_BYTES; total_timeout := DEFAULT_TOTAL_TIMEOUT |}.

Record FetchRequest : Type := {
  req_purpose : FetchPurpose;
  req_url : text;
  req_method : text;
  req_headers : list (text * text);
  req_body : text;
  req_allow_http : bool;
  req_timeout : option Z;
}.

Definition FetchRequest_new (purpose : FetchPurpose) (method url : text) : FetchRequest :=
  {| req_purpose := purpose; req_url := url; req_method := method; req_headers := [];
     req_body := []; req_allow_http := false; req_timeout := None |}.

Definition FetchRequest_get (purpose : FetchPurpose) (url : text) : FetchRequest :=
  FetchRequest_new purpose (lit "GET") url.

Definition FetchRequest_header (r : FetchRequest) (name value : text) : FetchRequest :=
  {| req_purpose := req_purpose r; req_url := req_url r; req_method := req_method r;
     req_headers := req_headers r ++ [(name, value)];
     req_body := req_body r; req_allow_http := req_allow_http r; req_timeout := req_timeout r |}.

Definition FetchRequest_timeout (r : FetchRequest) (timeout : Z) : FetchRequest :=
  {| req_purpose := req_purpose r; req_url := req_url r; req_method := req_method r;
     req_headers := req_headers r;
     req_body := req_body r; req_allow_http := req_allow_http r; req_timeout := Some timeout |}.

Definition FetchRequest_body (r : FetchRequest) (body : text) : FetchRequest :=
  {| req_purpose := req_purpose r; req_url := req_url r; req_method := req_method r;
     req_headers := req_headers r;
     req_body := body; req_allow_http := req_allow_http r; req_timeout := req_timeout r |}.

Definition FetchRequest_allow_plaintext_http (r : FetchRequest) : FetchRequest :=
  {| req_purpose := req_purpose r; req_url := req_url r; req_method := req_method r;
     req_headers := req_headers r;
     req_body := req_body r; req_allow_http := true; req_timeout := req_timeout r |}.

(** ** Failures and metrics *)

Inductive BlockReason : Set :=
| Address (class : BlockClass)
| ResolutionFailed
| NoAddresses.

Definition BlockReason_label (reason : BlockReason) : string :=
  match reason with
  | Address class => BlockClass_label class
  | ResolutionFailed => "resolution_failed"
  | NoAddresses => "no_addresses"
  end.

Inductive DispatchFailure : Set :=
| FailBlocked (reason : BlockReason)
| FailRedirect (status : Z)
| FailTooLarge
| FailTimeout
| FailUpstream.

Inductive FetchError : Type :=
| Blocked
| SchemeNotAllowed
| RedirectNotFollowed (status : Z)
| ResponseTooLarge (limit : Z)
| Timeout
| Upstream
| InvalidRequest (why : text).

Definition FetchError_to_string (err : FetchError) : text :=
  match err with
  | Blocked => lit "outbound request blocked by destination policy"
  | SchemeNotAllowed => lit "plaintext http is not permitted for this request"
  | RedirectNotFollowed status => lit "redirect response (" ++ fmt_uint status ++ lit ") not followed"
  | ResponseTooLarge limit => lit "response exceeded the " ++ fmt_uint limit ++ lit "-byte size cap"
  | Timeout => lit "outbound request exceeded its deadline"
  | Upstream => lit "outbound connection or exchange failed"
  | InvalidRequest why => lit "invalid outbound request: " ++ why
  end.

Inductive Outcome : Set :=
| OutcomeOk | OutcomeBlocked | OutcomeSchemeNotAllowed | OutcomeRedirect | OutcomeTooLarge
| OutcomeTimeout | OutcomeUpstreamError | OutcomeInvalidRequest.

Definition Outcome_label (outcome : Outcome) : string :=
  match outcome with
  | OutcomeOk => "ok"
  | OutcomeBlocked => "blocked"
  | OutcomeSchemeNotAllowed => "scheme_not_allowed"
  | OutcomeRedirect => "redirect"
  | OutcomeTooLarge => "too_large"
  | OutcomeTimeout => "timeout"
  | OutcomeUpstreamError => "upstream_error"
  | OutcomeInvalidRequest => "invalid_request"
  end.

(** A counter that is incremented, with its labels. *)
Definition FETCH_REQUESTS_TOTAL : string := "ironauth_outbound_fetch_requests_total".
Definition FETCH_BLOCKED_TOTAL : string := "ironauth_outbound_fetch_blocked_total".

Record Metric : Set := { counter : string; label_purpose : string; label_value : string }.

Definition record_outcome (purpose : FetchPurpose) (outcome : Outcome) : list Metric :=
  [ {| counter := FETCH_REQUESTS_TOTAL; label_purpose := FetchPurpose_label purpose;
       label_value := Outcome_label outcome |} ].

Definition record_block (purpose : FetchPurpose) (reason : BlockReason) : list Metric :=
  record_outcome purpose OutcomeBlocked
  ++ [ {| counter := FETCH_BLOCKED_TOTAL; label_purpose := FetchPurpose_label purpose;
          label_value := BlockReason_label reason |} ].

Definition map_failure (purpose : FetchPurpose) (effective_limit : Z) (failure : DispatchFailure)
    : list Metric * FetchError :=
  match failure with
  | FailBlocked reason => (record_block purpose reason, Blocked)
  | FailRedirect status => (record_outcome purpose OutcomeRedirect, RedirectNotFollowed status)
  | FailTooLarge => (record_outcome purpose OutcomeTooLarge, ResponseTooLarge effective_limit)
  | FailTimeout => (record_outcome purpose OutcomeTimeout, Timeout)
  | FailUpstream => (record_outcome purpose OutcomeUpstreamError, Upstream)
  end.

(** ** The exchange *)

Section dispatch.
Context `{HeaderMap} `{HttpChecks}.

(** What is put on the wire, and the head of what comes back. *)
Record HttpRequest : Type := { rq_method : text; rq_path : text; rq_headers : Headers; rq_body : text }.
Record ResponseHead : Type := { rs_status : Z; rs_headers : Headers }.

(** A frame of a body. *)
Inductive Frame : Type := Data (bytes : text) | Trailers.

Record FetchResponse : Type := { status : Z; headers : Headers; body : text }.

(** The calls an exchange awaits. *)
Inductive Call : Type :=
| Resolve (name : text) (at_port : Z)
| Dial (ip : IpAddr) (at_port : Z)
| TlsConnect (server_name : text) (stream : nat)
| HttpHandshake (stream : nat)
| SendRequest (stream : nat) (request : HttpRequest)
| NextFrame (stream : nat).

(** Their answers: an error of the call is [None]; the end of a body is [None], and an error
    of a frame is [Some None]. *)
Definition Answer (c : Call) : Type :=
  match c with
  | Resolve _ _ => option (list IpAddr)
  | Dial _ _ => option nat
  | TlsConnect _ _ => option nat
  | HttpHandshake _ => bool
  | SendRequest _ _ => option ResponseHead
  | NextFrame _ => option (option Frame)
  end.

Abbreviation NetE := (@AwaitE Call Answer).
Abbreviation net A := (itree NetE (Result A DispatchFailure)) (only parsing).

Definition await (c : Call) : itree NetE (Answer c) := ITree.trigger (Await c).

Notation "'let@' x ':=' e 'in' k" := (ITree.bind e (λ x, k))
  (at level 10, x pattern, e at level 100, k at level 200).
Notation "'let@?' x ':=' e 'in' k" :=
  (ITree.bind e (λ r, match r with Ok x => k | Err err => Ret (Err err) end))
  (at level 10, x pattern, e at level 100, k at level 200).

Definition tls_connect (server : text) (stream : nat) : net nat :=
  if negb (server_name_ok server) then Ret (Err FailUpstream) else
  let@ secured := await (TlsConnect server stream) in
  Ret (match secured with Some io => Ok io | None => Err FailUpstream end).

Definition is_connector_owned (name : text) : bool :=
  bool_decide (name = lit "content-length") || bool_decide (name = lit "transfer-encoding")
  || bool_decide (name = lit "connection")
  || match strip_prefix (lit "proxy-") name with Some _ => true | None => false end.

(** The loop that installs the headers. *)
Definition install_headers (pairs : list (text * text)) : Headers :=
  foldl (λ dest pair, if is_connector_owned pair.1 then dest else hm_append dest pair.1 pair.2)
    hm_empty pairs.

(** The response comes with the connection its body is read from. *)
Definition send (io : nat) (method path : text) (hs : Headers) (payload : text) : net (ResponseHead * nat) :=
  let@ ready := await (HttpHandshake io) in
  if negb ready then Ret (Err FailUpstream) else
  if negb (request_ok method path) then Ret (Err FailUpstream) else
  let request := {| rq_method := method; rq_path := path;
                    rq_headers := install_headers (hm_iter hs); rq_body := payload |} in
  let@ response := await (SendRequest io request) in
  Ret (match response with Some head => Ok (head, io) | None => Err FailUpstream end).

(** [usize::try_from] of a [u64] on a host of 64 bits, and [saturating_add]. *)
Definition usize_try_from (n : Z) : option Z := if n <=? U64_MAX then Some n else None.

(** One round of the loop of [read_capped]. *)
Definition read_frame (io : nat) (cap : Z) (buf : text) : itree NetE (text + Result text DispatchFailure) :=
  let@ next := await (NextFrame io) in
  Ret (match next with
       | None => inr (Ok buf)
       | Some None => inr (Err FailUpstream)
       | Some (Some (Data data)) =>
           if cap <? u64_saturating_add (Z.of_nat (length buf)) (Z.of_nat (length data))
           then inr (Err FailTooLarge) else inl (buf ++ data)
       | Some (Some Trailers) => inl buf
       end).

Definition read_capped (io : nat) (max_bytes : Z) : net text :=
  let cap := default U64_MAX (usize_try_from max_bytes) in
  ITree.iter (read_frame io cap) [].

Definition is_redirection (code : Z) : bool := (300 <=? code) && (code <? 400).

Definition finish (response : ResponseHead * nat) (max_bytes : Z) : net FetchResponse :=
  let '(head, io) := response in
  if is_redirection (rs_status head) && hm_contains_key (rs_headers head) (lit "location")
  then Ret (Err (FailRedirect (rs_status head))) else
  let@? content := read_capped io max_bytes in
  Ret (Ok {| status := rs_status head; headers := rs_headers head; body := content |}).

Record Dispatch : Type := {
  d_target : Target;
  d_method : text;
  d_headers : Headers;
  d_body : text;
  d_limits : FetchLimits;
}.

(** The first denied address. *)
Fixpoint first_denied (addrs : list IpAddr) : option BlockClass :=
  match addrs with
  | [] => None
  | ip :: addrs => match classify ip with Some class => Some class | None => first_denied addrs end
  end.

Definition lookup_addrs (t : Target) : net (list IpAddr) :=
  match literal_ip t with
  | Some ip => Ret (Ok [ip])
  | None =>
      let@ answer := await (Resolve (host t) (port t)) in
      Ret (match answer with Some addrs => Ok addrs | None => Err (FailBlocked ResolutionFailed) end)
  end.

Definition dial (ip : IpAddr) (at_port : Z) : net nat :=
  let@ stream := await (Dial ip at_port) in
  Ret (match stream with Some s => Ok s | None => Err FailUpstream end).

Definition exchange (d : Dispatch) : net FetchResponse :=
  let t := d_target d in
  let@? addrs := lookup_addrs t in
  match addrs with
  | [] => Ret (Err (FailBlocked NoAddresses))
  | first :: _ =>
      match first_denied addrs with
      | Some class => Ret (Err (FailBlocked (Address class)))
      | None =>
          let@? stream := dial first (port t) in
          let@? response :=
            match scheme t with
            | Https =>
                let@? tls_stream := tls_connect (host t) stream in
                send tls_stream (d_method d) (path_and_query t) (d_headers d) (d_body d)
            | Http => send stream (d_method d) (path_and_query t) (d_headers d) (d_body d)
            end in
          finish response (max_response_bytes (d_limits d))
      end
  end.

(** [run]: the exchange under the deadline.  [clock] is the number of steps an exchange
    makes before a deadline. *)
Definition Dispatch_run (world : list Call → ∀ c, Answer c) (clock : Z → nat) (d : Dispatch)
    : list Call * Result FetchResponse DispatchFailure :=
  let '(calls, result) := run_prefix (clock (total_timeout (d_limits d))) world [] (exchange d) in
  (calls, match result with Some r => r | None => Err FailTimeout end).

(** ** The dispatcher *)

Definition assemble_headers (t : Target) (caller : list (text * text)) : Result Headers FetchError :=
  let hs := foldl (λ hs pair, hm_append hs pair.1 pair.2) hm_empty caller in
  if header_value_ok (host_header t) then Ok (hm_insert hs (lit "host") (host_header t))
  else Err (InvalidRequest (lit "host is not a valid header value")).

(** The limits of one request. *)
Definition effective_limits (limits : FetchLimits) (request : FetchRequest) : FetchLimits :=
  {| max_response_bytes := response_cap (req_purpose request) (max_response_bytes limits);
     total_timeout := match req_timeout request with
                      | Some requested => Z.min (total_timeout limits) requested
                      | None => total_timeout limits
                      end |}.

Context `{HttpUri}.

Definition fetch (limits : FetchLimits) (world : list Call → ∀ c, Answer c) (clock : Z → nat)
    (request : FetchRequest) : list Call * list Metric * Result FetchResponse FetchError :=
  let purpose := req_purpose request in
  match parse_target (req_url request) with
  | Err err => ([], record_outcome purpose OutcomeInvalidRequest, Err (InvalidRequest (TargetError_to_string err)))
  | Ok t =>
      if bool_decide (scheme t = Http) && negb (req_allow_http request)
      then ([], record_outcome purpose OutcomeSchemeNotAllowed, Err SchemeNotAllowed) else
      match assemble_headers t (req_headers request) with
      | Err err => ([], record_outcome purpose OutcomeInvalidRequest, Err err)
      | Ok hs =>
          let limits := effective_limits limits request in
          let dispatch := {| d_target := t; d_method := req_method request; d_headers := hs;
                             d_body := req_body request; d_limits := limits |} in
          let '(calls, result) := Dispatch_run world clock dispatch in
          match result with
          | Ok response => (calls, record_outcome purpose OutcomeOk, Ok response)
          | Err failure =>
              let '(metrics, err) := map_failure purpose (max_response_bytes limits) failure in
              (calls, metrics, Err err)
          end
      end
  end.

(** ** The order of the calls *)

Section protocol.
Context (world : list Call → ∀ c, Answer c) (d : Dispatch).

Abbreviation t := (d_target d) (only parsing).

(** The address to connect to is known after the calls [h]: the literal, or the first address
    of the one resolution; no address of the answer is denied. *)
Definition looked_up (h : list Call) (ip : IpAddr) : Prop :=
  match literal_ip t with
  | Some literal => h = [] ∧ ip = literal ∧ classify ip = None
  | None => h = [Resolve (host t) (port t)]
      ∧ ∃ rest, world [] (Resolve (host t) (port t)) = Some (ip :: rest)
          ∧ Forall (λ a, classify a = None) (ip :: rest)
  end.

(** A TCP connection to it is open. *)
Definition connected (h : list Call) (stream : nat) : Prop :=
  ∃ before ip, looked_up before ip ∧ h = before ++ [Dial ip (port t)]
    ∧ world before (Dial ip (port t)) = Some stream.

(** The connection requests may be sent on: over TLS with the name of the target, unless the
    scheme is plain HTTP. *)
Definition secured (h : list Call) (io : nat) : Prop :=
  match scheme t with
  | Http => connected h io
  | Https => ∃ before stream, connected before stream ∧ h = before ++ [TlsConnect (host t) stream]
      ∧ world before (TlsConnect (host t) stream) = Some io
  end.

Definition wire_request : HttpRequest :=
  {| rq_method := d_method d; rq_path := path_and_query t;
     rq_headers := install_headers (hm_iter (d_headers d)); rq_body := d_body d |}.

(** The head of the response to the one request. *)
Definition answered (h : list Call) (io : nat) (head : ResponseHead) : Prop :=
  ∃ before, secured before io ∧ h = before ++ [HttpHandshake io; SendRequest io wire_request]
    ∧ world (before ++ [HttpHandshake io]) (SendRequest io wire_request) = Some head.

(** The histories of the resolve, validate, pin, connect and exchange line. *)
Inductive allowed : list Call → Prop :=
| allowed_start : allowed []
| allowed_resolve : literal_ip t = None → allowed [Resolve (host t) (port t)]
| allowed_dial before ip : looked_up before ip → allowed (before ++ [Dial ip (port t)])
| allowed_tls before stream : scheme t = Https → connected before stream →
    allowed (before ++ [TlsConnect (host t) stream])
| allowed_handshake before io : secured before io → allowed (before ++ [HttpHandshake io])
| allowed_request before io : secured before io →
    allowed (before ++ [HttpHandshake io; SendRequest io wire_request])
| allowed_frames before io head n : answered before io head →
    is_redirection (rs_status head) && hm_contains_key (rs_headers head) (lit "location") = false →
    allowed (before ++ replicate n (NextFrame io)).

Abbreviation safely := (safe world allowed) (only parsing).

(** A call whose answer is all that is used. *)
Lemma safe_await_ret {R} steps (Q : list Call → R → Prop) h c (f : Answer c → R) :
  allowed h → allowed (h ++ [c]) → Q (h ++ [c]) (f (world h c)) →
  safely steps Q h (ITree.bind (await c) (λ a, Ret (f a))).
Proof. intros Hh Hc HQ. apply safe_await; [done..|]. intros m _. by apply safe_ret. Qed.

Lemma connected_allowed h s : connected h s → allowed h.
Proof. intros (before & ip & Hl & -> & _). by constructor. Qed.

Lemma secured_allowed h io : secured h io → allowed h.
Proof.
  unfold secured. destruct (scheme t) eqn:Hs; [|by apply connected_allowed].
  intros (before & stream & Hc & -> & _). by apply allowed_tls.
Qed.

Lemma answered_allowed h io head : answered h io head → allowed h.
Proof. intros (before & Hs & -> & _). by apply allowed_request. Qed.

(** What the body of a response is: the data of the first [n] frames. *)
Fixpoint received (h : list Call) (io : nat) (n : nat) : option text :=
  match n with
  | O => Some []
  | S n =>
      buf ← received h io n;
      match world (h ++ replicate n (NextFrame io)) (NextFrame io) with
      | Some (Some (Data data)) => Some (buf ++ data)
      | Some (Some Trailers) => Some buf
      | _ => None
      end
  end.

(** The answer after the first [n] frames. *)
Definition next_frame (h : list Call) (io : nat) (n : nat) : option (option Frame) :=
  world (h ++ replicate n (NextFrame io)) (NextFrame io).

(** How the reading of a body ends. *)
Definition read_result (h : list Call) (io : nat) (cap : Z) (r : Result text DispatchFailure) : Prop :=
  ∃ n buf, received h io n = Some buf ∧ Z.of_nat (length buf) ≤ cap
    ∧ match r with
      | Ok content => content = buf ∧ next_frame h io n = None
      | Err FailUpstream => next_frame h io n = Some None
      | Err FailTooLarge => ∃ data, next_frame h io n = Some (Some (Data data))
          ∧ cap < Z.of_nat (length buf) + Z.of_nat (length data)
      | Err _ => False
      end.

Lemma read_capped_safe steps h io head max : answered h io head → 0 ≤ max < U64_MAX →
  is_redirection (rs_status head) && hm_contains_key (rs_headers head) (lit "location") = false →
  safely steps (λ _ r, read_result h io max r) h (read_capped io max).
Proof.
  intros Hans Hmax Hno. unfold read_capped, usize_try_from. rewrite (proj2 (Z.leb_le max U64_MAX)) by lia.
  change (default U64_MAX (Some max)) with max. apply safe_iter with (J := λ h' buf, ∃ n, h' = h ++ replicate n (NextFrame io)
    ∧ received h io n = Some buf ∧ Z.of_nat (length buf) ≤ max).
  { exists 0%nat. split; [by rewrite app_nil_r|]. split; [done|simpl; lia]. }
  intros h' buf m _ (n & -> & Hbuf & Hlen).
  assert (allowed (h ++ replicate n (NextFrame io))) as Hn by by eapply allowed_frames.
  assert (h ++ replicate n (NextFrame io) ++ [NextFrame io] = h ++ replicate (S n) (NextFrame io)) as Hsnoc
    by by rewrite <-replicate_cons_app.
  assert (allowed (h ++ replicate (S n) (NextFrame io))) as HSn by by eapply allowed_frames.
  unfold read_frame. apply safe_await_ret; rewrite <-?app_assoc, ?Hsnoc; [done|done|].
  assert (received h io (S n) = match next_frame h io n with
    | Some (Some (Data data)) => Some (buf ++ data) | Some (Some Trailers) => Some buf | _ => None end) as HS
    by (cbn [received]; rewrite Hbuf; reflexivity).
  change (world _ (NextFrame io)) with (next_frame h io n). unfold u64_saturating_add, clamp.
  destruct (next_frame h io n) as [[[data|]|]|] eqn:Hf.
  - destruct (Z.ltb_spec max (0 `max` (U64_MAX `min` (Z.of_nat (length buf) + Z.of_nat (length data))))); cbn beta iota.
    + exists n, buf. split_and!; [done|done|]. rewrite Hf. exists data. split; [done|lia].
    + exists (S n). split; [done|]. split; [done|]. rewrite length_app. lia.
  - cbn beta iota. by exists (S n).
  - cbn beta iota. exists n, buf. by rewrite Hf.
  - cbn beta iota. exists n, buf. by rewrite Hf.
Qed.

(** The addresses found, by a literal or by the resolution. *)
Definition found (h : list Call) (addrs : list IpAddr) : Prop :=
  match literal_ip t with
  | Some literal => h = [] ∧ addrs = [literal]
  | None => h = [Resolve (host t) (port t)] ∧ world [] (Resolve (host t) (port t)) = Some addrs
  end.

(** Why a destination is refused. *)
Definition refused (h : list Call) (reason : BlockReason) : Prop :=
  (reason = ResolutionFailed ∧ literal_ip t = None ∧ h = [Resolve (host t) (port t)]
     ∧ world [] (Resolve (host t) (port t)) = None)
  ∨ ∃ addrs, found h addrs
      ∧ match reason with
        | ResolutionFailed => False
        | NoAddresses => addrs = []
        | Address class => first_denied addrs = Some class
        end.

Definition pivots (head : ResponseHead) : bool :=
  is_redirection (rs_status head) && hm_contains_key (rs_headers head) (lit "location").

(** What each result of the exchange means. *)
Definition exchange_result (h : list Call) (r : Result FetchResponse DispatchFailure) : Prop :=
  match r with
  | Ok response => ∃ before io head, answered before io head ∧ pivots head = false
      ∧ status response = rs_status head ∧ headers response = rs_headers head
      ∧ read_result before io (max_response_bytes (d_limits d)) (Ok (body response))
  | Err (FailBlocked reason) => refused h reason
  | Err (FailRedirect code) => ∃ io head, answered h io head ∧ pivots head = true ∧ code = rs_status head
  | Err FailTooLarge => ∃ before io head, answered before io head
      ∧ read_result before io (max_response_bytes (d_limits d)) (Err FailTooLarge)
  | Err FailUpstream => True
  | Err FailTimeout => False
  end.

Lemma first_denied_None addrs : first_denied addrs = None ↔ Forall (λ a, classify a = None) addrs.
Proof.
  induction addrs as [|a addrs IH]; simpl; [by split; [constructor|]|].
  destruct (classify a) eqn:Ha; rewrite Forall_cons; naive_solver.
Qed.

Lemma lookup_addrs_safe steps : safely steps (λ h r,
    match r with Ok addrs => found h addrs | Err err => ∃ reason, err = FailBlocked reason ∧ refused h reason end)
  [] (lookup_addrs t).
Proof.
  unfold lookup_addrs, found, refused. destruct (literal_ip t) eqn:Hlit; [apply safe_ret; [constructor|done]|].
  apply safe_await_ret; [constructor|by apply allowed_resolve|]. simpl app.
  destruct (world [] _) as [addrs|] eqn:Hw; [done|]. exists ResolutionFailed. split; [done|]. by left.
Qed.

Lemma dial_safe steps h ip : looked_up h ip → safely steps (λ h r,
    match r with Ok stream => connected h stream | Err err => err = FailUpstream end)
  h (dial ip (port t)).
Proof.
  intros Hl. unfold dial. apply safe_await_ret.
  - unfold looked_up in Hl. destruct (literal_ip t) eqn:Hlit.
    + destruct Hl as [-> _]. constructor.
    + destruct Hl as [-> _]. by constructor.
  - by constructor.
  - destruct (world h (Dial ip (port t))) as [stream|] eqn:Hw; [|done]. by exists h, ip.
Qed.

Lemma tls_connect_safe steps h stream : scheme t = Https → connected h stream → safely steps (λ h r,
    match r with Ok io => secured h io | Err err => err = FailUpstream end)
  h (tls_connect (host t) stream).
Proof.
  intros Hs Hc. pose proof (connected_allowed _ _ Hc). unfold tls_connect.
  destruct (server_name_ok (host t)); cbn [negb]; [|by apply safe_ret].
  apply safe_await_ret; [done|by apply allowed_tls|].
  destruct (world h (TlsConnect (host t) stream)) as [io|] eqn:Hw; [|done].
  unfold secured. rewrite Hs. by exists h, stream.
Qed.

Lemma send_safe steps h io : secured h io → safely steps (λ h r,
    match r with Ok response => answered h response.2 response.1 | Err err => err = FailUpstream end)
  h (send io (d_method d) (path_and_query t) (d_headers d) (d_body d)).
Proof.
  intros Hs. pose proof (secured_allowed _ _ Hs). pose proof (allowed_handshake _ _ Hs). unfold send.
  apply safe_await; [done..|]. intros m _. destruct (world h (HttpHandshake io)); cbn [negb]; [|by apply safe_ret].
  destruct (request_ok _ _); cbn [negb]; [|by apply safe_ret].
  change {| rq_method := _ |} with wire_request.
  apply safe_await_ret; rewrite <-?app_assoc; [done|by apply allowed_request|].
  destruct (world _ _) as [head|] eqn:Hw; [|done]. exists h. by split_and!.
Qed.

Lemma finish_safe steps h io head : answered h io head → 0 ≤ max_response_bytes (d_limits d) < U64_MAX →
  safely steps exchange_result h (finish (head, io) (max_response_bytes (d_limits d))).
Proof.
  intros Ha Hmax. pose proof (answered_allowed _ _ _ Ha). unfold finish. fold (pivots head).
  destruct (pivots head) eqn:Hp; [apply safe_ret; [done|]; by exists io, head|].
  eapply safe_bind; [by eapply read_capped_safe|]. intros h' [content|err] m _ HI Hr; apply safe_ret; try done.
  - by exists h, io, head.
  - destruct err; try (by destruct Hr as (? & ? & _ & _ & [])). by exists h, io, head.
Qed.

Lemma found_allowed h addrs : found h addrs → allowed h.
Proof.
  unfold found. destruct (literal_ip t) eqn:Hlit; intros [-> _]; by constructor.
Qed.

(** The calls of the exchange are those of the protocol, wherever it is cut, and its result is
    the one they justify. *)
Lemma exchange_safe steps : 0 ≤ max_response_bytes (d_limits d) < U64_MAX →
  safely steps exchange_result [] (exchange d).
Proof.
  intros Hmax. unfold exchange. eapply safe_bind; [apply lookup_addrs_safe|].
  intros h [addrs|err] m _ HI Hf; [|apply safe_ret; [done|]; by destruct Hf as (reason & -> & Hr)].
  destruct addrs as [|first rest]; [apply safe_ret; [done|]; right; by exists []|].
  destruct (first_denied (first :: rest)) as [class|] eqn:Hd.
  { apply safe_ret; [done|]. right. by exists (first :: rest). }
  apply first_denied_None in Hd.
  assert (looked_up h first) as Hl.
  { unfold found, looked_up in *. destruct (literal_ip t).
    - destruct Hf as [-> [= -> ->]]. by inversion_clear Hd.
    - destruct Hf as [-> Hw]. split; [done|]. by exists rest. }
  eapply safe_bind; [by apply dial_safe|]. intros h1 [stream|err] m1 _ HI1 Hc; [|by subst; apply safe_ret].
  eapply safe_bind with (P := λ h r, match r with Ok response => answered h response.2 response.1
                                            | Err err => err = FailUpstream end).
  - destruct (scheme t) eqn:Hs.
    + eapply safe_bind; [by apply tls_connect_safe|].
      intros h2 [io|err] m2 _ HI2 Hsec; [by apply send_safe|by subst; apply safe_ret].
    + apply send_safe. unfold secured. by rewrite Hs.
  - intros h2 [[head io]|err] m2 _ HI2 Ha; [by apply finish_safe|by subst; apply safe_ret].
Qed.

(** ** What an allowed history says *)

Definition is_dial (c : Call) : bool := match c with Dial _ _ => true | _ => false end.
Definition is_resolve (c : Call) : bool := match c with Resolve _ _ => true | _ => false end.
Definition count_calls (p : Call → bool) (h : list Call) : nat := length (List.filter p h).

(** The calls after the connection is opened. *)
Definition after_dial (c : Call) : bool := negb (is_dial c) && negb (is_resolve c).

(** A history has at most the resolution, then at most one connection, then neither. *)
Lemma connected_tail h s tail : connected h s → forallb after_dial tail = true →
  ∃ before ip rest, looked_up before ip ∧ h ++ tail = before ++ Dial ip (port t) :: rest
    ∧ forallb after_dial rest = true.
Proof. intros (before & ip & Hl & -> & _) Ht. exists before, ip, tail. by rewrite <-app_assoc. Qed.

Lemma secured_tail h io tail : secured h io → forallb after_dial tail = true →
  ∃ before ip rest, looked_up before ip ∧ h ++ tail = before ++ Dial ip (port t) :: rest
    ∧ forallb after_dial rest = true.
Proof.
  unfold secured. destruct (scheme t); [|by apply connected_tail].
  intros (before & stream & Hc & -> & _) Ht. rewrite <-app_assoc. by eapply connected_tail.
Qed.

Lemma allowed_shape h : allowed h → h = [] ∨ (literal_ip t = None ∧ h = [Resolve (host t) (port t)])
  ∨ ∃ before ip rest, looked_up before ip ∧ h = before ++ Dial ip (port t) :: rest
      ∧ forallb after_dial rest = true.
Proof.
  intros [|Hl|before ip Hl|before stream Hs Hc|before io Hs|before io Hs|before io head n (b & Hs & -> & _) _];
    [by left|by right; left|right; right..].
  - by exists before, ip, [].
  - by eapply connected_tail.
  - by eapply secured_tail.
  - by eapply secured_tail.
  - rewrite <-app_assoc. eapply secured_tail; [done|]. cbn [app forallb after_dial is_dial is_resolve negb andb].
    apply forallb_forall. intros c Hc. apply list_elem_of_In, elem_of_replicate in Hc as [-> _]. done.
Qed.

Lemma looked_up_calls h ip : looked_up h ip → h = [] ∨ h = [Resolve (host t) (port t)].
Proof. unfold looked_up. destruct (literal_ip t); intros [-> _]; auto. Qed.

Lemma looked_up_classified h ip : looked_up h ip → classify ip = None.
Proof.
  unfold looked_up. destruct (literal_ip t); [by intros (_ & _ & ?)|].
  intros (_ & rest & _ & Hall). by inversion_clear Hall.
Qed.

Lemma filter_after_dial p rest : (∀ c, p c = true → after_dial c = false) →
  forallb after_dial rest = true → List.filter p rest = [].
Proof.
  intros Hp Hr. induction rest as [|c rest IH]; [done|]. simpl in *. apply andb_true_iff in Hr as [Hc Hr].
  destruct (p c) eqn:Hpc; [|by apply IH]. apply Hp in Hpc. congruence.
Qed.

Lemma not_after_dial p c rest : forallb after_dial rest = true → p c = true → after_dial c = false → c ∉ rest.
Proof.
  intros Hr _ Hc Hin. rewrite forallb_forall in Hr. apply list_elem_of_In, Hr in Hin. congruence.
Qed.

Lemma allowed_dial_in h ip at_port : allowed h → Dial ip at_port ∈ h →
  at_port = port t ∧ (∃ before, looked_up before ip ∧ before `prefix_of` h)
  ∧ count_calls is_dial h = 1%nat ∧ (count_calls is_resolve h ≤ 1)%nat.
Proof.
  intros Hh Hin. apply allowed_shape in Hh as [->|[[_ ->]|(before & ip' & rest & Hl & -> & Hr)]].
  - by apply not_elem_of_nil in Hin.
  - apply list_elem_of_singleton in Hin. done.
  - assert (Dial ip at_port = Dial ip' (port t)) as [= -> ->].
    { apply elem_of_app in Hin as [Hin|Hin].
      - apply looked_up_calls in Hl as [->| ->]; set_solver.
      - apply elem_of_cons in Hin as [Heq|Hin]; [exact Heq|]. exfalso.
        by eapply (not_after_dial is_dial (Dial ip at_port)) in Hin. }
    split; [done|]. split; [exists before; split; [done|by apply prefix_app_r]|].
    unfold count_calls. rewrite !List.filter_app, !length_app. cbn [List.filter is_dial is_resolve length].
    rewrite !(filter_after_dial _ rest) by (done || by intros []).
    apply looked_up_calls in Hl as [->| ->]; simpl; lia.
Qed.

(** The requests of a history. *)
Lemma allowed_request_in h io rq : allowed h → SendRequest io rq ∈ h →
  rq = wire_request ∧ ∃ before, secured before io ∧ before `prefix_of` h.
Proof.
  assert (∀ b s, connected b s → SendRequest io rq ∉ b) as Hnc.
  { intros b s (b0 & ip & Hl & -> & _). apply looked_up_calls in Hl as [->| ->]; set_solver. }
  assert (∀ b i, secured b i → SendRequest io rq ∉ b) as Hns.
  { unfold secured. destruct (scheme t); [|done]. intros b i (b0 & s & Hc & -> & _). apply Hnc in Hc. set_solver. }
  intros [|Hl|before ip Hl|before stream Hs Hc|before i Hs|before i Hs|before i head n (b & Hs & -> & _) _] Hin.
  - set_solver.
  - set_solver.
  - apply looked_up_calls in Hl as [->| ->]; set_solver.
  - apply Hnc in Hc. set_solver.
  - apply Hns in Hs. set_solver.
  - pose proof (Hns _ _ Hs). assert (SendRequest io rq = SendRequest i wire_request) as [= -> ->] by set_solver.
    split; [done|]. exists before. split; [done|by apply prefix_app_r].
  - pose proof (Hns _ _ Hs). assert (SendRequest io rq = SendRequest i wire_request) as [= -> ->].
    { rewrite !elem_of_app, !elem_of_cons, elem_of_replicate in Hin. set_solver. }
    split; [done|]. exists b. split; [done|]. rewrite <-app_assoc. by apply prefix_app_r.
Qed.
End protocol.

(** ** The dispatcher's guarantees *)

Definition dispatch_of (limits : FetchLimits) (request : FetchRequest) (t : Target) (hs : Headers) : Dispatch :=
  {| d_target := t; d_method := req_method request; d_headers := hs; d_body := req_body request;
     d_limits := effective_limits limits request |}.

(** A fetch that makes a call has a target whose scheme is permitted, and its calls and its
    result are those of the exchange, cut at the deadline or not. *)
Lemma fetch_inv limits world clock request calls metrics result :
  0 ≤ max_response_bytes limits < U64_MAX →
  fetch limits world clock request = (calls, metrics, result) →
  (calls = [] ∧ metrics ≠ [] ∧ match result with Err SchemeNotAllowed | Err (InvalidRequest _) => True | _ => False end)
  ∨ ∃ t hs r, parse_target (req_url request) = Ok t ∧ (scheme t = Http → req_allow_http request = true)
      ∧ assemble_headers t (req_headers request) = Ok hs
      ∧ allowed world (dispatch_of limits request t hs) calls
      ∧ (r = Err FailTimeout ∨ exchange_result world (dispatch_of limits request t hs) calls r)
      ∧ match r with
        | Ok response => result = Ok response ∧ metrics = record_outcome (req_purpose request) OutcomeOk
        | Err failure => (metrics, result) =
            prod_map id Err (map_failure (req_purpose request)
              (max_response_bytes (effective_limits limits request)) failure)
        end.
Proof.
  intros Hmax. unfold fetch. destruct (parse_target (req_url request)) as [t|err]; [|intros [= <- <- <-]; by left].
  destruct (bool_decide (scheme t = Http) && negb (req_allow_http request)) eqn:Hs; [intros [= <- <- <-]; by left|].
  unfold assemble_headers at 1. destruct (header_value_ok _) eqn:Hv; [|intros [= <- <- <-]; by left].
  set (hs := hm_insert _ _ _). fold (dispatch_of limits request t hs). set (d := dispatch_of limits request t hs).
  unfold Dispatch_run. destruct (run_prefix _ world [] (exchange d)) as [h res] eqn:Hrun.
  assert (0 ≤ max_response_bytes (d_limits d) < U64_MAX) as Hmax'.
  { unfold d, dispatch_of, effective_limits, response_cap, U64_MAX, MDS3_SYNC_MIN_RESPONSE_BYTES in *. cbn [d_limits max_response_bytes].
    change (Z.shiftl 32 20) with 33554432. destruct (req_purpose request); try lia. destruct (_ <? _); lia. }
  destruct (safe_run world _ _ _ _ _ (exchange_safe world d (clock (total_timeout (d_limits d))) Hmax')) as [Hall Hres].
  rewrite Hrun in Hall, Hres. cbn [fst snd] in Hall, Hres.
  intros Hf. right. exists t, hs, (match res with Some r => r | None => Err FailTimeout end).
  split; [done|]. split.
  { intros Hh. rewrite bool_decide_eq_true_2 in Hs by done. cbn [andb] in Hs. by apply negb_false_iff in Hs. }
  split; [unfold assemble_headers; by rewrite Hv|]. destruct res as [[response|failure]|].
  - injection Hf as <- <- <-. split; [done|]. split; [right; by apply Hres|done].
  - assert (exchange_result world d h (Err failure)) as Hr by by apply Hres.
    destruct failure; injection Hf as <- <- <-; (split; [done|]); (split; [by right|reflexivity]).
  - injection Hf as <- <- <-. split; [done|]. split; [by left|done].
Qed.

(** C31 (safety): whatever the resolver, the network and the server answer, and wherever the
    deadline cuts the exchange, the only address a fetch connects to is one the policy allows:
    the literal of the URL, or the first address of the single resolution of its host, all of
    whose addresses are allowed.  At most one resolution and one connection are made, to the
    port of the URL, and only over a scheme the request permits. *)
Theorem fetch_pins_validated_address limits world clock request calls metrics result ip at_port :
  0 ≤ max_response_bytes limits < U64_MAX →
  fetch limits world clock request = (calls, metrics, result) → Dial ip at_port ∈ calls →
  classify ip = None ∧ count_calls is_dial calls = 1%nat ∧ (count_calls is_resolve calls ≤ 1)%nat
  ∧ ∃ t, parse_target (req_url request) = Ok t ∧ at_port = port t
      ∧ (scheme t = Http → req_allow_http request = true)
      ∧ match literal_ip t with
        | Some literal => ip = literal
        | None => ∃ rest, world [] (Resolve (host t) (port t)) = Some (ip :: rest)
                    ∧ Forall (λ a, classify a = None) (ip :: rest)
        end.
Proof.
  intros Hmax Hf Hin.
  apply (fetch_inv _ _ _ _ _ _ _ Hmax) in Hf as [[-> _]|(t & hs & r & Ht & Hs & _ & Hall & _)]; [by apply not_elem_of_nil in Hin|].
  destruct (allowed_dial_in _ _ _ _ _ Hall Hin) as (-> & (before & Hl & _) & Hd & Hr).
  split; [by eapply looked_up_classified|]. split; [done|]. split; [done|]. exists t. split_and!; [done..|].
  unfold looked_up in Hl. cbn [dispatch_of d_target] in Hl. destruct (literal_ip t); [by destruct Hl as (_ & -> & _)|].
  destruct Hl as (_ & rest & Hw & Hall'). by exists rest.
Qed.

(** A response that is returned is the one that was received: its status and
    headers are those answered to the one request, it is not a redirect that names a location,
    and its body is the data of all the frames up to the end of the stream, at most as long as
    the cap of the purpose.  A response is refused as too large only when the next frame would
    make it so. *)
Theorem fetch_response_complete limits world clock request calls metrics result :
  0 ≤ max_response_bytes limits < U64_MAX →
  fetch limits world clock request = (calls, metrics, result) →
  match result with
  | Ok response => ∃ d before io head n, answered world d before io head
      ∧ status response = rs_status head ∧ headers response = rs_headers head ∧ pivots head = false
      ∧ received world before io n = Some (body response) ∧ next_frame world before io n = None
      ∧ Z.of_nat (length (body response)) ≤ response_cap (req_purpose request) (max_response_bytes limits)
  | Err (ResponseTooLarge limit) => limit = response_cap (req_purpose request) (max_response_bytes limits)
      ∧ ∃ d before io head n buf data, answered world d before io head ∧ received world before io n = Some buf
          ∧ Z.of_nat (length buf) ≤ limit ∧ next_frame world before io n = Some (Some (Data data))
          ∧ limit < Z.of_nat (length buf) + Z.of_nat (length data)
  | Err _ => True
  end.
Proof.
  intros Hmax Hf.
  apply (fetch_inv _ _ _ _ _ _ _ Hmax) in Hf as [(_ & _ & Hr)|(t & hs & r & _ & _ & _ & _ & Hr & Hm)]; [by destruct result as [|[]]|].
  destruct r as [response|failure].
  - destruct Hm as [-> _]. destruct Hr as [?|Hr]; [done|].
    destruct Hr as (before & io & head & Ha & Hp & Hst & Hh & n & buf & Hbuf & Hlen & -> & Hend).
    by exists (dispatch_of limits request t hs), before, io, head, n.
  - destruct failure; injection Hm as _ ->; try done. destruct Hr as [?|Hr]; [done|].
    destruct Hr as (before & io & head & Ha & n & buf & Hbuf & Hlen & data & Hnext & Hlt). split; [done|].
    by exists (dispatch_of limits request t hs), before, io, head, n, buf, data.
Qed.


(** The timeout of a request can only shorten the configured deadline: on a clock
    for which more time is not fewer steps, the calls made under it are the first calls made
    without it, and an exchange that ends in time has the same result. *)
Theorem request_timeout_only_shortens limits world clock request requested
    calls metrics result calls' metrics' result' :
  (∀ a b, a ≤ b → (clock a ≤ clock b)%nat) → req_timeout request = None →
  fetch limits world clock request = (calls, metrics, result) →
  fetch limits world clock (FetchRequest_timeout request requested) = (calls', metrics', result') →
  calls' `prefix_of` calls ∧ (result' = Err Timeout ∨ result' = result).
Proof.
  intros Hclock Hnone. unfold fetch. cbn [FetchRequest_timeout req_url req_allow_http req_headers req_purpose req_method req_body].
  destruct (parse_target (req_url request)) as [t|err]; [|intros [= <- <- <-] [= <- <- <-]; auto].
  destruct (bool_decide (scheme t = Http) && negb (req_allow_http request)); [intros [= <- <- <-] [= <- <- <-]; auto|].
  destruct (assemble_headers t (req_headers request)) as [hs|]; [|intros [= <- <- <-] [= <- <- <-]; auto].
  unfold Dispatch_run. cbn [d_limits effective_limits total_timeout max_response_bytes req_timeout FetchRequest_timeout req_purpose].
  rewrite Hnone. cbn beta iota.
  change (exchange {| d_target := t; d_method := req_method request; d_headers := hs; d_body := req_body request;
    d_limits := effective_limits limits (FetchRequest_timeout request requested) |})
    with (exchange {| d_target := t; d_method := req_method request; d_headers := hs; d_body := req_body request;
    d_limits := effective_limits limits request |}).
  set (program := exchange _). set (cap := response_cap _ _).
  destruct (run_prefix_mono (clock (total_timeout limits `min` requested)) (clock (total_timeout limits)) world [] program
    ltac:(apply Hclock; lia)) as [Hpre Hsame].
  destruct (run_prefix (clock (total_timeout limits `min` requested)) world [] program) as [h' [r|]] eqn:Hrun'; cbn [fst snd] in *.
  - rewrite (Hsame r eq_refl). intros Hf Hf'. rewrite Hf' in Hf. injection Hf as -> -> ->. auto.
  - destruct (run_prefix (clock (total_timeout limits)) world [] program) as [h r]. cbn [fst] in Hpre.
    intros Hf [= <- <- <-]. split; [|by left].
    assert (calls = h) as ->; [|done]. destruct r as [[response|failure]|]; [|destruct failure|]; by injection Hf as <- _ _.
Qed.

(** ** The headers *)

Section headers.
Context {laws : HeaderMapLaws}.

Lemma values_of_app name l k : values_of name (l ++ k) = values_of name l ++ values_of name k.
Proof. unfold values_of. by rewrite filter_app, fmap_app. Qed.

Lemma values_of_one name n v : values_of name [(n, v)] = if bool_decide (n = name) then [v] else [].
Proof. unfold values_of. rewrite filter_cons. cbn [fst]. case_decide; case_bool_decide; done. Qed.

Lemma values_install name pairs :
  values_of name (hm_iter (install_headers pairs)) = if is_connector_owned name then [] else values_of name pairs.
Proof.
  unfold install_headers. induction pairs as [|[n v] pairs IH] using rev_ind.
  { cbn [foldl]. rewrite iter_empty. by destruct (is_connector_owned name). }
  rewrite foldl_app. cbn [foldl fst snd]. rewrite values_of_app, values_of_one.
  destruct (is_connector_owned n) eqn:Hn; [|rewrite iter_append]; rewrite IH;
    destruct (is_connector_owned name) eqn:Hm; try done; case_bool_decide; subst; rewrite ?app_nil_r; congruence.
Qed.

Lemma values_caller name pairs :
  values_of name (hm_iter (foldl (λ hs pair, hm_append hs pair.1 pair.2) hm_empty pairs)) = values_of name pairs.
Proof.
  induction pairs as [|[n v] pairs IH] using rev_ind; [cbn [foldl]; by rewrite iter_empty|].
  rewrite foldl_app. cbn [foldl fst snd]. by rewrite values_of_app, values_of_one, iter_append, IH.
Qed.

Lemma host_not_owned : is_connector_owned (lit "host") = false.
Proof. vm_compute. reflexivity. Qed.

(** The request on the wire carries exactly one [Host] header, the one of the
    target, whatever the caller set; no framing or hop-by-hop header of the caller; and every
    other header of the caller with its values in order, and nothing else.  Over https it is
    sent on a connection that completed a TLS handshake for the host of the URL, on top of the
    pinned connection. *)
Theorem wire_request_headers limits world clock request calls metrics result io rq :
  0 ≤ max_response_bytes limits < U64_MAX →
  fetch limits world clock request = (calls, metrics, result) → SendRequest io rq ∈ calls →
  ∃ t hs before, parse_target (req_url request) = Ok t ∧ rq_method rq = req_method request
    ∧ rq_path rq = path_and_query t ∧ rq_body rq = req_body request
    ∧ secured world (dispatch_of limits request t hs) before io ∧ before `prefix_of` calls
    ∧ ∀ name, values_of name (hm_iter (rq_headers rq)) =
        if bool_decide (lit "host" = name) then [host_header t]
        else if is_connector_owned name then [] else values_of name (req_headers request).
Proof.
  intros Hmax Hf Hin.
  apply (fetch_inv _ _ _ _ _ _ _ Hmax) in Hf as [[-> _]|(t & hs & r & Ht & _ & Hhs & Hall & _)];
    [by apply not_elem_of_nil in Hin|].
  destruct (allowed_request_in _ _ _ _ _ Hall Hin) as (-> & before & Hsec & Hpre).
  exists t, hs, before. split_and!; [done..|]. intros name. cbn [wire_request rq_headers dispatch_of d_headers].
  rewrite values_install. unfold assemble_headers in Hhs. destruct (header_value_ok _); [|done]. injection Hhs as <-.
  rewrite iter_insert, values_caller. destruct (decide (lit "host" = name)) as [Hn|Hn].
  - rewrite !bool_decide_eq_true_2 by done. by rewrite <-Hn, host_not_owned.
  - by rewrite !bool_decide_eq_false_2 by done.
Qed.
End headers.
End dispatch.

(** ** Samples *)

Definition remove_name (name : text) (h : list (text * text)) : list (text * text) :=
  filter (λ pair, pair.1 ≠ name) h.

Lemma values_of_remove name other h :
  values_of other (remove_name name h) = if bool_decide (name = other) then [] else values_of other h.
Proof.
  unfold values_of, remove_name. induction h as [|[n v] h IH]; [by destruct (bool_decide _)|].
  rewrite (filter_cons _ (n, v) h). cbn [fst].
  destruct (decide (n ≠ name)) as [Hn|Hn]; rewrite !filter_cons; cbn [fst];
    repeat case_decide; repeat case_bool_decide; cbn [fmap list_fmap] in *; naive_solver congruence.
Qed.

(** A header map as a list of pairs. *)
Definition sample_headers : HeaderMap := {|
  Headers := list (text * text);
  hm_empty := [];
  hm_append := λ h name value, h ++ [(name, value)];
  hm_insert := λ h name value, remove_name name h ++ [(name, value)];
  hm_contains_key := λ h name, negb (bool_decide (values_of name h = []));
  hm_iter := λ h, h;
|}.

Lemma sample_header_laws : @HeaderMapLaws sample_headers.
Proof.
  split.
  - done.
  - intros h name value other. cbn [sample_headers hm_append hm_iter]. by rewrite values_of_app, values_of_one.
  - intros h name value other. cbn [sample_headers hm_insert hm_iter]. rewrite values_of_app, values_of_one.
    rewrite values_of_remove. case_bool_decide; [done|by rewrite app_nil_r].
  - intros h name. cbn [sample_headers hm_contains_key hm_iter]. by rewrite negb_true_iff, bool_decide_eq_false.
Qed.

Definition sample_checks : HttpChecks :=
  {| header_value_ok := λ _, true; request_ok := λ _ _, true; server_name_ok := λ _, true |}.

#[local] Existing Instance sample_headers.
#[local] Existing Instance sample_checks.
#[local] Existing Instance sample_uri.

(** A resolver whose answer becomes the metadata address after the first call, and a server
    whose body is one frame. *)
Definition sample_world (h : list Call) (c : Call) : Answer c :=
  match c with
  | Resolve _ _ => Some (match h with [] => [V4 (ipv4 1 1 1 1); V4 (ipv4 1 0 0 1)] | _ => [V4 (ipv4 169 254 169 254)] end)
  | Dial _ _ => Some 5%nat
  | TlsConnect _ stream => Some (S stream)
  | HttpHandshake _ => true
  | SendRequest _ _ => Some {| rs_status := 200; rs_headers := [] |}
  | NextFrame _ => match last h with Some (NextFrame _) => None | _ => Some (Some (Data (lit "{}"))) end
  end.


Definition sample_request : FetchRequest :=
  FetchRequest_allow_plaintext_http
    (FetchRequest_header (FetchRequest_header (FetchRequest_get JwksUri sample_name_url)
      (lit "host") (lit "internal")) (lit "accept") (lit "application/json")).
Definition sample_limits : FetchLimits := FetchLimits_default.
Definition sample_clock (deadline : Z) : nat := Z.to_nat (deadline / 100000000).
Definition sample_fetch := fetch sample_limits sample_world sample_clock sample_request.

Definition sample_calls : list Call := sample_fetch.1.1.

Lemma sample_cap : 0 ≤ max_response_bytes sample_limits < U64_MAX.
Proof. vm_compute. split; congruence. Qed.

Lemma fetch_pins_validated_address_witness :
  Dial (V4 (ipv4 1 1 1 1)) 80 ∈ sample_calls ∧ classify (V4 (ipv4 1 1 1 1)) = None
  ∧ count_calls is_dial sample_calls = 1%nat ∧ (count_calls is_resolve sample_calls ≤ 1)%nat.
Proof.
  assert (Dial (V4 (ipv4 1 1 1 1)) 80 ∈ sample_calls) as Hin
    by (apply list_elem_of_lookup; exists 1%nat; vm_compute; reflexivity).
  split; [exact Hin|].
  destruct (fetch_pins_validated_address sample_limits sample_world sample_clock sample_request
    sample_calls sample_fetch.1.2 sample_fetch.2 (V4 (ipv4 1 1 1 1)) 80) as (Hc & Hd & Hr & _);
    [exact sample_cap|vm_compute; reflexivity|exact Hin|]. exact (conj Hc (conj Hd Hr)).
Defined.

Lemma fetch_response_complete_witness :
  sample_fetch.2 = Ok {| status := 200; headers := hm_empty; body := lit "{}" |}
  ∧ Z.of_nat (length (lit "{}")) ≤ response_cap JwksUri (max_response_bytes sample_limits).
Proof.
  split; [vm_compute; reflexivity|].
  destruct (fetch_response_complete sample_limits sample_world sample_clock sample_request
    sample_calls sample_fetch.1.2 (Ok {| status := 200; headers := hm_empty; body := lit "{}" |}))
    as (d & before & io & head & n & _ & _ & _ & _ & _ & _ & Hlen);
    [exact sample_cap|vm_compute; reflexivity|]. exact Hlen.
Defined.


(** A request that allows half a second is cut before the body. *)
Definition hurried_fetch :=
  fetch sample_limits sample_world sample_clock (FetchRequest_timeout sample_request 500000000).

Lemma request_timeout_only_shortens_witness :
  hurried_fetch.2 = Err Timeout ∧ hurried_fetch.1.1 `prefix_of` sample_calls.
Proof.
  split; [vm_compute; reflexivity|].
  destruct (request_timeout_only_shortens sample_limits sample_world sample_clock sample_request 500000000
    sample_calls sample_fetch.1.2 sample_fetch.2 hurried_fetch.1.1 hurried_fetch.1.2 hurried_fetch.2) as [Hp _];
    [|reflexivity|vm_compute; reflexivity|vm_compute; reflexivity|exact Hp].
  intros a b Hab. unfold sample_clock. assert (a / 100000000 ≤ b / 100000000) by (apply Z.div_le_mono; lia). lia.
Defined.

Lemma wire_request_headers_witness :
  ∃ rq, SendRequest 5 rq ∈ sample_calls
    ∧ values_of (lit "host") (hm_iter (rq_headers rq)) = [lit "example.com"].
Proof.
  pose (rq := {| rq_method := lit "GET"; rq_path := lit "/jwks.json"; rq_body := [];
    rq_headers := [(lit "accept", lit "application/json"); (lit "host", lit "example.com")] |}).
  assert (SendRequest 5 rq ∈ sample_calls) as Hin
    by (apply list_elem_of_lookup; exists 3%nat; vm_compute; reflexivity).
  exists rq. split; [exact Hin|].
  destruct (@wire_request_headers sample_headers sample_checks sample_uri sample_header_laws
    sample_limits sample_world sample_clock sample_request sample_calls sample_fetch.1.2 sample_fetch.2 5%nat rq)
    as (t & hs & before & Ht & _ & _ & _ & _ & _ & Hv); [exact sample_cap|vm_compute; reflexivity|exact Hin|].
  rewrite (Hv (lit "host")). rewrite bool_decide_eq_true_2 by reflexivity.
  vm_compute in Ht. injection Ht as <-. vm_compute. reflexivity.
Defined.

(** The comment in [send] says that every hop-by-hop header of the caller is dropped; four of
    those HTTP names are passed on. *)
Example hop_by_hop_passed_on :
  forallb (λ name, negb (is_connector_owned name)) [lit "upgrade"; lit "te"; lit "trailer"; lit "keep-alive"] = true.
Proof. vm_compute. reflexivity. Qed.
