(* ===== verification/Quota.v ===== *)
(** * Quotas

    crates/ironauth-quota lib.rs: token buckets per tenant and per environment, nested, over
    four independent dimensions.  Token counts are binary64 numbers ([Float]), instants are
    nanoseconds of the monotonic clock, passed to each operation, and the mutex that makes
    an operation atomic is explicit state passing.  The [expect] on a bucket is [Panicked];
    the counters wrap, as in a release build.  The theorems: no operation panics; what a
    spend admits, charges and leaves alone; tenants and dimensions do not interfere; the
    exact number of unit spends admitted at one instant; the threshold events; and what
    the reaper does to a budget. *)

From Stdlib Require Import SpecFloat.
From stdpp Require Import sorting.
From S2P Require Import Prelude Machine Float.

Local Open Scope Z_scope.

(** ** Scopes and dimensions *)

Inductive Scope : Type :=
| ScopeTenant (tenant : string)
| ScopeEnvironment (tenant environment : string).

Definition scope_tenant (scope : Scope) : string :=
  match scope with ScopeTenant tenant | ScopeEnvironment tenant _ => tenant end.

Definition scope_environment (scope : Scope) : option string :=
  match scope with ScopeTenant _ => None | ScopeEnvironment _ environment => Some environment end.

Inductive QuotaDimension : Type := Requests | TokenIssuance | HookSeconds | PasswordHashing.

#[export] Instance Scope_eq_dec : EqDecision Scope.
Proof. solve_decision. Defined.

#[export] Instance QuotaDimension_eq_dec : EqDecision QuotaDimension.
Proof. solve_decision. Defined.

Definition all_dimensions : list QuotaDimension := [Requests; TokenIssuance; HookSeconds; PasswordHashing].

Definition dimension_as_str (d : QuotaDimension) : string :=
  match d with
  | Requests => "requests"
  | TokenIssuance => "token_issuance"
  | HookSeconds => "hook_seconds"
  | PasswordHashing => "password_hashing"
  end.

Definition dimension_parse (label : string) : option QuotaDimension :=
  if bool_decide (label = "requests") then Some Requests
  else if bool_decide (label = "token_issuance") then Some TokenIssuance
  else if bool_decide (label = "hook_seconds") then Some HookSeconds
  else if bool_decide (label = "password_hashing") then Some PasswordHashing
  else None.

Lemma dimension_parse_as_str d : dimension_parse (dimension_as_str d) = Some d.
Proof. by destruct d. Qed.

#[export] Instance QuotaDimension_countable : Countable QuotaDimension :=
  inj_countable dimension_as_str dimension_parse dimension_parse_as_str.

(** ** Limits *)

Record Limit : Type := mkLimit { refill_per_sec : f64; burst : f64 }.

Definition finite_or_zero (value : f64) : f64 := if is_finite value then value else f64_zero.

Definition Limit_new (refill_per_sec burst : f64) : Limit :=
  mkLimit (finite_or_zero (f64_max refill_per_sec f64_zero)) (finite_or_zero (f64_max burst f64_zero)).

Record ScopeLimits : Type := mkScopeLimits {
  limit_requests : option Limit;
  limit_token_issuance : option Limit;
  limit_hook_seconds : option Limit;
  limit_password_hashing : option Limit
}.

Definition ScopeLimits_get (limits : ScopeLimits) (dimension : QuotaDimension) : option Limit :=
  match dimension with
  | Requests => limit_requests limits
  | TokenIssuance => limit_token_issuance limits
  | HookSeconds => limit_hook_seconds limits
  | PasswordHashing => limit_password_hashing limits
  end.

Record ScopeQuotaConfig : Type := mkScopeQuotaConfig {
  requests_per_second : Z; requests_burst : Z;
  token_issuance_per_second : Z; token_issuance_burst : Z;
  hook_seconds_per_second : Z; hook_seconds_burst : Z;
  password_hashing_per_second : Z; password_hashing_burst : Z
}.

(** The fields of [QuotaConfig] that the engine reads. *)
Record QuotaConfig : Type := mkQuotaConfig {
  config_tenant : ScopeQuotaConfig;
  config_environment : ScopeQuotaConfig;
  usage_thresholds_percent : list Z;
  idle_bucket_ttl_secs : Z
}.

Definition limit_from (per_second burst : Z) : option Limit :=
  if burst =? 0 then None else Some (Limit_new (f64_of per_second) (f64_of burst)).

Definition ScopeLimits_from_config (config : ScopeQuotaConfig) : ScopeLimits :=
  mkScopeLimits
    (limit_from (requests_per_second config) (requests_burst config))
    (limit_from (token_issuance_per_second config) (token_issuance_burst config))
    (limit_from (hook_seconds_per_second config) (hook_seconds_burst config))
    (limit_from (password_hashing_per_second config) (password_hashing_burst config)).

Record Tiers : Type := mkTiers { tier_tenant : ScopeLimits; tier_environment : ScopeLimits }.

Definition Tiers_from_config (config : QuotaConfig) : Tiers :=
  mkTiers (ScopeLimits_from_config (config_tenant config)) (ScopeLimits_from_config (config_environment config)).

(** ** Outcomes *)

Definition BLOCK_SIGNAL_HEADER : string := "x-ratelimit-block".
Definition BLOCK_SIGNAL_VALUE : string := "1".
Definition BLOCK_SIGNAL_COOKIE : string := "__Host-ira-rl-block".

Record RateLimitSnapshot : Type := mkSnapshot {
  snap_limit : option Z;
  snap_remaining : option Z;
  reset_secs : Z;
  retry_after_secs : option Z;
  snap_denied : bool;
  policy_window_secs : option Z
}.

Definition unlimited_snapshot : RateLimitSnapshot := mkSnapshot None None 0 None false None.

Local Open Scope string_scope.

Definition rate_limit_headers (snap : RateLimitSnapshot) : list (string * string) :=
  match snap_limit snap, snap_remaining snap with
  | Some limit, Some remaining =>
      [("ratelimit", "limit=" +:+ pretty limit +:+ ", remaining=" +:+ pretty remaining
          +:+ ", reset=" +:+ pretty (reset_secs snap));
       ("x-ratelimit-limit", pretty limit);
       ("x-ratelimit-remaining", pretty remaining);
       ("x-ratelimit-reset", pretty (reset_secs snap))]
      ++ match policy_window_secs snap with
         | Some window => [("ratelimit-policy", pretty limit +:+ ";w=" +:+ pretty window)]
         | None => []
         end
      ++ match retry_after_secs snap with
         | Some retry_after => [("retry-after", pretty retry_after)]
         | None => []
         end
      ++ if snap_denied snap then [(BLOCK_SIGNAL_HEADER, BLOCK_SIGNAL_VALUE)] else []
  | _, _ => if snap_denied snap then [(BLOCK_SIGNAL_HEADER, BLOCK_SIGNAL_VALUE)] else []
  end%list.

Definition block_set_cookie (snap : RateLimitSnapshot) : option string :=
  retry_after ← retry_after_secs snap;
  Some (BLOCK_SIGNAL_COOKIE +:+ "=" +:+ BLOCK_SIGNAL_VALUE
        +:+ "; Path=/; Secure; HttpOnly; SameSite=Lax; Max-Age=" +:+ pretty retry_after).

Local Close Scope string_scope.

(** [Decision] of the quota engine. *)
Inductive QuotaDecision : Type := SpendAdmitted | SpendDenied.

Definition is_admitted (d : QuotaDecision) : bool := match d with SpendAdmitted => true | SpendDenied => false end.
Definition is_denied (d : QuotaDecision) : bool := match d with SpendAdmitted => false | SpendDenied => true end.

Record UsageEvent : Type := mkUsageEvent {
  event_scope : Scope;
  event_dimension : QuotaDimension;
  threshold_percent : Z;
  event_utilization : Z
}.

Record QuotaOutcome : Type := mkOutcome {
  decision : QuotaDecision;
  snapshot : RateLimitSnapshot;
  events : list UsageEvent
}.

Record MetricSample : Type := mkSample {
  sample_scope : Scope;
  sample_dimension : QuotaDimension;
  sample_admitted : Z;
  sample_denied : Z
}.

(** ** Buckets *)

Record Bucket : Type := mkBucket {
  tokens : f64;
  last : Z;
  emitted_level : Z;
  admitted : Z;
  denied : Z
}.

Definition Bucket_full (limit : Limit) (now : Z) : Bucket := mkBucket (burst limit) now 0 0 0.

Definition refill (limit : Limit) (now : Z) (b : Bucket) : Bucket :=
  let elapsed := as_secs_f64 (saturating_duration_since now (last b)) in
  mkBucket (f64_min (f64_add (tokens b) (f64_mul elapsed (refill_per_sec limit))) (burst limit))
    now (emitted_level b) (admitted b) (denied b).

Record Eval : Type := mkEval {
  eval_scope : Scope;
  eval_dimension : QuotaDimension;
  eval_limit : Limit;
  tokens_before : f64;
  tokens_after : f64;
  has_capacity : bool
}.

Record QuotaState : Type := mkQuotaState {
  tenant_buckets : gmap (string * QuotaDimension) Bucket;
  environment_buckets : gmap (string * string * QuotaDimension) Bucket;
  tenant_overrides : gmap string ScopeLimits;
  environment_overrides : gmap (string * string) ScopeLimits;
  last_reap : Z
}.

Record QuotaEnforcer : Type := mkEnforcer {
  tiers : Tiers;
  thresholds : list Z;
  idle_ttl : option Z
}.

(** [Vec::dedup]: of each run of equal elements the first is kept. *)
Fixpoint dedup_runs (l : list Z) : list Z :=
  match l with
  | [] => []
  | x :: rest =>
      match rest with
      | [] => [x]
      | y :: _ => if x =? y then dedup_runs rest else x :: dedup_runs rest
      end
  end.

Definition QuotaEnforcer_from_config (config : QuotaConfig) (now : Z) : QuotaEnforcer * QuotaState :=
  (mkEnforcer (Tiers_from_config config)
     (dedup_runs (merge_sort Z.le (usage_thresholds_percent config)))
     (if 0 <? idle_bucket_ttl_secs config then Some (idle_bucket_ttl_secs config * 1000000000) else None),
   mkQuotaState ∅ ∅ ∅ ∅ now).

(** ** Overrides *)

Definition set_tenant_override (tenant : string) (limits : ScopeLimits) (s : QuotaState) : QuotaState :=
  mkQuotaState (tenant_buckets s) (environment_buckets s) (<[tenant := limits]> (tenant_overrides s))
    (environment_overrides s) (last_reap s).

Definition clear_tenant_override (tenant : string) (s : QuotaState) : QuotaState :=
  mkQuotaState (tenant_buckets s) (environment_buckets s) (delete tenant (tenant_overrides s))
    (environment_overrides s) (last_reap s).

Definition set_environment_override (tenant environment : string) (limits : ScopeLimits) (s : QuotaState) : QuotaState :=
  mkQuotaState (tenant_buckets s) (environment_buckets s) (tenant_overrides s)
    (<[(tenant, environment) := limits]> (environment_overrides s)) (last_reap s).

Definition clear_environment_override (tenant environment : string) (s : QuotaState) : QuotaState :=
  mkQuotaState (tenant_buckets s) (environment_buckets s) (tenant_overrides s)
    (delete (tenant, environment) (environment_overrides s)) (last_reap s).

(** ** The reaper *)

Definition is_fresh (ttl now : Z) (b : Bucket) : bool := saturating_duration_since now (last b) <? ttl.

Definition bucket_count (s : QuotaState) : nat := (size (tenant_buckets s) + size (environment_buckets s))%nat.

Definition reap_idle_locked (ttl now : Z) (s : QuotaState) : nat * QuotaState :=
  let s' := mkQuotaState
    (filter (λ kb, is_fresh ttl now kb.2 = true) (tenant_buckets s))
    (filter (λ kb, is_fresh ttl now kb.2 = true) (environment_buckets s))
    (tenant_overrides s) (environment_overrides s) now in
  ((bucket_count s - bucket_count s')%nat, s').

Definition reap_idle_buckets (q : QuotaEnforcer) (now : Z) (s : QuotaState) : nat * QuotaState :=
  match idle_ttl q with
  | None => (0%nat, s)
  | Some ttl => reap_idle_locked ttl now s
  end.

(** The sweep on the admission path: at most one per idle window. *)
Definition reap_when_due (q : QuotaEnforcer) (now : Z) (s : QuotaState) : QuotaState :=
  match idle_ttl q with
  | Some ttl => if ttl <=? saturating_duration_since now (last_reap s) then (reap_idle_locked ttl now s).2 else s
  | None => s
  end.

(** ** Evaluation *)

Definition tenant_limit (q : QuotaEnforcer) (s : QuotaState) (tenant : string) (dimension : QuotaDimension) : option Limit :=
  match tenant_overrides s !! tenant with
  | None => ScopeLimits_get (tier_tenant (tiers q)) dimension
  | Some o => ScopeLimits_get o dimension
  end.

Definition environment_limit (q : QuotaEnforcer) (s : QuotaState) (tenant environment : string)
    (dimension : QuotaDimension) : option Limit :=
  match environment_overrides s !! (tenant, environment) with
  | None => ScopeLimits_get (tier_environment (tiers q)) dimension
  | Some o => ScopeLimits_get o dimension
  end.

(** The evaluation of a refilled bucket. *)
Definition eval_of (scope : Scope) (dimension : QuotaDimension) (limit : Limit) (cost : f64) (b : Bucket) : Eval :=
  mkEval scope dimension limit (tokens b) (f64_sub (tokens b) cost) (f64_ge (tokens b) cost).

Definition eval_tenant (q : QuotaEnforcer) (tenant : string) (dimension : QuotaDimension) (cost : f64) (now : Z)
    (s : QuotaState) : list Eval * QuotaState :=
  match tenant_limit q s tenant dimension with
  | None => ([], s)
  | Some limit =>
      let b := refill limit now (default (Bucket_full limit now) (tenant_buckets s !! (tenant, dimension))) in
      ([eval_of (ScopeTenant tenant) dimension limit cost b],
       mkQuotaState (<[(tenant, dimension) := b]> (tenant_buckets s)) (environment_buckets s)
         (tenant_overrides s) (environment_overrides s) (last_reap s))
  end.

Definition eval_environment (q : QuotaEnforcer) (tenant environment : string) (dimension : QuotaDimension) (cost : f64)
    (now : Z) (s : QuotaState) : list Eval * QuotaState :=
  match environment_limit q s tenant environment dimension with
  | None => ([], s)
  | Some limit =>
      let b := refill limit now
        (default (Bucket_full limit now) (environment_buckets s !! (tenant, environment, dimension))) in
      ([eval_of (ScopeEnvironment tenant environment) dimension limit cost b],
       mkQuotaState (tenant_buckets s) (<[(tenant, environment, dimension) := b]> (environment_buckets s))
         (tenant_overrides s) (environment_overrides s) (last_reap s))
  end.

(** ** Thresholds *)

Definition f64_hundred : f64 := f64_of 100.

(** [value.clamp(0.0, 100.0).floor() as u8]. *)
Definition f64_to_u8 (value : f64) : Z :=
  match f64_clamp value f64_zero f64_hundred with
  | S754_nan => 0
  | x => clamp 0 255 (floor x)
  end.

Definition utilization_percent (tokens burst : f64) : Z :=
  if f64_le burst f64_zero then 100
  else f64_to_u8 (f64_clamp (f64_mul (f64_div (f64_sub burst tokens) burst) f64_hundred) f64_zero f64_hundred).

(** [thresholds.iter().rfind(|t| t <= utilization).unwrap_or(0)]. *)
Definition current_level (thresholds : list Z) (utilization : Z) : Z :=
  default 0 (List.find (λ t, t <=? utilization) (reverse thresholds)).

Definition evaluate_thresholds (q : QuotaEnforcer) (b : Bucket) (eval : Eval) : list UsageEvent * Bucket :=
  let utilization := utilization_percent (tokens b) (burst (eval_limit eval)) in
  let level := current_level (thresholds q) utilization in
  (if emitted_level b <? level then
     (λ threshold, mkUsageEvent (eval_scope eval) (eval_dimension eval) threshold utilization) <$>
       filter (λ threshold, (emitted_level b <? threshold) && (threshold <=? level) = true) (thresholds q)
   else [],
   mkBucket (tokens b) (last b) level (admitted b) (denied b)).

(** ** Charging *)

(** The bucket of a scope, and the state with that bucket replaced. *)
Definition bucket_of (s : QuotaState) (scope : Scope) (dimension : QuotaDimension) : option Bucket :=
  match scope with
  | ScopeTenant tenant => tenant_buckets s !! (tenant, dimension)
  | ScopeEnvironment tenant environment => environment_buckets s !! (tenant, environment, dimension)
  end.

Definition set_bucket (scope : Scope) (dimension : QuotaDimension) (b : Bucket) (s : QuotaState) : QuotaState :=
  match scope with
  | ScopeTenant tenant =>
      mkQuotaState (<[(tenant, dimension) := b]> (tenant_buckets s)) (environment_buckets s)
        (tenant_overrides s) (environment_overrides s) (last_reap s)
  | ScopeEnvironment tenant environment =>
      mkQuotaState (tenant_buckets s) (<[(tenant, environment, dimension) := b]> (environment_buckets s))
        (tenant_overrides s) (environment_overrides s) (last_reap s)
  end.

(** A write through [bucket_mut], whose [expect] panics on a missing bucket. *)
Definition bucket_mut {A} (eval : Eval) (write : Bucket → A * Bucket) (s : QuotaState) : Run (A * QuotaState) :=
  match bucket_of s (eval_scope eval) (eval_dimension eval) with
  | Some b => let '(a, b') := write b in Returned (a, set_bucket (eval_scope eval) (eval_dimension eval) b' s)
  | None => Panicked
  end.

Definition charge_bucket (q : QuotaEnforcer) (eval : Eval) (now : Z) (b : Bucket) : list UsageEvent * Bucket :=
  evaluate_thresholds q
    (mkBucket (f64_max (tokens_after eval) f64_zero) now (emitted_level b) (u64_wrapping_add (admitted b) 1) (denied b))
    eval.

Definition charge (q : QuotaEnforcer) (eval : Eval) (now : Z) (s : QuotaState) : Run (list UsageEvent * QuotaState) :=
  bucket_mut eval (charge_bucket q eval now) s.

Definition count_denial (b : Bucket) : list UsageEvent * Bucket :=
  ([], mkBucket (tokens b) (last b) (emitted_level b) (admitted b) (u64_wrapping_add (denied b) 1)).

(** A loop over the evaluations that writes to the state and collects events. *)
Fixpoint for_evals (step : Eval → QuotaState → Run (list UsageEvent * QuotaState)) (evals : list Eval) (s : QuotaState)
    : Run (list UsageEvent * QuotaState) :=
  match evals with
  | [] => Returned ([], s)
  | eval :: rest =>
      match step eval s with
      | Returned (es, s1) =>
          match for_evals step rest s1 with
          | Returned (es', s2) => Returned (es ++ es', s2)
          | Panicked => Panicked
          | OutOfFuel => OutOfFuel
          end
      | Panicked => Panicked
      | OutOfFuel => OutOfFuel
      end
  end.

(** ** Snapshots *)

Definition f64_to_u64_floor (value : f64) : Z := f64_as_u64 floor (f64_max value f64_zero).
Definition f64_to_u64_ceil (value : f64) : Z := f64_as_u64 ceil (f64_max value f64_zero).

Definition policy_window (burst refill_per_sec : f64) : option Z :=
  if f64_le refill_per_sec f64_zero || negb (is_finite refill_per_sec) || f64_le burst f64_zero then None
  else Some (f64_to_u64_ceil (f64_div burst refill_per_sec)).

Definition remaining_fraction (eval : Eval) : f64 :=
  if f64_le (burst (eval_limit eval)) f64_zero then f64_zero
  else f64_div (f64_max (tokens_after eval) f64_zero) (burst (eval_limit eval)).

Definition seconds_to_refill (deficit rate : f64) : Z :=
  if f64_le deficit f64_zero || f64_le rate f64_zero then 0 else f64_to_u64_ceil (f64_div deficit rate).

(** [Iterator::min_by] with [partial_cmp] and [Equal] for incomparable numbers: the first of
    the least. *)
Definition min_by_fraction (evals : list Eval) : option Eval :=
  match evals with
  | [] => None
  | first :: rest =>
      Some (foldl (λ least eval,
        match SFcompare (remaining_fraction least) (remaining_fraction eval) with
        | Some Gt => eval
        | _ => least
        end) first rest)
  end.

Definition binding_eval (evals : list Eval) (admitted : bool) : option Eval :=
  if admitted then min_by_fraction evals
  else match List.find (λ eval, negb (has_capacity eval)) evals with
       | Some eval => Some eval
       | None => head evals
       end.

Definition binding_snapshot (evals : list Eval) (admitted : bool) : RateLimitSnapshot :=
  match binding_eval evals admitted with
  | None => unlimited_snapshot
  | Some eval =>
      let remaining_tokens := if admitted then f64_max (tokens_after eval) f64_zero else f64_zero in
      let full := burst (eval_limit eval) in
      let rate := refill_per_sec (eval_limit eval) in
      let deficit := if admitted then f64_max (f64_sub full remaining_tokens) f64_zero
                     else f64_max (f64_sub full (tokens_before eval)) f64_zero in
      let retry_after :=
        if admitted then None
        else
          let cost := f64_sub (tokens_before eval) (tokens_after eval) in
          if f64_le rate f64_zero || f64_gt cost full then None
          else
            let needed := f64_max (f64_sub f64_zero (tokens_after eval)) f64_zero in
            Some (Z.max (seconds_to_refill needed rate) 1) in
      mkSnapshot (Some (f64_to_u64_floor full)) (Some (f64_to_u64_floor remaining_tokens))
        (seconds_to_refill deficit rate) retry_after (negb admitted) (policy_window full rate)
  end.

(** ** Admission *)

(** Every bucket on the path of a scope, refilled: the tenant's, then the environment's. *)
Definition eval_path (q : QuotaEnforcer) (scope : Scope) (dimension : QuotaDimension) (cost : f64) (now : Z)
    (s : QuotaState) : list Eval * QuotaState :=
  let '(tenant_evals, s1) := eval_tenant q (scope_tenant scope) dimension cost now s in
  match scope with
  | ScopeEnvironment tenant environment =>
      let '(environment_evals, s2) := eval_environment q tenant environment dimension cost now s1 in
      (tenant_evals ++ environment_evals, s2)
  | ScopeTenant _ => (tenant_evals, s1)
  end.

Definition admit_spend (q : QuotaEnforcer) (scope : Scope) (dimension : QuotaDimension) (cost : f64) (now : Z)
    (s : QuotaState) : Run (QuotaOutcome * QuotaState) :=
  let cost := f64_max cost f64_zero in
  let '(evals, s1) := eval_path q scope dimension cost now (reap_when_due q now s) in
  if bool_decide (length evals = 0%nat) then Returned (mkOutcome SpendAdmitted unlimited_snapshot [], s1)
  else
    let admit_all := forallb has_capacity evals in
    let writes :=
      if admit_all then for_evals (λ eval, charge q eval now) evals s1
      else for_evals (λ eval s, if negb (has_capacity eval) then bucket_mut eval count_denial s else Returned ([], s))
             evals s1 in
    match writes with
    | Returned (es, s2) =>
        Returned (mkOutcome (if admit_all then SpendAdmitted else SpendDenied) (binding_snapshot evals admit_all) es, s2)
    | Panicked => Panicked
    | OutOfFuel => OutOfFuel
    end.

Definition admit_request (q : QuotaEnforcer) (scope : Scope) (now : Z) (s : QuotaState) : Run (QuotaOutcome * QuotaState) :=
  admit_spend q scope Requests (f64_of 1) now s.

(** [metrics]: one sample per bucket; the order is that of the maps, which [HashMap] leaves open. *)
Definition metrics (s : QuotaState) : list MetricSample :=
  ((λ '((tenant, dimension), b), mkSample (ScopeTenant tenant) dimension (admitted b) (denied b))
     <$> map_to_list (tenant_buckets s))
  ++ ((λ '((tenant, environment, dimension), b),
         mkSample (ScopeEnvironment tenant environment) dimension (admitted b) (denied b))
     <$> map_to_list (environment_buckets s)).

(** ** The path of a spend *)

(** The scopes whose buckets a spend draws from. *)
Definition path (scope : Scope) : list Scope :=
  match scope with
  | ScopeTenant tenant => [ScopeTenant tenant]
  | ScopeEnvironment tenant environment => [ScopeTenant tenant; ScopeEnvironment tenant environment]
  end.

(** The limit in force for a scope. *)
Definition limit_of (q : QuotaEnforcer) (s : QuotaState) (scope : Scope) (d : QuotaDimension) : option Limit :=
  match scope with
  | ScopeTenant tenant => tenant_limit q s tenant d
  | ScopeEnvironment tenant environment => environment_limit q s tenant environment d
  end.

(** The bucket a spend is decided on, under a limit. *)
Definition refilled (s : QuotaState) (scope : Scope) (d : QuotaDimension) (limit : Limit) (now : Z) : Bucket :=
  refill limit now (default (Bucket_full limit now) (bucket_of s scope d)).

Definition eval_at (q : QuotaEnforcer) (s : QuotaState) (d : QuotaDimension) (cost : f64) (now : Z) (scope : Scope)
    : option Eval :=
  limit ← limit_of q s scope d; Some (eval_of scope d limit cost (refilled s scope d limit now)).

Definition same_policy (s s' : QuotaState) : Prop :=
  tenant_overrides s' = tenant_overrides s ∧ environment_overrides s' = environment_overrides s.

Lemma limit_of_same q s s' scope d : same_policy s s' → limit_of q s' scope d = limit_of q s scope d.
Proof. intros [Ht He]. destruct scope; simpl; unfold tenant_limit, environment_limit; by rewrite ?Ht, ?He. Qed.

Lemma bucket_of_set scope d b s scope' d' :
  bucket_of (set_bucket scope d b s) scope' d' =
  if decide (scope' = scope ∧ d' = d) then Some b else bucket_of s scope' d'.
Proof.
  destruct (decide (scope' = scope ∧ d' = d)) as [Hd|Hd];
    destruct scope as [t|t e], scope' as [t'|t' e']; simpl; try (by destruct Hd as [[=] _]); try done.
  - destruct Hd as [[= ->] ->]. by rewrite lookup_insert_eq.
  - destruct Hd as [[= -> ->] ->]. by rewrite lookup_insert_eq.
  - rewrite lookup_insert_ne; [done|]. intros [= -> ->]. by apply Hd.
  - rewrite lookup_insert_ne; [done|]. intros [= -> -> ->]. by apply Hd.
Qed.

Lemma same_policy_set scope d b s : same_policy s (set_bucket scope d b s).
Proof. by destruct scope. Qed.

Lemma last_reap_set scope d b s : last_reap (set_bucket scope d b s) = last_reap s.
Proof. by destruct scope. Qed.

Lemma path_NoDup scope : NoDup (path scope).
Proof. destruct scope; repeat constructor; set_solver. Qed.

(** Evaluating one scope. *)
Definition eval_scope_step (q : QuotaEnforcer) (d : QuotaDimension) (cost : f64) (now : Z) (scope : Scope)
    (s : QuotaState) : QuotaState :=
  match limit_of q s scope d with
  | Some limit => set_bucket scope d (refilled s scope d limit now) s
  | None => s
  end.

Lemma eval_path_steps q scope d cost now s :
  eval_path q scope d cost now s =
  (omap (eval_at q s d cost now) (path scope), foldl (λ s sc, eval_scope_step q d cost now sc s) s (path scope)).
Proof.
  unfold eval_path, eval_tenant, eval_environment, eval_at, eval_scope_step.
  destruct scope as [t|t e]; simpl; [by destruct (tenant_limit q s t d)|].
  destruct (tenant_limit q s t d) as [lt|]; simpl; [|by destruct (environment_limit q s t e d)].
  set (s1 := mkQuotaState _ _ _ _ _). change (environment_limit q s1 t e d) with (environment_limit q s t e d).
  by destruct (environment_limit q s t e d).
Qed.

(** What evaluation leaves in the buckets. *)
Lemma eval_steps_bucket q d cost now l : NoDup l → ∀ s,
  let s1 := foldl (λ s sc, eval_scope_step q d cost now sc s) s l in
  same_policy s s1 ∧ last_reap s1 = last_reap s ∧
  ∀ sc d', bucket_of s1 sc d' =
    match (if decide (sc ∈ l ∧ d' = d) then limit_of q s sc d else None) with
    | Some limit => Some (refilled s sc d limit now)
    | None => bucket_of s sc d'
    end.
Proof.
  induction 1 as [|x l Hx _ IH]; intros s; cbn [foldl]; cbv zeta.
  { split; [done|]. split; [done|]. intros sc d'. rewrite decide_False; [done|set_solver]. }
  destruct (IH (eval_scope_step q d cost now x s)) as ([Ht He] & Hr & Hb). clear IH.
  assert (same_policy s (eval_scope_step q d cost now x s)) as Hsame.
  { unfold eval_scope_step. destruct (limit_of q s x d); [apply same_policy_set|done]. }
  split; [destruct Hsame; split; congruence|]. split.
  { rewrite Hr. unfold eval_scope_step. destruct (limit_of q s x d); [apply last_reap_set|done]. }
  intros sc d'. rewrite Hb, (limit_of_same q s _ sc d Hsame). clear Hb.
  assert (∀ sc' d'', sc' ≠ x ∨ d'' ≠ d → bucket_of (eval_scope_step q d cost now x s) sc' d'' = bucket_of s sc' d'') as Hother.
  { intros sc' d'' Hne. unfold eval_scope_step. destruct (limit_of q s x d); [|done].
    rewrite bucket_of_set, decide_False; [done|]. naive_solver. }
  destruct (decide (sc = x)) as [->|Hne].
  - rewrite decide_False by naive_solver. destruct (decide (d' = d)) as [->|Hd].
    + rewrite decide_True by set_solver. unfold eval_scope_step. destruct (limit_of q s x d) as [lim|]; [|done].
      by rewrite bucket_of_set, decide_True.
    + rewrite (decide_False (P := _ ∧ d' = d)) by naive_solver. apply Hother. by right.
  - destruct (decide (sc ∈ l ∧ d' = d)) as [[Hl ->]|Hno].
    + rewrite decide_True by set_solver. destruct (limit_of q s sc d); [|apply Hother; by left].
      unfold refilled. rewrite Hother by (by left). done.
    + rewrite decide_False by set_solver. apply Hother. by left.
Qed.

(** A write through every evaluation of one dimension, at distinct scopes. *)
Lemma for_evals_writes (W : Eval → Bucket → list UsageEvent * Bucket) (B : Scope → Bucket) d evals :
  NoDup (eval_scope <$> evals) → ∀ s,
  (∀ e, e ∈ evals → eval_dimension e = d ∧ bucket_of s (eval_scope e) d = Some (B (eval_scope e))) →
  ∃ s2, for_evals (λ e, bucket_mut e (W e)) evals s
          = Returned (mjoin ((λ e, (W e (B (eval_scope e))).1) <$> evals), s2) ∧
    same_policy s s2 ∧ last_reap s2 = last_reap s ∧
    (∀ e, e ∈ evals → bucket_of s2 (eval_scope e) d = Some (W e (B (eval_scope e))).2) ∧
    (∀ sc d', sc ∉ eval_scope <$> evals ∨ d' ≠ d → bucket_of s2 sc d' = bucket_of s sc d').
Proof.
  induction evals as [|e evals IH]; intros Hnd s Hs.
  { exists s. split_and!; try done. intros e He. by apply elem_of_nil in He. }
  rewrite fmap_cons in Hnd. apply NoDup_cons in Hnd as [Hfresh Hnd].
  destruct (Hs e) as [Hd Hb]; [apply list_elem_of_here|]. cbn [for_evals]. unfold bucket_mut at 1. rewrite Hd, Hb.
  destruct (W e (B (eval_scope e))) as [es b'] eqn:HW.
  destruct (IH Hnd (set_bucket (eval_scope e) d b' s)) as (s2 & Hrun & Hpol & Hreap & Hin & Hout).
  { intros e' He'. destruct (Hs e') as [Hd' Hb']; [by apply list_elem_of_further|]. split; [done|].
    rewrite bucket_of_set, decide_False; [done|]. intros [Heq _]. apply Hfresh. rewrite <-Heq. by apply list_elem_of_fmap_2. }
  rewrite Hrun. exists s2. rewrite fmap_cons, HW. split; [done|].
  split; [by destruct Hpol as [Ht He], (same_policy_set (eval_scope e) d b' s) as [Ht' He']; split; congruence|].
  split; [by rewrite Hreap, last_reap_set|]. split.
  - intros e' He'. apply elem_of_cons in He' as [->|He']; [|by apply Hin].
    rewrite HW, Hout by (by left). by rewrite bucket_of_set, decide_True.
  - intros sc d' Hno. rewrite fmap_cons in Hno. rewrite Hout by set_solver.
    rewrite bucket_of_set, decide_False; [done|]. set_solver.
Qed.

(** A loop that skips some evaluations is the loop over the others. *)
Lemma for_evals_filter (p : Eval → bool) f evals : ∀ s,
  for_evals (λ e s, if p e then f e s else Returned ([], s)) evals s = for_evals f (filter (λ e, p e = true) evals) s.
Proof.
  induction evals as [|e evals IH]; intros s; [done|]. cbn [for_evals]. destruct (p e) eqn:Hp.
  - rewrite filter_cons_True by done. cbn [for_evals]. destruct (f e s) as [[es s1]| |]; [|done..]. by rewrite IH.
  - rewrite filter_cons_False by congruence. rewrite IH. by destruct (for_evals _ _ s) as [[es s1]| |].
Qed.

Lemma eval_at_Some q s d cost now sc e : eval_at q s d cost now sc = Some e ↔
  ∃ limit, limit_of q s sc d = Some limit ∧ e = eval_of sc d limit cost (refilled s sc d limit now).
Proof. unfold eval_at. destruct (limit_of q s sc d) as [lim|]; simpl; naive_solver. Qed.

Lemma eval_path_scopes q s d cost now l : NoDup l → NoDup (eval_scope <$> omap (eval_at q s d cost now) l).
Proof.
  induction 1 as [|x l Hx _ IH]; [constructor|]. simpl. destruct (eval_at q s d cost now x) as [e|] eqn:He; [|done].
  rewrite fmap_cons. constructor; [|done]. intros (e' & Heq & Hin)%list_elem_of_fmap.
  apply list_elem_of_omap in Hin as (y & Hy & (ly & _ & ->)%eval_at_Some). apply eval_at_Some in He as (lx & _ & ->).
  simpl in Heq. by subst.
Qed.

Lemma reap_same_policy q now s : same_policy s (reap_when_due q now s).
Proof. unfold reap_when_due. destruct (idle_ttl q); [|done]. by destruct (_ <=? _). Qed.

(** What a decided spend writes to a bucket on its path. *)
Definition spend_write (q : QuotaEnforcer) (now : Z) (ok : bool) (e : Eval) (b : Bucket) : list UsageEvent * Bucket :=
  if ok then charge_bucket q e now b else if has_capacity e then ([], b) else count_denial b.

Lemma mjoin_empty {A B} (f : A → list B) l : (∀ x, f x = []) → mjoin (f <$> l) = [].
Proof. intros Hf. induction l as [|x l IH]; [done|]. rewrite fmap_cons. simpl. by rewrite Hf. Qed.

Lemma spend_writes q now (ok : bool) d evals (B : Scope → Bucket) s :
  NoDup (eval_scope <$> evals) →
  (∀ e, e ∈ evals → eval_dimension e = d ∧ bucket_of s (eval_scope e) d = Some (B (eval_scope e))) →
  ∃ s2, (if ok then for_evals (λ eval, charge q eval now) evals s
         else for_evals (λ eval s, if negb (has_capacity eval) then bucket_mut eval count_denial s else Returned ([], s)) evals s)
          = Returned (mjoin ((λ e, (spend_write q now ok e (B (eval_scope e))).1) <$> evals), s2) ∧
    same_policy s s2 ∧ last_reap s2 = last_reap s ∧
    (∀ e, e ∈ evals → bucket_of s2 (eval_scope e) d = Some (spend_write q now ok e (B (eval_scope e))).2) ∧
    (∀ sc d', sc ∉ eval_scope <$> evals ∨ d' ≠ d → bucket_of s2 sc d' = bucket_of s sc d').
Proof.
  intros Hnd Hs. destruct ok; [by apply (for_evals_writes (λ e, charge_bucket q e now))|].
  rewrite (for_evals_filter (λ e, negb (has_capacity e)) (λ e, bucket_mut e count_denial)).
  set (lacking := filter _ evals).
  assert (∀ e, e ∈ lacking ↔ has_capacity e = false ∧ e ∈ evals) as Hlack.
  { intros e. unfold lacking. rewrite list_elem_of_filter, negb_true_iff. done. }
  assert (NoDup (eval_scope <$> lacking)) as Hnd'.
  { apply (sublist_NoDup _ (eval_scope <$> evals)); [done|]. apply fmap_sublist, sublist_filter. }
  destruct (for_evals_writes (λ _, count_denial) B d lacking Hnd' s) as (s2 & Hrun & Hpol & Hreap & Hin & Hout).
  { intros e [_ He]%Hlack. by apply Hs. }
  exists s2. rewrite Hrun. split.
  { rewrite !mjoin_empty; [done| |done]. intros e. unfold spend_write. by destruct (has_capacity e). }
  split_and!; [done..| |].
  - intros e He. unfold spend_write. destruct (has_capacity e) eqn:Hc.
    + rewrite Hout; [by apply Hs|]. left. intros (e' & Heq & [Hc' He']%Hlack)%list_elem_of_fmap.
      assert (e = e') as ->; [|congruence]. apply list_elem_of_lookup in He as [i Hi], He' as [j Hj].
      assert (i = j) as ->; [|congruence]. apply (NoDup_lookup (eval_scope <$> evals) i j (eval_scope e) Hnd);
        rewrite list_lookup_fmap; [by rewrite Hi|by rewrite Hj, Heq].
    + by apply Hin, Hlack.
  - intros sc d' Hno. apply Hout. destruct Hno as [Hno|?]; [left|by right].
    intros (e & -> & [_ He]%Hlack)%list_elem_of_fmap. by apply Hno, list_elem_of_fmap_2.
Qed.

(** The whole effect of a spend. *)
Lemma admit_spend_result q scope d cost now s :
  let c := f64_max cost f64_zero in
  let s0 := reap_when_due q now s in
  let evals := omap (eval_at q s0 d c now) (path scope) in
  let ok := forallb has_capacity evals in
  ∃ s', admit_spend q scope d cost now s = Returned (mkOutcome (if ok then SpendAdmitted else SpendDenied)
      (binding_snapshot evals ok)
      (mjoin ((λ e, (spend_write q now ok e (refilled s0 (eval_scope e) d (eval_limit e) now)).1) <$> evals)), s') ∧
    same_policy s s' ∧ last_reap s' = last_reap s0 ∧
    ∀ sc d', bucket_of s' sc d' =
      match (if decide (sc ∈ path scope ∧ d' = d) then limit_of q s sc d else None) with
      | Some limit => let b := refilled s0 sc d limit now in Some (spend_write q now ok (eval_of sc d limit c b) b).2
      | None => bucket_of s0 sc d'
      end.
Proof.
  intros c s0 evals ok. unfold admit_spend. fold c s0. rewrite eval_path_steps. fold evals.
  destruct (eval_steps_bucket q d c now (path scope) (path_NoDup scope) s0) as (Hpol1 & Hreap1 & Hb1).
  set (s1 := foldl _ s0 (path scope)) in *. pose proof (reap_same_policy q now s) as Hpol0. fold s0 in Hpol0.
  assert (∀ e, e ∈ evals ↔ ∃ sc limit, sc ∈ path scope ∧ limit_of q s0 sc d = Some limit ∧
    e = eval_of sc d limit c (refilled s0 sc d limit now)) as Hev.
  { intros e. unfold evals. rewrite list_elem_of_omap. setoid_rewrite eval_at_Some. naive_solver. }
  assert (same_policy s s1) as Hpol by (destruct Hpol0, Hpol1; split; congruence).
  destruct (spend_writes q now ok d evals
    (λ sc, from_option (λ limit, refilled s0 sc d limit now) (mkBucket f64_zero 0 0 0 0) (limit_of q s0 sc d)) s1)
    as (s2 & Hrun & Hpol2 & Hreap2 & Hin & Hout).
  { apply eval_path_scopes, path_NoDup. }
  { intros e (sc & lim & Hsc & Hlim & ->)%Hev. simpl. split; [done|]. rewrite Hb1, decide_True, Hlim by done. done. }
  assert (∀ sc d', bucket_of s2 sc d' =
      match (if decide (sc ∈ path scope ∧ d' = d) then limit_of q s sc d else None) with
      | Some limit => let b := refilled s0 sc d limit now in Some (spend_write q now ok (eval_of sc d limit c b) b).2
      | None => bucket_of s0 sc d'
      end) as Hfinal.
  { intros sc d'. rewrite <-(limit_of_same q s s0 sc d Hpol0). destruct (decide (sc ∈ path scope ∧ d' = d)) as [[Hsc ->]|Hno].
    - destruct (limit_of q s0 sc d) as [lim|] eqn:Hlim.
      + set (e := eval_of sc d lim c (refilled s0 sc d lim now)).
        assert (e ∈ evals) as He by (apply Hev; eauto). apply Hin in He. simpl in He. by rewrite Hlim in He.
      + rewrite Hout, Hb1, decide_True, Hlim by (done || left; intros (e & -> & (sc' & l' & _ & Hl' & ->)%Hev)%list_elem_of_fmap;
          simpl in Hlim; congruence). done.
    - rewrite Hout, Hb1, decide_False; [done..|]. destruct (decide (d' = d)) as [->|]; [left|by right].
      intros (e & -> & (sc' & l' & Hsc' & _ & ->)%Hev)%list_elem_of_fmap. by apply Hno. }
  exists s2. split; [|split; [destruct Hpol, Hpol2; split; congruence|split; [by rewrite Hreap2|done]]].
  assert (∀ e, e ∈ evals → from_option (λ limit, refilled s0 (eval_scope e) d limit now) (mkBucket f64_zero 0 0 0 0)
      (limit_of q s0 (eval_scope e) d) = refilled s0 (eval_scope e) d (eval_limit e) now) as Hsame.
  { intros e (sc & lim & _ & Hlim & ->)%Hev. simpl. by rewrite Hlim. }
  assert (((λ e, (spend_write q now ok e (refilled s0 (eval_scope e) d (eval_limit e) now)).1) <$> evals)
    = ((λ e, (spend_write q now ok e (from_option (λ limit, refilled s0 (eval_scope e) d limit now)
         (mkBucket f64_zero 0 0 0 0) (limit_of q s0 (eval_scope e) d))).1) <$> evals)) as ->.
  { apply list_fmap_ext. intros i e He. by rewrite Hsame by (by eapply list_elem_of_lookup_2). }
  case_bool_decide as Hempty; [|fold ok; by rewrite Hrun].
  assert (evals = []) as Hnil by (by apply nil_length_inv). unfold ok in *. rewrite Hnil in *. simpl in *. by simplify_eq.
Qed.

(** ** Admission and charging *)

Lemma forallb_evals q s d c now l : forallb has_capacity (omap (eval_at q s d c now) l) = true ↔
  ∀ sc limit, sc ∈ l → limit_of q s sc d = Some limit → f64_ge (tokens (refilled s sc d limit now)) c = true.
Proof.
  rewrite forallb_forall. split.
  - intros Hall sc lim Hsc Hlim. apply (Hall (eval_of sc d lim c (refilled s sc d lim now))).
    apply list_elem_of_In, list_elem_of_omap. exists sc. split; [done|]. apply eval_at_Some. eauto.
  - intros Hall e He%list_elem_of_In. apply list_elem_of_omap in He as (sc & Hsc & (lim & Hlim & ->)%eval_at_Some).
    by apply Hall.
Qed.

(** C34 (functional): a spend always returns.  It is admitted exactly when every limited
    bucket on its path holds the cost after refilling; then each of them is charged the
    cost.  When it is refused no bucket is charged, and the refusal is counted on exactly
    the buckets that lacked capacity.  Every other bucket, of another tenant, environment
    or dimension, is what the idle sweep left. *)
Theorem spend_all_or_nothing q scope d cost now s :
  let c := f64_max cost f64_zero in
  let s0 := reap_when_due q now s in
  ∃ outcome s', admit_spend q scope d cost now s = Returned (outcome, s') ∧
    (is_admitted (decision outcome) = true ↔ ∀ sc limit, sc ∈ path scope → limit_of q s sc d = Some limit →
       f64_ge (tokens (refilled s0 sc d limit now)) c = true) ∧
    (∀ sc limit, sc ∈ path scope → limit_of q s sc d = Some limit →
       let b := refilled s0 sc d limit now in
       ∃ b', bucket_of s' sc d = Some b' ∧ last b' = now ∧
         if is_admitted (decision outcome) then
           tokens b' = f64_max (f64_sub (tokens b) c) f64_zero ∧
           admitted b' = u64_wrapping_add (admitted b) 1 ∧ denied b' = denied b
         else
           tokens b' = tokens b ∧ emitted_level b' = emitted_level b ∧ admitted b' = admitted b ∧
           denied b' = (if f64_ge (tokens b) c then denied b else u64_wrapping_add (denied b) 1)) ∧
    (∀ sc d', sc ∉ path scope ∨ d' ≠ d ∨ limit_of q s sc d = None → bucket_of s' sc d' = bucket_of s0 sc d') ∧
    same_policy s s'.
Proof.
  intros c s0. destruct (admit_spend_result q scope d cost now s) as (s' & Hrun & Hpol & _ & Hb).
  fold c s0 in Hrun, Hb. set (ok := forallb _ _) in *. eexists _, s'. split; [exact Hrun|]. simpl.
  assert (is_admitted (if ok then SpendAdmitted else SpendDenied) = ok) as -> by (by destruct ok).
  split; [|split; [|split; [|done]]].
  - unfold ok. rewrite forallb_evals. by setoid_rewrite (limit_of_same q s s0 _ d (reap_same_policy q now s)).
  - intros sc lim Hsc Hlim. specialize (Hb sc d). rewrite decide_True, Hlim in Hb by done. simpl in Hb.
    eexists. split; [exact Hb|]. unfold spend_write. destruct ok; [done|]. simpl. by destruct (f64_ge _ c).
  - intros sc d' Hno. rewrite Hb. case_decide as Hd; [|done]. destruct Hd as [Hsc ->].
    by destruct Hno as [Hn|[Hn| ->]].
Qed.

(** ** Signals *)

Lemma list_elem_of_find {A} (f : A → bool) l x : List.find f l = Some x → x ∈ l ∧ f x = true.
Proof. intros [Hin Hf]%List.find_some. split; [by apply list_elem_of_In|done]. Qed.

(** The bucket that a refusal reports lacked capacity. *)
Lemma binding_eval_denied evals : forallb has_capacity evals = false →
  ∃ e, binding_eval evals false = Some e ∧ e ∈ evals ∧ has_capacity e = false.
Proof.
  intros Hall. simpl. destruct (List.find _ evals) as [e|] eqn:Hf.
  - apply list_elem_of_find in Hf as [He Hc%negb_true_iff]. eauto.
  - exfalso. apply not_true_iff_false in Hall. apply Hall, forallb_forall. intros e He.
    specialize (List.find_none _ _ Hf e He). simpl. by rewrite negb_false_iff.
Qed.

Lemma block_signal_iff snap : (BLOCK_SIGNAL_HEADER, BLOCK_SIGNAL_VALUE) ∈ rate_limit_headers snap ↔ snap_denied snap = true.
Proof.
  unfold rate_limit_headers, BLOCK_SIGNAL_HEADER, BLOCK_SIGNAL_VALUE.
  destruct snap as [ [lim|] [rem|] rst [ra|] [|] [w|]]; simpl; rewrite list_elem_of_In; simpl; split; intros H; try done;
    repeat destruct H as [[=]|H]; try done; repeat first [left; reflexivity|right].
Qed.

(** The response to a spend carries the block signal exactly when the spend was
    refused.  A retry time is published only on a refusal, is at least one second, and
    belongs to a bucket on the path that lacked capacity, refills, and can hold what the
    spend is reckoned to cost. *)
Theorem refusal_is_signalled q scope d cost now s :
  let c := f64_max cost f64_zero in
  let s0 := reap_when_due q now s in
  ∃ outcome s', admit_spend q scope d cost now s = Returned (outcome, s') ∧
    ((BLOCK_SIGNAL_HEADER, BLOCK_SIGNAL_VALUE) ∈ rate_limit_headers (snapshot outcome)
       ↔ is_denied (decision outcome) = true) ∧
    ∀ secs, retry_after_secs (snapshot outcome) = Some secs →
      is_denied (decision outcome) = true ∧ 1 ≤ secs ∧
      ∃ sc limit, sc ∈ path scope ∧ limit_of q s sc d = Some limit ∧
        let level := tokens (refilled s0 sc d limit now) in
        f64_ge level c = false ∧ f64_le (refill_per_sec limit) f64_zero = false ∧
        f64_gt (f64_sub level (f64_sub level c)) (burst limit) = false.
Proof.
  intros c s0. destruct (admit_spend_result q scope d cost now s) as (s' & Hrun & _). fold c s0 in Hrun.
  set (evals := omap _ _) in *. destruct (forallb has_capacity evals) eqn:Hok; eexists _, s'; (split; [exact Hrun|]); simpl;
    rewrite block_signal_iff.
  - unfold binding_snapshot. destruct (binding_eval evals true) as [e|]; simpl; (split; [done|]); intros secs [=].
  - destruct (binding_eval_denied evals Hok) as (e & Hbind & He & Hc). unfold binding_snapshot. rewrite Hbind. simpl.
    split; [done|]. intros secs. destruct (_ || _) eqn:Hor; intros [= <-]. apply orb_false_iff in Hor as [Hrate Hcost].
    split; [done|]. split; [lia|]. apply list_elem_of_omap in He as (sc & Hsc & (lim & Hlim & ->)%eval_at_Some).
    exists sc, lim. split; [done|]. rewrite (limit_of_same q s s0 sc d (reap_same_policy q now s)) in Hlim. done.
Qed.

(** ** Operations in sequence *)

Inductive QuotaOp : Type :=
| OpSpend (scope : Scope) (d : QuotaDimension) (cost : spec_float) (now : Z)
| OpSetTenant (tenant : string) (limits : ScopeLimits)
| OpClearTenant (tenant : string)
| OpSetEnvironment (tenant environment : string) (limits : ScopeLimits)
| OpClearEnvironment (tenant environment : string)
| OpReap (now : Z).

Definition op_step (q : QuotaEnforcer) (op : QuotaOp) (s : QuotaState) : Run (option QuotaOutcome * QuotaState) :=
  match op with
  | OpSpend scope d cost now =>
      match admit_spend q scope d cost now s with
      | Returned (outcome, s') => Returned (Some outcome, s')
      | Panicked => Panicked
      | OutOfFuel => OutOfFuel
      end
  | OpSetTenant tenant limits => Returned (None, set_tenant_override tenant limits s)
  | OpClearTenant tenant => Returned (None, clear_tenant_override tenant s)
  | OpSetEnvironment tenant environment limits => Returned (None, set_environment_override tenant environment limits s)
  | OpClearEnvironment tenant environment => Returned (None, clear_environment_override tenant environment s)
  | OpReap now => Returned (None, (reap_idle_buckets q now s).2)
  end.

(** The operations with their outcomes. *)
Fixpoint run_ops (q : QuotaEnforcer) (ops : list QuotaOp) (s : QuotaState)
    : Run (list (QuotaOp * option QuotaOutcome) * QuotaState) :=
  match ops with
  | [] => Returned ([], s)
  | op :: rest =>
      match op_step q op s with
      | Returned (outcome, s1) =>
          match run_ops q rest s1 with
          | Returned (outcomes, s2) => Returned ((op, outcome) :: outcomes, s2)
          | Panicked => Panicked
          | OutOfFuel => OutOfFuel
          end
      | Panicked => Panicked
      | OutOfFuel => OutOfFuel
      end
  end.

(** The operations of one tenant in one dimension. *)
Definition concerns (t : string) (d : QuotaDimension) (op : QuotaOp) : bool :=
  match op with
  | OpSpend scope d' _ _ => bool_decide (scope_tenant scope = t) && bool_decide (d' = d)
  | OpSetTenant t' _ | OpClearTenant t' | OpSetEnvironment t' _ _ | OpClearEnvironment t' _ => bool_decide (t' = t)
  | OpReap _ => false
  end.

(** Two states that one tenant cannot tell apart in one dimension. *)
Record agree (t : string) (d : QuotaDimension) (s1 s2 : QuotaState) : Prop := mkAgree {
  agree_bucket sc : scope_tenant sc = t → bucket_of s1 sc d = bucket_of s2 sc d;
  agree_tenant : tenant_overrides s1 !! t = tenant_overrides s2 !! t;
  agree_environment e : environment_overrides s1 !! (t, e) = environment_overrides s2 !! (t, e)
}.

Lemma agree_refl t d s : agree t d s s.
Proof. by constructor. Qed.

Lemma agree_limit q t d s1 s2 sc : agree t d s1 s2 → scope_tenant sc = t → limit_of q s1 sc d = limit_of q s2 sc d.
Proof.
  intros [_ Ht He] <-. destruct sc as [t|t e]; simpl in *; unfold tenant_limit, environment_limit; by rewrite ?Ht, ?He.
Qed.

Lemma agree_refilled t d s1 s2 sc limit now : agree t d s1 s2 → scope_tenant sc = t →
  refilled s1 sc d limit now = refilled s2 sc d limit now.
Proof. intros Ha Hsc. unfold refilled. by rewrite (agree_bucket t d s1 s2 Ha sc Hsc). Qed.

Lemma path_tenant scope sc : sc ∈ path scope → scope_tenant sc = scope_tenant scope.
Proof. destruct scope; set_solver. Qed.

Lemma agree_evals q t d s1 s2 c now scope : agree t d s1 s2 → scope_tenant scope = t →
  omap (eval_at q s1 d c now) (path scope) = omap (eval_at q s2 d c now) (path scope).
Proof.
  intros Ha Ht. assert (∀ sc, scope_tenant sc = t → eval_at q s1 d c now sc = eval_at q s2 d c now sc) as Heq.
  { intros sc Hsc. unfold eval_at. rewrite (agree_limit q t d s1 s2 sc Ha Hsc). destruct (limit_of q s2 sc d); simpl; [|done].
    by rewrite (agree_refilled t d s1 s2 sc _ now Ha Hsc). }
  destruct scope; simpl in *; by rewrite !Heq.
Qed.

(** Without the reaper, an operation of the tenant has one outcome in both states. *)
Lemma op_step_concerns q t d op s1 s2 : idle_ttl q = None → concerns t d op = true → agree t d s1 s2 →
  ∃ outcome s1' s2', op_step q op s1 = Returned (outcome, s1') ∧ op_step q op s2 = Returned (outcome, s2') ∧ agree t d s1' s2'.
Proof.
  intros Hq Hc Ha. destruct op as [scope d' cost now|t' lim|t'|t' e' lim|t' e'|now]; simpl in Hc; bool_to_prop; subst; simpl; [|..|done];
    try (eexists _, _, _; split; [done|]; split; [done|]; destruct Ha as [Hb Ht He]; constructor;
         [exact Hb|simpl; rewrite ?lookup_insert_eq, ?lookup_delete_eq; done|exact He]; fail).
  - destruct (admit_spend_result q scope d cost now s1) as (s1' & Hrun1 & [Ht1 He1] & _ & Hb1).
    destruct (admit_spend_result q scope d cost now s2) as (s2' & Hrun2 & [Ht2 He2] & _ & Hb2).
    unfold reap_when_due in *. rewrite Hq in *. rewrite <-(agree_evals q _ d s1 s2 _ now scope Ha eq_refl) in Hrun2, Hb2.
    set (evals := omap _ _) in *. rewrite Hrun1, Hrun2. eexists _, s1', s2'. split; [done|]. split.
    + do 4 f_equal. apply (f_equal mjoin), list_fmap_ext. intros i e He%list_elem_of_lookup_2.
      apply list_elem_of_omap in He as (sc & Hsc & (lim & _ & ->)%eval_at_Some). simpl.
      by rewrite (agree_refilled _ d s1 s2 sc lim now Ha (path_tenant _ _ Hsc)).
    + constructor; [|by rewrite Ht1, Ht2; apply Ha|by intros e; rewrite He1, He2; apply Ha].
      intros sc Hsc. rewrite Hb1, Hb2. rewrite (agree_limit q _ d s1 s2 sc Ha Hsc).
      destruct (if decide _ then _ else _) as [lim|]; [|by apply Ha].
      by rewrite (agree_refilled _ d s1 s2 sc lim now Ha Hsc).
  - eexists _, _, _. split; [done|]. split; [done|]. destruct Ha as [Hb Ht He]. constructor; simpl; auto.
    intros e. destruct (decide (e = e')) as [->|]; [by rewrite !lookup_insert_eq|]. rewrite !lookup_insert_ne by congruence. auto.
  - eexists _, _, _. split; [done|]. split; [done|]. destruct Ha as [Hb Ht He]. constructor; simpl; auto.
    intros e. destruct (decide (e = e')) as [->|]; [by rewrite !lookup_delete_eq|]. rewrite !lookup_delete_ne by congruence. auto.
Qed.

(** An operation of another tenant or dimension is not noticed. *)
Lemma op_step_other q t d op s : idle_ttl q = None → concerns t d op = false →
  ∃ outcome s', op_step q op s = Returned (outcome, s') ∧ agree t d s' s.
Proof.
  intros Hq Hc. destruct op as [scope d' cost now|t' lim|t'|t' e' lim|t' e'|now]; simpl in *.
  - destruct (admit_spend_result q scope d' cost now s) as (s' & -> & [Ht He] & _ & Hb).
    eexists _, s'. split; [done|]. unfold reap_when_due in *. rewrite Hq in *. constructor; [|by rewrite Ht|by intros; rewrite He].
    intros sc Hsc. rewrite Hb, decide_False; [done|]. intros [Hin ->]. apply path_tenant in Hin.
    rewrite !bool_decide_true in Hc by congruence. done.
  - bool_to_prop. eexists _, _. split; [done|]. constructor; simpl; auto. by rewrite lookup_insert_ne.
  - bool_to_prop. eexists _, _. split; [done|]. constructor; simpl; auto. by rewrite lookup_delete_ne.
  - bool_to_prop. eexists _, _. split; [done|]. constructor; simpl; auto. intros. by rewrite lookup_insert_ne by congruence.
  - bool_to_prop. eexists _, _. split; [done|]. constructor; simpl; auto. intros. by rewrite lookup_delete_ne by congruence.
  - eexists _, _. split; [done|]. unfold reap_idle_buckets. rewrite Hq. apply agree_refl.
Qed.

Lemma run_ops_agree q t d ops : idle_ttl q = None → ∀ s1 s2, agree t d s1 s2 →
  ∃ outcomes s1' outcomes2 s2', run_ops q ops s1 = Returned (outcomes, s1') ∧
    run_ops q (filter (λ op, concerns t d op = true) ops) s2 = Returned (outcomes2, s2') ∧
    filter (λ out, concerns t d out.1 = true) outcomes = outcomes2.
Proof.
  intros Hq. induction ops as [|op ops IH]; intros s1 s2 Ha; [by eexists [], s1, [], s2|]. cbn [run_ops].
  destruct (concerns t d op) eqn:Hc.
  - destruct (op_step_concerns q t d op s1 s2 Hq Hc Ha) as (out & s1' & s2' & H1 & H2 & Ha').
    destruct (IH s1' s2' Ha') as (outs & s1'' & outs2 & s2'' & Hr1 & Hr2 & Heq).
    rewrite filter_cons_True by done. cbn [run_ops]. rewrite H1, H2, Hr1, Hr2.
    eexists _, _, _, _. split; [done|]. split; [done|]. by rewrite filter_cons_True, Heq by done.
  - destruct (op_step_other q t d op s1 Hq Hc) as (out & s1' & H1 & [Hb Ht He]).
    destruct (IH s1' s2) as (outs & s1'' & outs2 & s2'' & Hr1 & Hr2 & Heq).
    { destruct Ha as [Hb' Ht' He']. constructor; [intros sc Hsc; rewrite Hb; auto|congruence|congruence]. }
    rewrite filter_cons_False by congruence. rewrite H1, Hr1, Hr2.
    eexists _, _, _, _. split; [done|]. split; [done|]. by rewrite filter_cons_False, Heq by (simpl; congruence).
Qed.

(** C35 (safety): with the idle reaper off, no operation panics, and what a tenant observes in a
    dimension is unaffected by everybody else: in any sequence of spends, overrides and
    sweeps, the outcomes of its operations are those it would get if the operations of the
    other tenants and the spends on the other dimensions had never happened. *)
Theorem tenants_do_not_interfere q t d ops s (Hq : idle_ttl q = None) :
  ∃ outcomes s1 own s2, run_ops q ops s = Returned (outcomes, s1) ∧
    run_ops q (filter (λ op, concerns t d op = true) ops) s = Returned (own, s2) ∧
    filter (λ out, concerns t d out.1 = true) outcomes = own.
Proof. by apply run_ops_agree, agree_refl. Qed.

(** A deployment with one small limit per tier, without a reaper. *)
Definition sample_scope_config (rate burst : Z) : ScopeQuotaConfig := mkScopeQuotaConfig rate burst 0 0 0 0 0 0.
Definition sample_config (ttl : Z) : QuotaConfig :=
  mkQuotaConfig (sample_scope_config 1 3) (sample_scope_config 1 2) [100; 50; 50] ttl.
Definition sample_enforcer : QuotaEnforcer := (QuotaEnforcer_from_config (sample_config 0) 0).1.
Definition sample_state : QuotaState := (QuotaEnforcer_from_config (sample_config 0) 0).2.
Definition quota_ops : list QuotaOp :=
  [OpSpend (ScopeEnvironment "a" "dev") Requests (f64_of 1) 0; OpSpend (ScopeTenant "b") Requests (f64_of 3) 0;
   OpSpend (ScopeEnvironment "a" "dev") Requests (f64_of 2) 0; OpReap 5].

Lemma tenants_do_not_interfere_witness : idle_ttl sample_enforcer = None ∧
  ∃ outcomes s1 own s2, run_ops sample_enforcer quota_ops sample_state = Returned (outcomes, s1) ∧
    run_ops sample_enforcer (filter (λ op, concerns "a" Requests op = true) quota_ops) sample_state = Returned (own, s2) ∧
    filter (λ out, concerns "a" Requests out.1 = true) outcomes = own.
Proof.
  split; [vm_compute; reflexivity|].
  apply (tenants_do_not_interfere sample_enforcer "a" Requests quota_ops sample_state). vm_compute; reflexivity.
Defined.

(** The other tenant's spend drains nothing here; the tenant's own second one is refused. *)
Example sample_decisions :
  match run_ops sample_enforcer quota_ops sample_state with
  | Returned (outcomes, _) => omap (λ out, decision <$> out.2) outcomes
  | _ => []
  end = [SpendAdmitted; SpendAdmitted; SpendDenied].
Proof. vm_compute. reflexivity. Qed.

(** ** Levels *)

Definition limit_ok (limit : Limit) : Prop :=
  (nonneg (refill_per_sec limit) = true ∧ is_finite (refill_per_sec limit) = true) ∧
  (nonneg (burst limit) = true ∧ is_finite (burst limit) = true).

Definition limits_ok (limits : ScopeLimits) : Prop := ∀ d limit, ScopeLimits_get limits d = Some limit → limit_ok limit.

Lemma finite_or_zero_ok x : nonneg x = true → nonneg (finite_or_zero x) = true ∧ is_finite (finite_or_zero x) = true.
Proof. unfold finite_or_zero. by destruct (is_finite x) eqn:Hx. Qed.

(** Whatever numbers are given to it, the constructor builds a usable limit. *)
Lemma Limit_new_ok rate burst : limit_ok (Limit_new rate burst).
Proof. split; simpl; apply finite_or_zero_ok, f64_max_zero_nonneg. Qed.

Lemma ScopeLimits_from_config_ok config : limits_ok (ScopeLimits_from_config config).
Proof.
  intros d lim. destruct d; simpl; unfold limit_from; destruct (_ =? 0); intros [= <-]; apply Limit_new_ok.
Qed.

(** What the operators' overrides are made of: [Limit] values come from [Limit::new]. *)
Definition op_ok (op : QuotaOp) : Prop :=
  match op with
  | OpSetTenant _ limits | OpSetEnvironment _ _ limits => limits_ok limits
  | _ => True
  end.

(** The states an enforcer reaches. *)
Inductive reachable (config : QuotaConfig) (start : Z) : QuotaState → Prop :=
| reachable_init : reachable config start (QuotaEnforcer_from_config config start).2
| reachable_step op s outcome s' : reachable config start s → op_ok op →
    op_step (QuotaEnforcer_from_config config start).1 op s = Returned (outcome, s') → reachable config start s'.

Definition levels_ok (q : QuotaEnforcer) (s : QuotaState) : Prop :=
  (∀ sc d b, bucket_of s sc d = Some b → nonneg (tokens b) = true) ∧
  (∀ sc d limit, limit_of q s sc d = Some limit → limit_ok limit).

Lemma nonneg_lt_finite x y : nonneg x = true → is_finite y = true → f64_lt x y = true → is_finite x = true.
Proof. unfold f64_lt, SFltb. destruct x as [|[]| |[]]; try done. by destruct y as [|[]| |[]]. Qed.

Lemma refill_ok limit now b : limit_ok limit → nonneg (tokens b) = true →
  nonneg (tokens (refill limit now b)) = true ∧ is_finite (tokens (refill limit now b)) = true ∧
  f64_le (tokens (refill limit now b)) (burst limit) = true.
Proof.
  intros [[Hr _] [Hb Hf]] Ht. unfold refill. simpl. set (x := f64_add _ _).
  assert (nonneg x = true ∨ is_nan x = true) as Hx.
  { unfold x. pose proof (as_secs_nonneg (saturating_duration_since now (last b)) ltac:(unfold saturating_duration_since; lia)) as He.
    destruct (f64_mul_nonneg _ _ He Hr) as [Hm|Hm]; [left; by apply f64_add_nonneg|right].
    destruct (f64_mul _ _); try done. by destruct (tokens b) as [[]|[]| |[]]. }
  split; [|split; [|by apply f64_min_le, nonneg_not_nan]].
  - destruct Hx as [Hx|Hx]; [by apply f64_min_nonneg|]. unfold f64_min. by rewrite Hx.
  - unfold f64_min. rewrite (nonneg_not_nan _ Hb). destruct (is_nan x) eqn:Hnan; [done|].
    destruct (f64_lt x (burst limit)) eqn:Hlt; [|done]. destruct Hx as [Hx|Hx]; [|congruence]. by eapply nonneg_lt_finite.
Qed.

Lemma refilled_ok q s sc d limit now : levels_ok q s → limit_of q s sc d = Some limit →
  nonneg (tokens (refilled s sc d limit now)) = true ∧ is_finite (tokens (refilled s sc d limit now)) = true ∧
  f64_le (tokens (refilled s sc d limit now)) (burst limit) = true.
Proof.
  intros [Hb Hl] Hlim. apply refill_ok; [by eapply Hl|]. destruct (bucket_of s sc d) as [b|] eqn:Hbk; simpl; [by eapply Hb|].
  apply (Hl _ _ _ Hlim).
Qed.

Lemma reap_bucket q now s sc d b : bucket_of (reap_when_due q now s) sc d = Some b → bucket_of s sc d = Some b.
Proof.
  unfold reap_when_due. destruct (idle_ttl q) as [ttl|]; [|done]. destruct (_ <=? _); [|done].
  destruct sc; simpl; intros [? _]%map_lookup_filter_Some; done.
Qed.

Lemma reap_idle_bucket q now s sc d b : bucket_of (reap_idle_buckets q now s).2 sc d = Some b → bucket_of s sc d = Some b.
Proof.
  unfold reap_idle_buckets. destruct (idle_ttl q) as [ttl|]; [|done].
  destruct sc; simpl; intros [? _]%map_lookup_filter_Some; done.
Qed.

Lemma spend_write_nonneg q now ok e b : nonneg (tokens b) = true → nonneg (tokens (spend_write q now ok e b).2) = true.
Proof. intros Hb. unfold spend_write. destruct ok; [apply f64_max_zero_nonneg|]. by destruct (has_capacity e). Qed.

Lemma limits_ok_of q s : limits_ok (tier_tenant (tiers q)) → limits_ok (tier_environment (tiers q)) →
  (∀ t o, tenant_overrides s !! t = Some o → limits_ok o) → (∀ te o, environment_overrides s !! te = Some o → limits_ok o) →
  ∀ sc d limit, limit_of q s sc d = Some limit → limit_ok limit.
Proof.
  intros Ht He Hto Heo sc d limit. destruct sc as [t|t e]; simpl; unfold tenant_limit, environment_limit; case_match eqn:Ho.
  - exact (Hto _ _ Ho d limit).
  - exact (Ht d limit).
  - exact (Heo _ _ Ho d limit).
  - exact (He d limit).
Qed.

(** The invariant of the engine: every bucket holds a number of tokens that is not
    negative, and every limit in force is finite. *)
Definition state_ok (s : QuotaState) : Prop :=
  (∀ sc d b, bucket_of s sc d = Some b → nonneg (tokens b) = true) ∧
  (∀ t o, tenant_overrides s !! t = Some o → limits_ok o) ∧
  (∀ te o, environment_overrides s !! te = Some o → limits_ok o).

Lemma state_ok_levels config start s : state_ok s → levels_ok (QuotaEnforcer_from_config config start).1 s.
Proof.
  intros (Hb & Ht & He). split; [done|]. apply limits_ok_of; [apply ScopeLimits_from_config_ok..|done|done].
Qed.

Lemma state_ok_reap q now s : state_ok s → state_ok (reap_when_due q now s).
Proof.
  intros (Hb & Ht & He). destruct (reap_same_policy q now s) as [Ht' He']. split; [|by rewrite Ht', He'].
  intros sc d b Hbk. by eapply Hb, reap_bucket.
Qed.

Lemma spend_state_ok config start scope d cost now s outcome s' : state_ok s →
  admit_spend (QuotaEnforcer_from_config config start).1 scope d cost now s = Returned (outcome, s') → state_ok s'.
Proof.
  set (q := _.1). intros Hok Hrun. pose proof (state_ok_reap q now s Hok) as Hok0.
  pose proof (state_ok_levels config start _ Hok0) as Hlev.
  destruct (admit_spend_result q scope d cost now s) as (s2 & Hrun2 & [Ht He] & _ & Hb). rewrite Hrun in Hrun2. simplify_eq.
  destruct Hok as (_ & Hto & Heo). split; [|by rewrite Ht, He]. intros sc d' b Hbk. rewrite Hb in Hbk.
  rewrite <-(limit_of_same q s _ sc d (reap_same_policy q now s)) in Hbk.
  destruct (decide (sc ∈ path scope ∧ d' = d)) as [[_ ->]|_]; [|by eapply Hok0].
  destruct (limit_of q (reap_when_due q now s) sc d) as [lim|] eqn:Hlim; [|by eapply Hok0].
  simplify_eq/=. apply spend_write_nonneg. by eapply refilled_ok.
Qed.

Lemma op_state_ok config start op s outcome s' : state_ok s → op_ok op →
  op_step (QuotaEnforcer_from_config config start).1 op s = Returned (outcome, s') → state_ok s'.
Proof.
  intros Hok Hop Hstep. pose proof Hok as (Hb & Ht & He).
  destruct op as [scope d cost now|t lim|t|t e lim|t e|now]; cbn [op_step] in Hstep; simplify_eq.
  - destruct (admit_spend _ _ _ _ _ _) as [[out s1]| |] eqn:Hrun; simplify_eq. by eapply spend_state_ok.
  - split; [exact Hb|]. split; [|done]. simpl. intros t' o [[_ <-]|[_ Ho]]%lookup_insert_Some; [done|by eapply Ht].
  - split; [exact Hb|]. split; [|done]. simpl. intros t' o [_ Ho]%lookup_delete_Some. by eapply Ht.
  - split; [exact Hb|]. split; [done|]. simpl. intros t' o [[_ <-]|[_ Ho]]%lookup_insert_Some; [done|by eapply He].
  - split; [exact Hb|]. split; [done|]. simpl. intros t' o [_ Ho]%lookup_delete_Some. by eapply He.
  - split; [intros sc d b Hbk%reap_idle_bucket; by eapply Hb|]. unfold reap_idle_buckets. by destruct (idle_ttl _).
Qed.

(** C37 (invariant): whatever configuration, spends, overrides and sweeps, every bucket of a
    reached state holds a number of tokens that is neither negative nor a NaN, and a spend
    is decided on a finite number of tokens no greater than the burst then in force,
    also after an override that lowers it. *)
Theorem reachable_levels config start s (Hs : reachable config start s) :
  let q := (QuotaEnforcer_from_config config start).1 in
  (∀ sc d b, bucket_of s sc d = Some b → nonneg (tokens b) = true) ∧
  (∀ sc d limit now, limit_of q s sc d = Some limit →
     limit_ok limit ∧ nonneg (tokens (refilled s sc d limit now)) = true ∧
     is_finite (tokens (refilled s sc d limit now)) = true ∧
     f64_le (tokens (refilled s sc d limit now)) (burst limit) = true).
Proof.
  assert (state_ok s) as Hok.
  { induction Hs as [|op s outcome s' _ IH Hop Hstep]; [|by eapply op_state_ok].
    split; [|split]; simpl; [intros [] ? ?; simpl|intros ? ?..]; rewrite lookup_empty; done. }
  pose proof (state_ok_levels config start s Hok) as Hlev. split; [apply Hok|].
  intros sc d limit now Hlim. split; [by eapply Hlev|by eapply refilled_ok].
Qed.

(** The sample deployment after a request. *)
Definition quota_request : QuotaOp := OpSpend (ScopeEnvironment "a" "dev") Requests (f64_of 1) 5.
Definition spent_state : QuotaState :=
  match op_step sample_enforcer quota_request sample_state with Returned (_, s) => s | _ => sample_state end.

Lemma reachable_levels_witness : bucket_of spent_state (ScopeTenant "a") Requests = Some (mkBucket (f64_of 2) 5 0 1 0) ∧
  nonneg (f64_of 2) = true.
Proof.
  split; [vm_compute; reflexivity|].
  apply (proj1 (reachable_levels (sample_config 0) 0 spent_state
    (reachable_step (sample_config 0) 0 quota_request sample_state _ spent_state
       (reachable_init (sample_config 0) 0) I eq_refl)) (ScopeTenant "a") Requests (mkBucket (f64_of 2) 5 0 1 0)).
  vm_compute; reflexivity.
Defined.

(** ** A storm at one instant *)

Lemma f64_max_of n : 0 ≤ n < 2 ^ 53 → f64_max (f64_of n) f64_zero = f64_of n.
Proof.
  intros Hn. change f64_zero with (f64_of 0). unfold f64_max, f64_gt.
  rewrite !f64_of_not_nan by lia. fold (f64_lt (f64_of 0) (f64_of n)). rewrite f64_lt_of by lia.
  destruct (Z.ltb_spec 0 n); [done|]. f_equal. lia.
Qed.

Lemma Limit_new_of r b : 0 ≤ r < 2 ^ 53 → 0 ≤ b < 2 ^ 53 → Limit_new (f64_of r) (f64_of b) = mkLimit (f64_of r) (f64_of b).
Proof. intros Hr Hb. unfold Limit_new, finite_or_zero. rewrite !f64_max_of, !f64_of_finite by lia. done. Qed.

(** A bucket refilled at the instant of its last refill is unchanged. *)
Lemma refill_now r n k now e a den : 0 ≤ r < 2 ^ 53 → 0 ≤ k ≤ n → n < 2 ^ 53 →
  refill (mkLimit (f64_of r) (f64_of n)) now (mkBucket (f64_of k) now e a den) = mkBucket (f64_of k) now e a den.
Proof.
  intros Hr Hk Hn. unfold refill, saturating_duration_since. simpl. rewrite Z.sub_diag. change (Z.max 0 0) with 0.
  change (as_secs_f64 0) with f64_zero.
  assert (f64_add (f64_of k) (f64_mul f64_zero (f64_of r)) = f64_of k) as ->.
  { assert (f64_mul f64_zero (f64_of r) = f64_zero) as ->.
    { destruct r as [|r|r]; [done| |lia]. by rewrite f64_of_pos by lia. }
    destruct k as [|k|k]; [done| |lia]. by rewrite f64_of_pos by lia. }
  f_equal. unfold f64_min. rewrite !f64_of_not_nan by lia. rewrite f64_lt_of by lia.
  destruct (Z.ltb_spec k n); [done|]. f_equal. lia.
Qed.

(** Repeated spends at one instant, and their decisions. *)
Fixpoint spends (q : QuotaEnforcer) (scope : Scope) (d : QuotaDimension) (cost : f64) (now : Z) (n : nat) (s : QuotaState)
    : Run (list QuotaDecision * QuotaState) :=
  match n with
  | O => Returned ([], s)
  | S n' =>
      match admit_spend q scope d cost now s with
      | Returned (outcome, s1) =>
          match spends q scope d cost now n' s1 with
          | Returned (decisions, s2) => Returned (decision outcome :: decisions, s2)
          | Panicked => Panicked
          | OutOfFuel => OutOfFuel
          end
      | Panicked => Panicked
      | OutOfFuel => OutOfFuel
      end
  end.

Section Storm.
Context (q : QuotaEnforcer) (scope : Scope) (d : QuotaDimension) (now : Z).
(** The configured rate and burst of each scope; a burst of zero is no limit. *)
Context (rate size : Scope → Z).
Hypothesis rate_range : ∀ sc, 0 ≤ rate sc < 2 ^ 53.
Hypothesis size_range : ∀ sc, 0 ≤ size sc < 2 ^ 53.
Hypothesis ttl_pos : ∀ ttl, idle_ttl q = Some ttl → 0 < ttl.

(** Of [n] spends after the first [i], those for which every limited scope has a token. *)
Definition room (i : Z) (n : nat) : nat :=
  foldr (λ sc m, if size sc =? 0 then m else Nat.min (Z.to_nat (size sc - i)) m) n (path scope).

Lemma room_step i n : (∀ sc, sc ∈ path scope → size sc ≠ 0 → i < size sc) → room i (S n) = S (room (i + 1) n).
Proof.
  unfold room. induction (path scope) as [|sc l IH]; intros Hall; cbn [foldr]; [done|].
  rewrite IH by set_solver. destruct (Z.eqb_spec (size sc) 0) as [|Hne]; [done|].
  specialize (Hall sc ltac:(set_solver) Hne). lia.
Qed.

Lemma room_none i n : ¬ (∀ sc, sc ∈ path scope → size sc ≠ 0 → i < size sc) → room i n = 0%nat.
Proof.
  unfold room. induction (path scope) as [|sc l IH]; intros Hno; cbn [foldr]; [exfalso; apply Hno; set_solver|].
  destruct (Z.eqb_spec (size sc) 0) as [Hz|Hne].
  - apply IH. intros Hall. apply Hno. intros sc' [->|]%elem_of_cons; [done|auto].
  - destruct (decide (i < size sc)); [|lia]. rewrite IH; [lia|]. intros Hall. apply Hno. intros sc' [->|]%elem_of_cons; auto.
Qed.

(** After [i] admitted spends at this instant. *)
Definition storm (i : Z) (s : QuotaState) : Prop :=
  (∀ sc, sc ∈ path scope → limit_of q s sc d = limit_from (rate sc) (size sc)) ∧
  (∀ sc, sc ∈ path scope → size sc ≠ 0 → i ≤ size sc ∧
     (i = 0 ∧ bucket_of s sc d = None ∨
      ∃ b, bucket_of s sc d = Some b ∧ last b = now ∧ tokens b = f64_of (size sc - i))).

Lemma reap_keeps_current s sc b : bucket_of s sc d = Some b → last b = now → bucket_of (reap_when_due q now s) sc d = Some b.
Proof.
  intros Hb <-. unfold reap_when_due. destruct (idle_ttl q) as [ttl|] eqn:Httl; [|done]. destruct (_ <=? _); [|done].
  assert (is_fresh ttl (last b) b = true) as Hfresh.
  { unfold is_fresh, saturating_duration_since. apply Z.ltb_lt. specialize (ttl_pos ttl eq_refl). lia. }
  destruct sc; simpl in *; by apply map_lookup_filter_Some.
Qed.

Lemma storm_limit s sc i : storm i s → sc ∈ path scope → size sc ≠ 0 →
  limit_of q s sc d = Some (mkLimit (f64_of (rate sc)) (f64_of (size sc))).
Proof.
  intros [Hl _] Hsc Hne. rewrite Hl by done. unfold limit_from. rewrite (proj2 (Z.eqb_neq _ _)) by done.
  by rewrite Limit_new_of.
Qed.

Lemma storm_refilled s sc i : storm i s → 0 ≤ i → sc ∈ path scope → size sc ≠ 0 →
  let b := refilled (reap_when_due q now s) sc d (mkLimit (f64_of (rate sc)) (f64_of (size sc))) now in
  last b = now ∧ tokens b = f64_of (size sc - i).
Proof.
  intros [_ Hb] Hi Hsc Hne. destruct (Hb sc Hsc Hne) as [Hle Hcase]. pose proof (size_range sc). unfold refilled.
  destruct Hcase as [[-> Hnone]|(b & Hsome & Hlast & Htok)].
  - destruct (bucket_of (reap_when_due q now s) sc d) as [b|] eqn:Hbk; [apply reap_bucket in Hbk; congruence|].
    simpl default. unfold Bucket_full. cbn [burst]. rewrite refill_now by (done || lia). by rewrite Z.sub_0_r.
  - rewrite (reap_keeps_current s sc b) by done. simpl default. destruct b as [tk l e a den]. cbn [last tokens] in Hlast, Htok. subst tk l.
    rewrite refill_now by (done || lia). done.
Qed.

Lemma storm_step s i : storm i s → 0 ≤ i →
  let ok := bool_decide (Forall (λ sc, size sc ≠ 0 → i < size sc) (path scope)) in
  ∃ outcome s', admit_spend q scope d (f64_of 1) now s = Returned (outcome, s') ∧
    decision outcome = (if ok then SpendAdmitted else SpendDenied) ∧ storm (if ok then i + 1 else i) s'.
Proof.
  intros Hst Hi ok. destruct (admit_spend_result q scope d (f64_of 1) now s) as (s' & Hrun & Hpol & _ & Hb).
  rewrite f64_max_of in Hrun, Hb by lia. set (s0 := reap_when_due q now s) in *.
  set (good := forallb has_capacity (omap (eval_at q s0 d (f64_of 1) now) (path scope))) in *.
  assert (∀ sc, sc ∈ path scope → size sc ≠ 0 →
    tokens (refilled s0 sc d (mkLimit (f64_of (rate sc)) (f64_of (size sc))) now) = f64_of (size sc - i)) as Htokens.
  { intros sc Hsc Hne. by apply storm_refilled. }
  assert (∀ sc, sc ∈ path scope → size sc = 0 → limit_of q s sc d = None) as Hfree.
  { intros sc Hsc Hz. rewrite (proj1 Hst sc Hsc). unfold limit_from. by rewrite Hz. }
  assert (good = ok) as Hgood.
  { apply eq_true_iff_eq. unfold good, ok. rewrite forallb_evals, bool_decide_eq_true, Forall_forall.
    assert (∀ sc, sc ∈ path scope → size sc ≠ 0 → f64_ge (f64_of (size sc - i)) (f64_of 1) = true ↔ i < size sc) as Hge.
    { intros sc Hsc Hne. destruct (proj2 Hst sc Hsc Hne) as [Hle _]. pose proof (size_range sc). unfold f64_ge.
      fold (f64_le (f64_of 1) (f64_of (size sc - i))). rewrite f64_le_of, Z.leb_le by lia. lia. }
    setoid_rewrite (limit_of_same q s s0 _ d (reap_same_policy q now s)). split.
    - intros Hall sc Hsc Hne. apply Hge; [done..|]. specialize (Hall sc _ Hsc (storm_limit s sc i Hst Hsc Hne)).
      by rewrite Htokens in Hall.
    - intros Hall sc lim Hsc Hlim. destruct (decide (size sc = 0)) as [Hz|Hne]; [by rewrite Hfree in Hlim|].
      rewrite (storm_limit s sc i Hst Hsc Hne) in Hlim. injection Hlim as <-.
      rewrite Htokens by done. apply Hge; auto. }
  eexists _, s'. split; [exact Hrun|]. simpl. rewrite Hgood. split; [done|]. split.
  { intros sc Hsc. rewrite (limit_of_same q s s' sc d Hpol). by apply Hst. }
  intros sc Hsc Hne. destruct (storm_refilled s sc i Hst Hi Hsc Hne) as [Hlast Htok]. fold s0 in Hlast, Htok.
  destruct (proj2 Hst sc Hsc Hne) as [Hle _]. pose proof (size_range sc) as Hr.
  specialize (Hb sc d). rewrite decide_True, (storm_limit s sc i Hst Hsc Hne) in Hb by done. cbv zeta in Hb.
  rewrite Hgood in Hb. destruct ok eqn:Hok.
  - apply bool_decide_eq_true in Hok. rewrite Forall_forall in Hok. specialize (Hok sc Hsc Hne).
    split; [lia|]. right. eexists. split; [exact Hb|]. split; [done|].
    change (f64_max (f64_sub (tokens (refilled s0 sc d (mkLimit (f64_of (rate sc)) (f64_of (size sc))) now)) (f64_of 1))
      f64_zero = f64_of (size sc - (i + 1))).
    rewrite Htok, f64_sub_of, f64_max_of by lia. f_equal. lia.
  - split; [done|]. right. eexists. split; [exact Hb|]. unfold spend_write. by destruct (has_capacity _).
Qed.

Lemma storm_run n : ∀ s i, storm i s → 0 ≤ i → ∃ s', spends q scope d (f64_of 1) now n s =
  Returned (replicate (room i n) SpendAdmitted ++ replicate (n - room i n) SpendDenied, s').
Proof.
  induction n as [|n IH]; intros s i Hst Hi; cbn [spends].
  { assert (room i 0 = 0%nat) as ->; [|by eexists].
    unfold room. induction (path scope) as [|sc l IHl]; [done|]. cbn [foldr]. rewrite IHl. destruct (_ =? 0); lia. }
  destruct (storm_step s i Hst Hi) as (out & s1 & -> & -> & Hst1). case_bool_decide as Hok; rewrite Forall_forall in Hok.
  - destruct (IH s1 (i + 1) Hst1 ltac:(lia)) as [s2 ->]. exists s2. by rewrite room_step.
  - destruct (IH s1 i Hst1 Hi) as [s2 ->]. exists s2. rewrite !room_none by done. by rewrite Nat.sub_0_r.
Qed.
End Storm.

(** C36 (bounds): of [n] unit spends that reach a fresh scope at one instant, exactly the first
    [min(n, burst)] are admitted, over the bursts of every limited scope on its path (its
    own and its tenant's), and all later ones are refused: a storm at the boundary never
    oversells a budget and never wastes one.  Rates and bursts are integers below 2^53. *)
Theorem storm_admits_exactly q scope d now rate size n s
    (Hrate : ∀ sc, 0 ≤ rate sc < 2 ^ 53) (Hsize : ∀ sc, 0 ≤ size sc < 2 ^ 53)
    (Httl : ∀ ttl, idle_ttl q = Some ttl → 0 < ttl)
    (Hlimits : ∀ sc, sc ∈ path scope → limit_of q s sc d = limit_from (rate sc) (size sc))
    (Hfresh : ∀ sc, sc ∈ path scope → bucket_of s sc d = None) :
  let k := foldr (λ sc m, if size sc =? 0 then m else Nat.min (Z.to_nat (size sc)) m) n (path scope) in
  ∃ s', spends q scope d (f64_of 1) now n s = Returned (replicate k SpendAdmitted ++ replicate (n - k) SpendDenied, s').
Proof.
  intros k. assert (k = room scope size 0 n) as ->.
  { unfold k, room. apply foldr_ext; [|done..]. intros sc m. by rewrite Z.sub_0_r. }
  apply (storm_run q scope d now rate size Hrate Hsize Httl); [|lia]. split; [done|].
  intros sc Hsc _. split; [apply Hsize|]. left. auto.
Qed.

Definition sample_size (sc : Scope) : Z := match sc with ScopeTenant _ => 3 | ScopeEnvironment _ _ => 2 end.

Lemma storm_admits_exactly_witness : ∃ s', spends sample_enforcer (ScopeEnvironment "a" "dev") Requests (f64_of 1) 0 5 sample_state
  = Returned ([SpendAdmitted; SpendAdmitted; SpendDenied; SpendDenied; SpendDenied], s').
Proof.
  apply (storm_admits_exactly sample_enforcer (ScopeEnvironment "a" "dev") Requests 0 (λ _, 1) sample_size 5 sample_state).
  - intros sc. lia.
  - intros [t|t e]; simpl; lia.
  - intros ttl [=].
  - intros sc [->|[->|[]%elem_of_nil]%elem_of_cons]%elem_of_cons; vm_compute; reflexivity.
  - intros sc [->|[->|[]%elem_of_nil]%elem_of_cons]%elem_of_cons; vm_compute; reflexivity.
Defined.

(** ** Threshold events *)

Lemma elem_of_dedup l x : x ∈ dedup_runs l ↔ x ∈ l.
Proof.
  induction l as [|a l IH]; [done|]. destruct l as [|b l]; [done|]. cbn [dedup_runs] in *.
  destruct (Z.eqb_spec a b) as [->|Hne]; rewrite ?elem_of_cons, IH; rewrite !elem_of_cons; naive_solver.
Qed.

Lemma dedup_sorted l : StronglySorted Z.le l → StronglySorted Z.lt (dedup_runs l).
Proof.
  induction 1 as [|a l Hs IH Hall]; [constructor|]. destruct l as [|b l]; [repeat constructor|]. cbn [dedup_runs] in *.
  destruct (Z.eqb_spec a b) as [->|Hne]; [done|]. constructor; [done|]. rewrite Forall_forall in *. intros x Hx.
  pose proof (Hall b ltac:(set_solver)). apply (elem_of_dedup (b :: l)) in Hx. apply elem_of_cons in Hx as [->|Hx]; [lia|].
  apply StronglySorted_inv in Hs as [_ Hb]. rewrite Forall_forall in Hb. specialize (Hb x Hx). lia.
Qed.

Lemma config_thresholds config start : let l := thresholds (QuotaEnforcer_from_config config start).1 in
  StronglySorted Z.lt l ∧ ∀ t, t ∈ l ↔ t ∈ usage_thresholds_percent config.
Proof.
  simpl. split.
  - apply dedup_sorted, StronglySorted_merge_sort; apply _.
  - intros t. by rewrite elem_of_dedup, merge_sort_Permutation.
Qed.

(** The level reached is at least a threshold exactly when the utilization is. *)
Lemma current_level_spec l u : StronglySorted Z.lt l → 0 ≤ u → ∀ t, t ∈ l → 0 < t → t ≤ current_level l u ↔ t ≤ u.
Proof.
  intros Hs Hu. assert (∀ k, current_level k u ≤ u) as Hle.
  { intros k. unfold current_level. destruct (List.find _ _) as [t|] eqn:Hf; simpl; [|done].
    apply list_elem_of_find in Hf as [_ ?%Z.leb_le]. done. }
  induction l as [|x l IH] using rev_ind; intros t Ht Hpos; [by apply elem_of_nil in Ht|].
  split; [intros Hlev; specialize (Hle (l ++ [x])); lia|]. intros Htu. 
  unfold current_level. rewrite reverse_app. simpl. destruct (Z.leb_spec x u) as [Hx|Hx]; simpl.
  - apply elem_of_app in Ht as [Ht| ->%list_elem_of_singleton]; [|done].
    pose proof (StronglySorted_app_1_elem_of _ _ _ t x Hs Ht ltac:(set_solver)). lia.
  - apply elem_of_app in Ht as [Ht| ->%list_elem_of_singleton]; [|lia].
    apply StronglySorted_app_1_l in Hs. by apply (IH Hs t Ht Hpos).
Qed.

(** What happens to one bucket. *)
Inductive BucketStep : Type :=
| StepRefill (limit : Limit) (now : Z)
| StepCharge (eval : Eval) (now : Z)
| StepDenial.

(** The events of each charge. *)
Fixpoint bucket_run (q : QuotaEnforcer) (steps : list BucketStep) (b : Bucket) : list (list UsageEvent) :=
  match steps with
  | [] => []
  | StepRefill limit now :: rest => bucket_run q rest (refill limit now b)
  | StepDenial :: rest => bucket_run q rest (count_denial b).2
  | StepCharge eval now :: rest => let '(es, b') := charge_bucket q eval now b in es :: bucket_run q rest b'
  end.

(** The share of its budget a bucket has spent after a charge. *)
Definition used (eval : Eval) : Z := utilization_percent (f64_max (tokens_after eval) f64_zero) (burst (eval_limit eval)).

(** The events as a specification: each charge reports, in ascending order, the thresholds
    above the share spent after the previous charge and up to the share spent after this
    one. *)
Fixpoint crossings (levels : list Z) (previous : Z) (steps : list BucketStep) : list (list UsageEvent) :=
  match steps with
  | [] => []
  | StepCharge eval _ :: rest =>
      ((λ t, mkUsageEvent (eval_scope eval) (eval_dimension eval) t (used eval)) <$>
         filter (λ t, previous < t ≤ used eval) levels)
      :: crossings levels (used eval) rest
  | _ :: rest => crossings levels previous rest
  end.

Lemma used_range eval : 0 ≤ used eval.
Proof.
  unfold used, utilization_percent. destruct (f64_le _ _); [lia|]. unfold f64_to_u8.
  destruct (f64_clamp _ _ _); try done; apply clamp_range; lia.
Qed.

Lemma evaluate_thresholds_spec q b eval u0 : StronglySorted Z.lt (thresholds q) → (∀ t, t ∈ thresholds q → 0 < t) → 0 ≤ u0 →
  tokens b = f64_max (tokens_after eval) f64_zero → emitted_level b = current_level (thresholds q) u0 →
  (evaluate_thresholds q b eval).1 =
    (λ t, mkUsageEvent (eval_scope eval) (eval_dimension eval) t (used eval)) <$>
      filter (λ t, u0 < t ≤ used eval) (thresholds q).
Proof.
  intros Hs Hpos Hu Htok Hlev. unfold evaluate_thresholds. rewrite Htok, Hlev. fold (used eval). cbn [fst].
  pose proof (used_range eval) as Hue.
  assert (filter (λ t, (current_level (thresholds q) u0 <? t) && (t <=? current_level (thresholds q) (used eval)) = true) (thresholds q)
    = filter (λ t, u0 < t ≤ used eval) (thresholds q)) as Hfil.
  { apply list_filter_iff_elem. intros t Ht. rewrite andb_true_iff, Z.ltb_lt, Z.leb_le.
    pose proof (current_level_spec (thresholds q) u0 Hs Hu t Ht (Hpos t Ht)).
    pose proof (current_level_spec (thresholds q) (used eval) Hs Hue t Ht (Hpos t Ht)). lia. }
  rewrite Hfil. destruct (Z.ltb_spec (current_level (thresholds q) u0) (current_level (thresholds q) (used eval))) as [|Hge]; [done|].
  rewrite <-Hfil. destruct (filter _ _) as [|t l] eqn:Hf; [done|]. exfalso.
  assert (t ∈ t :: l) as Ht by apply list_elem_of_here. rewrite <-Hf in Ht. apply list_elem_of_filter in Ht as [Hb _].
  rewrite andb_true_iff, Z.ltb_lt, Z.leb_le in Hb. lia.
Qed.

Lemma bucket_run_crossings q steps : StronglySorted Z.lt (thresholds q) → (∀ t, t ∈ thresholds q → 0 < t) →
  ∀ b u0, 0 ≤ u0 → emitted_level b = current_level (thresholds q) u0 →
  bucket_run q steps b = crossings (thresholds q) u0 steps.
Proof.
  intros Hs Hpos. induction steps as [|[limit now|eval now|] steps IH]; intros b u0 Hu Hlev; cbn [bucket_run crossings]; [done| | |].
  - by apply IH.
  - set (b1 := mkBucket (f64_max (tokens_after eval) f64_zero) now (emitted_level b) (u64_wrapping_add (admitted b) 1) (denied b)).
    change (charge_bucket q eval now b) with (evaluate_thresholds q b1 eval).
    rewrite (surjective_pairing (evaluate_thresholds q b1 eval)).
    rewrite (evaluate_thresholds_spec q b1 eval u0) by done. f_equal. apply IH; [apply used_range|done].
  - by apply IH.
Qed.

(** Usage events.  The thresholds in force are the configured ones in
    ascending order without repetition, and over the life of a bucket a charge reports a
    threshold exactly when the share spent after it reaches the threshold and the share
    spent after the previous charge did not: each upward crossing once, none missed, and
    re-armed as soon as a charge leaves the bucket below the threshold. *)
Theorem threshold_fires_on_crossing config start limit now steps
    (Hpos : ∀ t, t ∈ usage_thresholds_percent config → 1 ≤ t ≤ 100) :
  let q := (QuotaEnforcer_from_config config start).1 in
  StronglySorted Z.lt (thresholds q) ∧ (∀ t, t ∈ thresholds q ↔ t ∈ usage_thresholds_percent config) ∧
  bucket_run q steps (Bucket_full limit now) = crossings (thresholds q) 0 steps.
Proof.
  intros q. destruct (config_thresholds config start) as [Hs Hel]. split; [done|]. split; [done|].
  assert (∀ t, t ∈ thresholds q → 0 < t) as Hp by (intros t Ht; apply Hel, Hpos in Ht; lia).
  apply bucket_run_crossings; [done..|lia|]. simpl emitted_level. unfold current_level.
  destruct (List.find _ _) as [t|] eqn:Hf; [|done]. apply list_elem_of_find in Hf as [Ht Hle%Z.leb_le].
  rewrite elem_of_reverse in Ht. apply Hp in Ht. lia.
Qed.

Lemma threshold_fires_on_crossing_witness :
  let limit := Limit_new (f64_of 1) (f64_of 2) in
  let eval k := mkEval (ScopeTenant "a") Requests limit (f64_of 2) (f64_of k) true in
  (map threshold_percent <$> bucket_run sample_enforcer
     [StepCharge (eval 1) 0; StepCharge (eval 0) 0; StepDenial; StepCharge (eval 0) 1; StepCharge (eval 2) 2; StepCharge (eval 0) 2]
     (Bucket_full limit 0)) = [[50]; [100]; []; []; [50; 100]].
Proof.
  intros limit eval. assert (∀ t, t ∈ usage_thresholds_percent (sample_config 0) → 1 ≤ t ≤ 100) as Hpos.
  { intros t [->|[->|[->|[]%elem_of_nil]%elem_of_cons]%elem_of_cons]%elem_of_cons; lia. }
  unfold sample_enforcer. rewrite (proj2 (proj2 (threshold_fires_on_crossing (sample_config 0) 0 limit 0 _ Hpos))).
  vm_compute. reflexivity.
Defined.

(** ** The reaper and budgets that outlast it *)

(** A budget of 10,000 requests that refills one a second, swept after an hour. *)
Definition slow_config : QuotaConfig := mkQuotaConfig (sample_scope_config 1 10000) (sample_scope_config 0 0) [] 3600.

Definition slow_decisions (ttl_secs : Z) : list QuotaDecision :=
  let config := mkQuotaConfig (config_tenant slow_config) (config_environment slow_config) [] ttl_secs in
  let '(q, s) := QuotaEnforcer_from_config config 0 in
  match run_ops q [OpSpend (ScopeTenant "a") Requests (f64_of 10000) 0;
                   OpSpend (ScopeTenant "a") Requests (f64_of 10000) (3600 * 1000000000)] s with
  | Returned (outcomes, _) => omap (λ out, decision <$> out.2) outcomes
  | _ => []
  end.

(** Eviction is not transparent for a budget whose window is longer than the idle window:
    after an hour the spent budget has refilled to 3,600 of 10,000, and the reaper makes it
    full. *)
Example reaper_restores_budget : slow_decisions 0 = [SpendAdmitted; SpendDenied] ∧ slow_decisions 3600 = [SpendAdmitted; SpendAdmitted].
Proof. vm_compute. done. Qed.
