(* ===== verification/Layered.v ===== *)
(** * The layered request limiter

    crates/ironauth-quota layered.rs: five independent layers of token buckets (address, user,
    client, tenant, environment) in front of the quota engine, over local buckets and,
    when one is attached, a shared store.  The shared store is the class
    [SharedRateStore], and the order in which a [HashMap] is walked the class [BucketOrder].
    The local path is one locked operation; the shared path is a phase that reads and a
    phase that charges, because other nodes run between them.  The theorems: what an
    admission decides and charges; the layer a refusal names; how far the bucket map can
    grow; that dropping full buckets changes no decision; that an outage of the store leaves
    the local limits in force; and the encoding of a shared bucket. *)

From Stdlib Require Import SpecFloat.
From S2P Require Import Prelude Machine Float Quota.

Local Open Scope Z_scope.

(** ** Layers *)

Inductive RateLayer : Type := PerIp | PerUser | PerClient | PerTenant | PerEnvironment.

#[export] Instance RateLayer_eq_dec : EqDecision RateLayer.
Proof. solve_decision. Defined.

Definition NARROWEST : RateLayer := PerIp.

Definition next_wider (layer : RateLayer) : option RateLayer :=
  match layer with
  | PerIp => Some PerUser
  | PerUser => Some PerClient
  | PerClient => Some PerTenant
  | PerTenant => Some PerEnvironment
  | PerEnvironment => None
  end.

Definition LAYER_COUNT : nat := 5.

(** The chain of layers, from the narrowest. *)
Fixpoint layers_from (current : RateLayer) (count : nat) : list RateLayer :=
  match count with
  | O => []
  | S count' => current :: match next_wider current with Some next => layers_from next count' | None => [] end
  end.

Definition LAYER_ORDER : list RateLayer := layers_from NARROWEST LAYER_COUNT.

Definition layer_as_str (layer : RateLayer) : string :=
  match layer with
  | PerIp => "per_ip"
  | PerUser => "per_user"
  | PerClient => "per_client"
  | PerTenant => "per_tenant"
  | PerEnvironment => "per_environment"
  end.

Lemma LAYER_ORDER_complete layer : layer ∈ LAYER_ORDER.
Proof. destruct layer; repeat constructor. Qed.

Definition layer_index (layer : RateLayer) : nat :=
  match layer with PerIp => 0 | PerUser => 1 | PerClient => 2 | PerTenant => 3 | PerEnvironment => 4 end.

#[export] Instance RateLayer_countable : Countable RateLayer :=
  inj_countable layer_index (λ n, LAYER_ORDER !! n) (λ l, ltac:(by destruct l)).

(** ** Identities and keys *)

Record RequestIdentity : Type := mkIdentity {
  id_ip : option string;
  id_user : option string;
  id_client : option string;
  id_tenant : option string;
  id_environment : option string
}.

Inductive LayerKey : Type :=
| SingleKey (value : string)
| ScopedKey (tenant environment : string).

#[export] Instance LayerKey_eq_dec : EqDecision LayerKey.
Proof. solve_decision. Defined.

#[export] Instance LayerKey_countable : Countable LayerKey :=
  inj_countable (λ k, match k with SingleKey v => inl v | ScopedKey t e => inr (t, e) end)
    (λ x, Some match x with inl v => SingleKey v | inr (t, e) => ScopedKey t e end) (λ k, ltac:(by destruct k)).

Definition layer_key_for (identity : RequestIdentity) (layer : RateLayer) : option LayerKey :=
  match layer with
  | PerIp => SingleKey <$> id_ip identity
  | PerUser => SingleKey <$> id_user identity
  | PerClient => SingleKey <$> id_client identity
  | PerTenant => SingleKey <$> id_tenant identity
  | PerEnvironment =>
      match id_tenant identity, id_environment identity with
      | Some tenant, Some environment => Some (ScopedKey tenant environment)
      | _, _ => None
      end
  end.

Inductive MissingIpPolicy : Type := MissingDeny | MissingSkip.

#[export] Instance MissingIpPolicy_eq_dec : EqDecision MissingIpPolicy.
Proof. solve_decision. Defined.

(** [LayeredLimits]: a layer without an entry is unlimited. *)
Abbreviation LayeredLimits := (gmap RateLayer Limit).

Definition unlimited_layers : LayeredLimits := ∅.
Definition limits_with (layer : RateLayer) (limit : Limit) (limits : LayeredLimits) : LayeredLimits :=
  <[layer := limit]> limits.
Definition limits_get (limits : LayeredLimits) (layer : RateLayer) : option Limit := limits !! layer.

(** ** Outcomes *)

Record LayeredOutcome : Type := mkLayered {
  l_decision : QuotaDecision;
  limiting_layer : option RateLayer;
  l_snapshot : RateLimitSnapshot;
  unenforced : list RateLayer;
  missing_identity : bool;
  shared_fell_back : bool
}.

Definition LIMITING_LAYER_HEADER : string := "x-ratelimit-layer".

Definition layered_headers (o : LayeredOutcome) : list (string * string) :=
  rate_limit_headers (l_snapshot o)
  ++ match limiting_layer o with
     | Some layer => [(LIMITING_LAYER_HEADER, layer_as_str layer)]
     | None => []
     end.

Definition metric_label (o : LayeredOutcome) : option string := layer_as_str <$> limiting_layer o.

Definition is_throttled (o : LayeredOutcome) : bool := is_denied (l_decision o) && negb (missing_identity o).

Definition is_unidentified (o : LayeredOutcome) : bool := missing_identity o.

Definition refused_for_missing_ip (skipped : list RateLayer) : LayeredOutcome :=
  mkLayered SpendDenied (Some PerIp) (mkSnapshot None None 0 None true None) skipped true false.

(** ** Snapshots *)

(** [reset_secs] is the ceiling of a ceiling; both casts saturate. *)
Definition snapshot_for (limit : Limit) (tokens_before tokens_after cost : f64) (admitted : bool) : RateLimitSnapshot :=
  let rate := refill_per_sec limit in
  let to_full := if f64_gt rate f64_zero then f64_to_u64_ceil (f64_div (f64_sub (burst limit) tokens_after) rate) else 0 in
  let retry_after :=
    if admitted then None
    else if f64_gt cost (burst limit) then None
    else if f64_gt rate f64_zero then Some (f64_to_u64_ceil (f64_div (f64_sub cost tokens_before) rate))
    else None in
  mkSnapshot (Some (f64_to_u64_floor (burst limit)))
    (Some (if admitted then f64_to_u64_floor tokens_after else 0))
    to_full retry_after (negb admitted) (policy_window (burst limit) rate).

(** ** Local buckets *)

Record LayerBucket : Type := mkLayerBucket { lb_tokens : f64; lb_last : Z }.

Definition LayerBucket_full (limit : Limit) (now : Z) : LayerBucket := mkLayerBucket (burst limit) now.

(** The level of a bucket [elapsed] nanoseconds after its last refill. *)
Definition refilled_tokens (limit : Limit) (tokens : f64) (elapsed : Z) : f64 :=
  f64_min (f64_add tokens (f64_mul (as_secs_f64 elapsed) (refill_per_sec limit))) (burst limit).

Definition layer_refill (limit : Limit) (now : Z) (b : LayerBucket) : LayerBucket :=
  mkLayerBucket (refilled_tokens limit (lb_tokens b) (saturating_duration_since now (lb_last b))) now.

Abbreviation Buckets := (gmap (RateLayer * LayerKey) LayerBucket).

Record LayeredLimiter : Type := mkLimiter {
  limiter_limits : LayeredLimits;
  max_buckets : nat;
  missing_ip : MissingIpPolicy
}.

Definition DEFAULT_MAX_BUCKETS : nat := N.to_nat 100000.

Definition LayeredLimiter_new (limits : LayeredLimits) : LayeredLimiter := mkLimiter limits DEFAULT_MAX_BUCKETS MissingDeny.
Definition with_missing_ip_policy (policy : MissingIpPolicy) (lim : LayeredLimiter) : LayeredLimiter :=
  mkLimiter (limiter_limits lim) (max_buckets lim) policy.
Definition with_max_buckets (n : nat) (lim : LayeredLimiter) : LayeredLimiter :=
  mkLimiter (limiter_limits lim) (Nat.max n 1) (missing_ip lim).

(** The order in which a hash map is walked: some permutation of its entries. *)
Class BucketOrder := { bucket_order : Buckets → list ((RateLayer * LayerKey) * LayerBucket) }.
Class BucketOrderLaws `{BucketOrder} : Prop := { bucket_order_permutation m : bucket_order m ≡ₚ map_to_list m }.

(** The first pass of [reclaim]: refill, and drop what is full or no longer limited. *)
Definition drop_full (limits : LayeredLimits) (now : Z) (state : Buckets) : Buckets :=
  map_imap (λ k b,
    limit ← limits_get limits k.1;
    let b' := layer_refill limit now b in
    if f64_lt (lb_tokens b') (burst limit) then Some b' else None) state.

(** [sort_by] on the levels, the fullest first; it is stable. *)
Fixpoint insert_by_fullness (x : (RateLayer * LayerKey) * f64) (l : list ((RateLayer * LayerKey) * f64))
    : list ((RateLayer * LayerKey) * f64) :=
  match l with
  | [] => [x]
  | y :: rest => if f64_gt y.2 x.2 then y :: insert_by_fullness x rest else x :: l
  end.

Definition by_fullness (l : list ((RateLayer * LayerKey) * f64)) : list ((RateLayer * LayerKey) * f64) :=
  foldr insert_by_fullness [] l.

Section Local.
Context `{BucketOrder}.

Definition reclaim (limits : LayeredLimits) (ceiling : nat) (now : Z) (state : Buckets) : Buckets :=
  let state1 := drop_full limits now state in
  let target := (ceiling - LAYER_COUNT)%nat in
  if (size state1 <=? target)%nat then state1
  else
    let fullest := by_fullness ((λ kb, (kb.1, lb_tokens kb.2)) <$> bucket_order state1) in
    foldl (λ m k, delete k m) state1 (take (size state1 - target)%nat fullest).*1.

(** ** Admission over local buckets *)

(** A layer that applies: its key, its limit and its level. *)
Record Evaluated : Type := mkEvaluated {
  ev_layer : RateLayer;
  ev_key : LayerKey;
  ev_limit : Limit;
  ev_tokens : spec_float
}.

(** What the walk over the layers has collected. *)
Record Resolved : Type := mkResolved {
  evaluated : list Evaluated;
  skipped : list RateLayer;
  refuse : bool
}.

Definition resolve_step (lim : LayeredLimiter) (identity : RequestIdentity) (now : Z) (acc : Resolved * Buckets)
    (layer : RateLayer) : Resolved * Buckets :=
  let '(r, state) := acc in
  match limits_get (limiter_limits lim) layer with
  | None => acc
  | Some limit =>
      match layer_key_for identity layer with
      | None =>
          (mkResolved (evaluated r) (skipped r ++ [layer])
             (if bool_decide (layer = PerIp) && bool_decide (missing_ip lim = MissingDeny) then true else refuse r), state)
      | Some key =>
          if refuse r then acc
          else
            let b := layer_refill limit now (default (LayerBucket_full limit now) (state !! (layer, key))) in
            (mkResolved (evaluated r ++ [mkEvaluated layer key limit (lb_tokens b)]) (skipped r) (refuse r),
             <[(layer, key) := b]> state)
      end
  end.

Definition resolve_local (lim : LayeredLimiter) (identity : RequestIdentity) (now : Z) (state : Buckets) : Resolved * Buckets :=
  foldl (resolve_step lim identity now) (mkResolved [] [] false, state) LAYER_ORDER.

(** The waits of the layers that lack capacity. *)
Definition longest_wait (evals : list Evaluated) (cost : f64) : option Z :=
  foldl (λ acc w, Some (match acc with None => w | Some m => Z.max m w end)) None
    (omap (λ e, retry_after_secs (snapshot_for (ev_limit e) (ev_tokens e) (ev_tokens e) cost false))
       (filter (λ e, f64_lt (ev_tokens e) cost = true) evals)).

Definition MIN_POSITIVE : f64 := S754_finite false 4503599627370496 (-1074).

Definition fraction_left (cost : f64) (e : Evaluated) : f64 :=
  f64_div (f64_sub (ev_tokens e) cost) (f64_max (burst (ev_limit e)) MIN_POSITIVE).

(** [min_by]: the first of the least. *)
Definition binding_layer (evals : list Evaluated) (cost : f64) : option Evaluated :=
  match evals with
  | [] => None
  | first :: rest =>
      Some (foldl (λ least e,
        match SFcompare (fraction_left cost least) (fraction_left cost e) with Some Gt => e | _ => least end) first rest)
  end.

(** The refusal, when some layer lacks capacity. *)
Definition layered_denial (evals : list Evaluated) (cost : f64) (skipped : list RateLayer) (fell_back : bool)
    : option LayeredOutcome :=
  e ← List.find (λ e, f64_lt (ev_tokens e) cost) evals;
  let snap := snapshot_for (ev_limit e) (ev_tokens e) (ev_tokens e) cost false in
  Some (mkLayered SpendDenied (Some (ev_layer e))
    (mkSnapshot (snap_limit snap) (snap_remaining snap) (reset_secs snap) (longest_wait evals cost)
       (snap_denied snap) (policy_window_secs snap))
    skipped false fell_back).

Definition layered_admission (evals : list Evaluated) (cost : f64) (skipped : list RateLayer) (fell_back : bool)
    : LayeredOutcome :=
  mkLayered SpendAdmitted None
    (match binding_layer evals cost with
     | Some e =>
         let after := f64_sub (ev_tokens e) cost in
         snapshot_for (ev_limit e) (f64_add after cost) after cost true
     | None => unlimited_snapshot
     end) skipped false fell_back.

Definition charge_local (cost : f64) (layer : RateLayer) (key : LayerKey) (state : Buckets) : Buckets :=
  alter (λ b, mkLayerBucket (f64_sub (lb_tokens b) cost) (lb_last b)) (layer, key) state.

Definition admit_local (lim : LayeredLimiter) (identity : RequestIdentity) (cost : f64) (now : Z) (state : Buckets)
    : LayeredOutcome * Buckets :=
  let cost := f64_max cost f64_zero in
  let state0 := if (max_buckets lim <=? size state)%nat then reclaim (limiter_limits lim) (max_buckets lim) now state
                else state in
  let '(r, state1) := resolve_local lim identity now state0 in
  if refuse r then (refused_for_missing_ip (skipped r), state1)
  else
    match layered_denial (evaluated r) cost (skipped r) false with
    | Some outcome => (outcome, state1)
    | None =>
        (layered_admission (evaluated r) cost (skipped r) false,
         foldl (λ s e, charge_local cost (ev_layer e) (ev_key e) s) state1 (evaluated r))
    end.
End Local.

(** ** Shared buckets *)

Record BucketState : Type := mkBucketState { bs_tokens : f64; last_epoch_micros : Z }.

Definition BucketState_full (limit : Limit) (now_epoch_micros : Z) : BucketState :=
  mkBucketState (burst limit) now_epoch_micros.

(** [f64::to_bits]; the payload of a NaN is left open by the language. *)
Definition f64_to_bits (x : f64) : Z :=
  let sign_bit (s : bool) := if s then 2 ^ 63 else 0 in
  match x with
  | S754_zero s => sign_bit s
  | S754_infinity s => sign_bit s + 2047 * 2 ^ 52
  | S754_nan => 2047 * 2 ^ 52 + 2 ^ 51
  | S754_finite s m e =>
      sign_bit s + (if Zpos m <? 2 ^ 52 then Zpos m else (e + 1075) * 2 ^ 52 + (Zpos m - 2 ^ 52))
  end.

(** [f64::from_bits]. *)
Definition f64_from_bits (bits : Z) : f64 :=
  let s := 2 ^ 63 <=? bits in
  let exponent := (bits / 2 ^ 52) mod 2048 in
  let fraction := bits mod 2 ^ 52 in
  if exponent =? 2047 then if fraction =? 0 then S754_infinity s else S754_nan
  else
    match (if exponent =? 0 then fraction else fraction + 2 ^ 52) with
    | Zpos m => S754_finite s m (if exponent =? 0 then -1074 else exponent - 1075)
    | _ => S754_zero s
    end.

(** [to_le_bytes] of an unsigned value and its inverse. *)
Fixpoint le_bytes (n : nat) (v : Z) : list Z :=
  match n with O => [] | S n' => v mod 256 :: le_bytes n' (v / 256) end.

Fixpoint le_value (bytes : list Z) : Z :=
  match bytes with [] => 0 | b :: rest => b + 256 * le_value rest end.

(** A 64-bit pattern read as an [i64]. *)
Definition i64_of_bits (v : Z) : Z := if v <? 2 ^ 63 then v else v - 2 ^ 64.

Definition BucketState_encode (b : BucketState) : list Z :=
  le_bytes 8 (f64_to_bits (bs_tokens b)) ++ le_bytes 8 (last_epoch_micros b mod 2 ^ 64).

Definition BucketState_decode (bytes : list Z) : option BucketState :=
  if negb (bool_decide (length bytes = 16%nat)) then None
  else
    let tokens := f64_from_bits (le_value (take 8 bytes)) in
    let last := i64_of_bits (le_value (drop 8 bytes)) in
    if negb (is_finite tokens) || f64_lt tokens f64_zero then None
    else Some (mkBucketState tokens last).

Definition shared_refill (limit : Limit) (now_epoch_micros : Z) (b : BucketState) : BucketState :=
  mkBucketState
    (refilled_tokens limit (bs_tokens b)
       (default 0 (u64_try_from (i64_wrapping_sub now_epoch_micros (last_epoch_micros b))) * 1000))
    now_epoch_micros.

Inductive SharedRead : Type :=
| ReadSome (state : BucketState)
| ReadNone
| ReadUnavailable.

Inductive SharedWrite : Type := WriteOk | WriteUnavailable.

(** The store: an interface, with the state of its implementation. *)
Class SharedRateStore (St : Type) := {
  shared_get : string → St → SharedRead * St;
  shared_put : string → BucketState → St → SharedWrite * St
}.

Local Open Scope string_scope.

Definition shared_key (layer : RateLayer) (key : LayerKey) : string :=
  match key with
  | SingleKey value => layer_as_str layer +:+ ":" +:+ value
  | ScopedKey tenant environment => layer_as_str layer +:+ ":" +:+ tenant +:+ ":" +:+ environment
  end.

Local Close Scope string_scope.

(** [epoch_micros], of a time in nanoseconds from the epoch. *)
Definition epoch_micros (nanos : Z) : Run Z :=
  if nanos <? 0 then Panicked
  else let micros := nanos / 1000 in if micros <=? I64_MAX then Returned micros else Panicked.

Inductive Source : Type := SourceShared | SourceLocal.

Section Shared.
Context `{SharedRateStore St}.

(** Local buckets and the store. *)
Record Tiered : Type := mkTiered { local : Buckets; store : St }.

Record ResolvedShared : Type := mkResolvedShared {
  s_evaluated : list (Evaluated * Source);
  s_skipped : list RateLayer;
  s_refuse : bool;
  s_fell_back : bool
}.

(** The level of one layer, from the store or, when it does not answer, from the local bucket. *)
Definition read_layer (layer : RateLayer) (key : LayerKey) (limit : Limit) (now now_epoch_micros : Z) (t : Tiered)
    : (spec_float * Source) * Tiered :=
  let '(answer, store1) := shared_get (shared_key layer key) (store t) in
  match answer with
  | ReadSome bucket => ((bs_tokens (shared_refill limit now_epoch_micros bucket), SourceShared), mkTiered (local t) store1)
  | ReadNone => ((burst limit, SourceShared), mkTiered (local t) store1)
  | ReadUnavailable =>
      let b := layer_refill limit now (default (LayerBucket_full limit now) (local t !! (layer, key))) in
      ((lb_tokens b, SourceLocal), mkTiered (<[(layer, key) := b]> (local t)) store1)
  end.

Definition is_local (source : Source) : bool := match source with SourceLocal => true | SourceShared => false end.

Definition resolve_shared_step (lim : LayeredLimiter) (identity : RequestIdentity) (now now_epoch_micros : Z)
    (acc : ResolvedShared * Tiered) (layer : RateLayer) : ResolvedShared * Tiered :=
  let '(r, t) := acc in
  match limits_get (limiter_limits lim) layer with
  | None => acc
  | Some limit =>
      match layer_key_for identity layer with
      | None =>
          (mkResolvedShared (s_evaluated r) (s_skipped r ++ [layer])
             (if bool_decide (layer = PerIp) && bool_decide (missing_ip lim = MissingDeny) then true else s_refuse r)
             (s_fell_back r), t)
      | Some key =>
          if s_refuse r then acc
          else
            let '((tokens, source), t1) := read_layer layer key limit now now_epoch_micros t in
            (mkResolvedShared (s_evaluated r ++ [(mkEvaluated layer key limit tokens, source)]) (s_skipped r) (s_refuse r)
               (is_local source || s_fell_back r), t1)
      end
  end.

(** The reading phase. *)
Definition resolve_shared (lim : LayeredLimiter) (identity : RequestIdentity) (now now_epoch_micros : Z) (t : Tiered)
    : ResolvedShared * Tiered :=
  foldl (resolve_shared_step lim identity now now_epoch_micros) (mkResolvedShared [] [] false false, t) LAYER_ORDER.

Definition charge_shared_step (cost : f64) (now_epoch_micros : Z) (acc : bool * Tiered) (e : Evaluated * Source)
    : bool * Tiered :=
  let '(fell_back, t) := acc in
  match e.2 with
  | SourceLocal => (fell_back, mkTiered (charge_local cost (ev_layer e.1) (ev_key e.1) (local t)) (store t))
  | SourceShared =>
      let '(answer, store1) := shared_put (shared_key (ev_layer e.1) (ev_key e.1))
        (mkBucketState (f64_sub (ev_tokens e.1) cost) now_epoch_micros) (store t) in
      (match answer with WriteUnavailable => true | WriteOk => fell_back end, mkTiered (local t) store1)
  end.

(** The deciding and charging phase. *)
Definition finish_shared (r : ResolvedShared) (cost : f64) (now_epoch_micros : Z) (t : Tiered) : LayeredOutcome * Tiered :=
  if s_refuse r then (refused_for_missing_ip (s_skipped r), t)
  else
    match layered_denial (s_evaluated r).*1 cost (s_skipped r) (s_fell_back r) with
    | Some outcome => (outcome, t)
    | None =>
        let '(fell_back, t1) := foldl (charge_shared_step cost now_epoch_micros) (s_fell_back r, t) (s_evaluated r) in
        (layered_admission (s_evaluated r).*1 cost (s_skipped r) fell_back, t1)
    end.

Definition admit_shared (lim : LayeredLimiter) (identity : RequestIdentity) (cost : f64) (now wall : Z) (t : Tiered)
    : Run (LayeredOutcome * Tiered) :=
  match epoch_micros wall with
  | Returned now_epoch_micros =>
      let '(r, t1) := resolve_shared lim identity now now_epoch_micros t in
      Returned (finish_shared r (f64_max cost f64_zero) now_epoch_micros t1)
  | Panicked => Panicked
  | OutOfFuel => OutOfFuel
  end.
End Shared.
Arguments Tiered : clear implicits.
Arguments mkTiered {St} local store.

(** [admit]: through the shared store when one is attached. *)
Definition admit_layered `{BucketOrder} {St} (shared : option (SharedRateStore St)) (lim : LayeredLimiter)
    (identity : RequestIdentity) (cost : f64) (now wall : Z) (t : Tiered St) : Run (LayeredOutcome * Tiered St) :=
  match shared with
  | None => let '(outcome, state) := admit_local lim identity cost now (local t) in Returned (outcome, mkTiered state (store t))
  | Some _ => admit_shared lim identity cost now wall t
  end.

(** ** The walk over the layers *)

Lemma omap_cons_eq {A B} (f : A → option B) x (l : list A) : omap f (x :: l) = option_list (f x) ++ omap f l.
Proof. simpl. by destruct (f x). Qed.

Lemma omap_ext_elem {A B} (f g : A → option B) (l : list A) : (∀ x, x ∈ l → f x = g x) → omap f l = omap g l.
Proof.
  induction l as [|x l IH]; intros Hfg; [done|]. rewrite !omap_cons_eq. rewrite Hfg by apply list_elem_of_here.
  rewrite IH; [done|]. intros y Hy. by apply Hfg, list_elem_of_further.
Qed.

(** The bucket a layer is decided on. *)
Definition layer_level (state : Buckets) (layer : RateLayer) (key : LayerKey) (limit : Limit) (now : Z) : LayerBucket :=
  layer_refill limit now (default (LayerBucket_full limit now) (state !! (layer, key))).

(** A layer applies to a request: it is limited and the request has a key for it. *)
Definition applies (lim : LayeredLimiter) (identity : RequestIdentity) (layer : RateLayer) : option (LayerKey * Limit) :=
  limit ← limits_get (limiter_limits lim) layer; key ← layer_key_for identity layer; Some (key, limit).

(** It is limited, and the request has none. *)
Definition is_skipped (lim : LayeredLimiter) (identity : RequestIdentity) (layer : RateLayer) : bool :=
  match limits_get (limiter_limits lim) layer, layer_key_for identity layer with
  | Some _, None => true
  | _, _ => false
  end.

Definition eval_layer (lim : LayeredLimiter) (identity : RequestIdentity) (now : Z) (state : Buckets) (layer : RateLayer)
    : option Evaluated :=
  '(key, limit) ← applies lim identity layer;
  Some (mkEvaluated layer key limit (lb_tokens (layer_level state layer key limit now))).

(** A configured limit on addresses refuses a request without one. *)
Definition refuses_unaddressed (lim : LayeredLimiter) (identity : RequestIdentity) : bool :=
  is_skipped lim identity PerIp && bool_decide (missing_ip lim = MissingDeny).

Definition touch (lim : LayeredLimiter) (identity : RequestIdentity) (now : Z) (state : Buckets) (layer : RateLayer) : Buckets :=
  match applies lim identity layer with
  | Some (key, limit) => <[(layer, key) := layer_level state layer key limit now]> state
  | None => state
  end.

Lemma touch_lookup lim identity now state layer k : (touch lim identity now state layer) !! k =
  match applies lim identity layer with
  | Some (key, limit) => if decide (k = (layer, key)) then Some (layer_level state layer key limit now) else state !! k
  | None => state !! k
  end.
Proof.
  unfold touch. destruct (applies lim identity layer) as [[key limit]|]; [|done].
  case_decide as Hk; [subst; apply lookup_insert_eq|by apply lookup_insert_ne].
Qed.

Lemma touch_other lim identity now state layer layer' key : layer' ≠ layer →
  touch lim identity now state layer !! (layer', key) = state !! (layer', key).
Proof.
  intros Hne. rewrite touch_lookup. destruct (applies lim identity layer) as [[k l]|]; [|done].
  rewrite decide_False; [done|congruence].
Qed.

Lemma eval_layer_touch lim identity now state layer layer' : layer' ≠ layer →
  eval_layer lim identity now (touch lim identity now state layer) layer' = eval_layer lim identity now state layer'.
Proof.
  intros Hne. unfold eval_layer. destruct (applies lim identity layer') as [[key limit]|]; [|done]. simpl.
  unfold layer_level. by rewrite touch_other.
Qed.

(** One step of the walk, once the layer of addresses is behind. *)
Lemma resolve_step_spec lim identity now r state layer : layer ≠ PerIp →
  resolve_step lim identity now (r, state) layer =
  (mkResolved (evaluated r ++ (if refuse r then [] else option_list (eval_layer lim identity now state layer)))
     (skipped r ++ (if is_skipped lim identity layer then [layer] else [])) (refuse r),
   if refuse r then state else touch lim identity now state layer).
Proof.
  intros Hne. unfold resolve_step, eval_layer, is_skipped, touch, applies.
  destruct r as [ev sk rf]. simpl. destruct (limits_get _ layer) as [limit|]; simpl.
  - destruct (layer_key_for identity layer) as [key|]; simpl; [|rewrite bool_decide_false by done; destruct rf; by rewrite app_nil_r].
    by destruct rf; rewrite !app_nil_r.
  - destruct (layer_key_for identity layer); destruct rf; by rewrite !app_nil_r.
Qed.

Lemma resolve_fold lim identity now l : PerIp ∉ l → NoDup l → ∀ r state,
  foldl (resolve_step lim identity now) (r, state) l =
  (mkResolved (evaluated r ++ (if refuse r then [] else omap (eval_layer lim identity now state) l))
     (skipped r ++ filter (λ layer, is_skipped lim identity layer = true) l) (refuse r),
   if refuse r then state else foldl (touch lim identity now) state l).
Proof.
  induction l as [|layer l IH]; intros Hip Hnd r state.
  { destruct r as [ev sk []]; simpl; by rewrite !app_nil_r. }
  apply not_elem_of_cons in Hip as [Hne Hip]. apply NoDup_cons in Hnd as [Hl Hnd]. cbn [foldl].
  rewrite resolve_step_spec by done. rewrite IH by done. cbn [evaluated skipped refuse]. f_equal; [|by destruct (refuse r)].
  f_equal.
  - destruct (refuse r); [by rewrite !app_nil_r|]. rewrite <-app_assoc. f_equal.
    rewrite omap_cons_eq. f_equal. apply omap_ext_elem. intros x Hx. apply eval_layer_touch. by intros ->.
  - rewrite <-app_assoc. f_equal. destruct (is_skipped lim identity layer) eqn:Hs.
    + by rewrite filter_cons_True.
    + by rewrite filter_cons_False by congruence.
Qed.

(** The buckets the walk leaves. *)
Lemma touch_fold_lookup lim identity now l : NoDup l → ∀ state layer key,
  foldl (touch lim identity now) state l !! (layer, key) =
  match (if decide (layer ∈ l) then applies lim identity layer else None) with
  | Some (key', limit) => if decide (key' = key) then Some (layer_level state layer key limit now) else state !! (layer, key)
  | None => state !! (layer, key)
  end.
Proof.
  induction 1 as [|x l Hx _ IH]; intros state layer key; [done|]. cbn [foldl]. rewrite IH. clear IH.
  destruct (decide (layer = x)) as [->|Hne].
  - rewrite decide_False by done. rewrite (decide_True (P := x ∈ x :: l)) by apply list_elem_of_here.
    rewrite touch_lookup. destruct (applies lim identity x) as [[k lm]|]; [|done].
    destruct (decide (k = key)) as [->|]; [by rewrite decide_True|]. by rewrite decide_False by congruence.
  - unfold layer_level. rewrite touch_other by done.
    destruct (decide (layer ∈ l)), (decide (layer ∈ x :: l)); try done; set_solver.
Qed.

Lemma LAYER_ORDER_NoDup : NoDup LAYER_ORDER.
Proof. apply (bool_decide_unpack _). done. Qed.

(** The whole walk. *)
Lemma resolve_local_spec lim identity now state :
  let rf := refuses_unaddressed lim identity in
  resolve_local lim identity now state =
  (mkResolved (if rf then [] else omap (eval_layer lim identity now state) LAYER_ORDER)
     (filter (λ layer, is_skipped lim identity layer = true) LAYER_ORDER) rf,
   if rf then state else foldl (touch lim identity now) state LAYER_ORDER).
Proof.
  intros rf. unfold resolve_local.
  change LAYER_ORDER with (PerIp :: [PerUser; PerClient; PerTenant; PerEnvironment]).
  set (rest := [PerUser; PerClient; PerTenant; PerEnvironment]). cbn [foldl].
  assert ((PerIp ∉ rest) ∧ NoDup rest) as [Hip Hnd].
  { pose proof LAYER_ORDER_NoDup as H. change LAYER_ORDER with (PerIp :: rest) in H. by apply NoDup_cons in H. }
  assert (omap (eval_layer lim identity now (touch lim identity now state PerIp)) rest = omap (eval_layer lim identity now state) rest) as Hev.
  { apply omap_ext_elem. intros x Hx. apply eval_layer_touch. by intros ->. }
  unfold rf, refuses_unaddressed. 
  assert (resolve_step lim identity now (mkResolved [] [] false, state) PerIp =
    (mkResolved (option_list (eval_layer lim identity now state PerIp)) (if is_skipped lim identity PerIp then [PerIp] else [])
       (is_skipped lim identity PerIp && bool_decide (missing_ip lim = MissingDeny)), touch lim identity now state PerIp)) as ->.
  { unfold resolve_step, eval_layer, is_skipped, touch, applies. destruct (limits_get _ PerIp) as [limit|]; simpl; [|done].
    destruct (id_ip identity) as [ip|]; simpl; [done|]. by destruct (bool_decide _). }
  rewrite resolve_fold by done. cbn [evaluated skipped refuse]. rewrite Hev.
  destruct (is_skipped lim identity PerIp) eqn:Hs.
  - rewrite filter_cons_True by done.
    assert (applies lim identity PerIp = None) as Happ.
    { unfold is_skipped, applies in *. destruct (limits_get _ PerIp); [|done]. by destruct (layer_key_for identity PerIp). }
    assert (eval_layer lim identity now state PerIp = None) as He by (unfold eval_layer; by rewrite Happ).
    assert (touch lim identity now state PerIp = state) as Ht by (unfold touch; by rewrite Happ).
    rewrite omap_cons_eq, He, Ht. simpl andb. by destruct (bool_decide (missing_ip lim = MissingDeny)).
  - rewrite filter_cons_False by congruence. by rewrite omap_cons_eq.
Qed.

(** ** Admission and charging *)

Lemma eval_layer_Some lim identity now state layer e : eval_layer lim identity now state layer = Some e ↔
  ∃ key limit, applies lim identity layer = Some (key, limit) ∧
    e = mkEvaluated layer key limit (lb_tokens (layer_level state layer key limit now)).
Proof. unfold eval_layer. destruct (applies lim identity layer) as [[k l]|]; simpl; naive_solver. Qed.

Lemma elem_of_evals lim identity now state e : e ∈ omap (eval_layer lim identity now state) LAYER_ORDER ↔
  eval_layer lim identity now state (ev_layer e) = Some e.
Proof.
  rewrite list_elem_of_omap. split.
  - intros (layer & _ & He). pose proof He as (k & l & _ & ->)%eval_layer_Some. done.
  - intros He. exists (ev_layer e). split; [apply LAYER_ORDER_complete|done].
Qed.

Lemma evals_layers lim identity now state l : NoDup l → NoDup (ev_layer <$> omap (eval_layer lim identity now state) l).
Proof.
  induction 1 as [|x l Hx _ IH]; [constructor|]. rewrite omap_cons_eq.
  destruct (eval_layer lim identity now state x) as [e|] eqn:He; [|done]. simpl. constructor; [|done].
  intros (e' & Heq & (y & Hy & (ky & ly & _ & ->)%eval_layer_Some)%list_elem_of_omap)%list_elem_of_fmap.
  apply eval_layer_Some in He as (kx & lx & _ & ->). simpl in Heq. by subst.
Qed.

(** Charging each evaluated layer once. *)
Lemma charge_fold_lookup c evals : NoDup (ev_layer <$> evals) → ∀ state layer key,
  foldl (λ s e, charge_local c (ev_layer e) (ev_key e) s) state evals !! (layer, key) =
  if bool_decide (Exists (λ e, (ev_layer e, ev_key e) = (layer, key)) evals)
  then (λ b, mkLayerBucket (f64_sub (lb_tokens b) c) (lb_last b)) <$> state !! (layer, key)
  else state !! (layer, key).
Proof.
  induction evals as [|e evals IH]; intros Hnd state layer key.
  { rewrite bool_decide_false; [done|by intros ?%Exists_nil]. }
  rewrite fmap_cons in Hnd. apply NoDup_cons in Hnd as [He Hnd]. cbn [foldl]. rewrite IH by done. unfold charge_local.
  destruct (decide ((ev_layer e, ev_key e) = (layer, key))) as [Heq|Hne].
  - rewrite (bool_decide_true (Exists _ (e :: evals))) by (by constructor). rewrite bool_decide_false.
    + rewrite Heq. by rewrite lookup_alter_eq.
    + intros (e' & He' & Heq')%Exists_exists. apply He. assert (ev_layer e = ev_layer e') as -> by congruence.
      by apply list_elem_of_fmap_2.
  - rewrite lookup_alter_ne by done.
    assert (bool_decide (Exists (λ e, (ev_layer e, ev_key e) = (layer, key)) (e :: evals))
      = bool_decide (Exists (λ e, (ev_layer e, ev_key e) = (layer, key)) evals)) as ->; [|done].
    apply bool_decide_ext. rewrite Exists_cons. tauto.
Qed.

(** The state the walk starts from. *)
Definition reclaimed `{BucketOrder} (lim : LayeredLimiter) (now : Z) (state : Buckets) : Buckets :=
  if (max_buckets lim <=? size state)%nat then reclaim (limiter_limits lim) (max_buckets lim) now state else state.

(** A layer lacks capacity for a cost. *)
Definition lacks (lim : LayeredLimiter) (identity : RequestIdentity) (now : Z) (state : Buckets) (c : f64) (layer : RateLayer) : Prop :=
  ∃ key limit, applies lim identity layer = Some (key, limit) ∧
    f64_lt (lb_tokens (layer_level state layer key limit now)) c = true.

Lemma find_first_layer {A} (f : A → bool) (g : RateLayer → option A) l x :
  List.find f (omap g l) = Some x → ∃ pre layer post, l = pre ++ layer :: post ∧ g layer = Some x ∧ f x = true ∧
    ∀ layer' y, layer' ∈ pre → g layer' = Some y → f y = false.
Proof.
  induction l as [|a l IH]; [done|]. rewrite omap_cons_eq. destruct (g a) as [y|] eqn:Hga; simpl.
  - destruct (f y) eqn:Hf; [intros [= ->]; exists [], a, l; split_and!; [done..|]; intros ? ? []%elem_of_nil|].
    intros (pre & layer & post & -> & Hg & Hx & Hpre)%IH. exists (a :: pre), layer, post. split_and!; [done..|].
    intros layer' z [->|Hin]%elem_of_cons Hz; [congruence|by eapply Hpre].
  - intros (pre & layer & post & -> & Hg & Hx & Hpre)%IH. exists (a :: pre), layer, post. split_and!; [done..|].
    intros layer' z [->|Hin]%elem_of_cons Hz; [congruence|by eapply Hpre].
Qed.

(** The chain of layers runs from narrow to wide. *)
Lemma LAYER_ORDER_split pre layer post : LAYER_ORDER = pre ++ layer :: post →
  ∀ layer', (layer_index layer' < layer_index layer)%nat → layer' ∈ pre.
Proof.
  intros Heq layer' Hlt. assert (LAYER_ORDER !! length pre = Some layer) as Hl.
  { rewrite Heq, lookup_app_r, Nat.sub_diag by lia. done. }
  assert (∀ x, LAYER_ORDER !! layer_index x = Some x) as Hidx by (by intros []).
  assert (layer_index layer = length pre) as Hlen by (eapply NoDup_lookup; [apply LAYER_ORDER_NoDup|apply Hidx|done]).
  specialize (Hidx layer'). rewrite Heq, lookup_app_l in Hidx by lia. by eapply list_elem_of_lookup_2.
Qed.

Lemma layered_denial_None evals c sk fb : layered_denial evals c sk fb = None ↔
  ∀ e, e ∈ evals → f64_lt (ev_tokens e) c = false.
Proof.
  unfold layered_denial. destruct (List.find _ evals) as [e|] eqn:Hf; simpl.
  - apply list_elem_of_find in Hf as [He Hlt]. split; [done|]. intros Hall. by rewrite Hall in Hlt.
  - split; [|done]. intros _ e He. by apply (List.find_none _ _ Hf e), list_elem_of_In.
Qed.

Section Admission.
Context `{BucketOrder}.
Context (lim : LayeredLimiter) (identity : RequestIdentity) (cost : f64) (now : Z) (state : Buckets).

Let c := f64_max cost f64_zero.
Let s0 := reclaimed lim now state.
Let evals := omap (eval_layer lim identity now s0) LAYER_ORDER.

Lemma admit_local_eq : admit_local lim identity cost now state =
  let sk := filter (λ layer, is_skipped lim identity layer = true) LAYER_ORDER in
  if refuses_unaddressed lim identity then (refused_for_missing_ip sk, s0)
  else
    let s1 := foldl (touch lim identity now) s0 LAYER_ORDER in
    match layered_denial evals c sk false with
    | Some outcome => (outcome, s1)
    | None => (layered_admission evals c sk false, foldl (λ s e, charge_local c (ev_layer e) (ev_key e) s) s1 evals)
    end.
Proof.
  unfold admit_local. fold (reclaimed lim now state) c s0. rewrite resolve_local_spec. cbn [refuse evaluated skipped].
  destruct (refuses_unaddressed lim identity); [done|]. fold evals. by destruct (layered_denial evals c _ false).
Qed.

Lemma lacks_elem layer : lacks lim identity now s0 c layer ↔
  ∃ e, e ∈ evals ∧ ev_layer e = layer ∧ f64_lt (ev_tokens e) c = true.
Proof.
  unfold lacks, evals. setoid_rewrite elem_of_evals. split.
  - intros (key & limit & Happ & Hlt).
    exists (mkEvaluated layer key limit (lb_tokens (layer_level s0 layer key limit now))). split; [|done].
    apply eval_layer_Some. cbn [ev_layer]. eauto.
  - intros (e & He & <- & Hlt). apply eval_layer_Some in He as (key & limit & Happ & He).
    exists key, limit. split; [done|]. by rewrite He in Hlt.
Qed.

Lemma charged_lookup layer key limit : applies lim identity layer = Some (key, limit) →
  let s1 := foldl (touch lim identity now) s0 LAYER_ORDER in
  let b := layer_level s0 layer key limit now in
  s1 !! (layer, key) = Some b ∧
  foldl (λ s e, charge_local c (ev_layer e) (ev_key e) s) s1 evals !! (layer, key)
    = Some (mkLayerBucket (f64_sub (lb_tokens b) c) now).
Proof.
  intros Happ s1 b. assert (s1 !! (layer, key) = Some b) as Hs1.
  { unfold s1. rewrite touch_fold_lookup by apply LAYER_ORDER_NoDup. rewrite decide_True by apply LAYER_ORDER_complete.
    rewrite Happ. by rewrite decide_True. }
  split; [done|]. rewrite charge_fold_lookup by apply evals_layers, LAYER_ORDER_NoDup.
  rewrite bool_decide_true; [by rewrite Hs1|]. apply Exists_exists.
  exists (mkEvaluated layer key limit (lb_tokens b)). split; [|done].
  apply elem_of_evals, eval_layer_Some. eauto.
Qed.

Lemma untouched_lookup layer key : (∀ limit, applies lim identity layer ≠ Some (key, limit)) →
  let s1 := foldl (touch lim identity now) s0 LAYER_ORDER in
  s1 !! (layer, key) = s0 !! (layer, key) ∧
  foldl (λ s e, charge_local c (ev_layer e) (ev_key e) s) s1 evals !! (layer, key) = s0 !! (layer, key).
Proof.
  intros Hno s1. assert (s1 !! (layer, key) = s0 !! (layer, key)) as Hs1.
  { unfold s1. rewrite touch_fold_lookup by apply LAYER_ORDER_NoDup. rewrite decide_True by apply LAYER_ORDER_complete.
    destruct (applies lim identity layer) as [[k l]|] eqn:Happ; [|done]. rewrite decide_False; [done|].
    intros ->. by apply (Hno l). }
  split; [done|]. rewrite charge_fold_lookup by apply evals_layers, LAYER_ORDER_NoDup.
  rewrite bool_decide_false; [done|]. intros (e & He & Heq)%Exists_exists.
  apply elem_of_evals, eval_layer_Some in He as (k & l & Happ & Hev). injection Heq as Hl Hk. rewrite Hl in *.
  rewrite Hev in Hk. simpl in Hk. subst k. by apply (Hno l).
Qed.

(** The five layers.  A request without an address is refused by a configured
    per-address limit that denies them, before any bucket is touched.  Any other request
    is refused exactly when some layer that is limited and has a key for it lacks the cost;
    the refusal names the narrowest such layer, and charges no layer.  An admitted request
    is charged on every layer that applies.  Buckets of other keys are left alone, and the
    outcome lists exactly the limited layers that the request had no key for. *)
Theorem layered_all_or_nothing :
  let '(o, s') := admit_local lim identity cost now state in
  unenforced o = filter (λ layer, is_skipped lim identity layer = true) LAYER_ORDER ∧
  missing_identity o = refuses_unaddressed lim identity ∧
  (if refuses_unaddressed lim identity then l_decision o = SpendDenied ∧ limiting_layer o = Some PerIp ∧ s' = s0
   else
     (is_denied (l_decision o) = true ↔ ∃ layer, lacks lim identity now s0 c layer) ∧
     (∀ layer, limiting_layer o = Some layer → lacks lim identity now s0 c layer ∧
        ∀ narrower, (layer_index narrower < layer_index layer)%nat → ¬ lacks lim identity now s0 c narrower) ∧
     (is_Some (limiting_layer o) ↔ is_denied (l_decision o) = true) ∧
     (∀ layer key limit, applies lim identity layer = Some (key, limit) →
        let b := layer_level s0 layer key limit now in
        s' !! (layer, key) = Some (if is_denied (l_decision o) then b else mkLayerBucket (f64_sub (lb_tokens b) c) now)) ∧
     (∀ layer key, (∀ limit, applies lim identity layer ≠ Some (key, limit)) → s' !! (layer, key) = s0 !! (layer, key))).
Proof.
  rewrite admit_local_eq. cbv zeta. destruct (refuses_unaddressed lim identity); [done|].
  set (sk := filter _ LAYER_ORDER). destruct (layered_denial evals c sk false) as [o|] eqn:Hden.
  - unfold layered_denial in Hden. destruct (List.find _ evals) as [e|] eqn:Hf; [|done]. injection Hden as <-.
    cbn [unenforced missing_identity l_decision limiting_layer is_denied]. split; [done|]. split; [done|].
    assert (∃ layer, lacks lim identity now s0 c layer) as Hex.
    { exists (ev_layer e). apply lacks_elem. apply list_elem_of_find in Hf as [? ?]. eauto. }
    split; [done|]. split; [|split; [split; [done|eauto]|split]].
    + intros layer [= <-]. apply list_elem_of_find in Hf as Hin. destruct Hin as [Hin Hlt].
      split; [apply lacks_elem; eauto|]. intros narrower Hnar (key & limit & Happ & Hl).
      apply find_first_layer in Hf as (pre & layer & post & Hsplit & Hg & _ & Hpre).
      apply eval_layer_Some in Hg as (k & l & _ & ->). simpl in Hnar.
      pose proof (LAYER_ORDER_split _ _ _ Hsplit narrower Hnar) as Hin'.
      assert (eval_layer lim identity now s0 narrower
        = Some (mkEvaluated narrower key limit (lb_tokens (layer_level s0 narrower key limit now)))) as Hev
        by (apply eval_layer_Some; eauto).
      specialize (Hpre _ _ Hin' Hev). cbn [ev_tokens] in Hpre. by rewrite Hl in Hpre.
    + intros layer key limit Happ. by apply charged_lookup.
    + intros layer key Hno. by apply untouched_lookup.
  - rewrite layered_denial_None in Hden. cbn [layered_admission unenforced missing_identity l_decision limiting_layer is_denied].
    split; [done|]. split; [done|]. split; [|split; [done|split; [|split]]].
    + split; [done|]. intros (layer & (e & He & _ & Hlt)%lacks_elem). by rewrite Hden in Hlt.
    + split; [by intros [? [=]]|done].
    + intros layer key limit Happ. by apply charged_lookup.
    + intros layer key Hno. by apply untouched_lookup.
Qed.
End Admission.

(** ** How many buckets are kept *)

Lemma insert_by_fullness_perm x l : insert_by_fullness x l ≡ₚ x :: l.
Proof.
  induction l as [|y l IH]; [done|]. simpl. destruct (f64_gt _ _); [|done]. rewrite IH. apply Permutation_swap.
Qed.

Lemma by_fullness_perm l : by_fullness l ≡ₚ l.
Proof. induction l as [|x l IH]; [done|]. simpl. by rewrite insert_by_fullness_perm, IH. Qed.

Lemma foldl_delete_size {K A} `{Countable K} (ks : list K) : NoDup ks → ∀ m : gmap K A, (∀ k, k ∈ ks → is_Some (m !! k)) →
  size (foldl (λ m k, delete k m) m ks) = (size m - length ks)%nat.
Proof.
  induction 1 as [|k ks Hk _ IH]; intros m Hm; cbn [foldl]; [simpl; lia|]. rewrite IH.
  - rewrite map_size_delete_Some by (apply Hm, list_elem_of_here). simpl. lia.
  - intros k' Hk'. rewrite lookup_delete_ne by (by intros ->). by apply Hm, list_elem_of_further.
Qed.

Lemma size_touch lim identity now state layer : (size (touch lim identity now state layer) ≤ S (size state))%nat.
Proof.
  unfold touch. destruct (applies lim identity layer) as [[k l]|]; [|lia]. rewrite map_size_insert. destruct (_ !! _); simpl; lia.
Qed.

Lemma size_touch_fold lim identity now l : ∀ state, (size (foldl (touch lim identity now) state l) ≤ size state + length l)%nat.
Proof.
  induction l as [|x l IH]; intros state; cbn [foldl length]; [lia|].
  etrans; [apply IH|]. pose proof (size_touch lim identity now state x). lia.
Qed.

Lemma size_charge_fold c evals : ∀ state, size (foldl (λ s e, charge_local c (ev_layer e) (ev_key e) s) state evals) = size state.
Proof.
  induction evals as [|e evals IH]; intros state; [done|]. cbn [foldl]. rewrite IH. unfold charge_local.
  by rewrite <-!(size_dom (D := gset _)), dom_alter_L.
Qed.

Section Bound.
Context `{BucketOrderLaws}.

Lemma reclaim_size limits ceiling now state : (size (reclaim limits ceiling now state) ≤ ceiling - LAYER_COUNT)%nat.
Proof.
  unfold reclaim. set (s1 := drop_full limits now state). set (target := (ceiling - LAYER_COUNT)%nat).
  destruct (Nat.leb_spec (size s1) target) as [|Hgt]; [done|].
  set (ks := (take (size s1 - target) (by_fullness ((λ kb, (kb.1, lb_tokens kb.2)) <$> bucket_order s1))).*1).
  assert ((by_fullness ((λ kb, (kb.1, lb_tokens kb.2)) <$> bucket_order s1)).*1 ≡ₚ (map_to_list s1).*1) as Hperm.
  { rewrite by_fullness_perm, bucket_order_permutation, <-list_fmap_compose. done. }
  assert (length ks = (size s1 - target)%nat) as Hlen.
  { unfold ks. rewrite fmap_take, length_take, Hperm, length_fmap, length_map_to_list. lia. }
  assert (NoDup ks) as Hnd.
  { unfold ks. rewrite fmap_take. eapply sublist_NoDup; [|apply sublist_take]. rewrite Hperm. apply NoDup_fst_map_to_list. }
  rewrite foldl_delete_size; [lia|done|]. intros k Hk. unfold ks in Hk. rewrite fmap_take in Hk.
  assert (k ∈ (map_to_list s1).*1) as ((k' & b) & -> & Hin)%list_elem_of_fmap.
  { rewrite <-Hperm. eapply elem_of_take in Hk as (i & Hi & _). by eapply list_elem_of_lookup_2. }
  apply elem_of_map_to_list in Hin. by exists b.
Qed.

(** Whatever the map held before, after a request over local buckets it holds at most
    four buckets more than the ceiling, which a limiter keeps at one or more. *)
Theorem local_buckets_bounded lim identity cost now state (Hmax : (1 ≤ max_buckets lim)%nat) :
  (size (admit_local lim identity cost now state).2 ≤ max_buckets lim + 4)%nat.
Proof.
  rewrite admit_local_eq. cbv zeta. set (s0 := reclaimed lim now state).
  assert (size s0 + LAYER_COUNT ≤ max_buckets lim + 4)%nat as Hs0.
  { unfold s0, reclaimed. destruct (Nat.leb_spec (max_buckets lim) (size state)).
    - pose proof (reclaim_size (limiter_limits lim) (max_buckets lim) now state). unfold LAYER_COUNT in *. lia.
    - unfold LAYER_COUNT. lia. }
  pose proof (size_touch_fold lim identity now LAYER_ORDER s0) as Ht. change (length LAYER_ORDER) with LAYER_COUNT in Ht.
  destruct (refuses_unaddressed lim identity); [simpl; lia|].
  destruct (layered_denial _ _ _ _); cbn [snd]; [lia|]. rewrite size_charge_fold. lia.
Qed.
End Bound.

(** One order of the entries. *)
Definition listed_order : BucketOrder := {| bucket_order := map_to_list |}.

Lemma listed_order_laws : @BucketOrderLaws listed_order.
Proof. constructor. done. Qed.

Definition unit_limit : Limit := Limit_new (f64_of 1) (f64_of 2).

Definition all_limited : LayeredLimits :=
  limits_with PerIp unit_limit (limits_with PerUser unit_limit (limits_with PerClient unit_limit
    (limits_with PerTenant unit_limit (limits_with PerEnvironment unit_limit unlimited_layers)))).

Definition sample_identity (n : string) : RequestIdentity := mkIdentity (Some n) (Some n) (Some n) (Some n) (Some n).

Definition small_limiter : LayeredLimiter := with_max_buckets 6 (LayeredLimiter_new all_limited).

Definition two_requests : Buckets :=
  (@admit_local listed_order small_limiter (sample_identity "b") (f64_of 1) 0
    (@admit_local listed_order small_limiter (sample_identity "a") (f64_of 1) 0 ∅).2).2.

Lemma local_buckets_bounded_witness : (1 ≤ max_buckets small_limiter)%nat ∧
  (size (@admit_local listed_order small_limiter (sample_identity "c") (f64_of 1) 0 two_requests).2 ≤ 10)%nat.
Proof.
  split; [vm_compute; lia|].
  apply (@local_buckets_bounded listed_order listed_order_laws small_limiter). vm_compute; lia.
Defined.

(** The ceiling is overshot: with a ceiling of six, two requests leave ten buckets. *)
Example ceiling_overshot : size two_requests = 10%nat.
Proof. vm_compute. reflexivity. Qed.

(** ** Dropping full buckets *)

(** Refilling over no time changes nothing below the burst, and fills nothing above it. *)
Lemma refilled_tokens_now limit x : limit_ok limit → nonneg x = true → f64_lt x (burst limit) = true ∨ x = burst limit →
  refilled_tokens limit x 0 = x.
Proof.
  intros [[Hr Hf] [Hb _]] Hx Hcase. unfold refilled_tokens. change (as_secs_f64 0) with f64_zero.
  assert (f64_mul f64_zero (refill_per_sec limit) = f64_zero) as -> by (by destruct (refill_per_sec limit) as [[]|[]| |[]]).
  assert (f64_add x f64_zero = x) as -> by (by destruct x as [[]|[]| |[]]).
  unfold f64_min. assert (is_nan (burst limit) = false) as -> by (by destruct (burst limit) as [[]|[]| |[]]).
  destruct Hcase as [Hlt| ->].
  - rewrite Hlt. by destruct (is_nan x) eqn:Hn; [destruct x|].
  - destruct (is_nan (burst limit)); [done|]. by destruct (f64_lt _ _).
Qed.

(** A level is either below the burst or the burst itself. *)
Lemma refilled_tokens_cases limit x t : is_nan (burst limit) = false →
  f64_lt (refilled_tokens limit x t) (burst limit) = true ∨ refilled_tokens limit x t = burst limit.
Proof.
  intros Hb. unfold refilled_tokens, f64_min. set (y := f64_add _ _). rewrite Hb. destruct (is_nan y); [by right|].
  destruct (f64_lt y (burst limit)) eqn:Hlt; [by left|by right].
Qed.


Lemma refilled_tokens_nonneg limit x t : limit_ok limit → nonneg x = true → 0 ≤ t → nonneg (refilled_tokens limit x t) = true.
Proof.
  intros [[Hr _] [Hb _]] Hx Ht. unfold refilled_tokens.
  destruct (f64_mul_nonneg _ _ (as_secs_nonneg t Ht) Hr) as [Hm|Hm]; [by apply f64_min_nonneg; [apply f64_add_nonneg|]|].
  unfold f64_min. assert (is_nan (f64_add x (f64_mul (as_secs_f64 t) (refill_per_sec limit))) = true) as ->; [|done].
  destruct (f64_mul _ _); try done. by destruct x as [[]|[]| |[]].
Qed.

Definition limits_all_ok (limits : LayeredLimits) : Prop := ∀ layer limit, limits_get limits layer = Some limit → limit_ok limit.

Definition buckets_ok (state : Buckets) : Prop := ∀ k b, state !! k = Some b → nonneg (lb_tokens b) = true.

Lemma buckets_ok_dec state : forallb (λ kb, nonneg (lb_tokens kb.2)) (map_to_list state) = true → buckets_ok state.
Proof.
  intros Hall k b Hk. rewrite forallb_forall in Hall. apply (Hall (k, b)). by apply list_elem_of_In, elem_of_map_to_list.
Qed.

(** Dropping full buckets and refilling the others leaves every limited level as it is. *)
Lemma drop_full_level limits now state layer key limit : limits_all_ok limits → buckets_ok state →
  limits_get limits layer = Some limit →
  layer_level (drop_full limits now state) layer key limit now = layer_level state layer key limit now.
Proof.
  intros Hok Hst Hlim. pose proof (Hok layer limit Hlim) as Hl. pose proof Hl as [_ [Hb Hbf]].
  assert (0 ≤ saturating_duration_since now now ∧ saturating_duration_since now now = 0) as [_ Hself]
    by (unfold saturating_duration_since; lia).
  unfold layer_level, drop_full. rewrite map_lookup_imap. destruct (state !! (layer, key)) as [b|] eqn:Hbk; simpl; [|done].
  rewrite Hlim. simpl.
  set (x := refilled_tokens limit (lb_tokens b) (saturating_duration_since now (lb_last b))).
  assert (nonneg x = true) as Hx.
  { apply refilled_tokens_nonneg; [done|by eapply Hst|unfold saturating_duration_since; lia]. }
  destruct (refilled_tokens_cases limit (lb_tokens b) (saturating_duration_since now (lb_last b)) (nonneg_not_nan _ Hb)) as [Hlt|Heq].
  - fold x in Hlt. rewrite Hlt. simpl. unfold layer_refill. simpl. rewrite Hself. f_equal. apply refilled_tokens_now; auto.
  - fold x in Heq. assert (f64_lt x (burst limit) = false) as ->.
    { rewrite Heq. unfold f64_lt, SFltb. by rewrite SFcompare_refl by (by apply nonneg_not_nan). }
    simpl. unfold layer_refill. simpl. rewrite Hself. fold x. rewrite Heq. f_equal. apply refilled_tokens_now; auto.
Qed.

(** Reclaiming is invisible as long as dropping the full buckets makes room: the
    request that triggers it gets the outcome it would get from a limiter with no ceiling. *)
Theorem reclaim_keeps_decisions `{BucketOrder} lim identity cost now state
    (Hlimits : limits_all_ok (limiter_limits lim)) (Hstate : buckets_ok state)
    (Hroom : (size (drop_full (limiter_limits lim) now state) ≤ max_buckets lim - LAYER_COUNT)%nat) :
  (admit_local lim identity cost now state).1
  = (admit_local (with_max_buckets (S (size state)) lim) identity cost now state).1.
Proof.
  rewrite !admit_local_eq. cbv zeta. set (lim' := with_max_buckets (S (size state)) lim).
  change (refuses_unaddressed lim' identity) with (refuses_unaddressed lim identity).
  destruct (refuses_unaddressed lim identity); [done|].
  assert (reclaimed lim' now state = state) as ->.
  { unfold reclaimed. by rewrite (proj2 (Nat.leb_gt _ _)) by (simpl; lia). }
  assert (omap (eval_layer lim identity now (reclaimed lim now state)) LAYER_ORDER
    = omap (eval_layer lim' identity now state) LAYER_ORDER) as ->.
  { apply omap_ext_elem. intros layer _. unfold reclaimed, reclaim. rewrite (proj2 (Nat.leb_le _ _) Hroom).
    destruct (_ <=? _)%nat; [|done]. unfold eval_layer. change (applies lim' identity layer) with (applies lim identity layer).
    destruct (applies lim identity layer) as [[key limit]|] eqn:Happ; [|done]. cbn [mbind option_bind].
    rewrite drop_full_level; [done..|]. unfold applies in Happ. destruct (limits_get _ layer); [|done]. simpl in Happ.
    destruct (layer_key_for identity layer); [|done]. simpl in Happ. congruence. }
  change (is_skipped lim') with (is_skipped lim). by destruct (layered_denial _ _ _ _).
Qed.

Definition refilled_limiter : LayeredLimiter := with_max_buckets 7 (LayeredLimiter_new all_limited).

(** Ten seconds later the ten buckets of two requests are full. *)
Lemma reclaim_keeps_decisions_witness :
  drop_full all_limited 10000000000 two_requests = ∅ ∧
  (@admit_local listed_order refilled_limiter (sample_identity "a") (f64_of 3) 10000000000 two_requests).1
  = (@admit_local listed_order (with_max_buckets (S (size two_requests)) refilled_limiter) (sample_identity "a") (f64_of 3)
       10000000000 two_requests).1.
Proof.
  split; [vm_compute; reflexivity|].
  apply (@reclaim_keeps_decisions listed_order refilled_limiter).
  - intros layer limit Hl. assert (limits_get all_limited layer = Some unit_limit) as Hall by (destruct layer; reflexivity).
    assert (limit = unit_limit) as -> by (change (limits_get all_limited layer = Some limit) in Hl; congruence).
    apply Limit_new_ok.
  - apply buckets_ok_dec. vm_compute; reflexivity.
  - vm_compute. lia.
Defined.

(** ** An outage of the shared store *)

Section Outage.
Context `{BucketOrder} `{SharedRateStore St}.
Context (lim : LayeredLimiter) (identity : RequestIdentity).
Hypothesis get_down : ∀ key st, (shared_get key st).1 = ReadUnavailable.

(** The reading phase over a store that is down is the walk over local buckets. *)
Lemma resolve_outage_step now micros r ev t layer : s_evaluated r = (λ e, (e, SourceLocal)) <$> ev →
  let r0 := mkResolved ev (s_skipped r) (s_refuse r) in
  let '(r1, t1) := resolve_shared_step lim identity now micros (r, t) layer in
  let '(r1', state1) := resolve_step lim identity now (r0, local t) layer in
  s_evaluated r1 = (λ e, (e, SourceLocal)) <$> evaluated r1' ∧ s_skipped r1 = skipped r1' ∧ s_refuse r1 = refuse r1' ∧
  local t1 = state1.
Proof.
  intros Hev r0. unfold resolve_shared_step, resolve_step, r0. clear r0.
  destruct (limits_get _ layer) as [limit|]; [|exact (conj Hev (conj eq_refl (conj eq_refl eq_refl)))].
  destruct (layer_key_for identity layer) as [key|]; [|exact (conj Hev (conj eq_refl (conj eq_refl eq_refl)))].
  simpl. destruct (s_refuse r) eqn:Hrf; [exact (conj Hev (conj eq_refl (conj Hrf eq_refl)))|].
  unfold read_layer. pose proof (get_down (shared_key layer key) (store t)) as Hdown.
  destruct (shared_get (shared_key layer key) (store t)) as [answer store1]. simpl in Hdown. subst answer. simpl.
  split; [|done]. by rewrite Hev, fmap_app.
Qed.

Lemma resolve_outage_fold now micros l : ∀ r ev t, s_evaluated r = (λ e, (e, SourceLocal)) <$> ev →
  let '(r1, t1) := foldl (resolve_shared_step lim identity now micros) (r, t) l in
  let '(r1', state1) := foldl (resolve_step lim identity now) (mkResolved ev (s_skipped r) (s_refuse r), local t) l in
  s_evaluated r1 = (λ e, (e, SourceLocal)) <$> evaluated r1' ∧ s_skipped r1 = skipped r1' ∧ s_refuse r1 = refuse r1' ∧
  local t1 = state1.
Proof.
  induction l as [|layer l IH]; intros r ev t Hev; [done|]. cbn [foldl].
  pose proof (resolve_outage_step now micros r ev t layer Hev) as Hstep. cbv zeta in Hstep.
  destruct (resolve_shared_step lim identity now micros (r, t) layer) as [r1 t1].
  destruct (resolve_step lim identity now (mkResolved ev (s_skipped r) (s_refuse r), local t) layer) as [[ev1 sk1 rf1] state1].
  simpl in Hstep. destruct Hstep as (Hev1 & Hsk & Hrf & Hst). specialize (IH r1 ev1 t1 Hev1). by rewrite Hsk, Hrf, Hst in IH.
Qed.

Lemma charge_outage c micros ev : ∀ fb t,
  let '(fb', t') := foldl (charge_shared_step c micros) (fb, t) ((λ e, (e, SourceLocal)) <$> ev) in
  fb' = fb ∧ local t' = foldl (λ s e, charge_local c (ev_layer e) (ev_key e) s) (local t) ev.
Proof. induction ev as [|e ev IH]; intros fb t; [done|]. apply (IH fb (mkTiered _ _)). Qed.

(** An outage of the shared store costs accuracy between nodes and nothing else.
    While the store does not answer, a request that the clock allows gets the decision, the
    limiting layer, the headers and the unenforced layers of the local limiter, and leaves
    the local buckets as the local limiter would. *)
Theorem outage_is_local cost now wall micros t
    (Hwall : epoch_micros wall = Returned micros) (Hbelow : (size (local t) < max_buckets lim)%nat) :
  ∃ o t', admit_shared lim identity cost now wall t = Returned (o, t') ∧
    let '(o', state') := admit_local lim identity cost now (local t) in
    l_decision o = l_decision o' ∧ limiting_layer o = limiting_layer o' ∧ l_snapshot o = l_snapshot o' ∧
    unenforced o = unenforced o' ∧ missing_identity o = missing_identity o' ∧ local t' = state'.
Proof.
  unfold admit_shared. rewrite Hwall. unfold admit_local. rewrite (proj2 (Nat.leb_gt _ _) Hbelow).
  pose proof (resolve_outage_fold now micros LAYER_ORDER (mkResolvedShared [] [] false false) [] t eq_refl) as Hfold.
  unfold resolve_shared, resolve_local. cbn [s_skipped s_refuse] in Hfold.
  destruct (foldl (resolve_shared_step lim identity now micros) _ LAYER_ORDER) as [r1 t1].
  destruct (foldl (resolve_step lim identity now) _ LAYER_ORDER) as [r1' state1].
  destruct Hfold as (Hev & Hsk & Hrf & Hst). eexists _, _. split; [apply f_equal, surjective_pairing|].
  unfold finish_shared. rewrite Hrf, Hsk. destruct (refuse r1'); [done|].
  assert ((s_evaluated r1).*1 = evaluated r1') as ->.
  { rewrite Hev, <-list_fmap_compose. apply list_fmap_id. }
  unfold layered_denial. destruct (List.find _ (evaluated r1')) as [e|]; [done|]. simpl.
  pose proof (charge_outage (f64_max cost f64_zero) micros (evaluated r1') (s_fell_back r1) t1) as Hch. rewrite Hev.
  destruct (foldl (charge_shared_step _ _) _ _) as [fb t2]. destruct Hch as [_ Hch]. simpl. by rewrite Hch, Hst.
Qed.
End Outage.

(** A store that never answers. *)
Definition down_store : SharedRateStore unit :=
  {| shared_get _ st := (ReadUnavailable, st); shared_put _ _ st := (WriteUnavailable, st) |}.

Lemma outage_is_local_witness : ∃ o t',
  @admit_shared unit down_store small_limiter (sample_identity "a") (f64_of 3) 0 1000 (mkTiered ∅ tt) = Returned (o, t') ∧
  l_decision o = l_decision (@admit_local listed_order small_limiter (sample_identity "a") (f64_of 3) 0 ∅).1.
Proof.
  destruct (@outage_is_local listed_order unit down_store small_limiter (sample_identity "a") (λ _ _, eq_refl)
    (f64_of 3) 0 1000 1 (mkTiered ∅ tt)) as (o & t' & Hrun & Hrest).
  - vm_compute; reflexivity.
  - vm_compute; lia.
  - exists o, t'. split; [exact Hrun|]. cbn [local] in Hrest.
    destruct (@admit_local listed_order small_limiter (sample_identity "a") (f64_of 3) 0 ∅) as [o' state']. exact (proj1 Hrest).
Defined.

(** Here both refuse. *)
Example outage_refusal : l_decision (@admit_local listed_order small_limiter (sample_identity "a") (f64_of 3) 0 ∅).1 = SpendDenied.
Proof. vm_compute. reflexivity. Qed.

(** The buckets a run of requests leaves locally while the store is down. *)
Definition outage_buckets (names : list string) : nat :=
  size (local (foldl (λ t n,
    match @admit_shared unit down_store small_limiter (sample_identity n) (f64_of 1) 0 1000 t with
    | Returned (_, t') => t'
    | _ => t
    end) (mkTiered ∅ tt) names)).

(** The shared path does not reclaim: with a ceiling of six, the map grows with every new
    name while the store is down. *)
Example outage_buckets_unbounded : outage_buckets ["a"; "b"; "c"; "d"; "e"; "f"] = 30%nat.
Proof. vm_compute. reflexivity. Qed.

(** ** Shared keys *)

(** Two environments of two tenants with one shared bucket: the key is the joined string that
    [LayerKey] is there to avoid. *)
Example shared_key_collides :
  ScopedKey "acme:staging" "prod" ≠ ScopedKey "acme" "staging:prod" ∧
  shared_key PerEnvironment (ScopedKey "acme:staging" "prod") = shared_key PerEnvironment (ScopedKey "acme" "staging:prod").
Proof. split; [discriminate|vm_compute; reflexivity]. Qed.

(** ** The encoding of a shared bucket *)

Lemma le_value_bytes n : ∀ v, 0 ≤ v < 256 ^ Z.of_nat n → le_value (le_bytes n v) = v.
Proof.
  induction n as [|n IH]; intros v Hv; cbn [le_bytes le_value]; [simpl in Hv; lia|].
  rewrite Nat2Z.inj_succ, Z.pow_succ_r in Hv by lia. rewrite IH.
  - pose proof (Z.div_mod v 256). lia.
  - split; [apply Z.div_pos; lia|]. apply Z.div_lt_upper_bound; lia.
Qed.

Lemma length_le_bytes n : ∀ v, length (le_bytes n v) = n.
Proof. induction n as [|n IH]; intros v; simpl; [done|by rewrite IH]. Qed.

(** The three fields of a bit pattern. *)
Lemma bits_fields (s : bool) E f : 0 ≤ E < 2048 → 0 ≤ f < 2 ^ 52 →
  let bits := (if s then 2 ^ 63 else 0) + E * 2 ^ 52 + f in
  (2 ^ 63 <=? bits) = s ∧ (bits / 2 ^ 52) mod 2048 = E ∧ bits mod 2 ^ 52 = f ∧ 0 ≤ bits < 2 ^ 64.
Proof.
  intros HE Hf bits. assert (bits = ((if s then 2048 else 0) + E) * 2 ^ 52 + f) as Hb by (unfold bits; destruct s; lia).
  rewrite Hb. split_and!.
  - destruct s; [apply Z.leb_le|apply Z.leb_gt]; lia.
  - rewrite Z.div_add_l, (Z.div_small f) by lia. rewrite Z.add_0_r. symmetry.
    apply (Z.mod_unique_pos _ _ (if s then 1 else 0)); [lia|destruct s; lia].
  - rewrite Z.add_comm, Z_mod_plus_full. by apply Z.mod_small.
  - destruct s; lia.
  - destruct s; lia.
Qed.

(** What a valid finite number looks like. *)
Lemma valid_finite m e : valid_binary 53 1024 (S754_finite false m e) = true →
  Zpos m < 2 ^ 52 ∧ e = -1074 ∨ 2 ^ 52 ≤ Zpos m < 2 ^ 53 ∧ -1074 ≤ e ≤ 971.
Proof.
  unfold valid_binary, bounded, canonical_mantissa, fexp, emin. intros [Hc%Z.eqb_eq He%Z.leb_le]%andb_true_iff.
  change (Zpos (digits2_pos m)) with (digits m) in Hc. destruct (digits_bounds m) as (Hd & Hl & Hu).
  destruct (decide (digits m = 53)) as [H53|H53].
  - right. rewrite H53 in *. simpl in Hl, Hu. lia.
  - left. assert (digits m ≤ 52) by lia. split; [|lia].
    assert (2 ^ digits m ≤ 2 ^ 52) by (apply Z.pow_le_mono_r; lia). lia.
Qed.

Lemma f64_bits_round_trip x : valid_binary 53 1024 x = true → is_finite x = true →
  f64_from_bits (f64_to_bits x) = x ∧ 0 ≤ f64_to_bits x < 2 ^ 64.
Proof.
  intros Hv Hf. destruct x as [s|s| |s m e]; try done; [by destruct s|].
  change (valid_binary 53 1024 (S754_finite s m e)) with (valid_binary 53 1024 (S754_finite false m e)) in Hv.
  unfold f64_to_bits, f64_from_bits. destruct (valid_finite m e Hv) as [[Hm ->]|[Hm He]].
  - rewrite (proj2 (Z.ltb_lt _ _) Hm). destruct (bits_fields s 0 (Zpos m)) as (H1 & H2 & H3 & H4); [lia..|].
    rewrite Z.add_0_r in H1, H2, H3, H4. rewrite H1, H2, H3. done.
  - rewrite (proj2 (Z.ltb_ge _ _)), Z.add_assoc by lia.
    destruct (bits_fields s (e + 1075) (Zpos m - 2 ^ 52)) as (H1 & H2 & H3 & H4); [lia..|]. rewrite H1, H2, H3.
    rewrite (proj2 (Z.eqb_neq (e + 1075) 2047)), (proj2 (Z.eqb_neq (e + 1075) 0)) by lia.
    split; [|done]. replace (Zpos m - 2 ^ 52 + 2 ^ 52) with (Zpos m) by lia. f_equal. lia.
Qed.

(** A shared bucket survives its 16-byte encoding: whatever valid finite number of
    tokens that is not negative and whatever [i64] instant are written are read back. *)
Theorem bucket_state_round_trip b (Hvalid : valid_binary 53 1024 (bs_tokens b) = true)
    (Hfinite : is_finite (bs_tokens b) = true) (Hnonneg : f64_lt (bs_tokens b) f64_zero = false)
    (Hlast : is_i64 (last_epoch_micros b)) :
  length (BucketState_encode b) = 16%nat ∧ BucketState_decode (BucketState_encode b) = Some b.
Proof.
  destruct (f64_bits_round_trip (bs_tokens b) Hvalid Hfinite) as [Hbits Hrange].
  unfold BucketState_encode, BucketState_decode. set (w := last_epoch_micros b mod 2 ^ 64).
  assert (0 ≤ w < 2 ^ 64) as Hw by (apply Z.mod_pos_bound; lia).
  rewrite length_app, !length_le_bytes. split; [done|]. rewrite bool_decide_true by done. cbn [negb].
  rewrite take_app_length', drop_app_length' by (by rewrite length_le_bytes).
  rewrite !le_value_bytes by (simpl Z.of_nat; lia). rewrite Hbits, Hfinite, Hnonneg. cbn [negb orb].
  destruct b as [tk la]. simpl in *. do 2 f_equal. unfold i64_of_bits, w, is_i64, I64_MIN, I64_MAX in *.
  destruct (decide (0 ≤ la)).
  - rewrite Z.mod_small by lia. by rewrite (proj2 (Z.ltb_lt _ _)) by lia.
  - assert (la mod 2 ^ 64 = la + 2 ^ 64) as ->.
    { symmetry. apply (Z.mod_unique_pos _ _ (-1)); lia. }
    rewrite (proj2 (Z.ltb_ge _ _)) by lia. lia.
Qed.

Lemma bucket_state_round_trip_witness :
  BucketState_decode (BucketState_encode (mkBucketState (f64_div (f64_of 1) (f64_of 3)) (-5)))
  = Some (mkBucketState (f64_div (f64_of 1) (f64_of 3)) (-5)).
Proof.
  apply (bucket_state_round_trip (mkBucketState (f64_div (f64_of 1) (f64_of 3)) (-5))); try (vm_compute; reflexivity).
  unfold is_i64, I64_MIN, I64_MAX. simpl. lia.
Defined.
