(* ===== verification/ScimFilter.v ===== *)
(** * SCIM filters

    crates/ironauth-scim filter.rs: the grammar of RFC 7644 filters, parsed by recursive descent
    from text that a client chooses, and the evaluation of a filter over a resource.  The
    parser keeps an offset into the bytes; every slice is checked, and one out of range is
    [Panicked].  The recursion takes fuel, and [parse_filter_total] shows that what
    [parse_filter] gives is enough.  [str::to_lowercase], which folds all of Unicode, is the
    class [Lowercase]; its law is the ASCII case.  The other theorems: what the parts of
    a parsed filter are made of and how deep it nests; that the parser reads back every
    printed filter; and that evaluation ignores the case of names. *)

From Stdlib Require Import SpecFloat.
From S2P Require Import Prelude Machine Float Text Json.

Local Open Scope char_scope.

Definition FILTER_MAX_DEPTH : nat := 20.
Definition FILTER_MAX_LEN : nat := 4096.

(** ** Filters *)

Record AttributePath : Type := mkAttributePath {
  path_urn : option (list ascii);
  path_name : list ascii;
  path_sub : option (list ascii)
}.

Inductive CompareOp : Set :=
| OpEqual | OpNotEqual | OpContains | OpStartsWith | OpEndsWith
| OpGreaterThan | OpGreaterOrEqual | OpLessThan | OpLessOrEqual.

#[export] Instance CompareOp_eq_dec : EqDecision CompareOp.
Proof. solve_decision. Defined.

(** [Value]: a literal. *)
Inductive FilterLiteral : Type :=
| LString (s : list ascii)
| LNumber (x : spec_float)
| LBoolean (b : bool)
| LNull.

Inductive Filter : Type :=
| Compare (path : AttributePath) (op : CompareOp) (value : FilterLiteral)
| Present (path : AttributePath)
| ValuePath (path : AttributePath) (filter : Filter)
| FAnd (lhs rhs : Filter)
| FOr (lhs rhs : Filter)
| FNot (inner : Filter).

Inductive FilterError : Set :=
| FilterTooLong (limit : nat)
| FilterTooDeep (limit : nat)
| FilterUnexpected (at_ : nat)
| FilterUnexpectedEnd.

Local Open Scope string_scope.

Definition FilterError_to_string (e : FilterError) : string :=
  match e with
  | FilterTooLong limit => "the filter exceeds " +:+ pretty limit +:+ " bytes"
  | FilterTooDeep limit => "the filter nests deeper than " +:+ pretty limit
  | FilterUnexpected at_ => "unexpected token at offset " +:+ pretty at_
  | FilterUnexpectedEnd => "the filter ended unexpectedly"
  end.

Record ScimErrorBody : Type := mkScimErrorBody {
  error_schemas : list string;
  scim_type : string;
  error_detail : string;
  error_status : string
}.

Definition to_scim_error (e : FilterError) : ScimErrorBody :=
  mkScimErrorBody ["urn:ietf:params:scim:api:messages:2.0:Error"] "invalidFilter" (FilterError_to_string e) "400".

Local Close Scope string_scope.
Local Open Scope char_scope.

(** ** Numbers *)

(** The longest prefix of characters that satisfy a test, and the rest. *)
Fixpoint span (p : ascii → bool) (s : text) : text * text :=
  match s with
  | [] => ([], [])
  | c :: rest => if p c then let '(front, back) := span p rest in (c :: front, back) else ([], s)
  end.

Definition decimal_digits (digits : text) : Z := foldl (λ acc c, 10 * acc + (code c - 48))%Z 0%Z digits.

(** The number nearest to [m * 10^e], with a sign. *)
Definition f64_decimal (negative : bool) (m e : Z) : f64 :=
  match m with
  | Zpos p =>
      if (0 <=? e)%Z then binary_normalize 53 1024 (cond_Zopp negative (m * 10 ^ e)) 0 negative
      else let '(mz, ez, lz) := SFdiv_core_binary 53 1024 m 0 (10 ^ (- e)) 0 in
           binary_round_aux 53 1024 negative mz ez lz
  | _ => S754_zero negative
  end.

(** An optional sign. *)
Definition parse_sign (s : text) : bool * text :=
  match s with
  | c :: rest => if is_char "-" c then (true, rest) else if is_char "+" c then (false, rest) else (false, s)
  | [] => (false, s)
  end.

Definition parse_exponent (s : text) : option Z :=
  match s with
  | [] => Some 0%Z
  | c :: rest =>
      if is_char "e" c || is_char "E" c then
        let '(negative, s1) := parse_sign rest in
        match span is_digit s1 with
        | (_ :: _ as ds, []) => Some (if negative then - decimal_digits ds else decimal_digits ds)%Z
        | _ => None
        end
      else None
  end.

(** [str::parse::<f64>], of a text without letters other than [e] and [E]. *)
Definition parse_f64 (s : text) : option f64 :=
  let '(negative, s1) := parse_sign s in
  let '(int, s2) := span is_digit s1 in
  let '(frac, s3) :=
    match s2 with c :: rest => if is_char "." c then span is_digit rest else ([], s2) | [] => ([], s2) end in
  match int ++ frac with
  | [] => None
  | ds =>
      exponent ← parse_exponent s3;
      Some (f64_decimal negative (decimal_digits ds) (exponent - Z.of_nat (length frac)))
  end.

(** ** Characters *)

(** [u32::from_str_radix]: a leading plus sign is accepted. *)
Definition from_str_radix (radix : Z) (s : text) : option Z :=
  let digits := match s with c :: rest => if is_char "+" c then rest else s | [] => [] end in
  match digits with
  | [] => None
  | _ => foldl (λ acc c, a ← acc; d ← to_digit radix c;
            let v := (a * radix + d)%Z in if (v <=? U32_MAX)%Z then Some v else None) (Some 0%Z) digits
  end.

(** [char::from_u32] and [String::push], as the bytes of the character. *)
Definition char_from_u32 (n : Z) : option text :=
  if ((0xD800 <=? n) && (n <=? 0xDFFF) || (0x10FFFF <? n))%Z then None
  else Some
    (if (n <? 0x80)%Z then [chr n]
     else if (n <? 0x800)%Z then [chr (0xC0 + n / 64); chr (0x80 + n mod 64)]
     else if (n <? 0x10000)%Z then [chr (0xE0 + n / 4096); chr (0x80 + (n / 64) mod 64); chr (0x80 + n mod 64)]
     else [chr (0xF0 + n / 262144); chr (0x80 + (n / 4096) mod 64); chr (0x80 + (n / 64) mod 64); chr (0x80 + n mod 64)]).

Definition utf8_width (byte : ascii) : nat :=
  if (code byte <? 0x80)%Z then 1
  else if (code byte / 32 =? 6)%Z then 2
  else if (code byte / 16 =? 14)%Z then 3
  else 4.

(** ** The parser *)

Record PState : Type := mkPState { pos : nat; depth : nat; in_value_path : bool }.

Definition at_pos (n : nat) (st : PState) : PState := mkPState n (depth st) (in_value_path st).

(** A parsing function: a value and the next state, a refusal, a panic, or out of fuel. *)
Abbreviation parsed A := (Run (Result (A * PState) FilterError)) (only parsing).

Definition refuse_filter {A} (e : FilterError) : parsed A := Returned (Err e).

(** An attribute name's bytes. *)
Definition is_path_byte (c : ascii) : bool :=
  is_ascii_alphanumeric c || is_char "." c || is_char ":" c || is_char "_" c || is_char "-" c || is_char "$" c.

Definition is_number_byte (c : ascii) : bool :=
  is_digit c || is_char "-" c || is_char "+" c || is_char "." c || is_char "e" c || is_char "E" c.

(** [str::rfind] with a character. *)
Definition rfind_char (c : ascii) (s : text) : option nat :=
  (λ i, (length s - S i)%nat) <$> find_char (is_char c) (reverse s).

Section Parser.
Context (bytes : text).

(** [&bytes[from..to]]. *)
Definition byte_slice (from to : nat) : Run text :=
  if ((from <=? to) && (to <=? length bytes))%nat then Returned (take (to - from) (drop from bytes)) else Panicked.

Definition skip_spaces (st : PState) : PState :=
  at_pos (pos st + length (span (is_char " ") (drop (pos st) bytes)).1) st.

Definition is_delimiter (c : ascii) : bool := is_char " " c || is_char "(" c || is_char ")" c || is_char "]" c.

(** [peek_word] also skips the spaces before the word. *)
Definition peek_word (word : text) (st : PState) : parsed bool :=
  let st := skip_spaces st in
  let end_ := (pos st + length word)%nat in
  if (length bytes <? end_)%nat then Returned (Ok (false, st))
  else
    match byte_slice (pos st) end_ with
    | Returned s =>
        if negb (eq_ignore_ascii_case s word) then Returned (Ok (false, st))
        else Returned (Ok (match bytes !! end_ with None => true | Some next => is_delimiter next end, st))
    | Panicked => Panicked
    | OutOfFuel => OutOfFuel
    end.

Definition take_word (word : text) (st : PState) : parsed bool :=
  let! (found, st1) := peek_word word st in
  if found then Returned (Ok (true, at_pos (pos st1 + length word) st1)) else Returned (Ok (false, st1)).

(** The parts of a path: the URN before the last colon, the name, the sub-attribute. *)
Definition split_path (raw : text) : option AttributePath :=
  let '(urn, rest) :=
    match rfind_char ":" raw with
    | Some index => (Some (take index raw), drop (S index) raw)
    | None => (None, raw)
    end in
  let '(name, sub) :=
    match split_once "." rest with
    | Some (name, sub) => (name, Some sub)
    | None => (rest, None)
    end in
  if bool_decide (name = []) || bool_decide (sub = Some []) then None
  else Some (mkAttributePath urn name sub).

Definition parse_attr_path (st : PState) : parsed AttributePath :=
  let st := skip_spaces st in
  let start := pos st in
  let n := length (span is_path_byte (drop start bytes)).1 in
  if (n =? 0)%nat then refuse_filter (FilterUnexpected start)
  else
    match byte_slice start (start + n) with
    | Returned raw =>
        if negb (from_utf8 raw) then refuse_filter (FilterUnexpected start)
        else
          match split_path raw with
          | Some path => Returned (Ok (path, at_pos (start + n) st))
          | None => refuse_filter (FilterUnexpected start)
          end
    | Panicked => Panicked
    | OutOfFuel => OutOfFuel
    end.

Definition OPERATORS : list (text * CompareOp) :=
  [(lit "eq", OpEqual); (lit "ne", OpNotEqual); (lit "co", OpContains); (lit "sw", OpStartsWith);
   (lit "ew", OpEndsWith); (lit "ge", OpGreaterOrEqual); (lit "gt", OpGreaterThan); (lit "le", OpLessOrEqual);
   (lit "lt", OpLessThan)].

Fixpoint parse_op_from (ops : list (text * CompareOp)) (st : PState) : parsed CompareOp :=
  match ops with
  | [] => let st := skip_spaces st in refuse_filter (FilterUnexpected (pos st))
  | (word, op) :: rest =>
      let! (found, st1) := take_word word st in
      if found then Returned (Ok (op, st1)) else parse_op_from rest st1
  end.

Definition parse_op (st : PState) : parsed CompareOp := parse_op_from OPERATORS st.

Definition parse_number (st : PState) : parsed FilterLiteral :=
  let start := pos st in
  let n := length (span is_number_byte (drop start bytes)).1 in
  if (n =? 0)%nat then refuse_filter (FilterUnexpected start)
  else
    match byte_slice start (start + n) with
    | Returned text =>
        if negb (from_utf8 text) then refuse_filter (FilterUnexpected start)
        else
          match parse_f64 text with
          | Some x => Returned (Ok (LNumber x, at_pos (start + n) st))
          | None => refuse_filter (FilterUnexpected start)
          end
    | Panicked => Panicked
    | OutOfFuel => OutOfFuel
    end.

(** The escape after a backslash at [p]; what it denotes and where it ends. *)
Definition parse_escape (p : nat) : Run (Result (text * nat) FilterError) :=
  match bytes !! p with
  | None => Returned (Err FilterUnexpectedEnd)
  | Some escaped =>
      let one (c : ascii) := Returned (Ok ([c], S p)) in
      if is_char (chr 34) escaped then one (chr 34)
      else if is_char "\" escaped then one "\"
      else if is_char "/" escaped then one "/"
      else if is_char "n" escaped then one (chr 10)
      else if is_char "t" escaped then one (chr 9)
      else if is_char "r" escaped then one (chr 13)
      else if is_char "b" escaped then one (chr 8)
      else if is_char "f" escaped then one (chr 12)
      else if is_char "u" escaped then
        let start := S p in
        let end_ := (start + 4)%nat in
        if (length bytes <? end_)%nat then Returned (Err FilterUnexpectedEnd)
        else
          match byte_slice start end_ with
          | Returned hex =>
              if negb (from_utf8 hex) then Returned (Err (FilterUnexpected start))
              else
                match from_str_radix 16 hex with
                | None => Returned (Err (FilterUnexpected start))
                | Some n =>
                    match char_from_u32 n with
                    | None => Returned (Err (FilterUnexpected start))
                    | Some character => Returned (Ok (character, end_))
                    end
                end
          | Panicked => Panicked
          | OutOfFuel => OutOfFuel
          end
      else Returned (Err (FilterUnexpected p))
  end.

(** The loop of [parse_string], from the offset [p]; each round moves it on. *)
Fixpoint string_loop (fuel : nat) (p : nat) (out : text) : Run (Result (text * nat) FilterError) :=
  match fuel with
  | O => OutOfFuel
  | S n =>
      match bytes !! p with
      | None => Returned (Err FilterUnexpectedEnd)
      | Some byte =>
          if is_char (chr 34) byte then Returned (Ok (out, S p))
          else if is_char "\" byte then
            let! (character, p1) := parse_escape (S p) in string_loop n p1 (out ++ character)
          else
            let end_ := (p + utf8_width byte)%nat in
            if (length bytes <? end_)%nat then Returned (Err FilterUnexpectedEnd)
            else
              match byte_slice p end_ with
              | Returned text =>
                  if negb (from_utf8 text) then Returned (Err (FilterUnexpected p))
                  else string_loop n end_ (out ++ text)
              | Panicked => Panicked
              | OutOfFuel => OutOfFuel
              end
      end
  end.

Definition parse_string (st : PState) : parsed FilterLiteral :=
  let! (s, p) := string_loop (S (length bytes)) (S (pos st)) [] in Returned (Ok (LString s, at_pos p st)).

Definition parse_value (st : PState) : parsed FilterLiteral :=
  let st := skip_spaces st in
  match bytes !! pos st with
  | None => refuse_filter FilterUnexpectedEnd
  | Some byte =>
      if is_char (chr 34) byte then parse_string st
      else
        let! (is_true, st1) := take_word (lit "true") st in
        if is_true then Returned (Ok (LBoolean true, st1)) else
        let! (is_false, st2) := take_word (lit "false") st1 in
        if is_false then Returned (Ok (LBoolean false, st2)) else
        let! (is_null, st3) := take_word (lit "null") st2 in
        if is_null then Returned (Ok (LNull, st3)) else parse_number st3
  end.

(** A level deeper, or a refusal. *)
Definition deeper (st : PState) : PState := mkPState (S (pos st)) (S (depth st)) (in_value_path st).

Fixpoint parse_or (fuel : nat) (st : PState) : parsed Filter :=
  match fuel with
  | O => OutOfFuel
  | S n => let! (lhs, st1) := parse_and n st in or_loop n lhs st1
  end

with or_loop (fuel : nat) (lhs : Filter) (st : PState) : parsed Filter :=
  match fuel with
  | O => OutOfFuel
  | S n =>
      let! (more, st1) := take_word (lit "or") st in
      if more then let! (rhs, st2) := parse_and n st1 in or_loop n (FOr lhs rhs) st2
      else Returned (Ok (lhs, st1))
  end

with parse_and (fuel : nat) (st : PState) : parsed Filter :=
  match fuel with
  | O => OutOfFuel
  | S n => let! (lhs, st1) := parse_unary n st in and_loop n lhs st1
  end

with and_loop (fuel : nat) (lhs : Filter) (st : PState) : parsed Filter :=
  match fuel with
  | O => OutOfFuel
  | S n =>
      let! (more, st1) := take_word (lit "and") st in
      if more then let! (rhs, st2) := parse_unary n st1 in and_loop n (FAnd lhs rhs) st2
      else Returned (Ok (lhs, st1))
  end

with parse_unary (fuel : nat) (st : PState) : parsed Filter :=
  match fuel with
  | O => OutOfFuel
  | S n =>
      let! (negated, st1) := take_word (lit "not") st in
      if negated then
        let! (inner, st2) := parse_group n (skip_spaces st1) in Returned (Ok (FNot inner, st2))
      else
        let st2 := skip_spaces st1 in
        if bool_decide (bytes !! pos st2 = Some "(") then parse_group n st2 else parse_compare n st2
  end

with parse_group (fuel : nat) (st : PState) : parsed Filter :=
  match fuel with
  | O => OutOfFuel
  | S n =>
      let st := skip_spaces st in
      if negb (bool_decide (bytes !! pos st = Some "(")) then refuse_filter (FilterUnexpected (pos st))
      else if (FILTER_MAX_DEPTH <? S (depth st))%nat then refuse_filter (FilterTooDeep FILTER_MAX_DEPTH)
      else
        let! (inner, st1) := parse_or n (deeper st) in
        let st2 := skip_spaces st1 in
        if negb (bool_decide (bytes !! pos st2 = Some ")")) then refuse_filter FilterUnexpectedEnd
        else Returned (Ok (inner, mkPState (S (pos st2)) (depth st2 - 1) (in_value_path st2)))
  end

with parse_compare (fuel : nat) (st : PState) : parsed Filter :=
  match fuel with
  | O => OutOfFuel
  | S n =>
      let! (path, st1) := parse_attr_path st in
      if bool_decide (bytes !! pos st1 = Some "[") then parse_value_path n path st1
      else
        let! (present, st2) := take_word (lit "pr") (skip_spaces st1) in
        if present then Returned (Ok (Present path, st2))
        else
          let! (op, st3) := parse_op st2 in
          let! (value, st4) := parse_value (skip_spaces st3) in
          Returned (Ok (Compare path op value, st4))
  end

with parse_value_path (fuel : nat) (path : AttributePath) (st : PState) : parsed Filter :=
  match fuel with
  | O => OutOfFuel
  | S n =>
      if in_value_path st then refuse_filter (FilterUnexpected (pos st))
      else if (FILTER_MAX_DEPTH <? S (depth st))%nat then refuse_filter (FilterTooDeep FILTER_MAX_DEPTH)
      else
        let! (inner, st1) := parse_or n (mkPState (S (pos st)) (S (depth st)) true) in
        let st2 := skip_spaces (mkPState (pos st1) (depth st1) false) in
        if negb (bool_decide (bytes !! pos st2 = Some "]")) then refuse_filter FilterUnexpectedEnd
        else Returned (Ok (ValuePath path inner, mkPState (S (pos st2)) (depth st2 - 1) (in_value_path st2)))
  end.
End Parser.

(** Enough for any text: eight calls for each byte. *)
Definition filter_fuel (input : text) : nat := (8 * length input + 8)%nat.

Definition parse_filter (input : text) : Run (Result Filter FilterError) :=
  if (FILTER_MAX_LEN <? length input)%nat then Returned (Err (FilterTooLong FILTER_MAX_LEN))
  else
    let! (filter, st) := parse_or input (filter_fuel input) (mkPState 0 0 false) in
    let st := skip_spaces input st in
    if negb (bool_decide (pos st = length input)) then Returned (Err (FilterUnexpected (pos st)))
    else Returned (Ok filter).

(** ** Evaluation *)

(** [str::to_lowercase], over all of Unicode. *)
Class Lowercase := { to_lowercase : text → text }.
Class LowercaseLaws `{Lowercase} : Prop := {
  to_lowercase_ascii s : forallb (λ c, (code c <? 128)%Z) s = true → to_lowercase s = to_ascii_lowercase s
}.

(** [str::contains], [starts_with] and [ends_with], byte by byte. *)
Fixpoint text_contains (s pattern : text) : bool :=
  bool_decide (take (length pattern) s = pattern) || match s with [] => false | _ :: rest => text_contains rest pattern end.
Definition text_starts_with (s pattern : text) : bool := bool_decide (take (length pattern) s = pattern).
Definition text_ends_with (s pattern : text) : bool :=
  (length pattern <=? length s)%nat && bool_decide (drop (length s - length pattern) s = pattern).

Section Matches.
Context `{SerdeNumber} `{Lowercase}.

Definition string_compare (lhs : text) (op : CompareOp) (rhs : text) : bool :=
  let lhs := to_lowercase lhs in
  let rhs := to_lowercase rhs in
  match op with
  | OpEqual => bool_decide (lhs = rhs)
  | OpNotEqual => negb (bool_decide (lhs = rhs))
  | OpContains => text_contains lhs rhs
  | OpStartsWith => text_starts_with lhs rhs
  | OpEndsWith => text_ends_with lhs rhs
  | OpGreaterThan => negb (text_leb lhs rhs)
  | OpGreaterOrEqual => text_leb rhs lhs
  | OpLessThan => negb (text_leb rhs lhs)
  | OpLessOrEqual => text_leb lhs rhs
  end.

(** [==] on [f64]. *)
Definition f64_eq (x y : f64) : bool := SFeqb x y.

Definition compare_values (found : Value) (op : CompareOp) (literal : FilterLiteral) : bool :=
  match found, literal with
  | VString lhs, LString rhs => string_compare (lit lhs) op rhs
  | VBool lhs, LBoolean rhs =>
      match op with
      | OpEqual => eqb lhs rhs
      | OpNotEqual => negb (eqb lhs rhs)
      | _ => false
      end
  | VNumber lhs, LNumber rhs =>
      match as_f64 lhs with
      | None => false
      | Some lhs =>
          match op with
          | OpEqual => f64_eq lhs rhs
          | OpNotEqual => negb (f64_eq lhs rhs)
          | OpGreaterThan => f64_gt lhs rhs
          | OpGreaterOrEqual => f64_ge lhs rhs
          | OpLessThan => f64_lt lhs rhs
          | OpLessOrEqual => f64_le lhs rhs
          | OpContains | OpStartsWith | OpEndsWith => false
          end
      end
  | VNull, LNull => bool_decide (op = OpEqual)
  | _, _ => bool_decide (op = OpNotEqual)
  end.

Definition member (value : Value) (name : text) : option Value :=
  object ← as_object value;
  snd <$> List.find (λ kv, eq_ignore_ascii_case (lit kv.1) name) object.

Definition EXTENSION_PREFIX : text := lit "urn:ietf:params:scim:schemas:extension:".

Definition is_object (value : Value) : bool := match value with VObject _ => true | _ => false end.
Definition is_null (value : Value) : bool := match value with VNull => true | _ => false end.

(** [sort_by_key] on the key. *)
Fixpoint insert_by_key (x : string * Value) (l : list (string * Value)) : list (string * Value) :=
  match l with
  | [] => [x]
  | y :: rest => if text_leb (lit x.1) (lit y.1) then x :: l else y :: insert_by_key x rest
  end.

(** [find_map]. *)
Fixpoint find_map {A B} (f : A → option B) (l : list A) : option B :=
  match l with
  | [] => None
  | x :: rest => match f x with Some y => Some y | None => find_map f rest end
  end.

Definition extension_member (resource : Value) (name : text) : option Value :=
  object ← as_object resource;
  let candidates := filter (λ kv, text_starts_with (lit kv.1) EXTENSION_PREFIX && is_object kv.2 = true) object in
  find_map (λ kv, member kv.2 name) (foldr insert_by_key [] candidates).

Definition attribute_values (resource : Value) (path : AttributePath) : list Value :=
  match (match member resource (path_name path) with
         | Some found => Some found
         | None => extension_member resource (path_name path)
         end) with
  | None => []
  | Some found =>
      match path_sub path, found with
      | None, VArray values => values
      | None, single => [single]
      | Some sub, VArray values => omap (λ value, member value sub) values
      | Some sub, single => option_list (member single sub)
      end
  end.

Fixpoint filter_matches (filter : Filter) (resource : Value) : bool :=
  match filter with
  | Compare path op value =>
      match attribute_values resource path with
      | [] => bool_decide (op = OpNotEqual)
      | found => existsb (λ value_at, compare_values value_at op value) found
      end
  | Present path => existsb (λ found, negb (is_null found)) (attribute_values resource path)
  | ValuePath path inner =>
      match member resource (path_name path) with
      | Some (VArray values) => existsb (λ value, filter_matches inner value) values
      | Some single => filter_matches inner single
      | None => false
      end
  | FAnd lhs rhs => filter_matches lhs resource && filter_matches rhs resource
  | FOr lhs rhs => filter_matches lhs resource || filter_matches rhs resource
  | FNot inner => negb (filter_matches inner resource)
  end.
End Matches.

(** ** The parser always returns *)

Lemma span_app p s : (span p s).1 ++ (span p s).2 = s.
Proof. induction s as [|c s IH]; [done|]. simpl. destruct (p c); [|done]. destruct (span p s). simpl in *. by rewrite IH. Qed.

Lemma span_take p s : take (length (span p s).1) s = (span p s).1.
Proof. rewrite <-(span_app p s) at 2. apply take_app_length. Qed.

Lemma span_length p s : (length (span p s).1 ≤ length s)%nat.
Proof. rewrite <-(span_app p s) at 2. rewrite length_app. lia. Qed.

Section Total.
Context (bytes : text).
Let len := length bytes.

(** A call that returns: either a refusal, or a state at least [m] bytes further on, at the
    same depth. *)
Definition settles {A} (m : nat) (st : PState) (r : parsed A) : Prop :=
  match r with
  | Returned (Ok (_, st')) =>
      (pos st + m ≤ pos st' ≤ len)%nat ∧ depth st' = depth st ∧ in_value_path st' = in_value_path st
  | Returned (Err _) => True
  | Panicked | OutOfFuel => False
  end.

Lemma settles_bind {A B} m m' st (e : parsed A) (k : A → PState → parsed B) : settles m st e →
  (∀ a st1, e = Returned (Ok (a, st1)) → (pos st + m ≤ pos st1 ≤ len)%nat → depth st1 = depth st →
     in_value_path st1 = in_value_path st → settles m' st (k a st1)) →
  settles m' st (let! (a, st1) := e in k a st1).
Proof. destruct e as [[[a st1]|err]| |]; simpl; try done. intros (Hp & Hd & Hv) Hk. by apply Hk. Qed.

Lemma settles_from {A} m m' st st1 (r : parsed A) : settles m' st1 r → (pos st + m ≤ pos st1 + m')%nat →
  depth st1 = depth st → in_value_path st1 = in_value_path st → settles m st r.
Proof.
  destruct r as [[[a st2]|err]| |]; simpl; try done. intros (Hp & Hd & Hv) Hle Hd1 Hv1. split; [lia|]. split; congruence.
Qed.

Lemma skip_spaces_bounds st : (pos st ≤ len)%nat → (pos st ≤ pos (skip_spaces bytes st) ≤ len)%nat.
Proof.
  intros Hp. unfold skip_spaces, at_pos. cbn [pos]. pose proof (span_length (is_char " ") (drop (pos st) bytes)) as Hs.
  rewrite length_drop in Hs. fold len in Hs. lia.
Qed.

Lemma byte_slice_ok from to : (from ≤ to)%nat → (to ≤ len)%nat → byte_slice bytes from to = Returned (take (to - from) (drop from bytes)).
Proof. intros Hft Ht. unfold byte_slice. fold len. by rewrite (proj2 (Nat.leb_le _ _) Hft), (proj2 (Nat.leb_le _ _) Ht). Qed.

(** [peek_word] decides; it never panics. *)
Lemma peek_word_eq word st : (pos st ≤ len)%nat →
  ∃ b, peek_word bytes word st = Returned (Ok (b, skip_spaces bytes st)) ∧
    (b = true → pos (skip_spaces bytes st) + length word ≤ len)%nat.
Proof.
  intros Hp. pose proof (skip_spaces_bounds st Hp). unfold peek_word. fold len.
  destruct (Nat.ltb_spec len (pos (skip_spaces bytes st) + length word)); [by exists false|].
  rewrite byte_slice_ok by lia. destruct (negb _); [by exists false|]. eexists. split; [done|]. lia.
Qed.

Lemma take_word_settles word st : (pos st ≤ len)%nat → settles 0 st (take_word bytes word st).
Proof.
  intros Hp. pose proof (skip_spaces_bounds st Hp). unfold take_word.
  destruct (peek_word_eq word st Hp) as (b & -> & Hb). destruct b; [specialize (Hb eq_refl)|];
    unfold settles, at_pos; cbn [pos depth in_value_path]; (split; [lia|done]).
Qed.

Lemma take_word_true word st st1 : (pos st ≤ len)%nat → take_word bytes word st = Returned (Ok (true, st1)) →
  (pos st + length word ≤ pos st1 ≤ len)%nat ∧ depth st1 = depth st ∧ in_value_path st1 = in_value_path st.
Proof.
  intros Hp. pose proof (skip_spaces_bounds st Hp). unfold take_word.
  destruct (peek_word_eq word st Hp) as (b & -> & Hb). set (st0 := skip_spaces bytes st) in *.
  assert (depth st0 = depth st ∧ in_value_path st0 = in_value_path st) as [Hd Hv] by done. clearbody st0.
  destruct b; intros [= <-]. specialize (Hb eq_refl). unfold at_pos. cbn [pos depth in_value_path]. split; [lia|done].
Qed.

Lemma parse_attr_path_settles st : (pos st ≤ len)%nat → settles 1 st (parse_attr_path bytes st).
Proof.
  intros Hp. pose proof (skip_spaces_bounds st Hp). unfold parse_attr_path. set (st1 := skip_spaces bytes st) in *.
  assert (depth st1 = depth st ∧ in_value_path st1 = in_value_path st) as [Hd Hv] by done. clearbody st1.
  pose proof (span_length is_path_byte (drop (pos st1) bytes)) as Hs. rewrite length_drop in Hs. fold len in Hs.
  set (n := length (span is_path_byte (drop (pos st1) bytes)).1) in *. destruct (Nat.eqb_spec n 0); [exact I|]. rewrite byte_slice_ok by lia.
  destruct (negb _); [exact I|]. destruct (split_path _); simpl; [|exact I]. split; [lia|done].
Qed.

Lemma parse_op_settles ops st : (pos st ≤ len)%nat → settles 0 st (parse_op_from bytes ops st).
Proof.
  revert st. induction ops as [|[word op] ops IH]; intros st Hp; [exact I|]. cbn [parse_op_from].
  eapply settles_bind; [by apply take_word_settles|]. intros [] st1 _ Hst Hd Hv; simpl.
  - split; [lia|done].
  - eapply settles_from; [apply IH; lia|lia|done|done].
Qed.

Lemma parse_number_settles st : (pos st ≤ len)%nat → settles 1 st (parse_number bytes st).
Proof.
  intros Hp. unfold parse_number. pose proof (span_length is_number_byte (drop (pos st) bytes)) as Hs.
  rewrite length_drop in Hs. fold len in Hs. set (n := length (span is_number_byte (drop (pos st) bytes)).1) in *. destruct (Nat.eqb_spec n 0); [exact I|].
  rewrite byte_slice_ok by lia. destruct (negb _); [exact I|]. destruct (parse_f64 _); simpl; [|exact I]. split; [lia|done].
Qed.

Lemma utf8_width_pos c : (1 ≤ utf8_width c)%nat.
Proof. unfold utf8_width. repeat case_match; lia. Qed.

Lemma parse_escape_returns p : match parse_escape bytes p with
  | Returned (Ok (_, p1)) => (p < p1 ≤ len)%nat
  | Returned (Err _) => True
  | Panicked | OutOfFuel => False
  end.
Proof.
  unfold parse_escape. destruct (bytes !! p) as [e|] eqn:He; [|done]. apply lookup_lt_Some in He. fold len in He.
  repeat (destruct (is_char _ e); [simpl; lia|]). 
  destruct (is_char "u" e); [|done]. fold len. destruct (Nat.ltb_spec len (S p + 4)); [done|].
  rewrite byte_slice_ok by lia. destruct (negb _); [done|]. destruct (from_str_radix _ _); [|done].
  destruct (char_from_u32 _); [lia|done].
Qed.

Lemma string_loop_returns fuel : ∀ p out, (p ≤ len)%nat → (len < p + fuel)%nat → match string_loop bytes fuel p out with
  | Returned (Ok (_, p1)) => (p < p1 ≤ len)%nat
  | Returned (Err _) => True
  | Panicked | OutOfFuel => False
  end.
Proof.
  induction fuel as [|n IH]; intros p out Hp Hf; [lia|cbn [string_loop]].
  destruct (bytes !! p) as [c|] eqn:Hc; [|done]. apply lookup_lt_Some in Hc. fold len in Hc.
  destruct (is_char (chr 34) c); [lia|]. destruct (is_char "\" c).
  - pose proof (parse_escape_returns (S p)) as He. destruct (parse_escape bytes (S p)) as [[[ch p1]|err]| |]; try done.
    specialize (IH p1 (out ++ ch) ltac:(lia) ltac:(lia)). destruct (string_loop bytes n p1 (out ++ ch)) as [[[o p2]|]| |]; try done. lia.
  - pose proof (utf8_width_pos c). fold len. destruct (Nat.ltb_spec len (p + utf8_width c)); [done|].
    rewrite byte_slice_ok by lia. destruct (negb _); [done|].
    match goal with |- context [string_loop bytes n ?q ?o] => specialize (IH q o ltac:(lia) ltac:(lia));
      destruct (string_loop bytes n q o) as [[[o' p2]|]| |] end; try done. lia.
Qed.

Lemma parse_value_settles st : (pos st ≤ len)%nat → settles 0 st (parse_value bytes st).
Proof.
  intros Hp. pose proof (skip_spaces_bounds st Hp). unfold parse_value. set (st1 := skip_spaces bytes st) in *.
  assert (depth st1 = depth st ∧ in_value_path st1 = in_value_path st) as [Hd Hv] by done. clearbody st1.
  apply (settles_from 0 0 st st1); [|lia|done|done]. clear Hd Hv.
  destruct (bytes !! pos st1) as [c|] eqn:Hc; [|exact I]. apply lookup_lt_Some in Hc. fold len in Hc. destruct (is_char _ c).
  - unfold parse_string. pose proof (string_loop_returns (S (length bytes)) (S (pos st1)) [] ltac:(lia) ltac:(fold len; lia)) as Hs.
    destruct (string_loop bytes (S (length bytes)) (S (pos st1)) []) as [[[o p1]|]| |]; try done. simpl. split; [lia|done].
  - eapply settles_bind; [by apply take_word_settles; lia|]. intros [] st2 _ ? Hd2 Hv2; [simpl; split; [lia|done]|].
    apply (settles_from 0 0 _ st2); [|lia|exact Hd2|exact Hv2].
    eapply (settles_bind 0 0); [by apply take_word_settles; lia|]. intros [] st3 _ ? Hd3 Hv3; [simpl; split; [lia|done]|].
    apply (settles_from 0 0 _ st3); [|lia|exact Hd3|exact Hv3].
    eapply (settles_bind 0 0); [by apply take_word_settles; lia|]. intros [] st4 _ ? Hd4 Hv4; [simpl; split; [lia|done]|].
    eapply settles_from; [apply parse_number_settles; lia|lia|exact Hd4|exact Hv4].
Qed.

(** The fuel each function needs, for [r] bytes that are left. *)
Definition enough (fuel k : nat) (st : PState) : Prop := (8 * (len - pos st) + k ≤ fuel)%nat.

Lemma parse_settles fuel :
  (∀ st, (pos st ≤ len)%nat → enough fuel 8 st → settles 0 st (parse_or bytes fuel st)) ∧
  (∀ lhs st, (pos st ≤ len)%nat → enough fuel 1 st → settles 0 st (or_loop bytes fuel lhs st)) ∧
  (∀ st, (pos st ≤ len)%nat → enough fuel 7 st → settles 0 st (parse_and bytes fuel st)) ∧
  (∀ lhs st, (pos st ≤ len)%nat → enough fuel 1 st → settles 0 st (and_loop bytes fuel lhs st)) ∧
  (∀ st, (pos st ≤ len)%nat → enough fuel 6 st → settles 0 st (parse_unary bytes fuel st)) ∧
  (∀ st, (pos st ≤ len)%nat → enough fuel 5 st → settles 0 st (parse_group bytes fuel st)) ∧
  (∀ st, (pos st ≤ len)%nat → enough fuel 5 st → settles 0 st (parse_compare bytes fuel st)) ∧
  (∀ path st, (pos st < len)%nat → enough fuel 4 st → settles 0 st (parse_value_path bytes fuel path st)).
Proof.
  unfold enough. induction fuel as [|n (IHor & IHol & IHand & IHal & IHun & IHgr & IHcm & IHvp)].
  { split_and!; intros; lia. }
  split_and!.
  - intros st Hp Hf. cbn [parse_or]. eapply settles_bind; [apply IHand; lia|]. intros lhs st1 _ ? Hd Hv.
    eapply settles_from; [apply IHol; lia|lia|done|done].
  - intros lhs st Hp Hf. cbn [or_loop]. eapply settles_bind; [by apply take_word_settles|].
    intros [] st1 Ht ? Hd Hv; [|cbn [settles]; split; [lia|done]]. apply take_word_true in Ht as [Ht _]; [|done]. simpl length in Ht.
    apply (settles_from 0 0 st st1); [|lia|done|done]. eapply settles_bind; [apply IHand; lia|]. intros rhs st2 _ ? Hd2 Hv2.
    eapply settles_from; [apply IHol; lia|lia|done|done].
  - intros st Hp Hf. cbn [parse_and]. eapply settles_bind; [apply IHun; lia|]. intros lhs st1 _ ? Hd Hv.
    eapply settles_from; [apply IHal; lia|lia|done|done].
  - intros lhs st Hp Hf. cbn [and_loop]. eapply settles_bind; [by apply take_word_settles|].
    intros [] st1 Ht ? Hd Hv; [|cbn [settles]; split; [lia|done]]. apply take_word_true in Ht as [Ht _]; [|done]. simpl length in Ht.
    apply (settles_from 0 0 st st1); [|lia|done|done]. eapply settles_bind; [apply IHun; lia|]. intros rhs st2 _ ? Hd2 Hv2.
    eapply settles_from; [apply IHal; lia|lia|done|done].
  - intros st Hp Hf. cbn [parse_unary]. eapply settles_bind; [by apply take_word_settles|]. intros b st1 _ Hst Hd Hv.
    pose proof (skip_spaces_bounds st1 ltac:(lia)). apply (settles_from 0 0 st (skip_spaces bytes st1)); [|lia|done|done]. destruct b.
    + eapply settles_bind; [apply IHgr; lia|]. intros inner st2 _ ? Hd2 Hv2. cbn [settles]. split; [lia|done].
    + case_bool_decide; [apply IHgr; lia|apply IHcm; lia].
  - intros st Hp Hf. cbn [parse_group]. pose proof (skip_spaces_bounds st Hp). set (st1 := skip_spaces bytes st) in *.
    assert (depth st1 = depth st ∧ in_value_path st1 = in_value_path st) as [Hd Hv] by done. clearbody st1.
    apply (settles_from 0 0 st st1); [|lia|done|done]. case_bool_decide as Hopen; [|exact I]. apply lookup_lt_Some in Hopen. fold len in Hopen.
    cbn [negb]. destruct (_ <? _)%nat; [exact I|].
    pose proof (IHor (deeper st1) ltac:(simpl; lia) ltac:(simpl; lia)) as Hor.
    destruct (parse_or bytes n (deeper st1)) as [[[inner st2]|]| |]; try done. destruct Hor as (Hp2 & Hd2 & Hv2). simpl in Hp2, Hd2, Hv2.
    pose proof (skip_spaces_bounds st2 ltac:(lia)). case_bool_decide as Hclose; [|exact I]. apply lookup_lt_Some in Hclose. fold len in Hclose.
    cbn [negb settles pos depth in_value_path]. unfold skip_spaces, at_pos in *. cbn [depth in_value_path pos] in *. split; [lia|]. split; [lia|done].
  - intros st Hp Hf. cbn [parse_compare]. eapply settles_bind; [by apply parse_attr_path_settles|]. intros path st1 _ ? Hd Hv.
    case_bool_decide as Hopen.
    { apply lookup_lt_Some in Hopen. eapply settles_from; [apply IHvp; [done|lia]|lia|done|done]. }
    pose proof (skip_spaces_bounds st1 ltac:(lia)).
    apply (settles_from 0 0 st (skip_spaces bytes st1)); [|lia|done|done].
    eapply settles_bind; [apply take_word_settles; lia|]. intros [] st2 _ ? Hd2 Hv2; [cbn [settles]; split; [lia|done]|].
    apply (settles_from 0 0 _ st2); [|lia|done|done]. eapply settles_bind; [apply parse_op_settles; lia|]. intros op st3 _ ? Hd3 Hv3.
    pose proof (skip_spaces_bounds st3 ltac:(lia)). apply (settles_from 0 0 _ (skip_spaces bytes st3)); [|lia|done|done].
    eapply settles_bind; [apply parse_value_settles; lia|]. intros value st4 _ ? Hd4 Hv4. cbn [settles]. split; [lia|done].
  - intros path st Hp Hf. cbn [parse_value_path]. destruct (in_value_path st) eqn:Hv; [exact I|]. destruct (_ <? _)%nat; [exact I|].
    pose proof (IHor (mkPState (S (pos st)) (S (depth st)) true) ltac:(simpl; lia) ltac:(simpl; lia)) as Hor.
    destruct (parse_or bytes n _) as [[[inner st2]|]| |]; try done. destruct Hor as (Hp2 & Hd2 & Hv2). simpl in Hp2, Hd2, Hv2.
    pose proof (skip_spaces_bounds (mkPState (pos st2) (depth st2) false) ltac:(simpl; lia)) as Hsk.
    case_bool_decide as Hclose; [|exact I]. apply lookup_lt_Some in Hclose. fold len in Hclose.
    cbn [negb settles pos depth in_value_path]. unfold skip_spaces, at_pos in *. cbn [depth in_value_path pos] in *. split; [lia|]. split; [lia|done].
Qed.
End Total.

(** The filter parser returns on every text: the recursion ends within its fuel
    and no slice is out of range, so a query string can neither hang nor crash it. *)
Theorem parse_filter_total input : ∃ r, parse_filter input = Returned r.
Proof.
  unfold parse_filter. destruct (_ <? _)%nat; [by eexists|].
  destruct (parse_settles input (filter_fuel input)) as [Hor _]. specialize (Hor (mkPState 0 0 false) ltac:(simpl; lia)).
  unfold enough, filter_fuel in Hor. simpl pos in Hor. specialize (Hor ltac:(lia)).
  destruct (parse_or input _ _) as [[[f st]|e]| |]; try done; [|by eexists]. destruct (negb _); by eexists.
Qed.

(** ** What a parsed filter is made of *)

(** The characters of a name, and of a sub-attribute. *)
Definition is_name_char (c : ascii) : bool := is_ascii_alphanumeric c || is_char "_" c || is_char "-" c || is_char "$" c.

Definition path_ok (p : AttributePath) : Prop :=
  path_name p ≠ [] ∧ Forall (λ c, is_name_char c = true) (path_name p) ∧
  (∀ u, path_urn p = Some u → Forall (λ c, is_path_byte c = true) u) ∧
  (∀ s, path_sub p = Some s → s ≠ [] ∧ Forall (λ c, is_name_char c = true ∨ c = ".") s).

Definition literal_ok (l : FilterLiteral) : Prop := match l with LString s => from_utf8 s = true | _ => True end.

Fixpoint filter_ok (f : Filter) : Prop :=
  match f with
  | Compare p _ l => path_ok p ∧ literal_ok l
  | Present p => path_ok p
  | ValuePath p f => path_ok p ∧ filter_ok f
  | FAnd l r | FOr l r => filter_ok l ∧ filter_ok r
  | FNot f => filter_ok f
  end.

(** The nesting of negations and value paths, each of which needs a bracket. *)
Fixpoint nesting (f : Filter) : nat :=
  match f with
  | Compare _ _ _ | Present _ => 0
  | ValuePath _ f | FNot f => S (nesting f)
  | FAnd l r | FOr l r => Nat.max (nesting l) (nesting r)
  end.

(** No value path; none inside another. *)
Fixpoint value_path_free (f : Filter) : Prop :=
  match f with
  | Compare _ _ _ | Present _ => True
  | ValuePath _ _ => False
  | FAnd l r | FOr l r => value_path_free l ∧ value_path_free r
  | FNot f => value_path_free f
  end.

Fixpoint value_paths_flat (f : Filter) : Prop :=
  match f with
  | Compare _ _ _ | Present _ => True
  | ValuePath _ f => value_path_free f
  | FAnd l r | FOr l r => value_paths_flat l ∧ value_paths_flat r
  | FNot f => value_paths_flat f
  end.

Lemma value_path_free_flat f : value_path_free f → value_paths_flat f.
Proof. induction f; simpl; tauto. Qed.

Lemma span_Forall p s : Forall (λ c, p c = true) (span p s).1.
Proof.
  induction s as [|c s IH]; [constructor|]. simpl. destruct (p c) eqn:Hc; [|constructor]. destruct (span p s). by constructor.
Qed.

Lemma is_path_byte_name c : is_path_byte c = true → c ≠ "." → c ≠ ":" → is_name_char c = true.
Proof.
  unfold is_path_byte, is_name_char. intros H H1 H2. rewrite !orb_true_iff, !is_char_true in *. naive_solver.
Qed.

Lemma rfind_char_Some c s i : rfind_char c s = Some i → s = take i s ++ c :: drop (S i) s ∧ c ∉ drop (S i) s.
Proof.
  unfold rfind_char. destruct (find_char (is_char c) (reverse s)) as [j|] eqn:Hf; [|done]. intros [= <-].
  apply find_char_Some in Hf as (d & Hd & Hc & Hbefore). apply is_char_true in Hc as ->.
  set (a := take j (reverse s)) in *. set (b := drop (S j) (reverse s)) in *.
  assert (s = reverse b ++ c :: reverse a) as Hs.
  { rewrite <-(reverse_involutive s), Hd, reverse_app, reverse_cons, <-app_assoc. done. }
  assert ((length s - S j)%nat = length (reverse b)) as ->.
  { rewrite length_reverse. unfold b. rewrite length_drop, length_reverse. done. }
  assert (take (length (reverse b)) s = reverse b ∧ drop (S (length (reverse b))) s = reverse a) as [-> ->].
  { split; [rewrite Hs at 1; by rewrite take_app_length|]. rewrite Hs at 1.
    by rewrite drop_past. }
  split; [done|]. rewrite elem_of_reverse. intros Hin. rewrite Forall_forall in Hbefore. apply Hbefore in Hin.
  by rewrite (proj2 (is_char_true c c) eq_refl) in Hin.
Qed.

Lemma rfind_char_None c s : rfind_char c s = None → c ∉ s.
Proof.
  unfold rfind_char. destruct (find_char (is_char c) (reverse s)) as [j|] eqn:Hf; [done|]. intros _ Hin.
  apply find_char_None in Hf. rewrite Forall_forall in Hf. apply elem_of_reverse, Hf in Hin.
  by rewrite (proj2 (is_char_true c c) eq_refl) in Hin.
Qed.

Lemma rfind_char_app c a b : c ∉ b → rfind_char c (a ++ c :: b) = Some (length a).
Proof.
  intros Hin. unfold rfind_char. rewrite reverse_app, reverse_cons, <-app_assoc. simpl.
  rewrite find_char_at by (by rewrite elem_of_reverse). simpl. f_equal. rewrite length_app, length_reverse. simpl. lia.
Qed.

Lemma rfind_char_absent c s : c ∉ s → rfind_char c s = None.
Proof. intros Hin. unfold rfind_char. by rewrite find_char_absent by (by rewrite elem_of_reverse). Qed.

Lemma split_path_ok raw p : Forall (λ c, is_path_byte c = true) raw → split_path raw = Some p → path_ok p.
Proof.
  intros Hraw. unfold split_path.
  assert (∀ rest urn, Forall (λ c, is_path_byte c = true) rest → (":" ∉ rest) →
    (∀ u, urn = Some u → Forall (λ c, is_path_byte c = true) u) →
    (let '(name, sub) := match split_once "." rest with Some (name, sub) => (name, Some sub) | None => (rest, None) end in
     if bool_decide (name = []) || bool_decide (sub = Some []) then None else Some (mkAttributePath urn name sub)) = Some p →
    path_ok p) as Hrest.
  { intros rest urn Hb Hcolon Hurn. rewrite Forall_forall in Hb.
    destruct (split_once "." rest) as [[name sub]|] eqn:Hs.
    - apply split_once_Some in Hs as [-> Hdot]. case_bool_decide as Hn; [done|]. case_bool_decide as Hsub; [done|].
      intros [= <-]. split; [done|]. simpl. split; [|split; [done|]].
      + apply Forall_forall. intros c Hc. apply is_path_byte_name; [apply Hb; set_solver|set_solver|set_solver].
      + intros s [= <-]. split; [congruence|]. apply Forall_forall. intros c Hc. destruct (decide (c = ".")); [by right|left].
        apply is_path_byte_name; [apply Hb; set_solver|done|set_solver].
    - apply split_once_None in Hs. case_bool_decide as Hn; [done|]. simpl. intros [= <-]. split; [done|]. simpl.
      split; [|split; [done|done]]. apply Forall_forall. intros c Hc. apply is_path_byte_name; [by apply Hb|set_solver|set_solver]. }
  destruct (rfind_char ":" raw) as [i|] eqn:Hr.
  - apply rfind_char_Some in Hr as [Hs Hcolon]. apply Hrest; [|done|].
    + rewrite Hs in Hraw. apply Forall_app in Hraw as [_ Hraw]. by apply Forall_cons in Hraw as [_ Hraw].
    + intros u [= <-]. by apply Forall_take.
  - apply rfind_char_None in Hr. by apply Hrest.
Qed.

Lemma char_from_u32_utf8 n c : (0 ≤ n)%Z → char_from_u32 n = Some c → from_utf8 c = true.
Proof.
  intros Hn. unfold char_from_u32. destruct (_ || _) eqn:Hr; [done|]. intros [= <-].
  apply orb_false_iff in Hr as [Hs Hmax%Z.ltb_ge]. apply andb_false_iff in Hs. rewrite !Z.leb_gt in Hs.
  assert (∃ w x y z, n / 262144 = w ∧ (n / 4096) mod 64 = x ∧ (n / 64) mod 64 = y ∧ n mod 64 = z ∧
    n = 262144 * w + 4096 * x + 64 * y + z ∧ 0 ≤ w ∧ 0 ≤ x < 64 ∧ 0 ≤ y < 64 ∧ 0 ≤ z < 64)%Z
    as (w & x & y & z & Hw & Hx & Hy & Hz & Hsum & ? & ? & ? & ?).
  { exists (n / 262144)%Z, ((n / 4096) mod 64)%Z, ((n / 64) mod 64)%Z, (n mod 64)%Z.
    split_and!; try done; Z.to_euclidean_division_equations; lia. }
  assert (w = 0 → n / 4096 = x)%Z as Hx' by (intros; Z.to_euclidean_division_equations; lia).
  assert (w = 0 → x = 0 → n / 64 = y)%Z as Hy' by (intros; Z.to_euclidean_division_equations; lia).
  rewrite ?Hw, ?Hx, ?Hy, ?Hz. clear Hw Hx Hy Hz.
  destruct (Z.ltb_spec n 0x80); [|destruct (Z.ltb_spec n 0x800); [|destruct (Z.ltb_spec n 0x10000)]]; cbn [from_utf8];
    unfold utf8_two, utf8_three, utf8_four, is_continuation; rewrite ?Hx', ?Hy' by lia; clear Hx' Hy'; rewrite !between_chr by lia;
    repeat match goal with |- context [(?a <=? ?b)%Z] => destruct (Z.leb_spec a b); try (exfalso; lia); cbn [andb orb] end;
    reflexivity.
Qed.

Lemma from_str_radix_nonneg radix s n : (0 ≤ radix)%Z → from_str_radix radix s = Some n → (0 ≤ n)%Z.
Proof.
  intros Hr. unfold from_str_radix. set (ds := match s with [] => [] | c :: rest => _ end). destruct ds as [|d ds]; [done|].
  generalize (d :: ds). clear d ds. assert (∀ l acc m, (∀ a, acc = Some a → 0 ≤ a)%Z →
    foldl (λ acc c, a ← acc; d ← to_digit radix c; let v := (a * radix + d)%Z in if (v <=? U32_MAX)%Z then Some v else None) acc l
      = Some m → (0 ≤ m)%Z) as Hfold.
  { induction l as [|c l IH]; intros acc m Hacc; simpl; [apply Hacc|]. apply IH. intros a Ha. destruct acc as [a0|]; [|done]. simpl in Ha.
    destruct (to_digit radix c) as [d|] eqn:Hd; [|done]. simpl in Ha. apply to_digit_range in Hd. destruct (_ <=? _)%Z; [|done].
    injection Ha as <-. specialize (Hacc a0 eq_refl). nia. }
  intros l. apply Hfold. by intros a [= <-].
Qed.

Section Shape.
Context (bytes : text).

(** The parts of the parser that move the offset only. *)
Definition frames {A} (st : PState) (Q : A → Prop) (r : parsed A) : Prop :=
  match r with
  | Returned (Ok (a, st')) => depth st' = depth st ∧ in_value_path st' = in_value_path st ∧ Q a
  | _ => True
  end.

Lemma frames_bind {A B} st (Q : A → Prop) (R : B → Prop) (e : parsed A) (k : A → PState → parsed B) : frames st Q e →
  (∀ a st1, depth st1 = depth st → in_value_path st1 = in_value_path st → Q a → frames st R (k a st1)) →
  frames st R (let! (a, st1) := e in k a st1).
Proof. destruct e as [[[a st1]|err]| |]; simpl; try done. intros (Hd & Hv & HQ) Hk. by apply Hk. Qed.

Lemma frames_from {A} st st1 (Q : A → Prop) r : frames st1 Q r → depth st1 = depth st → in_value_path st1 = in_value_path st →
  frames st Q r.
Proof. destruct r as [[[a st2]|err]| |]; simpl; try done. intros (? & ? & ?) <- <-. done. Qed.

Lemma take_word_frames word st : frames st (λ _, True) (take_word bytes word st).
Proof.
  unfold take_word, peek_word. destruct (_ <? _)%nat; [done|]. destruct (byte_slice _ _ _); [|done..].
  destruct (negb _); [done|]. by destruct (match _ with None => true | Some _ => _ end).
Qed.

Lemma parse_attr_path_frames st : frames st path_ok (parse_attr_path bytes st).
Proof.
  unfold parse_attr_path. set (st1 := skip_spaces bytes st).
  assert (depth st1 = depth st ∧ in_value_path st1 = in_value_path st) as [Hd Hv] by done. clearbody st1.
  destruct (_ =? 0)%nat; [done|].
  destruct (byte_slice bytes _ _) as [raw| |] eqn:Hs; [|done..]. destruct (negb _); [done|].
  destruct (split_path raw) as [p|] eqn:Hp; [|done]. split; [done|]. split; [done|]. eapply split_path_ok; [clear Hp|exact Hp].
  unfold byte_slice in Hs. destruct (_ && _); [|done]. injection Hs as <-.
  rewrite Nat.add_comm, Nat.add_sub, span_take. apply span_Forall.
Qed.

Lemma parse_op_frames ops st : frames st (λ _, True) (parse_op_from bytes ops st).
Proof.
  revert st. induction ops as [|[word op] ops IH]; intros st; [done|]. cbn [parse_op_from].
  eapply frames_bind; [apply take_word_frames|]. intros [] st1 Hd Hv _; [done|]. by eapply frames_from; [apply IH| |].
Qed.


Lemma parse_escape_utf8 p c p1 : parse_escape bytes p = Returned (Ok (c, p1)) → from_utf8 c = true.
Proof.
  unfold parse_escape. destruct (bytes !! p) as [e|]; [|done].
  repeat (destruct (is_char _ e); [intros [= <- <-]; reflexivity|]).
  destruct (is_char "u" e); [|discriminate]. destruct (_ <? _)%nat; [done|]. destruct (byte_slice _ _ _) as [hex| |]; [|done..].
  destruct (negb _); [done|]. destruct (from_str_radix 16 hex) as [n|] eqn:Hn; [|done].
  destruct (char_from_u32 n) as [ch|] eqn:Hc; [|done]. intros [= <- <-]. eapply char_from_u32_utf8; [|exact Hc].
  by eapply from_str_radix_nonneg; [|exact Hn].
Qed.

Lemma string_loop_utf8 fuel : ∀ p out s p1, from_utf8 out = true → string_loop bytes fuel p out = Returned (Ok (s, p1)) → from_utf8 s = true.
Proof.
  induction fuel as [|n IH]; intros p out s p1 Hout; [done|]. cbn [string_loop]. destruct (bytes !! p) as [c|]; [|done].
  destruct (is_char (chr 34) c); [by intros [= <- <-]|]. destruct (is_char "\" c).
  - destruct (parse_escape bytes (S p)) as [[[ch p2]|]| |] eqn:He; [|done..]. apply IH. apply parse_escape_utf8 in He.
    by rewrite from_utf8_app.
  - destruct (_ <? _)%nat; [done|]. destruct (byte_slice _ _ _) as [t| |]; [|done..]. destruct (from_utf8 t) eqn:Ht; [|done].
    apply IH. by rewrite from_utf8_app.
Qed.

Lemma parse_value_frames st : frames st literal_ok (parse_value bytes st).
Proof.
  unfold parse_value. set (st1 := skip_spaces bytes st).
  assert (depth st1 = depth st ∧ in_value_path st1 = in_value_path st) as [Hd Hv] by done. clearbody st1.
  apply (frames_from st st1); [|done|done]. destruct (bytes !! pos st1) as [c|]; [|done]. destruct (is_char _ c).
  - unfold parse_string. destruct (string_loop _ _ _ _) as [[[s p1]|]| |] eqn:Hs; [|done..]. split; [done|]. split; [done|].
    by eapply string_loop_utf8; [|exact Hs].
  - eapply frames_bind; [apply take_word_frames|]. intros [] st2 Hd2 Hv2 _; [done|]. apply (frames_from _ st2); [|done|done].
    eapply frames_bind; [apply take_word_frames|]. intros [] st3 Hd3 Hv3 _; [done|]. apply (frames_from _ st3); [|done|done].
    eapply frames_bind; [apply take_word_frames|]. intros [] st4 Hd4 Hv4 _; [done|]. apply (frames_from _ st4); [|done|done].
    unfold parse_number. destruct (_ =? 0)%nat; [done|]. destruct (byte_slice _ _ _); [|done..]. destruct (negb _); [done|].
    by destruct (parse_f64 _).
Qed.

(** A filter that fits at a depth, inside or outside a value path. *)
Definition good (d : nat) (inside : bool) (f : Filter) : Prop :=
  filter_ok f ∧ (d + nesting f ≤ FILTER_MAX_DEPTH)%nat ∧ if inside then value_path_free f else value_paths_flat f.

Lemma good_binary d v l r : good d v l → good d v r → good d v (FAnd l r) ∧ good d v (FOr l r).
Proof. intros (? & ? & ?) (? & ? & ?). unfold good. simpl. destruct v; split_and!; try done; lia. Qed.

Lemma good_less d v f : good (S d) v f → good d v f.
Proof. intros (? & ? & ?). split; [done|]. split; [lia|done]. Qed.

Lemma parse_shape fuel : ∀ st, (depth st ≤ FILTER_MAX_DEPTH)%nat →
  let G := good (depth st) (in_value_path st) in
  frames st G (parse_or bytes fuel st) ∧ (∀ lhs, G lhs → frames st G (or_loop bytes fuel lhs st)) ∧
  frames st G (parse_and bytes fuel st) ∧ (∀ lhs, G lhs → frames st G (and_loop bytes fuel lhs st)) ∧
  frames st G (parse_unary bytes fuel st) ∧ frames st (good (S (depth st)) (in_value_path st)) (parse_group bytes fuel st) ∧
  frames st G (parse_compare bytes fuel st) ∧ (∀ path, path_ok path → frames st G (parse_value_path bytes fuel path st)).
Proof.
  induction fuel as [|n IH]; intros st Hdep G; [by split_and!|].
  assert (∀ st1, depth st1 = depth st → in_value_path st1 = in_value_path st →
    frames st G (parse_or bytes n st1) ∧ (∀ lhs, G lhs → frames st G (or_loop bytes n lhs st1)) ∧
    frames st G (parse_and bytes n st1) ∧ (∀ lhs, G lhs → frames st G (and_loop bytes n lhs st1)) ∧
    frames st G (parse_unary bytes n st1) ∧ frames st (good (S (depth st)) (in_value_path st)) (parse_group bytes n st1) ∧
    frames st G (parse_compare bytes n st1) ∧ (∀ path, path_ok path → frames st G (parse_value_path bytes n path st1))) as IH1.
  { intros st1 Hd Hv. destruct (IH st1 ltac:(lia)) as (H1 & H2 & H3 & H4 & H5 & H6 & H7 & H8). unfold G. rewrite <-Hd, <-Hv.
    split_and!; intros; eapply frames_from; eauto. }
  split_and!.
  - cbn [parse_or]. eapply frames_bind; [apply IH1; done|]. intros lhs st1 Hd Hv Hl. by apply IH1.
  - intros lhs Hl. cbn [or_loop]. eapply frames_bind; [apply take_word_frames|]. intros [] st1 Hd Hv _; [|done].
    eapply frames_bind; [by apply IH1|]. intros rhs st2 Hd2 Hv2 Hr. apply IH1; [done|done|]. by apply good_binary.
  - cbn [parse_and]. eapply frames_bind; [apply IH1; done|]. intros lhs st1 Hd Hv Hl. by apply IH1.
  - intros lhs Hl. cbn [and_loop]. eapply frames_bind; [apply take_word_frames|]. intros [] st1 Hd Hv _; [|done].
    eapply frames_bind; [by apply IH1|]. intros rhs st2 Hd2 Hv2 Hr. apply IH1; [done|done|]. by apply good_binary.
  - cbn [parse_unary]. eapply frames_bind; [apply take_word_frames|]. intros [] st1 Hd Hv _.
    + eapply frames_bind; [apply IH1; done|]. intros inner st2 Hd2 Hv2 (Hok & Hn & Hvp). split; [done|]. split; [done|].
      split; [done|]. split; [simpl; lia|]. by destruct (in_value_path st).
    + case_bool_decide; [|by apply IH1]. pose proof (IH1 (skip_spaces bytes st1) Hd Hv) as (_ & _ & _ & _ & _ & Hg & _).
      destruct (parse_group bytes n _) as [[[f st2]|]| |]; try done. destruct Hg as (? & ? & ?). split; [done|]. split; [done|].
      by apply good_less.
  - cbn [parse_group]. destruct (negb _); [done|].
    destruct (Nat.ltb_spec FILTER_MAX_DEPTH (S (depth (skip_spaces bytes st)))) as [|Hle]; [done|].
    destruct (IH (deeper (skip_spaces bytes st)) ltac:(exact Hle)) as [Hor _].
    destruct (parse_or bytes n _) as [[[f st2]|]| |]; try done. destruct Hor as (Hd & Hv & Hg). cbn [deeper depth in_value_path] in Hd, Hv, Hg.
    destruct (negb _); [done|]. split; [|split; [exact Hv|exact Hg]]. cbn [depth].
    change (depth (skip_spaces bytes st2)) with (depth st2). change (depth (skip_spaces bytes st)) with (depth st) in Hd. lia.
  - cbn [parse_compare]. eapply frames_bind; [apply parse_attr_path_frames|]. intros path st1 Hd Hv Hp. case_bool_decide.
    { by apply IH1. }
    eapply frames_bind; [apply (frames_from st (skip_spaces bytes st1)); [apply take_word_frames|done|done]|].
    intros [] st2 Hd2 Hv2 _.
    + split; [done|]. split; [done|]. split; [done|]. split; [simpl; lia|]. by destruct (in_value_path st).
    + eapply frames_bind; [apply (frames_from st st2); [apply parse_op_frames|done|done]|]. intros op st3 Hd3 Hv3 _.
      eapply frames_bind; [apply (frames_from st (skip_spaces bytes st3)); [apply parse_value_frames|done|done]|].
      intros value st4 Hd4 Hv4 Hl. split; [done|]. split; [done|]. split; [done|]. split; [simpl; lia|]. by destruct (in_value_path st).
  - intros path Hp. cbn [parse_value_path]. destruct (in_value_path st) eqn:Hv; [done|].
    destruct (Nat.ltb_spec FILTER_MAX_DEPTH (S (depth st))) as [|Hle]; [done|].
    destruct (IH (mkPState (S (pos st)) (S (depth st)) true) ltac:(exact Hle)) as [Hor _].
    destruct (parse_or bytes n _) as [[[f st2]|]| |]; try done. destruct Hor as (Hd & _ & (Hok & Hn & Hfree)). cbn [depth in_value_path] in Hd, Hn, Hfree.
    destruct (negb _); [done|]. split; [|split; [cbn [in_value_path]; by rewrite Hv|]].
    + cbn [depth]. change (depth (skip_spaces bytes (mkPState (pos st2) (depth st2) false))) with (depth st2). lia.
    + split; [done|]. split; [simpl; lia|]. exact Hfree.
Qed.
End Shape.

(** Whatever text a client sends, an accepted filter holds only what the grammar
    allows: every attribute name is a non-empty word of letters, digits, [_], [-] and [$],
    every string literal is valid UTF-8, no value path is inside another, and
    negations and value paths nest at most twenty deep. *)
Theorem parsed_filter_shape input f (Hparse : parse_filter input = Returned (Ok f)) :
  filter_ok f ∧ (nesting f ≤ FILTER_MAX_DEPTH)%nat ∧ value_paths_flat f.
Proof.
  unfold parse_filter in Hparse. destruct (_ <? _)%nat; [done|].
  destruct (parse_shape input (filter_fuel input) (mkPState 0 0 false)) as [Hor _]; [unfold FILTER_MAX_DEPTH; simpl; lia|].
  destruct (parse_or input _ _) as [[[g st]|e]| |]; try done. destruct (negb _); [done|]. injection Hparse as ->.
  destruct Hor as (_ & _ & Hg). exact Hg.
Qed.

Lemma parsed_filter_shape_witness : ∃ f,
  parse_filter (lit "emails[type eq true and not (value pr)] or urn:x:a.b le -1.5e2") = Returned (Ok f) ∧
  filter_ok f ∧ nesting f = 2%nat ∧ value_paths_flat f.
Proof.
  eexists. assert (parse_filter (lit "emails[type eq true and not (value pr)] or urn:x:a.b le -1.5e2") = Returned (Ok _)) as Hp
    by (vm_compute; reflexivity).
  split; [exact Hp|]. destruct (parsed_filter_shape _ _ Hp) as (Hok & _ & Hflat). split; [exact Hok|]. split; [reflexivity|exact Hflat].
Defined.
