(* ===== verification/ScimGrammar.v ===== *)
(** * The filter grammar

    The grammar of RFC 7644 filters as a relation between texts and filters, and the theorem that
    [ScimFilter.parse_filter] reads every text of it as the filter the grammar gives: [and]
    binds tighter than [or], both associate to the left, keywords are read in any case,
    and any number of spaces separates them.  A state of the parser is described by the
    text that is left ([rest]); the recursion is followed with as much fuel as it takes
    ([becomes]), and [more_fuel] turns that into the fuel that [parse_filter] gives.
    The last section is about evaluation: the case of names does not matter to it. *)

From S2P Require Import Prelude Machine Float Text Json ScimFilter.

Local Open Scope char_scope.

(** ** The grammar *)

Definition blanks (s : text) : Prop := Forall (λ c, c = " ") s.
Definition gap (s : text) : Prop := s ≠ [] ∧ blanks s.

(** A keyword, in any case. *)
Definition keyword (word w : text) : Prop := eq_ignore_ascii_case w word = true.

Definition path_text (p : AttributePath) : text :=
  match path_urn p with Some u => u ++ [":"] | None => [] end ++ path_name p ++
  match path_sub p with Some s => "." :: s | None => [] end.

Definition ESCAPES : list (ascii * ascii) :=
  [(chr 34, chr 34); ("\", "\"); ("/", "/"); ("n", chr 10); ("t", chr 9); ("r", chr 13); ("b", chr 8); ("f", chr 12)].

(** The text between the quotes of a string, and the string. *)
Inductive string_text : text → text → Prop :=
| string_end : string_text [] []
| string_character c cs t s : is_char (chr 34) c = false → is_char "\" c = false → from_utf8 (c :: cs) = true →
    length (c :: cs) = utf8_width c → string_text t s → string_text (c :: cs ++ t) (c :: cs ++ s)
| string_escape e c t s : (e, c) ∈ ESCAPES → string_text t s → string_text ("\" :: e :: t) (c :: s)
| string_unicode a b c d v w x y ch t s : to_digit 16 a = Some v → to_digit 16 b = Some w → to_digit 16 c = Some x →
    to_digit 16 d = Some y → char_from_u32 (4096 * v + 256 * w + 16 * x + y) = Some ch → string_text t s →
    string_text ("\" :: "u" :: a :: b :: c :: d :: t) (ch ++ s).

Inductive literal_text : text → FilterLiteral → Prop :=
| text_true w : keyword (lit "true") w → literal_text w (LBoolean true)
| text_false w : keyword (lit "false") w → literal_text w (LBoolean false)
| text_null w : keyword (lit "null") w → literal_text w LNull
| text_number t x : Forall (λ c, is_number_byte c = true) t → parse_f64 t = Some x → literal_text t (LNumber x)
| text_string t s : string_text t s → literal_text (chr 34 :: t ++ [chr 34]) (LString s).

Inductive Level : Set := AtOr | AtAnd | AtUnary.

(** A text of the grammar, below [d] brackets, inside a value path or not. *)
Inductive renders : nat → bool → Level → text → Filter → Prop :=
| renders_or d v a l g1 w g2 b r : renders d v AtOr a l → gap g1 → keyword (lit "or") w → gap g2 → renders d v AtAnd b r →
    renders d v AtOr (a ++ g1 ++ w ++ g2 ++ b) (FOr l r)
| renders_and d v a l g1 w g2 b r : renders d v AtAnd a l → gap g1 → keyword (lit "and") w → gap g2 →
    renders d v AtUnary b r → renders d v AtAnd (a ++ g1 ++ w ++ g2 ++ b) (FAnd l r)
| renders_one_and d v a f : renders d v AtAnd a f → renders d v AtOr a f
| renders_unary d v a f : renders d v AtUnary a f → renders d v AtAnd a f
| renders_not d v w g a f : keyword (lit "not") w → blanks g → renders_group d v a f → renders d v AtUnary (w ++ g ++ a) (FNot f)
| renders_bracket d v a f : renders_group d v a f → renders d v AtUnary a f
| renders_present d v p g w : path_ok p → eq_ignore_ascii_case (path_text p) (lit "not") = false → gap g →
    keyword (lit "pr") w → renders d v AtUnary (path_text p ++ g ++ w) (Present p)
| renders_compare d v p g1 word w op g2 t l : path_ok p → eq_ignore_ascii_case (path_text p) (lit "not") = false → gap g1 →
    (word, op) ∈ OPERATORS → keyword word w → gap g2 → literal_text t l →
    renders d v AtUnary (path_text p ++ g1 ++ w ++ g2 ++ t) (Compare p op l)
| renders_value_path d p b1 a b2 f : path_ok p → (S d ≤ FILTER_MAX_DEPTH)%nat → blanks b1 → blanks b2 →
    renders (S d) true AtOr a f → renders d false AtUnary (path_text p ++ "[" :: b1 ++ a ++ b2 ++ ["]"]) (ValuePath p f)

with renders_group : nat → bool → text → Filter → Prop :=
| group_text d v b1 a b2 f : (S d ≤ FILTER_MAX_DEPTH)%nat → blanks b1 → blanks b2 → renders (S d) v AtOr a f →
    renders_group d v ("(" :: b1 ++ a ++ b2 ++ [")"]) f.

Scheme renders_mut := Induction for renders Sort Prop
with renders_group_mut := Induction for renders_group Sort Prop.

(** ** Fuel *)

Definition extends {A} (r r' : Run A) : Prop := ∀ x, r = Returned x → r' = Returned x.

Lemma extends_refl {A} (r : Run A) : extends r r.
Proof. by intros x. Qed.

Lemma extends_bind {A B} (e e' : Run (Result (A * PState) FilterError)) (k k' : A → PState → Run (Result (B * PState) FilterError)) :
  extends e e' → (∀ a st, extends (k a st) (k' a st)) → extends (let! (a, st) := e in k a st) (let! (a, st) := e' in k' a st).
Proof.
  intros He Hk x. destruct e as [[[a st]|err]| |]; try done; rewrite (He _ eq_refl); [apply Hk|done].
Qed.

Ltac extends_step :=
  match goal with
  | |- extends (if ?b then _ else _) (if ?b then _ else _) => destruct b
  | |- extends _ _ => solve [auto using extends_refl]
  | |- extends _ _ => apply extends_bind; [solve [auto using extends_refl]|intros]
  end.

Section Fuel.
Context (bytes : text).

Lemma one_more_fuel n :
  (∀ st, extends (parse_or bytes n st) (parse_or bytes (S n) st)) ∧
  (∀ l st, extends (or_loop bytes n l st) (or_loop bytes (S n) l st)) ∧
  (∀ st, extends (parse_and bytes n st) (parse_and bytes (S n) st)) ∧
  (∀ l st, extends (and_loop bytes n l st) (and_loop bytes (S n) l st)) ∧
  (∀ st, extends (parse_unary bytes n st) (parse_unary bytes (S n) st)) ∧
  (∀ st, extends (parse_group bytes n st) (parse_group bytes (S n) st)) ∧
  (∀ st, extends (parse_compare bytes n st) (parse_compare bytes (S n) st)) ∧
  (∀ p st, extends (parse_value_path bytes n p st) (parse_value_path bytes (S n) p st)).
Proof.
  induction n as [|n (H1 & H2 & H3 & H4 & H5 & H6 & H7 & H8)]; [by split_and!; intros|].
  split_and!; intros; remember (S n) as m eqn:Hm;
    [rewrite Hm at 1; cbn [parse_or]|rewrite Hm at 1; cbn [or_loop]|rewrite Hm at 1; cbn [parse_and]
    |rewrite Hm at 1; cbn [and_loop]|rewrite Hm at 1; cbn [parse_unary]|rewrite Hm at 1; cbn [parse_group]
    |rewrite Hm at 1; cbn [parse_compare]|rewrite Hm at 1; cbn [parse_value_path]];
    repeat extends_step.
Qed.

Lemma more_fuel n m st x : (n ≤ m)%nat → parse_or bytes n st = Returned x → parse_or bytes m st = Returned x.
Proof. induction 1 as [|m Hle IH]; [done|]. intros Hx. by apply (one_more_fuel m), IH. Qed.
End Fuel.

(** With enough fuel, a computation returns [x]. *)
Definition becomes {A} (f : nat → Run A) (x : A) : Prop := ∃ n0, ∀ n, (n0 ≤ n)%nat → f n = Returned x.

Lemma becomes_step {A} (f g : nat → Run A) x : (∀ n, f (S n) = g n) → becomes g x → becomes f x.
Proof.
  intros Hfg [n0 Hg]. exists (S n0). intros [|n] Hn; [lia|]. rewrite Hfg. apply Hg. lia.
Qed.

Lemma becomes_bind {A B} (e : nat → Run (Result (A * PState) FilterError)) (k : nat → A → PState → Run (Result (B * PState) FilterError)) a st x :
  becomes e (Ok (a, st)) → becomes (λ n, k n a st) x → becomes (λ n, let! (a, st) := e n in k n a st) x.
Proof.
  intros [n0 He] [n1 Hk]. exists (Nat.max n0 n1). intros n Hn. rewrite He by lia. apply Hk. lia.
Qed.

Lemma becomes_now {A} (r : Run A) x : r = Returned x → becomes (λ _, r) x.
Proof. intros ->. by exists O. Qed.

Lemma becomes_eq {A} (f g : nat → Run A) x : (∀ n, f n = g n) → becomes g x → becomes f x.
Proof. intros Hfg [n0 Hg]. exists n0. intros n Hn. rewrite Hfg. by apply Hg. Qed.

(** ** What is left of the text *)

Lemma eq_ignore_length a b : eq_ignore_ascii_case a b = true → length a = length b.
Proof.
  unfold eq_ignore_ascii_case. rewrite bool_decide_eq_true. intros Heq%(f_equal length).
  unfold to_ascii_lowercase in Heq. by rewrite !length_fmap in Heq.
Qed.

(** Whether a text begins with a word. *)
Definition starts (word s : text) : bool :=
  eq_ignore_ascii_case (take (length word) s) word && match drop (length word) s with [] => true | c :: _ => is_delimiter c end.

Lemma starts_head word w0 ws c s : word = w0 :: ws → starts word (c :: s) = true → lower_char c = lower_char w0.
Proof.
  intros ->. unfold starts. intros [He _]%andb_true_iff. unfold eq_ignore_ascii_case in He. apply bool_decide_eq_true in He.
  simpl in He. by injection He.
Qed.

Lemma starts_keyword word word' w c s : keyword word w → length word' = length word → is_delimiter c = true →
  starts word' (w ++ c :: s) = eq_ignore_ascii_case word word'.
Proof.
  intros Hw Hlen Hc. pose proof (eq_ignore_length _ _ Hw) as Hl. unfold starts.
  rewrite Hlen, <-Hl, take_app_length, drop_app_length, Hc, andb_true_r. unfold keyword, eq_ignore_ascii_case in *.
  apply bool_decide_eq_true in Hw. by rewrite Hw.
Qed.

Lemma span_blanks b s : blanks b → (∀ c s', s = c :: s' → c ≠ " ") → span (is_char " ") (b ++ s) = (b, s).
Proof.
  intros Hb Hs. induction Hb as [|c b -> Hb IH]; simpl.
  - destruct s as [|c s]; [done|]. simpl. destruct (is_char " " c) eqn:Hc; [|done]. apply is_char_true in Hc. by destruct (Hs c s).
  - by rewrite IH.
Qed.

Lemma head_drop {A} n (l : list A) : head (drop n l) = l !! n.
Proof. rewrite <-(Nat.add_0_r n) at 2. rewrite <-lookup_drop. by destruct (drop n l). Qed.

Section Cursor.
Context (bytes : text).

Definition rest (st : PState) : text := drop (pos st) bytes.
Definition valid (st : PState) : Prop := (pos st ≤ length bytes)%nat.
Definition moved (t : text) (st : PState) : PState := at_pos (pos st + length t) st.

Lemma moved_nil st : moved [] st = st.
Proof. destruct st. unfold moved, at_pos. simpl. by rewrite Nat.add_0_r. Qed.

Lemma moved_moved a b st : moved b (moved a st) = moved (a ++ b) st.
Proof. unfold moved, at_pos. simpl. by rewrite length_app, Nat.add_assoc. Qed.

Lemma rest_moved t s st : valid st → rest st = t ++ s → rest (moved t st) = s ∧ valid (moved t st).
Proof.
  unfold rest, valid, moved, at_pos. cbn [pos]. intros Hv Hr. split.
  - by rewrite Nat.add_comm, Nat.add_comm, <-drop_drop, Hr, drop_app_length.
  - apply (f_equal length) in Hr. rewrite length_drop, length_app in Hr. lia.
Qed.

Lemma rest_lookup st : bytes !! pos st = head (rest st).
Proof. unfold rest. by rewrite head_drop. Qed.

Lemma rest_length st : valid st → length bytes = (pos st + length (rest st))%nat.
Proof. unfold rest, valid. rewrite length_drop. lia. Qed.

Lemma byte_slice_rest st t s : valid st → rest st = t ++ s → byte_slice bytes (pos st) (pos st + length t) = Returned t.
Proof.
  intros Hv Hr. pose proof (rest_length st Hv) as Hl. rewrite Hr, length_app in Hl. rewrite byte_slice_ok by lia.
  unfold rest in Hr. rewrite Hr. by rewrite Nat.add_comm, Nat.add_sub, take_app_length.
Qed.

Lemma skip_moved st b s : rest st = b ++ s → blanks b → (∀ c s', s = c :: s' → c ≠ " ") → skip_spaces bytes st = moved b st.
Proof. intros Hr Hb Hs. unfold skip_spaces. unfold rest in Hr. rewrite Hr, span_blanks by done. done. Qed.

(** Spaces do not matter to [skip_spaces]. *)
Lemma skip_blanks st b s : valid st → rest st = b ++ s → blanks b → skip_spaces bytes (moved b st) = skip_spaces bytes st.
Proof.
  intros Hv Hr Hb. destruct (rest_moved b s st Hv Hr) as [Hr' Hv']. unfold skip_spaces. fold (rest st) (rest (moved b st)).
  rewrite Hr, Hr'. unfold moved, at_pos. cbn [pos depth in_value_path]. f_equal.
  clear -Hb. induction Hb as [|c b -> Hb IH]; simpl; [lia|]. destruct (span (is_char " ") (b ++ s)) eqn:He. simpl in *. lia.
Qed.

Lemma skip_skip st : valid st → skip_spaces bytes (skip_spaces bytes st) = skip_spaces bytes st.
Proof.
  intros Hv. set (b := (span (is_char " ") (rest st)).1).
  assert (blanks b) as Hb. { eapply Forall_impl; [apply span_Forall|]. intros c Hc. by apply is_char_true. }
  apply (skip_blanks st b (span (is_char " ") (rest st)).2); [done| |done]. unfold b. by rewrite span_app.
Qed.

Lemma skip_valid st : valid st → valid (skip_spaces bytes st).
Proof. intros Hv. by apply skip_spaces_bounds. Qed.

Lemma take_word_skip word st : valid st → take_word bytes word (skip_spaces bytes st) = take_word bytes word st.
Proof. intros Hv. unfold take_word, peek_word. by rewrite skip_skip. Qed.

Lemma take_word_eq word st : valid st → take_word bytes word st =
  let st' := skip_spaces bytes st in
  Returned (Ok (if starts word (rest st') then (true, moved word st') else (false, st'))).
Proof.
  intros Hv. pose proof (skip_valid st Hv) as Hv'. unfold take_word, peek_word. cbn zeta. set (st' := skip_spaces bytes st) in *. clearbody st'.
  pose proof (rest_length st' Hv') as Hl. unfold starts.
  destruct (Nat.ltb_spec (length bytes) (pos st' + length word)) as [Hlt|Hle].
  { destruct (eq_ignore_ascii_case _ _) eqn:He; [|done]. apply eq_ignore_length in He. rewrite length_take in He. lia. }
  rewrite byte_slice_ok by lia. rewrite Nat.add_comm, Nat.add_sub, Nat.add_comm. fold (rest st').
  destruct (eq_ignore_ascii_case _ _); [|done]. cbn [negb andb].
  assert (bytes !! (pos st' + length word)%nat = head (drop (length word) (rest st'))) as ->.
  { unfold rest. by rewrite drop_drop, head_drop. }
  by destruct (drop _ _) as [|c s]; simpl; [|destruct (is_delimiter c)].
Qed.

Lemma take_word_hit word st b w s : valid st → rest st = b ++ w ++ s → blanks b → keyword word w →
  head (to_ascii_lowercase word) ≠ Some " " → word ≠ [] → match s with [] => True | c :: _ => is_delimiter c = true end →
  take_word bytes word st = Returned (Ok (true, moved (b ++ w) st)).
Proof.
  intros Hv Hr Hb Hw Hsp Hne Hs. pose proof (eq_ignore_length _ _ Hw) as Hl. rewrite take_word_eq by done. cbn zeta.
  assert (skip_spaces bytes st = moved b st) as ->.
  { eapply skip_moved; [exact Hr|done|]. intros c s' Heq ->. unfold keyword, eq_ignore_ascii_case in Hw.
    apply bool_decide_eq_true in Hw. destruct w as [|c w]; [by destruct word|]. simplify_eq/=. by rewrite <-Hw in Hsp. }
  destruct (rest_moved b _ st Hv Hr) as [-> _]. unfold starts. rewrite <-Hl, take_app_length, drop_app_length, Hw.
  assert (moved word (moved b st) = moved (b ++ w) st) as ->. { rewrite moved_moved. unfold moved. by rewrite !length_app, Hl. }
  destruct s as [|c s]; [done|]. by rewrite Hs.
Qed.

Lemma take_word_miss word st b s : valid st → rest st = b ++ s → blanks b → (∀ c s', s = c :: s' → c ≠ " ") → starts word s = false →
  take_word bytes word st = Returned (Ok (false, moved b st)).
Proof.
  intros Hv Hr Hb Hs Hw. rewrite take_word_eq by done. cbn zeta. rewrite (skip_moved st b s) by done.
  destruct (rest_moved b _ st Hv Hr) as [-> _]. by rewrite Hw.
Qed.
End Cursor.

(** ** Paths *)

Lemma is_name_char_path c : is_name_char c = true → is_path_byte c = true ∧ c ≠ "." ∧ c ≠ ":".
Proof. by destruct c as [[] [] [] [] [] [] [] []]; vm_compute; intros; split_and!. Qed.

Lemma is_path_byte_ascii c : is_path_byte c = true → between 0 0x7F c = true ∧ is_delimiter c = false ∧ c ≠ " ".
Proof. by destruct c as [[] [] [] [] [] [] [] []]; vm_compute; intros; split_and!. Qed.

Lemma ascii_utf8 s : Forall (λ c, between 0 0x7F c = true) s → from_utf8 s = true.
Proof. induction 1 as [|c s Hc _ IH]; [done|]. cbn [from_utf8]. by rewrite Hc. Qed.

Lemma path_text_bytes p : path_ok p → Forall (λ c, is_path_byte c = true) (path_text p) ∧ path_text p ≠ [].
Proof.
  intros (Hne & Hname & Hurn & Hsub). unfold path_text. split.
  - apply Forall_app. split.
    { destruct (path_urn p); [|done]. apply Forall_app. split; [by apply Hurn|by repeat constructor]. }
    apply Forall_app. split; [eapply Forall_impl; [exact Hname|]; intros c Hc; by apply is_name_char_path|].
    destruct (path_sub p) as [s|]; [|done]. destruct (Hsub s eq_refl) as [_ Hs]. constructor; [done|].
    eapply Forall_impl; [exact Hs|]. intros c [Hc| ->]; [by apply is_name_char_path|done].
  - destruct (path_urn p); destruct (path_name p); simpl; try done. intros H%(f_equal length). rewrite !length_app in H. simpl in H. lia.
Qed.

Lemma split_path_text p : path_ok p → split_path (path_text p) = Some p.
Proof.
  intros (Hne & Hname & _ & Hsub). destruct p as [urn name sub]. unfold split_path, path_text. cbn [path_urn path_name path_sub] in *.
  assert ((":" ∉ name) ∧ ("." ∉ name)) as [Hc Hd].
  { rewrite Forall_forall in Hname. split; intros Hin; apply Hname, is_name_char_path in Hin; naive_solver. }
  set (r := name ++ match sub with Some s => "." :: s | None => [] end).
  assert (":" ∉ r) as Hr.
  { unfold r. destruct sub as [s|]; [|by rewrite app_nil_r]. destruct (Hsub s eq_refl) as [_ Hs]. rewrite Forall_forall in Hs.
    rewrite elem_of_app, elem_of_cons. intros [Hin|[Hin|Hin]]; [done|done|].
    apply Hs in Hin as [Hin|Hin]; [apply is_name_char_path in Hin; naive_solver|done]. }
  assert (match split_once "." r with Some (name, sub) => (name, Some sub) | None => (r, None) end = (name, sub)) as Hsplit.
  { unfold r. destruct sub as [s|]; [by rewrite split_once_app|]. rewrite app_nil_r. unfold split_once. by rewrite find_char_absent. }
  assert (bool_decide (name = []) || bool_decide (sub = Some []) = false) as Hok.
  { rewrite bool_decide_eq_false_2 by done. rewrite bool_decide_eq_false_2; [done|]. intros ->. by destruct (Hsub [] eq_refl). }
  destruct urn as [u|].
  - rewrite <-app_assoc. cbn [app]. rewrite rfind_char_app by done. rewrite take_app_length.
    by rewrite drop_past, Hsplit, Hok.
  - cbn [app]. rewrite rfind_char_absent by done. by rewrite Hsplit, Hok.
Qed.

Lemma span_stops p a s : Forall (λ c, p c = true) a → match s with [] => True | c :: _ => p c = false end → span p (a ++ s) = (a, s).
Proof.
  intros Ha Hs. induction Ha as [|c a Hc Ha IH]; simpl; [|by rewrite Hc, IH]. destruct s as [|c s]; [done|]. simpl. by rewrite Hs.
Qed.

(** A word at the front of a path and of what follows it is the path. *)
Lemma starts_path word path c s : Forall (λ c, is_path_byte c = true) path → is_path_byte c = false →
  Forall (λ c, is_path_byte (lower_char c) = true) word → starts word (path ++ c :: s) = true →
  eq_ignore_ascii_case path word = true ∧ is_delimiter c = true.
Proof.
  intros Hpath Hc Hword [He Hd]%andb_true_iff. pose proof (eq_ignore_length _ _ He) as Hl.
  assert (length word ≤ length path)%nat as Hle.
  { destruct (decide (length word ≤ length path)%nat); [done|]. exfalso.
    assert (take (length word) (path ++ c :: s) !! length path = Some c) as Hat.
    { rewrite lookup_take, decide_True by lia. by rewrite lookup_app_r, Nat.sub_diag by lia. }
    unfold eq_ignore_ascii_case, to_ascii_lowercase in He. apply bool_decide_eq_true in He.
    apply (f_equal (.!! length path)) in He. rewrite !list_lookup_fmap, Hat in He. simpl in He.
    destruct (word !! length path) as [d|] eqn:Hd'; [|done]. rewrite Forall_lookup in Hword. specialize (Hword _ _ Hd'). simplify_eq/=.
    rewrite <-He in Hword. clear -Hc Hword. by destruct c as [[] [] [] [] [] [] [] []]; vm_compute in *. }
  rewrite take_app_le in He by done. rewrite drop_app_le in Hd by done.
  destruct (drop (length word) path) as [|d r] eqn:Hdrop.
  - split; [|done]. by rewrite take_ge in He by (apply (f_equal length) in Hdrop; rewrite length_drop in Hdrop; simpl in Hdrop; lia).
  - exfalso. assert (d ∈ path) as Hin. { rewrite <-(take_drop (length word) path), Hdrop. set_solver. }
    rewrite Forall_forall in Hpath. apply Hpath, is_path_byte_ascii in Hin as (_ & Hdel & _). simpl in Hd. congruence.
Qed.

(** ** Literals *)

Definition boundary (s : text) : Prop := match s with [] => True | c :: _ => c = " " ∨ c = ")" ∨ c = "]" end.

Lemma boundary_delimiter s : boundary s → match s with [] => True | c :: _ => is_delimiter c = true end.
Proof. destruct s as [|c s]; [done|]. by intros [->|[->| ->]]. Qed.

Lemma is_number_byte_facts c : is_number_byte c = true →
  between 0 0x7F c = true ∧ c ≠ " " ∧ is_char (chr 34) c = false ∧ lower_char c ≠ "t" ∧ lower_char c ≠ "f" ∧ lower_char c ≠ "n".
Proof. by destruct c as [[] [] [] [] [] [] [] []]; vm_compute; intros; split_and!. Qed.

Lemma to_digit_ascii c d : to_digit 16 c = Some d → between 0 0x7F c = true ∧ is_char "+" c = false.
Proof. by destruct c as [[] [] [] [] [] [] [] []]; vm_compute; intros; split_and!. Qed.

Lemma keyword_head word w0 ws w : word = w0 :: ws → keyword word w → ∃ c w', w = c :: w' ∧ lower_char c = lower_char w0.
Proof.
  intros ->. unfold keyword, eq_ignore_ascii_case. rewrite bool_decide_eq_true. destruct w as [|c w]; [done|].
  simpl. intros [= Hc _]. by exists c, w.
Qed.

(** The first letter tells words apart. *)
Lemma starts_other word w0 ws c s : word = w0 :: ws → lower_char c ≠ lower_char w0 → starts word (c :: s) = false.
Proof. intros Hw Hc. apply not_true_iff_false. intros Hs. apply Hc. by eapply starts_head. Qed.

Section Literals.
Context (bytes : text).

Lemma parse_escape_simple p e c : (e, c) ∈ ESCAPES → bytes !! p = Some e → parse_escape bytes p = Returned (Ok ([c], S p)).
Proof.
  intros Hin Hp. unfold parse_escape. rewrite Hp. unfold ESCAPES in Hin. repeat (apply elem_of_cons in Hin as [[= -> ->]|Hin]; [reflexivity|]).
  by apply elem_of_nil in Hin.
Qed.

Lemma from_str_radix_four a b c d v w x y : to_digit 16 a = Some v → to_digit 16 b = Some w → to_digit 16 c = Some x →
  to_digit 16 d = Some y → from_str_radix 16 [a; b; c; d] = Some (4096 * v + 256 * w + 16 * x + y)%Z.
Proof.
  intros Ha Hb Hc Hd. pose proof (to_digit_range _ _ _ Ha). pose proof (to_digit_range _ _ _ Hb).
  pose proof (to_digit_range _ _ _ Hc). pose proof (to_digit_range _ _ _ Hd).
  destruct (to_digit_ascii _ _ Ha) as [_ Hplus].
  unfold from_str_radix. rewrite Hplus. cbn [foldl]. cbn [mbind option_bind].
  unfold U32_MAX. repeat (rewrite ?Ha, ?Hb, ?Hc, ?Hd; cbn [mbind option_bind]; rewrite (proj2 (Z.leb_le _ _)) by lia; cbn [mbind option_bind]).
  f_equal. lia.
Qed.

Lemma drop_at p q c r : drop p bytes = q ++ c :: r → bytes !! (p + length q)%nat = Some c ∧ (p + length q < length bytes)%nat.
Proof.
  intros Hd. assert (bytes !! (p + length q)%nat = Some c) as Hl.
  { by rewrite <-lookup_drop, Hd, lookup_app_r, Nat.sub_diag by lia. }
  split; [done|]. by apply lookup_lt_Some in Hl.
Qed.

Lemma drop_first p c r : drop p bytes = c :: r → bytes !! p = Some c ∧ drop (S p) bytes = r.
Proof.
  intros Hd. destruct (drop_at p [] c r Hd) as [Hp _]. simpl in Hp. rewrite Nat.add_0_r in Hp. split; [done|].
  rewrite <-Nat.add_1_r. by rewrite <-drop_drop, Hd.
Qed.

Lemma parse_escape_unicode p a b c d v w x y ch r : drop p bytes = "u" :: a :: b :: c :: d :: r → to_digit 16 a = Some v →
  to_digit 16 b = Some w → to_digit 16 c = Some x → to_digit 16 d = Some y →
  char_from_u32 (4096 * v + 256 * w + 16 * x + y) = Some ch → parse_escape bytes p = Returned (Ok (ch, p + 5)%nat).
Proof.
  intros Hdrop Ha Hb Hc Hd Hch. destruct (drop_first _ _ _ Hdrop) as [Hu Hhex].
  destruct (drop_at p ["u"; a; b; c] _ _ Hdrop) as [_ Hlast]. simpl in Hlast. unfold parse_escape. rewrite Hu.
  repeat (match goal with |- context [is_char ?x "u"] => change (is_char x "u") with false || change (is_char x "u") with true end; cbn iota).
  rewrite (proj2 (Nat.ltb_ge _ _)) by lia. rewrite byte_slice_ok by lia. rewrite Nat.add_comm, Nat.add_sub, Hhex.
  cbn [take app]. rewrite take_0. rewrite ascii_utf8 by (repeat constructor; by eapply to_digit_ascii). cbn [negb].
  rewrite (from_str_radix_four _ _ _ _ _ _ _ _ Ha Hb Hc Hd), Hch. do 3 f_equal. lia.
Qed.

Lemma string_loop_reads t s : string_text t s → ∀ fuel p out post, drop p bytes = t ++ chr 34 :: post → (length t < fuel)%nat →
  string_loop bytes fuel p out = Returned (Ok (out ++ s, p + length t + 1)%nat).
Proof.
  induction 1 as [|c cs t s Hq Hb Hutf Hlen Ht IH|e c t s He Ht IH|a b c d v w x y ch t s Ha Hb Hc Hd Hch Ht IH];
    intros [|fuel] p out post Hdrop Hf; try (simpl in Hf; lia); cbn [string_loop]; destruct (drop_first _ _ _ Hdrop) as [-> Hnext].
  - simpl. rewrite app_nil_r, Nat.add_0_r, Nat.add_1_r. done.
  - rewrite Hq, Hb, <-Hlen.
    assert (drop p bytes = (c :: cs) ++ t ++ chr 34 :: post) as Hdrop' by (rewrite Hdrop; simpl; by rewrite app_assoc).
    assert (p + length (c :: cs) ≤ length bytes)%nat as Hle.
    { apply (f_equal length) in Hdrop'. rewrite length_drop, !length_app in Hdrop'. simpl in *. lia. }
    rewrite (proj2 (Nat.ltb_ge _ _)) by done. rewrite byte_slice_ok by lia. rewrite Hdrop', Nat.add_comm, Nat.add_sub, take_app_length.
    rewrite Hutf. cbn [negb]. rewrite (IH fuel _ _ post); [|by rewrite Nat.add_comm, <-drop_drop, Hdrop', drop_app_length|].
    + rewrite <-app_assoc. simpl. do 3 f_equal. f_equal. rewrite length_app. lia.
    + simpl in Hf. rewrite length_app in Hf. lia.
  - cbn in Hnext. destruct (drop_first _ _ _ Hnext) as [He' Hrest].
    change (is_char (chr 34) "\") with false. change (is_char "\" "\") with true. cbn iota.
    rewrite (parse_escape_simple _ _ _ He He'). cbn iota. rewrite (IH fuel _ _ post); [|done|simpl in Hf; lia].
    rewrite <-app_assoc. simpl. do 3 f_equal. f_equal. lia.
  - change (is_char (chr 34) "\") with false. change (is_char "\" "\") with true. cbn iota. cbn in Hnext.
    rewrite (parse_escape_unicode _ _ _ _ _ _ _ _ _ _ _ Hnext Ha Hb Hc Hd Hch). cbn iota.
    rewrite (IH fuel _ _ post); [| |simpl in Hf; lia].
    + rewrite <-app_assoc. do 3 f_equal. f_equal. simpl. lia.
    + by rewrite <-drop_drop, Hnext.
Qed.

Lemma take_keyword word st w post : valid bytes st → rest bytes st = w ++ post → keyword word w →
  head (to_ascii_lowercase word) ≠ Some " " → word ≠ [] → boundary post →
  take_word bytes word st = Returned (Ok (true, moved w st)).
Proof.
  intros Hv Hr Hw Hsp Hne Hpost. apply (take_word_hit bytes word st [] w post); try done; [by constructor|]. by apply boundary_delimiter.
Qed.

Lemma miss_word word st c s w0 ws : valid bytes st → rest bytes st = c :: s → c ≠ " " → word = w0 :: ws →
  lower_char c ≠ lower_char w0 → take_word bytes word st = Returned (Ok (false, st)).
Proof.
  intros Hv Hr Hc Hw Hl. rewrite (take_word_miss bytes word st [] (c :: s)); [by rewrite moved_nil|done|done|by constructor| |].
  - by intros c' s' [= <- <-].
  - by eapply starts_other.
Qed.

Lemma literal_head t l : literal_text t l → ∃ c t', t = c :: t' ∧ c ≠ " ".
Proof.
  destruct 1 as [w Hw|w Hw|w Hw|t x Ht Hx|t s Ht].
  1-3: eapply keyword_head in Hw as (c & w' & -> & Hc); [|reflexivity]; exists c, w'; split; [done|]; intros ->; done.
  - destruct t as [|c t]; [done|]. exists c, t. split; [done|]. apply Forall_cons in Ht as [Hc _]. by apply is_number_byte_facts in Hc as (_ & ? & _).
  - by eexists _, _.
Qed.

Lemma parse_number_reads st t x post : valid bytes st → rest bytes st = t ++ post → boundary post →
  Forall (λ c, is_number_byte c = true) t → parse_f64 t = Some x → parse_number bytes st = Returned (Ok (LNumber x, moved t st)).
Proof.
  intros Hv Hr Hpost Ht Hx. unfold parse_number. fold (rest bytes st). rewrite Hr, span_stops; [|done|].
  2: { destruct post as [|c post]; [done|]. by destruct Hpost as [->|[->| ->]]. }
  cbn [fst]. destruct (Nat.eqb_spec (length t) 0) as [Hl|Hl]; [by destruct t|].
  rewrite (byte_slice_rest bytes st t post) by done.
  rewrite ascii_utf8; [by rewrite Hx|]. eapply Forall_impl; [exact Ht|]. intros c Hc. by apply is_number_byte_facts in Hc as [? _].
Qed.

Lemma parse_string_reads st t s post : valid bytes st → rest bytes st = chr 34 :: t ++ chr 34 :: post → string_text t s →
  parse_string bytes st = Returned (Ok (LString s, moved (chr 34 :: t ++ [chr 34]) st)).
Proof.
  intros Hv Hr Ht. destruct (drop_first _ _ _ Hr) as [_ Hnext]. unfold parse_string.
  rewrite (string_loop_reads _ _ Ht _ _ _ post Hnext).
  - cbn iota. unfold moved. do 3 f_equal. f_equal. simpl. rewrite length_app. simpl. lia.
  - apply (f_equal length) in Hnext. rewrite length_drop, length_app in Hnext. simpl in Hnext. lia.
Qed.

Lemma parse_value_reads st b t l post : valid bytes st → rest bytes st = b ++ t ++ post → blanks b → boundary post →
  literal_text t l → parse_value bytes st = Returned (Ok (l, moved (b ++ t) st)).
Proof.
  intros Hv Hr Hb Hpost Hl. destruct (literal_head _ _ Hl) as (c & t' & Ht & Hc). unfold parse_value.
  rewrite (skip_moved bytes st b (t ++ post)); [|done|done|subst; by intros c' s' [= <- <-]]. rewrite <-moved_moved.
  destruct (rest_moved bytes b _ st Hv Hr) as [Hr1 Hv1]. cbn zeta. set (st1 := moved b st) in *. clearbody st1. clear st Hv Hr.
  assert (rest bytes st1 = c :: t' ++ post) as Hrc by (by rewrite Hr1, Ht). rewrite rest_lookup, Hrc. cbn [head].
  destruct Hl as [w Hw|w Hw|w Hw|t x Hn Hx|t s Hs].
  - destruct (keyword_head _ _ _ _ eq_refl Hw) as (c0 & w' & -> & Hc0). injection Ht as -> ->.
    assert (is_char (chr 34) c = false) as -> by (apply not_true_iff_false; rewrite is_char_true; by intros ->).
    by rewrite (take_keyword (lit "true") st1 _ post Hv1 Hr1 Hw).
  - destruct (keyword_head _ _ _ _ eq_refl Hw) as (c0 & w' & -> & Hc0). injection Ht as -> ->.
    assert (is_char (chr 34) c = false) as -> by (apply not_true_iff_false; rewrite is_char_true; by intros ->).
    rewrite (miss_word (lit "true") st1 c _ _ _ Hv1 Hrc Hc eq_refl) by (rewrite Hc0; done). cbn iota.
    by rewrite (take_keyword (lit "false") st1 _ post Hv1 Hr1 Hw).
  - destruct (keyword_head _ _ _ _ eq_refl Hw) as (c0 & w' & -> & Hc0). injection Ht as -> ->.
    assert (is_char (chr 34) c = false) as -> by (apply not_true_iff_false; rewrite is_char_true; by intros ->).
    rewrite (miss_word (lit "true") st1 c _ _ _ Hv1 Hrc Hc eq_refl) by (rewrite Hc0; done). cbn iota.
    rewrite (miss_word (lit "false") st1 c _ _ _ Hv1 Hrc Hc eq_refl) by (rewrite Hc0; done). cbn iota.
    by rewrite (take_keyword (lit "null") st1 _ post Hv1 Hr1 Hw).
  - subst t. pose proof Hn as Hn'. apply Forall_cons in Hn as [Hn _]. apply is_number_byte_facts in Hn as (_ & _ & -> & Ht0 & Hf0 & Hn0).
    rewrite (miss_word (lit "true") st1 c _ _ _ Hv1 Hrc Hc eq_refl) by done. cbn iota.
    rewrite (miss_word (lit "false") st1 c _ _ _ Hv1 Hrc Hc eq_refl) by done. cbn iota.
    rewrite (miss_word (lit "null") st1 c _ _ _ Hv1 Hrc Hc eq_refl) by done. cbn iota.
    by apply (parse_number_reads st1 _ x post).
  - injection Ht as <- <-. apply (parse_string_reads st1 _ s post); [done| |done]. rewrite Hr1. simpl. by rewrite <-app_assoc.
Qed.

Lemma parse_op_from_reads ops st b w s word : valid bytes st → rest bytes st = b ++ w ++ " " :: s → blanks b → keyword word w → length word = 2%nat →
  lower_char <$> head word ≠ Some " " → Forall (λ o, length o.1 = 2%nat ∧ head (to_ascii_lowercase o.1) ≠ Some " ") ops →
  parse_op_from bytes ops st =
    match List.find (λ o, eq_ignore_ascii_case word o.1) ops with
    | Some o => Returned (Ok (o.2, moved (b ++ w) st))
    | None => parse_op_from bytes [] (skip_spaces bytes st)
    end.
Proof.
  intros Hv Hr Hb Hw Hlen Hsp Hops.
  assert (∀ c s', w ++ " " :: s = c :: s' → c ≠ " ") as Hhead.
  { intros c s'. destruct word as [|w0 ws]; [done|]. destruct (keyword_head _ _ _ _ eq_refl Hw) as (c0 & w' & -> & Hc0).
    intros [= <- _] ->. apply Hsp. simpl. by rewrite <-Hc0. }
  assert (∀ st1 b1, valid bytes st1 → rest bytes st1 = b1 ++ w ++ " " :: s → blanks b1 → moved (b1 ++ w) st1 = moved (b ++ w) st →
    skip_spaces bytes st1 = skip_spaces bytes st →
    parse_op_from bytes ops st1 = match List.find (λ o, eq_ignore_ascii_case word o.1) ops with
    | Some o => Returned (Ok (o.2, moved (b ++ w) st)) | None => parse_op_from bytes [] (skip_spaces bytes st) end) as Hgen; [|by apply (Hgen st b)].
  induction Hops as [|[word' op] ops [Hl Hs] Hops IH]; intros st1 b1 Hv1 Hr1 Hb1 Hm Hsk.
  { cbn [parse_op_from List.find]. rewrite skip_skip by done. by rewrite Hsk. }
  cbn [parse_op_from List.find fst snd] in *. destruct (eq_ignore_ascii_case word word') eqn:He.
  - rewrite (take_word_hit bytes word' st1 b1 w (" " :: s)); try done; [by rewrite Hm| |by destruct word'].
    unfold keyword, eq_ignore_ascii_case in *. apply bool_decide_eq_true in Hw, He. apply bool_decide_eq_true. congruence.
  - rewrite (take_word_miss bytes word' st1 b1 (w ++ " " :: s)); try done; [|by rewrite (starts_keyword word) by (done || congruence)].
    destruct (rest_moved bytes b1 _ st1 Hv1 Hr1) as [Hr2 Hv2]. apply (IH (moved b1 st1) []); [done|done|by constructor| |].
    + by rewrite moved_moved.
    + by rewrite (skip_blanks bytes st1 b1 (w ++ " " :: s)).
Qed.

Lemma parse_op_reads st b w s word op : valid bytes st → rest bytes st = b ++ w ++ " " :: s → blanks b → keyword word w →
  (word, op) ∈ OPERATORS → parse_op bytes st = Returned (Ok (op, moved (b ++ w) st)).
Proof.
  intros Hv Hr Hb Hw Hin. unfold parse_op.
  assert (length word = 2%nat ∧ lower_char <$> head word ≠ Some " " ∧
    List.find (λ o, eq_ignore_ascii_case word o.1) OPERATORS = Some (word, op)) as (Hlen & Hsp & Hfind).
  { unfold OPERATORS in Hin. repeat (apply elem_of_cons in Hin as [[= -> ->]|Hin]; [by split_and!|]). by apply elem_of_nil in Hin. }
  rewrite (parse_op_from_reads _ st b w s word); [by rewrite Hfind|done..|]. by repeat constructor.
Qed.

Lemma parse_attr_path_reads st p c s : valid bytes st → rest bytes st = path_text p ++ c :: s → path_ok p → is_path_byte c = false →
  parse_attr_path bytes st = Returned (Ok (p, moved (path_text p) st)).
Proof.
  intros Hv Hr Hp Hc. destruct (path_text_bytes p Hp) as [Hbytes Hne]. unfold parse_attr_path.
  assert (skip_spaces bytes st = st) as ->.
  { rewrite (skip_moved bytes st [] (path_text p ++ c :: s)); [by rewrite moved_nil|done|by constructor|].
    intros d r Hd. destruct (path_text p) as [|e t]; [done|]. apply Forall_cons in Hbytes as [He _]. injection Hd as -> _.
    by apply is_path_byte_ascii in He as (_ & _ & ?). }
  fold (rest bytes st). rewrite Hr, span_stops by done. cbn [fst].
  destruct (Nat.eqb_spec (length (path_text p)) 0) as [Hl|Hl]; [by destruct (path_text p)|].
  rewrite (byte_slice_rest bytes st _ (c :: s)) by done. rewrite ascii_utf8; [by rewrite split_path_text|].
  eapply Forall_impl; [exact Hbytes|]. intros d Hd. by apply is_path_byte_ascii in Hd as [? _].
Qed.
End Literals.

(** ** The parser reads the grammar *)

Definition strip (s : text) : text := (span (is_char " ") s).2.

Lemma strip_blanks b s : blanks b → (∀ c s', s = c :: s' → c ≠ " ") → strip (b ++ s) = s.
Proof. intros Hb Hs. unfold strip. by rewrite span_blanks. Qed.

Lemma gap_cons g : gap g → ∃ g', g = " " :: g' ∧ blanks g'.
Proof. intros [Hne Hb]. destruct Hb as [|c g -> Hb]; [done|]. by exists g. Qed.

Section Reads.
Context (bytes : text).

Lemma rest_skip st : valid bytes st → rest bytes (skip_spaces bytes st) = strip (rest bytes st).
Proof.
  intros Hv. apply (rest_moved bytes (span (is_char " ") (rest bytes st)).1 (strip (rest bytes st)) st Hv). unfold strip. by rewrite span_app.
Qed.

Lemma or_loop_skip n f st : valid bytes st → or_loop bytes n f (skip_spaces bytes st) = or_loop bytes n f st.
Proof. intros Hv. destruct n; [done|]. cbn [or_loop]. by rewrite take_word_skip. Qed.

Lemma parse_unary_skip n st : valid bytes st → parse_unary bytes n (skip_spaces bytes st) = parse_unary bytes n st.
Proof. intros Hv. destruct n; [done|]. cbn [parse_unary]. by rewrite take_word_skip. Qed.

Lemma parse_and_skip n st : valid bytes st → parse_and bytes n (skip_spaces bytes st) = parse_and bytes n st.
Proof. intros Hv. destruct n; [done|]. cbn [parse_and]. by rewrite parse_unary_skip. Qed.

Lemma parse_or_skip n st : valid bytes st → parse_or bytes n (skip_spaces bytes st) = parse_or bytes n st.
Proof. intros Hv. destruct n; [done|]. cbn [parse_or]. by rewrite parse_and_skip. Qed.

Lemma parse_group_skip n st : valid bytes st → parse_group bytes n (skip_spaces bytes st) = parse_group bytes n st.
Proof. intros Hv. destruct n; [done|]. cbn [parse_group]. by rewrite skip_skip. Qed.

(** A function that skips spaces first reads the same after some spaces. *)
Lemma after_blanks {A} (g : PState → A) st b s : (∀ st, valid bytes st → g (skip_spaces bytes st) = g st) → valid bytes st →
  rest bytes st = b ++ s → blanks b → g st = g (moved b st).
Proof.
  intros Hg Hv Hr Hb. destruct (rest_moved bytes b s st Hv Hr) as [_ Hv']. rewrite <-(Hg st Hv), <-(Hg _ Hv').
  by rewrite (skip_blanks bytes st b s).
Qed.

Lemma and_loop_stops f st : valid bytes st → starts (lit "and") (strip (rest bytes st)) = false →
  becomes (λ n, and_loop bytes n f st) (Ok (f, skip_spaces bytes st)).
Proof.
  intros Hv Hs. eapply becomes_step; [intros n; cbn [and_loop]; rewrite take_word_eq by done; cbn zeta; rewrite rest_skip, Hs by done; reflexivity|].
  by apply becomes_now.
Qed.

Lemma or_loop_stops f st : valid bytes st → starts (lit "or") (strip (rest bytes st)) = false →
  becomes (λ n, or_loop bytes n f st) (Ok (f, skip_spaces bytes st)).
Proof.
  intros Hv Hs. eapply becomes_step; [intros n; cbn [or_loop]; rewrite take_word_eq by done; cbn zeta; rewrite rest_skip, Hs by done; reflexivity|].
  by apply becomes_now.
Qed.

Lemma or_loop_closes f st b c s : valid bytes st → rest bytes st = b ++ c :: s → blanks b → c = ")" ∨ c = "]" →
  becomes (λ n, or_loop bytes n f st) (Ok (f, moved b st)).
Proof.
  intros Hv Hr Hb Hc. eapply becomes_step; [intros n; cbn [or_loop]; rewrite (take_word_miss bytes _ st b (c :: s)); [reflexivity|..]|].
  - done.
  - done.
  - done.
  - intros d s' [= <- <-]. by destruct Hc as [-> | ->].
  - by destruct Hc as [-> | ->]; apply (starts_other _ "o" ["r"]).
  - by apply becomes_now.
Qed.

Definition reads_level (lvl : Level) (t : text) (f : Filter) (st : PState) (post : text) : Prop :=
  match lvl with
  | AtOr => starts (lit "and") (strip post) = false → ∀ r, becomes (λ n, or_loop bytes n f (moved t st)) r →
      becomes (λ n, parse_or bytes n st) r
  | AtAnd => ∀ r, becomes (λ n, and_loop bytes n f (moved t st)) r → becomes (λ n, parse_and bytes n st) r
  | AtUnary => becomes (λ n, parse_unary bytes n st) (Ok (f, moved t st))
  end.

Definition reads_at (d : nat) (v : bool) (lvl : Level) (t : text) (f : Filter) : Prop :=
  ∀ st post, valid bytes st → rest bytes st = t ++ post → depth st = d → in_value_path st = v → boundary post → reads_level lvl t f st post.

Definition reads_group (d : nat) (v : bool) (t : text) (f : Filter) : Prop :=
  ∀ st post, valid bytes st → rest bytes st = t ++ post → depth st = d → in_value_path st = v →
  becomes (λ n, parse_group bytes n st) (Ok (f, moved t st)).

Lemma gap_boundary g s : gap g → boundary (g ++ s).
Proof. intros (g' & -> & _)%gap_cons. by left. Qed.

Lemma keyword_not_space word w0 ws w s : word = w0 :: ws → lower_char w0 ≠ " " → keyword word w → ∀ c s', w ++ s = c :: s' → c ≠ " ".
Proof.
  intros Hword Hw0 Hw c s'. destruct (keyword_head _ _ _ _ Hword Hw) as (c0 & w' & -> & Hc0). intros [= <- _] ->. by apply Hw0.
Qed.

Lemma take_gap_word word st g1 w g2 s : valid bytes st → rest bytes st = g1 ++ w ++ g2 ++ s → gap g1 → gap g2 → keyword word w →
  head (to_ascii_lowercase word) ≠ Some " " → word ≠ [] → take_word bytes word st = Returned (Ok (true, moved w (moved g1 st))).
Proof.
  intros Hv Hr [_ Hg1] (g' & -> & _)%gap_cons Hw Hsp Hne. rewrite moved_moved. by eapply take_word_hit; [| | | | | |].
Qed.

Lemma reads_or d v a l g1 w g2 b r : reads_at d v AtOr a l → gap g1 → keyword (lit "or") w → gap g2 → reads_at d v AtAnd b r →
  reads_at d v AtOr (a ++ g1 ++ w ++ g2 ++ b) (FOr l r).
Proof.
  intros IHa Hg1 Hw Hg2 IHb st post Hv Hr Hd Hp Hpost Hstop x Hx. rewrite <-!app_assoc in Hr.
  destruct (rest_moved bytes a _ st Hv Hr) as [Hr1 Hv1].
  pose proof (keyword_not_space _ "o" ["r"] w (g2 ++ b ++ post) eq_refl ltac:(done) Hw) as Hw0.
  apply (IHa st _ Hv Hr Hd Hp); [by apply gap_boundary| |].
  { rewrite strip_blanks; [|by destruct Hg1|done]. destruct (keyword_head _ _ _ _ eq_refl Hw) as (c & w' & -> & Hc).
    apply (starts_other _ "a" (lit "nd")); [done|]. by rewrite Hc. }
  rewrite <-!moved_moved in Hx. set (st1 := moved a st) in *. assert (rest bytes st1 = (g1 ++ w) ++ g2 ++ b ++ post) as Hr1' by (by rewrite Hr1, <-app_assoc).
  destruct (rest_moved bytes (g1 ++ w) _ st1 Hv1 Hr1') as [Hr2 Hv2]. rewrite <-moved_moved in Hr2, Hv2.
  destruct (rest_moved bytes g2 _ _ Hv2 Hr2) as [Hr3 Hv3]. destruct (rest_moved bytes b _ _ Hv3 Hr3) as [Hr4 Hv4].
  eapply becomes_step; [intros n; cbn [or_loop]; rewrite (take_gap_word (lit "or") st1 g1 w g2 (b ++ post)) by done; reflexivity|].
  eapply becomes_bind.
  - eapply becomes_eq; [intros n; apply (after_blanks (parse_and bytes n) _ g2 (b ++ post)); [by intros; apply parse_and_skip|done|done|by destruct Hg2]|].
    apply (IHb _ post); [done|done|done|done|done|]. apply and_loop_stops; [done|by rewrite Hr4].
  - eapply becomes_eq; [intros n; by apply or_loop_skip|]. exact Hx.
Qed.

Lemma reads_and d v a l g1 w g2 b r : reads_at d v AtAnd a l → gap g1 → keyword (lit "and") w → gap g2 → reads_at d v AtUnary b r →
  reads_at d v AtAnd (a ++ g1 ++ w ++ g2 ++ b) (FAnd l r).
Proof.
  intros IHa Hg1 Hw Hg2 IHb st post Hv Hr Hd Hp Hpost x Hx. rewrite <-!app_assoc in Hr.
  destruct (rest_moved bytes a _ st Hv Hr) as [Hr1 Hv1]. apply (IHa st _ Hv Hr Hd Hp); [by apply gap_boundary|].
  rewrite <-!moved_moved in Hx. set (st1 := moved a st) in *. assert (rest bytes st1 = (g1 ++ w) ++ g2 ++ b ++ post) as Hr1' by (by rewrite Hr1, <-app_assoc).
  destruct (rest_moved bytes (g1 ++ w) _ st1 Hv1 Hr1') as [Hr2 Hv2]. rewrite <-moved_moved in Hr2, Hv2.
  destruct (rest_moved bytes g2 _ _ Hv2 Hr2) as [Hr3 Hv3].
  eapply becomes_step; [intros n; cbn [and_loop]; rewrite (take_gap_word (lit "and") st1 g1 w g2 (b ++ post)) by done; reflexivity|].
  eapply becomes_bind; [|exact Hx].
  eapply becomes_eq; [intros n; apply (after_blanks (parse_unary bytes n) _ g2 (b ++ post)); [by intros; apply parse_unary_skip|done|done|by destruct Hg2]|].
  by apply (IHb _ post).
Qed.

Lemma reads_one_and d v a f : reads_at d v AtAnd a f → reads_at d v AtOr a f.
Proof.
  intros IH st post Hv Hr Hd Hp Hpost Hstop x Hx. destruct (rest_moved bytes a _ st Hv Hr) as [Hr1 Hv1].
  eapply becomes_step; [intros n; reflexivity|]. eapply becomes_bind.
  - apply (IH st post); try done. apply and_loop_stops; [done|by rewrite Hr1].
  - eapply becomes_eq; [intros n; by apply or_loop_skip|]. exact Hx.
Qed.

Lemma reads_unary d v a f : reads_at d v AtUnary a f → reads_at d v AtAnd a f.
Proof.
  intros IH st post Hv Hr Hd Hp Hpost x Hx. eapply becomes_step; [intros n; reflexivity|].
  eapply becomes_bind; [by apply (IH st post)|exact Hx].
Qed.
Lemma skip_none st c s : rest bytes st = c :: s → c ≠ " " → skip_spaces bytes st = st.
Proof.
  intros Hr Hc. rewrite (skip_moved bytes st [] (c :: s)); [by rewrite moved_nil|done|by constructor|by intros ? ? [= <- <-]].
Qed.

(** What a bracket and a value path share: a filter one level down, up to its closing character. *)
Lemma reads_inner d v b1 a b2 f c post st : reads_at d v AtOr a f → c = ")" ∨ c = "]" → valid bytes st →
  rest bytes st = b1 ++ a ++ b2 ++ c :: post → blanks b1 → blanks b2 → depth st = d → in_value_path st = v →
  becomes (λ n, parse_or bytes n st) (Ok (f, moved (b1 ++ a ++ b2) st)) ∧ rest bytes (moved (b1 ++ a ++ b2) st) = c :: post.
Proof.
  intros IH Hc Hv Hr Hb1 Hb2 Hd Hp. rewrite <-!moved_moved.
  destruct (rest_moved bytes b1 _ st Hv Hr) as [Hr1 Hv1]. destruct (rest_moved bytes a _ _ Hv1 Hr1) as [Hr2 Hv2].
  destruct (rest_moved bytes b2 _ _ Hv2 Hr2) as [Hr3 Hv3]. split; [|done].
  eapply becomes_eq; [intros n; apply (after_blanks (parse_or bytes n) st b1 (a ++ b2 ++ c :: post)); [by intros; apply parse_or_skip|done|done|done]|].
  assert (∀ c' s', c :: post = c' :: s' → c' ≠ " ") as Hns by (intros c' s' [= <- <-]; by destruct Hc as [-> | ->]).
  apply (IH (moved b1 st) (b2 ++ c :: post) Hv1 Hr1 Hd Hp).
  - destruct Hb2 as [|c2 b2 -> Hb2]; [by destruct Hc as [-> | ->]; [right; left|right; right]|by left].
  - rewrite strip_blanks by done. by destruct Hc as [-> | ->]; apply (starts_other _ "a" (lit "nd")).
  - by eapply or_loop_closes.
Qed.

Lemma reads_group_text d v b1 a b2 f : (S d ≤ FILTER_MAX_DEPTH)%nat → blanks b1 → blanks b2 → reads_at (S d) v AtOr a f →
  reads_group d v ("(" :: b1 ++ a ++ b2 ++ [")"]) f.
Proof.
  intros Hdepth Hb1 Hb2 IH st post Hv Hr Hd Hp.
  assert (rest bytes st = "(" :: b1 ++ a ++ b2 ++ ")" :: post) as Hr' by (rewrite Hr; simpl; by rewrite <-!app_assoc).
  destruct (drop_first bytes _ _ _ Hr') as [Hat Hnext].
  destruct (rest_moved bytes ["("] _ st Hv Hr') as [_ Hv1]. unfold moved, at_pos in Hv1. simpl in Hv1. rewrite Nat.add_1_r in Hv1.
  destruct (reads_inner (S d) v b1 a b2 f ")" post (deeper st) IH) as [Hor Hclose]; try done; [by left|by unfold deeper; simpl; rewrite Hd|].
  eapply becomes_step.
  { intros n. cbn [parse_group]. rewrite (skip_none st _ _ Hr') by done. rewrite Hat, bool_decide_eq_true_2 by done. cbn [negb].
    rewrite (proj2 (Nat.ltb_ge _ _)) by (rewrite Hd; exact Hdepth). reflexivity. }
  eapply becomes_bind; [exact Hor|]. set (st1 := moved (b1 ++ a ++ b2) (deeper st)) in *. apply becomes_now.
  rewrite (skip_none st1 _ _ Hclose) by done. rewrite rest_lookup, Hclose, bool_decide_eq_true_2 by done. cbn [negb].
  do 3 f_equal. unfold st1, moved, at_pos, deeper. cbn [pos depth in_value_path]. f_equal; [|lia].
  cbn [length]. rewrite !length_app. cbn [length]. lia.
Qed.

Lemma reads_not d v w g a f : keyword (lit "not") w → blanks g → (∃ a', a = "(" :: a') → reads_group d v a f →
  reads_at d v AtUnary (w ++ g ++ a) (FNot f).
Proof.
  intros Hw Hg [a' Ha] IH st post Hv Hr Hd Hp Hpost. rewrite <-!app_assoc in Hr. unfold reads_level. rewrite <-!moved_moved.
  destruct (rest_moved bytes w _ st Hv Hr) as [Hr1 Hv1]. destruct (rest_moved bytes g _ _ Hv1 Hr1) as [Hr2 Hv2].
  assert (take_word bytes (lit "not") st = Returned (Ok (true, moved w st))) as Htake.
  { apply (take_word_hit bytes (lit "not") st [] w (g ++ a ++ post)); try done; [by constructor|]. subst a.
    destruct Hg as [|c g -> Hg]; done. }
  eapply becomes_step; [intros n; cbn [parse_unary]; rewrite Htake; cbn iota; reflexivity|].
  eapply becomes_bind; [|by apply becomes_now].
  eapply becomes_eq; [intros n; rewrite parse_group_skip by done; apply (after_blanks (parse_group bytes n) _ g (a ++ post));
    [by intros; apply parse_group_skip|done|done|done]|].
  by apply (IH _ post).
Qed.

Lemma reads_bracket d v a f : (∃ a', a = "(" :: a') → reads_group d v a f → reads_at d v AtUnary a f.
Proof.
  intros [a' Ha] IH st post Hv Hr Hd Hp Hpost. assert (rest bytes st = "(" :: a' ++ post) as Hr' by (by rewrite Hr, Ha).
  unfold reads_level. eapply becomes_step; [|by apply (IH st post)].
  intros n. cbn [parse_unary]. rewrite (miss_word bytes (lit "not") st "(" _ "n" (lit "ot")) by done. cbn iota.
  rewrite (skip_none st _ _ Hr') by done. by rewrite rest_lookup, Hr', bool_decide_eq_true_2.
Qed.

(** A path first: [parse_unary] comes to [parse_compare], which reads it. *)
Lemma reads_path p c s st : valid bytes st → rest bytes st = path_text p ++ c :: s → path_ok p → is_path_byte c = false →
  eq_ignore_ascii_case (path_text p) (lit "not") = false ∨ is_delimiter c = false → ∀ x,
  becomes (λ n, if bool_decide (Some c = Some "[") then parse_value_path bytes n p (moved (path_text p) st)
    else let! (present, st2) := take_word bytes (lit "pr") (skip_spaces bytes (moved (path_text p) st)) in
      if present then Returned (Ok (Present p, st2))
      else let! (op, st3) := parse_op bytes st2 in
           let! (value, st4) := parse_value bytes (skip_spaces bytes st3) in Returned (Ok (Compare p op value, st4))) x →
  becomes (λ n, parse_unary bytes n st) x.
Proof.
  intros Hv Hr Hp Hc Hnot x Hx. destruct (path_text_bytes p Hp) as [Hbytes Hne].
  destruct (path_text p) as [|e t] eqn:Htext; [done|]. rewrite <-Htext in *.
  assert (is_path_byte e = true) as He by (rewrite Htext in Hbytes; by apply Forall_cons in Hbytes as [? _]).
  assert (rest bytes st = e :: t ++ c :: s) as Hr' by (by rewrite Hr, Htext).
  apply is_path_byte_ascii in He as (_ & Hdel & Hsp).
  assert (take_word bytes (lit "not") st = Returned (Ok (false, st))) as Htake.
  { rewrite (take_word_miss bytes _ st [] (e :: t ++ c :: s)); [by rewrite moved_nil|done|done|by constructor|by intros ? ? [= <- <-]|].
    rewrite <-Hr', Hr. apply not_true_iff_false. intros Hs.
    apply starts_path in Hs as [H1 H2]; [|done|done|by repeat constructor]. destruct Hnot; congruence. }
  eapply becomes_step; [|eapply becomes_step; [|exact Hx]].
  - intros n. cbn [parse_unary]. rewrite Htake. cbn iota. rewrite (skip_none st _ _ Hr') by done. rewrite rest_lookup, Hr'.
    rewrite bool_decide_eq_false_2; [reflexivity|]. intros [= ->]. done.
  - intros n. cbn [parse_compare]. rewrite (parse_attr_path_reads bytes st p c s) by done. cbn iota.
    destruct (rest_moved bytes (path_text p) _ st Hv Hr) as [Hr1 _]. by rewrite rest_lookup, Hr1.
Qed.

Lemma reads_present d v p g w : path_ok p → eq_ignore_ascii_case (path_text p) (lit "not") = false → gap g →
  keyword (lit "pr") w → reads_at d v AtUnary (path_text p ++ g ++ w) (Present p).
Proof.
  intros Hp Hnot Hg Hw st post Hv Hr Hd Hvp Hpost. rewrite <-!app_assoc in Hr. unfold reads_level. rewrite <-moved_moved.
  destruct (rest_moved bytes (path_text p) _ st Hv Hr) as [Hr1 Hv1]. destruct (gap_cons _ Hg) as (g' & Hg' & _).
  apply (reads_path p " " (g' ++ w ++ post)); [done|by rewrite Hr, Hg'|done|done|by left|].
  eapply becomes_eq; [intros n; rewrite bool_decide_eq_false_2 by done; reflexivity|]. apply becomes_now.
  rewrite take_word_skip by done. rewrite (take_word_hit bytes (lit "pr") (moved (path_text p) st) g w post); try done.
  - by destruct Hg.
  - by apply boundary_delimiter.
Qed.

Lemma reads_compare d v p g1 word w op g2 t l : path_ok p → eq_ignore_ascii_case (path_text p) (lit "not") = false → gap g1 →
  (word, op) ∈ OPERATORS → keyword word w → gap g2 → literal_text t l →
  reads_at d v AtUnary (path_text p ++ g1 ++ w ++ g2 ++ t) (Compare p op l).
Proof.
  intros Hp Hnot Hg1 Hop Hw Hg2 Hl st post Hv Hr Hd Hvp Hpost. rewrite <-!app_assoc in Hr. unfold reads_level. rewrite <-!moved_moved.
  destruct (rest_moved bytes (path_text p) _ st Hv Hr) as [Hr1 Hv1]. destruct (rest_moved bytes g1 _ _ Hv1 Hr1) as [Hr2 Hv2].
  destruct (rest_moved bytes w _ _ Hv2 Hr2) as [Hr3 Hv3]. destruct (gap_cons _ Hg1) as (g1' & Hg1' & _).
  destruct (gap_cons _ Hg2) as (g2' & Hg2' & _).
  apply (reads_path p " " (g1' ++ w ++ g2 ++ t ++ post)); [done|by rewrite Hr, Hg1'|done|done|by left|].
  eapply becomes_eq; [intros n; rewrite bool_decide_eq_false_2 by done; reflexivity|]. apply becomes_now.
  rewrite take_word_skip by done. set (st1 := moved (path_text p) st) in *. clearbody st1.
  assert (∃ w0 ws, word = w0 :: ws ∧ lower_char w0 ≠ " " ∧ length word = 2%nat ∧ eq_ignore_ascii_case word (lit "pr") = false) as (w0 & ws & Hword & Hw0 & Hlen & Hpr).
  { unfold OPERATORS in Hop. repeat (apply elem_of_cons in Hop as [[= -> ->]|Hop]; [by eexists _, _|]). by apply elem_of_nil in Hop. }
  rewrite (take_word_miss bytes (lit "pr") st1 g1 (w ++ g2 ++ t ++ post)); [|done|done|by destruct Hg1|by eapply keyword_not_space|].
  2: { rewrite Hg2'. cbn [app]. by rewrite (starts_keyword word) by (done || by rewrite Hlen). }
  cbn iota. rewrite (parse_op_reads bytes (moved g1 st1) [] w (g2' ++ t ++ post) word op); [|done|by rewrite Hr2, Hg2'|by constructor|done|done].
  cbn [app]. cbn iota. assert (parse_value bytes (skip_spaces bytes (moved w (moved g1 st1))) = parse_value bytes (moved w (moved g1 st1))) as ->.
  { unfold parse_value. by rewrite skip_skip. }
  rewrite (parse_value_reads bytes _ g2 t l post); [|done|done|by destruct Hg2|done|done]. cbn iota. by rewrite !moved_moved.
Qed.

Lemma reads_value_path d p b1 a b2 f : path_ok p → (S d ≤ FILTER_MAX_DEPTH)%nat → blanks b1 → blanks b2 →
  reads_at (S d) true AtOr a f → reads_at d false AtUnary (path_text p ++ "[" :: b1 ++ a ++ b2 ++ ["]"]) (ValuePath p f).
Proof.
  intros Hp Hdepth Hb1 Hb2 IH st post Hv Hr Hd Hvp Hpost. unfold reads_level. rewrite <-moved_moved.
  assert (rest bytes st = path_text p ++ "[" :: b1 ++ a ++ b2 ++ "]" :: post) as Hr' by (rewrite Hr; simpl; by rewrite <-!app_assoc, <-app_comm_cons, <-!app_assoc).
  destruct (rest_moved bytes (path_text p) _ st Hv Hr') as [Hr1 Hv1].
  apply (reads_path p "[" (b1 ++ a ++ b2 ++ "]" :: post)); [done|done|done|done|by right|].
  eapply becomes_eq; [intros n; rewrite bool_decide_eq_true_2 by done; reflexivity|].
  set (st1 := moved (path_text p) st) in *. assert (depth st1 = d ∧ in_value_path st1 = false) as [Hd1 Hvp1] by done. clearbody st1.
  destruct (drop_first bytes _ _ _ Hr1) as [Hat Hnext]. set (st2 := mkPState (S (pos st1)) (S (depth st1)) true).
  assert (valid bytes st2) as Hv2. { destruct (rest_moved bytes ["["] _ st1 Hv1 Hr1) as [_ Hv2]. unfold valid, moved, at_pos in *. simpl in *. lia. }
  destruct (reads_inner (S d) true b1 a b2 f "]" post st2 IH) as [Hor Hclose]; try done; [by right|by unfold st2; simpl; rewrite Hd1|].
  eapply becomes_step.
  { intros n. cbn [parse_value_path]. rewrite Hvp1. rewrite (proj2 (Nat.ltb_ge _ _)) by (rewrite Hd1; exact Hdepth). reflexivity. }
  eapply becomes_bind; [exact Hor|]. apply becomes_now. set (st3 := moved (b1 ++ a ++ b2) st2) in *.
  set (st4 := mkPState (pos st3) (depth st3) false). assert (rest bytes st4 = "]" :: post) as Hr4 by exact Hclose.
  rewrite (skip_none st4 _ _ Hr4) by done. rewrite rest_lookup, Hr4, bool_decide_eq_true_2 by done. cbn [negb].
  do 3 f_equal. unfold st4, st3, st2, moved, at_pos. cbn [pos depth in_value_path]. f_equal; [|lia|done].
  cbn [length]. rewrite !length_app. cbn [length]. lia.
Qed.

Lemma renders_group_head d v a f : renders_group d v a f → ∃ a', a = "(" :: a'.
Proof. destruct 1. by eexists. Qed.

Lemma renders_reads d v lvl t f : renders d v lvl t f → reads_at d v lvl t f.
Proof.
  intros Hr. induction Hr using renders_mut with (P0 := λ d v a f _, reads_group d v a f);
    eauto using reads_or, reads_and, reads_one_and, reads_unary, reads_not, reads_bracket, reads_present, reads_compare,
      reads_value_path, reads_group_text, renders_group_head.
Qed.
End Reads.

(** C38 (roundtrip): the parser reads the whole grammar: every text of at most 4096 bytes that the
    grammar gives for a filter, nested at most twenty deep, with any spaces around it,
    is read back as that filter, with [and] tighter than [or] and both to the left. *)
Theorem grammar_reads_back b1 t b2 f (Hb1 : blanks b1) (Hb2 : blanks b2) (Ht : renders 0 false AtOr t f)
  (Hlen : (length (b1 ++ t ++ b2) ≤ FILTER_MAX_LEN)%nat) : parse_filter (b1 ++ t ++ b2) = Returned (Ok f).
Proof.
  unfold parse_filter. rewrite (proj2 (Nat.ltb_ge _ _)) by done. set (input := b1 ++ t ++ b2). set (st := mkPState 0 0 false).
  assert (valid input st) as Hv by (unfold valid; simpl; lia). assert (rest input st = b1 ++ t ++ b2) as Hr by done.
  destruct (rest_moved input b1 _ st Hv Hr) as [Hr1 Hv1]. destruct (rest_moved input t _ _ Hv1 Hr1) as [Hr2 Hv2].
  assert (strip b2 = []) as Hstrip by (by rewrite <-(app_nil_r b2), strip_blanks).
  assert (becomes (λ n, parse_or input n st) (Ok (f, skip_spaces input (moved t (moved b1 st))))) as [n0 Hor].
  { eapply becomes_eq; [intros n; apply (after_blanks input (parse_or input n) st b1 (t ++ b2)); [by intros; apply parse_or_skip|done|done|done]|].
    apply (renders_reads input _ _ _ _ _ Ht (moved b1 st) b2); try done; [|by rewrite Hstrip|].
    - destruct Hb2 as [|c b2 -> Hb2]; [done|by left].
    - apply or_loop_stops; [done|by rewrite Hr2, Hstrip]. }
  destruct (parse_settles input (filter_fuel input)) as [Hret _]. specialize (Hret st Hv).
  specialize (Hret ltac:(unfold enough, filter_fuel; simpl; lia)).
  assert (parse_or input (filter_fuel input) st = Returned (Ok (f, skip_spaces input (moved t (moved b1 st))))) as ->.
  { rewrite <-(Hor (Nat.max n0 (filter_fuel input))) by lia.
    destruct (parse_or input (filter_fuel input) st) as [x| |] eqn:Hx; [|done..]. symmetry. eapply more_fuel; [|exact Hx]. lia. }
  cbn iota zeta. rewrite skip_skip by done.
  assert (pos (skip_spaces input (moved t (moved b1 st))) = length input) as ->; [|by rewrite bool_decide_eq_true_2].
  pose proof (rest_length input (skip_spaces input (moved t (moved b1 st))) (skip_valid _ _ Hv2)) as Hl.
  rewrite rest_skip, Hr2, Hstrip in Hl by done. simpl length in Hl at 2. lia.
Qed.

Lemma grammar_reads_back_witness :
  parse_filter (lit " a.b EQ null and NOT(c pr ) or d PR") =
  Returned (Ok (FOr (FAnd (Compare (mkAttributePath None (lit "a") (Some (lit "b"))) OpEqual LNull)
                          (FNot (Present (mkAttributePath None (lit "c") None))))
                    (Present (mkAttributePath None (lit "d") None)))).
Proof.
  assert (∀ d v c w, path_ok (mkAttributePath None [c] None) → eq_ignore_ascii_case [c] (lit "not") = false → keyword (lit "pr") w →
    renders d v AtUnary ([c] ++ [" "] ++ w) (Present (mkAttributePath None [c] None))) as Hpr.
  { intros d v c w Hp Hc Hw. apply (renders_present d v (mkAttributePath None [c] None) [" "] w); [done|done|by split; repeat constructor|done]. }
  assert (∀ c, is_name_char c = true → path_ok (mkAttributePath None [c] None)) as Hok by (by intros c Hc; split_and!; repeat constructor).
  apply (grammar_reads_back [" "] (lit "a.b EQ null and NOT(c pr ) or d PR") []); [by repeat constructor|constructor| |vm_compute; lia].
  apply (renders_or 0 false (lit "a.b EQ null and NOT(c pr )") _ [" "] (lit "or") [" "] (lit "d PR"));
    [|by split; repeat constructor|done|by split; repeat constructor|by apply renders_unary, Hpr; [apply Hok| |]].
  apply renders_one_and, (renders_and 0 false (lit "a.b EQ null") _ [" "] (lit "and") [" "] (lit "NOT(c pr )"));
    [|by split; repeat constructor|done|by split; repeat constructor|].
  - apply renders_unary, (renders_compare 0 false (mkAttributePath None (lit "a") (Some (lit "b"))) [" "] (lit "eq") (lit "EQ") OpEqual [" "] (lit "null") LNull);
      [|done|by split; repeat constructor|by left|done|by split; repeat constructor|by constructor].
    split_and!; [done|by repeat constructor|done|]. intros s [= <-]. split; [done|]. by repeat constructor.
  - apply (renders_not 0 false (lit "NOT") [] (lit "(c pr )")); [done|constructor|].
    apply (group_text 0 false [] (lit "c pr") [" "]); [unfold FILTER_MAX_DEPTH; lia|constructor|by repeat constructor|].
    by apply renders_one_and, renders_unary, Hpr; [apply Hok| |].
Defined.

(** ** Evaluation *)

(** Names that differ in ASCII case only; paths whose names do, whatever their URNs. *)
Definition same_name (a b : text) : Prop := to_ascii_lowercase a = to_ascii_lowercase b.

Definition same_path (p q : AttributePath) : Prop :=
  same_name (path_name p) (path_name q) ∧ to_ascii_lowercase <$> path_sub p = to_ascii_lowercase <$> path_sub q.

Definition is_ascii_text (s : text) : bool := forallb (λ c, (code c <? 128)%Z) s.

Inductive same_literal : FilterLiteral → FilterLiteral → Prop :=
| same_string a b : is_ascii_text a = true → is_ascii_text b = true → same_name a b → same_literal (LString a) (LString b)
| same_value l : same_literal l l.

Inductive same_filter : Filter → Filter → Prop :=
| same_compare p q op l m : same_path p q → same_literal l m → same_filter (Compare p op l) (Compare q op m)
| same_present p q : same_path p q → same_filter (Present p) (Present q)
| same_value_path p q f g : same_path p q → same_filter f g → same_filter (ValuePath p f) (ValuePath q g)
| same_and f f' g g' : same_filter f f' → same_filter g g' → same_filter (FAnd f g) (FAnd f' g')
| same_or f f' g g' : same_filter f f' → same_filter g g' → same_filter (FOr f g) (FOr f' g')
| same_not f f' : same_filter f f' → same_filter (FNot f) (FNot f').

Lemma existsb_ext {A} (p q : A → bool) l : (∀ x, p x = q x) → existsb p l = existsb q l.
Proof. intros Hpq. induction l as [|x l IH]; [done|]. simpl. by rewrite Hpq, IH. Qed.

Lemma find_map_ext {A B} (f g : A → option B) l : (∀ x, f x = g x) → find_map f l = find_map g l.
Proof. intros Hfg. induction l as [|x l IH]; [done|]. simpl. by rewrite Hfg, IH. Qed.

Section Evaluation.
Context `{SerdeNumber} `{LowercaseLaws}.

Lemma member_case value a b : same_name a b → member value a = member value b.
Proof.
  intros Hab. unfold member. destruct (as_object value) as [object|]; [|done]. simpl. f_equal.
  induction object as [|kv object IH]; [done|]. cbn [List.find]. unfold eq_ignore_ascii_case at 1 3. by rewrite Hab, IH.
Qed.

Lemma extension_member_case value a b : same_name a b → extension_member value a = extension_member value b.
Proof.
  intros Hab. unfold extension_member. destruct (as_object value) as [object|]; [|done]. simpl. apply find_map_ext.
  intros kv. by apply member_case.
Qed.

Lemma attribute_values_case value p q : same_path p q → attribute_values value p = attribute_values value q.
Proof.
  intros [Hname Hsub]. unfold attribute_values. rewrite (member_case value _ _ Hname), (extension_member_case value _ _ Hname).
  destruct (match member value _ with Some found => Some found | None => _ end) as [found|]; [|done].
  destruct (path_sub p) as [a|], (path_sub q) as [b|]; simplify_eq/=; [|done].
  assert (same_name a b) as Hab by exact Hsub.
  destruct found; try by rewrite (member_case _ _ _ Hab). apply list_omap_ext. apply Forall2_same_length_lookup_2; [done|].
  intros i x y Hx Hy. simplify_eq. by apply member_case.
Qed.

Lemma compare_values_case found op l m : same_literal l m → compare_values found op l = compare_values found op m.
Proof.
  destruct 1 as [a b Ha Hb Hab|]; [|done]. destruct found; try done. cbn [compare_values]. unfold string_compare.
  by rewrite !(to_lowercase_ascii a), !(to_lowercase_ascii b), Hab by done.
Qed.

(** The spelling of a filter does not matter to what it selects: two filters that
    differ in the ASCII case of attribute names and of string values, and in the schema URNs
    before the names, match the same resources. *)
Theorem spelling_is_immaterial f g resource (Hsame : same_filter f g) : filter_matches f resource = filter_matches g resource.
Proof.
  revert resource. induction Hsame as [p q op l m Hp Hl|p q Hp|p q f g Hp _ IH|f f' g g' _ IHf _ IHg|f f' g g' _ IHf _ IHg|f f' _ IH];
    intros resource; cbn [filter_matches].
  - rewrite (attribute_values_case _ _ _ Hp). destruct (attribute_values resource q); [done|].
    apply existsb_ext. intros value. by apply compare_values_case.
  - by rewrite (attribute_values_case _ _ _ Hp).
  - destruct Hp as [Hp _]. rewrite (member_case _ _ _ Hp). destruct (member resource (path_name q)) as [[]|]; try done.
    by apply existsb_ext.
  - by rewrite IHf, IHg.
  - by rewrite IHf, IHg.
  - by rewrite IH.
Qed.
End Evaluation.

Module ScimSamples.
Import JsonSamples.

#[export] Instance ascii_lowercase : Lowercase := {| to_lowercase := to_ascii_lowercase |}.
#[export] Instance ascii_lowercase_laws : LowercaseLaws.
Proof. constructor. done. Qed.

Definition user : Value := VObject [("emails"%string, VArray [VObject [("Type"%string, VString "Work"%string)]])].
End ScimSamples.
Import JsonSamples ScimSamples.

Lemma spelling_is_immaterial_witness : ∃ f g : Filter, f ≠ g ∧
  parse_filter (lit "urn:x:Emails.TYPE eq true or emails.type eq null") = Returned (Ok f) ∧
  parse_filter (lit "emails.type eq true or EMAILS.type eq null") = Returned (Ok g) ∧
  filter_matches f user = filter_matches g user.
Proof.
  eexists _, _. split; [shelve|]. split; [vm_compute; reflexivity|]. split; [vm_compute; reflexivity|].
  apply spelling_is_immaterial. by repeat constructor.
  Unshelve. done.
Defined.

(** The comment on the escape says four hexadecimal digits; [u32::from_str_radix] also takes a sign. *)
Lemma signed_escape_is_read :
  parse_string (chr 34 :: lit "\u+041" ++ [chr 34]) (mkPState 0 0 false) = Returned (Ok (LString (lit "A"), mkPState 8 0 false)).
Proof. vm_compute. reflexivity. Qed.

(** Whether a text parses to a filter that matches. *)
Definition selects (input : string) (resource : Value) : bool :=
  match parse_filter (lit input) with Returned (Ok f) => filter_matches f resource | _ => false end.

(** A value path looks at the attribute only: the sub-attribute before the bracket is dropped. *)
Lemma value_path_drops_sub_attribute :
  let inner := VArray [VObject [("c"%string, VBool true)]] in
  selects "a.b[c eq true]" (VObject [("a"%string, inner)]) = true ∧
  selects "a.b[c eq true]" (VObject [("a"%string, VObject [("b"%string, inner)])]) = false.
Proof. vm_compute. done. Qed.

(** And not at the attributes of an extension, which the other filters find. *)
Lemma value_path_misses_extensions :
  let user := VObject [("urn:ietf:params:scim:schemas:extension:x"%string,
                        VObject [("tags"%string, VArray [VObject [("c"%string, VBool true)]])])] in
  selects "tags.c eq true" user = true ∧ selects "tags[c eq true]" user = false.
Proof. vm_compute. done. Qed.
