(* ===== verification/ScimPath.v ===== *)
(** * SCIM paths

    crates/ironauth-scim path.rs and patch.rs: the path of a resource ([/Users/usr_1]), taken
    as it arrived and refused rather than repaired, and the path of a patch operation
    ([members[value eq "x"].display]), whose selector is a filter.  Each parser is shown to
    accept exactly the texts of one shape, and to say what the text says; so a resource
    has one spelling, and nothing inside the brackets of a selector decides how the rest
    of the path is read. *)

From S2P Require Import Prelude Machine Text ScimFilter.

Local Open Scope char_scope.

(** ** Resource paths *)

Inductive ResourceType : Set := User | Group.

Definition resource_type_as_str (t : ResourceType) : string :=
  match t with User => "Users" | Group => "Groups" end.

Record ResourceRef : Type := mkResourceRef { resource_type : ResourceType; resource_id : option (list ascii) }.

Inductive PathError : Set := UnknownResourceType | TooManySegments | IllegalSegment | EmptyPath.

Definition PathError_to_string (e : PathError) : string :=
  match e with
  | UnknownResourceType => "unknown SCIM resource type"
  | TooManySegments => "the path names more than one resource"
  | IllegalSegment => "the path contains an illegal segment"
  | EmptyPath => "the path names no resource"
  end.

Definition is_legal_segment_byte (c : ascii) : bool := is_ascii_alphanumeric c || is_char "_" c || is_char "-" c.

Definition parse_resource_type (type_segment : text) : Result ResourceType PathError :=
  if bool_decide (type_segment = lit "Users") then Ok User
  else if bool_decide (type_segment = lit "Groups") then Ok Group
  else Err UnknownResourceType.

Definition parse_resource_id (segment : option text) : Result (option text) PathError :=
  match segment with
  | None => Ok None
  | Some segment =>
      if bool_decide (segment = []) then Err IllegalSegment
      else if negb (forallb is_legal_segment_byte segment) then Err IllegalSegment
      else Ok (Some segment)
  end.

Definition parse_resource_path (raw : text) : Result ResourceRef PathError :=
  match strip_prefix ["/"] raw with
  | None => Err IllegalSegment
  | Some trimmed =>
      if bool_decide (trimmed = []) then Err EmptyPath
      else if text_ends_with trimmed ["/"] then Err IllegalSegment
      else
        match split_char "/" trimmed with
        | [] => Err EmptyPath
        | type_segment :: segments =>
            match parse_resource_type type_segment with
            | Err e => Err e
            | Ok resource_type =>
                match parse_resource_id (head segments) with
                | Err e => Err e
                | Ok id => if bool_decide (is_Some (segments !! 1%nat)) then Err TooManySegments else Ok (mkResourceRef resource_type id)
                end
            end
        end
  end.

(** The one spelling of a reference. *)
Definition resource_path (r : ResourceRef) : text :=
  "/" :: lit (resource_type_as_str (resource_type r)) ++ match resource_id r with Some id => "/" :: id | None => [] end.

Definition legal_id (id : text) : Prop := id ≠ [] ∧ Forall (λ c, is_legal_segment_byte c = true) id.

Lemma forallb_Forall {A} (p : A → bool) l : forallb p l = true ↔ Forall (λ x, p x = true) l.
Proof. induction l as [|x l IH]; simpl; [naive_solver|]. rewrite andb_true_iff, Forall_cons, IH. done. Qed.

Lemma text_ends_with_spec s c : text_ends_with s [c] = true ↔ ∃ s', s = s' ++ [c].
Proof.
  unfold text_ends_with. rewrite andb_true_iff, bool_decide_eq_true, Nat.leb_le. cbn [length]. split.
  - intros [Hl Hd]. exists (take (length s - 1) s). by rewrite <-Hd, take_drop.
  - intros [s' ->]. rewrite length_app. cbn [length]. split; [lia|]. by rewrite Nat.add_sub, drop_app_length.
Qed.

Lemma legal_segment_no_slash id : Forall (λ c, is_legal_segment_byte c = true) id → "/" ∉ id.
Proof. rewrite Forall_forall. intros Hall Hin. by specialize (Hall _ Hin). Qed.

Lemma resource_type_no_slash t : "/" ∉ lit (resource_type_as_str t).
Proof. destruct t; apply (bool_decide_eq_false_1 _); vm_compute; reflexivity. Qed.

Lemma parse_resource_type_spec segment t : parse_resource_type segment = Ok t ↔ segment = lit (resource_type_as_str t).
Proof.
  unfold parse_resource_type. repeat case_bool_decide; subst; destruct t; split; intros Heq; try done.
Qed.

Lemma parse_resource_id_spec segment id : parse_resource_id segment = Ok id ↔ segment = id ∧ ∀ s, id = Some s → legal_id s.
Proof.
  destruct segment as [s|]; simpl; [|naive_solver]. unfold legal_id. case_bool_decide; [naive_solver|].
  destruct (forallb _ s) eqn:Hf; simpl; [apply forallb_Forall in Hf; naive_solver|]. split; [done|]. intros [<- Hs].
  destruct (Hs s eq_refl) as [_ Hall]. apply forallb_Forall in Hall. congruence.
Qed.

(** A resource path is accepted exactly when it is the one spelling of a
    reference: a slash, [Users] or [Groups], and possibly a slash and an identifier of
    letters, digits, [_] and [-]; so no two texts name one resource and no percent sign,
    dot or second slash gets through. *)
Theorem resource_path_has_one_spelling raw r : parse_resource_path raw = Ok r ↔
  raw = resource_path r ∧ ∀ id, resource_id r = Some id → legal_id id.
Proof.
  unfold parse_resource_path, resource_path. destruct (strip_prefix ["/"] raw) as [trimmed|] eqn:Hraw.
  2: { split; [done|]. intros [-> _]. rewrite strip_prefix_None in Hraw. exfalso. by eapply Hraw. }
  apply strip_prefix_Some in Hraw as ->. cbn [app]. split.
  - case_bool_decide; [done|]. destruct (text_ends_with trimmed ["/"]); [done|].
    pose proof (join_split_char "/" trimmed) as Hjoin. destruct (split_char "/" trimmed) as [|type segments]; [done|].
    destruct (parse_resource_type type) as [t|] eqn:Ht; [|done]. destruct (parse_resource_id (head segments)) as [id|] eqn:Hid; [|done].
    case_bool_decide as Hmore; [done|]. intros [= <-]. cbn [resource_type resource_id].
    apply parse_resource_type_spec in Ht as ->. apply parse_resource_id_spec in Hid as [Hid Hlegal]. split; [|done].
    rewrite <-Hjoin, <-Hid. destruct segments as [|s [|s2 segments]]; simpl; [by rewrite app_nil_r|done|]. by destruct Hmore.
  - intros [[= ->] Hlegal]. destruct r as [t id]. cbn [resource_type resource_id] in *.
    rewrite bool_decide_eq_false_2 by (by destruct t).
    assert (text_ends_with (lit (resource_type_as_str t) ++ match id with Some id => "/" :: id | None => [] end) ["/"] = false) as ->.
    { apply not_true_iff_false. rewrite text_ends_with_spec. intros [s Hs]. destruct id as [id|].
      - destruct (Hlegal id eq_refl) as [Hne Hid]. destruct (exists_last Hne) as (id' & c & ->).
        rewrite app_comm_cons, app_assoc in Hs. apply app_inj_tail in Hs as [_ ->].
        by apply legal_segment_no_slash in Hid; set_solver.
      - apply (resource_type_no_slash t). rewrite app_nil_r in Hs. rewrite Hs. set_solver. }
    assert (split_char "/" (lit (resource_type_as_str t) ++ match id with Some id => "/" :: id | None => [] end) =
      lit (resource_type_as_str t) :: option_list id) as ->.
    { destruct id as [id|].
      - rewrite split_char_app by apply resource_type_no_slash. destruct (Hlegal id eq_refl) as [_ Hid].
        by rewrite split_char_free by (by apply legal_segment_no_slash).
      - rewrite app_nil_r. apply split_char_free, resource_type_no_slash. }
    rewrite (proj2 (parse_resource_type_spec _ t) eq_refl).
    rewrite (proj2 (parse_resource_id_spec (head (option_list id)) id)) by (by destruct id).
    by destruct id.
Qed.

(** ** Patch paths *)

Definition PATCH_MAX_LEN : nat := 1024.

Record PatchPath : Type := mkPatchPath {
  attribute : list ascii;
  selector : option Filter;
  sub_attribute : option (list ascii)
}.

Inductive PatchPathError : Set :=
| PatchEmpty
| IllegalAttribute
| UnclosedSelector
| InvalidSelector (e : FilterError)
| PatchTrailing
| PatchTooLong (limit : nat).

(** The characters after the first. *)
Definition is_attribute_char (c : ascii) : bool := is_ascii_alphanumeric c || is_char "-" c || is_char "_" c || is_char "$" c.

Definition is_legal_attribute (name : text) : bool :=
  match name with
  | first :: rest => (is_ascii_alphabetic first || is_char "$" first) && forallb is_attribute_char rest
  | [] => false
  end.

Definition is_urn_char (c : ascii) : bool :=
  is_ascii_alphanumeric c || is_char ":" c || is_char "." c || is_char "-" c || is_char "_" c || is_char "$" c.

Definition is_legal_urn (urn : text) : bool := negb (bool_decide (urn = [])) && forallb is_urn_char urn.

Definition qualify (prefix : option text) (attribute : text) : text :=
  match prefix with Some urn => urn ++ ":" :: attribute | None => attribute end.

Definition split_attribute (rest : text) : Result (text * option text) PatchPathError :=
  match split_once "." rest with
  | Some (attribute, sub) =>
      if negb (is_legal_attribute attribute) || negb (is_legal_attribute sub) then Err IllegalAttribute
      else Ok (attribute, Some sub)
  | None => if negb (is_legal_attribute rest) then Err IllegalAttribute else Ok (rest, None)
  end.

(** [str::trim_matches] with a character. *)
Definition trim_char (c : ascii) (s : text) : text := trim_end_char c (drop_chars c s).

(** The head, and the selector with what follows it. *)
Definition split_selector (trimmed : text) : Result (text * option (text * text)) PatchPathError :=
  match find_char (is_char "[") trimmed with
  | Some open =>
      match rfind_char "]" trimmed with
      | None => Err UnclosedSelector
      | Some close =>
          if (close <? open)%nat then Err UnclosedSelector
          else Ok (take open trimmed, Some (take (close - S open) (drop (S open) trimmed), drop (S close) trimmed))
      end
  | None => if contains_char "]" trimmed then Err UnclosedSelector else Ok (trimmed, None)
  end.

(** The URN before the last colon of the head. *)
Definition split_urn (head : text) : option text * text :=
  match rfind_char ":" head with
  | Some index => (Some (take index head), drop (S index) head)
  | None => (None, head)
  end.

(** What follows a selector. *)
Definition parse_tail (tail : text) : Result (option text) PatchPathError :=
  if bool_decide (tail = []) then Ok None
  else
    match strip_prefix ["."] tail with
    | None => Err PatchTrailing
    | Some sub => if negb (is_legal_attribute sub) then Err IllegalAttribute else Ok (Some sub)
    end.

Definition parse_patch_path (raw : text) : Run (Result PatchPath PatchPathError) :=
  if (PATCH_MAX_LEN <? length raw)%nat then Returned (Err (PatchTooLong PATCH_MAX_LEN))
  else
    let trimmed := trim_char " " raw in
    if bool_decide (trimmed = []) then Returned (Err PatchEmpty)
    else
      match split_selector trimmed with
      | Err e => Returned (Err e)
      | Ok (head, bracketed) =>
          let '(urn, attribute_part) := split_urn head in
          if match urn with Some urn => negb (is_legal_urn urn) | None => false end then Returned (Err IllegalAttribute)
          else
            match bracketed with
            | None =>
                match split_attribute attribute_part with
                | Err e => Returned (Err e)
                | Ok (attribute, sub) => Returned (Ok (mkPatchPath (qualify urn attribute) None sub))
                end
            | Some (selector_text, tail) =>
                if negb (is_legal_attribute attribute_part) then Returned (Err IllegalAttribute)
                else
                  match parse_filter selector_text with
                  | Returned (Ok selector) =>
                      match parse_tail tail with
                      | Err e => Returned (Err e)
                      | Ok sub_attribute =>
                          Returned (Ok (mkPatchPath (qualify urn attribute_part) (Some selector) sub_attribute))
                      end
                  | Returned (Err e) => Returned (Err (InvalidSelector e))
                  | Panicked => Panicked
                  | OutOfFuel => OutOfFuel
                  end
            end
      end.

(** The texts of a patch path: blanks, an attribute that may have a URN, perhaps a filter in
    brackets, perhaps a sub-attribute, blanks. *)
Definition legal_target (urn : option text) (name : text) : Prop :=
  is_legal_attribute name = true ∧ ∀ u, urn = Some u → is_legal_urn u = true.

Definition sub_text (sub : option text) : text := match sub with Some s => "." :: s | None => [] end.

Inductive patch_path_text : text → PatchPath → Prop :=
| plain_path urn name sub : legal_target urn name → (∀ s, sub = Some s → is_legal_attribute s = true) →
    patch_path_text (qualify urn name ++ sub_text sub) (mkPatchPath (qualify urn name) None sub)
| selected_path urn name text f sub : legal_target urn name → parse_filter text = Returned (Ok f) →
    (∀ s, sub = Some s → is_legal_attribute s = true) →
    patch_path_text (qualify urn name ++ "[" :: text ++ "]" :: sub_text sub) (mkPatchPath (qualify urn name) (Some f) sub).

Lemma trim_char_spec c s : ∃ n m, s = replicate n c ++ trim_char c s ++ replicate m c.
Proof.
  unfold trim_char, trim_end_char. destruct (drop_chars_spec c s) as (n & Hs & _).
  destruct (drop_chars_spec c (reverse (drop_chars c s))) as (m & Hr & _). exists n, m. rewrite Hs at 1. f_equal.
  apply (f_equal reverse) in Hr. by rewrite reverse_involutive, reverse_app, reverse_replicate in Hr.
Qed.

Lemma trim_char_pad c n m body : head body ≠ Some c → last body ≠ Some c → trim_char c (replicate n c ++ body ++ replicate m c) = body.
Proof.
  intros Hhead Hlast. unfold trim_char, trim_end_char. rewrite drop_chars_replicate. destruct body as [|d body].
  { simpl. assert (∀ k, drop_chars c (replicate k c) = []) as ->; [|done]. intros k. by rewrite <-(app_nil_r (replicate k c)), drop_chars_replicate. }
  rewrite (drop_chars_keeps c ((d :: body) ++ _)) by (intros d' s' Heq Hd; simpl in *; congruence).
  rewrite reverse_app, reverse_replicate, drop_chars_replicate, drop_chars_keeps; [by rewrite reverse_involutive|].
  intros d' s' Hrev ->. apply Hlast. by rewrite <-(reverse_involutive (d :: body)), Hrev, last_reverse.
Qed.

Lemma split_selector_plain s : ("[" ∉ s) → ("]" ∉ s) → split_selector s = Ok (s, None).
Proof. intros Ho Hc. unfold split_selector, contains_char. by rewrite find_char_absent, bool_decide_eq_false_2. Qed.

Lemma split_selector_bracket h t tail : ("[" ∉ h) → ("]" ∉ tail) →
  split_selector (h ++ "[" :: t ++ "]" :: tail) = Ok (h, Some (t, tail)).
Proof.
  intros Ho Hc. unfold split_selector. rewrite find_char_at by done.
  assert (h ++ "[" :: t ++ "]" :: tail = (h ++ "[" :: t) ++ "]" :: tail) as Heq by (rewrite <-app_assoc; done).
  assert (rfind_char "]" (h ++ "[" :: t ++ "]" :: tail) = Some (length (h ++ "[" :: t))) as -> by (by rewrite Heq, rfind_char_app).
  rewrite (proj2 (Nat.ltb_ge _ _)) by (rewrite length_app; lia). rewrite take_app_length. do 3 f_equal.
  f_equal; [|by rewrite Heq, drop_past]. rewrite drop_past, take_app_length'; [done|]. rewrite length_app. simpl. lia.
Qed.

Lemma split_selector_Ok s h bracketed : split_selector s = Ok (h, bracketed) →
  match bracketed with None => s = h | Some (t, tail) => s = h ++ "[" :: t ++ "]" :: tail end.
Proof.
  unfold split_selector. destruct (find_char (is_char "[") s) as [i|] eqn:Hf; [|destruct (contains_char _ _); [done|by intros [= <- <-]]].
  apply find_char_Some in Hf as (d & Hs & Hd & _). apply is_char_true in Hd as ->.
  destruct (rfind_char "]" s) as [j|] eqn:Hr; [|done]. apply rfind_char_Some in Hr as [Hs' _].
  destruct (Nat.ltb_spec j i) as [|Hle]; [done|]. intros [= <- <-].
  destruct (decide (i = j)) as [->|Hij]; [rewrite Hs' in Hs at 1; by apply app_inv_head in Hs|].
  rewrite Hs at 1. do 2 f_equal. rewrite Hs' at 1. assert (j ≤ length s)%nat as Hlen.
  { apply (f_equal length) in Hs'. rewrite length_app, length_take in Hs'. simpl in Hs'. lia. }
  rewrite drop_app_le by (rewrite length_take; lia). by rewrite skipn_firstn_comm.
Qed.

Lemma split_urn_qualify urn name : (":" ∉ name) → split_urn (qualify urn name) = (urn, name).
Proof.
  intros Hc. unfold split_urn, qualify. destruct urn as [u|]; [|by rewrite rfind_char_absent].
  rewrite rfind_char_app, take_app_length by done.
  by rewrite drop_past.
Qed.

Lemma split_urn_inv h urn name : split_urn h = (urn, name) → h = qualify urn name.
Proof.
  unfold split_urn, qualify. destruct (rfind_char ":" h) as [i|] eqn:Hr; intros [= <- <-]; [|done]. by apply rfind_char_Some in Hr as [? _].
Qed.

Lemma is_legal_attribute_chars name : is_legal_attribute name = true → name ≠ [] ∧ Forall (λ c, is_attribute_char c = true) name.
Proof.
  destruct name as [|c name]; [done|]. simpl. rewrite andb_true_iff, forallb_Forall. intros [Hc Hn]. split; [done|]. constructor; [|done].
  unfold is_attribute_char, is_ascii_alphanumeric. destruct (is_ascii_alphabetic c); [done|]. simpl in Hc. by rewrite Hc, orb_true_r.
Qed.

(** A legal name and a legal URN have none of the characters that separate the parts. *)
Lemma is_urn_char_ascii c : is_urn_char c = true → c ≠ " " ∧ c ≠ "[" ∧ c ≠ "]".
Proof. by destruct c as [[] [] [] [] [] [] [] []]; vm_compute; intros; split_and!. Qed.

Lemma is_attribute_char_urn c : is_attribute_char c = true → is_urn_char c = true ∧ c ≠ ":" ∧ c ≠ ".".
Proof. by destruct c as [[] [] [] [] [] [] [] []]; vm_compute; intros; split_and!. Qed.

Lemma legal_name_free name : is_legal_attribute name = true → (":" ∉ name) ∧ ("." ∉ name) ∧ Forall (λ c, is_urn_char c = true) name.
Proof.
  intros [_ Hn]%is_legal_attribute_chars. rewrite Forall_forall in Hn. split_and!.
  - by intros Hin%Hn%is_attribute_char_urn; destruct Hin as (_ & ? & _).
  - by intros Hin%Hn%is_attribute_char_urn; destruct Hin as (_ & _ & ?).
  - apply Forall_forall. intros c Hin%Hn%is_attribute_char_urn. by destruct Hin.
Qed.

Lemma legal_target_chars urn name : legal_target urn name → qualify urn name ≠ [] ∧ Forall (λ c, is_urn_char c = true) (qualify urn name).
Proof.
  intros [Hname Hurn]. destruct (legal_name_free name Hname) as (_ & _ & Hn). apply is_legal_attribute_chars in Hname as [Hne _].
  unfold qualify. destruct urn as [u|]; [|done]. split; [by destruct u|]. apply Forall_app. split; [|by constructor].
  specialize (Hurn u eq_refl). unfold is_legal_urn in Hurn. apply andb_true_iff in Hurn as [_ Hu]. by apply forallb_Forall.
Qed.

Lemma legal_sub_chars sub : (∀ s, sub = Some s → is_legal_attribute s = true) → Forall (λ c, is_urn_char c = true) (sub_text sub).
Proof. destruct sub as [s|]; [|done]. intros Hs. constructor; [done|]. by apply legal_name_free, Hs. Qed.

Lemma urn_chars_free s : Forall (λ c, is_urn_char c = true) s → (" " ∉ s) ∧ ("[" ∉ s) ∧ ("]" ∉ s).
Proof. rewrite Forall_forall. intros Hs. split_and!; by intros Hin%Hs. Qed.

Lemma split_attribute_spec rest name sub : split_attribute rest = Ok (name, sub) ↔
  rest = name ++ sub_text sub ∧ is_legal_attribute name = true ∧ ∀ s, sub = Some s → is_legal_attribute s = true.
Proof.
  unfold split_attribute. split.
  - destruct (split_once "." rest) as [[a b]|] eqn:Hs.
    + apply split_once_Some in Hs as [-> _]. destruct (is_legal_attribute a) eqn:Ha, (is_legal_attribute b) eqn:Hb; try done.
      intros [= <- <-]. naive_solver.
    + destruct (is_legal_attribute rest) eqn:Hr; [|done]. intros [= <- <-]. simpl. rewrite app_nil_r. naive_solver.
  - intros (-> & Hname & Hsub). destruct (legal_name_free name Hname) as (_ & Hdot & _). destruct sub as [s|]; simpl.
    + by rewrite split_once_app, Hname, (Hsub s eq_refl).
    + rewrite app_nil_r. unfold split_once. by rewrite find_char_absent, Hname.
Qed.

Lemma parse_tail_spec tail sub : parse_tail tail = Ok sub ↔ tail = sub_text sub ∧ ∀ s, sub = Some s → is_legal_attribute s = true.
Proof.
  unfold parse_tail. split.
  - case_bool_decide; [by intros [= <-]|]. destruct (strip_prefix ["."] tail) as [s|] eqn:Hs; [|done]. apply strip_prefix_Some in Hs as ->.
    destruct (is_legal_attribute s) eqn:Hl; [|done]. intros [= <-]. naive_solver.
  - intros [-> Hsub]. destruct sub as [s|]; [|done]. cbn [sub_text]. rewrite bool_decide_eq_false_2 by done.
    rewrite (proj2 (strip_prefix_Some ["."] ("." :: s) s)) by done. by rewrite (Hsub s eq_refl).
Qed.

(** The two ends of a patch path are not blanks. *)
Lemma patch_path_ends body p : patch_path_text body p → head body ≠ Some " " ∧ last body ≠ Some " " ∧ body ≠ [].
Proof.
  assert (∀ s, Forall (λ c, is_urn_char c = true) s → head s ≠ Some " " ∧ last s ≠ Some " ") as Hends.
  { intros s [Hs _]%urn_chars_free. split; intros Hin; apply Hs; [destruct s; simplify_eq/=; set_solver|by apply last_Some_elem_of]. }
  destruct 1 as [urn name sub Ht Hsub|urn name text f sub Ht _ Hsub]; apply legal_target_chars in Ht as [Hne Ht]; apply legal_sub_chars in Hsub.
  - destruct (Hends (qualify urn name ++ sub_text sub)) as [Hh Hl]; [by apply Forall_app|]. split_and!; [done|done|]. by destruct (qualify urn name).
  - destruct (qualify urn name) as [|c q] eqn:Hq; [done|]. split_and!; [apply (Hends (c :: q) Ht)| |done].
    rewrite last_app. cbn [last]. rewrite app_comm_cons, last_app. change ("]" :: sub_text sub) with (["]"] ++ sub_text sub). rewrite last_app.
    destruct (last (sub_text sub)) as [d|] eqn:Hd; [|done]. rewrite <-Hd. by apply Hends.
Qed.

Lemma illegal_urn_none urn name : legal_target urn name → match urn with Some urn => negb (is_legal_urn urn) | None => false end = false.
Proof. intros [_ Hu]. destruct urn as [u|]; [|done]. by rewrite (Hu u eq_refl). Qed.

(** What the parser makes of a trimmed text. *)
Lemma patch_path_text_parses raw body p : patch_path_text body p → trim_char " " raw = body → (length raw ≤ PATCH_MAX_LEN)%nat →
  parse_patch_path raw = Returned (Ok p).
Proof.
  intros Hp Htrim Hlen. destruct (patch_path_ends _ _ Hp) as (_ & _ & Hne). unfold parse_patch_path.
  rewrite (proj2 (Nat.ltb_ge _ _)) by done. rewrite Htrim, bool_decide_eq_false_2 by done. cbn zeta. clear raw Htrim Hlen Hne.
  destruct Hp as [urn name sub Ht Hsub|urn name text f sub Ht Hf Hsub]; pose proof (legal_target_chars _ _ Ht) as [_ Hq];
    pose proof (illegal_urn_none _ _ Ht) as Hu; destruct Ht as [Hname _]; pose proof (legal_name_free _ Hname) as (Hcolon & _);
    pose proof (legal_sub_chars _ Hsub) as Hs.
  - destruct (urn_chars_free (qualify urn name ++ sub_text sub)) as (_ & Ho & Hc); [by apply Forall_app|]. rewrite split_selector_plain by done.
    assert (qualify urn name ++ sub_text sub = qualify urn (name ++ sub_text sub)) as -> by (destruct urn; simpl; by rewrite <-?app_assoc).
    rewrite split_urn_qualify.
    2: { rewrite not_elem_of_app. split; [done|]. destruct sub as [s|]; [|set_solver]. destruct (legal_name_free s (Hsub s eq_refl)) as (? & _).
         simpl. set_solver. }
    rewrite Hu. by rewrite (proj2 (split_attribute_spec _ name sub)).
  - destruct (urn_chars_free _ Hq) as (_ & Ho & _). destruct (urn_chars_free _ Hs) as (_ & _ & Hc).
    rewrite split_selector_bracket, split_urn_qualify, Hu, Hname, Hf by done. cbn [negb].
    by rewrite (proj2 (parse_tail_spec _ sub)).
Qed.

(** A patch path of at most 1024 bytes is accepted exactly when, without the spaces
    around it, it is a legal attribute, possibly after a schema URN, then possibly a filter in
    brackets that the filter parser accepts, then possibly a legal sub-attribute; the result
    holds those parts.  What is between the first and the last bracket is read as a filter
    only. *)
Theorem patch_path_reads_its_parts raw p : parse_patch_path raw = Returned (Ok p) ↔
  (length raw ≤ PATCH_MAX_LEN)%nat ∧ ∃ n m body, raw = replicate n " " ++ body ++ replicate m " " ∧ patch_path_text body p.
Proof.
  split.
  - unfold parse_patch_path. destruct (Nat.ltb_spec PATCH_MAX_LEN (length raw)) as [|Hlen]; [done|]. cbn zeta. case_bool_decide; [done|].
    destruct (split_selector (trim_char " " raw)) as [[h bracketed]|] eqn:Hsel; [|done]. apply split_selector_Ok in Hsel.
    destruct (split_urn h) as [urn part] eqn:Hurn. apply split_urn_inv in Hurn as ->.
    destruct (match urn with Some _ => _ | None => _ end) eqn:Hlegal; [done|].
    assert (∀ u, urn = Some u → is_legal_urn u = true) as Hu by (intros u ->; by apply negb_false_iff).
    intros Hp. split; [done|]. destruct (trim_char_spec " " raw) as (n & m & Hraw). exists n, m, (trim_char " " raw). split; [done|].
    destruct bracketed as [[text tail]|]; rewrite Hsel.
    + destruct (is_legal_attribute part) eqn:Hpart; [|done]. cbn [negb] in Hp. destruct (parse_filter text) as [[f|]| |] eqn:Hf; try done.
      destruct (parse_tail tail) as [sub|] eqn:Htail; [|done]. apply parse_tail_spec in Htail as [-> Hsub]. injection Hp as <-. by constructor.
    + destruct (split_attribute part) as [[name sub]|] eqn:Hsplit; [|done]. apply split_attribute_spec in Hsplit as (-> & Hname & Hsub).
      injection Hp as <-. assert (qualify urn (name ++ sub_text sub) = qualify urn name ++ sub_text sub) as -> by (destruct urn; simpl; by rewrite <-?app_assoc).
      by constructor.
  - intros [Hlen (n & m & body & -> & Hp)]. eapply patch_path_text_parses; [exact Hp| |done].
    destruct (patch_path_ends _ _ Hp) as (Hh & Hl & _). by apply trim_char_pad.
Qed.
