(* ===== verification/Totp.v ===== *)
(** * Time-based one-time passwords

    crates/ironauth-jose totp.rs: parameters, the code of a time step, verification over the
    drift window, the Base32 form of a secret, the manual-entry form and the provisioning
    URI.  Codes, secrets and texts are byte strings.  The HMAC of the ring crate is the
    class [Hmac]; its laws are the length of a digest and that it is made of bytes.  An
    index out of range is [Panicked].  The theorems: verification returns the last step of
    the window whose code was presented, and never panics; a secret is read back from
    its Base32 and its manual-entry form. *)

From S2P Require Import Prelude Machine Bytes Der DerTime Text.

Open Scope Z_scope.

(** ** Parameters *)

Inductive TotpAlgorithm : Set := Sha1 | Sha256 | Sha512.

#[export] Instance TotpAlgorithm_eq_dec : EqDecision TotpAlgorithm.
Proof. solve_decision. Defined.

Definition totp_algorithm_as_str (a : TotpAlgorithm) : string :=
  match a with Sha1 => "SHA1" | Sha256 => "SHA256" | Sha512 => "SHA512" end.

Definition totp_algorithm_parse (token : string) : option TotpAlgorithm :=
  if String.eqb token "SHA1" then Some Sha1
  else if String.eqb token "SHA256" then Some Sha256
  else if String.eqb token "SHA512" then Some Sha512
  else None.

Record TotpParams : Type := mkTotpParams { totp_algorithm : TotpAlgorithm; totp_digits : Z; totp_period : Z }.

Inductive TotpParamsError : Set := TotpDigits | TotpPeriod.

Definition authenticator_default : TotpParams := mkTotpParams Sha1 6 30.

Definition TotpParams_new (algorithm : TotpAlgorithm) (digits period_secs : Z) : Result TotpParams TotpParamsError :=
  if negb ((6 <=? digits) && (digits <=? 8)) then Err TotpDigits
  else if negb ((15 <=? period_secs) && (period_secs <=? 60)) then Err TotpPeriod
  else Ok (mkTotpParams algorithm digits period_secs).

Definition timestep (params : TotpParams) (unix_time_secs : Z) : Z := unix_time_secs / totp_period params.

(** ** Codes *)

(** [ring::hmac::sign]. *)
Class Hmac := { hmac_sign : TotpAlgorithm → bytes → bytes → bytes }.

Definition digest_length (a : TotpAlgorithm) : nat := match a with Sha1 => 20 | Sha256 => 32 | Sha512 => 64 end.

Class HmacLaws `{Hmac} : Prop := {
  hmac_length a key msg : length (hmac_sign a key msg) = digest_length a;
  hmac_bytes a key msg : Forall is_byte (hmac_sign a key msg)
}.

(** The four bytes at the offset that the last byte selects, as a 31-bit number. *)
Definition truncate (digest : bytes) : Run Z :=
  match digest !! (length digest - 1)%nat with
  | None => Panicked
  | Some last =>
      let offset := Z.to_nat (Z.land last 0x0F) in
      match digest !! offset, digest !! (offset + 1)%nat, digest !! (offset + 2)%nat, digest !! (offset + 3)%nat with
      | Some a, Some b, Some c, Some d =>
          Returned (Z.lor (Z.lor (Z.lor (Z.shiftl (Z.land a 0x7F) 24) (Z.shiftl b 16)) (Z.shiftl c 8)) d)
      | _, _, _, _ => Panicked
      end
  end.

(** [u32::pow] with overflow checks. *)
Definition u32_pow (base exponent : Z) : Run Z :=
  if base ^ exponent <=? U32_MAX then Returned (base ^ exponent) else Panicked.

Section Codes.
Context `{Hmac}.

Definition code_for_timestep (secret : bytes) (params : TotpParams) (timestep : Z) : Run bytes :=
  let digest := hmac_sign (totp_algorithm params) secret (to_be_bytes timestep) in
  match truncate digest with
  | Returned binary =>
      match u32_pow 10 (totp_digits params) with
      | Returned modulo => Returned (fmt_padded (Z.to_nat (totp_digits params)) (binary mod modulo))
      | Panicked => Panicked
      | OutOfFuel => OutOfFuel
      end
  | Panicked => Panicked
  | OutOfFuel => OutOfFuel
  end.

Definition code_at (secret : bytes) (params : TotpParams) (unix_time_secs : Z) : Run bytes :=
  code_for_timestep secret params (timestep params unix_time_secs).

Definition constant_time_eq (a b : bytes) : bool :=
  if negb (length a =? length b)%nat then false
  else foldl (λ diff xy, Z.lor diff (Z.lxor xy.1 xy.2)) 0 (zip a b) =? 0.

(** The loop over the window: the last step that matches. *)
Fixpoint verify_steps (secret : bytes) (params : TotpParams) (presented : bytes) (steps : list Z) (matched : option Z) :
    Run (option Z) :=
  match steps with
  | [] => Returned matched
  | step :: rest =>
      match code_for_timestep secret params step with
      | Returned candidate =>
          verify_steps secret params presented rest (if constant_time_eq candidate presented then Some step else matched)
      | Panicked => Panicked
      | OutOfFuel => OutOfFuel
      end
  end.

(** [low..=high]. *)
Definition steps_between (low high : Z) : list Z := seqZ low (high - low + 1).

Definition verify_totp (secret : bytes) (params : TotpParams) (unix_time_secs drift_steps : Z) (presented : bytes) :
    Run (option Z) :=
  if negb (length presented =? Z.to_nat (totp_digits params))%nat || negb (forallb is_ascii_digit presented) then Returned None
  else
    let now_step := timestep params unix_time_secs in
    let low := u64_saturating_sub now_step drift_steps in
    let high := u64_saturating_add now_step drift_steps in
    verify_steps secret params presented (steps_between low high) None.
End Codes.

(** ** Base32 *)

Definition ascii_bytes (s : string) : bytes := code <$> lit s.

Definition BASE32_ALPHABET : bytes := ascii_bytes "ABCDEFGHIJKLMNOPQRSTUVWXYZ234567".

(** [BASE32_ALPHABET[index]], for an index of five bits. *)
Definition alphabet_at (index : Z) : Z := default 0 (BASE32_ALPHABET !! Z.to_nat index).

(** [u32 << n] loses the high bits. *)
Definition u32_shl (x n : Z) : Z := Z.shiftl x n mod 2 ^ 32.

(** [while bits >= 5]: the characters pushed and the bits left. *)
Fixpoint emit_groups (fuel : nat) (buffer bits : Z) : bytes * Z :=
  match fuel with
  | O => ([], bits)
  | S n =>
      if 5 <=? bits then
        let bits := bits - 5 in
        let '(rest, bits_left) := emit_groups n buffer bits in
        (alphabet_at (Z.land (Z.shiftr buffer bits) 0x1F) :: rest, bits_left)
      else ([], bits)
  end.

(** The loop over the bytes, from a buffer with some bits; two groups at most are due at a time. *)
Fixpoint encode_from (buffer bits : Z) (l : bytes) : bytes :=
  match l with
  | [] => if 0 <? bits then [alphabet_at (Z.land (u32_shl buffer (5 - bits)) 0x1F)] else []
  | byte :: rest =>
      let buffer := Z.lor (u32_shl buffer 8) byte in
      let '(out, bits) := emit_groups 2 buffer (bits + 8) in
      out ++ encode_from buffer bits rest
  end.

Definition base32_encode (l : bytes) : bytes := encode_from 0 0 l.

Inductive Base32Error : Set := Alphabet.

(** [char::is_ascii_whitespace] and the padding. *)
Definition is_ignored (ch : Z) : bool := (ch =? 61) || existsb (Z.eqb ch) [32; 9; 10; 12; 13].

(** [char::to_ascii_uppercase]. *)
Definition to_ascii_uppercase (ch : Z) : Z := if (97 <=? ch) && (ch <=? 122) then ch - 32 else ch.

Definition alphabet_position (ch : Z) : option Z := (λ p : nat * Z, Z.of_nat p.1) <$> list_find (λ a, a = ch) BASE32_ALPHABET.

Fixpoint decode_from (buffer bits : Z) (out : bytes) (l : bytes) : Result bytes Base32Error :=
  match l with
  | [] => Ok out
  | ch :: rest =>
      if is_ignored ch then decode_from buffer bits out rest
      else
        match alphabet_position (to_ascii_uppercase ch) with
        | None => Err Alphabet
        | Some value =>
            let buffer := Z.lor (u32_shl buffer 5) value in
            let bits := bits + 5 in
            if 8 <=? bits then decode_from buffer (bits - 8) (out ++ [Z.shiftr buffer (bits - 8) mod 256]) rest
            else decode_from buffer bits out rest
        end
  end.

Definition base32_decode (l : bytes) : Result bytes Base32Error := decode_from 0 0 [] l.

(** ** The forms shown to a user *)

(** A space before every fourth character but the first. *)
Definition grouped_char (index : nat) (ch : Z) : bytes :=
  if (0 <? index)%nat && (index mod 4 =? 0)%nat then [32; ch] else [ch].

Definition grouped_secret (secret : bytes) : bytes := concat (imap grouped_char (base32_encode secret)).

Definition HEX : bytes := ascii_bytes "0123456789ABCDEF".

Definition is_unreserved (b : Z) : bool :=
  ((48 <=? b) && (b <=? 57) || (65 <=? b) && (b <=? 90) || (97 <=? b) && (b <=? 122)) || existsb (Z.eqb b) [45; 46; 95; 126].

Definition percent_encode_byte (b : Z) : bytes :=
  if is_unreserved b then [b]
  else [37; default 0 (HEX !! Z.to_nat (Z.shiftr b 4)); default 0 (HEX !! Z.to_nat (Z.land b 0x0F))].

Definition percent_encode (input : bytes) : bytes := concat (percent_encode_byte <$> input).

Definition provisioning_uri (issuer account_name secret : bytes) (params : TotpParams) : bytes :=
  let label := percent_encode issuer ++ [58] ++ percent_encode account_name in
  ascii_bytes "otpauth://totp/" ++ label ++ ascii_bytes "?secret=" ++ base32_encode secret ++
  ascii_bytes "&issuer=" ++ percent_encode issuer ++
  ascii_bytes "&algorithm=" ++ ascii_bytes (totp_algorithm_as_str (totp_algorithm params)) ++
  ascii_bytes "&digits=" ++ ascii_bytes (pretty (totp_digits params)) ++
  ascii_bytes "&period=" ++ ascii_bytes (pretty (totp_period params)).

Example base32_rfc4648 : base32_encode (ascii_bytes "foobar") = ascii_bytes "MZXW6YTBOI".
Proof. vm_compute. reflexivity. Qed.

Example grouped_rfc4648 : base32_decode (grouped_secret (ascii_bytes "foobar")) = Ok (ascii_bytes "foobar").
Proof. vm_compute. reflexivity. Qed.

(** ** Verification *)

Definition params_ok (p : TotpParams) : Prop := 6 ≤ totp_digits p ≤ 8 ∧ 15 ≤ totp_period p ≤ 60.

Lemma TotpParams_new_ok a d s p : TotpParams_new a d s = Ok p → params_ok p.
Proof.
  unfold TotpParams_new, params_ok. destruct (negb _) eqn:Hd; [done|]. destruct (negb ((15 <=? s) && _)) eqn:Hs; [done|].
  intros [= <-]. simpl. lia.
Qed.

Lemma fold_lor_zero (l : list Z) d : foldl Z.lor d l = 0 ↔ d = 0 ∧ Forall (λ x, x = 0) l.
Proof.
  revert d. induction l as [|x l IH]; intros d; simpl; [naive_solver|]. rewrite IH, Z.lor_eq_0_iff, Forall_cons. naive_solver.
Qed.

(** The fold without an early exit decides equality. *)
Lemma constant_time_eq_spec a b : constant_time_eq a b = true ↔ a = b.
Proof.
  unfold constant_time_eq. destruct (Nat.eqb_spec (length a) (length b)) as [Hl|Hl]; simpl; [|naive_solver].
  rewrite Z.eqb_eq. assert (∀ d, foldl (λ diff xy, Z.lor diff (Z.lxor xy.1 xy.2)) d (zip a b) = foldl Z.lor d (zip_with Z.lxor a b)) as ->.
  { clear Hl. revert b. induction a as [|x a IH]; intros [|y b] d; [done..|]. simpl. apply IH. }
  rewrite fold_lor_zero. revert b Hl. induction a as [|x a IH]; intros [|y b] Hl; simpl in *; [by split; [|split; [|constructor]]|done|done|].
  rewrite Forall_cons, Z.lxor_eq_0_iff. injection Hl as Hl. specialize (IH b Hl). naive_solver.
Qed.

Lemma lor_bound n x y : 0 ≤ n → 0 ≤ x < 2 ^ n → 0 ≤ y < 2 ^ n → 0 ≤ Z.lor x y < 2 ^ n.
Proof.
  intros Hn Hx Hy. assert (0 ≤ Z.lor x y) as Hge by (apply Z.lor_nonneg; lia). split; [done|].
  destruct (decide (x = 0)) as [->|Hx0]; [rewrite Z.lor_0_l; lia|]. destruct (decide (y = 0)) as [->|Hy0]; [rewrite Z.lor_0_r; lia|].
  assert (Z.lor x y ≠ 0) as Hne by (rewrite Z.lor_eq_0_iff; lia). apply Z.log2_lt_pow2; [lia|]. rewrite Z.log2_lor by lia.
  apply Z.max_lub_lt; apply Z.log2_lt_pow2; lia.
Qed.

Lemma shiftl_bound b k n m : 0 ≤ k → 0 ≤ n → n + k ≤ m → 0 ≤ b < 2 ^ n → 0 ≤ Z.shiftl b k < 2 ^ m.
Proof.
  intros Hk Hn Hm Hb. rewrite Z.shiftl_mul_pow2 by lia. split; [nia|].
  apply Z.lt_le_trans with (2 ^ n * 2 ^ k); [pose proof (Z.pow_pos_nonneg 2 k); nia|].
  rewrite <-Z.pow_add_r by lia. by apply Z.pow_le_mono_r.
Qed.

Lemma truncate_returns digest : (20 ≤ length digest)%nat → Forall is_byte digest → ∃ v, truncate digest = Returned v ∧ 0 ≤ v < 2 ^ 31.
Proof.
  intros Hlen Hb. rewrite Forall_lookup in Hb. unfold is_byte in Hb. unfold truncate.
  assert (∀ i, (i < 20)%nat → ∃ b, digest !! i = Some b ∧ 0 ≤ b < 2 ^ 8) as Hat.
  { intros i Hi. destruct (lookup_lt_is_Some_2 digest i ltac:(lia)) as [b Hi']. exists b. split; [done|]. apply Hb in Hi'. lia. }
  destruct (lookup_lt_is_Some_2 digest (length digest - 1) ltac:(lia)) as [last Hlast]. rewrite Hlast.
  assert (0 ≤ Z.land last 0x0F < 16) as Hoff.
  { change 15 with (Z.ones 4). rewrite Z.land_ones by lia. apply Z.mod_pos_bound. lia. }
  set (o := Z.to_nat (Z.land last 0x0F)). assert (o < 16)%nat as Ho by lia. clearbody o. cbn zeta.
  destruct (Hat o ltac:(lia)) as (a & -> & Ha). destruct (Hat (o + 1)%nat ltac:(lia)) as (b & -> & Hb1).
  destruct (Hat (o + 2)%nat ltac:(lia)) as (c & -> & Hc). destruct (Hat (o + 3)%nat ltac:(lia)) as (d & -> & Hd).
  eexists. split; [done|]. repeat apply lor_bound; try lia.
  - apply (shiftl_bound _ 24 7); [lia|lia|lia|]. change 0x7F with (Z.ones 7). rewrite Z.land_ones by lia. apply Z.mod_pos_bound. lia.
  - apply (shiftl_bound _ 16 8); lia.
  - apply (shiftl_bound _ 8 8); lia.
Qed.

Section Verify.
Context `{HmacLaws}.

(** A code is a string of exactly the right number of decimal digits. *)
Lemma code_returns secret params step : params_ok params → ∃ code, code_for_timestep secret params step = Returned code ∧
  length code = Z.to_nat (totp_digits params) ∧ forallb is_ascii_digit code = true.
Proof.
  intros [Hd _]. unfold code_for_timestep.
  destruct (truncate_returns (hmac_sign (totp_algorithm params) secret (to_be_bytes step))) as (v & -> & Hv).
  { rewrite hmac_length. destruct (totp_algorithm params); simpl; lia. }
  { apply hmac_bytes. }
  assert (10 ^ totp_digits params ≤ 10 ^ 8) as Hp by (apply Z.pow_le_mono_r; lia). unfold u32_pow, U32_MAX.
  rewrite (proj2 (Z.leb_le _ _)) by lia. eexists. split; [done|].
  assert (0 ≤ v mod 10 ^ totp_digits params < 10 ^ Z.of_nat (Z.to_nat (totp_digits params))) as Hm.
  { rewrite Z2Nat.id by lia. apply Z.mod_pos_bound, Z.pow_pos_nonneg; lia. }
  rewrite fmt_padded_small by done. split; [apply digits_be_length|apply forallb_digits].
Qed.

Lemma verify_steps_spec secret params presented steps : params_ok params → ∀ matched, ∃ r,
  verify_steps secret params presented steps matched = Returned r ∧
  ((∃ before step after, steps = before ++ step :: after ∧ r = Some step ∧ code_for_timestep secret params step = Returned presented ∧
      ∀ later, later ∈ after → code_for_timestep secret params later ≠ Returned presented) ∨
   (r = matched ∧ ∀ step, step ∈ steps → code_for_timestep secret params step ≠ Returned presented)).
Proof.
  intros Hp. induction steps as [|step steps IH]; intros matched; simpl; [exists matched; split; [done|right; set_solver]|].
  destruct (code_returns secret params step Hp) as (code & Hc & _). rewrite Hc.
  destruct (IH (if constant_time_eq code presented then Some step else matched)) as (r & Hr & [(before & s & after & -> & Hs)|[-> Hno]]);
    exists r || eexists; (split; [exact Hr|]).
  - left. by exists (step :: before), s, after.
  - destruct (constant_time_eq code presented) eqn:He.
    + apply constant_time_eq_spec in He as ->. left. by exists [], step, steps.
    + right. split; [done|]. intros s [-> | Hin]%elem_of_cons; [|by apply Hno]. rewrite Hc. intros [= ->].
      assert (constant_time_eq presented presented = true) by (by apply constant_time_eq_spec). congruence.
Qed.

Lemma elem_of_steps low high step : step ∈ steps_between low high ↔ low ≤ step ≤ high.
Proof. unfold steps_between. rewrite elem_of_seqZ. lia. Qed.

(** Whether a step is in the window of an instant, among the 64-bit steps. *)
Definition in_window (params : TotpParams) (now drift step : Z) : Prop :=
  timestep params now - drift ≤ step ≤ timestep params now + drift ∧ is_u64 step.

Lemma window_steps params now drift step : params_ok params → is_u64 now → 0 ≤ drift →
  (u64_saturating_sub (timestep params now) drift ≤ step ≤ u64_saturating_add (timestep params now) drift ↔ in_window params now drift step).
Proof.
  intros [_ Hp] Hn Hd. unfold in_window, u64_saturating_sub, u64_saturating_add, clamp, is_u64 in *.
  assert (0 ≤ timestep params now ≤ U64_MAX) as Ht; [|lia]. unfold timestep. split; [apply Z.div_pos; lia|].
  etrans; [apply Z.div_le_upper_bound with (q := now); [lia|nia]|lia].
Qed.

Lemma steps_between_later low high before step after later : steps_between low high = before ++ step :: after →
  low ≤ later ≤ high → step < later → later ∈ after.
Proof.
  intros Heq Hl Hlt. assert (later ∈ steps_between low high) as Hin by (by apply elem_of_steps).
  rewrite Heq in Hin. apply elem_of_app in Hin as [Hin|[-> |Hin]%elem_of_cons]; [|lia|done]. exfalso.
  apply list_elem_of_lookup in Hin as [i Hi]. pose proof (lookup_lt_Some _ _ _ Hi) as Hlen.
  assert (steps_between low high !! i = Some later) as Hi' by (rewrite Heq; by rewrite lookup_app_l).
  assert (steps_between low high !! length before = Some step) as Hs' by (rewrite Heq; by rewrite lookup_app_r, Nat.sub_diag by lia).
  unfold steps_between in Hi', Hs'. apply lookup_seqZ in Hi' as [-> _], Hs' as [-> _]. lia.
Qed.

(** The last step of the window with the presented code, if there is one. *)
Lemma verify_totp_spec secret params now drift presented (Hp : params_ok params) (Hn : is_u64 now) (Hd : 0 ≤ drift) :
  ∃ r, verify_totp secret params now drift presented = Returned r ∧
  match r with
  | Some step => in_window params now drift step ∧ code_for_timestep secret params step = Returned presented ∧
      ∀ later, in_window params now drift later → step < later → code_for_timestep secret params later ≠ Returned presented
  | None => ∀ step, in_window params now drift step → code_for_timestep secret params step ≠ Returned presented
  end.
Proof.
  unfold verify_totp. destruct (negb _ || negb _) eqn:Hshape.
  - exists None. split; [done|]. intros step _ Hcode. destruct (code_returns secret params step Hp) as (code & Hc & Hl & Hdig).
    rewrite Hc in Hcode. injection Hcode as ->. rewrite Hl, Nat.eqb_refl, Hdig in Hshape. done.
  - cbn zeta. destruct (verify_steps_spec secret params presented
      (steps_between (u64_saturating_sub (timestep params now) drift) (u64_saturating_add (timestep params now) drift)) Hp None)
      as (r & Hr & Hcase). exists r. split; [done|]. destruct Hcase as [(before & step & after & Hs & -> & Hc & Hlater)|[-> Hno]].
    + assert (step ∈ steps_between (u64_saturating_sub (timestep params now) drift) (u64_saturating_add (timestep params now) drift)) as Hin
        by (rewrite Hs; set_solver).
      apply elem_of_steps, window_steps in Hin; [|done..]. split; [done|]. split; [done|]. intros later Hw Hlt.
      apply Hlater. eapply steps_between_later; [exact Hs| |done]. by apply window_steps.
    + intros step Hw. apply Hno, elem_of_steps. by apply window_steps.
Qed.

(** C28 (functional): verification never panics and is exact: it returns the last step of the drift
    window whose code is the one presented, and nothing when no step of the window has it. *)
Theorem verification_is_exact secret params now drift presented (Hp : params_ok params) (Hn : is_u64 now) (Hd : 0 ≤ drift) :
  ∃ r, verify_totp secret params now drift presented = Returned r ∧
  match r with
  | Some step => in_window params now drift step ∧ code_for_timestep secret params step = Returned presented ∧
      ∀ later, in_window params now drift later → step < later → code_for_timestep secret params later ≠ Returned presented
  | None => ∀ step, in_window params now drift step → code_for_timestep secret params step ≠ Returned presented
  end.
Proof. by apply verify_totp_spec. Qed.
End Verify.

(** ** Base32 reads back *)

(** The low bits of a buffer after a shift that adds a digit, and the digits taken off its top. *)
Lemma push_digit buffer digit bits width : 0 ≤ buffer → 0 ≤ bits → 0 < width → bits + width ≤ 32 → 0 ≤ digit < 2 ^ width →
  Z.lor (u32_shl buffer width) digit mod 2 ^ (bits + width) = (buffer mod 2 ^ bits) * 2 ^ width + digit ∧
  0 ≤ Z.lor (u32_shl buffer width) digit.
Proof.
  intros Hb Hk Hw Hle Hd. assert (Z.lor (u32_shl buffer width) digit = u32_shl buffer width + digit) as ->.
  { rewrite <-Z.lxor_lor, <-Z.add_nocarry_lxor; [done| |].
    all: apply Z.bits_inj'; intros i Hi; rewrite Z.land_spec, Z.bits_0; unfold u32_shl; destruct (decide (i < width)).
    all: rewrite ?(Z.testbit_mod_pow2 (Z.shiftl buffer width) 32), ?Z.shiftl_spec, ?(Z.testbit_neg_r _ (i - width)), ?andb_false_r by lia; try done.
    all: rewrite (Z.bits_above_log2 digit i), ?andb_false_r; try lia; try done; destruct (decide (digit = 0)) as [->|]; [simpl; lia|];
      apply Z.lt_le_trans with width; [apply Z.log2_lt_pow2; lia|lia]. }
  unfold u32_shl. rewrite Z.shiftl_mul_pow2 by lia. pose proof (Z.mod_pos_bound (buffer * 2 ^ width) (2 ^ 32) ltac:(lia)). split; [|lia].
  rewrite <-Z.add_mod_idemp_l by lia. rewrite Z.mod_mod_divide, Z.add_mod_idemp_l
    by (lia || (exists (2 ^ (32 - (bits + width))); rewrite <-Z.pow_add_r by lia; f_equal; lia)).
  rewrite (Z.div_mod buffer (2 ^ bits)) at 1 by lia. pose proof (Z.mod_pos_bound buffer (2 ^ bits) ltac:(lia)).
  replace ((2 ^ bits * (buffer / 2 ^ bits) + buffer mod 2 ^ bits) * 2 ^ width + digit) with
    (buffer mod 2 ^ bits * 2 ^ width + digit + buffer / 2 ^ bits * 2 ^ (bits + width)) by (rewrite Z.pow_add_r by lia; lia).
  rewrite Z.mod_add by lia. apply Z.mod_small. rewrite Z.pow_add_r by lia. nia.
Qed.

Lemma top_digit buffer k width : 0 ≤ k → 0 ≤ width →
  buffer mod 2 ^ (k + width) = Z.shiftr buffer k mod 2 ^ width * 2 ^ k + buffer mod 2 ^ k.
Proof. intros Hk Hw. rewrite Z.pow_add_r, Z.rem_mul_r, Z.shiftr_div_pow2 by lia. lia. Qed.

Lemma value_be_acc base acc l : 0 < base → value_be base acc l = acc * base ^ Z.of_nat (length l) + value_be base 0 l.
Proof.
  intros Hb. unfold value_be. revert acc. induction l as [|d l IH]; intros acc; cbn [foldl length]; [rewrite Z.pow_0_r; lia|].
  rewrite IH, (IH (0 * base + d)), Nat2Z.inj_succ, Z.pow_succ_r by lia. lia.
Qed.

Lemma value_be_range base l : 0 < base → Forall (λ d, 0 ≤ d < base) l → 0 ≤ value_be base 0 l < base ^ Z.of_nat (length l).
Proof.
  intros Hb. induction 1 as [|d l Hd _ IH]; [simpl; lia|]. cbn [value_be foldl length]. fold (value_be base (0 * base + d) l).
  rewrite value_be_acc, Nat2Z.inj_succ, Z.pow_succ_r by lia. nia.
Qed.

Lemma value_be_inj base l k : 0 < base → Forall (λ d, 0 ≤ d < base) l → Forall (λ d, 0 ≤ d < base) k → length l = length k →
  value_be base 0 l = value_be base 0 k → l = k.
Proof.
  intros Hb Hl. revert k. induction Hl as [|d l Hd Hl IH]; intros k Hk Hlen Hv; [by destruct k|].
  destruct Hk as [|e k He Hk]; [done|]. injection Hlen as Hlen. cbn [value_be foldl] in Hv.
  fold (value_be base (0 * base + d) l) (value_be base (0 * base + e) k) in Hv. rewrite !(value_be_acc base (0 * base + _)) in Hv by done.
  pose proof (value_be_range base l Hb Hl). pose proof (value_be_range base k Hb Hk). rewrite Hlen in *.
  assert (d = e) as -> by nia. f_equal. apply IH; [done|done|lia].
Qed.

Abbreviation five_bits := (Forall (λ d, 0 ≤ d < 32)) (only parsing).

Lemma emit_groups_spec fuel buffer bits : 0 ≤ bits < 5 * Z.of_nat (S fuel) → ∃ ds bits',
  emit_groups fuel buffer bits = (alphabet_at <$> ds, bits') ∧ 0 ≤ bits' < 5 ∧ five_bits ds ∧
  bits = 5 * Z.of_nat (length ds) + bits' ∧ buffer mod 2 ^ bits = value_be 32 0 ds * 2 ^ bits' + buffer mod 2 ^ bits'.
Proof.
  revert bits. induction fuel as [|n IH]; intros bits Hbits; cbn [emit_groups]; [by exists [], bits; split_and!; try done; simpl; lia|].
  destruct (Z.leb_spec 5 bits) as [Hle|Hlt]; [|by exists [], bits; split_and!; try done; simpl; lia].
  destruct (IH (bits - 5)) as (ds & bits' & -> & Hb' & Hds & Hlen & Hval); [lia|].
  set (d := Z.land (Z.shiftr buffer (bits - 5)) 0x1F).
  assert (d = Z.shiftr buffer (bits - 5) mod 2 ^ 5) as Hd by (unfold d; change 0x1F with (Z.ones 5); by rewrite Z.land_ones by lia).
  exists (d :: ds), bits'. split_and!; try done; try lia.
  - constructor; [|done]. rewrite Hd. apply Z.mod_pos_bound. lia.
  - cbn [length]. lia.
  - replace bits with (bits - 5 + 5) at 1 by lia. rewrite top_digit, Hval by lia. rewrite <-Hd.
    cbn [value_be foldl]. fold (value_be 32 (0 * 32 + d) ds). rewrite (value_be_acc 32 (0 * 32 + d)) by lia.
    replace (bits - 5) with (5 * Z.of_nat (length ds) + bits') by lia. rewrite Z.pow_add_r, Z.pow_mul_r by lia.
    change (2 ^ 5) with 32. lia.
Qed.

(** What the encoder has written stands for the bits it has read, padded to a group. *)
Lemma encode_from_spec l : Forall is_byte l → ∀ buffer bits, 0 ≤ buffer → 0 ≤ bits < 5 → ∃ ds pad,
  encode_from buffer bits l = alphabet_at <$> ds ∧ five_bits ds ∧ 0 ≤ pad < 5 ∧
  5 * Z.of_nat (length ds) = bits + 8 * Z.of_nat (length l) + pad ∧
  value_be 32 0 ds = ((buffer mod 2 ^ bits) * 256 ^ Z.of_nat (length l) + value_be 256 0 l) * 2 ^ pad.
Proof.
  induction 1 as [|byte l Hbyte Hl IH]; intros buffer bits Hbuf Hbits; cbn [encode_from].
  - destruct (Z.ltb_spec 0 bits) as [Hpos|Hz].
    2: { assert (bits = 0) as -> by lia. exists [], 0. split_and!; try done. rewrite Z.pow_0_r, Z.mod_1_r. done. }
    assert (Z.land (u32_shl buffer (5 - bits)) 0x1F = buffer mod 2 ^ bits * 2 ^ (5 - bits)) as Hd.
    { change 0x1F with (Z.ones 5). rewrite Z.land_ones by lia. destruct (push_digit buffer 0 bits (5 - bits)) as [Hp _]; [lia..|].
      rewrite Z.lor_0_r, Z.add_0_r in Hp. by replace (bits + (5 - bits)) with 5 in Hp by lia. }
    pose proof (Z.mod_pos_bound buffer (2 ^ bits) ltac:(lia)) as Hm.
    assert (2 ^ bits * 2 ^ (5 - bits) = 32) as H32 by (rewrite <-Z.pow_add_r by lia; by replace (bits + (5 - bits)) with 5 by lia).
    exists [Z.land (u32_shl buffer (5 - bits)) 0x1F], (5 - bits). split_and!; try done; try (simpl; lia).
    constructor; [|done]. rewrite Hd. nia.
  - destruct (push_digit buffer byte bits 8) as [Hpush Hnn]; [unfold is_byte in Hbyte; lia..|].
    set (buffer' := Z.lor (u32_shl buffer 8) byte) in *.
    destruct (emit_groups_spec 2 buffer' (bits + 8)) as (ds0 & bits' & -> & Hb' & Hds0 & Hlen0 & Hval0); [lia|].
    destruct (IH buffer' bits' Hnn Hb') as (ds & pad & -> & Hds & Hpad & Hlen & Hval).
    exists (ds0 ++ ds), pad. split_and!; try lia; [by rewrite fmap_app|by apply Forall_app|rewrite length_app; cbn [length]; lia|].
    unfold value_be at 1. rewrite foldl_app. fold (value_be 32 0 ds0). fold (value_be 32 (value_be 32 0 ds0) ds).
    cbn [value_be foldl length]. fold (value_be 256 (0 * 256 + byte) l). rewrite (value_be_acc 32 (value_be 32 0 ds0)), (value_be_acc 256 (0 * 256 + byte)), Hval by lia.
    assert (32 ^ Z.of_nat (length ds) = 2 ^ bits' * 256 ^ Z.of_nat (length l) * 2 ^ pad) as ->.
    { change 32 with (2 ^ 5). change 256 with (2 ^ 8). rewrite <-!Z.pow_mul_r, <-!Z.pow_add_r by lia. f_equal. lia. }
    rewrite Nat2Z.inj_succ, Z.pow_succ_r by lia. rewrite Hpush in Hval0. change (2 ^ 8) with 256 in Hval0. nia.
Qed.

Lemma alphabet_facts d : 0 ≤ d < 32 →
  is_ignored (alphabet_at d) = false ∧ alphabet_position (to_ascii_uppercase (alphabet_at d)) = Some d ∧
  to_ascii_uppercase (alphabet_at d) = alphabet_at d.
Proof.
  intros Hd. assert (is_byte d) as Hb by (unfold is_byte; lia).
  assert ((32 <=? d) || (negb (is_ignored (alphabet_at d)) && bool_decide (alphabet_position (to_ascii_uppercase (alphabet_at d)) = Some d)
    && (to_ascii_uppercase (alphabet_at d) =? alphabet_at d)) = true) as Hall.
  { by_bytes (λ d, (32 <=? d) || (negb (is_ignored (alphabet_at d)) &&
      bool_decide (alphabet_position (to_ascii_uppercase (alphabet_at d)) = Some d) && (to_ascii_uppercase (alphabet_at d) =? alphabet_at d))) d. }
  rewrite (proj2 (Z.leb_gt 32 d)) in Hall by lia. cbn [orb] in Hall.
  apply andb_true_iff in Hall as [[H1%negb_true_iff H2%bool_decide_eq_true]%andb_true_iff H3%Z.eqb_eq]. done.
Qed.

(** What the decoder has written stands for the groups it has read, but for the bits left. *)
Lemma decode_from_spec ds : five_bits ds → ∀ buffer bits out, 0 ≤ buffer → 0 ≤ bits < 8 → ∃ o bits' r,
  decode_from buffer bits out (alphabet_at <$> ds) = Ok (out ++ o) ∧ Forall is_byte o ∧ 0 ≤ bits' < 8 ∧ 0 ≤ r < 2 ^ bits' ∧
  8 * Z.of_nat (length o) + bits' = bits + 5 * Z.of_nat (length ds) ∧
  (buffer mod 2 ^ bits) * 32 ^ Z.of_nat (length ds) + value_be 32 0 ds = value_be 256 0 o * 2 ^ bits' + r.
Proof.
  induction 1 as [|d ds Hd Hds IH]; intros buffer bits out Hbuf Hbits.
  { exists [], bits, (buffer mod 2 ^ bits). rewrite app_nil_r. pose proof (Z.mod_pos_bound buffer (2 ^ bits) ltac:(lia)).
    split_and!; try done; simpl; lia. }
  destruct (alphabet_facts d Hd) as (Hi & Hpos & _). rewrite fmap_cons. cbn [decode_from]. rewrite Hi, Hpos.
  destruct (push_digit buffer d bits 5) as [Hpush Hnn]; [lia..|]. set (buffer' := Z.lor (u32_shl buffer 5) d) in *. change (2 ^ 5) with 32 in Hpush.
  cbn [length value_be foldl]. fold (value_be 32 (0 * 32 + d) ds). rewrite (value_be_acc 32 (0 * 32 + d)), Nat2Z.inj_succ, Z.pow_succ_r by lia.
  destruct (Z.leb_spec 8 (bits + 5)) as [Hfull|Hmore].
  - destruct (IH buffer' (bits + 5 - 8) (out ++ [Z.shiftr buffer' (bits + 5 - 8) mod 256])) as (o & bits' & r & -> & Ho & Hb' & Hr & Hlen & Hval);
      [done|lia|]. set (byte := Z.shiftr buffer' (bits + 5 - 8) mod 256) in *.
    assert (is_byte byte) as Hbyte by (unfold is_byte, byte; apply Z.mod_pos_bound; lia).
    exists (byte :: o), bits', r. rewrite <-app_assoc. split_and!; try done; try lia; [by constructor|cbn [length]; lia|].
    cbn [value_be foldl]. fold (value_be 256 (0 * 256 + byte) o). rewrite (value_be_acc 256 (0 * 256 + byte)) by lia.
    pose proof (top_digit buffer' (bits + 5 - 8) 8 ltac:(lia) ltac:(lia)) as Htop. replace (bits + 5 - 8 + 8) with (bits + 5) in Htop by lia.
    change (2 ^ 8) with 256 in Htop. fold byte in Htop. rewrite Hpush in Htop.
    assert (2 ^ (bits + 5 - 8) * 32 ^ Z.of_nat (length ds) = 256 ^ Z.of_nat (length o) * 2 ^ bits') as Hpow.
    { change 32 with (2 ^ 5). change 256 with (2 ^ 8). rewrite <-!Z.pow_mul_r, <-!Z.pow_add_r by lia. f_equal. lia. }
    transitivity ((buffer mod 2 ^ bits * 32 + d) * 32 ^ Z.of_nat (length ds) + value_be 32 0 ds); [ring|].
    rewrite Htop, Z.mul_add_distr_r, <-Z.mul_assoc, Hpow, <-Z.add_assoc, Hval. ring.
  - destruct (IH buffer' (bits + 5) out) as (o & bits' & r & -> & Ho & Hb' & Hr & Hlen & Hval); [done|lia|].
    exists o, bits', r. split_and!; try done; lia.
Qed.

(** A secret as a user may type it: spaces, padding and case do not matter. *)
Definition canonical (s : bytes) : bytes := to_ascii_uppercase <$> filter (λ ch, is_ignored ch = false) s.

Lemma uppercase_facts ch : is_ignored ch = false →
  is_ignored (to_ascii_uppercase ch) = false ∧ to_ascii_uppercase (to_ascii_uppercase ch) = to_ascii_uppercase ch.
Proof.
  unfold is_ignored, to_ascii_uppercase. cbn [existsb]. intros Hi. destruct ((97 <=? ch) && (ch <=? 122)) eqn:Hc.
  - split; [lia|]. destruct ((97 <=? ch - 32) && _) eqn:?; lia.
  - by rewrite Hc.
Qed.

Lemma decode_canonical s : ∀ buffer bits out, decode_from buffer bits out s = decode_from buffer bits out (canonical s).
Proof.
  unfold canonical. induction s as [|ch s IH]; intros buffer bits out; [done|]. cbn [decode_from].
  destruct (is_ignored ch) eqn:Hi; [rewrite filter_cons_False by congruence; apply IH|].
  rewrite filter_cons_True by done. rewrite fmap_cons. cbn [decode_from].
  destruct (uppercase_facts ch Hi) as [-> ->]. destruct (alphabet_position _); [|done]. case_match; apply IH.
Qed.

Lemma canonical_app a b : canonical (a ++ b) = canonical a ++ canonical b.
Proof. unfold canonical. by rewrite filter_app, fmap_app. Qed.

Lemma canonical_grouped (g : nat → nat) ds : five_bits ds →
  canonical (concat (imap (λ i, grouped_char (g i)) (alphabet_at <$> ds))) = alphabet_at <$> ds.
Proof.
  intros Hds. revert g. induction Hds as [|d ds Hd _ IH]; intros g; [done|]. rewrite fmap_cons, imap_cons. cbn [concat].
  rewrite canonical_app. unfold compose. rewrite (IH (λ i, g (S i))). change (alphabet_at d :: (alphabet_at <$> ds)) with ([alphabet_at d] ++ (alphabet_at <$> ds)). f_equal.
  destruct (alphabet_facts d Hd) as (Hi & _ & Hu). unfold grouped_char, canonical. destruct (_ && _).
  - rewrite filter_cons_False by done. rewrite filter_cons_True by done. simpl. by rewrite Hu.
  - rewrite filter_cons_True by done. simpl. by rewrite Hu.
Qed.

(** C29 (roundtrip): a secret is read back from its Base32 form however a user types it, with
    spaces, padding and letters of either case, in particular from the grouped form
    that is shown for manual entry; the 32-bit buffers lose no bit. *)
Theorem secret_reads_back secret (Hsecret : Forall is_byte secret) :
  (∀ typed, canonical typed = base32_encode secret → base32_decode typed = Ok secret) ∧
  canonical (grouped_secret secret) = base32_encode secret.
Proof.
  destruct (encode_from_spec secret Hsecret 0 0) as (ds & pad & Henc & Hds & Hpad & Hlen & Hval); [lia..|].
  split; [|unfold grouped_secret, base32_encode; rewrite Henc; by apply (canonical_grouped id)].
  intros typed Htyped. unfold base32_decode. rewrite decode_canonical, Htyped. unfold base32_encode. rewrite Henc.
  destruct (decode_from_spec ds Hds 0 0 []) as (o & bits & r & -> & Ho & Hbits & Hr & Hlen' & Hval'); [lia..|]. f_equal. simpl.
  assert (length o = length secret ∧ bits = pad) as [Hl ->] by lia. rewrite Z.pow_0_r, Z.mod_1_r in Hval, Hval'.
  apply (value_be_inj 256); [lia|done|done|done|]. nia.
Qed.

Lemma secret_reads_back_witness : base32_decode (ascii_bytes "mzxw 6ytb oi==") = Ok (ascii_bytes "foobar").
Proof.
  apply (secret_reads_back (ascii_bytes "foobar")); [|vm_compute; reflexivity].
  apply Forall_forall. intros b Hb. unfold is_byte. vm_compute in Hb. set_solver by lia.
Defined.

Module TotpSamples.

(** A digest that begins with the end of the message. *)
#[export] Instance echo_hmac : Hmac := {|
  hmac_sign a key msg := drop 4 ((λ b, Z.land b 0xFF) <$> take 8 (msg ++ replicate 8 0)) ++ replicate (digest_length a - 4) 0
|}.

#[export] Instance echo_hmac_laws : HmacLaws.
Proof.
  constructor; intros a key msg; unfold hmac_sign, echo_hmac.
  - rewrite length_app, length_drop, length_fmap, length_take, length_app, !length_replicate. destruct a; cbn [digest_length]; lia.
  - apply Forall_app. split; [|apply Forall_replicate; unfold is_byte; lia]. apply Forall_drop, Forall_fmap, Forall_forall.
    intros b _. simpl. unfold is_byte. change 0xFF with (Z.ones 8). rewrite Z.land_ones by lia. apply Z.mod_pos_bound. lia.
Qed.
End TotpSamples.
Import TotpSamples.

Lemma verification_is_exact_witness : ∃ r,
  verify_totp [] authenticator_default 3000 1 (ascii_bytes "000101") = Returned r ∧ r = Some 101 ∧
  code_for_timestep [] authenticator_default 101 = Returned (ascii_bytes "000101").
Proof.
  destruct (verification_is_exact [] authenticator_default 3000 1 (ascii_bytes "000101")) as (r & Hr & Hcase);
    [unfold params_ok; simpl; lia|unfold is_u64, U64_MAX; lia|lia|].
  exists r. split; [exact Hr|]. assert (r = Some 101) as -> by (vm_compute in Hr; congruence).
  split; [reflexivity|]. exact (proj1 (proj2 Hcase)).
Defined.
