(* ===== verification/Ids.v ===== *)
(** * Identifiers and bound contexts

    crates/ironauth-store id.rs and scope.rs: identifiers that embed the scope of the
    resource they name, their wire form and its parsers.  crates/ironauth-jose envelope.rs:
    the length-prefixed context [Aad] that a sealed column or a blind index is bound to,
    and the contexts of the second-factor columns (repository.rs).  The base64url codec is
    the class [Base64Url], SHA-256 the class [Sha256Digest].  The theorems: an identifier
    has one spelling and is read only in its own scope; a context determines its fields. *)

From S2P Require Import Prelude Machine Bytes Der Text Authn Totp.

Open Scope Z_scope.

(** ** Scopes and identifiers *)

Definition COMPONENT_BYTES : nat := 16.
Definition SCOPED_BYTES : nat := 48.

(** A level identifier: its 128-bit payload.  Tenants and environments are levels. *)
Record LevelId : Type := mkLevelId { level_bytes : text }.

Record StoreScope : Type := mkStoreScope { sc_tenant : LevelId; sc_environment : LevelId }.

Record ScopedId : Type := mkScopedId { id_tenant : LevelId; id_environment : LevelId; id_unique : text }.

#[export] Instance LevelId_eq_dec : EqDecision LevelId.
Proof. solve_decision. Defined.

#[export] Instance StoreScope_eq_dec : EqDecision StoreScope.
Proof. solve_decision. Defined.

#[export] Instance ScopedId_eq_dec : EqDecision ScopedId.
Proof. solve_decision. Defined.

#[export] Instance ScopedId_countable : Countable ScopedId.
Proof.
  refine (inj_countable' (λ i, (level_bytes (id_tenant i), level_bytes (id_environment i), id_unique i))
    (λ '(t, e, u), mkScopedId (mkLevelId t) (mkLevelId e) u) _).
  by intros [[] [] ?].
Defined.

#[export] Instance StoreScope_countable : Countable StoreScope.
Proof.
  refine (inj_countable' (λ s, (level_bytes (sc_tenant s), level_bytes (sc_environment s))) (λ '(t, e), mkStoreScope (mkLevelId t) (mkLevelId e)) _).
  by intros [[] []].
Defined.

Inductive IdParseError : Set := IdPrefix | IdEncoding | IdLength.

Inductive NotInScope : Set := not_in_scope.

Definition id_scope (id : ScopedId) : StoreScope := mkStoreScope (id_tenant id) (id_environment id).

(** [LevelId::generate] and [ScopedId::generate], from the bytes the entropy seam fills in. *)
Definition LevelId_generate (entropy : text) : LevelId := mkLevelId entropy.

Definition ScopedId_generate (entropy : text) (scope : StoreScope) : ScopedId :=
  mkScopedId (sc_tenant scope) (sc_environment scope) entropy.

Definition id_payload (id : ScopedId) : text :=
  level_bytes (id_tenant id) ++ level_bytes (id_environment id) ++ id_unique id.

Section Wire.
Context `{Base64Url}.

Definition decode_component (n : nat) (raw prefix : text) : Result text IdParseError :=
  match strip_prefix prefix raw ≫= strip_prefix (lit "_") with
  | None => Err IdPrefix
  | Some body =>
      match b64_decode body with
      | None => Err IdEncoding
      | Some decoded => if (length decoded =? n)%nat then Ok decoded else Err IdLength
      end
  end.

Definition LevelId_parse (prefix raw : text) : Result LevelId IdParseError :=
  match decode_component COMPONENT_BYTES raw prefix with
  | Ok payload => Ok (mkLevelId payload)
  | Err e => Err e
  end.

Definition LevelId_to_string (prefix : text) (id : LevelId) : text := prefix ++ lit "_" ++ b64_encode (level_bytes id).

(** The three components of a payload. *)
Definition split_payload (payload : text) : ScopedId :=
  mkScopedId (mkLevelId (take COMPONENT_BYTES payload))
    (mkLevelId (take COMPONENT_BYTES (drop COMPONENT_BYTES payload)))
    (take COMPONENT_BYTES (drop (COMPONENT_BYTES * 2) payload)).

Definition parse_in_scope (prefix raw : text) (scope : StoreScope) : Result ScopedId NotInScope :=
  match decode_component SCOPED_BYTES raw prefix with
  | Err _ => Err not_in_scope
  | Ok payload =>
      let id := split_payload payload in
      if bool_decide (id_tenant id ≠ sc_tenant scope) || bool_decide (id_environment id ≠ sc_environment scope)
      then Err not_in_scope else Ok id
  end.

Definition parse_declared_scope (prefix raw : text) : Result ScopedId IdParseError :=
  match decode_component SCOPED_BYTES raw prefix with
  | Err e => Err e
  | Ok payload => Ok (split_payload payload)
  end.

Definition id_to_string (prefix : text) (id : ScopedId) : text := prefix ++ lit "_" ++ b64_encode (id_payload id).
End Wire.

Definition IdParseError_to_string (e : IdParseError) : string :=
  match e with
  | IdPrefix => "identifier has the wrong typed prefix"
  | IdEncoding => "identifier payload is not canonical URL-safe base64"
  | IdLength => "identifier payload has the wrong length"
  end.

(** SHA-256 of the sha2 crate. *)
Class Sha256Digest := { sha256 : bytes → text }.

(** The bytes [ScopedId::derive] feeds to the hasher. *)
Definition derive_input (prefix : text) (scope : StoreScope) (seed : bytes) : bytes :=
  ascii_bytes "ironauth/scoped-id/derive/v1" ++ [0] ++ (code <$> prefix) ++ [0]
  ++ (code <$> level_bytes (sc_tenant scope)) ++ (code <$> level_bytes (sc_environment scope))
  ++ to_be_bytes (Z.of_nat (length seed)) ++ seed.

Definition ScopedId_derive `{Sha256Digest} (prefix : text) (scope : StoreScope) (seed : bytes) : ScopedId :=
  mkScopedId (sc_tenant scope) (sc_environment scope) (take COMPONENT_BYTES (sha256 (derive_input prefix scope seed))).

(** ** Bound contexts *)

Record Aad : Type := mkAad { aad_bytes : bytes }.

Definition aad_builder : Aad := mkAad [].

(** A length is less than [u64::MAX] on every target; the cast is written out all the same. *)
Definition aad_field (b : Aad) (value : bytes) : Aad :=
  let len := if Z.of_nat (length value) <=? U64_MAX then Z.of_nat (length value) else U64_MAX in
  mkAad (aad_bytes b ++ to_be_bytes len ++ value).

Definition aad_text (b : Aad) (value : text) : Aad := aad_field b (code <$> value).

(** [i64::to_be_bytes] is the two's complement. *)
Definition aad_version (b : Aad) (value : Z) : Aad := aad_field b (to_be_bytes (value mod 2 ^ 64)).

Definition TENANT_PREFIX : text := lit "ten".
Definition ENVIRONMENT_PREFIX : text := lit "env".
Definition USER_PREFIX : text := lit "usr".
Definition TOTP_PREFIX : text := lit "tot".
Definition RECOVERY_CODE_PREFIX : text := lit "rvc".

Definition TOTP_SEED_SEAL_LABEL : text := lit "ironauth.envelope.totp-seed.v1".
Definition TOTP_NAME_SEAL_LABEL : text := lit "ironauth.envelope.totp-name.v1".
Definition RECOVERY_CODE_BIDX_LABEL : text := lit "ironauth.bidx.recovery-code.v1".
Definition BLIND_INDEX_SUBKEY_LABEL : bytes := ascii_bytes "ironauth.envelope.blind-index.subkey.v1".

Section Contexts.
Context `{Base64Url}.

(** The label and the scope every context starts with. *)
Definition aad_scoped (label : text) (scope : StoreScope) : Aad :=
  aad_text (aad_text (aad_text aad_builder label) (LevelId_to_string TENANT_PREFIX (sc_tenant scope)))
    (LevelId_to_string ENVIRONMENT_PREFIX (sc_environment scope)).

Definition totp_seed_seal_aad (scope : StoreScope) (credential_id : text) (dek_version : Z) : Aad :=
  aad_version (aad_text (aad_scoped TOTP_SEED_SEAL_LABEL scope) credential_id) dek_version.

Definition totp_name_seal_aad (scope : StoreScope) (dek_version : Z) : Aad :=
  aad_version (aad_scoped TOTP_NAME_SEAL_LABEL scope) dek_version.

Definition recovery_code_bidx_aad (scope : StoreScope) (subject normalized_code : text) : Aad :=
  aad_text (aad_text (aad_scoped RECOVERY_CODE_BIDX_LABEL scope) subject) normalized_code.
End Contexts.

(** [MasterKey::blind_index]. *)
Definition blind_index `{Hmac} (master : bytes) (context : Aad) : bytes :=
  hmac_sign Sha256 (hmac_sign Sha256 master BLIND_INDEX_SUBKEY_LABEL) (aad_bytes context).

Definition recovery_code_blind_index `{Hmac} `{Base64Url} (master : bytes) (scope : StoreScope) (subject normalized_code : text) :
    bytes :=
  blind_index master (recovery_code_bidx_aad scope subject normalized_code).

(** ** The wire form *)

(** What the decoder of the base64 crate documents for this engine: no padding and no stray
    trailing bits, so a payload has one encoding. *)
Class CanonicalBase64Url `{Base64Url} : Prop := {
  b64_canonical_laws :: Base64UrlLaws;
  b64_decode_canonical encoded payload : b64_decode encoded = Some payload → encoded = b64_encode payload
}.

Definition id_ok (id : ScopedId) : Prop :=
  length (level_bytes (id_tenant id)) = COMPONENT_BYTES ∧ length (level_bytes (id_environment id)) = COMPONENT_BYTES ∧
  length (id_unique id) = COMPONENT_BYTES.

Lemma split_payload_payload id : id_ok id → split_payload (id_payload id) = id.
Proof.
  destruct id as [[t] [e] u]. intros (Ht & He & Hu). simpl in *. unfold split_payload, id_payload. simpl.
  rewrite (take_app_length' t), (drop_app_length' t), (take_app_length' e) by done.
  rewrite (app_assoc t e u), (drop_app_length' (t ++ e)) by (rewrite length_app, Ht, He; done).
  by rewrite take_ge by (rewrite Hu; done).
Qed.

Lemma payload_split_payload payload : length payload = SCOPED_BYTES →
  id_ok (split_payload payload) ∧ id_payload (split_payload payload) = payload.
Proof.
  intros Hl. unfold id_ok, split_payload, id_payload. cbn [id_tenant id_environment id_unique level_bytes].
  rewrite !length_take, !length_drop, Hl. split; [done|].
  rewrite (take_ge (drop (COMPONENT_BYTES * 2) payload)) by (rewrite length_drop, Hl; vm_compute; lia).
  change (COMPONENT_BYTES * 2)%nat with (COMPONENT_BYTES + COMPONENT_BYTES)%nat. rewrite <-drop_drop.
  by rewrite (take_drop COMPONENT_BYTES (drop COMPONENT_BYTES payload)), take_drop.
Qed.

Section Spelling.
Context `{CanonicalBase64Url}.

Lemma decode_component_iff n raw prefix payload :
  decode_component n raw prefix = Ok payload ↔ length payload = n ∧ raw = prefix ++ lit "_" ++ b64_encode payload.
Proof.
  unfold decode_component. split.
  - destruct (strip_prefix prefix raw) as [rest|] eqn:Hp; cbn [mbind option_bind]; [|done]. apply strip_prefix_Some in Hp as ->.
    destruct (strip_prefix (lit "_") rest) as [body|] eqn:Hu; [|done]. apply strip_prefix_Some in Hu as ->.
    destruct (b64_decode body) as [decoded|] eqn:Hd; [|done]. apply b64_decode_canonical in Hd as ->.
    destruct (Nat.eqb_spec (length decoded) n); [|done]. by intros [= ->].
  - intros [Hl ->]. rewrite (proj2 (strip_prefix_Some prefix _ _) eq_refl). cbn [mbind option_bind].
    rewrite (proj2 (strip_prefix_Some (lit "_") _ _) eq_refl). rewrite b64_decode_encode. by rewrite (proj2 (Nat.eqb_eq _ _) Hl).
Qed.

Lemma parse_declared_scope_iff prefix raw id :
  parse_declared_scope prefix raw = Ok id ↔ id_ok id ∧ raw = id_to_string prefix id.
Proof.
  unfold parse_declared_scope, id_to_string. split.
  - destruct (decode_component _ _ _) as [payload|e] eqn:Hd; [|done]. intros [= <-].
    apply decode_component_iff in Hd as [Hl ->]. destruct (payload_split_payload payload Hl) as [Hok Heq]. by rewrite Heq.
  - intros [Hok ->]. rewrite (proj2 (decode_component_iff SCOPED_BYTES _ prefix (id_payload id))); [by rewrite split_payload_payload|].
    split; [|done]. destruct Hok as (Ht & He & Hu). unfold id_payload. by rewrite !length_app, Ht, He, Hu.
Qed.

Lemma parse_in_scope_declared prefix raw scope :
  parse_in_scope prefix raw scope =
  match parse_declared_scope prefix raw with Ok id => if bool_decide (id_scope id = scope) then Ok id else Err not_in_scope | Err _ => Err not_in_scope end.
Proof.
  unfold parse_in_scope, parse_declared_scope. destruct (decode_component _ _ _) as [payload|]; [|done]. cbn zeta.
  destruct scope as [t e]. unfold id_scope. cbn [sc_tenant sc_environment].
  repeat case_bool_decide; simpl; naive_solver congruence.
Qed.

(** C30 (roundtrip): an identifier has exactly one spelling and is read only in its own scope: parsing
    untrusted text in a scope gives an identifier exactly when the identifier is of that
    scope and the text is what the identifier prints as.  Every other text, be it malformed,
    of another kind or of another tenant or environment, is the one uniform error. *)
Theorem identifier_has_one_spelling prefix raw scope :
  (∀ id, parse_in_scope prefix raw scope = Ok id ↔ id_ok id ∧ id_scope id = scope ∧ raw = id_to_string prefix id) ∧
  ((∀ id, id_ok id → id_scope id = scope → raw ≠ id_to_string prefix id) → parse_in_scope prefix raw scope = Err not_in_scope).
Proof.
  assert (∀ id, parse_in_scope prefix raw scope = Ok id ↔ id_ok id ∧ id_scope id = scope ∧ raw = id_to_string prefix id) as Hiff.
  { intros id. rewrite parse_in_scope_declared. split.
    - destruct (parse_declared_scope prefix raw) as [id'|] eqn:Hd; [|done]. apply parse_declared_scope_iff in Hd as [Hok ->].
      case_bool_decide; [|done]. by intros [= <-].
    - intros (Hok & Hs & ->). rewrite (proj2 (parse_declared_scope_iff prefix _ id)) by done. by rewrite bool_decide_eq_true_2. }
  split; [done|]. intros Hno. destruct (parse_in_scope prefix raw scope) as [id|[]] eqn:Hp; [|done].
  destruct (proj1 (Hiff id) eq_refl) as (Hok & Hs & Hr). by destruct (Hno id Hok Hs).
Qed.

Lemma id_to_string_inj prefix id id' : id_ok id → id_ok id' → id_to_string prefix id = id_to_string prefix id' → id = id'.
Proof.
  intros Hok Hok' Heq. assert (parse_declared_scope prefix (id_to_string prefix id) = Ok id) as H1 by (by apply parse_declared_scope_iff).
  rewrite Heq, (proj2 (parse_declared_scope_iff prefix _ id')) in H1 by done. congruence.
Qed.
End Spelling.

(** ** Contexts *)

Lemma to_be_bytes_inj x y : is_u64 x → is_u64 y → to_be_bytes x = to_be_bytes y → x = y.
Proof.
  intros Hx Hy Heq. apply Z.bits_inj'. intros n Hn. unfold is_u64, U64_MAX in *.
  destruct (decide (n < 64)) as [Hlt|Hge].
  - assert (∀ i, (i < 8)%nat → Z.land (Z.shiftr x (8 * (7 - Z.of_nat i))) 0xFF = Z.land (Z.shiftr y (8 * (7 - Z.of_nat i))) 0xFF) as Hb.
    { intros i Hi. apply (f_equal (λ l : list Z, l !! i)) in Heq. unfold to_be_bytes in Heq.
      rewrite !list_lookup_fmap, (lookup_seq_lt 0 8 i) in Heq by done. simpl in Heq. congruence. }
    pose proof (Z.div_mod n 8 ltac:(lia)) as Hdm. pose proof (Z.mod_pos_bound n 8 ltac:(lia)) as Hm.
    pose proof (Z.div_lt_upper_bound n 8 8 ltac:(lia) ltac:(lia)). pose proof (Z.div_pos n 8 ltac:(lia) ltac:(lia)).
    specialize (Hb (Z.to_nat (7 - n / 8)) ltac:(lia)). apply (f_equal (λ v, Z.testbit v (n mod 8))) in Hb.
    rewrite !Z.land_spec, !Z.shiftr_spec in Hb by lia. replace (n mod 8 + 8 * (7 - Z.of_nat (Z.to_nat (7 - n / 8)))) with n in Hb by lia.
    change 0xFF with (Z.ones 8) in Hb. by rewrite Z.ones_spec_low, !andb_true_r in Hb by lia.
  - rewrite <-(Z.mod_small x (2 ^ 64)), <-(Z.mod_small y (2 ^ 64)) by lia. by rewrite !Z.mod_pow2_bits_high by lia.
Qed.

(** A context as the list of its fields. *)
Definition aad_of (fields : list bytes) : Aad := foldl aad_field aad_builder fields.

Definition field_ok (value : bytes) : Prop := Z.of_nat (length value) ≤ U64_MAX.

Lemma aad_of_bytes fields : aad_bytes (aad_of fields) = concat ((λ value, aad_bytes (aad_field aad_builder value)) <$> fields).
Proof.
  assert (∀ b, aad_bytes (foldl aad_field b fields) = aad_bytes b ++ concat ((λ value, aad_bytes (aad_field aad_builder value)) <$> fields)) as Hgen;
    [|apply Hgen].
  induction fields as [|f fields IH]; intros b; simpl; [by rewrite app_nil_r|]. rewrite IH. simpl. by rewrite <-!app_assoc.
Qed.

Lemma frame_inj value value' rest rest' : field_ok value → field_ok value' →
  aad_bytes (aad_field aad_builder value) ++ rest = aad_bytes (aad_field aad_builder value') ++ rest' → value = value' ∧ rest = rest'.
Proof.
  unfold field_ok, aad_field. intros Hv Hv'. rewrite !(proj2 (Z.leb_le _ _)) by done. cbn [aad_bytes aad_builder app].
  rewrite <-!app_assoc. intros [Hlen Happ]%app_inj_1; [|done].
  apply to_be_bytes_inj in Hlen; [|unfold is_u64; lia..]. apply app_inj_1 in Happ; [done|lia].
Qed.

Lemma frame_not_nil value rest : aad_bytes (aad_field aad_builder value) ++ rest ≠ [].
Proof. discriminate. Qed.

(** The frames of the fields determine the fields. *)
Lemma aad_of_inj fields : ∀ fields', Forall field_ok fields → Forall field_ok fields' → aad_of fields = aad_of fields' → fields = fields'.
Proof.
  intros fields' Hf Hf' Heq. apply (f_equal aad_bytes) in Heq. rewrite !aad_of_bytes in Heq. revert fields' Hf' Heq.
  induction Hf as [|f fields Hf _ IH]; intros fields' Hf' Heq; destruct Hf' as [|f' fields' Hf' Hrest]; rewrite ?fmap_cons, ?concat_cons in Heq; [done| | |].
  - symmetry in Heq. by apply frame_not_nil in Heq.
  - by apply frame_not_nil in Heq.
  - apply frame_inj in Heq as [-> Heq]; [|done..]. f_equal. by apply IH.
Qed.

Lemma cons_inj {A} (a a' : A) l l' : a :: l = a' :: l' → a = a' ∧ l = l'.
Proof. by intros [=]. Qed.

Lemma one_inj {A} (a a' : A) : [a] = [a'] → a = a'.
Proof. congruence. Qed.

Lemma two_inj {A} (a b a' b' : A) : [a; b] = [a'; b'] → a = a' ∧ b = b'.
Proof. by intros [=]. Qed.

Lemma code_fmap_inj (s s' : text) : code <$> s = code <$> s' → s = s'.
Proof. apply list_fmap_eq_inj. intros a b Hab. unfold code in Hab. apply N2Z.inj in Hab. by rewrite <-(ascii_N_embedding a), Hab, ascii_N_embedding. Qed.

Section ContextLaws.
Context `{Base64UrlLaws}.

Lemma LevelId_to_string_inj prefix l l' : LevelId_to_string prefix l = LevelId_to_string prefix l' → l = l'.
Proof.
  unfold LevelId_to_string. intros Heq%app_inv_head%app_inv_head%(f_equal b64_decode).
  rewrite !b64_decode_encode in Heq. destruct l, l'. simpl in *. congruence.
Qed.

(** The fields a context of a column or an index is made of. *)
Definition scoped_fields (label : text) (scope : StoreScope) (fields : list bytes) : list bytes :=
  (code <$> label) :: (code <$> LevelId_to_string TENANT_PREFIX (sc_tenant scope))
  :: (code <$> LevelId_to_string ENVIRONMENT_PREFIX (sc_environment scope)) :: fields.

Lemma scoped_fields_inj label label' scope scope' fields fields' : scoped_fields label scope fields = scoped_fields label' scope' fields' →
  label = label' ∧ scope = scope' ∧ fields = fields'.
Proof.
  intros (Hl%code_fmap_inj & (Ht%code_fmap_inj%LevelId_to_string_inj & (He%code_fmap_inj%LevelId_to_string_inj & Hf)%cons_inj)%cons_inj)%cons_inj.
  destruct scope, scope'. simpl in *. by subst.
Qed.
(** The contexts of the second-factor columns and of the index of the recovery codes. *)
Inductive BoundContext : Type :=
| SeedContext (scope : StoreScope) (credential_id : text) (dek_version : Z)
| NameContext (scope : StoreScope) (dek_version : Z)
| CodeContext (scope : StoreScope) (subject normalized_code : text).

Definition context_aad (c : BoundContext) : Aad :=
  match c with
  | SeedContext scope id version => totp_seed_seal_aad scope id version
  | NameContext scope version => totp_name_seal_aad scope version
  | CodeContext scope subject code => recovery_code_bidx_aad scope subject code
  end.

Definition context_fields (c : BoundContext) : list bytes :=
  match c with
  | SeedContext scope id version => scoped_fields TOTP_SEED_SEAL_LABEL scope [code <$> id; to_be_bytes (version mod 2 ^ 64)]
  | NameContext scope version => scoped_fields TOTP_NAME_SEAL_LABEL scope [to_be_bytes (version mod 2 ^ 64)]
  | CodeContext scope subject normalized => scoped_fields RECOVERY_CODE_BIDX_LABEL scope [code <$> subject; code <$> normalized]
  end.

(** What holds of every value in memory: fields are shorter than 2^64, versions fit in 64 bits. *)
Definition context_ok (c : BoundContext) : Prop :=
  Forall field_ok (context_fields c) ∧
  match c with SeedContext _ _ version | NameContext _ version => is_i64 version | CodeContext _ _ _ => True end.

Lemma context_aad_fields c : context_aad c = aad_of (context_fields c).
Proof. by destruct c. Qed.

Lemma version_bytes_inj v v' : is_i64 v → is_i64 v' → to_be_bytes (v mod 2 ^ 64) = to_be_bytes (v' mod 2 ^ 64) → v = v'.
Proof.
  unfold is_i64, I64_MIN, I64_MAX. intros Hv Hv' Heq%to_be_bytes_inj; [|unfold is_u64, U64_MAX; pose proof (Z.mod_pos_bound v (2 ^ 64)); pose proof (Z.mod_pos_bound v' (2 ^ 64)); lia..].
  pose proof (Z.div_mod v (2 ^ 64)). pose proof (Z.div_mod v' (2 ^ 64)). lia.
Qed.

(** A context is bound to everything it was built from: equal contexts are of the same
    column, scope, row or subject, code and key version.  So the seed of one credential, its
    name and the index of a recovery code never share a context, and neither do two rows,
    two subjects or two tenants. *)
Theorem bound_context_is_exact c c' (Hc : context_ok c) (Hc' : context_ok c') : context_aad c = context_aad c' → c = c'.
Proof.
  destruct Hc as [Hf Hv], Hc' as [Hf' Hv']. rewrite !context_aad_fields. intros Heq%aad_of_inj; [|done..].
  destruct c, c'; apply scoped_fields_inj in Heq as (Hl & -> & Hx); try discriminate Hl.
  - by apply two_inj in Hx as [->%code_fmap_inj ->%version_bytes_inj].
  - by apply one_inj, version_bytes_inj in Hx as ->.
  - by apply two_inj in Hx as [->%code_fmap_inj ->%code_fmap_inj].
Qed.
End ContextLaws.

Module IdSamples.

(** The letter codec, restricted to the encodings of payloads. *)
#[export] Instance strict_codec : Base64Url :=
  {| b64_encode := @b64_encode AuthnSamples.letter_codec;
     b64_decode encoded :=
       match @b64_decode AuthnSamples.letter_codec encoded with
       | Some payload => if bool_decide (@b64_encode AuthnSamples.letter_codec payload = encoded) then Some payload else None
       | None => None
       end |}.

#[export] Instance strict_codec_laws : CanonicalBase64Url.
Proof.
  split; [split|].
  - intros payload. cbn [b64_decode b64_encode strict_codec]. rewrite (@b64_decode_encode _ AuthnSamples.letter_codec_laws). by rewrite bool_decide_eq_true_2.
  - apply (@b64_encode_graphic _ AuthnSamples.letter_codec_laws).
  - intros encoded payload. cbn [b64_decode b64_encode strict_codec]. destruct (@b64_decode AuthnSamples.letter_codec encoded); [|done].
    case_bool_decide; [|done]. by intros [= <-].
Qed.

Definition component (c : ascii) : text := replicate 16 c.
Definition acme : StoreScope := mkStoreScope (mkLevelId (component "a")) (mkLevelId (component "p")).
Definition globex : StoreScope := mkStoreScope (mkLevelId (component "b")) (mkLevelId (component "p")).
Definition alice : ScopedId := ScopedId_generate (component "1") acme.

Lemma identifier_has_one_spelling_witness :
  parse_in_scope USER_PREFIX (id_to_string USER_PREFIX alice) acme = Ok alice ∧
  parse_in_scope USER_PREFIX (id_to_string USER_PREFIX alice) globex = Err not_in_scope.
Proof.
  split.
  - apply (identifier_has_one_spelling USER_PREFIX (id_to_string USER_PREFIX alice) acme). by repeat split.
  - apply (identifier_has_one_spelling USER_PREFIX (id_to_string USER_PREFIX alice) globex). intros id Hok Hs Heq.
    apply id_to_string_inj in Heq as <-; [discriminate Hs|by repeat split|done].
Defined.

Lemma bound_context_is_exact_witness :
  context_aad (CodeContext acme (lit "usr") (lit "A")) ≠ context_aad (CodeContext acme (lit "us") (lit "rA")).
Proof.
  intros Heq. discriminate (bound_context_is_exact (CodeContext acme (lit "usr") (lit "A")) (CodeContext acme (lit "us") (lit "rA"))
    ltac:(split; [repeat constructor; vm_compute; congruence|done]) ltac:(split; [repeat constructor; vm_compute; congruence|done]) Heq).
Defined.
End IdSamples.
