(* ===== verification/Envelope.v ===== *)
(** * Envelope encryption

    crates/ironauth-jose envelope.rs: sealed blobs and the three tiers of keys, over the AEAD
    of the ring crate as the class [Aead].  crates/ironauth-store repository.rs and migration
    0028: the tables of wrapped keys, the reads that unwrap a key for a column, and the
    transactions that provision, rotate and destroy keys.  The entropy a call draws is an
    argument.  The lemmas: a sealed blob opens to what was sealed; a rotation changes which
    key wraps a data key and never the data key; a data key that was ever stored can be read
    until its wrapping key is destroyed. *)

From stdpp Require Import sorting.
From S2P Require Import Prelude Machine Bytes Der Text Authn Totp Ids.

Open Scope Z_scope.

(** ** The AEAD and sealed blobs *)

Definition KEY_LEN : nat := 32.
Definition NONCE_BYTES : nat := 12.

(** [AES_256_GCM.tag_len()]. *)
Definition TAG_LEN : nat := 16.

(** AES-256-GCM of the ring crate: the key, the nonce, the associated data and the text. *)
Class Aead := {
  aead_seal : bytes → bytes → bytes → bytes → bytes;
  aead_open : bytes → bytes → bytes → bytes → option bytes }.

(** What the crate documents: sealing appends a tag, and opening under the same key, nonce and
    associated data gives the text back. *)
Class AeadLaws `{Aead} : Prop := {
  aead_open_seal key nonce aad plaintext : length key = KEY_LEN → length nonce = NONCE_BYTES →
    aead_open key nonce aad (aead_seal key nonce aad plaintext) = Some plaintext;
  aead_seal_length key nonce aad plaintext : length (aead_seal key nonce aad plaintext) = (length plaintext + TAG_LEN)%nat }.

Inductive EnvelopeError : Set := EnvelopeFormat | EnvelopeDecrypt.

Definition EnvelopeError_to_string (e : EnvelopeError) : string :=
  match e with EnvelopeFormat => "malformed sealed blob" | EnvelopeDecrypt => "authenticated decryption failed" end.

Record Sealed : Type := mkSealed { sealed_bytes : bytes }.

Definition too_short (b : bytes) : bool := (length b <? NONCE_BYTES + TAG_LEN)%nat.

Definition Sealed_from_bytes (b : bytes) : Result Sealed EnvelopeError := if too_short b then Err EnvelopeFormat else Ok (mkSealed b).

(** [fill_bytes] into an array of [n] zeros. *)
Definition fill_buffer (n : nat) (entropy : text) : bytes := resize n 0 (code <$> entropy).

(** [<[u8; KEY_LEN]>::try_from]. *)
Definition to_key_bytes (b : bytes) : Result bytes EnvelopeError := if (length b =? KEY_LEN)%nat then Ok b else Err EnvelopeFormat.

Section Keys.
Context `{Aead}.

(** [AeadKey]: its 32 bytes. *)
Definition AeadKey_seal (key : bytes) (entropy : text) (aad : Aad) (plaintext : bytes) : Sealed :=
  let nonce := fill_buffer NONCE_BYTES entropy in
  mkSealed (nonce ++ aead_seal key nonce (aad_bytes aad) plaintext).

Definition AeadKey_open (key : bytes) (aad : Aad) (sealed : Sealed) : Result bytes EnvelopeError :=
  let b := sealed_bytes sealed in
  if too_short b then Err EnvelopeFormat
  else match aead_open key (take NONCE_BYTES b) (aad_bytes aad) (drop NONCE_BYTES b) with
  | Some plaintext => Ok plaintext
  | None => Err EnvelopeDecrypt
  end.
End Keys.

Record MasterKey : Type := mkMasterKey { mkey_id : text; mkey_bytes : bytes }.
Record Kek : Type := mkKek { kek_key : bytes }.
Record Dek : Type := mkDek { dek_key : bytes }.

Definition MASTER_DERIVE_LABEL : bytes := ascii_bytes "ironauth.envelope.master-key.derive.v1".

(** [MasterKey::derive]: HMAC-SHA256 gives the 32 bytes. *)
Definition MasterKey_derive `{Hmac} (id : text) (ikm : bytes) : MasterKey := mkMasterKey id (hmac_sign Sha256 ikm MASTER_DERIVE_LABEL).

Definition MasterKey_generate (id entropy : text) : MasterKey := mkMasterKey id (fill_buffer KEY_LEN entropy).
Definition Kek_generate (entropy : text) : Kek := mkKek (fill_buffer KEY_LEN entropy).
Definition Dek_generate (entropy : text) : Dek := mkDek (fill_buffer KEY_LEN entropy).

Section Wraps.
Context `{Aead}.

Definition wrap_kek (master : MasterKey) (entropy : text) (aad : Aad) (kek : Kek) : Sealed :=
  AeadKey_seal (mkey_bytes master) entropy aad (kek_key kek).

Definition unwrap_kek (master : MasterKey) (aad : Aad) (wrapped : Sealed) : Result Kek EnvelopeError :=
  let? opened := AeadKey_open (mkey_bytes master) aad wrapped in
  let? raw := to_key_bytes opened in
  Ok (mkKek raw).

Definition wrap_dek (kek : Kek) (entropy : text) (aad : Aad) (dek : Dek) : Sealed :=
  AeadKey_seal (kek_key kek) entropy aad (dek_key dek).

Definition unwrap_dek (kek : Kek) (aad : Aad) (wrapped : Sealed) : Result Dek EnvelopeError :=
  let? opened := AeadKey_open (kek_key kek) aad wrapped in
  let? raw := to_key_bytes opened in
  Ok (mkDek raw).

Definition Dek_seal (dek : Dek) (entropy : text) (aad : Aad) (plaintext : bytes) : Sealed := AeadKey_seal (dek_key dek) entropy aad plaintext.
Definition Dek_open (dek : Dek) (aad : Aad) (sealed : Sealed) : Result bytes EnvelopeError := AeadKey_open (dek_key dek) aad sealed.
End Wraps.

(** ** The tables of wrapped keys *)

(** The errors these repositories return. *)
Inductive StoreError : Set := StoreNotFound | StoreConflict | StoreEncryption | StoreDatabase.

(** The conversion of an envelope error, made by [?]. *)
Definition from_envelope {A} (r : Result A EnvelopeError) : Result A StoreError := match r with Ok a => Ok a | Err _ => Err StoreEncryption end.

Definition KEK_WRAP_LABEL : text := lit "ironauth.envelope.kek-wrap.v1".
Definition DEK_WRAP_LABEL : text := lit "ironauth.envelope.dek-wrap.v1".

(** The rows, under the key of their unique index; [created_at], which nothing reads, is left out. *)
Record KekRow : Type := { kr_id : ScopedId; kr_master_key_id : text; kr_wrapped : bytes; kr_status : string; kr_destroyed_at : option Z }.
Record DekRow : Type := { dr_id : ScopedId; dr_kek_version : Z; dr_wrapped : bytes; dr_status : string }.

Abbreviation kek_table := (gmap (StoreScope * Z) KekRow) (only parsing).
Abbreviation dek_table := (gmap (StoreScope * Z) DekRow) (only parsing).

Record KeyTables : Type := mkKeys { tenant_keks : kek_table; tenant_deks : dek_table }.

(** The INSERTs: [None] is a unique violation, of the primary key or of the scope and version. *)
Definition insert_kek (scope : StoreScope) (version : Z) (r : KekRow) (t : kek_table) : option kek_table :=
  if bool_decide (map_Exists (λ _ r', kr_id r' = kr_id r) t) || bool_decide (is_Some (t !! (scope, version))) then None
  else Some (<[(scope, version) := r]> t).

Definition insert_dek (scope : StoreScope) (version : Z) (r : DekRow) (t : dek_table) : option dek_table :=
  if bool_decide (map_Exists (λ _ r', dr_id r' = dr_id r) t) || bool_decide (is_Some (t !! (scope, version))) then None
  else Some (<[(scope, version) := r]> t).

(** [SELECT max(version)] over the rows of a scope, all of them or those of a status. *)
Definition max_version {R} (scope : StoreScope) (counts : R → bool) (t : gmap (StoreScope * Z) R) : option Z :=
  map_fold (λ k r acc, if bool_decide (k.1 = scope) && counts r then Some (default k.2 (Z.max k.2 <$> acc)) else acc) None t.

Definition kek_active (r : KekRow) : bool := String.eqb (kr_status r) "active".
Definition dek_active (r : DekRow) : bool := String.eqb (dr_status r) "active".

Definition active_kek_version (scope : StoreScope) (keys : KeyTables) : option Z := max_version scope kek_active (tenant_keks keys).
Definition active_dek_version (scope : StoreScope) (keys : KeyTables) : option Z := max_version scope dek_active (tenant_deks keys).
Definition max_kek_version (scope : StoreScope) (keys : KeyTables) : option Z := max_version scope (λ _, true) (tenant_keks keys).
Definition max_dek_version (scope : StoreScope) (keys : KeyTables) : option Z := max_version scope (λ _, true) (tenant_deks keys).

(** [i32] addition as compiled for release. *)
Definition wrapping_add_i32 (a b : Z) : Z := (a + b + 2 ^ 31) mod 2 ^ 32 - 2 ^ 31.

Definition retired_kek (r : KekRow) : KekRow :=
  {| kr_id := kr_id r; kr_master_key_id := kr_master_key_id r; kr_wrapped := kr_wrapped r; kr_status := "retired"; kr_destroyed_at := kr_destroyed_at r |}.

Definition destroyed_kek (now : Z) (r : KekRow) : KekRow :=
  {| kr_id := kr_id r; kr_master_key_id := kr_master_key_id r; kr_wrapped := []; kr_status := "destroyed"; kr_destroyed_at := Some now |}.

Definition retired_dek (r : DekRow) : DekRow :=
  {| dr_id := dr_id r; dr_kek_version := dr_kek_version r; dr_wrapped := dr_wrapped r; dr_status := "retired" |}.

Definition rewrapped_dek (kek_version : Z) (wrapped : bytes) (r : DekRow) : DekRow :=
  {| dr_id := dr_id r; dr_kek_version := kek_version; dr_wrapped := wrapped; dr_status := dr_status r |}.

(** The update of the rows of a scope that [counts] selects. *)
Definition update_scope {R} (scope : StoreScope) (counts : R → bool) (f : R → R) (t : gmap (StoreScope * Z) R) : gmap (StoreScope * Z) R :=
  map_imap (λ k r, Some (if bool_decide (k.1 = scope) && counts r then f r else r)) t.

(** The versions of a scope, in order. *)
Definition versions {R} (scope : StoreScope) (t : gmap (StoreScope * Z) R) : list Z :=
  merge_sort Z.le ((λ kr, kr.1.2) <$> filter (λ kr, kr.1.1 = scope) (map_to_list t)).

Section Tables.
Context `{Aead} `{Base64Url} (master : MasterKey).

Definition kek_wrap_aad (scope : StoreScope) (version : Z) (master_key_id : text) : Aad :=
  aad_text (aad_version (aad_scoped KEK_WRAP_LABEL scope) version) master_key_id.

Definition dek_wrap_aad (scope : StoreScope) (version : Z) : Aad := aad_version (aad_scoped DEK_WRAP_LABEL scope) version.

(** *** Reads *)

Definition open_kek_row (scope : StoreScope) (version : Z) (r : KekRow) : Result Kek StoreError :=
  let? wrapped := from_envelope (Sealed_from_bytes (kr_wrapped r)) in
  from_envelope (unwrap_kek master (kek_wrap_aad scope version (kr_master_key_id r)) wrapped).

Definition fetch_kek_by_version (scope : StoreScope) (version : Z) (keys : KeyTables) : Result Kek StoreError :=
  match tenant_keks keys !! (scope, version) with
  | None => Err StoreEncryption
  | Some r => open_kek_row scope version r
  end.

(** [ORDER BY version DESC LIMIT 1] over the active rows. *)
Definition fetch_active_kek (scope : StoreScope) (keys : KeyTables) : Result (Z * Kek) StoreError :=
  match active_kek_version scope keys with
  | None => Err StoreEncryption
  | Some version => let? kek := fetch_kek_by_version scope version keys in Ok (version, kek)
  end.

Definition fetch_dek_by_version (scope : StoreScope) (version : Z) (keys : KeyTables) : Result Dek StoreError :=
  match tenant_deks keys !! (scope, version) with
  | None => Err StoreEncryption
  | Some r =>
      let? kek := fetch_kek_by_version scope (dr_kek_version r) keys in
      let? wrapped := from_envelope (Sealed_from_bytes (dr_wrapped r)) in
      from_envelope (unwrap_dek kek (dek_wrap_aad scope version) wrapped)
  end.

Definition fetch_active_dek (scope : StoreScope) (keys : KeyTables) : Result (Z * Dek) StoreError :=
  match active_dek_version scope keys with
  | None => Err StoreEncryption
  | Some version => let? dek := fetch_dek_by_version scope version keys in Ok (version, dek)
  end.

(** *** Transactions *)

Definition provision_kek (scope : StoreScope) (id_entropy key_entropy nonce : text) (keys : KeyTables) : Result (ScopedId * KeyTables) StoreError :=
  let id := ScopedId_generate id_entropy scope in
  if bool_decide (is_Some (max_kek_version scope keys)) then Err StoreConflict
  else
    let wrapped := wrap_kek master nonce (kek_wrap_aad scope 1 (mkey_id master)) (Kek_generate key_entropy) in
    match insert_kek scope 1 {| kr_id := id; kr_master_key_id := mkey_id master; kr_wrapped := sealed_bytes wrapped; kr_status := "active"; kr_destroyed_at := None |}
            (tenant_keks keys) with
    | None => Err StoreConflict
    | Some keks => Ok (id, mkKeys keks (tenant_deks keys))
    end.

Definition provision_dek (scope : StoreScope) (id_entropy key_entropy nonce : text) (keys : KeyTables) : Result (ScopedId * KeyTables) StoreError :=
  let id := ScopedId_generate id_entropy scope in
  if bool_decide (is_Some (max_dek_version scope keys)) then Err StoreConflict
  else
    let? (kek_version, kek) := fetch_active_kek scope keys in
    let wrapped := wrap_dek kek nonce (dek_wrap_aad scope 1) (Dek_generate key_entropy) in
    match insert_dek scope 1 {| dr_id := id; dr_kek_version := kek_version; dr_wrapped := sealed_bytes wrapped; dr_status := "active" |} (tenant_deks keys) with
    | None => Err StoreConflict
    | Some deks => Ok (id, mkKeys (tenant_keks keys) deks)
    end.

(** The loop over the data keys; each re-wrap draws a nonce of its own. *)
Fixpoint rewrap_deks (scope : StoreScope) (new_version : Z) (new_kek : Kek) (nonces : Z → text) (dek_versions : list Z) (keys : KeyTables) :
    Result KeyTables StoreError :=
  match dek_versions with
  | [] => Ok keys
  | version :: rest =>
      let? dek := fetch_dek_by_version scope version keys in
      let rewrapped := wrap_dek new_kek (nonces version) (dek_wrap_aad scope version) dek in
      rewrap_deks scope new_version new_kek nonces rest
        (mkKeys (tenant_keks keys) (alter (rewrapped_dek new_version (sealed_bytes rewrapped)) (scope, version) (tenant_deks keys)))
  end.

Definition rotate_kek (scope : StoreScope) (id_entropy key_entropy nonce : text) (nonces : Z → text) (keys : KeyTables) :
    Result (ScopedId * KeyTables) StoreError :=
  let id := ScopedId_generate id_entropy scope in
  match active_kek_version scope keys with
  | None => Err StoreEncryption
  | Some old_version =>
      let new_version := wrapping_add_i32 old_version 1 in
      let new_kek := Kek_generate key_entropy in
      let wrapped := wrap_kek master nonce (kek_wrap_aad scope new_version (mkey_id master)) new_kek in
      match insert_kek scope new_version
              {| kr_id := id; kr_master_key_id := mkey_id master; kr_wrapped := sealed_bytes wrapped; kr_status := "active"; kr_destroyed_at := None |}
              (tenant_keks keys) with
      | None => Err StoreDatabase
      | Some keks =>
          let? keys := rewrap_deks scope new_version new_kek nonces (versions scope (tenant_deks keys)) (mkKeys keks (tenant_deks keys)) in
          Ok (id, mkKeys (alter retired_kek (scope, old_version) (tenant_keks keys)) (tenant_deks keys))
      end
  end.

Definition rotate_dek (scope : StoreScope) (id_entropy key_entropy nonce : text) (keys : KeyTables) : Result (ScopedId * KeyTables) StoreError :=
  let id := ScopedId_generate id_entropy scope in
  match max_dek_version scope keys with
  | None => Err StoreEncryption
  | Some current =>
      let new_version := wrapping_add_i32 current 1 in
      let? (kek_version, kek) := fetch_active_kek scope keys in
      let wrapped := wrap_dek kek nonce (dek_wrap_aad scope new_version) (Dek_generate key_entropy) in
      match insert_dek scope new_version {| dr_id := id; dr_kek_version := kek_version; dr_wrapped := sealed_bytes wrapped; dr_status := "active" |}
              (update_scope scope dek_active retired_dek (tenant_deks keys)) with
      | None => Err StoreDatabase
      | Some deks => Ok (id, mkKeys (tenant_keks keys) deks)
      end
  end.
End Tables.

(** The crypto-shred; the audit target is the row of the highest version. *)
Definition destroy_kek (scope : StoreScope) (now : Z) (keys : KeyTables) : Result (ScopedId * KeyTables) StoreError :=
  match max_kek_version scope keys ≫= λ version, tenant_keks keys !! (scope, version) with
  | None => Err StoreNotFound
  | Some target =>
      if bool_decide (id_scope (kr_id target) = scope) then
        Ok (kr_id target, mkKeys (update_scope scope (λ r, negb (String.eqb (kr_status r) "destroyed")) (destroyed_kek now) (tenant_keks keys)) (tenant_deks keys))
      else Err StoreNotFound
  end.

(** ** What is sealed opens *)

Lemma Ok_pair_inj {A B E} (a a' : A) (b b' : B) : @Ok _ E (a, b) = Ok (a', b') → a = a' ∧ b = b'.
Proof. by intros [= <- <-]. Qed.

Lemma length_fill_buffer n entropy : length (fill_buffer n entropy) = n.
Proof. apply length_resize. Qed.

Section Opens.
Context `{AeadLaws}.

Lemma seal_long_enough key entropy aad plaintext : too_short (sealed_bytes (AeadKey_seal key entropy aad plaintext)) = false.
Proof. unfold too_short. apply Nat.ltb_ge. unfold AeadKey_seal; cbn [sealed_bytes]. rewrite length_app, length_fill_buffer, aead_seal_length. lia. Qed.

Lemma Sealed_from_seal key entropy aad plaintext :
  Sealed_from_bytes (sealed_bytes (AeadKey_seal key entropy aad plaintext)) = Ok (AeadKey_seal key entropy aad plaintext).
Proof. unfold Sealed_from_bytes. by rewrite seal_long_enough. Qed.

Lemma AeadKey_open_seal key entropy aad plaintext : length key = KEY_LEN → AeadKey_open key aad (AeadKey_seal key entropy aad plaintext) = Ok plaintext.
Proof.
  intros Hk. unfold AeadKey_open. cbn zeta. rewrite seal_long_enough. unfold AeadKey_seal; cbn [sealed_bytes].
  rewrite take_app_length', drop_app_length' by (by rewrite length_fill_buffer). by rewrite aead_open_seal by (done || apply length_fill_buffer).
Qed.

Lemma to_key_bytes_Ok b raw : to_key_bytes b = Ok raw → raw = b ∧ length raw = KEY_LEN.
Proof. unfold to_key_bytes. destruct (Nat.eqb_spec (length b) KEY_LEN); [|done]. by intros [= <-]. Qed.

Lemma to_key_bytes_ok b : length b = KEY_LEN → to_key_bytes b = Ok b.
Proof. intros Hb. unfold to_key_bytes. by rewrite Hb. Qed.

Lemma unwrap_wrap_kek mk entropy aad kek : length (mkey_bytes mk) = KEY_LEN → length (kek_key kek) = KEY_LEN →
  unwrap_kek mk aad (wrap_kek mk entropy aad kek) = Ok kek.
Proof. intros Hm Hk. unfold unwrap_kek, wrap_kek. rewrite AeadKey_open_seal, to_key_bytes_ok by done. by destruct kek. Qed.

Lemma unwrap_wrap_dek kek entropy aad dek : length (kek_key kek) = KEY_LEN → length (dek_key dek) = KEY_LEN →
  unwrap_dek kek aad (wrap_dek kek entropy aad dek) = Ok dek.
Proof. intros Hk Hd. unfold unwrap_dek, wrap_dek. rewrite AeadKey_open_seal, to_key_bytes_ok by done. by destruct dek. Qed.

Lemma stored_dek_opens kek entropy aad dek : length (kek_key kek) = KEY_LEN → length (dek_key dek) = KEY_LEN →
  (let? wrapped := from_envelope (Sealed_from_bytes (sealed_bytes (wrap_dek kek entropy aad dek))) in from_envelope (unwrap_dek kek aad wrapped)) = Ok dek.
Proof. intros Hk Hd. unfold wrap_dek. rewrite Sealed_from_seal. cbn [from_envelope]. fold (wrap_dek kek entropy aad dek). by rewrite unwrap_wrap_dek. Qed.

Lemma stored_kek_opens mk entropy aad kek : length (mkey_bytes mk) = KEY_LEN → length (kek_key kek) = KEY_LEN →
  (let? wrapped := from_envelope (Sealed_from_bytes (sealed_bytes (wrap_kek mk entropy aad kek))) in from_envelope (unwrap_kek mk aad wrapped)) = Ok kek.
Proof. intros Hm Hk. unfold wrap_kek. rewrite Sealed_from_seal. cbn [from_envelope]. fold (wrap_kek mk entropy aad kek). by rewrite unwrap_wrap_kek. Qed.

(** A sealed column opens to what was sealed. *)
Lemma stored_column_opens dek entropy aad plaintext : length (dek_key dek) = KEY_LEN →
  (let? sealed := from_envelope (Sealed_from_bytes (sealed_bytes (Dek_seal dek entropy aad plaintext))) in from_envelope (Dek_open dek aad sealed)) = Ok plaintext.
Proof. intros Hd. unfold Dek_seal, Dek_open. rewrite Sealed_from_seal. cbn [from_envelope]. by rewrite AeadKey_open_seal. Qed.
End Opens.

(** ** What the key transactions keep *)

Section Lifecycle.
Context `{AeadLaws} `{Base64Url} (mk : MasterKey) (Hmk : length (mkey_bytes mk) = KEY_LEN).

Abbreviation fetch_kek := (fetch_kek_by_version mk).
Abbreviation fetch_dek := (fetch_dek_by_version mk).

Lemma fetch_kek_len scope version keys kek : fetch_kek scope version keys = Ok kek → length (kek_key kek) = KEY_LEN.
Proof.
  unfold fetch_kek_by_version, open_kek_row, unwrap_kek. destruct (_ !! _) as [r|]; [|done]. destruct (Sealed_from_bytes _); [|done]. simpl.
  destruct (AeadKey_open _ _ _); [|done]. destruct (to_key_bytes _) eqn:Hb; [|done]. intros [= <-]. by apply to_key_bytes_Ok in Hb as [_ ?].
Qed.

Lemma fetch_dek_len scope version keys dek : fetch_dek scope version keys = Ok dek → length (dek_key dek) = KEY_LEN.
Proof.
  unfold fetch_dek_by_version, unwrap_dek. destruct (_ !! _) as [r|]; [|done]. destruct (fetch_kek_by_version _ _ _ _); [|done].
  destruct (Sealed_from_bytes _); [|done]. simpl.
  destruct (AeadKey_open _ _ _); [|done]. destruct (to_key_bytes _) eqn:Hb; [|done]. intros [= <-]. by apply to_key_bytes_Ok in Hb as [_ ?].
Qed.

Lemma from_envelope_Err {A} (r : Result A EnvelopeError) e : from_envelope r = Err e → e = StoreEncryption.
Proof. destruct r; [done|]. by intros [= <-]. Qed.

Lemma fetch_kek_Err scope version keys e : fetch_kek scope version keys = Err e → e = StoreEncryption.
Proof.
  unfold fetch_kek_by_version, open_kek_row. destruct (_ !! _); [|by intros [= <-]].
  destruct (from_envelope (Sealed_from_bytes _)) eqn:Hs; [apply from_envelope_Err|]. intros [= <-]. by apply from_envelope_Err in Hs.
Qed.

(** Whatever keeps a data key from being read, the error is the same. *)
Lemma fetch_dek_Err scope version keys e : fetch_dek scope version keys = Err e → e = StoreEncryption.
Proof.
  unfold fetch_dek_by_version. destruct (tenant_deks keys !! _); [|by intros [= <-]].
  destruct (fetch_kek_by_version _ _ _ _) eqn:Hk; [|intros [= <-]; by apply fetch_kek_Err in Hk].
  destruct (from_envelope (Sealed_from_bytes _)) eqn:Hs; [apply from_envelope_Err|]. intros [= <-]. by apply from_envelope_Err in Hs.
Qed.

(** The key-encryption key that wraps a data key is stored, and the data key opens unless that
    key was destroyed. *)
Definition dek_readable (keys : KeyTables) (scope : StoreScope) (version : Z) : Prop :=
  ∃ d k, tenant_deks keys !! (scope, version) = Some d ∧ tenant_keks keys !! (scope, dr_kek_version d) = Some k ∧
    (kr_status k = "destroyed" ∨ ∃ dek, fetch_dek scope version keys = Ok dek).

Definition keys_ok (keys : KeyTables) : Prop := ∀ scope version, is_Some (tenant_deks keys !! (scope, version)) → dek_readable keys scope version.

(** A data key stays stored, and is never read as another. *)
Definition keys_evolve (keys keys' : KeyTables) : Prop := ∀ scope version, is_Some (tenant_deks keys !! (scope, version)) →
  is_Some (tenant_deks keys' !! (scope, version)) ∧ ∀ dek, fetch_dek scope version keys' = Ok dek → fetch_dek scope version keys = Ok dek.

#[export] Instance keys_evolve_preorder : PreOrder keys_evolve.
Proof.
  split; [by intros keys scope version|]. intros k1 k2 k3 H12 H23 scope version Hs. destruct (H12 scope version Hs) as [Hs2 H2].
  destruct (H23 scope version Hs2) as [Hs3 H3]. auto.
Qed.

(** The rows that decide what is read. *)
Lemma fetch_dek_ext scope version keys keys' : tenant_deks keys' !! (scope, version) = tenant_deks keys !! (scope, version) →
  (∀ d, tenant_deks keys !! (scope, version) = Some d → fetch_kek scope (dr_kek_version d) keys' = fetch_kek scope (dr_kek_version d) keys) →
  fetch_dek scope version keys' = fetch_dek scope version keys.
Proof. intros Hd Hk. unfold fetch_dek_by_version. rewrite Hd. destruct (tenant_deks keys !! _) as [d|]; [|done]. by rewrite (Hk d). Qed.

Lemma fetch_kek_ext scope version keys keys' : tenant_keks keys' !! (scope, version) = tenant_keks keys !! (scope, version) →
  fetch_kek scope version keys' = fetch_kek scope version keys.
Proof. intros Hk. unfold fetch_kek_by_version. by rewrite Hk. Qed.

Lemma insert_kek_Some scope version r t t' : insert_kek scope version r t = Some t' → t !! (scope, version) = None ∧ t' = <[(scope, version) := r]> t.
Proof. unfold insert_kek. destruct (bool_decide (map_Exists _ _)); [done|]. simpl. case_bool_decide as Hn; [done|]. intros [= <-]. by rewrite eq_None_not_Some. Qed.

Lemma insert_dek_Some scope version r t t' : insert_dek scope version r t = Some t' → t !! (scope, version) = None ∧ t' = <[(scope, version) := r]> t.
Proof. unfold insert_dek. destruct (bool_decide (map_Exists _ _)); [done|]. simpl. case_bool_decide as Hn; [done|]. intros [= <-]. by rewrite eq_None_not_Some. Qed.

(** A new key-encryption key leaves what is read alone. *)
Lemma new_kek_ok scope version r keys : keys_ok keys → tenant_keks keys !! (scope, version) = None →
  let keys' := mkKeys (<[(scope, version) := r]> (tenant_keks keys)) (tenant_deks keys) in keys_ok keys' ∧ keys_evolve keys keys'.
Proof.
  intros Hok Hnone keys'.
  assert (∀ s v k, tenant_keks keys !! (s, v) = Some k → tenant_keks keys' !! (s, v) = Some k) as Hlift.
  { intros s v k Hk. simpl. rewrite lookup_insert_ne; [done|]. intros [= -> ->]. congruence. }
  assert (∀ s v, is_Some (tenant_deks keys !! (s, v)) → fetch_dek s v keys' = fetch_dek s v keys) as Heq.
  { intros s v Hs. destruct (Hok s v Hs) as (d & k & Hd & Hk & _). apply fetch_dek_ext; [done|]. intros d' Hd'. rewrite Hd in Hd'. injection Hd' as <-.
    apply fetch_kek_ext. by rewrite (Hlift _ _ _ Hk), Hk. }
  split.
  - intros s v Hs. destruct (Hok s v Hs) as (d & k & Hd & Hk & Hr). exists d, k. rewrite Heq by done. auto.
  - intros s v Hs. split; [done|]. by rewrite Heq.
Qed.

(** A new data key wrapped under one that can be read. *)
Lemma new_dek_ok scope version id status kek_version kek entropy dek keys : keys_ok keys → tenant_deks keys !! (scope, version) = None →
  fetch_kek scope kek_version keys = Ok kek → length (dek_key dek) = KEY_LEN →
  let r := {| dr_id := id; dr_kek_version := kek_version; dr_wrapped := sealed_bytes (wrap_dek kek entropy (dek_wrap_aad scope version) dek); dr_status := status |} in
  let keys' := mkKeys (tenant_keks keys) (<[(scope, version) := r]> (tenant_deks keys)) in keys_ok keys' ∧ keys_evolve keys keys'.
Proof.
  intros Hok Hnone Hkek Hlen r keys'.
  assert (fetch_dek scope version keys' = Ok dek) as Hnew.
  { unfold fetch_dek_by_version, keys'. cbn [tenant_deks]. rewrite lookup_insert_eq. cbn [r dr_kek_version dr_wrapped].
    rewrite (fetch_kek_ext _ _ keys), Hkek by done. apply stored_dek_opens; [by eapply fetch_kek_len|done]. }
  assert (∀ s v, (s, v) ≠ (scope, version) → fetch_dek s v keys' = fetch_dek s v keys) as Hold.
  { intros s v Hne. apply fetch_dek_ext; [by apply lookup_insert_ne|done]. }
  split; intros s v Hs.
  - destruct (decide ((s, v) = (scope, version))) as [[= -> ->]|Hne].
    + unfold fetch_kek_by_version in Hkek. destruct (tenant_keks keys !! (scope, kek_version)) as [k|] eqn:Hk; [|done].
      exists r, k. simpl. rewrite lookup_insert_eq. split; [done|]. split; [done|]. right. by exists dek.
    + simpl in Hs. rewrite lookup_insert_ne in Hs by done. destruct (Hok s v Hs) as (d & k & Hd & Hk & Hr). exists d, k. rewrite Hold by done.
      simpl. by rewrite lookup_insert_ne by done.
  - assert ((s, v) ≠ (scope, version)) as Hne by (intros [= -> ->]; rewrite Hnone in Hs; by destruct Hs). simpl. rewrite lookup_insert_ne by done.
    split; [done|]. by rewrite Hold.
Qed.

(** Re-wrapping a data key under another key that can be read changes nothing that is read. *)
Lemma rewrap_ok scope version new_version new_kek entropy dek keys : keys_ok keys → fetch_kek scope new_version keys = Ok new_kek →
  fetch_dek scope version keys = Ok dek →
  let wrapped := sealed_bytes (wrap_dek new_kek entropy (dek_wrap_aad scope version) dek) in
  let keys' := mkKeys (tenant_keks keys) (alter (rewrapped_dek new_version wrapped) (scope, version) (tenant_deks keys)) in
  keys_ok keys' ∧ keys_evolve keys keys'.
Proof.
  intros Hok Hkek Hdek wrapped keys'.
  assert (∃ d, tenant_deks keys !! (scope, version) = Some d) as [d Hd].
  { unfold fetch_dek_by_version in Hdek. destruct (_ !! _) as [d|]; [by exists d|done]. }
  assert (tenant_deks keys' !! (scope, version) = Some (rewrapped_dek new_version wrapped d)) as Hd' by (simpl; by rewrite lookup_alter_eq, Hd).
  assert (fetch_dek scope version keys' = Ok dek) as Hnew.
  { unfold fetch_dek_by_version. rewrite Hd'. cbn [dr_kek_version rewrapped_dek dr_wrapped]. rewrite (fetch_kek_ext _ _ keys), Hkek by done. subst wrapped.
    apply stored_dek_opens; [by eapply fetch_kek_len|by eapply fetch_dek_len]. }
  assert (∀ s v, (s, v) ≠ (scope, version) → tenant_deks keys' !! (s, v) = tenant_deks keys !! (s, v)) as Hne' by (intros s v Hne; by apply lookup_alter_ne).
  split; intros s v Hs; destruct (decide ((s, v) = (scope, version))) as [[= -> ->]|Hne].
  - unfold fetch_kek_by_version in Hkek. destruct (tenant_keks keys !! (scope, new_version)) as [k|] eqn:Hk; [|done].
    eexists _, k. split; [exact Hd'|]. split; [done|]. right. by exists dek.
  - rewrite Hne' in Hs by done. destruct (Hok s v Hs) as (d0 & k & Hd0 & Hk & Hr). exists d0, k. rewrite Hne' by done. split; [done|]. split; [done|].
    destruct Hr as [Hr|[dek' Hr]]; [by left|]. right. exists dek'. rewrite <-Hr. by apply fetch_dek_ext; [apply Hne'|].
  - split; [by exists (rewrapped_dek new_version wrapped d)|]. rewrite Hnew. by intros dek' [= <-].
  - rewrite Hne' by done. split; [done|]. intros dek' <-. symmetry. by apply fetch_dek_ext; [apply Hne'|].
Qed.

Lemma rewrap_deks_ok scope new_version new_kek nonces dek_versions : ∀ keys keys', keys_ok keys → fetch_kek scope new_version keys = Ok new_kek →
  rewrap_deks mk scope new_version new_kek nonces dek_versions keys = Ok keys' → keys_ok keys' ∧ keys_evolve keys keys'.
Proof.
  induction dek_versions as [|version rest IH]; intros keys keys' Hok Hkek; cbn [rewrap_deks]; [by intros [= <-]|].
  destruct (fetch_dek_by_version _ _ _ _) as [dek|] eqn:Hdek; [|done]. cbn zeta. intros Hrest.
  destruct (rewrap_ok scope version new_version new_kek (nonces version) dek keys Hok Hkek Hdek) as [Hok1 Hev1].
  apply IH in Hrest as [Hok' Hev']; [|done|by rewrite (fetch_kek_ext _ _ keys)]. split; [done|]. by etrans.
Qed.

(** Updates of the key-encryption keys that change no wrapped bytes, or destroy them. *)
Lemma update_keks_ok keys keks' : keys_ok keys →
  (∀ s v k, tenant_keks keys !! (s, v) = Some k → ∃ k', keks' !! (s, v) = Some k' ∧
     ((kr_status k' = "destroyed" ∧ kr_wrapped k' = []) ∨
      (kr_wrapped k' = kr_wrapped k ∧ kr_master_key_id k' = kr_master_key_id k ∧ (kr_status k = "destroyed" → kr_status k' = "destroyed")))) →
  let keys' := mkKeys keks' (tenant_deks keys) in keys_ok keys' ∧ keys_evolve keys keys'.
Proof.
  intros Hok Hupd keys'.
  assert (∀ s v d k k', tenant_deks keys !! (s, v) = Some d → tenant_keks keys !! (s, dr_kek_version d) = Some k → keks' !! (s, dr_kek_version d) = Some k' →
    kr_wrapped k' = kr_wrapped k → kr_master_key_id k' = kr_master_key_id k → fetch_dek s v keys' = fetch_dek s v keys) as Hsame.
  { intros s v d k k' Hd Hk Hk' Hw Hm. apply fetch_dek_ext; [done|]. intros d' Hd'. rewrite Hd in Hd'. injection Hd' as <-.
    unfold fetch_kek_by_version. simpl. rewrite Hk', Hk. unfold open_kek_row. by rewrite Hw, Hm. }
  split; intros s v Hs; destruct (Hok s v Hs) as (d & k & Hd & Hk & Hr); destruct (Hupd _ _ _ Hk) as (k' & Hk' & Hc).
  - exists d, k'. split; [done|]. split; [done|]. destruct Hc as [[Hdes _]|(Hw & Hm & Hst)]; [by left|].
    destruct Hr as [Hr|[dek Hr]]; [left; by apply Hst|]. right. exists dek. rewrite <-Hr. by eapply Hsame.
  - split; [done|]. destruct Hc as [[_ Hw]|(Hw & Hm & _)]; [|by rewrite (Hsame s v d k k')]. intros dek.
    unfold fetch_dek_by_version at 1. simpl. rewrite Hd. unfold fetch_kek_by_version. simpl. rewrite Hk'. unfold open_kek_row. by rewrite Hw.
Qed.

(** Updates of the data keys that change no wrapped bytes. *)
Lemma update_deks_ok keys deks' : keys_ok keys →
  (∀ s v, is_Some (deks' !! (s, v)) ↔ is_Some (tenant_deks keys !! (s, v))) →
  (∀ s v d d', tenant_deks keys !! (s, v) = Some d → deks' !! (s, v) = Some d' → dr_kek_version d' = dr_kek_version d ∧ dr_wrapped d' = dr_wrapped d) →
  let keys' := mkKeys (tenant_keks keys) deks' in keys_ok keys' ∧ keys_evolve keys keys'.
Proof.
  intros Hok Hdom Hupd keys'.
  assert (∀ s v, fetch_dek s v keys' = fetch_dek s v keys) as Hsame.
  { intros s v. unfold fetch_dek_by_version. simpl. specialize (Hdom s v). specialize (Hupd s v).
    destruct (deks' !! (s, v)) as [d'|], (tenant_deks keys !! (s, v)) as [d|]; [|exfalso; destruct Hdom as [Hd1 Hd2]..|done].
    - destruct (Hupd d d' eq_refl eq_refl) as [-> ->]. by rewrite (fetch_kek_ext _ _ keys).
    - by destruct Hd1.
    - by destruct Hd2. }
  split; intros s v Hs.
  - apply Hdom in Hs as Hs0. destruct (Hok s v Hs0) as (d & k & Hd & Hk & Hr). destruct Hs as [d' Hd']. exists d', k. split; [done|].
    destruct (Hupd s v d d' Hd Hd') as [-> _]. rewrite Hsame. done.
  - split; [by apply Hdom|]. by rewrite Hsame.
Qed.

Lemma max_version_Some {R} scope (counts : R → bool) t v : max_version scope counts t = Some v → ∃ r, t !! (scope, v) = Some r ∧ counts r = true.
Proof.
  unfold max_version. revert t v. refine (map_fold_weak_ind (λ acc t, ∀ v, acc = Some v → ∃ r, t !! (scope, v) = Some r ∧ counts r = true) _ _ _ _); [done|].
  intros [s w] r t acc Hnone IH v.
  assert (∀ u, acc = Some u → ∃ r', <[(s, w) := r]> t !! (scope, u) = Some r' ∧ counts r' = true) as Hold.
  { intros u Hu. destruct (IH u Hu) as (r' & Hr' & Hc). exists r'. split; [|done]. rewrite lookup_insert_ne; [done|]. intros [= -> ->]. congruence. }
  case_bool_decide as Hs; [|by apply Hold]. simpl in Hs. subst s. destruct (counts r) eqn:Hc; [|by apply Hold]. cbn [andb].
  destruct acc as [a|]; cbn [fmap option_fmap option_map default from_option]; intros [= <-]; [|exists r; by rewrite lookup_insert_eq].
  simpl. destruct (Z.max_spec w a) as [[_ ->]|[_ ->]]; [by apply Hold|]. exists r. by rewrite lookup_insert_eq.
Qed.

Lemma fetch_active_kek_Ok scope keys version kek : fetch_active_kek mk scope keys = Ok (version, kek) → fetch_kek scope version keys = Ok kek.
Proof. unfold fetch_active_kek. destruct (active_kek_version _ _); [|done]. destruct (fetch_kek_by_version _ _ _ _) eqn:Hf; [|done]. by intros [= <- <-]. Qed.

Lemma lookup_update_scope {R} scope (counts : R → bool) f t k : update_scope scope counts f t !! k =
  (λ r, if bool_decide (k.1 = scope) && counts r then f r else r) <$> t !! k.
Proof. unfold update_scope. rewrite map_lookup_imap. by destruct (t !! k). Qed.

Lemma provision_kek_ok scope id_entropy key_entropy nonce keys id keys' : keys_ok keys →
  provision_kek mk scope id_entropy key_entropy nonce keys = Ok (id, keys') → keys_ok keys' ∧ keys_evolve keys keys'.
Proof.
  intros Hok. unfold provision_kek. cbn zeta. case_bool_decide; [done|]. destruct (insert_kek _ _ _ _) as [t|] eqn:Hi; [|done].
  apply insert_kek_Some in Hi as [Hnone ->]. intros [_ <-]%Ok_pair_inj. by apply new_kek_ok.
Qed.

Lemma provision_dek_ok scope id_entropy key_entropy nonce keys id keys' : keys_ok keys →
  provision_dek mk scope id_entropy key_entropy nonce keys = Ok (id, keys') → keys_ok keys' ∧ keys_evolve keys keys'.
Proof.
  intros Hok. unfold provision_dek. cbn zeta. case_bool_decide; [done|]. destruct (fetch_active_kek _ _ _) as [[kek_version kek]|] eqn:Hk; [|done].
  destruct (insert_dek _ _ _ _) as [t|] eqn:Hi; [|done]. apply insert_dek_Some in Hi as [Hnone ->]. intros [_ <-]%Ok_pair_inj.
  apply new_dek_ok; [done..|by apply fetch_active_kek_Ok|apply length_fill_buffer].
Qed.

Lemma retire_kek_ok keys k : keys_ok keys → (∀ r, tenant_keks keys !! k = Some r → kr_status r ≠ "destroyed") →
  let keys' := mkKeys (alter retired_kek k (tenant_keks keys)) (tenant_deks keys) in keys_ok keys' ∧ keys_evolve keys keys'.
Proof.
  intros Hok Hlive. apply update_keks_ok; [done|]. intros s v r Hr. destruct (decide (k = (s, v))) as [-> | Hne].
  - exists (retired_kek r). rewrite lookup_alter_eq, Hr. split; [done|]. right. split; [done|]. split; [done|]. intros Hd. by destruct (Hlive r Hr).
  - exists r. rewrite lookup_alter_ne by done. split; [done|]. by right.
Qed.

Lemma rewrap_deks_keks scope new_version new_kek nonces dek_versions : ∀ keys keys',
  rewrap_deks mk scope new_version new_kek nonces dek_versions keys = Ok keys' → tenant_keks keys' = tenant_keks keys.
Proof.
  induction dek_versions as [|version rest IH]; intros keys keys'; cbn [rewrap_deks]; [by intros [= <-]|].
  destruct (fetch_dek_by_version _ _ _ _) as [dek|]; [|done]. cbn zeta. intros Hrest. by apply IH in Hrest.
Qed.

Lemma rotate_kek_ok scope id_entropy key_entropy nonce nonces keys id keys' : keys_ok keys →
  rotate_kek mk scope id_entropy key_entropy nonce nonces keys = Ok (id, keys') → keys_ok keys' ∧ keys_evolve keys keys'.
Proof.
  intros Hok. unfold rotate_kek. cbn zeta. destruct (active_kek_version _ _) as [old_version|] eqn:Hold; [|done].
  destruct (insert_kek _ _ _ _) as [t|] eqn:Hi; [|done]. apply insert_kek_Some in Hi as [Hnone ->].
  destruct (rewrap_deks _ _ _ _ _ _ _) as [keys2|] eqn:Hre; [|done]. intros [_ <-]%Ok_pair_inj.
  pose proof (rewrap_deks_keks _ _ _ _ _ _ _ Hre) as Hkeks. cbn [tenant_keks] in Hkeks.
  match type of Hkeks with _ = <[_ := ?r]> _ => destruct (new_kek_ok scope _ r keys Hok Hnone) as [Hok1 Hev1] end.
  apply rewrap_deks_ok in Hre as [Hok2 Hev2]; [|done|].
  - apply max_version_Some in Hold as (r & Hr & Ha). apply String.eqb_eq in Ha.
    destruct (retire_kek_ok keys2 (scope, old_version) Hok2) as [Hok3 Hev3].
    + intros r'. rewrite Hkeks, lookup_insert_ne by (intros Heq; rewrite Heq in Hnone; congruence). rewrite Hr. intros [= <-]. by rewrite Ha.
    + split; [done|]. etrans; [exact Hev1|]. by etrans.
  - unfold fetch_kek_by_version. cbn [tenant_keks]. rewrite lookup_insert_eq. unfold open_kek_row. cbn [kr_wrapped kr_master_key_id].
    apply stored_kek_opens; [done|apply length_fill_buffer].
Qed.

Lemma rotate_dek_ok scope id_entropy key_entropy nonce keys id keys' : keys_ok keys →
  rotate_dek mk scope id_entropy key_entropy nonce keys = Ok (id, keys') → keys_ok keys' ∧ keys_evolve keys keys'.
Proof.
  intros Hok. unfold rotate_dek. cbn zeta. destruct (max_dek_version _ _) as [current|]; [|done].
  destruct (fetch_active_kek _ _ _) as [[kek_version kek]|] eqn:Hk; [|done].
  destruct (insert_dek _ _ _ _) as [t|] eqn:Hi; [|done]. apply insert_dek_Some in Hi as [Hnone ->]. intros [_ <-]%Ok_pair_inj.
  destruct (update_deks_ok keys (update_scope scope dek_active retired_dek (tenant_deks keys)) Hok) as [Hok1 Hev1].
  - intros s v. rewrite lookup_update_scope. apply fmap_is_Some.
  - intros s v d d' Hd. rewrite lookup_update_scope, Hd. cbn [fmap option_fmap option_map]. intros [= <-]. by destruct (_ && _).
  - set (keys1 := mkKeys (tenant_keks keys) (update_scope scope dek_active retired_dek (tenant_deks keys))) in *.
    apply fetch_active_kek_Ok in Hk. rewrite (fetch_kek_ext _ _ keys1) in Hk by done.
    destruct (new_dek_ok scope _ (ScopedId_generate id_entropy scope) "active" kek_version kek nonce (Dek_generate key_entropy) keys1 Hok1 Hnone Hk)
      as [Hok2 Hev2]; [apply length_fill_buffer|]. split; [done|]. by etrans.
Qed.

Lemma destroy_kek_ok scope now keys id keys' : keys_ok keys → destroy_kek scope now keys = Ok (id, keys') → keys_ok keys' ∧ keys_evolve keys keys'.
Proof.
  intros Hok. unfold destroy_kek. destruct (_ ≫= _) as [target|]; [|done]. case_bool_decide; [|done]. intros [_ <-]%Ok_pair_inj.
  apply update_keks_ok; [done|]. intros s v k Hk. rewrite lookup_update_scope, Hk. simpl. eexists. split; [done|].
  destruct (_ && _); [by left|by right].
Qed.

Lemma fetch_active_dek_Ok scope keys version dek : fetch_active_dek mk scope keys = Ok (version, dek) →
  fetch_dek scope version keys = Ok dek ∧ is_Some (tenant_deks keys !! (scope, version)) ∧ length (dek_key dek) = KEY_LEN.
Proof.
  unfold fetch_active_dek. destruct (active_dek_version _ _) as [v|] eqn:Hv; [|done]. destruct (fetch_dek_by_version _ _ _ _) eqn:Hf; [|done].
  intros [-> ->]%Ok_pair_inj. apply max_version_Some in Hv as (r & Hr & _). split; [done|]. split; [by exists r|]. by eapply fetch_dek_len.
Qed.
End Lifecycle.
