(* ===== verification/FactorStore.v ===== *)
(** * The store of second factors

    The TOTP and recovery-code repositories of crates/ironauth-store/src/repository.rs over
    the two tables of migration 0045: their rows, constraints and indexes, every read and
    every transaction, with the tables of wrapped keys of [Envelope] that their sealed columns
    are opened with.  A table is a finite map from identifiers.  A transaction is a function on
    the database that answers and commits or fails and changes nothing; [run_tx] adds the
    faults a caller can see, a commit whose acknowledgement is lost among them.  The master key
    the process holds, if any, is the class [Master]; the order in which the database lists
    equal timestamps is the class [RowOrder].  The theorems: the rows always satisfy what the
    readers rely on, one active factor per subject and columns that open among it, and a
    consumed step or code is never consumed again. *)

From S2P Require Import Prelude Machine Bytes Der Text Authn Totp Ids Envelope.

Open Scope Z_scope.

(** ** Data *)

(** [Store::master]: the platform key, when one is configured; its bytes are an array. *)
Class Master := {
  master : option MasterKey;
  master_len mk : master = Some mk → length (mkey_bytes mk) = KEY_LEN }.

Inductive TotpActivateOutcome : Set := Activated | ActivateNotFound | AlreadyActive.
Inductive TotpVerifyOutcome : Set := Verified | Replay | VerifyNotFound.
Inductive CredentialRemoveOutcome : Set := Removed | RemoveNotFound | BlockedLastCredential.
Inductive RecoveryRedeemOutcome : Set := Redeemed | RedeemNotFound.

Record NewTotpEnrollment : Type := {
  en_seed : bytes; en_friendly_name : text; en_algorithm : string; en_digits : Z; en_period_secs : Z }.

Record RestoredTotp : Type := {
  rt_seed : bytes; rt_friendly_name : text; rt_algorithm : string; rt_digits : Z; rt_period_secs : Z;
  rt_status : string; rt_last_consumed_step : option Z }.

Record TotpCredentialSummary : Type := {
  su_id : ScopedId; su_friendly_name : text; su_status : string; su_algorithm : string; su_digits : Z; su_period_secs : Z;
  su_created_at : Z; su_activated_at : option Z; su_last_used_at : option Z }.

Record TotpMaterial : Type := {
  tm_id : ScopedId; tm_seed : bytes; tm_algorithm : string; tm_digits : Z; tm_period_secs : Z; tm_status : string;
  tm_last_consumed_step : option Z }.

Record RecoveryCodeCandidate : Type := mkCandidate { cand_id : ScopedId; cand_code_hash : text }.

Record NewRecoveryCode : Type := { normalized_code : text; code_hash : text }.

Record RestoredRecoveryCode : Type := { restored_hash : text; restored_consumed : bool }.

(** The rows of the two tables.  Instants are microseconds since the epoch. *)
Record TotpRow : Type := {
  tr_scope : StoreScope; tr_subject : ScopedId; tr_seed : bytes; tr_name_sealed : bytes; tr_dek_version : Z; tr_algorithm : string;
  tr_digits : Z; tr_period_secs : Z; tr_status : string; tr_last_consumed_step : option Z; tr_last_offset : option Z;
  tr_created_at : Z; tr_activated_at : option Z; tr_last_used_at : option Z }.

Record RecoveryRow : Type := {
  rr_scope : StoreScope; rr_subject : ScopedId; rr_code_hash : text; rr_code_bidx : option bytes; rr_generation : Z;
  rr_consumed_at : option Z; rr_created_at : Z }.

(** The audited actions of these repositories. *)
Inductive FactorAction : Set :=
| TotpEnrollBegin | TotpActivate | TotpVerify | TotpRemove | RecoveryCodesGenerate | RecoveryCodeRedeem
| EnvelopeKekProvision | EnvelopeDekProvision | EnvelopeKekRotate | EnvelopeDekRotate | EnvelopeKekDestroy.

Abbreviation totp_table := (gmap ScopedId TotpRow) (only parsing).
Abbreviation recovery_table := (gmap ScopedId RecoveryRow) (only parsing).

Record FactorDb : Type := mkDb {
  totp_credentials : totp_table;
  recovery_codes : recovery_table;
  audit_log : list (FactorAction * ScopedId);
  key_tables : KeyTables }.

Definition with_totp (t : totp_table) (db : FactorDb) : FactorDb := mkDb t (recovery_codes db) (audit_log db) (key_tables db).
Definition with_recovery (t : recovery_table) (db : FactorDb) : FactorDb := mkDb (totp_credentials db) t (audit_log db) (key_tables db).
Definition with_keys (keys : KeyTables) (db : FactorDb) : FactorDb := mkDb (totp_credentials db) (recovery_codes db) (audit_log db) keys.

(** [insert_audit_row]: the action and its target; the actor and the request are left out. *)
Definition insert_audit_row (action : FactorAction) (target : ScopedId) (db : FactorDb) : FactorDb :=
  mkDb (totp_credentials db) (recovery_codes db) (audit_log db ++ [(action, target)]) (key_tables db).

(** [WHERE tenant_id = .. AND environment_id = .. AND subject = ..]. *)
Definition owned (scope : StoreScope) (subject : ScopedId) (r : TotpRow) : Prop := tr_scope r = scope ∧ tr_subject r = subject.
Definition code_owned (scope : StoreScope) (subject : ScopedId) (r : RecoveryRow) : Prop := rr_scope r = scope ∧ rr_subject r = subject.

Definition row_active (r : TotpRow) : Prop := tr_status r = "active".
Definition row_pending (r : TotpRow) : Prop := tr_status r = "pending".

#[export] Instance owned_dec scope subject r : Decision (owned scope subject r).
Proof. unfold owned. apply _. Defined.

#[export] Instance code_owned_dec scope subject r : Decision (code_owned scope subject r).
Proof. unfold code_owned. apply _. Defined.

#[export] Instance row_active_dec r : Decision (row_active r).
Proof. unfold row_active. apply _. Defined.

#[export] Instance row_pending_dec r : Decision (row_pending r).
Proof. unfold row_pending. apply _. Defined.

(** The CHECK constraints of [totp_credentials]. *)
Definition totp_checks (r : TotpRow) : bool :=
  existsb (String.eqb (tr_status r)) ["pending"; "active"] && existsb (String.eqb (tr_algorithm r)) ["SHA1"; "SHA256"; "SHA512"]
  && ((6 <=? tr_digits r) && (tr_digits r <=? 8)) && ((15 <=? tr_period_secs r) && (tr_period_secs r <=? 60)).

(** The partial unique index over the active rows: another active row of the subject. *)
Definition active_elsewhere (id : ScopedId) (scope : StoreScope) (subject : ScopedId) (t : totp_table) : Prop :=
  map_Exists (λ other r, other ≠ id ∧ owned scope subject r ∧ row_active r) t.

#[export] Instance active_elsewhere_dec id scope subject t : Decision (active_elsewhere id scope subject t).
Proof. unfold active_elsewhere. apply _. Defined.

(** [INSERT INTO totp_credentials]: the primary key, the checks and the index. *)
Definition insert_totp (id : ScopedId) (r : TotpRow) (t : totp_table) : Result totp_table StoreError :=
  if bool_decide (is_Some (t !! id)) then Err StoreDatabase
  else if negb (totp_checks r) then Err StoreDatabase
  else if bool_decide (row_active r ∧ active_elsewhere id (tr_scope r) (tr_subject r) t) then Err StoreDatabase
  else Ok (<[id := r]> t).

Definition insert_recovery (id : ScopedId) (r : RecoveryRow) (t : recovery_table) : Result recovery_table StoreError :=
  if bool_decide (is_Some (t !! id)) then Err StoreDatabase else Ok (<[id := r]> t).

(** ** Transactions of the TOTP repository *)

Abbreviation Tx A := (FactorDb → Result (A * FactorDb) StoreError) (only parsing).

Section Sealing.
Context `{Aead} `{Base64Url} `{Master}.

(** The two sealed columns of a new row and the version of the key that sealed them. *)
Definition seal_columns (scope : StoreScope) (id : ScopedId) (seed : bytes) (friendly_name seed_nonce name_nonce : text) (version_dek : Z * Dek) :
    bytes * bytes * Z :=
  let '(dek_version, dek) := version_dek in
  (sealed_bytes (Dek_seal dek seed_nonce (totp_seed_seal_aad scope (id_to_string TOTP_PREFIX id) dek_version) seed),
   sealed_bytes (Dek_seal dek name_nonce (totp_name_seal_aad scope dek_version) (code <$> friendly_name)), dek_version).

(** [begin_enroll] after [ensure_scope_keys], whose transactions are [ProvisionKek] and [ProvisionDek]. *)
Definition begin_enroll (scope : StoreScope) (subject : ScopedId) (e : NewTotpEnrollment) (entropy seed_nonce name_nonce : text) (db_now : Z) :
    Tx ScopedId := λ db,
  if bool_decide (id_scope subject ≠ scope) then Err StoreNotFound
  else match master with
  | None => Err StoreEncryption
  | Some mk =>
    let id := ScopedId_generate entropy scope in
    let kept := filter (λ kr, ¬ (owned scope subject kr.2 ∧ row_pending kr.2)) (totp_credentials db) in
    let? active := fetch_active_dek mk scope (key_tables db) in
    let '(seed_sealed, name_sealed, dek_version) := seal_columns scope id (en_seed e) (en_friendly_name e) seed_nonce name_nonce active in
    let row := {| tr_scope := scope; tr_subject := subject; tr_seed := seed_sealed; tr_name_sealed := name_sealed; tr_dek_version := dek_version;
                  tr_algorithm := en_algorithm e; tr_digits := en_digits e; tr_period_secs := en_period_secs e;
                  tr_status := "pending"; tr_last_consumed_step := None; tr_last_offset := None;
                  tr_created_at := db_now; tr_activated_at := None; tr_last_used_at := None |} in
    let? t := insert_totp id row kept in
    Ok (id, insert_audit_row TotpEnrollBegin id (with_totp t db))
  end.

(** [restore] after [ensure_scope_keys]. *)
Definition restore (scope : StoreScope) (subject : ScopedId) (t : RestoredTotp) (entropy seed_nonce name_nonce : text) (now db_now : Z) :
    Tx ScopedId := λ db,
  if bool_decide (id_scope subject ≠ scope) then Err StoreNotFound
  else match master with
  | None => Err StoreEncryption
  | Some mk =>
    let id := ScopedId_generate entropy scope in
    let? active := fetch_active_dek mk scope (key_tables db) in
    let '(seed_sealed, name_sealed, dek_version) := seal_columns scope id (rt_seed t) (rt_friendly_name t) seed_nonce name_nonce active in
    let row := {| tr_scope := scope; tr_subject := subject; tr_seed := seed_sealed; tr_name_sealed := name_sealed; tr_dek_version := dek_version;
                  tr_algorithm := rt_algorithm t; tr_digits := rt_digits t; tr_period_secs := rt_period_secs t;
                  tr_status := rt_status t; tr_last_consumed_step := rt_last_consumed_step t; tr_last_offset := None;
                  tr_created_at := db_now; tr_activated_at := if String.eqb (rt_status t) "active" then Some now else None;
                  tr_last_used_at := None |} in
    let? rows := insert_totp id row (totp_credentials db) in
    Ok (id, insert_audit_row TotpEnrollBegin id (with_totp rows db))
  end.
End Sealing.

Definition activated_row (matched_step now : Z) (r : TotpRow) : TotpRow :=
  {| tr_scope := tr_scope r; tr_subject := tr_subject r; tr_seed := tr_seed r; tr_name_sealed := tr_name_sealed r;
     tr_dek_version := tr_dek_version r; tr_algorithm := tr_algorithm r; tr_digits := tr_digits r; tr_period_secs := tr_period_secs r;
     tr_status := "active"; tr_last_consumed_step := Some matched_step; tr_last_offset := tr_last_offset r;
     tr_created_at := tr_created_at r; tr_activated_at := Some now; tr_last_used_at := tr_last_used_at r |}.

Definition activate (scope : StoreScope) (subject id : ScopedId) (matched_step now : Z) : Tx TotpActivateOutcome := λ db,
  if bool_decide (id_scope id ≠ scope) || bool_decide (id_scope subject ≠ scope) then Ok (ActivateNotFound, db)
  else
    match totp_credentials db !! id with
    | Some r =>
        if bool_decide (owned scope subject r ∧ row_pending r) then
          if bool_decide (active_elsewhere id scope subject (totp_credentials db)) then Ok (AlreadyActive, db)
          else Ok (Activated, insert_audit_row TotpActivate id (with_totp (<[id := activated_row matched_step now r]> (totp_credentials db)) db))
        else Ok (ActivateNotFound, db)
    | None => Ok (ActivateNotFound, db)
    end.

(** [last_consumed_step IS NULL OR last_consumed_step < $5]. *)
Definition step_is_newer (matched_step : Z) (r : TotpRow) : bool :=
  match tr_last_consumed_step r with None => true | Some last => last <? matched_step end.

Definition verified_row (matched_step offset now : Z) (r : TotpRow) : TotpRow :=
  {| tr_scope := tr_scope r; tr_subject := tr_subject r; tr_seed := tr_seed r; tr_name_sealed := tr_name_sealed r;
     tr_dek_version := tr_dek_version r; tr_algorithm := tr_algorithm r; tr_digits := tr_digits r; tr_period_secs := tr_period_secs r;
     tr_status := tr_status r; tr_last_consumed_step := Some matched_step; tr_last_offset := Some offset;
     tr_created_at := tr_created_at r; tr_activated_at := tr_activated_at r; tr_last_used_at := Some now |}.

Definition record_verification (scope : StoreScope) (subject id : ScopedId) (matched_step offset now : Z) : Tx TotpVerifyOutcome := λ db,
  if bool_decide (id_scope id ≠ scope) || bool_decide (id_scope subject ≠ scope) then Ok (VerifyNotFound, db)
  else
    match totp_credentials db !! id with
    | Some r =>
        if bool_decide (owned scope subject r ∧ row_active r) then
          if step_is_newer matched_step r then
            Ok (Verified, insert_audit_row TotpVerify id (with_totp (<[id := verified_row matched_step offset now r]> (totp_credentials db)) db))
          else Ok (Replay, db)
        else Ok (VerifyNotFound, db)
    | None => Ok (VerifyNotFound, db)
    end.

Definition remove (scope : StoreScope) (subject id : ScopedId) : Tx CredentialRemoveOutcome := λ db,
  if bool_decide (id_scope id ≠ scope) || bool_decide (id_scope subject ≠ scope) then Ok (RemoveNotFound, db)
  else
    match totp_credentials db !! id with
    | Some r =>
        if bool_decide (owned scope subject r) then
          Ok (Removed, insert_audit_row TotpRemove id
            (with_recovery (filter (λ kr, ¬ code_owned scope subject kr.2) (recovery_codes db))
              (with_totp (delete id (totp_credentials db)) db)))
        else Ok (RemoveNotFound, db)
    | None => Ok (RemoveNotFound, db)
    end.

(** ** Transactions of the recovery-code repository *)

Definition I32_MAX : Z := 2 ^ 31 - 1.

(** [SELECT COALESCE(max(generation), 0) + 1]: an integer column, so the sum can be out of range. *)
Definition max_generation (scope : StoreScope) (subject : ScopedId) (t : recovery_table) : option Z :=
  map_fold (λ _ r acc, if bool_decide (code_owned scope subject r) then Some (default (rr_generation r) (Z.max (rr_generation r) <$> acc)) else acc)
    None t.

Definition next_generation (scope : StoreScope) (subject : ScopedId) (t : recovery_table) : Result Z StoreError :=
  let g := default 0 (max_generation scope subject t) + 1 in
  if g <=? I32_MAX then Ok g else Err StoreDatabase.

(** The loop of INSERTs over the codes, each with the entropy of its identifier. *)
Fixpoint insert_codes {A} (scope : StoreScope) (row : A → RecoveryRow) (codes : list (text * A)) (t : recovery_table) :
    Result recovery_table StoreError :=
  match codes with
  | [] => Ok t
  | (entropy, c) :: rest =>
      match insert_recovery (ScopedId_generate entropy scope) (row c) t with
      | Ok t => insert_codes scope row rest t
      | Err e => Err e
      end
  end.

Definition restored_row (scope : StoreScope) (subject : ScopedId) (generation now db_now : Z) (c : RestoredRecoveryCode) : RecoveryRow :=
  {| rr_scope := scope; rr_subject := subject; rr_code_hash := restored_hash c; rr_code_bidx := None; rr_generation := generation;
     rr_consumed_at := if restored_consumed c then Some now else None; rr_created_at := db_now |}.

Definition restore_all (scope : StoreScope) (subject : ScopedId) (codes : list (text * RestoredRecoveryCode)) (now db_now : Z) : Tx unit := λ db,
  if bool_decide (id_scope subject ≠ scope) then Err StoreNotFound
  else match codes with
  | [] => Ok (tt, db)
  | _ =>
      match next_generation scope subject (recovery_codes db) with
      | Err e => Err e
      | Ok generation =>
          match insert_codes scope (restored_row scope subject generation now db_now) codes (recovery_codes db) with
          | Ok t => Ok (tt, insert_audit_row RecoveryCodesGenerate subject (with_recovery t db))
          | Err e => Err e
          end
      end
  end.

Definition redeemed_row (now : Z) (r : RecoveryRow) : RecoveryRow :=
  {| rr_scope := rr_scope r; rr_subject := rr_subject r; rr_code_hash := rr_code_hash r; rr_code_bidx := rr_code_bidx r;
     rr_generation := rr_generation r; rr_consumed_at := Some now; rr_created_at := rr_created_at r |}.

Definition redeem (scope : StoreScope) (subject id : ScopedId) (now : Z) : Tx RecoveryRedeemOutcome := λ db,
  if bool_decide (id_scope id ≠ scope) || bool_decide (id_scope subject ≠ scope) then Ok (RedeemNotFound, db)
  else
    match recovery_codes db !! id with
    | Some r =>
        if bool_decide (code_owned scope subject r ∧ rr_consumed_at r = None) then
          Ok (Redeemed, insert_audit_row RecoveryCodeRedeem id (with_recovery (<[id := redeemed_row now r]> (recovery_codes db)) db))
        else Ok (RedeemNotFound, db)
    | None => Ok (RedeemNotFound, db)
    end.

Section Indexed.
Context `{Hmac} `{Base64Url} `{Master}.

Definition code_index (mk : MasterKey) (scope : StoreScope) (subject : ScopedId) (normalized : text) : bytes :=
  recovery_code_blind_index (mkey_bytes mk) scope (id_to_string USER_PREFIX subject) normalized.

Definition new_row (mk : MasterKey) (scope : StoreScope) (subject : ScopedId) (generation db_now : Z) (c : NewRecoveryCode) : RecoveryRow :=
  {| rr_scope := scope; rr_subject := subject; rr_code_hash := code_hash c; rr_code_bidx := Some (code_index mk scope subject (normalized_code c));
     rr_generation := generation; rr_consumed_at := None; rr_created_at := db_now |}.

Definition replace_all (scope : StoreScope) (subject : ScopedId) (codes : list (text * NewRecoveryCode)) (db_now : Z) : Tx Z := λ db,
  if bool_decide (id_scope subject ≠ scope) then Err StoreNotFound
  else match master with
  | None => Err StoreEncryption
  | Some mk =>
    let? generation := next_generation scope subject (recovery_codes db) in
    let kept := filter (λ kr, ¬ code_owned scope subject kr.2) (recovery_codes db) in
    let? t := insert_codes scope (new_row mk scope subject generation db_now) codes kept in
    Ok (generation, insert_audit_row RecoveryCodesGenerate subject (with_recovery t db))
  end.
End Indexed.

(** ** Reads *)

(** [ORDER BY created_at, id]: the collation of the database decides between identifiers. *)
Class RowOrder := {
  order_totp : list (ScopedId * TotpRow) → list (ScopedId * TotpRow);
  order_recovery : list (ScopedId * RecoveryRow) → list (ScopedId * RecoveryRow) }.

Class RowOrderLaws `{RowOrder} : Prop := {
  order_totp_perm l : order_totp l ≡ₚ l;
  order_recovery_perm l : order_recovery l ≡ₚ l }.

Definition has_active (scope : StoreScope) (subject : ScopedId) (db : FactorDb) : Result bool StoreError :=
  if bool_decide (id_scope subject ≠ scope) then Ok false
  else Ok (bool_decide (map_Exists (λ _ r, owned scope subject r ∧ row_active r) (totp_credentials db))).

(** [parse_in_scope] on the text of a stored identifier: the scope is the only thing to check. *)
Definition read_id (scope : StoreScope) (id : ScopedId) : Result ScopedId StoreError :=
  if bool_decide (id_scope id = scope) then Ok id else Err StoreNotFound.

Definition material_of (id : ScopedId) (seed : bytes) (r : TotpRow) : TotpMaterial :=
  {| tm_id := id; tm_seed := seed; tm_algorithm := tr_algorithm r; tm_digits := tr_digits r; tm_period_secs := tr_period_secs r;
     tm_status := tr_status r; tm_last_consumed_step := tr_last_consumed_step r |}.

Section Opening.
Context `{Aead} `{Base64Url} `{Master}.

(** A sealed column of a row: the key of its version, the length of the blob, the AEAD. *)
Definition open_column (mk : MasterKey) (keys : KeyTables) (scope : StoreScope) (dek_version : Z) (aad : Aad) (column : bytes) :
    Result bytes StoreError :=
  let? dek := fetch_dek_by_version mk scope dek_version keys in
  let? sealed := from_envelope (Sealed_from_bytes column) in
  from_envelope (Dek_open dek aad sealed).

(** The shared open path: a given row of the subject, or its active row. *)
Definition open_material_where (scope : StoreScope) (subject : ScopedId) (id : option ScopedId) (db : FactorDb) :
    Result (option TotpMaterial) StoreError :=
  match master with
  | None => Err StoreEncryption
  | Some mk =>
    let rows :=
      match id with
      | Some id => filter (λ kr, kr.1 = id ∧ owned scope subject kr.2) (totp_credentials db)
      | None => filter (λ kr, owned scope subject kr.2 ∧ row_active kr.2) (totp_credentials db)
      end in
    match map_to_list rows with
    | [] => Ok None
    | (id, r) :: _ =>
        let? seed := open_column mk (key_tables db) scope (tr_dek_version r)
                       (totp_seed_seal_aad scope (id_to_string TOTP_PREFIX id) (tr_dek_version r)) (tr_seed r) in
        let? id := read_id scope id in
        Ok (Some (material_of id seed r))
    end
  end.

Definition open_material (scope : StoreScope) (subject id : ScopedId) (db : FactorDb) : Result (option TotpMaterial) StoreError :=
  if bool_decide (id_scope subject ≠ scope) || bool_decide (id_scope id ≠ scope) then Ok None
  else open_material_where scope subject (Some id) db.

Definition open_active_material (scope : StoreScope) (subject : ScopedId) (db : FactorDb) : Result (option TotpMaterial) StoreError :=
  if bool_decide (id_scope subject ≠ scope) then Ok None else open_material_where scope subject None db.
End Opening.

Definition remaining_count (scope : StoreScope) (subject : ScopedId) (db : FactorDb) : Result Z StoreError :=
  if bool_decide (id_scope subject ≠ scope) then Ok 0
  else Ok (Z.of_nat (size (filter (λ kr, code_owned scope subject kr.2 ∧ rr_consumed_at kr.2 = None) (recovery_codes db)))).

Section Ordered.
Context `{Aead} `{Base64Url} `{Master} `{RowOrder}.

Definition summary_of (id : ScopedId) (friendly_name : text) (r : TotpRow) : TotpCredentialSummary :=
  {| su_id := id; su_friendly_name := friendly_name; su_status := tr_status r; su_algorithm := tr_algorithm r; su_digits := tr_digits r;
     su_period_secs := tr_period_secs r; su_created_at := tr_created_at r; su_activated_at := tr_activated_at r; su_last_used_at := tr_last_used_at r |}.

(** The loop that opens the name of every row; [String::from_utf8] refuses what is no text. *)
Fixpoint read_summaries (mk : MasterKey) (keys : KeyTables) (scope : StoreScope) (rows : list (ScopedId * TotpRow)) :
    Result (list TotpCredentialSummary) StoreError :=
  match rows with
  | [] => Ok []
  | (id, r) :: rest =>
      let? plaintext := open_column mk keys scope (tr_dek_version r) (totp_name_seal_aad scope (tr_dek_version r)) (tr_name_sealed r) in
      let friendly_name := chr <$> plaintext in
      if from_utf8 friendly_name then let? out := read_summaries mk keys scope rest in Ok (summary_of id friendly_name r :: out)
      else Err StoreEncryption
  end.

Definition list_credentials (scope : StoreScope) (subject : ScopedId) (db : FactorDb) : Result (list TotpCredentialSummary) StoreError :=
  if bool_decide (id_scope subject ≠ scope) then Ok []
  else match master with
  | None => Err StoreEncryption
  | Some mk => read_summaries mk (key_tables db) scope (order_totp (map_to_list (filter (λ kr, owned scope subject kr.2) (totp_credentials db))))
  end.

(** The loop that parses the identifier of every row. *)
Fixpoint read_candidates (scope : StoreScope) (rows : list (ScopedId * RecoveryRow)) : Result (list RecoveryCodeCandidate) StoreError :=
  match rows with
  | [] => Ok []
  | (id, r) :: rest =>
      match read_id scope id with
      | Err e => Err e
      | Ok id =>
          match read_candidates scope rest with
          | Ok out => Ok (mkCandidate id (rr_code_hash r) :: out)
          | Err e => Err e
          end
      end
  end.

Definition unconsumed (scope : StoreScope) (subject : ScopedId) (db : FactorDb) : Result (list RecoveryCodeCandidate) StoreError :=
  if bool_decide (id_scope subject ≠ scope) then Ok []
  else read_candidates scope
    (order_recovery (map_to_list (filter (λ kr, code_owned scope subject kr.2 ∧ rr_consumed_at kr.2 = None) (recovery_codes db)))).

Definition candidates_for_code `{Hmac} (scope : StoreScope) (subject : ScopedId) (presented : text) (db : FactorDb) :
    Result (list RecoveryCodeCandidate) StoreError :=
  if bool_decide (id_scope subject ≠ scope) then Ok []
  else match master with
  | None => Err StoreEncryption
  | Some mk =>
    let bidx := code_index mk scope subject presented in
    read_candidates scope
      (order_recovery (map_to_list (filter (λ kr, code_owned scope subject kr.2 ∧ rr_consumed_at kr.2 = None ∧
        (rr_code_bidx kr.2 = Some bidx ∨ rr_code_bidx kr.2 = None)) (recovery_codes db))))
  end.
End Ordered.

(** ** Calls *)

(** The transactions and the reads as calls, typed by their answer. *)
Inductive StoreWrite : Type → Type :=
| BeginEnroll (scope : StoreScope) (subject : ScopedId) (e : NewTotpEnrollment) (entropy seed_nonce name_nonce : text) (db_now : Z) : StoreWrite ScopedId
| Activate (scope : StoreScope) (subject id : ScopedId) (matched_step now : Z) : StoreWrite TotpActivateOutcome
| RecordVerification (scope : StoreScope) (subject id : ScopedId) (matched_step offset now : Z) : StoreWrite TotpVerifyOutcome
| Remove (scope : StoreScope) (subject id : ScopedId) : StoreWrite CredentialRemoveOutcome
| Restore (scope : StoreScope) (subject : ScopedId) (t : RestoredTotp) (entropy seed_nonce name_nonce : text) (now db_now : Z) : StoreWrite ScopedId
| ReplaceAll (scope : StoreScope) (subject : ScopedId) (codes : list (text * NewRecoveryCode)) (db_now : Z) : StoreWrite Z
| RestoreAll (scope : StoreScope) (subject : ScopedId) (codes : list (text * RestoredRecoveryCode)) (now db_now : Z) : StoreWrite unit
| Redeem (scope : StoreScope) (subject id : ScopedId) (now : Z) : StoreWrite RecoveryRedeemOutcome
| ProvisionKek (scope : StoreScope) (id_entropy key_entropy nonce : text) : StoreWrite ScopedId
| ProvisionDek (scope : StoreScope) (id_entropy key_entropy nonce : text) : StoreWrite ScopedId
| RotateKek (scope : StoreScope) (id_entropy key_entropy nonce : text) (nonces : Z → text) : StoreWrite ScopedId
| RotateDek (scope : StoreScope) (id_entropy key_entropy nonce : text) : StoreWrite ScopedId
| DestroyKek (scope : StoreScope) (now : Z) : StoreWrite ScopedId.

Inductive StoreRead : Type → Type :=
| HasActive (scope : StoreScope) (subject : ScopedId) : StoreRead bool
| ListCredentials (scope : StoreScope) (subject : ScopedId) : StoreRead (list TotpCredentialSummary)
| OpenMaterial (scope : StoreScope) (subject id : ScopedId) : StoreRead (option TotpMaterial)
| OpenActiveMaterial (scope : StoreScope) (subject : ScopedId) : StoreRead (option TotpMaterial)
| RemainingCount (scope : StoreScope) (subject : ScopedId) : StoreRead Z
| Unconsumed (scope : StoreScope) (subject : ScopedId) : StoreRead (list RecoveryCodeCandidate)
| CandidatesForCode (scope : StoreScope) (subject : ScopedId) (presented : text) : StoreRead (list RecoveryCodeCandidate).

(** What can go wrong around a transaction: it fails and is rolled back, or it commits and
    the caller is told that it failed. *)
Inductive Fault : Set := NoFault | RolledBack (e : StoreError) | LostAck (e : StoreError).

Section Calls.
Context `{Hmac} `{Aead} `{Base64Url} `{Master} `{RowOrder}.

(** A transaction on the key tables, audited against the key's identifier. *)
Definition key_tx (action : FactorAction) (op : KeyTables → Result (ScopedId * KeyTables) StoreError) : Tx ScopedId := λ db,
  let? (id, keys) := op (key_tables db) in
  Ok (id, insert_audit_row action id (with_keys keys db)).

(** The callers of the envelope repository pass the master key of the store. *)
Definition master_tx (action : FactorAction) (op : MasterKey → KeyTables → Result (ScopedId * KeyTables) StoreError) : Tx ScopedId := λ db,
  match master with
  | None => Err StoreEncryption
  | Some mk => key_tx action (op mk) db
  end.

Definition tx {A} (w : StoreWrite A) : Tx A :=
  match w in StoreWrite A return Tx A with
  | BeginEnroll scope subject e entropy seed_nonce name_nonce db_now => begin_enroll scope subject e entropy seed_nonce name_nonce db_now
  | Activate scope subject id step now => activate scope subject id step now
  | RecordVerification scope subject id step offset now => record_verification scope subject id step offset now
  | Remove scope subject id => remove scope subject id
  | Restore scope subject t entropy seed_nonce name_nonce now db_now => restore scope subject t entropy seed_nonce name_nonce now db_now
  | ReplaceAll scope subject codes db_now => replace_all scope subject codes db_now
  | RestoreAll scope subject codes now db_now => restore_all scope subject codes now db_now
  | Redeem scope subject id now => redeem scope subject id now
  | ProvisionKek scope id_entropy key_entropy nonce => master_tx EnvelopeKekProvision (λ mk, provision_kek mk scope id_entropy key_entropy nonce)
  | ProvisionDek scope id_entropy key_entropy nonce => master_tx EnvelopeDekProvision (λ mk, provision_dek mk scope id_entropy key_entropy nonce)
  | RotateKek scope id_entropy key_entropy nonce nonces => master_tx EnvelopeKekRotate (λ mk, rotate_kek mk scope id_entropy key_entropy nonce nonces)
  | RotateDek scope id_entropy key_entropy nonce => master_tx EnvelopeDekRotate (λ mk, rotate_dek mk scope id_entropy key_entropy nonce)
  | DestroyKek scope now => key_tx EnvelopeKekDestroy (destroy_kek scope now)
  end.

Definition query {A} (r : StoreRead A) (db : FactorDb) : Result A StoreError :=
  match r in StoreRead A return Result A StoreError with
  | HasActive scope subject => has_active scope subject db
  | ListCredentials scope subject => list_credentials scope subject db
  | OpenMaterial scope subject id => open_material scope subject id db
  | OpenActiveMaterial scope subject => open_active_material scope subject db
  | RemainingCount scope subject => remaining_count scope subject db
  | Unconsumed scope subject => unconsumed scope subject db
  | CandidatesForCode scope subject presented => candidates_for_code scope subject presented db
  end.

Definition run_tx {A} (fault : Fault) (w : StoreWrite A) (db : FactorDb) : Result A StoreError * FactorDb :=
  match fault, tx w db with
  | RolledBack e, _ => (Err e, db)
  | _, Err e => (Err e, db)
  | NoFault, Ok (a, db') => (Ok a, db')
  | LostAck e, Ok (_, db') => (Err e, db')
  end.
End Calls.

(** ** What the rows satisfy *)

Definition row_ok (id : ScopedId) (r : TotpRow) : Prop :=
  id_scope id = tr_scope r ∧ id_scope (tr_subject r) = tr_scope r ∧ totp_checks r = true.

Definition one_active (t : totp_table) : Prop := ∀ id id' r r', t !! id = Some r → t !! id' = Some r' →
  row_active r → row_active r' → tr_scope r = tr_scope r' → tr_subject r = tr_subject r' → id = id'.

Definition rows_ok (t : totp_table) : Prop := map_Forall row_ok t ∧ one_active t.

Definition code_row_ok (id : ScopedId) (r : RecoveryRow) : Prop :=
  id_scope id = rr_scope r ∧ id_scope (rr_subject r) = rr_scope r ∧ 1 ≤ rr_generation r.

Section Sealed_rows.
Context `{Aead} `{Base64Url} `{Master}.

(** The column opens to [plaintext] under a data key, and the store never gives another key for its version. *)
Definition column_reads (mk : MasterKey) (keys : KeyTables) (scope : StoreScope) (version : Z) (aad : Aad) (column plaintext : bytes) : Prop :=
  is_Some (tenant_deks keys !! (scope, version)) ∧
  ∃ dek, (let? sealed := from_envelope (Sealed_from_bytes column) in from_envelope (Dek_open dek aad sealed)) = Ok plaintext ∧
    ∀ dek', fetch_dek_by_version mk scope version keys = Ok dek' → dek' = dek.

Definition seed_reads (mk : MasterKey) (keys : KeyTables) (id : ScopedId) (r : TotpRow) (seed : bytes) : Prop :=
  column_reads mk keys (tr_scope r) (tr_dek_version r) (totp_seed_seal_aad (tr_scope r) (id_to_string TOTP_PREFIX id) (tr_dek_version r)) (tr_seed r) seed.

Definition rows_sealed (mk : MasterKey) (keys : KeyTables) (t : totp_table) : Prop := map_Forall (λ id r, ∃ seed, seed_reads mk keys id r seed) t.

Definition db_ok (db : FactorDb) : Prop :=
  rows_ok (totp_credentials db) ∧ map_Forall code_row_ok (recovery_codes db) ∧
  ∀ mk, master = Some mk → keys_ok mk (key_tables db) ∧ rows_sealed mk (key_tables db) (totp_credentials db).

(** What the shared open path reads: a row of the subject, its seed column opened. *)
Lemma open_where_Some scope subject id db m : open_material_where scope subject id db = Ok (Some m) →
  ∃ mk r, master = Some mk ∧ totp_credentials db !! tm_id m = Some r ∧ owned scope subject r ∧ from_option (λ id, tm_id m = id) (row_active r) id ∧
    open_column mk (key_tables db) scope (tr_dek_version r) (totp_seed_seal_aad scope (id_to_string TOTP_PREFIX (tm_id m)) (tr_dek_version r)) (tr_seed r) = Ok (tm_seed m) ∧
    m = material_of (tm_id m) (tm_seed m) r.
Proof.
  unfold open_material_where. destruct master as [mk|] eqn:Hm; [|done]. cbn zeta. destruct (map_to_list _) as [|[i r] rest] eqn:Hl; [done|].
  destruct (open_column _ _ _ _ _ _) as [seed|] eqn:Ho; [|done]. unfold read_id. case_bool_decide; [|done]. intros [= <-]. exists mk, r. split; [done|].
  assert (totp_credentials db !! i = Some r ∧ owned scope subject r ∧ from_option (λ id, i = id) (row_active r) id) as (Hr & Hown & Hid); [|done].
  destruct id as [id|];
    match type of Hl with map_to_list ?t = _ => assert ((i, r) ∈ map_to_list t) as Hin by (rewrite Hl; set_solver) end;
    apply elem_of_map_to_list, map_lookup_filter_Some in Hin as [Hr Hp]; simpl in Hp; simpl; tauto.
Qed.

Lemma open_material_id scope subject id db m : open_material scope subject id db = Ok (Some m) → tm_id m = id.
Proof. unfold open_material. destruct (_ || _); [done|]. by intros (mk & r & _ & _ & _ & Hid & _)%open_where_Some. Qed.

(** What is opened now is what the column reads as from now on. *)
Lemma opened_column_reads mk keys scope version aad column plaintext : open_column mk keys scope version aad column = Ok plaintext →
  column_reads mk keys scope version aad column plaintext.
Proof.
  unfold open_column. destruct (fetch_dek_by_version _ _ _ _) as [dek|] eqn:Hf; [|done]. intros Hopen. split.
  - unfold fetch_dek_by_version in Hf. destruct (tenant_deks keys !! _); [by eexists|done].
  - exists dek. split; [done|]. intros dek' Heq. congruence.
Qed.
End Sealed_rows.

Lemma rows_ok_sub t t' : t' ⊆ t → rows_ok t → rows_ok t'.
Proof.
  intros Hsub [Hr Ho]. split.
  - intros id r Hid. apply (Hr id r). by eapply lookup_weaken.
  - intros id id' r r' Hid Hid'. apply Ho; by eapply lookup_weaken.
Qed.

Lemma rows_ok_put id r t : row_ok id r → ¬ (row_active r ∧ active_elsewhere id (tr_scope r) (tr_subject r) t) → rows_ok t → rows_ok (<[id := r]> t).
Proof.
  intros Hr Hne [Hall Ho]. split; [by apply map_Forall_insert_2|].
  assert (∀ other r', <[id := r]> t !! other = Some r' → other ≠ id → row_active r → row_active r' →
    tr_scope r = tr_scope r' → tr_subject r = tr_subject r' → False) as Hx.
  { intros other r' Hl Hoth Ha Ha' Hs Hu. rewrite lookup_insert_ne in Hl by done. apply Hne. split; [done|].
    exists other, r'. split; [done|]. unfold owned. by split; [|split]. }
  intros i i' ri ri' Hi Hi' Ha Ha' Hs Hu. destruct (decide (i = id)) as [-> | Hi1]; destruct (decide (i' = id)) as [-> | Hi2]; [done| | |].
  - rewrite lookup_insert_eq in Hi. injection Hi as <-. exfalso. by eapply (Hx i' ri').
  - rewrite lookup_insert_eq in Hi'. injection Hi' as <-. exfalso. by eapply (Hx i ri).
  - rewrite lookup_insert_ne in Hi, Hi' by done. by eapply (Ho i i' ri ri').
Qed.

Lemma one_active_elsewhere t id r : one_active t → t !! id = Some r → row_active r → ¬ active_elsewhere id (tr_scope r) (tr_subject r) t.
Proof. intros Ho Hid Ha (other & r' & Hr' & Hne & [Hs Hu] & Ha'). apply Hne. by apply (Ho other id r' r). Qed.

Lemma rows_ok_insert id r t t' : insert_totp id r t = Ok t' → id_scope id = tr_scope r → id_scope (tr_subject r) = tr_scope r →
  rows_ok t → rows_ok t'.
Proof.
  unfold insert_totp. case_bool_decide; [done|]. destruct (totp_checks r) eqn:Hc; [|done]. simpl. case_bool_decide as Hna; [done|].
  intros [= <-] Hs Hu. by apply rows_ok_put.
Qed.

Lemma max_generation_pos scope subject t : map_Forall code_row_ok t → ∀ g, max_generation scope subject t = Some g → 1 ≤ g.
Proof.
  unfold max_generation. revert t. refine (map_fold_weak_ind (λ acc t, map_Forall code_row_ok t → ∀ g, acc = Some g → 1 ≤ g) _ _ _ _); [done|].
  intros i r t acc Hi IH Hall. apply map_Forall_insert in Hall as [(_ & _ & Hr) Hall]; [|done]. specialize (IH Hall). intros g.
  case_bool_decide; [|by apply IH]. destruct acc as [a|]; simpl; intros [= <-]; lia.
Qed.

Lemma next_generation_pos scope subject t g : map_Forall code_row_ok t → next_generation scope subject t = Ok g → 1 ≤ g.
Proof.
  intros Hall. unfold next_generation. destruct (max_generation scope subject t) as [m|] eqn:Hm; simpl.
  - apply max_generation_pos in Hm; [|done]. destruct (_ <=? _); [|done]. intros [= <-]. lia.
  - intros [= <-]. lia.
Qed.

(** What the insertions of a batch give: the old rows and, under the drawn identifiers, the new ones. *)
Lemma insert_codes_spec {A} scope (row : A → RecoveryRow) codes : ∀ t t', insert_codes scope row codes t = Ok t' →
  t' = list_to_map (prod_map (λ entropy, ScopedId_generate entropy scope) row <$> codes) ∪ t ∧
  NoDup (codes.*1) ∧ ∀ entropy, entropy ∈ codes.*1 → t !! ScopedId_generate entropy scope = None.
Proof.
  induction codes as [|[entropy c] codes IH]; intros t t'; cbn [insert_codes].
  - intros [= <-]. simpl. rewrite (left_id_L ∅ (∪)). split; [done|]. split; [constructor|]. intros ? []%elem_of_nil.
  - unfold insert_recovery. case_bool_decide as Hn; [done|]. rewrite <-eq_None_not_Some in Hn.
    intros Hrest. apply IH in Hrest as (-> & Hnd & Hfree).
    assert (entropy ∉ codes.*1) as Hne.
    { intros Hin. specialize (Hfree entropy Hin). by rewrite lookup_insert_eq in Hfree. }
    simpl. rewrite <-insert_union_r.
    + rewrite <-insert_union_l. split; [done|]. split; [by constructor|]. intros e [-> | He]%elem_of_cons; [done|].
      specialize (Hfree e He). by apply lookup_insert_None in Hfree as [? _].
    + apply not_elem_of_list_to_map_1. rewrite <-list_fmap_compose. intros ([e' c'] & Heq & Hin)%list_elem_of_fmap. simpl in Heq.
      injection Heq as ->. apply Hne. apply list_elem_of_fmap. by exists (e', c').
Qed.

(** ** What a transaction can do to a row *)

(** A consumed time step, or a consumed recovery code. *)
Inductive Spend : Type := SpentStep (id : ScopedId) (step : Z) | SpentCode (id : ScopedId).

#[export] Instance Spend_eq_dec : EqDecision Spend.
Proof. solve_decision. Defined.

Definition spend_id (s : Spend) : ScopedId := match s with SpentStep id _ | SpentCode id => id end.

(** What an answer says was consumed.  Activation consumes the step of the code that proved possession. *)
Definition consumes {A} (w : StoreWrite A) : A → list Spend :=
  match w in StoreWrite A return A → list Spend with
  | Activate _ _ id step _ => λ a, match a with Activated => [SpentStep id step] | _ => [] end
  | RecordVerification _ _ id step _ _ => λ a, match a with Verified => [SpentStep id step] | _ => [] end
  | Redeem _ _ id _ => λ a, match a with Redeemed => [SpentCode id] | _ => [] end
  | _ => λ _, []
  end.

(** The identifiers a call draws for the two tables of factors. *)
Definition fresh_ids {A} (w : StoreWrite A) : list ScopedId :=
  match w with
  | BeginEnroll scope _ _ entropy _ _ _ | Restore scope _ _ entropy _ _ _ _ => [ScopedId_generate entropy scope]
  | ReplaceAll scope _ codes _ => (λ c, ScopedId_generate c.1 scope) <$> codes
  | RestoreAll scope _ codes _ _ => (λ c, ScopedId_generate c.1 scope) <$> codes
  | _ => []
  end.

(** The columns no statement updates. *)
Definition frozen (r : TotpRow) : StoreScope * ScopedId * bytes * bytes * Z * string * Z * Z :=
  (tr_scope r, tr_subject r, tr_seed r, tr_name_sealed r, tr_dek_version r, tr_algorithm r, tr_digits r, tr_period_secs r).

(** Whether a row records a step, or a later one, as consumed. *)
Definition step_consumed (step : Z) (r : TotpRow) : Prop := row_active r ∧ ∃ last, tr_last_consumed_step r = Some last ∧ step ≤ last.

Definition evolves (r r' : TotpRow) : Prop := frozen r = frozen r' ∧ (∀ step, step_consumed step r → step_consumed step r').

Definition code_evolves (r r' : RecoveryRow) : Prop :=
  (rr_scope r, rr_subject r, rr_code_hash r, rr_code_bidx r, rr_generation r) = (rr_scope r', rr_subject r', rr_code_hash r', rr_code_bidx r', rr_generation r') ∧
  (rr_consumed_at r ≠ None → rr_consumed_at r' ≠ None).

#[export] Instance evolves_refl : Reflexive evolves.
Proof. by split. Qed.

#[export] Instance code_evolves_refl : Reflexive code_evolves.
Proof. by split. Qed.

(** Rows of [t'] are rows of [t] that evolved, or new ones under the identifiers of [ids]. *)
Definition table_evolves {R} (ev : R → R → Prop) (ids : list ScopedId) (t t' : gmap ScopedId R) : Prop :=
  ∀ id r', t' !! id = Some r' → (id ∈ ids ∧ t !! id = None) ∨ ∃ r, t !! id = Some r ∧ ev r r'.

Lemma table_evolves_sub {R} (ev : R → R → Prop) `{!Reflexive ev} ids (t t' : gmap ScopedId R) : t' ⊆ t → table_evolves ev ids t t'.
Proof. intros Hsub id r' Hl. right. exists r'. split; [by eapply lookup_weaken|reflexivity]. Qed.

Lemma table_evolves_update {R} (ev : R → R → Prop) `{!Reflexive ev} ids (t : gmap ScopedId R) id r r' :
  t !! id = Some r → ev r r' → table_evolves ev ids t (<[id := r']> t).
Proof.
  intros Hr Hev other o. destruct (decide (other = id)) as [-> | Hne].
  - rewrite lookup_insert_eq. intros [= <-]. right. by exists r.
  - rewrite lookup_insert_ne by done. intros Ho. right. exists o. by split; [|reflexivity].
Qed.

Lemma insert_totp_evolves id r t t' : insert_totp id r t = Ok t' → table_evolves evolves [id] t t'.
Proof.
  unfold insert_totp. case_bool_decide as Hn; [done|]. destruct (negb _); [done|]. case_bool_decide; [done|]. intros [= <-] other o.
  destruct (decide (other = id)) as [-> | Hne].
  - intros _. left. split; [set_solver|]. by apply eq_None_not_Some.
  - rewrite lookup_insert_ne by done. intros Ho. right. exists o. by split; [|reflexivity].
Qed.

Lemma insert_codes_evolves {A} scope (row : A → RecoveryRow) codes t t' : insert_codes scope row codes t = Ok t' →
  table_evolves code_evolves ((λ c, ScopedId_generate c.1 scope) <$> codes) t t'.
Proof.
  intros (-> & _ & Hfree)%insert_codes_spec id r' Hl. apply lookup_union_Some_raw in Hl as [Hl | [_ Hl]].
  - left. apply elem_of_list_to_map_2 in Hl. apply list_elem_of_fmap in Hl as ([e c] & Heq & Hin). simpl in Heq. injection Heq as -> ->.
    split; [apply list_elem_of_fmap; by exists (e, c)|]. apply Hfree, list_elem_of_fmap. by exists (e, c).
  - right. exists r'. by split.
Qed.

(** The new rows are of the scope and the subject the batch is for. *)
Lemma insert_codes_ok {A} scope (row : A → RecoveryRow) codes t t' : insert_codes scope row codes t = Ok t' →
  (∀ c entropy, code_row_ok (ScopedId_generate entropy scope) (row c)) → map_Forall code_row_ok t → map_Forall code_row_ok t'.
Proof.
  intros (-> & _ & _)%insert_codes_spec Hrow Hall id r' Hl. apply lookup_union_Some_raw in Hl as [Hl | [_ Hl]]; [|by apply Hall].
  apply elem_of_list_to_map_2 in Hl. apply list_elem_of_fmap in Hl as ([e c] & Heq & _). simpl in Heq. injection Heq as -> ->. apply Hrow.
Qed.

Lemma scope_generate entropy scope : id_scope (ScopedId_generate entropy scope) = scope.
Proof. by destruct scope. Qed.

Lemma evolves_trans_sub {R} (ev : R → R → Prop) ids (t t1 t' : gmap ScopedId R) : t1 ⊆ t → table_evolves ev ids t1 t' →
  (∀ id, id ∈ ids → t !! id = None) → table_evolves ev ids t t'.
Proof.
  intros Hsub Hev Hfree id r' Hl. destruct (Hev id r' Hl) as [[Hin _] | (r & Hr & He)]; [left; by auto|].
  right. exists r. split; [by eapply lookup_weaken|done].
Qed.

(** Whether the database refuses to consume [s] again, as long as its row lives. *)
Definition spent_in (db : FactorDb) (s : Spend) : Prop :=
  match s with
  | SpentStep id step => ∀ r, totp_credentials db !! id = Some r → step_consumed step r
  | SpentCode id => ∀ r, recovery_codes db !! id = Some r → rr_consumed_at r ≠ None
  end.

Definition present (db : FactorDb) (id : ScopedId) : Prop := is_Some (totp_credentials db !! id) ∨ is_Some (recovery_codes db !! id).

Lemma frozen_ok id r r' : row_ok id r → frozen r = frozen r' → tr_status r' ∈ ["pending"; "active"] → row_ok id r'.
Proof.
  unfold row_ok, totp_checks, frozen. intros (Hs & Hu & Hc) [= H1 H2 H3 H4 H5 H6 H7 H8] Hst. rewrite <-H1, <-H2, <-H6, <-H7, <-H8.
  split; [done|]. split; [done|]. rewrite !andb_true_iff in Hc |- *. destruct Hc as [[[_ Ha] Hd] Hp]. split; [split; [split|]|]; try done.
  apply existsb_exists. exists (tr_status r'). split; [by apply list_elem_of_In|apply String.eqb_refl].
Qed.

Section Steps.
Context `{Hmac} `{AeadLaws} `{Base64Url} `{Master}.

(** Unfold a transaction into the branch that was taken. *)
Ltac take_branch :=
  repeat match goal with
    | H : (if ?b then _ else _) = Ok _ |- _ => destruct b eqn:?; [try discriminate H|try discriminate H]
    | H : match master with _ => _ end = Ok _ |- _ => destruct master as [mk|] eqn:?; [|discriminate H]
    | H : match fetch_active_dek ?m ?sc ?k with _ => _ end = Ok _ |- _ => destruct (fetch_active_dek m sc k) as [[version dek]|] eqn:?; [|discriminate H]
    | H : context [seal_columns _ _ _ _ _ _ (_, _)] |- _ => cbn beta iota delta [seal_columns] in H
    | H : match ?x with _ => _ end = Ok _ |- _ => destruct x eqn:?; try discriminate H
    end.

Lemma key_tx_Ok action op db a db' : key_tx action op db = Ok (a, db') →
  ∃ keys, op (key_tables db) = Ok (a, keys) ∧ db' = insert_audit_row action a (with_keys keys db).
Proof. unfold key_tx. destruct (op _) as [[id keys]|]; [|done]. intros [-> <-]%Ok_pair_inj. by exists keys. Qed.

Ltac by_tx w :=
  destruct w; cbn [tx]; unfold begin_enroll, activate, record_verification, remove, restore, replace_all, restore_all, redeem, master_tx;
  intros Htx; cbn zeta in Htx; take_branch;
  first [apply key_tx_Ok in Htx as (keys & Hop & ->)|apply Ok_pair_inj in Htx as [<- <-]];
  cbn [totp_credentials recovery_codes key_tables with_totp with_recovery with_keys insert_audit_row] in *.

Lemma pending_not_active r : row_pending r → ¬ row_active r.
Proof. unfold row_pending, row_active. congruence. Qed.

Lemma activated_evolves step now r : row_pending r → evolves r (activated_row step now r).
Proof. intros Hp. split; [done|]. intros s [Ha _]. by destruct (pending_not_active r Hp). Qed.

Lemma verified_evolves step offset now r : row_active r → step_is_newer step r = true → evolves r (verified_row step offset now r).
Proof.
  intros Ha Hn. split; [done|]. intros s [_ (last & Hl & Hle)]. split; [done|]. exists step. split; [done|].
  unfold step_is_newer in Hn. rewrite Hl in Hn. lia.
Qed.

Lemma redeemed_evolves now r : code_evolves r (redeemed_row now r).
Proof. by split. Qed.

Lemma tx_evolves {A} (w : StoreWrite A) db a db' : tx w db = Ok (a, db') → (∀ id, id ∈ fresh_ids w → ¬ present db id) →
  table_evolves evolves (fresh_ids w) (totp_credentials db) (totp_credentials db') ∧
  table_evolves code_evolves (fresh_ids w) (recovery_codes db) (recovery_codes db').
Proof.
  intros Htx Hfresh. assert (∀ id, id ∈ fresh_ids w → totp_credentials db !! id = None ∧ recovery_codes db !! id = None) as Hno.
  { intros id Hid. apply Hfresh in Hid. unfold present in Hid. rewrite !eq_None_not_Some. tauto. }
  clear Hfresh. revert Htx. by_tx w; (split; [|]).
  all: try (apply table_evolves_sub; [apply _|done || apply map_filter_subseteq || apply delete_subseteq]).
  - eapply evolves_trans_sub; [|by eapply insert_totp_evolves|apply Hno]. apply map_filter_subseteq.
  - eapply table_evolves_update; [apply _|done|]. apply activated_evolves. by eapply bool_decide_eq_true_1, proj2 in Heqb0.
  - eapply table_evolves_update; [apply _|done|]. apply verified_evolves; [|done]. by eapply bool_decide_eq_true_1, proj2 in Heqb0.
  - by eapply insert_totp_evolves.
  - eapply evolves_trans_sub; [|by eapply insert_codes_evolves|apply Hno]. apply map_filter_subseteq.
  - by eapply insert_codes_evolves.
  - eapply table_evolves_update; [apply _|done|apply redeemed_evolves].
Qed.

(** A row that is not inserted anew keeps the columns no statement updates. *)
Lemma tx_row {A} (w : StoreWrite A) db a db' id r' : tx w db = Ok (a, db') → id ∉ fresh_ids w → totp_credentials db' !! id = Some r' →
  ∃ r, totp_credentials db !! id = Some r ∧ frozen r = frozen r'.
Proof.
  assert (∀ (t : totp_table) ids, table_evolves evolves ids t (totp_credentials db') → t ⊆ totp_credentials db → id ∉ ids →
    totp_credentials db' !! id = Some r' → ∃ r, totp_credentials db !! id = Some r ∧ frozen r = frozen r') as Hrow.
  { intros t ids Hev Hsub Hid Hr'. destruct (Hev id r' Hr') as [[Hin _]|(r & Hr & Hf & _)]; [done|]. exists r. split; [by eapply lookup_weaken|done]. }
  by_tx w; cbn [fresh_ids]; intros Hid Hr'; try (by exists r').
  - eapply Hrow; [by eapply insert_totp_evolves|apply map_filter_subseteq|done|done].
  - destruct (decide (id0 = id)) as [-> | Hne]; [rewrite lookup_insert_eq in Hr'; injection Hr' as <-; by eexists|].
    rewrite lookup_insert_ne in Hr' by done. by exists r'.
  - destruct (decide (id0 = id)) as [-> | Hne]; [rewrite lookup_insert_eq in Hr'; injection Hr' as <-; by eexists|].
    rewrite lookup_insert_ne in Hr' by done. by exists r'.
  - apply lookup_delete_Some in Hr' as [_ Hr']. by exists r'.
  - eapply Hrow; [by eapply insert_totp_evolves|done|done|done].
Qed.

Lemma codes_ok_sub (t t' : recovery_table) : t' ⊆ t → map_Forall code_row_ok t → map_Forall code_row_ok t'.
Proof. intros Hsub Hall id r Hl. apply Hall. by eapply lookup_weaken. Qed.

(** An updated row is put where no other active row of the subject is. *)
Lemma rows_ok_update id r r' t : rows_ok t → t !! id = Some r → frozen r = frozen r' → tr_status r' = "active" →
  (row_active r ∨ ¬ active_elsewhere id (tr_scope r) (tr_subject r) t) → rows_ok (<[id := r']> t).
Proof.
  intros [Hall Ho] Hr Hf Ha' Hex. apply rows_ok_put; [|intros [_ Hel]|done].
  - apply (frozen_ok id r); [by apply Hall|done|rewrite Ha'; set_solver].
  - injection Hf as Hs Hu _ _ _ _ _ _. rewrite <-Hs, <-Hu in Hel. destruct Hex as [Ha | Hn]; [|done]. by eapply one_active_elsewhere in Ho.
Qed.

Lemma tx_keeps_rows {A} (w : StoreWrite A) db a db' : tx w db = Ok (a, db') →
  rows_ok (totp_credentials db) → map_Forall code_row_ok (recovery_codes db) → rows_ok (totp_credentials db') ∧ map_Forall code_row_ok (recovery_codes db').
Proof.
  intros Htx Hrows Hcodes. revert Htx. by_tx w; (split; [|]); try done.
  all: repeat match goal with H : bool_decide (_ ≠ _) = false |- _ => apply bool_decide_eq_false_1, dec_stable in H end.
  all: cbn [totp_credentials recovery_codes with_totp with_recovery insert_audit_row].
  - eapply rows_ok_insert; [done|apply scope_generate|done|]. eapply rows_ok_sub; [|done]. apply map_filter_subseteq.
  - apply bool_decide_eq_true_1 in Heqb0 as [[<- <-] Hp]. apply bool_decide_eq_false_1 in Heqb1.
    eapply rows_ok_update; eauto.
  - apply bool_decide_eq_true_1 in Heqb0 as [[<- <-] Ha]. eapply rows_ok_update; eauto.
  - eapply rows_ok_sub; [|done]. apply delete_subseteq.
  - eapply codes_ok_sub; [|done]. apply map_filter_subseteq.
  - eapply rows_ok_insert; [done|apply scope_generate|done|done].
  - eapply insert_codes_ok; [done| |eapply codes_ok_sub; [|done]; apply map_filter_subseteq].
    intros c entropy. apply next_generation_pos in Heqr; [|done]. split; [apply scope_generate|done].
  - eapply insert_codes_ok; [done| |done]. intros c entropy. apply next_generation_pos in Heqr; [|done]. split; [apply scope_generate|done].
  - apply map_Forall_insert_2; [|done]. by apply (Hcodes id r).
Qed.

(** *** The sealed columns *)

Lemma tx_keys {A} (w : StoreWrite A) db a db' mk : tx w db = Ok (a, db') → master = Some mk → keys_ok mk (key_tables db) →
  keys_ok mk (key_tables db') ∧ keys_evolve mk (key_tables db) (key_tables db').
Proof.
  intros Htx Hm Hok. pose proof (master_len mk Hm) as Hlen. revert Htx. by_tx w; try (split; [done|reflexivity]); simplify_eq.
  all: first [by eapply provision_kek_ok|by eapply provision_dek_ok|by eapply rotate_kek_ok|by eapply rotate_dek_ok|by eapply destroy_kek_ok].
Qed.

Lemma column_reads_evolve mk keys keys' scope version aad column plaintext : keys_evolve mk keys keys' →
  column_reads mk keys scope version aad column plaintext → column_reads mk keys' scope version aad column plaintext.
Proof.
  intros Hev (Hs & dek & Hopen & Hone). destruct (Hev scope version Hs) as [Hs' Hf]. split; [done|]. exists dek. auto.
Qed.

Lemma seed_reads_frozen mk keys id r r' seed : frozen r = frozen r' → seed_reads mk keys id r seed → seed_reads mk keys id r' seed.
Proof. unfold seed_reads. intros [= Hs _ Hseed _ Hv _ _ _]. by rewrite Hs, Hseed, Hv. Qed.

Lemma sealed_evolve mk keys keys' t : keys_evolve mk keys keys' → rows_sealed mk keys t → rows_sealed mk keys' t.
Proof. intros Hev Hall id r Hr. destruct (Hall id r Hr) as [seed Hseed]. exists seed. by eapply column_reads_evolve. Qed.

Lemma sealed_sub mk keys (t t' : totp_table) : t' ⊆ t → rows_sealed mk keys t → rows_sealed mk keys t'.
Proof. intros Hsub Hall id r Hr. apply Hall. by eapply lookup_weaken. Qed.

Lemma sealed_update mk keys (t : totp_table) id r r' : t !! id = Some r → frozen r = frozen r' → rows_sealed mk keys t → rows_sealed mk keys (<[id := r']> t).
Proof.
  intros Hr Hf Hall. apply map_Forall_insert_2; [|done]. destruct (Hall id r Hr) as [seed Hseed]. exists seed. by eapply seed_reads_frozen.
Qed.

(** A column sealed under the active data key reads back. *)
Lemma sealed_column_reads mk keys scope version dek entropy aad plaintext : fetch_active_dek mk scope keys = Ok (version, dek) →
  column_reads mk keys scope version aad (sealed_bytes (Dek_seal dek entropy aad plaintext)) plaintext.
Proof.
  intros (Hf & Hs & Hlen)%fetch_active_dek_Ok. split; [done|]. exists dek. split; [by apply stored_column_opens|]. intros dek'. rewrite Hf. by intros [= <-].
Qed.

Lemma sealed_insert mk keys id r t t' : insert_totp id r t = Ok t' → (∃ seed, seed_reads mk keys id r seed) → rows_sealed mk keys t → rows_sealed mk keys t'.
Proof.
  unfold insert_totp. case_bool_decide; [done|]. destruct (negb _); [done|]. case_bool_decide; [done|]. intros [= <-] Hseed Hall.
  by apply map_Forall_insert_2.
Qed.

Lemma tx_sealed {A} (w : StoreWrite A) db a db' mk : tx w db = Ok (a, db') → master = Some mk → keys_ok mk (key_tables db) →
  rows_sealed mk (key_tables db) (totp_credentials db) → rows_sealed mk (key_tables db') (totp_credentials db').
Proof.
  intros Htx Hm Hkeys Hall. eapply sealed_evolve; [by eapply tx_keys|]. clear Hkeys. revert Htx. by_tx w; try done; simplify_eq.
  - eapply sealed_insert; [done| |eapply sealed_sub; [apply map_filter_subseteq|done]]. eexists. by apply sealed_column_reads.
  - by eapply sealed_update.
  - by eapply sealed_update.
  - eapply sealed_sub; [apply delete_subseteq|done].
  - eapply sealed_insert; [done| |done]. eexists. by apply sealed_column_reads.
Qed.

(** The row an enrollment inserts reads back as the seed that was enrolled. *)
Lemma enrolled_reads scope subject e entropy seed_nonce name_nonce db_now db id db' : begin_enroll scope subject e entropy seed_nonce name_nonce db_now db = Ok (id, db') →
  ∃ mk r, master = Some mk ∧ totp_credentials db' !! id = Some r ∧ tr_scope r = scope ∧ seed_reads mk (key_tables db') id r (en_seed e).
Proof.
  unfold begin_enroll. intros Htx. cbn zeta in Htx. take_branch. apply Ok_pair_inj in Htx as [<- <-]. cbn [totp_credentials key_tables with_totp insert_audit_row].
  match goal with H : insert_totp _ ?r _ = Ok _ |- _ => exists mk, r; rename H into Hins end. split; [done|].
  unfold insert_totp in Hins. case_bool_decide; [done|]. destruct (negb _); [done|]. case_bool_decide; [done|]. injection Hins as <-.
  rewrite lookup_insert_eq. split; [done|]. split; [done|]. by apply sealed_column_reads.
Qed.

Lemma tx_keeps_ok {A} (w : StoreWrite A) db a db' : tx w db = Ok (a, db') → db_ok db → db_ok db'.
Proof.
  intros Htx (Hrows & Hcodes & Hsealed). destruct (tx_keeps_rows _ _ _ _ Htx Hrows Hcodes) as [Hrows' Hcodes']. split; [done|]. split; [done|].
  intros mk Hm. destruct (Hsealed mk Hm) as [Hkeys Hall]. split; [by eapply tx_keys|by eapply tx_sealed].
Qed.

(** A call consumes only what was not consumed, and what it consumes stays so. *)
Lemma tx_consumes {A} (w : StoreWrite A) db a db' s : tx w db = Ok (a, db') → s ∈ consumes w a →
  ¬ spent_in db s ∧ spent_in db' s ∧ present db (spend_id s).
Proof.
  by_tx w; cbn [consumes]; try (intros []%elem_of_nil); intros ->%list_elem_of_singleton; cbn [spent_in spend_id];
    cbn [totp_credentials recovery_codes with_totp with_recovery insert_audit_row].
  - apply bool_decide_eq_true_1 in Heqb0 as [_ Hp]. split; [|split].
    + intros Hs. destruct (Hs _ Heqo) as [Ha _]. by destruct (pending_not_active _ Hp).
    + intros r. rewrite lookup_insert_eq. intros [= <-]. split; [done|]. by exists matched_step.
    + left. by eexists.
  - apply bool_decide_eq_true_1 in Heqb0 as [_ Ha]. split; [|split].
    + intros Hs. destruct (Hs _ Heqo) as [_ (last & Hl & Hle)]. unfold step_is_newer in Heqb1. rewrite Hl in Heqb1. lia.
    + intros r. rewrite lookup_insert_eq. intros [= <-]. split; [done|]. by exists matched_step.
    + left. by eexists.
  - apply bool_decide_eq_true_1 in Heqb0 as [_ Hc]. split; [|split].
    + intros Hs. by apply (Hs _ Heqo).
    + intros r'. by rewrite lookup_insert_eq; intros [= <-].
    + right. by eexists.
Qed.

Lemma evolves_spent db db' s ids : table_evolves evolves ids (totp_credentials db) (totp_credentials db') →
  table_evolves code_evolves ids (recovery_codes db) (recovery_codes db') → spend_id s ∉ ids → spent_in db s → spent_in db' s.
Proof.
  intros Ht Hc Hid Hs. destruct s as [id step|id]; simpl in *; intros r' Hr'.
  - destruct (Ht id r' Hr') as [[Hin _]|(r & Hr & _ & Hev)]; [done|]. apply Hev. by apply Hs.
  - destruct (Hc id r' Hr') as [[Hin _]|(r & Hr & _ & Hev)]; [done|]. apply Hev. by apply Hs.
Qed.
End Steps.

(** ** The ledger *)

(** The database with the identifiers ever drawn and what was ever consumed, by whom. *)
Record World : Type := mkWorld { w_db : FactorDb; w_issued : gset ScopedId; w_spent : list (option nat * Spend) }.

Definition world_ok `{Aead} `{Base64Url} `{Master} (w : World) : Prop :=
  db_ok (w_db w) ∧ (∀ id, present (w_db w) id → id ∈ w_issued w) ∧ NoDup (w_spent w).*2 ∧
  (∀ o s, (o, s) ∈ w_spent w → spend_id s ∈ w_issued w ∧ spent_in (w_db w) s).

Section Ledger.
Context `{Hmac} `{AeadLaws} `{Base64Url} `{Master}.

(** What a call has consumed when it ends, acknowledged or not. *)
Definition committed {A} (fault : Fault) (c : StoreWrite A) (db : FactorDb) : list Spend :=
  match fault, tx c db with
  | RolledBack _, _ | _, Err _ => []
  | _, Ok (a, _) => consumes c a
  end.

(** A write by [owner] that draws new identifiers. *)
Definition write_step {A} (owner : option nat) (c : StoreWrite A) (w : World) (answer : Result A StoreError) (w' : World) : Prop :=
  (∀ id, id ∈ fresh_ids c → id ∉ w_issued w) ∧
  ∃ fault, run_tx fault c (w_db w) = (answer, w_db w') ∧
    w_issued w' = w_issued w ∪ list_to_set (fresh_ids c) ∧ w_spent w' = w_spent w ++ ((λ s, (owner, s)) <$> committed fault c (w_db w)).

(** A write either leaves the database alone or commits its transaction. *)
Lemma run_tx_cases {A} fault (c : StoreWrite A) db answer db' : run_tx fault c db = (answer, db') →
  (db' = db ∧ (∃ e, answer = Err e) ∧ committed fault c db = []) ∨
  (∃ a, tx c db = Ok (a, db') ∧ committed fault c db = consumes c a ∧ (answer = Ok a ∨ ∃ e, answer = Err e)).
Proof. unfold run_tx, committed. destruct fault, (tx c db) as [[a d]|e']; intros [= <- <-]; eauto 10. Qed.

Lemma consumes_nodup {A} (c : StoreWrite A) a : NoDup (consumes c a).
Proof. destruct c; simpl; try apply NoDup_nil_2; destruct a; apply NoDup_nil_2 || apply NoDup_singleton. Qed.

Lemma write_step_fresh {A} owner (c : StoreWrite A) w answer w' : world_ok w → write_step owner c w answer w' →
  ∀ id, id ∈ fresh_ids c → ¬ present (w_db w) id.
Proof. intros (_ & Hdom & _) [Hfresh _] id Hid Hp. by apply (Hfresh id Hid), Hdom. Qed.

Lemma evolves_present db db' ids : table_evolves evolves ids (totp_credentials db) (totp_credentials db') →
  table_evolves code_evolves ids (recovery_codes db) (recovery_codes db') → ∀ id, present db' id → present db id ∨ id ∈ ids.
Proof.
  intros Ht Hc id [[r Hr] | [r Hr]].
  - destruct (Ht id r Hr) as [[? _]|(r0 & ? & _)]; [by right|]. left. left. by exists r0.
  - destruct (Hc id r Hr) as [[? _]|(r0 & ? & _)]; [by right|]. left. right. by exists r0.
Qed.

Lemma write_step_ok {A} owner (c : StoreWrite A) w answer w' : world_ok w → write_step owner c w answer w' → world_ok w'.
Proof.
  intros Hw Hstep. pose proof (write_step_fresh _ _ _ _ _ Hw Hstep) as Hfresh. destruct Hw as (Hdb & Hdom & Hnd & Hsp).
  destruct Hstep as (Hnew & fault & Hrun & Hiss & Hspent). unfold world_ok. rewrite Hiss, Hspent.
  apply run_tx_cases in Hrun as [(-> & _ & ->)|(a & Htx & -> & _)].
  - rewrite fmap_nil, app_nil_r. split; [done|]. split; [set_solver|]. split; [done|]. intros o s Hin. destruct (Hsp o s Hin). set_solver.
  - destruct (tx_evolves c _ _ _ Htx Hfresh) as [Ht Hc]. split; [by eapply tx_keeps_ok|]. split; [|split].
    + intros id Hp. apply elem_of_union. rewrite elem_of_list_to_set. destruct (evolves_present _ _ _ Ht Hc id Hp); [left; by apply Hdom|by right].
    + rewrite fmap_app, <-list_fmap_compose. apply NoDup_app. split; [done|]. split; [|].
      * intros s ([o s'] & -> & Hin)%list_elem_of_fmap (s'' & Heq & Hin')%list_elem_of_fmap. simpl in Heq. subst s''.
        destruct (tx_consumes c _ _ _ _ Htx Hin') as [Hno _]. by apply Hno, (Hsp o).
      * change (snd ∘ (λ s, (owner, s))) with (@id Spend). rewrite list_fmap_id. apply consumes_nodup.
    + intros o s [Hin | Hin]%elem_of_app.
      * destruct (Hsp o s Hin) as [Hi Hs]. split; [set_solver|]. eapply evolves_spent; [done..| |done]. intros Hf. by apply (Hnew _ Hf).
      * apply list_elem_of_fmap in Hin as (s' & [= -> ->] & Hin). destruct (tx_consumes c _ _ _ _ Htx Hin) as (_ & Hs & Hp). split; [|done].
        apply elem_of_union_l. by apply Hdom.
Qed.

Lemma write_step_acknowledged {A} owner (c : StoreWrite A) w a w' : write_step owner c w (Ok a) w' →
  ∀ s, s ∈ consumes c a → (owner, s) ∈ w_spent w'.
Proof.
  intros (_ & fault & Hrun & _ & ->) s Hs. apply run_tx_cases in Hrun as [(_ & [e [=]] & _)|(a' & _ & -> & [[= ->] | [e [=]]])].
  apply elem_of_app. right. apply list_elem_of_fmap. by exists s.
Qed.

Lemma write_step_keeps {A} owner (c : StoreWrite A) w answer w' : write_step owner c w answer w' → ∀ x, x ∈ w_spent w → x ∈ w_spent w'.
Proof. intros (_ & fault & _ & _ & ->) x Hx. by apply elem_of_app; left. Qed.
End Ledger.
