(* ===== verification/SecondFactor.v ===== *)
(** * Second-factor ceremonies

    crates/ironauth-oidc totp.rs: verification of a TOTP or recovery code, enrollment, the
    recovery codes and the proof that regenerating them asks for.  A handler is a [Prog]: a
    tree of the calls it makes to the store, the clock, the entropy seam and the hashing
    pool, and what it does with each answer, so that other requests can run between any two
    calls.  The part of an HTTP handler modelled is the one after the session and the
    throttle have admitted the request.  The theorems: of all the requests served in any
    interleaving, no two succeed on the same consumed step or code, and every success rests
    on a code of the subject's own factor; an enrolled factor opens to its seed until its key
    is destroyed; an enrollment that is refused leaves the recovery codes alone. *)

From S2P Require Import Prelude Machine Bytes Der Text Authn Totp Ids Envelope FactorStore.

Open Scope Z_scope.

(** ** Calls and programs *)

(** The rejection of the hashing pool; the rate-limit snapshot of [Overloaded] is left out. *)
Inductive HashRejection : Set := Overloaded | PoolExhausted | PoolUnavailable.

Inductive FactorE : Type → Type :=
| Write {A} (c : StoreWrite A) : FactorE (Result A StoreError)
| Read {A} (q : StoreRead A) : FactorE (Result A StoreError)
| NowSecs : FactorE Z
| NowMicros : FactorE Z
| DatabaseNow : FactorE Z
| FillBytes (n : nat) : FactorE text
| VerifyPassword (scope : StoreScope) (password hash : text) : FactorE (Result bool HashRejection)
| HashPassword (scope : StoreScope) (password : text) : FactorE (Result text HashRejection)
| PasswordHashForSubject (scope : StoreScope) (subject : ScopedId) : FactorE (Result (option text) StoreError).

Inductive Prog (A : Type) : Type :=
| Ret (a : A)
| Panic
| Vis {X : Type} (e : FactorE X) (k : X → Prog A).
Arguments Ret {A} a.
Arguments Panic {A}.
Arguments Vis {A X} e k.

Fixpoint bind {A B} (p : Prog A) (f : A → Prog B) : Prog B :=
  match p with
  | Ret a => f a
  | Panic => Panic
  | Vis e k => Vis e (λ x, bind (k x) f)
  end.

Notation "'ask' x ':=' e 'in' k" := (Vis e (λ x, k)) (at level 10, x pattern, e at level 100, k at level 200).

(** ** Codes and parameters *)

Definition TOTP_SEED_BYTES : nat := 20.
Definition RECOVERY_CODE_BYTES : nat := 10.
Definition DEFAULT_TOTP_NAME : text := lit "Authenticator app".

(** The settings the ceremonies read: the parameters of new factors, the drift, the issuer and
    the number of recovery codes. *)
Record FactorConfig : Type := {
  cfg_totp_params : TotpParams; cfg_drift_steps : Z; cfg_issuer : text; cfg_recovery_code_count : nat }.

Definition params_from_material (m : TotpMaterial) : option TotpParams :=
  match totp_algorithm_parse (tm_algorithm m) with
  | None => None
  | Some algorithm =>
      if (tm_digits m <? 0) || (tm_period_secs m <? 0) then None
      else match TotpParams_new algorithm (tm_digits m) (tm_period_secs m) with Ok p => Some p | Err _ => None end
  end.

Definition is_separator (c : ascii) : bool := Ascii.eqb c "-" || Ascii.eqb c " ".

Definition normalize_recovery_code (presented : text) : text := filter (λ c, is_separator c = false) (trim presented).

(** A hyphen before every fourth character but the first. *)
Definition hyphenated_char (index : nat) (ch : Z) : text :=
  if (0 <? index)%nat && (index mod 4 =? 0)%nat then ["-"%char; chr ch] else [chr ch].

(** [generate_recovery_code], from the bytes the entropy seam fills in. *)
Definition recovery_code_of (entropy : text) : text := concat (imap hyphenated_char (base32_encode (code <$> entropy))).

(** [i64::try_from(step).unwrap_or(i64::MAX)] and the recorded drift. *)
Definition matched_step_of (step : Z) : Z := default I64_MAX (i64_try_from step).

Definition i32_try_from (x : Z) : option Z := if (- 2 ^ 31 <=? x) && (x <=? I32_MAX) then Some x else None.

Definition offset_of (params : TotpParams) (now matched_step : Z) : Z :=
  let now_step := default 0 (i64_try_from (timestep params now)) in
  default 0 (i32_try_from (matched_step - now_step)).

(** ** Verification *)

Inductive SecondFactorOutcome : Set := FactorTotp | FactorRecovery | FactorInvalid | FactorUnavailable | FactorError.

(** The loop over the candidates: the first whose hash the pool verifies. *)
Fixpoint first_verified {A} (scope : StoreScope) (presented : text) (candidates : list RecoveryCodeCandidate)
    (rejected : HashRejection → A) (k : option ScopedId → Prog A) : Prog A :=
  match candidates with
  | [] => k None
  | candidate :: rest =>
      ask verified := VerifyPassword scope presented (cand_code_hash candidate) in
      match verified with
      | Ok true => k (Some (cand_id candidate))
      | Ok false => first_verified scope presented rest rejected k
      | Err rejection => Ret (rejected rejection)
      end
  end.

Section Handlers.
Context `{Hmac} `{Base64Url} (cfg : FactorConfig).

Definition recovery_attempt (scope : StoreScope) (subject : ScopedId) (presented : text) : Prog SecondFactorOutcome :=
  let normalized := normalize_recovery_code presented in
  ask found := Read (CandidatesForCode scope subject normalized) in
  match found with
  | Err _ => Ret FactorError
  | Ok candidates =>
      first_verified scope normalized candidates (λ rejection, match rejection with PoolUnavailable => FactorUnavailable | _ => FactorError end)
        (λ matched, match matched with
         | None => Ret FactorInvalid
         | Some id =>
             ask now := NowMicros in
             ask redeemed := Write (Redeem scope subject id now) in
             Ret (match redeemed with Ok Redeemed => FactorRecovery | Ok RedeemNotFound => FactorInvalid | Err _ => FactorError end)
         end)
  end.

Definition verify_second_factor (scope : StoreScope) (subject : ScopedId) (presented : text) : Prog SecondFactorOutcome :=
  ask opened := Read (OpenActiveMaterial scope subject) in
  match opened with
  | Err _ => Ret FactorError
  | Ok None => recovery_attempt scope subject presented
  | Ok (Some material) =>
      match params_from_material material with
      | None => Ret FactorError
      | Some params =>
          ask now := NowSecs in
          match verify_totp (tm_seed material) params now (cfg_drift_steps cfg) (code <$> trim presented) with
          | Returned (Some step) =>
              let matched_step := matched_step_of step in
              ask micros := NowMicros in
              ask recorded := Write (RecordVerification scope subject (tm_id material) matched_step (offset_of params now matched_step) micros) in
              Ret (match recorded with Ok Verified => FactorTotp | Ok Replay | Ok VerifyNotFound => FactorInvalid | Err _ => FactorError end)
          | Returned None => recovery_attempt scope subject presented
          | _ => Panic
          end
      end
  end.

(** The JSON responses of the account endpoints. *)
Inductive Response : Type :=
| VerifiedResponse | RedeemedResponse (remaining : Z) | InvalidCode | InvalidProof | ReauthRequired | NotFoundJson | ServerError
| PoolResponse (r : HashRejection).

(** [verify], once admitted. *)
Definition account_verify (scope : StoreScope) (subject : ScopedId) (presented : text) : Prog Response :=
  ask opened := Read (OpenActiveMaterial scope subject) in
  match opened with
  | Err _ => Ret ServerError
  | Ok None => Ret NotFoundJson
  | Ok (Some material) =>
      match params_from_material material with
      | None => Ret ServerError
      | Some params =>
          ask now := NowSecs in
          match verify_totp (tm_seed material) params now (cfg_drift_steps cfg) (code <$> trim presented) with
          | Returned None => Ret InvalidCode
          | Returned (Some step) =>
              let matched_step := matched_step_of step in
              ask micros := NowMicros in
              ask recorded := Write (RecordVerification scope subject (tm_id material) matched_step (offset_of params now matched_step) micros) in
              Ret (match recorded with Ok Verified => VerifiedResponse | Ok Replay | Ok VerifyNotFound => InvalidCode | Err _ => ServerError end)
          | _ => Panic
          end
      end
  end.

Definition pool_response (rejection : HashRejection) : Response :=
  match rejection with PoolUnavailable => ServerError | _ => PoolResponse rejection end.

(** [recovery_redeem], once admitted. *)
Definition account_redeem (scope : StoreScope) (subject : ScopedId) (presented : text) : Prog Response :=
  let normalized := normalize_recovery_code presented in
  ask found := Read (CandidatesForCode scope subject normalized) in
  match found with
  | Err _ => Ret ServerError
  | Ok candidates =>
      first_verified scope normalized candidates pool_response
        (λ matched, match matched with
         | None => Ret InvalidCode
         | Some id =>
             ask now := NowMicros in
             ask redeemed := Write (Redeem scope subject id now) in
             match redeemed with
             | Ok Redeemed =>
                 ask remaining := Read (RemainingCount scope subject) in
                 Ret (RedeemedResponse (match remaining with Ok n => n | Err _ => 0 end))
             | Ok RedeemNotFound => Ret InvalidCode
             | Err _ => Ret ServerError
             end
         end)
  end.

Definition has_active_totp (scope : StoreScope) (subject : ScopedId) : Prog bool :=
  ask opened := Read (OpenActiveMaterial scope subject) in
  Ret (match opened with Ok (Some _) => true | _ => false end).

(** ** Recovery codes *)

(** The loop that draws and hashes the codes: the codes shown and what is stored of each. *)
Fixpoint draw_codes {A} (scope : StoreScope) (count : nat) (plaintext : list text) (materials : list NewRecoveryCode)
    (rejected : HashRejection → A) (k : list text → list NewRecoveryCode → Prog A) : Prog A :=
  match count with
  | O => k plaintext materials
  | S count =>
      ask entropy := FillBytes RECOVERY_CODE_BYTES in
      let code := recovery_code_of entropy in
      let normalized := normalize_recovery_code code in
      ask hashed := HashPassword scope normalized in
      match hashed with
      | Ok hash => draw_codes scope count (plaintext ++ [code]) (materials ++ [{| normalized_code := normalized; code_hash := hash |}]) rejected k
      | Err rejection => Ret (rejected rejection)
      end
  end.

(** The identifiers of a batch, one draw each; the repository draws them as it inserts. *)
Fixpoint draw_ids {A} (codes : list NewRecoveryCode) (drawn : list (text * NewRecoveryCode)) (k : list (text * NewRecoveryCode) → Prog A) : Prog A :=
  match codes with
  | [] => k drawn
  | c :: rest => ask entropy := FillBytes COMPONENT_BYTES in draw_ids rest (drawn ++ [(entropy, c)]) k
  end.

Definition generate_and_store_recovery_codes (scope : StoreScope) (subject : ScopedId) : Prog (Result (list text) Response) :=
  draw_codes scope (cfg_recovery_code_count cfg) [] [] (λ rejection, Err (pool_response rejection))
    (λ plaintext materials,
       draw_ids materials [] (λ codes,
         ask db_now := DatabaseNow in
         ask stored := Write (ReplaceAll scope subject codes db_now) in
         Ret (match stored with Ok _ => Ok plaintext | Err _ => Err ServerError end))).

(** ** Enrollment *)

Record FlowEnrollBegin : Type := { fb_credential_id : text; fb_otpauth_uri : bytes; fb_secret : bytes }.

Inductive FlowEnrollOutcome : Type := FlowActivated (recovery_codes : list text) | AlreadyEnrolled | FlowInvalid | FlowNotFound | FlowError.

Definition i32_or (fallback x : Z) : Z := default fallback (i32_try_from x).

(** The provisioning material of a seed; the account name is the subject. *)
Definition enroll_begin_of (subject : ScopedId) (credential_id : text) (seed : bytes) (params : TotpParams) : FlowEnrollBegin :=
  {| fb_credential_id := credential_id;
     fb_otpauth_uri := provisioning_uri (code <$> cfg_issuer cfg) (code <$> id_to_string USER_PREFIX subject) seed params;
     fb_secret := grouped_secret seed |}.

(** A day-one key: its identifier, its bytes and the nonce of its wrap; a key that exists is fine. *)
Definition provision (call : text → text → text → StoreWrite ScopedId) (next : Prog (Result unit StoreError)) : Prog (Result unit StoreError) :=
  ask id_entropy := FillBytes COMPONENT_BYTES in
  ask key_entropy := FillBytes KEY_LEN in
  ask nonce := FillBytes NONCE_BYTES in
  ask provisioned := Write (call id_entropy key_entropy nonce) in
  match provisioned with
  | Ok _ | Err StoreConflict => next
  | Err error => Ret (Err error)
  end.

Definition ensure_scope_keys (scope : StoreScope) : Prog (Result unit StoreError) :=
  provision (ProvisionKek scope) (provision (ProvisionDek scope) (Ret (Ok tt))).

(** [ActingTotpCredentialRepo::begin_enroll]: the keys, the identifier, then the transaction,
    which draws the two nonces. *)
Definition begin_enroll_call `{Master} (scope : StoreScope) (subject : ScopedId) (enrollment : NewTotpEnrollment) : Prog (Result ScopedId StoreError) :=
  if bool_decide (id_scope subject ≠ scope) then Ret (Err StoreNotFound)
  else match master with
  | None => Ret (Err StoreEncryption)
  | Some _ =>
      bind (ensure_scope_keys scope) (λ ensured,
        match ensured with
        | Err error => Ret (Err error)
        | Ok _ =>
            ask entropy := FillBytes COMPONENT_BYTES in
            ask seed_nonce := FillBytes NONCE_BYTES in
            ask name_nonce := FillBytes NONCE_BYTES in
            ask db_now := DatabaseNow in
            ask begun := Write (BeginEnroll scope subject enrollment entropy seed_nonce name_nonce db_now) in
            Ret begun
        end)
  end.

Definition flow_enroll_begin `{Master} (scope : StoreScope) (subject : ScopedId) : Prog (Result FlowEnrollBegin unit) :=
  ask seed := FillBytes TOTP_SEED_BYTES in
  let params := cfg_totp_params cfg in
  let enrollment := {| en_seed := code <$> seed; en_friendly_name := DEFAULT_TOTP_NAME; en_algorithm := totp_algorithm_as_str (totp_algorithm params);
                       en_digits := i32_or 6 (totp_digits params); en_period_secs := i32_or 30 (totp_period params) |} in
  bind (begin_enroll_call scope subject enrollment) (λ begun,
    Ret (match begun with
         | Ok id => Ok (enroll_begin_of subject (id_to_string TOTP_PREFIX id) (code <$> seed) params)
         | Err _ => Err tt
         end)).

Definition flow_enroll_material (scope : StoreScope) (subject : ScopedId) (credential_id : text) : Prog (option FlowEnrollBegin) :=
  match parse_in_scope TOTP_PREFIX credential_id scope with
  | Err _ => Ret None
  | Ok id =>
      ask opened := Read (OpenMaterial scope subject id) in
      match opened with
      | Ok (Some material) =>
          if String.eqb (tm_status material) "pending" then
            Ret (enroll_begin_of subject credential_id (tm_seed material) <$> params_from_material material)
          else Ret None
      | _ => Ret None
      end
  end.

Definition flow_enroll_verify (scope : StoreScope) (subject : ScopedId) (credential_id presented : text) : Prog FlowEnrollOutcome :=
  match parse_in_scope TOTP_PREFIX credential_id scope with
  | Err _ => Ret FlowNotFound
  | Ok id =>
      ask opened := Read (OpenMaterial scope subject id) in
      match opened with
      | Err _ => Ret FlowError
      | Ok None => Ret FlowNotFound
      | Ok (Some material) =>
          if negb (String.eqb (tm_status material) "pending") then Ret FlowNotFound
          else match params_from_material material with
          | None => Ret FlowError
          | Some params =>
              ask now := NowSecs in
              match verify_totp (tm_seed material) params now (cfg_drift_steps cfg) (code <$> trim presented) with
              | Returned None => Ret FlowInvalid
              | Returned (Some step) =>
                  ask micros := NowMicros in
                  ask activated := Write (Activate scope subject id (matched_step_of step) micros) in
                  match activated with
                  | Ok AlreadyActive => Ret AlreadyEnrolled
                  | Ok ActivateNotFound => Ret FlowNotFound
                  | Err _ => Ret FlowError
                  | Ok Activated =>
                      bind (generate_and_store_recovery_codes scope subject)
                        (λ generated, Ret (match generated with Ok codes => FlowActivated codes | Err _ => FlowError end))
                  end
              | _ => Panic
              end
          end
      end
  end.

(** ** The proof that regenerating the codes asks for *)

Record RecoveryRegenerateBody : Type := { rb_password : option text; rb_totp_code : option text; rb_recovery_code : option text }.

Inductive FreshAuthMethod : Set := FreshPassword | FreshTotp | FreshRecoveryCode.

Definition FreshAuthMethod_as_str (m : FreshAuthMethod) : string :=
  match m with FreshPassword => "password" | FreshTotp => "totp" | FreshRecoveryCode => "recovery_code" end.

Definition non_empty_text (s : text) : option text := match s with [] => None | _ => Some s end.

(** The last proof: an unconsumed recovery code. *)
Definition fresh_recovery (scope : StoreScope) (subject : ScopedId) (raw : option text) (provided : bool) : Prog (Result FreshAuthMethod Response) :=
  let refuse provided := Ret (Err (if provided : bool then InvalidProof else ReauthRequired)) in
  match raw ≫= λ raw, non_empty_text (normalize_recovery_code raw) with
  | None => refuse provided
  | Some normalized =>
      ask found := Read (CandidatesForCode scope subject normalized) in
      match found with
      | Err _ => Ret (Err ServerError)
      | Ok candidates =>
          first_verified scope normalized candidates (λ rejection, Err (pool_response rejection))
            (λ matched, match matched with Some _ => Ret (Ok FreshRecoveryCode) | None => refuse true end)
      end
  end.

(** The second proof: a current TOTP code, which is not consumed. *)
Definition fresh_totp (scope : StoreScope) (subject : ScopedId) (body : RecoveryRegenerateBody) (provided : bool) : Prog (Result FreshAuthMethod Response) :=
  match rb_totp_code body ≫= λ c, non_empty_text (trim c) with
  | None => fresh_recovery scope subject (rb_recovery_code body) provided
  | Some presented =>
      ask opened := Read (OpenActiveMaterial scope subject) in
      match opened with
      | Err _ => Ret (Err ServerError)
      | Ok None => fresh_recovery scope subject (rb_recovery_code body) true
      | Ok (Some material) =>
          match params_from_material material with
          | None => Ret (Err ServerError)
          | Some params =>
              ask now := NowSecs in
              match verify_totp (tm_seed material) params now (cfg_drift_steps cfg) (code <$> presented) with
              | Returned (Some _) => Ret (Ok FreshTotp)
              | Returned None => fresh_recovery scope subject (rb_recovery_code body) true
              | _ => Panic
              end
          end
      end
  end.

Definition verify_fresh_auth (scope : StoreScope) (subject : ScopedId) (body : RecoveryRegenerateBody) : Prog (Result FreshAuthMethod Response) :=
  match rb_password body ≫= non_empty_text with
  | None => fresh_totp scope subject body false
  | Some password =>
      ask stored := PasswordHashForSubject scope subject in
      match stored with
      | Err _ => Ret (Err ServerError)
      | Ok None => fresh_totp scope subject body true
      | Ok (Some hash) =>
          ask verified := VerifyPassword scope password hash in
          match verified with
          | Ok true => Ret (Ok FreshPassword)
          | Ok false => fresh_totp scope subject body true
          | Err rejection => Ret (Err (pool_response rejection))
          end
      end
  end.

(** [recovery_regenerate], once admitted: the proof, then a new set. *)
Definition account_regenerate (scope : StoreScope) (subject : ScopedId) (body : RecoveryRegenerateBody) :
    Prog (Result (list text * FreshAuthMethod) Response) :=
  bind (verify_fresh_auth scope subject body) (λ proof,
    match proof with
    | Err response => Ret (Err response)
    | Ok method =>
        bind (generate_and_store_recovery_codes scope subject) (λ generated,
          Ret (match generated with Ok codes => Ok (codes, method) | Err response => Err response end))
    end).
End Handlers.

(** ** The factor plan *)

Record FactorStep : Type := { fs_factor : string; fs_enrolled : bool }.
Record MfaPlan : Type := { plan_steps : list FactorStep; plan_enrollment_required : bool }.

Definition build_mfa_plan (order : list string) (has_passkey has_totp mfa_required : bool) : MfaPlan :=
  {| plan_steps := (λ factor,
       {| fs_factor := factor;
          fs_enrolled := if String.eqb factor "passkey" then has_passkey else if String.eqb factor "totp" then has_totp else true |}) <$> order;
     plan_enrollment_required := mfa_required && negb (has_passkey || has_totp) |}.

(** ** Interleavings *)

(** An answered call. *)
Inductive Entry : Type :=
| Asked {X : Type} (e : FactorE X) (x : X).

Section Semantics.
Context `{Hmac} `{Aead} `{Base64Url} `{Master} `{RowOrder}.

(** What is known of an answer whatever the state: the row that was asked for, the width of
    the clock, the length of the entropy. *)
Definition read_ok {A} (q : StoreRead A) : Result A StoreError → Prop :=
  match q in StoreRead A return Result A StoreError → Prop with
  | OpenMaterial _ _ id => λ answer, ∀ m, answer = Ok (Some m) → tm_id m = id
  | _ => λ _, True
  end.

Definition answer_ok {X} (e : FactorE X) : X → Prop :=
  match e in FactorE X return X → Prop with
  | Read q => read_ok q
  | NowSecs => λ now, is_u64 now
  | FillBytes n => λ entropy, length entropy = n
  | _ => λ _, True
  end.

(** A call by [owner], the answer it may get and the state after it. *)
Definition answers {X} (owner : option nat) (e : FactorE X) (w : World) : X → World → Prop :=
  match e in FactorE X return X → World → Prop with
  | Write c => λ answer w', write_step owner c w answer w'
  | Read q => λ answer w', w' = w ∧ (answer = query q (w_db w) ∨ ∃ error, answer = Err error)
  | e => λ answer w', w' = w ∧ answer_ok e answer
  end.

(** The requests served, and their replies. *)
Inductive Request : Type :=
| StepUpChallenge (scope : StoreScope) (subject : ScopedId) (presented : text)
| AccountVerify (scope : StoreScope) (subject : ScopedId) (presented : text)
| AccountRedeem (scope : StoreScope) (subject : ScopedId) (presented : text)
| ConfirmEnrollment (scope : StoreScope) (subject : ScopedId) (credential_id presented : text).

Inductive Reply : Type := SecondFactorReply (o : SecondFactorOutcome) | AccountReply (r : Response) | EnrollReply (o : FlowEnrollOutcome).

Definition handler (cfg : FactorConfig) (r : Request) : Prog Reply :=
  match r with
  | StepUpChallenge scope subject presented => bind (verify_second_factor cfg scope subject presented) (λ o, Ret (SecondFactorReply o))
  | AccountVerify scope subject presented => bind (account_verify cfg scope subject presented) (λ o, Ret (AccountReply o))
  | AccountRedeem scope subject presented => bind (account_redeem scope subject presented) (λ o, Ret (AccountReply o))
  | ConfirmEnrollment scope subject credential_id presented =>
      bind (flow_enroll_verify cfg scope subject credential_id presented) (λ o, Ret (EnrollReply o))
  end.

Record Thread : Type := mkThread { th_request : Request; th_prog : Prog Reply; th_log : list Entry }.

Record Pool : Type := mkPool { threads : list Thread; world : World }.

(** One step: a request arrives, a request makes its next call, or any other part of the
    system calls the store. *)
Inductive pool_step (cfg : FactorConfig) : Pool → Pool → Prop :=
| pool_arrives ts w r : pool_step cfg (mkPool ts w) (mkPool (ts ++ [mkThread r (handler cfg r) []]) w)
| pool_calls ts w w' i r X (e : FactorE X) k log x :
    ts !! i = Some (mkThread r (Vis e k) log) → answers (Some i) e w x w' →
    pool_step cfg (mkPool ts w) (mkPool (<[i := mkThread r (k x) (log ++ [Asked e x])]> ts) w')
| pool_other ts w w' X (e : FactorE X) x : answers None e w x w' → pool_step cfg (mkPool ts w) (mkPool ts w').

(** What the calls of a request consumed, as acknowledged to it. *)
Definition entry_consumes (en : Entry) : list Spend :=
  match en with
  | Asked e x =>
      match e in FactorE X return X → list Spend with
      | Write c => λ answer, match answer with Ok a => consumes c a | Err _ => [] end
      | _ => λ _, []
      end x
  end.

Definition consumed (log : list Entry) : list Spend := concat (entry_consumes <$> log).

Definition succeeded (r : Reply) : bool :=
  match r with
  | SecondFactorReply FactorTotp | SecondFactorReply FactorRecovery | AccountReply VerifiedResponse
  | AccountReply (RedeemedResponse _) | EnrollReply (FlowActivated _) => true
  | _ => false
  end.

(** *** Programs one at a time *)

(** Whatever the answers, the program ends with a log and a result in [Q]. *)
Fixpoint always {A} (Q : list Entry → A → Prop) (log : list Entry) (p : Prog A) : Prop :=
  match p with
  | Ret a => Q log a
  | Panic => False
  | Vis e k => ∀ x, answer_ok e x → always Q (log ++ [Asked e x]) (k x)
  end.

Lemma always_bind {A B} (Q : list Entry → B → Prop) (f : A → Prog B) (p : Prog A) :
  ∀ log, always (λ log a, always Q log (f a)) log p → always Q log (bind p f).
Proof. induction p as [a| |X e k IH]; intros log Hp; simpl in *; [done|done|]. intros x Hx. by apply IH, Hp. Qed.

Lemma always_mono {A} (Q Q' : list Entry → A → Prop) (p : Prog A) : ∀ log,
  (∀ log' a, log `prefix_of` log' → Q log' a → Q' log' a) → always Q log p → always Q' log p.
Proof.
  induction p as [a| |X e k IH]; intros log HQ Hp; simpl in *; [by apply HQ|done|]. intros x Hx. apply IH; [|by apply Hp].
  intros log' a Hpre. apply HQ. etrans; [|done]. by apply prefix_app_r.
Qed.

Lemma consumed_app log log' : consumed (log ++ log') = consumed log ++ consumed log'.
Proof. unfold consumed. by rewrite fmap_app, concat_app. Qed.

Lemma consumed_snoc log {X} (e : FactorE X) x : consumed (log ++ [Asked e x]) = consumed log ++ entry_consumes (Asked e x).
Proof. rewrite consumed_app. unfold consumed at 2. rewrite fmap_cons. simpl. by rewrite app_nil_r. Qed.

(** Calls that consumed nothing. *)
Definition quiet (log log' : list Entry) : Prop := (∀ en, en ∈ log → en ∈ log') ∧ consumed log' = consumed log.

#[export] Instance quiet_preorder : PreOrder quiet.
Proof. split; [by split|]. intros l1 l2 l3 [Ha Ea] [Hb Eb]. split; [auto|congruence]. Qed.

Lemma quiet_snoc log {X} (e : FactorE X) x : entry_consumes (Asked e x) = [] → quiet log (log ++ [Asked e x]).
Proof. intros He. split; [set_solver|]. by rewrite consumed_snoc, He, app_nil_r. Qed.

Lemma always_ask_quiet {A X} (Q : list Entry → A → Prop) log (e : FactorE X) k :
  (∀ x, entry_consumes (Asked e x) = []) →
  (∀ x log', answer_ok e x → quiet log log' → Asked e x ∈ log' → always Q log' (k x)) → always Q log (Vis e k).
Proof. intros He Hk x Hx. apply Hk; [done|by apply quiet_snoc|set_solver]. Qed.

Lemma always_first_verified {A} (Q : list Entry → A → Prop) scope presented rejected k candidates : ∀ log,
  (∀ rejection log', quiet log log' → Q log' (rejected rejection)) → (∀ log', quiet log log' → always Q log' (k None)) →
  (∀ c log', c ∈ candidates → quiet log log' → Asked (VerifyPassword scope presented (cand_code_hash c)) (Ok true) ∈ log' →
     always Q log' (k (Some (cand_id c)))) →
  always Q log (first_verified scope presented candidates rejected k).
Proof.
  induction candidates as [|c candidates IH]; intros log Hr Hn Hs; cbn [first_verified]; [by apply Hn|].
  apply always_ask_quiet; [done|]. intros [[]|rejection] log' _ Hq Hin.
  - apply Hs; [set_solver|done|done].
  - apply IH.
    + intros rejection log'' Hq'. apply Hr. by etrans.
    + intros log'' Hq'. apply Hn. by etrans.
    + intros c' log'' Hc' Hq'. apply Hs; [set_solver|by etrans].
  - by apply Hr.
Qed.

Lemma params_from_material_ok m p : params_from_material m = Some p → params_ok p.
Proof.
  unfold params_from_material. destruct (totp_algorithm_parse _); [|done]. destruct (_ || _); [done|].
  destruct (TotpParams_new _ _ _) eqn:Hn; [|done]. intros [= <-]. by apply TotpParams_new_ok in Hn.
Qed.

(** ** What a success rests on *)

Definition cfg_ok (cfg : FactorConfig) : Prop := 0 ≤ cfg_drift_steps cfg ≤ U32_MAX.

Definition matching_step (cfg : FactorConfig) (m : TotpMaterial) (presented : text) (step : Z) : Prop :=
  ∃ params now, params_from_material m = Some params ∧ is_u64 now ∧ in_window params now (cfg_drift_steps cfg) step ∧
    code_for_timestep (tm_seed m) params step = Returned (code <$> trim presented).

Lemma matched_step_exact cfg m presented step : cfg_ok cfg → matching_step cfg m presented step → matched_step_of step = step.
Proof.
  intros Hcfg (params & now & Hp & Hn & [Hw _] & _). apply params_from_material_ok in Hp as [_ Hper].
  unfold cfg_ok, is_u64, U64_MAX, U32_MAX in *. unfold matched_step_of, i64_try_from, I64_MAX, timestep in *.
  assert (now / totp_period params ≤ 2 ^ 64 / 15) as Hq.
  { etrans; [apply Z.div_le_compat_l with (q := 15); lia|]. apply Z.div_le_mono; lia. }
  assert (2 ^ 64 / 15 = 1229782938247303441) as Hc by reflexivity. by rewrite (proj2 (Z.leb_le _ _)) by lia.
Qed.

Section Evidence.
Context `{!HmacLaws} `{!AeadLaws} (cfg : FactorConfig) (Hcfg : cfg_ok cfg).

(** The decision on a presented code: a matching step or none, and never a panic. *)
Lemma always_verify {A} (Q : list Entry → A → Prop) log m params now presented (matched : Z → Prog A) (unmatched : Prog A) :
  params_from_material m = Some params → is_u64 now →
  (∀ step, matching_step cfg m presented step → always Q log (matched step)) → always Q log unmatched →
  always Q log (match verify_totp (tm_seed m) params now (cfg_drift_steps cfg) (code <$> trim presented) with
    | Returned (Some step) => matched step | Returned None => unmatched | _ => Panic end).
Proof.
  intros Hp Hn Hs Hu. destruct (verify_totp_spec (tm_seed m) params now (cfg_drift_steps cfg) (code <$> trim presented)) as (r & -> & Hr);
    [by eapply params_from_material_ok|done|apply Hcfg|]. destruct r as [step|]; [|done]. apply Hs. exists params, now. naive_solver.
Qed.

Definition opened_as (scope : StoreScope) (subject : ScopedId) (m : TotpMaterial) (log : list Entry) : Prop :=
  Asked (Read (OpenActiveMaterial scope subject)) (Ok (Some m)) ∈ log ∨
  ∃ id, Asked (Read (OpenMaterial scope subject id)) (Ok (Some m)) ∈ log.

(** A time-step consumed: the presented text is the code of that step under the seed that was opened for the subject. *)
Definition totp_evidence (scope : StoreScope) (subject : ScopedId) (presented : text) (log : list Entry) (s : Spend) : Prop :=
  ∃ m step, opened_as scope subject m log ∧ matching_step cfg m presented step ∧ s = SpentStep (tm_id m) step.

(** A recovery code consumed: the pool verified the presented text against the hash of a candidate of the subject. *)
Definition recovery_evidence (scope : StoreScope) (subject : ScopedId) (presented : text) (log : list Entry) (s : Spend) : Prop :=
  ∃ candidates c, Asked (Read (CandidatesForCode scope subject (normalize_recovery_code presented))) (Ok candidates) ∈ log ∧ c ∈ candidates ∧
    Asked (VerifyPassword scope (normalize_recovery_code presented) (cand_code_hash c)) (Ok true) ∈ log ∧ s = SpentCode (cand_id c).

(** What a finished request has consumed, and on what ground. *)
Definition reply_ok (r : Request) (log : list Entry) (reply : Reply) : Prop :=
  match reply with
  | SecondFactorReply FactorTotp | AccountReply VerifiedResponse | EnrollReply (FlowActivated _) =>
      ∃ s scope subject presented, consumed log = [s] ∧ totp_evidence scope subject presented log s ∧
        (r = StepUpChallenge scope subject presented ∨ r = AccountVerify scope subject presented ∨
         ∃ credential_id, r = ConfirmEnrollment scope subject credential_id presented)
  | SecondFactorReply FactorRecovery | AccountReply (RedeemedResponse _) =>
      ∃ s scope subject presented, consumed log = [s] ∧ recovery_evidence scope subject presented log s ∧
        (r = StepUpChallenge scope subject presented ∨ r = AccountRedeem scope subject presented)
  | EnrollReply FlowError => True
  | _ => consumed log = []
  end.

Lemma always_recovery {A} (Q : list Entry → A → Prop) scope subject presented rejected error none (answer : Result RecoveryRedeemOutcome StoreError → Prog A) log :
  consumed log = [] → (∀ log', consumed log' = [] → Q log' error ∧ Q log' none ∧ ∀ rejection, Q log' (rejected rejection)) →
  (∀ log' redeemed, (redeemed = Ok Redeemed → ∃ s, consumed log' = [s] ∧ recovery_evidence scope subject presented log' s) →
     (redeemed ≠ Ok Redeemed → consumed log' = []) → always Q log' (answer redeemed)) →
  always Q log (ask found := Read (CandidatesForCode scope subject (normalize_recovery_code presented)) in
    match found with
    | Err _ => Ret error
    | Ok candidates => first_verified scope (normalize_recovery_code presented) candidates rejected
        (λ matched, match matched with
         | None => Ret none
         | Some id => ask now := NowMicros in ask redeemed := Write (Redeem scope subject id now) in answer redeemed
         end)
    end).
Proof.
  intros Hc Hfail Hans. apply always_ask_quiet; [done|]. intros [candidates|e] log1 _ [Hsub1 Hq1] Hin1; rewrite Hc in Hq1; [|by apply Hfail].
  apply always_first_verified; [intros rejection log2 [_ Hq2]; apply Hfail; congruence|intros log2 [_ Hq2]; apply Hfail; congruence|].
  intros c log2 Hcand [Hsub2 Hq2] Hv. apply always_ask_quiet; [done|]. intros now log3 _ [Hsub3 Hq3] _. intros redeemed _.
  apply Hans; [intros ->|intros Hne]; rewrite consumed_snoc, Hq3, Hq2, Hq1; [|by destruct redeemed as [[]|]].
  eexists. split; [done|]. exists candidates, c. split; [set_solver|]. split; [done|]. split; [set_solver|done].
Qed.

Lemma always_record {A} (Q : list Entry → A → Prop) scope subject presented m step offset (answer : Result TotpVerifyOutcome StoreError → Prog A) log :
  consumed log = [] → opened_as scope subject m log → matching_step cfg m presented step →
  (∀ log' recorded, (recorded = Ok Verified → ∃ s, consumed log' = [s] ∧ totp_evidence scope subject presented log' s) →
     (recorded ≠ Ok Verified → consumed log' = []) → always Q log' (answer recorded)) →
  always Q log (ask micros := NowMicros in
    ask recorded := Write (RecordVerification scope subject (tm_id m) (matched_step_of step) offset micros) in answer recorded).
Proof.
  intros Hc Hopen Hm Hans. apply always_ask_quiet; [done|]. intros micros log1 _ [Hsub Hq] _ recorded _.
  apply Hans; [intros ->|intros Hne]; rewrite consumed_snoc, Hq, Hc; [|by destruct recorded as [[]|]].
  eexists. split; [done|]. exists m, step. split; [|split; [done|]].
  - destruct Hopen as [Ho|[id Ho]]; [left|right; exists id]; set_solver.
  - simpl. by rewrite (matched_step_exact cfg m presented).
Qed.

Lemma always_draw_codes {A} (Q : list Entry → A → Prop) scope count : ∀ plaintext materials rejected k log,
  (∀ rejection log', quiet log log' → Q log' (rejected rejection)) → (∀ plaintext materials log', quiet log log' → always Q log' (k plaintext materials)) →
  always Q log (draw_codes scope count plaintext materials rejected k).
Proof.
  induction count as [|count IH]; intros plaintext materials rejected k log Hr Hk; cbn [draw_codes]; [by apply Hk|].
  apply always_ask_quiet; [done|]. intros entropy log1 _ Hq1 _. apply always_ask_quiet; [done|]. intros [hash|rejection] log2 _ Hq2 _.
  - apply IH; intros; [apply Hr|apply Hk]; by repeat (etrans; [eassumption|]).
  - apply Hr. by etrans.
Qed.

Lemma always_draw_ids {A} (Q : list Entry → A → Prop) codes : ∀ drawn k log,
  (∀ drawn log', quiet log log' → always Q log' (k drawn)) → always Q log (draw_ids codes drawn k).
Proof.
  induction codes as [|c codes IH]; intros drawn k log Hk; cbn [draw_ids]; [by apply Hk|].
  apply always_ask_quiet; [done|]. intros entropy log1 _ Hq1 _. apply IH. intros. apply Hk. by etrans.
Qed.

(** Drawing and storing recovery codes consumes none. *)
Lemma generate_quiet scope subject log : always (λ log' _, quiet log log') log (generate_and_store_recovery_codes cfg scope subject).
Proof.
  apply always_draw_codes; [done|]. intros plaintext materials log1 Hq1. apply always_draw_ids. intros drawn log2 Hq2.
  apply always_ask_quiet; [done|]. intros db_now log3 _ Hq3 _. apply always_ask_quiet; [by intros []|]. intros stored log4 _ Hq4 _.
  simpl. by repeat (etrans; [eassumption|]).
Qed.

Lemma recovery_attempt_always scope subject presented log : consumed log = [] →
  always (λ log o, reply_ok (StepUpChallenge scope subject presented) log (SecondFactorReply o)) log (recovery_attempt scope subject presented).
Proof.
  intros Hc. apply always_recovery; [done|intros log' Hc'; split; [done|]; split; [done|]; by intros []|].
  intros log' [[]|e] Hyes Hno; [|by apply Hno..]. destruct (Hyes eq_refl) as (s & Hs & Hev). exists s, scope, subject, presented. auto.
Qed.

Lemma step_up_always scope subject presented :
  always (λ log o, reply_ok (StepUpChallenge scope subject presented) log (SecondFactorReply o)) [] (verify_second_factor cfg scope subject presented).
Proof.
  apply always_ask_quiet; [done|]. intros [[m|]|e] log1 _ [_ Hq1] Hin; [|by apply recovery_attempt_always|done].
  destruct (params_from_material m) as [params|] eqn:Hp; [|done]. apply always_ask_quiet; [done|]. intros now log2 Hnow [Hsub Hq2] _.
  rewrite Hq1 in Hq2. apply always_verify; [done|done| |by apply recovery_attempt_always]. intros step Hm.
  eapply always_record; [done|left; by apply Hsub|done|].
  intros log' [[]|e] Hyes Hno; [|by apply Hno..]. destruct (Hyes eq_refl) as (s & Hs & Hev). exists s, scope, subject, presented. auto.
Qed.

Lemma account_verify_always scope subject presented :
  always (λ log o, reply_ok (AccountVerify scope subject presented) log (AccountReply o)) [] (account_verify cfg scope subject presented).
Proof.
  apply always_ask_quiet; [done|]. intros [[m|]|e] log1 _ [_ Hq1] Hin; [|done|done].
  destruct (params_from_material m) as [params|] eqn:Hp; [|done]. apply always_ask_quiet; [done|]. intros now log2 Hnow [Hsub Hq2] _.
  rewrite Hq1 in Hq2. apply always_verify; [done|done| |done]. intros step Hm.
  eapply always_record; [done|left; by apply Hsub|done|].
  intros log' [[]|e] Hyes Hno; [|by apply Hno..]. destruct (Hyes eq_refl) as (s & Hs & Hev). exists s, scope, subject, presented. auto.
Qed.

Lemma account_redeem_always scope subject presented :
  always (λ log o, reply_ok (AccountRedeem scope subject presented) log (AccountReply o)) [] (account_redeem scope subject presented).
Proof.
  apply always_recovery; [done|intros log' Hc'; split; [done|]; split; [done|]; by intros []|].
  intros log' [[]|e] Hyes Hno; [|by apply Hno..]. destruct (Hyes eq_refl) as (s & Hs & Hev). apply always_ask_quiet; [done|].
  intros remaining log2 _ [Hsub Hq] _. exists s, scope, subject, presented. split; [congruence|]. split; [|auto].
  destruct Hev as (candidates & c & Hin & Hc & Hv & ->). exists candidates, c. auto.
Qed.

Lemma enroll_always scope subject credential_id presented :
  always (λ log o, reply_ok (ConfirmEnrollment scope subject credential_id presented) log (EnrollReply o)) []
    (flow_enroll_verify cfg scope subject credential_id presented).
Proof.
  unfold flow_enroll_verify. destruct (parse_in_scope _ _ _) as [id|]; [|done]. apply always_ask_quiet; [done|].
  intros [[m|]|e] log1 Hread [_ Hq1] Hin; [|done|done]. destruct (negb _); [done|].
  destruct (params_from_material m) as [params|] eqn:Hp; [|done]. apply always_ask_quiet; [done|]. intros now log2 Hnow [Hsub Hq2] _.
  rewrite Hq1 in Hq2. apply always_verify; [done|done| |done]. intros step Hm. apply always_ask_quiet; [done|].
  intros micros log3 _ [Hsub3 Hq3] _ activated _. assert (tm_id m = id) as <- by (by apply Hread).
  destruct activated as [[]|e]; [|by simpl; rewrite consumed_snoc, Hq3, Hq2..|done].
  apply always_bind. eapply always_mono; [|apply generate_quiet]. intros log' [codes|r] _ [Hsub' Hq']; simpl; [|done].
  rewrite consumed_snoc, Hq3, Hq2 in Hq'. simpl in Hq'. rewrite (matched_step_exact cfg m presented step) in Hq' by done.
  exists (SpentStep (tm_id m) step), scope, subject, presented. split; [done|]. split; [|by right; right; exists credential_id].
  exists m, step. split; [|done]. right. exists (tm_id m). set_solver.
Qed.

Lemma handler_always r : always (reply_ok r) [] (handler cfg r).
Proof.
  destruct r; apply always_bind; simpl;
    [apply step_up_always|apply account_verify_always|apply account_redeem_always|apply enroll_always].
Qed.

(** ** The pool *)

Lemma answers_ok {X} owner (e : FactorE X) w x w' : answers owner e w x w' → answer_ok e x.
Proof.
  destruct e as [|A q| | | | | | | ]; simpl; try done; try naive_solver. intros [_ [-> | [error ->]]]; destruct q; simpl; try done.
  intros m Hm. by apply open_material_id in Hm.
Qed.

(** Material that was read is that of the subject's row for as long as the row exists. *)
Definition material_current (w : World) (scope : StoreScope) (subject : ScopedId) (m : TotpMaterial) : Prop :=
  tm_id m ∈ w_issued w ∧ ∀ r, totp_credentials (w_db w) !! tm_id m = Some r →
    owned scope subject r ∧ (∃ mk, master = Some mk ∧ seed_reads mk (key_tables (w_db w)) (tm_id m) r (tm_seed m)) ∧
    tm_algorithm m = tr_algorithm r ∧ tm_digits m = tr_digits r ∧ tm_period_secs m = tr_period_secs r.

Definition read_holds {A} (w : World) (q : StoreRead A) : Result A StoreError → Prop :=
  match q in StoreRead A return Result A StoreError → Prop with
  | OpenMaterial scope subject _ | OpenActiveMaterial scope subject =>
      λ answer, match answer with Ok (Some m) => material_current w scope subject m | _ => True end
  | _ => λ _, True
  end.

(** What an answered call of request [i] says of the present. *)
Definition entry_holds (i : nat) (w : World) (en : Entry) : Prop :=
  match en with
  | Asked e x =>
      match e in FactorE X return X → Prop with
      | Write c => λ answer, match answer with Ok a => ∀ s, s ∈ consumes c a → (Some i, s) ∈ w_spent w | Err _ => True end
      | Read q => read_holds w q
      | _ => λ _, True
      end x
  end.

Lemma entry_holds_consumed i w en s : entry_holds i w en → s ∈ entry_consumes en → (Some i, s) ∈ w_spent w.
Proof. destruct en as [X e x]. destruct e; simpl; try (intros _ []%elem_of_nil). destruct x; [by auto|intros _ []%elem_of_nil]. Qed.

Lemma material_current_write {A} owner (c : StoreWrite A) w answer w' scope subject m : world_ok w → write_step owner c w answer w' →
  material_current w scope subject m → material_current w' scope subject m.
Proof.
  intros Hw Hstep [Hi Hm]. pose proof (write_step_fresh _ _ _ _ _ Hw Hstep) as Hfresh. destruct Hstep as (Hnew & fault & Hrun & Hiss & _).
  split; [rewrite Hiss; set_solver|]. intros r' Hr'. apply run_tx_cases in Hrun as [(Heq & _)|(a & Htx & _)]; [rewrite Heq in *; by apply Hm|].
  destruct (tx_evolves c _ _ _ Htx Hfresh) as [Ht _]. destruct (Ht _ _ Hr') as [[Hin _]|(r & Hr & Hf & _)]; [by destruct (Hnew _ Hin)|].
  apply Hm in Hr as (Ho & (mk & Hmk & Hseed) & Hrest). pose proof Hf as Hf'. injection Hf' as E1 E2 E3 E4 E5 E6 E7 E8. unfold owned in *.
  rewrite <-E1, <-E2, <-E6, <-E7, <-E8. split; [done|]. split; [|done]. exists mk. split; [done|]. eapply seed_reads_frozen; [exact Hf|].
  eapply column_reads_evolve; [|exact Hseed]. eapply tx_keys; [done..|]. destruct Hw as [(_ & _ & Hsealed) _]. by apply Hsealed.
Qed.

Lemma open_where_current w scope subject id m : world_ok w → open_material_where scope subject id (w_db w) = Ok (Some m) → material_current w scope subject m.
Proof.
  intros (_ & Hdom & _) (mk & r & Hm & Hr & Hown & _ & Hopen & Heq)%open_where_Some. split; [apply Hdom; by left; exists r|]. intros r' Hr'.
  rewrite Hr in Hr'. injection Hr' as <-. split; [done|]. split; [|rewrite Heq; done]. exists mk. split; [done|]. destruct Hown as [<- _].
  by apply opened_column_reads.
Qed.

Lemma answers_world {X} owner (e : FactorE X) w x w' : world_ok w → answers owner e w x w' →
  world_ok w' ∧ ∀ i en, entry_holds i w en → entry_holds i w' en.
Proof.
  intros Hw Ha. destruct e as [A c| | | | | | | | ]; try (simpl in Ha; by destruct Ha as [-> _]). simpl in Ha. split; [by eapply write_step_ok|].
  intros i [X' e' x']. destruct e' as [A' c'|A' q'| | | | | | | ]; simpl; try done.
  - destruct x' as [a|]; [|done]. intros Hs s Hin. eapply write_step_keeps; [done|]. by apply Hs.
  - destruct q'; simpl; try done; (destruct x' as [[m|]|]; [|done..]); by eapply material_current_write.
Qed.

Lemma answers_entry {X} i (e : FactorE X) w x w' : world_ok w → answers (Some i) e w x w' → entry_holds i w' (Asked e x).
Proof.
  intros Hw Ha. destruct e as [A c|A q| | | | | | | ]; try done.
  - simpl in *. destruct x as [a|]; [|done]. by eapply write_step_acknowledged.
  - simpl in *. destruct Ha as [-> [-> | [error ->]]]; [|by destruct q]. destruct q; simpl; try done.
    + destruct (open_material _ _ _ _) as [[m|]|] eqn:Ho; [|done..]. unfold open_material in Ho. destruct (_ || _); [done|]. by eapply open_where_current.
    + destruct (open_active_material _ _ _) as [[m|]|] eqn:Ho; [|done..]. unfold open_active_material in Ho. case_bool_decide; [done|]. by eapply open_where_current.
Qed.

Definition thread_ok (i : nat) (w : World) (t : Thread) : Prop :=
  always (reply_ok (th_request t)) (th_log t) (th_prog t) ∧ Forall (entry_holds i w) (th_log t).

Definition pool_ok (p : Pool) : Prop := world_ok (world p) ∧ ∀ i t, threads p !! i = Some t → thread_ok i (world p) t.

Lemma thread_ok_mono i w w' t : (∀ i en, entry_holds i w en → entry_holds i w' en) → thread_ok i w t → thread_ok i w' t.
Proof. intros Hmono [Hal Hlog]. split; [done|]. eapply Forall_impl; [done|]. apply Hmono. Qed.

Lemma pool_step_ok p p' : pool_ok p → pool_step cfg p p' → pool_ok p'.
Proof.
  intros [Hw Hts] Hstep. destruct Hstep as [ts w r|ts w w' i r X e k log x Hi Ha|ts w w' X e x Ha]; simpl in *.
  - split; [done|]. intros i t Hi. apply lookup_app_Some in Hi as [Hi|[_ Hi]]; [by apply Hts|]. apply list_lookup_singleton_Some in Hi as [_ <-].
    split; [apply handler_always|constructor].
  - destruct (answers_world _ _ _ _ _ Hw Ha) as [Hw' Hmono]. pose proof (answers_entry _ _ _ _ _ Hw Ha) as Hen. apply answers_ok in Ha.
    split; [done|]. cbn [threads]. intros j t Hj. destruct (decide (j = i)) as [-> | Hne].
    + rewrite list_lookup_insert_eq in Hj by (eapply lookup_lt_Some, Hi). injection Hj as <-. destruct (Hts i _ Hi) as [Hal Hlog].
      split; [by apply Hal|]. apply Forall_app. split; [eapply Forall_impl; [done|apply Hmono]|]. by constructor.
    + rewrite list_lookup_insert_ne in Hj by done. eapply thread_ok_mono; [done|]. by apply Hts.
  - destruct (answers_world _ _ _ _ _ Hw Ha) as [Hw' Hmono]. split; [done|]. intros i t Hi. eapply thread_ok_mono; [done|]. by apply Hts.
Qed.

Lemma pool_reachable_ok p p' : pool_ok p → rtc (pool_step cfg) p p' → pool_ok p'.
Proof. intros Hok Hr. induction Hr as [|p q p' Hpq _ IH]; [done|]. apply IH. by eapply pool_step_ok. Qed.

Lemma thread_consumed i w t s : thread_ok i w t → s ∈ consumed (th_log t) → (Some i, s) ∈ w_spent w.
Proof.
  intros [_ Hlog]. unfold consumed. rewrite list_elem_of_In, in_concat. intros (l & Hl & Hs).
  apply list_elem_of_In, list_elem_of_fmap in Hl as (en & -> & Hen). apply list_elem_of_In in Hs.
  rewrite Forall_forall in Hlog. eapply entry_holds_consumed; [by apply Hlog|done].
Qed.

Lemma snd_nodup_inj {A B} (l : list (A * B)) a a' b : NoDup l.*2 → (a, b) ∈ l → (a', b) ∈ l → a = a'.
Proof.
  intros Hnd [i Hi]%list_elem_of_lookup [j Hj]%list_elem_of_lookup.
  assert (i = j) as <-; [|congruence]. eapply (NoDup_lookup l.*2 i j b); [done|by rewrite list_lookup_fmap, ?Hi, ?Hj..].
Qed.

(** The scope, the subject and the text of a request. *)
Definition request_parts (r : Request) : StoreScope * ScopedId * text :=
  match r with
  | StepUpChallenge scope subject presented | AccountVerify scope subject presented | AccountRedeem scope subject presented
  | ConfirmEnrollment scope subject _ presented => (scope, subject, presented)
  end.

(** Why a request was right to consume [s]. *)
Inductive grounded (w : World) (t : Thread) : Spend → Prop :=
| grounded_totp scope subject presented m step :
    request_parts (th_request t) = (scope, subject, presented) → material_current w scope subject m → matching_step cfg m presented step →
    grounded w t (SpentStep (tm_id m) step)
| grounded_recovery scope subject presented s :
    request_parts (th_request t) = (scope, subject, presented) → recovery_evidence scope subject presented (th_log t) s → grounded w t s.

Lemma opened_current i w t scope subject m : thread_ok i w t → opened_as scope subject m (th_log t) → material_current w scope subject m.
Proof.
  intros [_ Hlog]. rewrite Forall_forall in Hlog. intros [Hin|[id Hin]]; by apply Hlog in Hin.
Qed.

Lemma success_grounded i w t reply : thread_ok i w t → th_prog t = Ret reply → succeeded reply = true →
  ∃ s, consumed (th_log t) = [s] ∧ grounded w t s.
Proof.
  intros Hok Hp Hsucc. pose proof Hok as [Hal _]. rewrite Hp in Hal. simpl in Hal.
  assert ((∃ s scope subject presented, consumed (th_log t) = [s] ∧ totp_evidence scope subject presented (th_log t) s ∧
             request_parts (th_request t) = (scope, subject, presented)) ∨
          (∃ s scope subject presented, consumed (th_log t) = [s] ∧ recovery_evidence scope subject presented (th_log t) s ∧
             request_parts (th_request t) = (scope, subject, presented)))
    as [(s & scope & subject & presented & Hc & Hev & Hreq)|(s & scope & subject & presented & Hc & Hev & Hreq)].
  { destruct reply as [[]|[]|[]]; try discriminate Hsucc; simpl in Hal; destruct Hal as (s & scope & subject & presented & Hc & Hev & Hr);
      [left|right|left|right|left]; exists s, scope, subject, presented; (split; [done|]); (split; [done|]);
      repeat match type of Hr with _ ∨ _ => destruct Hr as [Hr|Hr] | ∃ _, _ => destruct Hr as [? Hr] end; by rewrite Hr. }
  - exists s. split; [done|]. destruct Hev as (m & step & Hopen & Hm & ->). eapply grounded_totp; [done| |done]. by eapply opened_current.
  - exists s. split; [done|]. by eapply grounded_recovery.
Qed.

(** C24 (safety): single use under concurrency.  However requests and everything else that calls the
    store interleave, and whichever calls fail before or after they commit, no handler
    panics, and every request that succeeds has consumed exactly one time step or recovery
    code: for a step, the presented text is its code, inside the drift window, under the
    seed of a factor of the subject; for a recovery code, the pool verified the text against
    a code of the subject.  The store records it as consumed and no other request was ever
    granted the same one, so no code is accepted twice, the code that activated a factor included. *)
Theorem accepted_codes_are_distinct (p p' : Pool) (Hstart : threads p = []) (Hworld : world_ok (world p)) (Hreach : rtc (pool_step cfg) p p') :
  ∀ i t, threads p' !! i = Some t → th_prog t ≠ Panic ∧
    ∀ reply, th_prog t = Ret reply → succeeded reply = true →
      ∃ s, consumed (th_log t) = [s] ∧ grounded (world p') t s ∧ spent_in (w_db (world p')) s ∧
        ∀ j u, threads p' !! j = Some u → j ≠ i → s ∉ consumed (th_log u).
Proof.
  destruct (pool_reachable_ok p p') as [Hw Hts]; [split; [done|]; by rewrite Hstart|done|]. intros i t Ht. pose proof (Hts i t Ht) as Hok. split.
  - intros Hp. destruct Hok as [Hal _]. by rewrite Hp in Hal.
  - intros reply Hp Hsucc. destruct (success_grounded _ _ _ _ Hok Hp Hsucc) as (s & Hc & Hg).
    assert ((Some i, s) ∈ w_spent (world p')) as Hin by (eapply thread_consumed; [done|rewrite Hc; set_solver]).
    destruct Hw as (_ & _ & Hnd & Hsp). exists s. split; [done|]. split; [done|]. split; [by apply (Hsp (Some i))|].
    intros j u Hu Hne Hs. eapply thread_consumed in Hs; [|by apply Hts]. pose proof (snd_nodup_inj _ _ _ _ Hnd Hin Hs). congruence.
Qed.
End Evidence.
End Semantics.

(** ** Who may replace the recovery codes *)

Section Guards.
Context `{HmacLaws} `{Base64Url} (cfg : FactorConfig) (Hcfg : cfg_ok cfg).

(** Whatever the answers, every call the program makes satisfies [G] of the calls before it. *)
Fixpoint guarded {A} (G : list Entry → ∀ X, FactorE X → Prop) (log : list Entry) (p : Prog A) : Prop :=
  match p with
  | Ret _ | Panic => True
  | Vis e k => G log _ e ∧ ∀ x, answer_ok e x → guarded G (log ++ [Asked e x]) (k x)
  end.

(** A guard that allows what is no write, and whose permissions last. *)
Definition lasting (G : list Entry → ∀ X, FactorE X → Prop) : Prop :=
  (∀ log X (e : FactorE X), match e with Write _ => False | _ => True end → G log X e) ∧
  (∀ log en X (e : FactorE X), G log X e → G (log ++ [en]) X e).

Lemma guarded_bind {A B} G (p : Prog A) (f : A → Prog B) (I : list Entry → A → Prop) : ∀ log, guarded G log p →
  always I log p → (∀ log' a, I log' a → guarded G log' (f a)) → guarded G log (bind p f).
Proof.
  induction p as [a| |X e k IH]; intros log Hp Hal Hf; simpl in *; [by apply Hf|done|]. destruct Hp as [He Hk]. split; [done|].
  intros x Hx. apply IH; [by apply Hk|by apply Hal|done].
Qed.

(** Storing new codes is allowed where replacing them is. *)
Lemma guarded_generate G scope subject : lasting G → ∀ log, (∀ codes db_now, G log _ (Write (ReplaceAll scope subject codes db_now))) →
  guarded G log (generate_and_store_recovery_codes cfg scope subject).
Proof.
  intros [Hfree Hlast]. unfold generate_and_store_recovery_codes. generalize (@nil text) as plaintext, (@nil NewRecoveryCode) as materials.
  induction (cfg_recovery_code_count cfg) as [|count IH]; intros plaintext materials log Hw; cbn [draw_codes].
  - generalize (@nil (text * NewRecoveryCode)) as drawn. revert log Hw. induction materials as [|c materials IHm]; intros log Hw drawn; cbn [draw_ids].
    + split; [by apply Hfree|]. intros db_now _. split; [by apply Hlast|]. done.
    + split; [by apply Hfree|]. intros entropy _. apply IHm. intros. by apply Hlast.
  - split; [by apply Hfree|]. intros entropy _. split; [by apply Hfree|]. intros [hash|rejection] _; [|done]. apply IH. intros. by apply Hlast, Hlast.
Qed.

(** The pool verified [presented] against a candidate that was read for the subject. *)
Definition candidate_verified (scope : StoreScope) (subject : ScopedId) (presented : text) (log : list Entry) : Prop :=
  ∃ candidates c, Asked (Read (CandidatesForCode scope subject presented)) (Ok candidates) ∈ log ∧ c ∈ candidates ∧
    Asked (VerifyPassword scope presented (cand_code_hash c)) (Ok true) ∈ log.

(** One of the three proofs of the request was verified. *)
Definition proof_verified (scope : StoreScope) (subject : ScopedId) (body : RecoveryRegenerateBody) (log : list Entry) : Prop :=
  (∃ password hash, rb_password body = Some password ∧ Asked (PasswordHashForSubject scope subject) (Ok (Some hash)) ∈ log ∧
     Asked (VerifyPassword scope password hash) (Ok true) ∈ log) ∨
  (∃ presented m step, rb_totp_code body = Some presented ∧ Asked (Read (OpenActiveMaterial scope subject)) (Ok (Some m)) ∈ log ∧
     matching_step cfg m presented step) ∨
  (∃ raw, rb_recovery_code body = Some raw ∧ candidate_verified scope subject (normalize_recovery_code raw) log).

(** Regenerating writes nothing but the new set, and that only after a proof. *)
Definition regenerate_guard (scope : StoreScope) (subject : ScopedId) (body : RecoveryRegenerateBody) (log : list Entry) (X : Type) (e : FactorE X) : Prop :=
  match e with
  | Write c => match c with ReplaceAll scope' subject' _ _ => scope' = scope ∧ subject' = subject ∧ proof_verified scope subject body log | _ => False end
  | _ => True
  end.

(** Confirming an enrollment activates on a matching code and replaces the codes only once the factor is active. *)
Definition enroll_guard (scope : StoreScope) (subject : ScopedId) (presented : text) (log : list Entry) (X : Type) (e : FactorE X) : Prop :=
  match e with
  | Write c =>
      match c with
      | Activate scope' subject' id step _ => scope' = scope ∧ subject' = subject ∧ ∃ m, tm_id m = id ∧ tm_status m = "pending" ∧
          Asked (Read (OpenMaterial scope subject id)) (Ok (Some m)) ∈ log ∧ matching_step cfg m presented step
      | ReplaceAll scope' subject' _ _ => scope' = scope ∧ subject' = subject ∧
          ∃ id step now, Asked (Write (Activate scope subject id step now)) (Ok Activated) ∈ log
      | _ => False
      end
  | _ => True
  end.

Lemma enroll_guard_lasting scope subject presented : lasting (enroll_guard scope subject presented).
Proof.
  split; [by intros log X []|]. intros log en X e. destruct e as [A c| | | | | | | | ]; simpl; try done. destruct c; try done.
  - intros (-> & -> & m & Hm). split; [done|]. split; [done|]. exists m. set_solver.
  - intros (-> & -> & id & step & now & Hin). split; [done|]. split; [done|]. exists id, step, now. set_solver.
Qed.

Lemma proof_verified_mono scope subject body log log' : (∀ en, en ∈ log → en ∈ log') → proof_verified scope subject body log → proof_verified scope subject body log'.
Proof. unfold proof_verified, candidate_verified. naive_solver. Qed.

Lemma regenerate_guard_lasting scope subject body : lasting (regenerate_guard scope subject body).
Proof.
  split; [by intros log X []|]. intros log en X e. destruct e as [A c| | | | | | | | ]; simpl; try done. destruct c; try done.
  intros (-> & -> & Hp). split; [done|]. split; [done|]. eapply proof_verified_mono; [|done]. set_solver.
Qed.

(** Programs without a write satisfy every guard. *)
Fixpoint write_free {A} (p : Prog A) : Prop :=
  match p with
  | Ret _ | Panic => True
  | Vis e k => match e with Write _ => False | _ => True end ∧ ∀ x, write_free (k x)
  end.

Lemma write_free_guarded {A} G (p : Prog A) : lasting G → write_free p → ∀ log, guarded G log p.
Proof. intros [Hfree _] Hp. induction p as [a| |X e k IH]; intros log; simpl in *; [done|done|]. destruct Hp as [He Hk]. split; [by apply Hfree|]. auto. Qed.

Lemma first_verified_write_free {A} scope presented candidates (rejected : HashRejection → A) k : (∀ m, write_free (k m)) →
  write_free (first_verified scope presented candidates rejected k).
Proof. intros Hk. induction candidates as [|c candidates IH]; simpl; [done|]. split; [done|]. by intros [[]|]. Qed.

Lemma fresh_recovery_write_free scope subject raw provided : write_free (fresh_recovery scope subject raw provided).
Proof.
  unfold fresh_recovery. cbn zeta. destruct (raw ≫= _); [|done]. split; [done|]. intros [candidates|]; [|done].
  apply first_verified_write_free. by intros [].
Qed.

Lemma fresh_totp_write_free scope subject body provided : write_free (fresh_totp cfg scope subject body provided).
Proof.
  pose proof (fresh_recovery_write_free scope subject (rb_recovery_code body)) as Hrec. unfold fresh_totp. destruct (_ ≫= _); [|done]. split; [done|].
  intros [[m|]|]; [|done|done]. destruct (params_from_material m); [|done]. split; [done|]. intros now. by destruct (verify_totp _ _ _ _ _) as [[]| |].
Qed.

Lemma verify_fresh_auth_write_free scope subject body : write_free (verify_fresh_auth cfg scope subject body).
Proof.
  pose proof (fresh_totp_write_free scope subject body) as Htotp. unfold verify_fresh_auth. destruct (_ ≫= _); [|done]. split; [done|].
  intros [[hash|]|]; [|done|done]. split; [done|]. by intros [[]|].
Qed.

Lemma non_empty_Some s t : non_empty_text s = Some t → t = s.
Proof. destruct s; [done|]. by intros [= <-]. Qed.

Definition proof_answer (scope : StoreScope) (subject : ScopedId) (body : RecoveryRegenerateBody) (log : list Entry) (answer : Result FreshAuthMethod Response) : Prop :=
  match answer with Ok _ => proof_verified scope subject body log | Err _ => True end.

Lemma fresh_recovery_always scope subject body provided log :
  always (proof_answer scope subject body) log (fresh_recovery scope subject (rb_recovery_code body) provided).
Proof.
  unfold fresh_recovery. cbn zeta. destruct (rb_recovery_code body) as [raw|] eqn:Hraw; [|done]. cbn [mbind option_bind].
  destruct (non_empty_text _) as [normalized|] eqn:Hn; [|done]. apply non_empty_Some in Hn as ->. apply always_ask_quiet; [done|].
  intros [candidates|e] log1 _ _ Hin; [|done]. apply always_first_verified; [done|done|]. intros c log2 Hc [Hsub _] Hv. right. right.
  exists raw. split; [done|]. exists candidates, c. auto.
Qed.

Lemma fresh_totp_always scope subject body provided log : always (proof_answer scope subject body) log (fresh_totp cfg scope subject body provided).
Proof.
  unfold fresh_totp. destruct (rb_totp_code body) as [raw|] eqn:Hraw; [|apply fresh_recovery_always]. cbn [mbind option_bind].
  destruct (non_empty_text _) as [presented|] eqn:Hn; [|apply fresh_recovery_always]. apply non_empty_Some in Hn as ->. apply always_ask_quiet; [done|].
  intros [[m|]|e] log1 _ _ Hin; [|apply fresh_recovery_always|done]. destruct (params_from_material m) as [params|] eqn:Hp; [|done].
  apply always_ask_quiet; [done|]. intros now log2 Hnow [Hsub _] _. apply always_verify; [done|done|done| |apply fresh_recovery_always].
  intros step Hm. right. left. exists raw, m, step. auto.
Qed.

Lemma verify_fresh_auth_always scope subject body log : always (proof_answer scope subject body) log (verify_fresh_auth cfg scope subject body).
Proof.
  unfold verify_fresh_auth. destruct (rb_password body) as [raw|] eqn:Hraw; [|apply fresh_totp_always]. cbn [mbind option_bind].
  destruct (non_empty_text raw) as [password|] eqn:Hn; [|apply fresh_totp_always]. apply non_empty_Some in Hn as ->. apply always_ask_quiet; [done|].
  intros [[hash|]|e] log1 _ _ Hin; [|apply fresh_totp_always|done]. apply always_ask_quiet; [done|].
  intros [[]|e] log2 _ [Hsub _] Hv; [|apply fresh_totp_always|done]. left. exists raw, hash. auto.
Qed.

(** C27 (safety): the recovery codes of a subject are replaced only by someone entitled to: regenerating
    them makes no other write and stores the new set only after the current password, a
    current TOTP code or an unconsumed recovery code of that subject was verified; confirming
    an enrollment activates a factor only on a code of its pending seed and replaces the
    codes only once the store has acknowledged the activation, so an enrollment that is
    refused, also because a factor is already active, leaves the codes alone.  This holds at
    every call, whatever the answers to the calls before it. *)
Theorem codes_replaced_only_on_proof scope subject body credential_id presented :
  guarded (regenerate_guard scope subject body) [] (account_regenerate cfg scope subject body) ∧
  guarded (enroll_guard scope subject presented) [] (flow_enroll_verify cfg scope subject credential_id presented).
Proof.
  pose proof (regenerate_guard_lasting scope subject body) as Hreg. pose proof (enroll_guard_lasting scope subject presented) as Hen. split.
  - eapply guarded_bind; [by apply write_free_guarded, verify_fresh_auth_write_free|apply verify_fresh_auth_always|].
    intros log [method|response] Hproof; [|done]. eapply (guarded_bind _ _ _ (λ _ _, True)); [by apply guarded_generate| |done].
    eapply always_mono; [|apply generate_quiet]. done.
  - unfold flow_enroll_verify. destruct (parse_in_scope _ _ _) as [id|]; [|done]. split; [done|]. intros [[m|]|e] Hid; [|done|done].
    destruct (String.eqb (tm_status m) "pending") eqn:Hst; [|done]. apply String.eqb_eq in Hst. simpl. destruct (params_from_material m) as [params|] eqn:Hp; [|done].
    split; [done|]. intros now Hnow. simpl in Hnow.
    destruct (verify_totp_spec (tm_seed m) params now (cfg_drift_steps cfg) (code <$> trim presented)) as (r & -> & Hr);
      [by eapply params_from_material_ok|done|apply Hcfg|]. destruct r as [step|]; [|done].
    assert (matching_step cfg m presented step) as Hm by (exists params, now; naive_solver).
    split; [done|]. intros micros _. split.
    + simpl. split; [done|]. split; [done|]. exists m. rewrite (matched_step_exact cfg m presented step) by done. split; [by apply Hid|]. split; [done|]. split; [set_solver|done].
    + intros [[]|e] _; try done. eapply (guarded_bind _ _ _ (λ _ _, True)); [apply guarded_generate; [done|]| |done].
      * intros codes db_now. simpl. split; [done|]. split; [done|]. exists id, (matched_step_of step), micros. set_solver.
      * eapply always_mono; [|apply generate_quiet]. done.
Qed.
End Guards.

(** ** Stored factors *)

(** A store call with its fault. *)
Inductive Command : Type :=
| command {A : Type} (c : StoreWrite A) (fault : Fault).

(** The identifiers a command draws. *)
Definition drawn (cmd : Command) : list ScopedId := match cmd with command c _ => fresh_ids c end.

Section Stored.
Context `{Hmac} `{AeadLaws} `{Base64Url} `{Master}.

Definition exec (db : FactorDb) (cmd : Command) : FactorDb := match cmd with command c fault => (run_tx fault c db).2 end.

Lemma run_tx_ok {A} fault (c : StoreWrite A) db : db_ok db → db_ok (run_tx fault c db).2.
Proof.
  intros Hok. destruct (run_tx fault c db) as [answer db'] eqn:Hrun. apply run_tx_cases in Hrun as [(-> & _)|(a & Htx & _)]; [done|].
  by eapply tx_keeps_ok.
Qed.

Lemma exec_ok cmds : ∀ db, db_ok db → db_ok (foldl exec db cmds).
Proof. induction cmds as [|[A c fault] cmds IH]; intros db Hok; [done|]. apply IH. by apply run_tx_ok. Qed.

Lemma checked_params id seed r : totp_checks r = true → is_Some (params_from_material (material_of id seed r)).
Proof.
  unfold totp_checks. rewrite !andb_true_iff, !Z.leb_le. intros [[[_ Ha] [Hd1 Hd2]] [Hp1 Hp2]]. unfold params_from_material. simpl.
  assert (∃ algorithm, totp_algorithm_parse (tr_algorithm r) = Some algorithm) as [algorithm ->].
  { apply existsb_exists in Ha as (a & Hin & ->%String.eqb_eq). simpl in Hin. destruct Hin as [<-|[<-|[<-|[]]]]; by eexists. }
  rewrite !(proj2 (Z.ltb_ge _ _)) by lia. simpl. unfold TotpParams_new. rewrite !(proj2 (Z.leb_le _ _)) by lia. by eexists.
Qed.

(** The key-encryption key that wraps the data key of the row's columns was destroyed. *)
Definition key_destroyed (keys : KeyTables) (scope : StoreScope) (r : TotpRow) : Prop :=
  ∃ d k, tenant_deks keys !! (scope, tr_dek_version r) = Some d ∧ tenant_keks keys !! (scope, dr_kek_version d) = Some k ∧ kr_status k = "destroyed".

(** A column whose key can be fetched opens. *)
Lemma open_column_spec mk keys id r : keys_ok mk keys → (∃ seed, seed_reads mk keys id r seed) →
  match open_column mk keys (tr_scope r) (tr_dek_version r) (totp_seed_seal_aad (tr_scope r) (id_to_string TOTP_PREFIX id) (tr_dek_version r)) (tr_seed r) with
  | Ok _ => True
  | Err e => e = StoreEncryption ∧ key_destroyed keys (tr_scope r) r
  end.
Proof.
  intros Hkeys (seed & Hs & dek & Hopen & Hone). destruct (Hkeys _ _ Hs) as (d & k & Hd & Hk & Hr). unfold open_column.
  destruct (fetch_dek_by_version mk (tr_scope r) (tr_dek_version r) keys) as [dek'|e] eqn:Hf.
  - rewrite (Hone dek' eq_refl). by rewrite Hopen.
  - destruct Hr as [Hr|[dek' Hr]]; [|congruence]. split; [by eapply fetch_dek_Err|by exists d, k].
Qed.

(** What opening the active factor of a subject can answer. *)
Definition opens_as (scope : StoreScope) (subject : ScopedId) (db : FactorDb) (answer : Result (option TotpMaterial) StoreError) : Prop :=
  match answer with
  | Ok None => ∀ id r, totp_credentials db !! id = Some r → owned scope subject r → ¬ row_active r
  | Ok (Some m) => is_Some (params_from_material m) ∧
      ∃ mk r, master = Some mk ∧ totp_credentials db !! tm_id m = Some r ∧ owned scope subject r ∧ row_active r ∧
        seed_reads mk (key_tables db) (tm_id m) r (tm_seed m) ∧ m = material_of (tm_id m) (tm_seed m) r ∧
        ∀ id r', totp_credentials db !! id = Some r' → owned scope subject r' → row_active r' → id = tm_id m
  | Err e => e = StoreEncryption ∧
      (master = None ∨ ∃ id r, totp_credentials db !! id = Some r ∧ owned scope subject r ∧ row_active r ∧ key_destroyed (key_tables db) scope r)
  end.

Lemma open_active_spec scope subject db : db_ok db → opens_as scope subject db (open_active_material scope subject db).
Proof.
  intros ([Hrows Hone] & _ & Hsealed). unfold open_active_material. case_bool_decide as Hs.
  { intros id r Hr [<- <-] _. apply Hrows in Hr as (_ & Hu & _). by apply Hs. }
  unfold open_material_where. destruct master as [mk|] eqn:Hm; [|by split; [|left]]. destruct (Hsealed mk eq_refl) as [Hkeys Hall]. cbn zeta.
  destruct (map_to_list _) as [|[id r] rest] eqn:Hl.
  - apply map_to_list_empty_iff in Hl. intros id r Hr Ho Ha.
    assert (filter (λ kr, owned scope subject kr.2 ∧ row_active kr.2) (totp_credentials db) !! id = Some r) as Hf by (by apply map_lookup_filter_Some).
    by rewrite Hl, lookup_empty in Hf.
  - assert ((id, r) ∈ map_to_list (filter (λ kr, owned scope subject kr.2 ∧ row_active kr.2) (totp_credentials db))) as Hin by (rewrite Hl; set_solver).
    apply elem_of_map_to_list, map_lookup_filter_Some in Hin as [Hr [Ho Ha]]. simpl in Ho, Ha. pose proof (Hrows id r Hr) as (Hid & _ & Hc).
    pose proof (open_column_spec mk _ id r Hkeys (Hall id r Hr)) as Hcol. destruct Ho as [<- <-].
    destruct (open_column _ _ _ _ _ _) as [seed|e] eqn:Hopen; [|destruct Hcol as [-> Hd]; split; [done|]; right; by exists id, r].
    unfold read_id. rewrite bool_decide_eq_true_2 by done. split; [by apply checked_params|]. exists mk, r. simpl. do 4 (split; [done|]).
    split; [by apply opened_column_reads|]. split; [done|]. intros id' r' Hr' [Hs' Hu'] Ha'. by apply (Hone id' id r' r).
Qed.

(** A seed that reads keeps reading, as long as its identifier is not drawn again. *)
Lemma exec_reads mk cmds id seed : master = Some mk → Forall (λ cmd, id ∉ drawn cmd) cmds → ∀ db, db_ok db →
  (∀ r, totp_credentials db !! id = Some r → seed_reads mk (key_tables db) id r seed) →
  ∀ r, totp_credentials (foldl exec db cmds) !! id = Some r → seed_reads mk (key_tables (foldl exec db cmds)) id r seed.
Proof.
  intros Hm. induction 1 as [|[A c fault] cmds Hid _ IH]; intros db Hok Hseed; [done|]. cbn [foldl exec].
  apply IH; [by apply run_tx_ok|]. destruct (run_tx fault c db) as [answer db1] eqn:Hrun. cbn [snd].
  apply run_tx_cases in Hrun as [(-> & _)|(a & Htx & _)]; [done|]. intros r1 Hr1.
  destruct (tx_row c _ _ _ _ _ Htx Hid Hr1) as (r & Hr & Hf). eapply seed_reads_frozen; [exact Hf|]. eapply column_reads_evolve; [|by apply Hseed].
  eapply tx_keys; [done..|]. destruct Hok as (_ & _ & Hsealed). by apply Hsealed.
Qed.

(** C26 (invariant): after any sequence of store calls, with any faults and any rotations of the keys, opening
    the active factor of a subject answers exactly the one active row the subject has, or
    nothing when there is none; a pending row is never opened for a login, and the stored
    parameters are within the bounds the verifier asks for.  Opening fails only when no
    master key is configured or the wrapping key of that row's data key was destroyed, so a
    login never fails on a corrupt row.  Whenever an enrolled factor is opened later, its seed
    is the one that was enrolled, unless its identifier was drawn again. *)
Theorem stored_factors_are_usable db cmds scope subject (Hok : db_ok db) :
  (let db' := foldl exec db cmds in opens_as scope subject db' (open_active_material scope subject db')) ∧
  ∀ e entropy seed_nonce name_nonce db_now id db1 m,
    tx (BeginEnroll scope subject e entropy seed_nonce name_nonce db_now) db = Ok (id, db1) → Forall (λ cmd, id ∉ drawn cmd) cmds →
    open_material scope subject id (foldl exec db1 cmds) = Ok (Some m) → tm_seed m = en_seed e.
Proof.
  split; [by apply open_active_spec, exec_ok|]. intros e entropy seed_nonce name_nonce db_now id db1 m Htx Hids Hopen.
  pose proof (tx_keeps_ok _ _ _ _ Htx Hok) as Hok1. destruct (enrolled_reads _ _ _ _ _ _ _ _ _ _ Htx) as (mk & r1 & Hm & Hr1 & _ & Hreads).
  assert (tm_id m = id) as <- by (by eapply open_material_id). unfold open_material in Hopen. destruct (_ || _); [done|].
  apply open_where_Some in Hopen as (mk' & r & Hm' & Hr & [<- _] & _ & Hcol & _). rewrite Hm in Hm'. injection Hm' as <-.
  destruct (exec_reads mk cmds (tm_id m) (en_seed e) Hm Hids db1 Hok1) with (r := r) as (_ & dek & Hdek & Hone); [|done|].
  - intros r2 Hr2. rewrite Hr1 in Hr2. by injection Hr2 as <-.
  - unfold open_column in Hcol. destruct (fetch_dek_by_version _ _ _ _) as [dek'|]; [|done]. rewrite (Hone dek' eq_refl) in Hcol. congruence.
Qed.
End Stored.
