(* ===== verification/RecoveryCodes.v ===== *)
(** * Recovery codes

    The life of a batch of recovery codes, over the ceremonies of [SecondFactor] run one
    after the other without faults: [execute] runs a program against the database, with the
    clock, the entropy and the hashing pool as an [Oracle].  The theorem: the codes shown
    when a batch is generated are accepted exactly once each, in any order and however the
    user groups them, by one verification each.  Two lemmas show where the code departs from
    its comments. *)

From S2P Require Import Prelude Machine Bytes Der Text Authn Totp Ids Envelope FactorStore SecondFactor.

Open Scope Z_scope.

(** ** Running a program *)

Record Oracle : Type := {
  o_secs : Z; o_micros : Z; o_db_now : Z;
  o_fill : nat → nat → text;
  o_verify : StoreScope → text → text → Result bool HashRejection;
  o_hash : StoreScope → text → Result text HashRejection;
  o_password : StoreScope → ScopedId → Result (option text) StoreError }.

Section Runs.
Context `{Hmac} `{AeadLaws} `{Base64Url} `{Master} `{RowOrder}.

(** The answer to the call number [n]. *)
Definition serve {X} (o : Oracle) (n : nat) (e : FactorE X) (db : FactorDb) : X * FactorDb :=
  match e in FactorE X return X * FactorDb with
  | Write c => run_tx NoFault c db
  | Read q => (query q db, db)
  | NowSecs => (o_secs o, db)
  | NowMicros => (o_micros o, db)
  | DatabaseNow => (o_db_now o, db)
  | FillBytes size => (o_fill o n size, db)
  | VerifyPassword scope password hash => (o_verify o scope password hash, db)
  | HashPassword scope password => (o_hash o scope password, db)
  | PasswordHashForSubject scope subject => (o_password o scope subject, db)
  end.

(** The result, or [None] for a panic, and the database. *)
Fixpoint execute {A} (o : Oracle) (n : nat) (p : Prog A) (db : FactorDb) : option A * FactorDb :=
  match p with
  | Ret a => (Some a, db)
  | Panic => (None, db)
  | Vis e k => let '(x, db) := serve o n e db in execute o (S n) (k x) db
  end.

Lemma run_ok {A} o (p : Prog A) : ∀ n db, db_ok db → db_ok (execute o n p db).2.
Proof.
  induction p as [a| |X e k IH]; intros n db Hok; [done|done|]. cbn [execute]. destruct (serve o n e db) as [x db'] eqn:Hs. apply IH.
  destruct e; cbn [serve] in Hs; try (by injection Hs as <- <-). pose proof (run_tx_ok NoFault c db Hok) as Hd. by rewrite Hs in Hd.
Qed.

Lemma run_bind {A B} o (p : Prog A) (f : A → Prog B) : ∀ n db, ∃ m,
  execute o n (bind p f) db = match execute o n p db with (Some a, db') => execute o m (f a) db' | (None, db') => (None, db') end.
Proof.
  induction p as [a| |X e k IH]; intros n db; [by exists n|by exists n|]. cbn [bind execute]. destruct (serve o n e db) as [x db']. apply IH.
Qed.

(** *** A run is an execution of the pool *)

Definition no_draw {X} (e : FactorE X) : Prop := match e with Write c => fresh_ids c = [] | _ => True end.

(** Programs whose writes draw no identifier. *)
Fixpoint draws_nothing {A} (p : Prog A) : Prop :=
  match p with
  | Ret _ | Panic => True
  | Vis e k => no_draw e ∧ ∀ x, draws_nothing (k x)
  end.

Lemma draws_nothing_bind {A B} (p : Prog A) (f : A → Prog B) : draws_nothing p → (∀ a, draws_nothing (f a)) → draws_nothing (bind p f).
Proof. intros Hp Hf. induction p as [a| |X e k IH]; simpl in *; [done|done|]. destruct Hp as [He Hk]. split; [done|]. intros x. by apply IH. Qed.

Lemma first_verified_draws_nothing {A} scope presented candidates (rejected : HashRejection → A) k : (∀ m, draws_nothing (k m)) →
  draws_nothing (first_verified scope presented candidates rejected k).
Proof. intros Hk. induction candidates as [|c candidates IH]; simpl; [done|]. split; [done|]. intros [[]|]; done. Qed.

Lemma step_up_draws_nothing cfg scope subject presented : draws_nothing (handler cfg (StepUpChallenge scope subject presented)).
Proof.
  assert (draws_nothing (recovery_attempt scope subject presented)) as Hrec.
  { split; [done|]. intros [candidates|]; [|done]. apply first_verified_draws_nothing. intros [id|]; [|done]. by repeat (split; [done|]; intros ?). }
  apply draws_nothing_bind; [|done]. split; [done|]. intros [[m|]|]; [|done|done]. destruct (params_from_material m); [|done]. split; [done|].
  intros now. destruct (verify_totp _ _ _ _ _) as [[step|]| |]; [|done|done|done]. by repeat (split; [done|]; intros ?).
Qed.

Lemma serve_answers {X} o n i (e : FactorE X) w : is_u64 (o_secs o) → (∀ n size, length (o_fill o n size) = size) → no_draw e →
  ∃ w', answers (Some i) e w (serve o n e (w_db w)).1 w' ∧ w_db w' = (serve o n e (w_db w)).2.
Proof.
  intros Hsecs Hfill Hno. destruct e as [A c|A q| | | | | | | ]; try (exists w; simpl; by auto).
  cbn [serve answers]. simpl in Hno. exists (mkWorld (run_tx NoFault c (w_db w)).2 (w_issued w ∪ list_to_set (fresh_ids c))
    (w_spent w ++ ((λ s, (Some i, s)) <$> committed NoFault c (w_db w)))).
  split; [|done]. split; [rewrite Hno; set_solver|]. exists NoFault. by split; [apply surjective_pairing|].
Qed.

Lemma run_pool cfg o r (p : Prog Reply) : is_u64 (o_secs o) → (∀ n size, length (o_fill o n size) = size) → ∀ n log i ts w reply db',
  draws_nothing p → ts !! i = Some (mkThread r p log) → execute o n p (w_db w) = (Some reply, db') →
  ∃ log' w', rtc (pool_step cfg) (mkPool ts w) (mkPool (<[i := mkThread r (Ret reply) log']> ts) w') ∧ w_db w' = db'.
Proof.
  intros Hsecs Hfill. induction p as [a| |X e k IH]; intros n log i ts w reply db' Hd Hi Hrun; [|done|].
  - injection Hrun as <- <-. exists log, w. split; [|done]. by rewrite list_insert_id.
  - destruct Hd as [He Hk]. destruct (serve_answers o n i e w Hsecs Hfill He) as (w1 & Ha & Hw1). cbn [execute] in Hrun.
    destruct (serve o n e (w_db w)) as [x db1]. simpl in Ha, Hw1. subst db1.
    destruct (IH x (S n) (log ++ [Asked e x]) i (<[i := mkThread r (k x) (log ++ [Asked e x])]> ts) w1 reply db') as (log' & w' & Hr & Hw');
      [by apply Hk|apply list_lookup_insert_eq, (lookup_lt_Some _ _ _ Hi)|done|].
    exists log', w'. split; [|done]. eapply rtc_l; [by eapply pool_calls|]. by rewrite list_insert_insert_eq in Hr.
Qed.

(** Codes presented one after the other, each with what its request reads from the outside. *)
Fixpoint attempts (cfg : FactorConfig) (scope : StoreScope) (subject : ScopedId) (l : list (Oracle * text)) (db : FactorDb) :
    list (option SecondFactorOutcome) :=
  match l with
  | [] => []
  | (o, presented) :: rest =>
      let '(outcome, db) := execute o 0 (verify_second_factor cfg scope subject presented) db in
      outcome :: attempts cfg scope subject rest db
  end.

(** A code is accepted the first time it is presented. *)
Fixpoint first_uses (used : list text) (l : list text) : list (option SecondFactorOutcome) :=
  match l with
  | [] => []
  | c :: rest => Some (if bool_decide (c ∈ used) then FactorInvalid else FactorRecovery) :: first_uses (c :: used) rest
  end.

(** ** The form of a code *)

Lemma code_is_byte c : is_byte (code c).
Proof. unfold is_byte, code. pose proof (N_ascii_bounded c). lia. Qed.

Lemma alphabet_char d : 0 ≤ d < 32 → is_graphic (chr (alphabet_at d)) = true ∧ is_separator (chr (alphabet_at d)) = false.
Proof.
  intros Hd. assert (is_byte d) as Hb by (unfold is_byte; lia).
  assert ((32 <=? d) || (is_graphic (chr (alphabet_at d)) && negb (is_separator (chr (alphabet_at d)))) = true) as Hall.
  { by_bytes (λ d, (32 <=? d) || (is_graphic (chr (alphabet_at d)) && negb (is_separator (chr (alphabet_at d))))) d. }
  rewrite (proj2 (Z.leb_gt 32 d)) in Hall by lia. cbn [orb] in Hall. by apply andb_true_iff in Hall as [? ?%negb_true_iff].
Qed.

Lemma hyphenated_graphic (g : nat → nat) ds : five_bits ds →
  Forall (λ c, is_graphic c = true) (concat (imap (λ i, hyphenated_char (g i)) (alphabet_at <$> ds))).
Proof.
  intros Hds. revert g. induction Hds as [|d ds Hd _ IH]; intros g; [constructor|]. rewrite fmap_cons, imap_cons. cbn [concat].
  apply Forall_app. split; [|apply (IH (λ i, g (S i)))]. destruct (alphabet_char d Hd) as [Hgr _]. unfold hyphenated_char.
  destruct (_ && _); repeat constructor; done.
Qed.

Lemma hyphenated_filter (g : nat → nat) ds : five_bits ds →
  filter (λ c, is_separator c = false) (concat (imap (λ i, hyphenated_char (g i)) (alphabet_at <$> ds))) = chr <$> (alphabet_at <$> ds).
Proof.
  intros Hds. revert g. induction Hds as [|d ds Hd _ IH]; intros g; [done|]. rewrite !fmap_cons, imap_cons. cbn [concat].
  rewrite filter_app. unfold compose. rewrite (IH (λ i, g (S i))). destruct (alphabet_char d Hd) as [_ Hsep]. unfold hyphenated_char.
  destruct (_ && _); [rewrite filter_cons_False by done|]; by rewrite filter_cons_True.
Qed.

(** The shown code normalizes to the Base32 form of its entropy, sixteen characters. *)
Lemma normalize_shown entropy : length entropy = RECOVERY_CODE_BYTES →
  normalize_recovery_code (recovery_code_of entropy) = chr <$> base32_encode (code <$> entropy) ∧
  length (normalize_recovery_code (recovery_code_of entropy)) = 16%nat.
Proof.
  intros Hlen. destruct (encode_from_spec (code <$> entropy)) with (buffer := 0) (bits := 0) as (ds & pad & Henc & Hds & Hpad & Hl & _); [|lia..|].
  { apply Forall_fmap, Forall_true. apply code_is_byte. }
  assert (normalize_recovery_code (recovery_code_of entropy) = chr <$> (alphabet_at <$> ds)) as Hn.
  { unfold normalize_recovery_code, recovery_code_of, base32_encode. rewrite Henc, trim_graphic; [by apply (hyphenated_filter id)|by apply (hyphenated_graphic id)]. }
  rewrite Hn. split; [unfold base32_encode; by rewrite Henc|]. rewrite !length_fmap. rewrite length_fmap, Hlen in Hl. unfold RECOVERY_CODE_BYTES in Hl. lia.
Qed.

(** A text that normalizes to sixteen characters is no TOTP code. *)
Lemma long_text_unmatched secret params now drift presented : params_ok params → length (normalize_recovery_code presented) = 16%nat →
  verify_totp secret params now drift (code <$> trim presented) = Returned None.
Proof.
  intros [Hd _] Hlen. unfold verify_totp. rewrite length_fmap. assert (16 ≤ length (trim presented))%nat as Hge.
  { rewrite <-Hlen. unfold normalize_recovery_code. apply length_filter. }
  destruct (Nat.eqb_spec (length (trim presented)) (Z.to_nat (totp_digits params))); [lia|done].
Qed.

(** ** A batch *)

Section Batch.
Context `{!RowOrderLaws} (cfg : FactorConfig) (mk : MasterKey) (Hmaster : master = Some mk).
Context (scope : StoreScope) (subject : ScopedId) (Hsubject : id_scope subject = scope).

(** The pool verifies a text against a hash exactly when the hash was made of it. *)
Definition pool_exact (verify : StoreScope → text → text → Result bool HashRejection) (hash c : text) : Prop :=
  ∀ presented, verify scope presented hash = Ok (bool_decide (presented = c)).

(** The rows of the subject are those of the batch [b], whose used codes are the consumed ones. *)
Definition batch_state (verify : StoreScope → text → text → Result bool HashRejection) (b : list (ScopedId * text)) (used : list text) (db : FactorDb) : Prop :=
  NoDup b.*1 ∧
  (∀ id c, (id, c) ∈ b → ∃ r, recovery_codes db !! id = Some r ∧ id_scope id = scope ∧ code_owned scope subject r ∧
     rr_code_bidx r = Some (code_index mk scope subject c) ∧ pool_exact verify (rr_code_hash r) c ∧ (rr_consumed_at r = None ↔ c ∉ used)) ∧
  (∀ id r, recovery_codes db !! id = Some r → code_owned scope subject r → id ∈ b.*1).

(** Distinct codes of the batch have distinct tags. *)
Definition tags_distinct (b : list (ScopedId * text)) : Prop :=
  ∀ id id' c c', (id, c) ∈ b → (id', c') ∈ b → code_index mk scope subject c = code_index mk scope subject c' → id = id'.

(** The blind index leaves one candidate for an unused code and none for a used one. *)
Lemma batch_candidates verify b used db id c : batch_state verify b used db → tags_distinct b → (id, c) ∈ b →
  ∃ r, recovery_codes db !! id = Some r ∧ pool_exact verify (rr_code_hash r) c ∧
    candidates_for_code scope subject c db = Ok (if bool_decide (c ∈ used) then [] else [mkCandidate id (rr_code_hash r)]).
Proof.
  intros (Hnd & Hrows & Hall) Htags Hin. destruct (Hrows id c Hin) as (r & Hr & Hid & Ho & Hb & Hv & Hc). exists r. split; [done|]. split; [done|].
  unfold candidates_for_code. rewrite bool_decide_eq_false_2 by (intros Hne; by apply Hne). rewrite Hmaster. cbn zeta.
  set (P := λ kr : ScopedId * RecoveryRow, code_owned scope subject kr.2 ∧ rr_consumed_at kr.2 = None ∧
    (rr_code_bidx kr.2 = Some (code_index mk scope subject c) ∨ rr_code_bidx kr.2 = None)).
  assert (∀ id' r', filter P (recovery_codes db) !! id' = Some r' ↔ (id' = id ∧ r' = r ∧ c ∉ used)) as Hf.
  { intros id' r'. rewrite map_lookup_filter_Some. unfold P. simpl. split.
    - intros (Hr' & Ho' & Hc' & Hb'). assert (id' ∈ b.*1) as ([id'' c'] & Heq & Hin')%list_elem_of_fmap by (by eapply Hall). simpl in Heq. subst id''.
      destruct (Hrows id' c' Hin') as (r'' & Hr'' & _ & _ & Hb'' & _). assert (r'' = r') as -> by congruence.
      destruct Hb' as [Hb'|Hb']; [|congruence]. assert (id' = id) as -> by (eapply Htags; [done..|]; congruence).
      assert (r' = r) as -> by congruence. split; [done|]. split; [done|]. by apply Hc.
    - intros (-> & -> & Hu). split; [done|]. split; [done|]. split; [by apply Hc|by left]. }
  case_bool_decide as Hu.
  - assert (filter P (recovery_codes db) = ∅) as ->; [|rewrite map_to_list_empty; assert (order_recovery [] = []) as -> by (apply Permutation_nil; symmetry; apply order_recovery_perm); done].
    apply map_empty. intros id'. apply eq_None_not_Some. intros [r' (_ & _ & Hn)%Hf]. done.
  - assert (filter P (recovery_codes db) = {[id := r]}) as ->.
    { apply map_eq. intros id'. apply option_eq. intros r'. rewrite Hf, lookup_singleton_Some. naive_solver. }
    rewrite map_to_list_singleton. assert (order_recovery [(id, r)] = [(id, r)]) as -> by (apply Permutation_singleton_r, order_recovery_perm).
    simpl. unfold read_id. by rewrite bool_decide_eq_true_2.
Qed.

Lemma batch_redeem verify b used db id c r now : batch_state verify b used db → (∀ id', (id', c) ∈ b → id' = id) → (id, c) ∈ b →
  recovery_codes db !! id = Some r → c ∉ used →
  ∃ db', run_tx NoFault (Redeem scope subject id now) db = (Ok Redeemed, db') ∧ batch_state verify b (c :: used) db' ∧
    totp_credentials db' = totp_credentials db ∧ key_tables db' = key_tables db.
Proof.
  intros (Hnd & Hrows & Hall) Hone Hin Hr Hu. destruct (Hrows id c Hin) as (r0 & Hr0 & Hid & Ho & Hb & Hv & Hc). assert (r0 = r) as -> by congruence.
  eexists. split; [|split].
  - unfold run_tx. cbn [tx]. unfold redeem. rewrite !bool_decide_eq_false_2 by (intros Hne; by apply Hne). cbn [orb].
    rewrite Hr, bool_decide_eq_true_2 by (split; [done|by apply Hc]). reflexivity.
  - split; [done|]. split; cbn [recovery_codes with_recovery insert_audit_row].
    + intros id' c' Hin'. destruct (decide (id' = id)) as [-> | Hne].
      * assert (c' = c) as ->.
        { apply list_elem_of_lookup in Hin as [i Hi], Hin' as [j Hj]. assert (i = j) as <-; [|congruence].
          eapply (NoDup_lookup b.*1 i j id); [done|by rewrite list_lookup_fmap, ?Hi, ?Hj..]. }
        exists (redeemed_row now r). rewrite lookup_insert_eq. do 5 (split; [done|]). simpl. split; [done|]. set_solver.
      * destruct (Hrows id' c' Hin') as (r' & Hr' & Hid' & Ho' & Hb' & Hv' & Hc'). exists r'. rewrite lookup_insert_ne by done.
        do 5 (split; [done|]). rewrite Hc', not_elem_of_cons. assert (c' ≠ c) by (intros ->; by apply Hne, Hone). tauto.
    + intros id' r'. destruct (decide (id' = id)) as [-> | Hne]; [intros _ _; apply list_elem_of_fmap; by exists (id, c)|].
      rewrite lookup_insert_ne by done. apply Hall.
  - done.
Qed.

(** ** Presenting a code *)

(** The key of the subject's active factor, when it has one, was not destroyed. *)
Definition factor_readable (db : FactorDb) : Prop := ∀ id r, totp_credentials db !! id = Some r → owned scope subject r → row_active r →
  ¬ key_destroyed (key_tables db) scope r.

Lemma run_recovery_attempt o n b used db presented id : batch_state (o_verify o) b used db → tags_distinct b →
  (∀ id', (id', normalize_recovery_code presented) ∈ b → id' = id) → (id, normalize_recovery_code presented) ∈ b →
  ∃ db', execute o n (recovery_attempt scope subject presented) db =
      (Some (if bool_decide (normalize_recovery_code presented ∈ used) then FactorInvalid else FactorRecovery), db') ∧
    batch_state (o_verify o) b (normalize_recovery_code presented :: used) db' ∧
    totp_credentials db' = totp_credentials db ∧ key_tables db' = key_tables db.
Proof.
  intros Hb Htags Hone Hin. destruct (batch_candidates _ _ _ _ _ _ Hb Htags Hin) as (r & Hr & Hv & Hcand).
  unfold recovery_attempt. cbn [execute serve query]. rewrite Hcand. case_bool_decide as Hu.
  - exists db. split; [done|]. destruct Hb as (Hnd & Hrows & Hall). split; [|done]. split; [done|]. split; [|done]. intros id' c' Hin'.
    destruct (Hrows id' c' Hin') as (r' & Hr' & Hid' & Ho' & Hb' & Hv' & Hc'). exists r'. do 5 (split; [done|]). rewrite Hc', not_elem_of_cons. naive_solver.
  - cbn [first_verified execute serve cand_code_hash cand_id]. rewrite Hv, bool_decide_eq_true_2 by done. cbn [execute serve].
    destruct (batch_redeem (o_verify o) b used db id _ r (o_micros o) Hb Hone Hin Hr Hu) as (db' & -> & Hb'). by exists db'.
Qed.

Lemma run_attempt o b used db presented id : batch_state (o_verify o) b used db → tags_distinct b → db_ok db → factor_readable db →
  length (normalize_recovery_code presented) = 16%nat → (∀ id', (id', normalize_recovery_code presented) ∈ b → id' = id) →
  (id, normalize_recovery_code presented) ∈ b →
  ∃ db', execute o 0 (verify_second_factor cfg scope subject presented) db =
      (Some (if bool_decide (normalize_recovery_code presented ∈ used) then FactorInvalid else FactorRecovery), db') ∧
    batch_state (o_verify o) b (normalize_recovery_code presented :: used) db' ∧
    totp_credentials db' = totp_credentials db ∧ key_tables db' = key_tables db.
Proof.
  intros Hb Htags Hok Hread Hlen Hone Hin. unfold verify_second_factor. cbn [execute serve query].
  pose proof (open_active_spec scope subject db Hok) as Hm. destruct (open_active_material scope subject db) as [[m|]|e]; [|by eapply run_recovery_attempt|].
  2: { destruct Hm as [_ [Hnone|(id' & r & Hr & Ho & Ha & Hd)]]; [congruence|]. by destruct (Hread id' r Hr Ho Ha). }
  destruct Hm as [[params Hp] _]. rewrite Hp. cbn [execute serve]. rewrite long_text_unmatched by (done || by eapply params_from_material_ok).
  by eapply run_recovery_attempt.
Qed.

(** The identifier of a code is unique in a batch with distinct tags. *)
Lemma tags_code_unique b id c : tags_distinct b → (id, c) ∈ b → ∀ id', (id', c) ∈ b → id' = id.
Proof. intros Ht Hin id' Hin'. by apply (Ht id' id c c). Qed.

Lemma attempts_spec verify b l : tags_distinct b → Forall (λ op, o_verify op.1 = verify ∧ length (normalize_recovery_code op.2) = 16%nat ∧
    normalize_recovery_code op.2 ∈ b.*2) l → ∀ used db, batch_state verify b used db → db_ok db → factor_readable db →
  attempts cfg scope subject l db = first_uses used ((λ op, normalize_recovery_code op.2) <$> l).
Proof.
  intros Htags. induction 1 as [|[o presented] l (Hv & Hlen & Hin) _ IH]; intros used db Hb Hok Hread; [done|]. simpl in Hv, Hlen, Hin. subst verify.
  apply list_elem_of_fmap in Hin as ([id c] & Heq & Hin). simpl in Heq. subst c.
  destruct (run_attempt o b used db presented id Hb Htags Hok Hread Hlen (tags_code_unique _ _ _ Htags Hin) Hin) as (db' & Hrun & Hb' & Ht & Hk).
  rewrite fmap_cons. cbn [attempts first_uses snd]. rewrite Hrun. f_equal. apply IH; [done| |by unfold factor_readable; rewrite Ht, Hk].
  pose proof (run_ok o (verify_second_factor cfg scope subject presented) 0 db Hok) as Hok'. by rewrite Hrun in Hok'.
Qed.

(** ** Generating a batch *)

Section Generate.
Context (o : Oracle) (Hfill : ∀ n size, length (o_fill o n size) = size)
  (Hhash : ∀ password hash, o_hash o scope password = Ok hash → pool_exact (o_verify o) hash password).

Lemma run_draw_codes {A} count : ∀ n plaintext materials rejected (k : list text → list NewRecoveryCode → Prog A) db result,
  execute o n (draw_codes scope count plaintext materials rejected k) db = result →
  (∃ rejection, result.1 = Some (rejected rejection)) ∨
  ∃ m shown drawn, execute o m (k (plaintext ++ shown) (materials ++ drawn)) db = result ∧ length shown = count ∧
    normalized_code <$> drawn = normalize_recovery_code <$> shown ∧ Forall (λ c, length (normalize_recovery_code c) = 16%nat) shown ∧
    Forall (λ c, pool_exact (o_verify o) (code_hash c) (normalized_code c)) drawn.
Proof.
  induction count as [|count IH]; intros n plaintext materials rejected k db result; cbn [draw_codes execute serve].
  { intros Hk. right. exists n, [], []. rewrite !app_nil_r. split_and!; done || constructor. }
  destruct (o_hash o scope _) as [hash|rejection] eqn:Hh; [|intros <-; left; by exists rejection].
  intros [Hrej|(m & shown & drawn & Hk & Hlen & Hn & Hs & Hd)]%IH; [by left|]. right. eexists m, (_ :: shown), (_ :: drawn). rewrite <-!app_assoc in Hk.
  split; [exact Hk|]. split; [simpl; by rewrite Hlen|]. split; [rewrite !fmap_cons; by f_equal|].
  split; constructor; try done; [apply normalize_shown, Hfill|simpl; by apply Hhash].
Qed.

Lemma run_draw_ids {A} codes : ∀ n drawn (k : list (text * NewRecoveryCode) → Prog A) db, ∃ m ids,
  execute o n (draw_ids codes drawn k) db = execute o m (k (drawn ++ ids)) db ∧ ids.*2 = codes.
Proof.
  induction codes as [|c codes IH]; intros n drawn k db; cbn [draw_ids execute serve]; [exists n, []; by rewrite app_nil_r|].
  destruct (IH (S n) (drawn ++ [(o_fill o n COMPONENT_BYTES, c)]) k db) as (m & ids & -> & Hids).
  exists m, ((o_fill o n COMPONENT_BYTES, c) :: ids). rewrite <-app_assoc. split; [done|]. by rewrite fmap_cons, Hids.
Qed.

(** The rows a replaced set consists of. *)
Lemma replace_all_batch codes db_now db g db' : replace_all scope subject codes db_now db = Ok (g, db') →
  Forall (λ c, pool_exact (o_verify o) (code_hash c) (normalized_code c)) codes.*2 →
  batch_state (o_verify o) ((λ d, (ScopedId_generate d.1 scope, normalized_code d.2)) <$> codes) [] db'.
Proof.
  unfold replace_all. rewrite bool_decide_eq_false_2 by (intros Hne; by apply Hne). rewrite Hmaster. destruct (next_generation _ _ _) as [generation|]; [|done]. cbn zeta.
  destruct (insert_codes _ _ _ _) as [t|] eqn:Hins; [|done]. intros [= <- <-] Hpool. apply insert_codes_spec in Hins as (-> & Hnd & _).
  assert (∀ l : list (text * NewRecoveryCode), NoDup l.*1 → NoDup ((λ d, ScopedId_generate d.1 scope) <$> l)) as Hids.
  { intros l Hl. replace ((λ d, ScopedId_generate d.1 scope) <$> l) with ((λ e, ScopedId_generate e scope) <$> l.*1) by (by rewrite <-list_fmap_compose).
    apply NoDup_fmap_2; [|done]. by intros e e' [= ->]. }
  set (row := new_row mk scope subject generation db_now). split; [|split]; cbn [recovery_codes with_recovery insert_audit_row].
  - rewrite <-list_fmap_compose. by apply Hids.
  - intros id c ([entropy d] & [= -> ->] & Hin)%list_elem_of_fmap. simpl. exists (row d). split.
    + apply lookup_union_Some_l, elem_of_list_to_map_1; [rewrite <-list_fmap_compose; by apply Hids|].
      apply list_elem_of_fmap. by exists (entropy, d).
    + split; [apply scope_generate|]. split; [done|]. split; [done|]. split; [|split; [intros _; apply not_elem_of_nil|done]].
      rewrite Forall_forall in Hpool. apply (Hpool d). apply list_elem_of_fmap. by exists (entropy, d).
  - intros id r Hr Ho. apply lookup_union_Some_raw in Hr as [Hr|[_ Hr]].
    + apply elem_of_list_to_map_2, list_elem_of_fmap in Hr as ([entropy d] & [= -> ->] & Hin). apply list_elem_of_fmap.
      exists (ScopedId_generate entropy scope, normalized_code d). split; [done|]. apply list_elem_of_fmap. by exists (entropy, d).
    + apply map_lookup_filter_Some in Hr as [_ Hno]. by destruct Hno.
Qed.

Lemma run_generate n db shown db' : execute o n (generate_and_store_recovery_codes cfg scope subject) db = (Some (Ok shown), db') →
  length shown = cfg_recovery_code_count cfg ∧ Forall (λ c, length (normalize_recovery_code c) = 16%nat) shown ∧
  ∃ b, b.*2 = normalize_recovery_code <$> shown ∧ batch_state (o_verify o) b [] db'.
Proof.
  unfold generate_and_store_recovery_codes. intros [[rejection [=]]|(m & codes & drawn & Hrun & Hlen & Hnorm & Hall & Hpool)]%run_draw_codes.
  cbn [app] in Hrun. match type of Hrun with execute _ _ (draw_ids _ _ ?k) _ = _ => destruct (run_draw_ids drawn m [] k db) as (m' & ids & Heq & <-) end.
  rewrite Heq in Hrun. clear Heq. cbn [execute serve app] in Hrun.
  unfold run_tx in Hrun. cbn [tx] in Hrun. destruct (replace_all _ _ _ _ _) as [[g d]|] eqn:Hrep; [|done]. injection Hrun as <- <-.
  split; [done|]. split; [done|]. apply replace_all_batch in Hrep; [|done]. eexists. split; [|exact Hrep].
  rewrite <-Hnorm, <-!list_fmap_compose. done.
Qed.

Lemma nodup_tags b : NoDup (code_index mk scope subject <$> b.*2) → tags_distinct b.
Proof.
  intros Hnd id id' c c' [i Hi]%list_elem_of_lookup [j Hj]%list_elem_of_lookup Heq. assert (i = j) as <-; [|congruence].
  eapply (NoDup_lookup _ i j (code_index mk scope subject c) Hnd); rewrite !list_lookup_fmap, ?Hi, ?Hj; simpl; congruence.
Qed.
End Generate.

(** C25 (roundtrip): the recovery codes shown when a set is generated are the ones that redeem: there are
    as many as configured, and whatever sequence of them is presented later, each typed with
    any grouping, a code is accepted the first time and refused from then on, whether or not
    the subject has a TOTP factor and whatever the clock says.  That the pool verifies a text
    exactly against its own hash and that the keyed tags of the codes differ are hypotheses,
    as is that the key of the subject's TOTP factor was not destroyed: the code refuses a
    recovery code when it cannot open the factor. *)
Theorem generated_codes_redeem_once (o : Oracle) n db shown db' (l : list (Oracle * text))
    (Hok : db_ok db) (Hfill : ∀ n size, length (o_fill o n size) = size)
    (Hhash : ∀ password hash, o_hash o scope password = Ok hash → pool_exact (o_verify o) hash password)
    (Hrun : execute o n (generate_and_store_recovery_codes cfg scope subject) db = (Some (Ok shown), db'))
    (Hread : factor_readable db')
    (Htags : NoDup ((λ c, code_index mk scope subject (normalize_recovery_code c)) <$> shown))
    (Hl : Forall (λ op, o_verify op.1 = o_verify o ∧ normalize_recovery_code op.2 ∈ normalize_recovery_code <$> shown) l) :
  length shown = cfg_recovery_code_count cfg ∧
  attempts cfg scope subject l db' = first_uses [] ((λ op, normalize_recovery_code op.2) <$> l).
Proof.
  destruct (run_generate o Hfill Hhash n db shown db' Hrun) as (Hlen & Hall & b & Hb2 & Hb). split; [done|]. apply (attempts_spec (o_verify o) b).
  - apply nodup_tags. by rewrite Hb2, <-list_fmap_compose.
  - eapply Forall_impl; [exact Hl|]. intros [o' presented] [Hv Hin]. simpl in *. split; [done|]. split; [|by rewrite Hb2].
    apply list_elem_of_fmap in Hin as (c & -> & Hc). rewrite Forall_forall in Hall. by apply Hall.
  - done.
  - pose proof (run_ok o (generate_and_store_recovery_codes cfg scope subject) n db Hok) as Hok'. by rewrite Hrun in Hok'.
  - done.
Qed.
End Batch.
End Runs.

(** ** Concrete runs *)

Module FactorSamples.
Import IdSamples.

(** A digest that starts with the end of the message. *)
#[export] Instance tail_hmac : Hmac := {|
  hmac_sign a key msg := take (digest_length a) (reverse ((λ b, Z.land b 0xFF) <$> msg) ++ replicate 64 0) |}.

#[export] Instance tail_hmac_laws : HmacLaws.
Proof.
  constructor; intros a key msg; unfold hmac_sign, tail_hmac.
  - rewrite length_take, length_app, length_replicate. destruct a; cbn [digest_length]; lia.
  - apply Forall_take, Forall_app. split; [|apply Forall_replicate; unfold is_byte; lia]. apply Forall_reverse, Forall_fmap, Forall_forall.
    intros b _. simpl. unfold is_byte. change 0xFF with (Z.ones 8). rewrite Z.land_ones by lia. apply Z.mod_pos_bound. lia.
Qed.

(** An authenticated copy: the tag sums up the key, the nonce and the associated data. *)
Definition copy_tag (key nonce aad : bytes) : bytes := replicate TAG_LEN (Z.land (foldr Z.add 0 (key ++ nonce ++ aad)) 0xFF).

#[export] Instance copy_aead : Aead := {|
  aead_seal key nonce aad plaintext := plaintext ++ copy_tag key nonce aad;
  aead_open key nonce aad sealed :=
    let at_tag := (length sealed - TAG_LEN)%nat in
    if bool_decide (drop at_tag sealed = copy_tag key nonce aad) then Some (take at_tag sealed) else None |}.

#[export] Instance copy_aead_laws : AeadLaws.
Proof.
  split; intros key nonce aad plaintext; unfold aead_seal, aead_open, copy_aead, copy_tag; [intros _ _; cbn zeta|].
  - rewrite length_app, length_replicate, Nat.add_sub, drop_app_length, take_app_length. by rewrite bool_decide_eq_true_2.
  - by rewrite length_app, length_replicate.
Qed.

Definition sample_key : MasterKey := mkMasterKey (lit "master-1") (replicate 32 7).

Lemma sample_key_len mk : Some sample_key = Some mk → length (mkey_bytes mk) = KEY_LEN.
Proof. by intros [= <-]. Qed.

#[export] Instance sample_master : Master := {| master := Some sample_key; master_len := sample_key_len |}.

#[export] Instance listed_rows : RowOrder := {| order_totp l := l; order_recovery l := l |}.

#[export] Instance listed_rows_laws : RowOrderLaws.
Proof. by split. Qed.

Definition sample_cfg : FactorConfig :=
  {| cfg_totp_params := authenticator_default; cfg_drift_steps := 1; cfg_issuer := lit "Acme"; cfg_recovery_code_count := 3 |}.

Definition sample_oracle (secs : Z) : Oracle :=
  {| o_secs := secs; o_micros := secs * 1000000; o_db_now := secs * 1000000; o_fill n size := take size (chr (Z.of_nat n) :: replicate size "0"%char);
     o_verify _ password hash := Ok (bool_decide (password = hash)); o_hash _ password := Ok password; o_password _ _ := Ok None |}.

Lemma sample_fill o n size : length (o_fill (sample_oracle o) n size) = size.
Proof. simpl. rewrite length_take. simpl. rewrite length_replicate. lia. Qed.

Definition empty_db : FactorDb := mkDb ∅ ∅ [] (mkKeys ∅ ∅).

Lemma empty_db_ok : db_ok empty_db.
Proof.
  split; [split|split]; [apply map_Forall_empty| |apply map_Forall_empty|].
  - intros id id' r r' Hr. by apply (lookup_empty_Some id r) in Hr.
  - intros mk _. split; [|apply map_Forall_empty]. intros scope version [d Hd]. simpl in Hd. by rewrite lookup_empty in Hd.
Qed.

Definition generated : option (Result (list text) Response) * FactorDb :=
  execute (sample_oracle 0) 0 (generate_and_store_recovery_codes sample_cfg acme alice) empty_db.

Definition shown_codes : list text := match generated.1 with Some (Ok shown) => shown | _ => [] end.

(** The second code without its hyphens, then the first, then the second again. *)
Definition presented_codes : list (Oracle * text) :=
  (λ t, (sample_oracle 90, t)) <$> [normalize_recovery_code (default [] (shown_codes !! 1%nat)); default [] (shown_codes !! 0%nat); default [] (shown_codes !! 1%nat)].

Lemma generated_codes_redeem_once_witness : length shown_codes = 3%nat ∧
  attempts sample_cfg acme alice presented_codes generated.2 = [Some FactorRecovery; Some FactorRecovery; Some FactorInvalid].
Proof.
  destruct (generated_codes_redeem_once sample_cfg sample_key (eq_refl (@master sample_master)) acme alice eq_refl (sample_oracle 0) 0 empty_db shown_codes generated.2 presented_codes) as [Hlen Hatt].
  - apply empty_db_ok.
  - apply sample_fill.
  - intros password hash [= <-] presented. done.
  - change (generated = (Some (Ok shown_codes), generated.2)). rewrite (surjective_pairing generated) at 1. apply (f_equal (λ x, (x, generated.2))).
    vm_compute. reflexivity.
  - assert (totp_credentials generated.2 = ∅) as Hno by (vm_compute; reflexivity). intros id r Hr. by rewrite Hno, lookup_empty in Hr.
  - apply (bool_decide_unpack _). vm_compute. exact I.
  - unfold presented_codes. rewrite !fmap_cons.
    repeat (apply Forall_cons; split; [split; [done|apply (bool_decide_unpack _); vm_compute; exact I]|]). apply Forall_nil_2.
  - split; [exact Hlen|]. rewrite Hatt. vm_compute. reflexivity.
Defined.

(** *** One active factor *)

Definition alice_totp : ScopedId := ScopedId_generate (component "t") acme.

(** The day-one keys of the scope. *)
Definition keyed : list Command :=
  [command (ProvisionKek acme (component "k") (lit "kek bytes") (lit "n1")) NoFault; command (ProvisionDek acme (component "d") (lit "dek bytes") (lit "n2")) NoFault].

Definition alice_factor : RestoredTotp :=
  {| rt_seed := [1; 2; 3]; rt_friendly_name := DEFAULT_TOTP_NAME; rt_algorithm := "SHA1"; rt_digits := 6; rt_period_secs := 30; rt_status := "active";
     rt_last_consumed_step := None |}.

Definition active_db : FactorDb :=
  foldl exec empty_db (keyed ++ [command (Restore acme alice alice_factor (component "t") (lit "n3") (lit "n4") 0 0) NoFault]).

Lemma active_db_ok : db_ok active_db.
Proof. apply exec_ok, empty_db_ok. Qed.

Definition alice_row : TotpRow :=
  {| tr_scope := acme; tr_subject := alice; tr_seed := default [] (tr_seed <$> totp_credentials active_db !! alice_totp);
     tr_name_sealed := default [] (tr_name_sealed <$> totp_credentials active_db !! alice_totp); tr_dek_version := 1; tr_algorithm := "SHA1"; tr_digits := 6;
     tr_period_secs := 30; tr_status := "active"; tr_last_consumed_step := None; tr_last_offset := None; tr_created_at := 0; tr_activated_at := Some 0;
     tr_last_used_at := None |}.

Lemma active_db_rows : map_to_list (totp_credentials active_db) = [(alice_totp, alice_row)] ∧ map_to_list (recovery_codes active_db) = [].
Proof. split; vm_compute; reflexivity. Qed.

Definition start_pool : Pool := mkPool [] (mkWorld active_db {[alice_totp]} []).

Lemma start_world_ok : world_ok (world start_pool).
Proof.
  split; [apply active_db_ok|]. split; [|split].
  - destruct active_db_rows as [Ht Hc]. intros id [[r Hr]|[r Hr]]; cbn [w_db world start_pool] in Hr; apply elem_of_map_to_list in Hr.
    + rewrite Ht in Hr. apply list_elem_of_singleton in Hr as [= -> _]. set_solver.
    + rewrite Hc in Hr. destruct (not_elem_of_nil _ Hr).
  - apply NoDup_nil_2.
  - intros o s []%elem_of_nil.
Qed.

(** The code of the step of the instant 59. *)
Definition sample_code : text := match code_for_timestep [1; 2; 3] authenticator_default 1 with Returned c => chr <$> c | _ => [] end.

Definition sample_challenge : Request := StepUpChallenge acme alice (lit " " ++ sample_code).

Lemma accepted_codes_are_distinct_witness : ∃ p' t s, rtc (pool_step sample_cfg) start_pool p' ∧ threads p' !! 0%nat = Some t ∧
  th_prog t = Ret (SecondFactorReply FactorTotp) ∧ consumed (th_log t) = [s] ∧ spent_in (w_db (world p')) s.
Proof.
  destruct (run_pool sample_cfg (sample_oracle 59) sample_challenge (handler sample_cfg sample_challenge)) with (n := 0%nat) (log := @nil Entry) (i := 0%nat)
    (ts := [mkThread sample_challenge (handler sample_cfg sample_challenge) []]) (w := world start_pool) (reply := SecondFactorReply FactorTotp)
    (db' := (execute (sample_oracle 59) 0 (handler sample_cfg sample_challenge) active_db).2) as (log' & w' & Hr & _).
  - vm_compute. split; discriminate.
  - apply sample_fill.
  - apply step_up_draws_nothing.
  - done.
  - rewrite (surjective_pairing (execute _ _ _ _)). apply (f_equal (λ x, (x, _))). vm_compute. reflexivity.
  - set (p' := mkPool [mkThread sample_challenge (Ret (SecondFactorReply FactorTotp)) log'] w').
    assert (rtc (pool_step sample_cfg) start_pool p') as Hreach by (eapply rtc_l; [apply pool_arrives|exact Hr]).
    destruct (accepted_codes_are_distinct sample_cfg ltac:(by split) start_pool p' eq_refl start_world_ok Hreach 0 _ eq_refl) as [_ Hsucc].
    destruct (Hsucc _ eq_refl eq_refl) as (s & Hc & _ & Hs & _). by exists p', (mkThread sample_challenge (Ret (SecondFactorReply FactorTotp)) log'), s.
Defined.

(** Both keys are rotated, a second enrollment begun and one removal refused. *)
Definition rotations : list Command :=
  [command (RotateKek acme (component "l") (lit "new kek") (lit "n5") (λ _, lit "n6")) NoFault;
   command (RotateDek acme (component "e") (lit "new dek") (lit "n7")) NoFault; command (Remove acme alice alice) NoFault].

Definition alice_enrollment : NewTotpEnrollment :=
  {| en_seed := [4; 5]; en_friendly_name := DEFAULT_TOTP_NAME; en_algorithm := "SHA1"; en_digits := 6; en_period_secs := 30 |}.

Definition enrolled : Result (ScopedId * FactorDb) StoreError := tx (BeginEnroll acme alice alice_enrollment (component "p") [] [] 0) active_db.

Definition reopened : Result (option TotpMaterial) StoreError :=
  match enrolled with Ok (id, db1) => open_material acme alice id (foldl exec db1 rotations) | Err e => Err e end.

Definition opened_some (answer : Result (option TotpMaterial) StoreError) : bool := match answer with Ok (Some _) => true | _ => false end.

Lemma stored_factors_are_usable_witness :
  (∃ m, open_active_material acme alice (foldl exec active_db rotations) = Ok (Some m) ∧ is_Some (params_from_material m)) ∧
  ∃ m, reopened = Ok (Some m) ∧ tm_seed m = [4; 5].
Proof.
  destruct (stored_factors_are_usable active_db rotations acme alice active_db_ok) as [Hactive Henrolled]. cbv zeta in Hactive. split.
  - assert (opened_some (open_active_material acme alice (foldl exec active_db rotations)) = true) as Hopen by (vm_compute; reflexivity).
    destruct (open_active_material acme alice (foldl exec active_db rotations)) as [[m|]|e]; [|discriminate Hopen..].
    exists m. split; [reflexivity|apply Hactive].
  - assert (opened_some reopened = true) as Hopen by (vm_compute; reflexivity). unfold reopened in *.
    destruct enrolled as [[id db1]|] eqn:Htx; [|discriminate Hopen]. destruct (open_material acme alice id (foldl exec db1 rotations)) as [[m|]|] eqn:Hm;
      [|discriminate Hopen..]. exists m. split; [reflexivity|]. unfold enrolled in Htx. refine (Henrolled _ _ _ _ _ id db1 m Htx _ Hm).
    repeat (apply Forall_cons; split; [apply not_elem_of_nil|]). apply Forall_nil_2.
Defined.

(** A destroyed key makes the factor unreadable, and the failure is reported as such. *)
Lemma destroyed_key_is_reported :
  open_active_material acme alice (foldl exec active_db (rotations ++ [command (DestroyKek acme 7) NoFault])) = Err StoreEncryption.
Proof. vm_compute. reflexivity. Qed.

Definition password_body : RecoveryRegenerateBody := {| rb_password := Some (lit "hunter2"); rb_totp_code := None; rb_recovery_code := None |}.

Lemma codes_replaced_only_on_proof_witness : cfg_ok sample_cfg ∧
  guarded (regenerate_guard sample_cfg acme alice password_body) [] (account_regenerate sample_cfg acme alice password_body).
Proof. split; [by split|]. apply (codes_replaced_only_on_proof sample_cfg ltac:(by split) acme alice password_body [] []). Defined.

(** *** Where the code departs from its comments *)

Definition alice_pending : ScopedId := ScopedId_generate (component "q") acme.

Definition alice_code : RecoveryRow :=
  {| rr_scope := acme; rr_subject := alice; rr_code_hash := lit "H"; rr_code_bidx := None; rr_generation := 5; rr_consumed_at := None; rr_created_at := 0 |}.

(** An active factor with a recovery code, and a second enrollment that was begun and abandoned. *)
Definition abandoned_db : FactorDb :=
  with_recovery {[ScopedId_generate (component "r") acme := alice_code]}
    (exec active_db (command (BeginEnroll acme alice alice_enrollment (component "q") [] [] 0) NoFault)).

(** Removing the abandoned enrollment deletes the recovery codes of the factor that stays. *)
Lemma pending_removal_drops_codes : size (recovery_codes abandoned_db) = 1%nat ∧
  match remove acme alice alice_pending abandoned_db with
  | Ok (Removed, db') => totp_credentials db' !! alice_totp = Some alice_row ∧ size (recovery_codes db') = 0%nat
  | _ => False
  end.
Proof. vm_compute. by repeat split. Qed.

(** The generation after the fifth batch was deleted with its factor is the first. *)
Lemma generation_restarts : next_generation acme alice (recovery_codes abandoned_db) = Ok 6 ∧
  match remove acme alice alice_totp abandoned_db with
  | Ok (Removed, db') => match replace_all acme alice [] 0 db' with Ok (generation, _) => generation = 1 | Err _ => False end
  | _ => False
  end.
Proof. vm_compute. by split. Qed.

Definition rejecting_oracle (r : HashRejection) : Oracle :=
  {| o_secs := 0; o_micros := 0; o_db_now := 0; o_fill := o_fill (sample_oracle 0); o_verify _ _ _ := Err r; o_hash := o_hash (sample_oracle 0);
     o_password := o_password (sample_oracle 0) |}.

(** The rejections the pool calls retryable are reported as an error, the fatal one as unavailable. *)
Lemma retryable_rejection_is_error :
  (execute (rejecting_oracle Overloaded) 0 (verify_second_factor sample_cfg acme alice (lit "ABCD-EFGH")) abandoned_db).1 = Some FactorError ∧
  (execute (rejecting_oracle PoolExhausted) 0 (verify_second_factor sample_cfg acme alice (lit "ABCD-EFGH")) abandoned_db).1 = Some FactorError ∧
  (execute (rejecting_oracle PoolUnavailable) 0 (verify_second_factor sample_cfg acme alice (lit "ABCD-EFGH")) abandoned_db).1 = Some FactorUnavailable.
Proof. split; [vm_compute; reflexivity|]. split; vm_compute; reflexivity. Qed.
End FactorSamples.
