(* ===== verification/SigningKeys.v ===== *)
(** * Signing keys and their public halves

    crates/ironauth-jose signing_key.rs (the keys, their constructors and their public
    projection), sign.rs (which primitive signs), jwks.rs (the published key set and the
    parser of an inbound one) and the thumbprint of dpop.rs.  The key pairs of ring are the
    class [KeyPairs], the JSON writer [JsonWriter] and the base64url encoder [JoseEncoder];
    what their documentation promises is a class of laws each.  The theorems: the private
    DER cursor reads every RSA public key; the public half of a constructed key is well
    formed; a published key set is read back as the keys that verify; a thumbprint
    identifies a key. *)

From S2P Require Import Prelude Machine Bytes Der Text Json SigningPolicy Rotation JosePolicy JoseHeader JoseClaims JoseVerify.

Local Open Scope Z_scope.

(** ** The cryptographic backend *)

Inductive EcdsaSigningAlgorithm : Set := ECDSA_P256_SHA256_FIXED_SIGNING | ECDSA_P384_SHA384_FIXED_SIGNING.

Inductive RsaEncoding : Set :=
| RSA_PKCS1_SHA256 | RSA_PKCS1_SHA384 | RSA_PKCS1_SHA512 | RSA_PSS_SHA256 | RSA_PSS_SHA384 | RSA_PSS_SHA512.

Inductive MacAlgorithm : Set := Hs256 | Hs384 | Hs512.

(** The key pairs, the signing random numbers, the digest and the MAC of ring. *)
Class KeyPairs := {
  Ed25519KeyPair : Type; EcdsaKeyPair : Type; RsaKeyPair : Type; SecureRandom : Type;
  from_seed_unchecked : bytes → option Ed25519KeyPair;
  from_pkcs8 : EcdsaSigningAlgorithm → bytes → option EcdsaKeyPair;
  from_der : bytes → option RsaKeyPair;
  ed25519_public_key : Ed25519KeyPair → bytes;
  ecdsa_public_key : EcdsaKeyPair → bytes;
  rsa_public : RsaKeyPair → bytes;
  modulus_len : RsaKeyPair → Z;
  ed25519_sign : Ed25519KeyPair → bytes → bytes;
  ecdsa_sign : EcdsaKeyPair → SecureRandom → bytes → option bytes;
  rsa_pair_sign : RsaKeyPair → RsaEncoding → SecureRandom → bytes → option bytes;
  hmac_digest : MacAlgorithm → bytes → bytes → bytes;
  digest_sha256 : bytes → bytes }.

(** [URL_SAFE_NO_PAD.encode]. *)
Class JoseEncoder := { b64url_encode : bytes → text }.

(** [serde_json::to_vec]. *)
Class JsonWriter `{SerdeNumber} := { json_to_vec : Value → option bytes }.

(** A [String] of the characters of a text. *)
Definition of_text (s : text) : string := String.string_of_list_ascii s.

(** ** Keys *)

Inductive KeyPairInner `{KeyPairs} : Type :=
| InnerEd25519 (key : Ed25519KeyPair)
| InnerEcdsaP256 (key : EcdsaKeyPair)
| InnerEcdsaP384 (key : EcdsaKeyPair)
| InnerRsa (key : RsaKeyPair).

#[export] Instance ring_material `{KeyPairs} : SecretMaterial := {| KeyInner := KeyPairInner |}.

Inductive PublicComponents : Type :=
| Okp (x : bytes)
| Ec (crv : string) (x y : bytes)
| RsaComponents (n e : bytes).

Inductive SigningKeyError : Set :=
| BadSeedLength (expected actual : Z)
| InvalidKeyMaterial | AlgorithmNotRsa | RsaKeyTooSmall | MalformedPublicKey | KeyGeneration.

Definition SigningKeyError_to_string (e : SigningKeyError) : string :=
  match e with
  | BadSeedLength expected actual =>
      "Ed25519 seed has wrong length: expected " +:+ pretty expected +:+ ", got " +:+ pretty actual
  | InvalidKeyMaterial => "signing key material was rejected"
  | AlgorithmNotRsa => "an RSA key constructor was given a non-RSA algorithm"
  | RsaKeyTooSmall => "RSA signing key modulus is below the 2048-bit floor"
  | MalformedPublicKey => "signing key has a malformed public projection"
  | KeyGeneration => "fresh signing key generation or DER export failed"
  end.

Definition ED25519_SEED_LEN : Z := 32.
Definition RSA_MIN_MODULUS_BYTES : Z := 256.
Definition ED25519_SIGNATURE_BYTES : Z := 64.
Definition ECDSA_P256_SIGNATURE_BYTES : Z := 64.
Definition ECDSA_P384_SIGNATURE_BYTES : Z := 96.

(** *** The DER cursor

    [bytes] and [pos]; a method that moves the cursor returns it. *)
Record DerCursor : Type := mkCursor { cur_bytes : bytes; cur_pos : Z }.

Definition cursor_new (bs : bytes) : DerCursor := mkCursor bs 0.

Definition cursor_take (n : Z) (c : DerCursor) : Result (bytes * DerCursor) SigningKeyError :=
  let stop := cur_pos c + n in
  if U64_MAX <? stop then Err MalformedPublicKey
  else if Z.of_nat (length (cur_bytes c)) <? stop then Err MalformedPublicKey
  else Ok (take (Z.to_nat n) (drop (Z.to_nat (cur_pos c)) (cur_bytes c)), mkCursor (cur_bytes c) stop).

(** The slice of [take(1)] has one byte. *)
Definition cursor_byte (c : DerCursor) : Result (Z * DerCursor) SigningKeyError :=
  let? (slice, c) := cursor_take 1 c in Ok (default 0 (head slice), c).

(** [usize::shl] drops the bits shifted out. *)
Definition push_length_byte (len b : Z) : Z := Z.lor (Z.shiftl len 8 mod 2 ^ 64) b.

Definition cursor_read_length (c : DerCursor) : Result (Z * DerCursor) SigningKeyError :=
  let? (first, c) := cursor_byte c in
  if Z.land first 0x80 =? 0 then Ok (first, c)
  else
    let count := Z.land first 0x7f in
    if (count =? 0) || (USIZE_BYTES <? count) then Err MalformedPublicKey
    else
      let? (slice, c) := cursor_take count c in Ok (foldl push_length_byte 0 slice, c).

Definition cursor_enter_sequence (c : DerCursor) : Result DerCursor SigningKeyError :=
  let? (tag, c) := cursor_byte c in
  if negb (tag =? 0x30) then Err MalformedPublicKey
  else let? (_, c) := cursor_read_length c in Ok c.

(** Strip one sign byte, when something follows it. *)
Definition strip_sign_byte (raw : bytes) : bytes :=
  match raw with
  | first :: ((_ :: _) as rest) => if first =? 0 then rest else raw
  | _ => raw
  end.

Definition cursor_read_integer (c : DerCursor) : Result (bytes * DerCursor) SigningKeyError :=
  let? (tag, c) := cursor_byte c in
  if negb (tag =? 0x02) then Err MalformedPublicKey
  else
    let? (len, c) := cursor_read_length c in
    let? (raw, c) := cursor_take len c in
    Ok (strip_sign_byte raw, c).

Definition parse_rsa_public_der (der : bytes) : Result (bytes * bytes) SigningKeyError :=
  let? c := cursor_enter_sequence (cursor_new der) in
  let? (n, c) := cursor_read_integer c in
  let? (e, _) := cursor_read_integer c in
  Ok (n, e).

Definition ec_components (crv : string) (coord_len : Z) (point : bytes) : Result PublicComponents SigningKeyError :=
  let expected := 1 + 2 * coord_len in
  if negb (Z.of_nat (length point) =? expected) || negb (bool_decide (head point = Some 0x04)) then Err MalformedPublicKey
  else Ok (Ec crv (take (Z.to_nat coord_len) (drop 1 point)) (drop (Z.to_nat (1 + coord_len)) point)).

(** [KeyError] maps to one variant. *)
Definition from_key_error {T} (r : Result T KeyError) : Result T SigningKeyError :=
  match r with Ok x => Ok x | Err _ => Err MalformedPublicKey end.

(** [map_err(|_| e)] on a backend result. *)
Definition ok_or_error {T E} (o : option T) (e : E) : Result T E := match o with Some x => Ok x | None => Err e end.

Section Keys.
Context `{KeyPairs}.

Definition ed25519_from_seed (k : option string) (seed : bytes) : Result SigningKey SigningKeyError :=
  if negb (Z.of_nat (length seed) =? ED25519_SEED_LEN) then
    Err (BadSeedLength ED25519_SEED_LEN (Z.of_nat (length seed)))
  else
    let? key := ok_or_error (from_seed_unchecked seed) InvalidKeyMaterial in
    Ok {| kid := k; algorithm := EdDsa; inner := InnerEd25519 key |}.

(** [entropy] is what the seam fills the seed with. *)
Definition generate_ed25519 (k : option string) (entropy : bytes) : Result SigningKey SigningKeyError :=
  ed25519_from_seed k entropy.

Definition ecdsa_p256_from_pkcs8 (k : option string) (pkcs8 : bytes) : Result SigningKey SigningKeyError :=
  let? key := ok_or_error (from_pkcs8 ECDSA_P256_SHA256_FIXED_SIGNING pkcs8) InvalidKeyMaterial in
  Ok {| kid := k; algorithm := Es256; inner := InnerEcdsaP256 key |}.

Definition ecdsa_p384_from_pkcs8 (k : option string) (pkcs8 : bytes) : Result SigningKey SigningKeyError :=
  let? key := ok_or_error (from_pkcs8 ECDSA_P384_SHA384_FIXED_SIGNING pkcs8) InvalidKeyMaterial in
  Ok {| kid := k; algorithm := Es384; inner := InnerEcdsaP384 key |}.

Definition rsa_from_pkcs1_der (k : option string) (alg : JwsAlgorithm) (der : bytes) : Result SigningKey SigningKeyError :=
  if negb (bool_decide (key_family alg = Rsa)) then Err AlgorithmNotRsa
  else
    let? key := ok_or_error (from_der der) InvalidKeyMaterial in
    if modulus_len key <? RSA_MIN_MODULUS_BYTES then Err RsaKeyTooSmall
    else Ok {| kid := k; algorithm := alg; inner := InnerRsa key |}.

Definition signing_key_family (key : SigningKey) : KeyFamily := key_family (algorithm key).

Definition signature_len (key : SigningKey) : Z :=
  match inner key with
  | InnerEd25519 _ => ED25519_SIGNATURE_BYTES
  | InnerEcdsaP256 _ => ECDSA_P256_SIGNATURE_BYTES
  | InnerEcdsaP384 _ => ECDSA_P384_SIGNATURE_BYTES
  | InnerRsa kp => modulus_len kp
  end.

Definition rsa_public_key_der (key : SigningKey) : option bytes :=
  match inner key with InnerRsa kp => Some (rsa_public kp) | _ => None end.

Definition public_components (key : SigningKey) : Result PublicComponents SigningKeyError :=
  match inner key with
  | InnerEd25519 kp => Ok (Okp (ed25519_public_key kp))
  | InnerEcdsaP256 kp => ec_components "P-256" 32 (ecdsa_public_key kp)
  | InnerEcdsaP384 kp => ec_components "P-384" 48 (ecdsa_public_key kp)
  | InnerRsa kp => let? (n, e) := parse_rsa_public_der (rsa_public kp) in Ok (RsaComponents n e)
  end.

Definition verifying_key (key : SigningKey) : Result TrustedKey SigningKeyError :=
  let k := kid key in
  let? components := public_components key in
  match components with
  | Okp x => from_key_error (trusted_ed25519 k x)
  | Ec crv x y =>
      if bool_decide (crv = "P-256") then from_key_error (trusted_ecdsa_p256 k x y)
      else if bool_decide (crv = "P-384") then from_key_error (trusted_ecdsa_p384 k x y)
      else Err MalformedPublicKey
  | RsaComponents n e => from_key_error (trusted_rsa k n e)
  end.

(** ** Signing *)

Definition rsa_sign (kp : RsaKeyPair) (padding : RsaEncoding) (rng : SecureRandom) (signing_input : bytes) : option bytes :=
  rsa_pair_sign kp padding rng signing_input.

(** [rng] is the source [secure_random()] returns; [None] is the opaque error. *)
Definition sign_asymmetric (key : SigningKey) (rng : SecureRandom) (signing_input : bytes) : option bytes :=
  match algorithm key, inner key with
  | EdDsa, InnerEd25519 k => Some (ed25519_sign k signing_input)
  | Es256, InnerEcdsaP256 k => ecdsa_sign k rng signing_input
  | Es384, InnerEcdsaP384 k => ecdsa_sign k rng signing_input
  | Rs256, InnerRsa k => rsa_sign k RSA_PKCS1_SHA256 rng signing_input
  | Rs384, InnerRsa k => rsa_sign k RSA_PKCS1_SHA384 rng signing_input
  | Rs512, InnerRsa k => rsa_sign k RSA_PKCS1_SHA512 rng signing_input
  | Ps256, InnerRsa k => rsa_sign k RSA_PSS_SHA256 rng signing_input
  | Ps384, InnerRsa k => rsa_sign k RSA_PSS_SHA384 rng signing_input
  | Ps512, InnerRsa k => rsa_sign k RSA_PSS_SHA512 rng signing_input
  | _, _ => None
  end.

Inductive DetachedError : Set := detached_error.

Definition sign_detached (key : SigningKey) (rng : SecureRandom) (message : bytes) : Result bytes DetachedError :=
  ok_or_error (sign_asymmetric key rng message) detached_error.

Definition verify_detached `{!Primitives} (key : TrustedKey) (alg : JwsAlgorithm) (message signature : bytes) :
    Result () DetachedError :=
  if verify_signature alg (material key) message signature then Ok () else Err detached_error.

Definition sign_hmac (mac : MacAlgorithm) (secret signing_input : bytes) : bytes := hmac_digest mac secret signing_input.
End Keys.

(** ** JSON Web Keys *)

(** [Value::as_str]. *)
Definition value_as_str `{SerdeNumber} (value : Value) : option string :=
  match value with VString s => Some s | _ => None end.

(** [Map::insert]: the entries are kept in the order of their keys. *)
Fixpoint map_insert `{SerdeNumber} (key : string) (value : Value) (m : Map) : Map :=
  match m with
  | [] => [(key, value)]
  | (k, v) :: rest =>
      if bool_decide (k = key) then (key, value) :: rest
      else if text_leb (lit key) (lit k) then (key, value) :: m
      else (k, v) :: map_insert key value rest
  end.

Record Jwk `{SerdeNumber} : Type := mkJwk { jwk_members : Map }.
Arguments mkJwk {_} _.
Arguments jwk_members {_} _.

Section Jwks.
Context `{SerdeNumber}.

(** [Jwk::from_object], [Jwk::get] and the named accessors. *)
Definition jwk_from_object (object : Map) : Jwk := mkJwk object.
Definition jwk_get (jwk : Jwk) (member : string) : option Value := map_get (jwk_members jwk) member.
Definition jwk_kid (jwk : Jwk) : option string := jwk_get jwk "kid" ≫= value_as_str.
Definition jwk_kty (jwk : Jwk) : option string := jwk_get jwk "kty" ≫= value_as_str.
Definition jwk_alg (jwk : Jwk) : option string := jwk_get jwk "alg" ≫= value_as_str.
End Jwks.

Inductive DpopError : Set :=
| DpopTooLarge | DpopMalformed | MalformedKey | PrivateKeyInProof | UnsupportedAlgorithm | AlgKeyMismatch | DpopBadSignature
| WrongType | HtmMismatch | HtuMismatch | MissingIat | DpopExpired | DpopNotYetValid | MissingJti | AthMismatch | NonceMismatch.

Section Publish.
Context `{JsonReader} `{!Primitives} `{!JsonWriter} `{JoseEncoder} `{KeyPairs}.

(** [b64]. *)
Definition b64_member (bs : bytes) : Value := VString (of_text (b64url_encode bs)).

(** *** The thumbprint *)

Definition required_str (jwk : Jwk) (member : string) : Result string DpopError :=
  ok_or_error (jwk_get jwk member ≫= value_as_str) MalformedKey.

(** The members of the canonical form, in the order of the [BTreeMap]. *)
Definition canonical_members (jwk : Jwk) : Result (list (string * string)) DpopError :=
  let? kty := ok_or_error (jwk_kty jwk) MalformedKey in
  if bool_decide (kty = "EC") then
    let? crv := required_str jwk "crv" in
    let? x := required_str jwk "x" in
    let? y := required_str jwk "y" in
    Ok [("crv", crv); ("kty", "EC"); ("x", x); ("y", y)]
  else if bool_decide (kty = "OKP") then
    let? crv := required_str jwk "crv" in
    let? x := required_str jwk "x" in
    Ok [("crv", crv); ("kty", "OKP"); ("x", x)]
  else if bool_decide (kty = "RSA") then
    let? e := required_str jwk "e" in
    let? n := required_str jwk "n" in
    Ok [("e", e); ("kty", "RSA"); ("n", n)]
  else Err MalformedKey.

(** A map of strings as a JSON object. *)
Definition string_object (members : list (string * string)) : Map := (λ kv, (kv.1, VString kv.2)) <$> members.

Definition jwk_thumbprint (jwk : Jwk) : Result string DpopError :=
  let? canonical := canonical_members jwk in
  let? json := ok_or_error (json_to_vec (VObject (string_object canonical))) MalformedKey in
  Ok (of_text (b64url_encode (digest_sha256 json))).

(** *** The published set *)

Definition public_members_of (key : SigningKey) : Result Jwk SigningKeyError :=
  let jwk := map_insert "alg" (VString (as_jose_name (algorithm key))) (map_insert "use" (VString "sig") []) in
  let? components := public_components key in
  Ok (mkJwk
    match components with
    | Okp x => map_insert "x" (b64_member x) (map_insert "crv" (VString "Ed25519") (map_insert "kty" (VString "OKP") jwk))
    | Ec crv x y =>
        map_insert "y" (b64_member y) (map_insert "x" (b64_member x)
          (map_insert "crv" (VString crv) (map_insert "kty" (VString "EC") jwk)))
    | RsaComponents n e => map_insert "e" (b64_member e) (map_insert "n" (b64_member n) (map_insert "kty" (VString "RSA") jwk))
    end).

Definition derive_kid (key : SigningKey) : Result string SigningKeyError :=
  let? jwk := public_members_of key in
  match jwk_thumbprint jwk with Ok t => Ok t | Err _ => Err InvalidKeyMaterial end.

Definition jwk_from_signing_key (key : SigningKey) : Result Jwk SigningKeyError :=
  let? jwk := public_members_of key in
  let? k := match kid key with Some k => Ok k | None => derive_kid key end in
  Ok (mkJwk (map_insert "kid" (VString k) (jwk_members jwk))).

(** [JwkSet]: its [keys], and the document the derived serializer writes. *)
Definition jwk_set (keys : list SigningKey) : Result (list Jwk) SigningKeyError := from_signing_keys jwk_from_signing_key keys.

Definition jwks_to_json (set : list Jwk) : Result bytes SigningKeyError :=
  ok_or_error (json_to_vec (VObject [("keys", VArray ((λ jwk, VObject (jwk_members jwk)) <$> set))])) MalformedPublicKey.

(** *** Reading a set *)

Definition jwk_b64 (jwk : Jwk) (member : string) : option bytes :=
  value ← jwk_get jwk member; encoded ← value_as_str value; b64url_decode (lit encoded).

(** [Result::ok]. *)
Definition result_ok {T E} (r : Result T E) : option T := match r with Ok x => Some x | Err _ => None end.

Definition trusted_key_from_jwk (jwk : Jwk) : option TrustedKey :=
  let k := jwk_kid jwk in
  kty ← jwk_kty jwk;
  if bool_decide (kty = "OKP") then
    crv ← jwk_get jwk "crv" ≫= value_as_str;
    if negb (bool_decide (crv = "Ed25519")) then None
    else x ← jwk_b64 jwk "x"; result_ok (trusted_ed25519 k x)
  else if bool_decide (kty = "EC") then
    x ← jwk_b64 jwk "x";
    y ← jwk_b64 jwk "y";
    crv ← jwk_get jwk "crv" ≫= value_as_str;
    if bool_decide (crv = "P-256") then result_ok (trusted_ecdsa_p256 k x y)
    else if bool_decide (crv = "P-384") then result_ok (trusted_ecdsa_p384 k x y)
    else None
  else if bool_decide (kty = "RSA") then
    n ← jwk_b64 jwk "n";
    e ← jwk_b64 jwk "e";
    result_ok (trusted_rsa k n e)
  else None.

(** [value.get("keys")] is [None] on a value that is not an object. *)
Definition trusted_keys_from_jwks (json : bytes) : list TrustedKey :=
  match json_value json with
  | None => []
  | Some value =>
      match as_object value ≫= λ object, map_get object "keys" with
      | Some (VArray keys) => omap (λ object, trusted_key_from_jwk (jwk_from_object object)) (omap as_object keys)
      | _ => []
      end
  end.

Definition access_token_hash (access_token : text) : string := of_text (b64url_encode (digest_sha256 (as_bytes access_token))).
End Publish.

(** ** What the backend documents *)

(** The keys of a written object ascend, as those of a [BTreeMap] do. *)
Fixpoint keys_ascend (keys : list string) : bool :=
  match keys with
  | k :: ((k' :: _) as rest) => text_leb (lit k) (lit k') && negb (bool_decide (k = k')) && keys_ascend rest
  | _ => true
  end.

(** A character of the URL-safe alphabet. *)
Definition is_url_safe (c : ascii) : bool := is_ascii_alphanumeric c || is_char "-"%char c || is_char "_"%char c.

(** Decoding undoes encoding; an encoding is a word of the URL-safe alphabet and has the length of
    the RFC 4648 groups without padding. *)
Class JoseEncoderLaws `{!Primitives} `{!JoseEncoder} : Prop := {
  b64url_decode_encode bs : Forall is_byte bs → b64url_decode (b64url_encode bs) = Some bs;
  b64url_encode_length bs : Z.of_nat (length (b64url_encode bs)) = (Z.of_nat (length bs) * 4 + 2) / 3;
  b64url_encode_alphabet bs : Forall (λ c, is_url_safe c = true) (b64url_encode bs)
}.

Lemma b64url_encode_dots `{JoseEncoderLaws} bs : "."%char ∉ b64url_encode bs.
Proof. intros Hin. by pose proof (proj1 (Forall_forall _ _) (b64url_encode_alphabet bs) _ Hin). Qed.

(** What is written reads back: an object of strings, and a set of such objects. *)
Class JsonWriterLaws `{JsonReader} `{!JsonWriter} : Prop := {
  write_strings members : keys_ascend members.*1 = true → ∃ bs,
    json_to_vec (VObject (string_object members)) = Some bs ∧ Forall is_byte bs ∧ bs ≠ [] ∧
    json_entries bs = Some (string_object members);
  write_key_set sets : Forall (λ members, keys_ascend members.*1 = true) sets → ∃ bs,
    json_to_vec (VObject [("keys", VArray ((λ members, VObject (string_object members)) <$> sets))]) = Some bs ∧
    json_value bs = Some (VObject [("keys", VArray ((λ members, VObject (string_object members)) <$> sets))])
}.

Definition coordinate_len (alg : EcdsaSigningAlgorithm) : nat :=
  match alg with ECDSA_P256_SHA256_FIXED_SIGNING => 32 | ECDSA_P384_SHA384_FIXED_SIGNING => 48 end.

Definition ecdsa_verification (alg : EcdsaSigningAlgorithm) : VerificationAlgorithm :=
  match alg with
  | ECDSA_P256_SHA256_FIXED_SIGNING => ECDSA_P256_SHA256_FIXED
  | ECDSA_P384_SHA384_FIXED_SIGNING => ECDSA_P384_SHA384_FIXED
  end.

Definition rsa_verification (padding : RsaEncoding) : RsaParameters :=
  match padding with
  | RSA_PKCS1_SHA256 => RSA_PKCS1_2048_8192_SHA256
  | RSA_PKCS1_SHA384 => RSA_PKCS1_2048_8192_SHA384
  | RSA_PKCS1_SHA512 => RSA_PKCS1_2048_8192_SHA512
  | RSA_PSS_SHA256 => RSA_PSS_2048_8192_SHA256
  | RSA_PSS_SHA384 => RSA_PSS_2048_8192_SHA384
  | RSA_PSS_SHA512 => RSA_PSS_2048_8192_SHA512
  end.

(** A positive big-endian integer without leading zeros, of a size a slice can have. *)
Definition magnitude (bs : bytes) : Prop :=
  bs ≠ [] ∧ head bs ≠ Some 0 ∧ Forall is_byte bs ∧ Z.of_nat (length bs) < 2 ^ 32.

(** Public keys have the standard encodings, and a signature of a key pair verifies under its
    public half and has the width of its algorithm.  A digest has 32 bytes. *)
Class KeyPairLaws `{!Primitives} `{!KeyPairs} : Prop := {
  digest_law bs : Forall is_byte (digest_sha256 bs) ∧ length (digest_sha256 bs) = 32%nat;
  ed25519_law seed k : from_seed_unchecked seed = Some k →
    length (ed25519_public_key k) = 32%nat ∧ Forall is_byte (ed25519_public_key k) ∧
    ∀ m, Forall is_byte (ed25519_sign k m) ∧ length (ed25519_sign k m) = 64%nat ∧
      verify_asymmetric ED25519 (ed25519_public_key k) m (ed25519_sign k m) = true;
  ecdsa_law alg pkcs8 k : from_pkcs8 alg pkcs8 = Some k → ∃ x y,
    ecdsa_public_key k = 0x04 :: x ++ y ∧ length x = coordinate_len alg ∧ length y = coordinate_len alg ∧
    Forall is_byte x ∧ Forall is_byte y ∧
    ∀ rng m s, ecdsa_sign k rng m = Some s → Forall is_byte s ∧ length s = (2 * coordinate_len alg)%nat ∧
      verify_asymmetric (ecdsa_verification alg) (ecdsa_public_key k) m s = true;
  rsa_law der k : from_der der = Some k → RSA_MIN_MODULUS_BYTES ≤ modulus_len k → ∃ n e,
    rsa_public k = seq_ [uint_bytes n; uint_bytes e] ∧ magnitude n ∧ magnitude e ∧ Z.of_nat (length n) = modulus_len k ∧
    ∀ padding rng m s, rsa_pair_sign k padding rng m = Some s → Forall is_byte s ∧
      Z.of_nat (length s) = modulus_len k ∧ verify_rsa (rsa_verification padding) n e m s = true
}.

(** ** The cursor reads DER *)

(** A cursor between what it has read and what is left. *)
Definition cursor_at (done rest : bytes) : DerCursor := mkCursor (done ++ rest) (Z.of_nat (length done)).

Lemma cursor_take_at read slice rest : Z.of_nat (length (read ++ slice)) ≤ U64_MAX →
  cursor_take (Z.of_nat (length slice)) (cursor_at read (slice ++ rest)) = Ok (slice, cursor_at (read ++ slice) rest).
Proof.
  intros Hlen. rewrite length_app in Hlen. unfold cursor_take, cursor_at. simpl.
  rewrite (proj2 (Z.ltb_ge _ _)) by lia. rewrite !length_app, (proj2 (Z.ltb_ge _ _)) by lia.
  rewrite !Nat2Z.id, drop_app_length, take_app_length, Nat2Z.inj_add, <-app_assoc. done.
Qed.

Lemma cursor_byte_at read b rest : Z.of_nat (length read) < U64_MAX →
  cursor_byte (cursor_at read (b :: rest)) = Ok (b, cursor_at (read ++ [b]) rest).
Proof.
  intros Hlen. unfold cursor_byte. change 1 with (Z.of_nat (length [b])). change (b :: rest) with ([b] ++ rest).
  rewrite cursor_take_at; [done|]. rewrite length_app. simpl. lia.
Qed.

Lemma push_length_byte_spec acc b : 0 ≤ acc → acc * 256 < 2 ^ 64 → is_byte b → push_length_byte acc b = acc * 256 + b.
Proof.
  intros Hacc Hlt Hb. unfold is_byte in Hb. unfold push_length_byte.
  rewrite Z.mod_small by (rewrite Z.shiftl_mul_pow2; lia).
  assert (Z.land (Z.shiftl acc 8) b = 0) as Hland.
  { apply Z.bits_inj_0. intros i. rewrite Z.land_spec. destruct (Z.ltb_spec i 8) as [Hi|Hi].
    - by rewrite Z.shiftl_spec_low by lia.
    - rewrite (Z.bits_above_log2 b i), andb_false_r; [done|lia|].
      destruct (decide (b = 0)) as [->|]; [simpl; lia|]. apply Z.log2_lt_pow2; [lia|].
      apply Z.lt_le_trans with (2 ^ 8); [lia|]. by apply Z.pow_le_mono_r. }
  rewrite <-Z.lxor_lor, <-Z.add_nocarry_lxor by done. rewrite Z.shiftl_mul_pow2 by lia. lia.
Qed.

Lemma push_length_bytes l : ∀ acc, 0 ≤ acc → Forall is_byte l → value_be 256 acc l < 2 ^ 64 →
  foldl push_length_byte acc l = value_be 256 acc l.
Proof.
  induction l as [|b l IH]; intros acc Hacc Hl Hv; [done|]. simpl in *. apply Forall_cons_1 in Hl as [Hb Hl].
  pose proof (value_be_ge 8 ltac:(lia) (acc * 256 + b) l ltac:(unfold is_byte in Hb; lia) Hl) as Hge.
  change (2 ^ 8) with 256 in Hge. rewrite push_length_byte_spec by (unfold is_byte in *; done || lia).
  apply IH; [unfold is_byte in Hb; lia|done|done].
Qed.

Lemma cursor_read_length_at read value rest : 0 ≤ value < U64_LIMIT → Z.of_nat (length read) + 16 ≤ U64_MAX →
  cursor_read_length (cursor_at read (len value ++ rest)) = Ok (value, cursor_at (read ++ len value) rest).
Proof.
  intros Hv Hlen. unfold cursor_read_length, len. destruct (value <? 0x80) eqn:Hs; simpl.
  { rewrite cursor_byte_at by lia. rewrite low7, (proj2 (Z.ltb_lt _ _)) by (unfold is_byte; lia). done. }
  destruct (len_groups value ltac:(lia)) as (Hval & Hbytes & _ & Hl). set (l := reverse (groups 8 8 value)) in *.
  rewrite cursor_byte_at by lia. destruct (long_form_byte (Z.of_nat (length l)) ltac:(lia)) as [-> ->].
  unfold USIZE_BYTES. rewrite (proj2 (Z.eqb_neq _ 0)), (proj2 (Z.ltb_ge _ _)) by lia. simpl.
  rewrite cursor_take_at by (rewrite !length_app; simpl; lia).
  rewrite push_length_bytes by (done || rewrite Hval; unfold U64_LIMIT in Hv; lia).
  by rewrite Hval, <-app_assoc.
Qed.

Lemma len_length value : 0 ≤ value < U64_LIMIT → (length (len value) ≤ 9)%nat.
Proof.
  intros Hv. unfold len. destruct (value <? 0x80) eqn:Hs; simpl; [lia|].
  destruct (len_groups value ltac:(lia)) as (_ & _ & _ & Hl). lia.
Qed.

(** The sign byte of a magnitude. *)
Lemma uint_body_magnitude m : magnitude m →
  strip_sign_byte (uint_body m) = m ∧ (length (uint_body m) ≤ S (length m))%nat.
Proof.
  intros (Hne & Hhead & _ & _). unfold uint_body. destruct m as [|b m]; [done|].
  assert (b ≠ 0) as Hb by (intros ->; by apply Hhead).
  assert (strip_zeros (b :: m) = b :: m) as -> by (simpl; destruct b, m; done).
  destruct (negb _); simpl; (split; [|lia]); [done|]. destruct m; [done|]. by rewrite (proj2 (Z.eqb_neq _ _)).
Qed.

Lemma cursor_read_integer_at read m rest : magnitude m → Z.of_nat (length read) ≤ 2 ^ 40 →
  cursor_read_integer (cursor_at read (uint_bytes m ++ rest)) = Ok (m, cursor_at (read ++ uint_bytes m) rest).
Proof.
  intros Hm Hlen. pose proof Hm as (_ & _ & _ & Hsize).
  destruct (uint_body_magnitude m Hm) as [Hstrip Hbody]. set (body := uint_body m) in *.
  pose proof (len_length (Z.of_nat (length body)) ltac:(unfold U64_LIMIT; lia)) as Hl.
  unfold cursor_read_integer, uint_bytes, tlv, U64_MAX in *. fold body. simpl.
  rewrite cursor_byte_at by (unfold U64_MAX; lia). simpl. rewrite <-app_assoc, cursor_read_length_at
    by (unfold U64_LIMIT, U64_MAX; rewrite ?length_app; simpl; lia).
  rewrite cursor_take_at by (unfold U64_MAX; rewrite !length_app; simpl; lia). rewrite Hstrip, <-!app_assoc. done.
Qed.

Lemma uint_bytes_length m : magnitude m → (length (uint_bytes m) ≤ length m + 11)%nat.
Proof.
  intros Hm. destruct (uint_body_magnitude m Hm) as [_ Hbody]. destruct Hm as (_ & _ & _ & Hm).
  pose proof (len_length (Z.of_nat (length (uint_body m))) ltac:(unfold U64_LIMIT; lia)).
  unfold uint_bytes, tlv. cbn [length]. rewrite length_app. lia.
Qed.

Lemma parse_rsa_public_der_spec n e : magnitude n → magnitude e →
  parse_rsa_public_der (seq_ [uint_bytes n; uint_bytes e]) = Ok (n, e).
Proof.
  intros Hn He. pose proof (uint_bytes_length n Hn) as Hln. pose proof (uint_bytes_length e He) as Hle.
  pose proof Hn as (_ & _ & _ & Hn4). pose proof He as (_ & _ & _ & He4).
  unfold parse_rsa_public_der, cursor_enter_sequence, seq_, tlv. cbn [concat]. rewrite app_nil_r.
  set (width := Z.of_nat (length (uint_bytes n ++ uint_bytes e))).
  assert (0 ≤ width < 2 ^ 40) as Hw by (unfold width; rewrite length_app; lia).
  pose proof (len_length width ltac:(unfold U64_LIMIT; lia)) as Hl.
  change (cursor_new ?bs) with (cursor_at [] bs).
  rewrite cursor_byte_at by (unfold U64_MAX; cbn [length]; lia).
  change (negb (tag_SEQUENCE =? 48)) with false. cbv iota.
  rewrite cursor_read_length_at by (unfold U64_LIMIT, U64_MAX; cbn [length app]; lia).
  rewrite cursor_read_integer_at by (done || (rewrite !length_app; cbn [length]; lia)).
  rewrite <-(app_nil_r (uint_bytes e)).
  rewrite cursor_read_integer_at by (done || (rewrite !length_app; cbn [length]; lia)). done.
Qed.

(** ** The public half of a key *)

Section PublicHalf.
Context `{JsonReader} `{!Primitives} `{!JsonWriter} `{!JoseEncoder} `{!KeyPairs}.
Context `{!KeyPairLaws} `{!JoseEncoderLaws} `{!JsonWriterLaws}.
Implicit Types key : SigningKey.

(** A key that one of the constructors returned. *)
Inductive constructed : SigningKey → Prop :=
| con_ed25519 k seed key : ed25519_from_seed k seed = Ok key → constructed key
| con_p256 k pkcs8 key : ecdsa_p256_from_pkcs8 k pkcs8 = Ok key → constructed key
| con_p384 k pkcs8 key : ecdsa_p384_from_pkcs8 k pkcs8 = Ok key → constructed key
| con_rsa k alg der key : rsa_from_pkcs1_der k alg der = Ok key → constructed key.

(** The trusted key of public components, under a key identifier. *)
Definition components_key (k : option string) (c : PublicComponents) : option TrustedKey :=
  match c with
  | Okp x => result_ok (trusted_ed25519 k x)
  | Ec crv x y =>
      if bool_decide (crv = "P-256") then result_ok (trusted_ecdsa_p256 k x y)
      else if bool_decide (crv = "P-384") then result_ok (trusted_ecdsa_p384 k x y)
      else None
  | RsaComponents n e => result_ok (trusted_rsa k n e)
  end.

Definition component_bytes (c : PublicComponents) : Prop :=
  match c with
  | Okp x => Forall is_byte x
  | Ec _ x y => Forall is_byte x ∧ Forall is_byte y
  | RsaComponents n e => Forall is_byte n ∧ Forall is_byte e
  end.

(** What a key signs verifies under a material and has the predicted width. *)
Definition signs_for key (mat : KeyMaterial) : Prop :=
  material_family mat = key_family (algorithm key) ∧ 0 < signature_len key ∧
  ∀ rng m s, sign_asymmetric key rng m = Some s → Forall is_byte s ∧ Z.of_nat (length s) = signature_len key ∧
    verify_signature (algorithm key) mat m s = true.

Lemma ec_components_point crv x y n : length x = n → length y = n →
  ec_components crv (Z.of_nat n) (0x04 :: x ++ y) = Ok (Ec crv x y).
Proof.
  intros Hx Hy. unfold ec_components. cbn [length]. rewrite length_app, Hx, Hy.
  rewrite (proj2 (Z.eqb_eq _ _)) by lia. cbn [head bool_decide]. rewrite bool_decide_eq_true_2 by done.
  replace (Z.to_nat (1 + Z.of_nat n)) with (S n) by lia. rewrite Nat2Z.id. subst n.
  cbn [negb orb]. by rewrite !skipn_cons, drop_0, take_app_length, drop_app_length.
Qed.

Lemma sec1_point_coordinates x y n : length x = n → length y = n → sec1_point x y (Z.of_nat n) = Ok (0x04 :: x ++ y).
Proof. intros Hx Hy. unfold sec1_point. by rewrite Hx, Hy, Z.eqb_refl. Qed.

Lemma strip_leading_zeros_magnitude m : magnitude m → strip_leading_zeros m = m.
Proof.
  intros (Hne & Hhead & _). destruct m as [|b m]; [done|]. simpl.
  rewrite (proj2 (Z.eqb_neq _ _)); [done|]. intros ->. by apply Hhead.
Qed.

Lemma trusted_rsa_magnitude k n e : magnitude n → magnitude e → RSA_MIN_MODULUS_BYTES ≤ Z.of_nat (length n) →
  trusted_rsa k n e = Ok {| trusted_kid := k; material := MatRsa n e |}.
Proof.
  unfold RSA_MIN_MODULUS_BYTES. intros Hn He Hlen. unfold trusted_rsa. rewrite !strip_leading_zeros_magnitude by done.
  rewrite (proj2 (Z.ltb_ge _ _)) by lia. destruct He as (Hne & _). by destruct e.
Qed.

Lemma ecdsa_half alg pkcs8 kp crv : from_pkcs8 alg pkcs8 = Some kp → ∃ x y,
  ecdsa_public_key kp = 0x04 :: x ++ y ∧
  ec_components crv (Z.of_nat (coordinate_len alg)) (ecdsa_public_key kp) = Ok (Ec crv x y) ∧
  (Forall is_byte x ∧ Forall is_byte y) ∧ sec1_point x y (Z.of_nat (coordinate_len alg)) = Ok (0x04 :: x ++ y) ∧
  ∀ rng m s, ecdsa_sign kp rng m = Some s → Forall is_byte s ∧
    Z.of_nat (length s) = 2 * Z.of_nat (coordinate_len alg) ∧
    verify_asymmetric (ecdsa_verification alg) (0x04 :: x ++ y) m s = true.
Proof.
  intros Hkp. destruct (ecdsa_law _ _ _ Hkp) as (x & y & Hp & Hx & Hy & Hbx & Hby & Hsign). exists x, y.
  split; [done|]. split; [rewrite Hp; by apply ec_components_point|]. split; [done|].
  split; [by apply sec1_point_coordinates|]. intros rng m s Hs. destruct (Hsign rng m s Hs) as (? & Hl & Hv).
  split; [done|]. split; [lia|]. by rewrite Hp in Hv.
Qed.

(** Every constructed key has a public half that verifies what it signs. *)
Lemma constructed_public key : constructed key → ∃ c mat, public_components key = Ok c ∧ component_bytes c ∧
  (∀ k, components_key k c = Some {| trusted_kid := k; material := mat |}) ∧ signs_for key mat.
Proof.
  destruct 1 as [k seed key Hk|k pkcs8 key Hk|k pkcs8 key Hk|k alg der key Hk].
  - unfold ed25519_from_seed in Hk. destruct (negb _); [done|]. destruct (from_seed_unchecked seed) as [kp|] eqn:Hkp; [|done].
    injection Hk as <-. destruct (ed25519_law seed kp Hkp) as (Hlen & Hb & Hsign).
    exists (Okp (ed25519_public_key kp)), (MatEd25519 (ed25519_public_key kp)). split; [done|]. split; [done|]. split.
    { intros k'. simpl. unfold trusted_ed25519. by rewrite Hlen. }
    split; [done|]. split; [done|]. intros rng m s [= <-]. destruct (Hsign m) as (? & Hl & ?).
    split; [done|]. split; [by rewrite Hl|done].
  - unfold ecdsa_p256_from_pkcs8 in Hk. destruct (from_pkcs8 _ pkcs8) as [kp|] eqn:Hkp; [|done].
    injection Hk as <-. destruct (ecdsa_half _ _ _ "P-256" Hkp) as (x & y & Hp & Hc & Hb & Hpoint & Hsign).
    exists (Ec "P-256" x y), (MatEcP256 (0x04 :: x ++ y)). split; [done|]. split; [done|].
    change (sec1_point x y 32 = Ok (0x04 :: x ++ y)) in Hpoint.
    split; [intros k'; simpl; unfold trusted_ecdsa_p256; by rewrite Hpoint|]. by split_and!.
  - unfold ecdsa_p384_from_pkcs8 in Hk. destruct (from_pkcs8 _ pkcs8) as [kp|] eqn:Hkp; [|done].
    injection Hk as <-. destruct (ecdsa_half _ _ _ "P-384" Hkp) as (x & y & Hp & Hc & Hb & Hpoint & Hsign).
    exists (Ec "P-384" x y), (MatEcP384 (0x04 :: x ++ y)). split; [done|]. split; [done|].
    change (sec1_point x y 48 = Ok (0x04 :: x ++ y)) in Hpoint.
    split; [intros k'; simpl; unfold trusted_ecdsa_p384; by rewrite Hpoint|]. by split_and!.
  - unfold rsa_from_pkcs1_der in Hk. destruct (bool_decide_reflect (key_family alg = Rsa)) as [Hfam|]; [|done]. simpl in Hk.
    destruct (from_der der) as [kp|] eqn:Hkp; [|done]. simpl in Hk.
    destruct (Z.ltb_spec (modulus_len kp) RSA_MIN_MODULUS_BYTES) as [|Hmin]; [done|]. injection Hk as <-.
    destruct (rsa_law der kp Hkp Hmin) as (n & e & Hpub & Hn & He & Hlen & Hsign).
    exists (RsaComponents n e), (MatRsa n e). unfold public_components. simpl.
    rewrite Hpub, parse_rsa_public_der_spec by done. split; [done|].
    split; [by destruct Hn as (_ & _ & ? & _), He as (_ & _ & ? & _)|]. split.
    { intros k'. simpl. rewrite trusted_rsa_magnitude; [done..|lia]. }
    split; [done|]. split; [unfold signature_len, RSA_MIN_MODULUS_BYTES in *; simpl; lia|].
    intros rng m s Hs. destruct alg; try done; by apply Hsign in Hs.
Qed.

Lemma verifying_key_spec key c mat : public_components key = Ok c →
  components_key (kid key) c = Some mat → verifying_key key = Ok mat.
Proof.
  intros Hc Hk. unfold verifying_key. rewrite Hc. destruct c as [x|crv x y|n e]; simpl in *.
  - by destruct (trusted_ed25519 _ _); simplify_eq/=.
  - repeat case_bool_decide; [by destruct (trusted_ecdsa_p256 _ _ _); simplify_eq/=|
      by destruct (trusted_ecdsa_p384 _ _ _); simplify_eq/=|done].
  - by destruct (trusted_rsa _ _ _); simplify_eq/=.
Qed.

(** *** Published and read back *)

Lemma lit_of_text s : lit (of_text s) = s.
Proof. apply String.list_ascii_of_string_of_list_ascii. Qed.

(** The members of a published key, in order. *)
Definition published_members (alg : JwsAlgorithm) (k : string) (c : PublicComponents) : list (string * string) :=
  let enc := λ bs, of_text (b64url_encode bs) in
  match c with
  | Okp x => [("alg", as_jose_name alg); ("crv", "Ed25519"); ("kid", k); ("kty", "OKP"); ("use", "sig"); ("x", enc x)]
  | Ec crv x y =>
      [("alg", as_jose_name alg); ("crv", crv); ("kid", k); ("kty", "EC"); ("use", "sig"); ("x", enc x); ("y", enc y)]
  | RsaComponents n e =>
      [("alg", as_jose_name alg); ("e", enc e); ("kid", k); ("kty", "RSA"); ("n", enc n); ("use", "sig")]
  end.

Lemma published_members_ascend alg k c : keys_ascend (published_members alg k c).*1 = true.
Proof. by destruct c. Qed.

(** The identifier a key is published under. *)
Definition published_kid key : Result string SigningKeyError := match kid key with Some k => Ok k | None => derive_kid key end.

Lemma derive_kid_ok key c : public_components key = Ok c → ∃ k, derive_kid key = Ok k.
Proof.
  intros Hc. unfold derive_kid, public_members_of. rewrite Hc. cbv zeta. set (jwk := mkJwk _).
  assert (∃ ms, canonical_members jwk = Ok ms ∧ keys_ascend ms.*1 = true) as (ms & Hms & Hasc).
  { subst jwk. destruct c; eexists; split; reflexivity. }
  destruct (write_strings ms Hasc) as (bs & Hbs & _). unfold jwk_thumbprint. rewrite Hms, Hbs. eauto.
Qed.

Lemma from_signing_key_members key c k : public_components key = Ok c → published_kid key = Ok k →
  jwk_from_signing_key key = Ok (mkJwk (string_object (published_members (algorithm key) k c))).
Proof.
  intros Hc Hk. unfold jwk_from_signing_key, public_members_of. rewrite Hc. unfold published_kid in Hk. rewrite Hk.
  by destruct c.
Qed.

(** The inbound parser reads a published key as the key it publishes. *)
Lemma trusted_published alg k c : component_bytes c →
  trusted_key_from_jwk (mkJwk (string_object (published_members alg k c))) = components_key (Some k) c.
Proof.
  assert (∀ (jwk : Jwk) name bs, Forall is_byte bs → jwk_get jwk name = Some (VString (of_text (b64url_encode bs))) →
    jwk_b64 jwk name = Some bs) as Hread.
  { intros jwk name bs Hb Hget. unfold jwk_b64. rewrite Hget. simpl. by rewrite lit_of_text, b64url_decode_encode. }
  destruct c as [x|crv x y|n e]; simpl.
  - intros Hx. unfold trusted_key_from_jwk. simpl. by rewrite (Hread _ "x" x).
  - intros [Hx Hy]. unfold trusted_key_from_jwk. simpl. rewrite (Hread _ "x" x), (Hread _ "y" y) by done. done.
  - intros [Hn He]. unfold trusted_key_from_jwk. simpl. rewrite (Hread _ "n" n), (Hread _ "e" e) by done. done.
Qed.

(** A constructed key, its published form and the trusted key read from it. *)
Lemma constructed_published key : constructed key → ∃ k members mat, published_kid key = Ok k ∧
  keys_ascend members.*1 = true ∧ jwk_from_signing_key key = Ok (mkJwk (string_object members)) ∧
  trusted_key_from_jwk (mkJwk (string_object members)) = Some {| trusted_kid := Some k; material := mat |} ∧
  verifying_key key = Ok {| trusted_kid := kid key; material := mat |} ∧ signs_for key mat.
Proof.
  intros (c & mat & Hc & Hb & Hk & Hs)%constructed_public.
  assert (∃ k, published_kid key = Ok k) as [k Hpk].
  { unfold published_kid. destruct (kid key) as [k|]; [eauto|by eapply derive_kid_ok]. }
  exists k, (published_members (algorithm key) k c), mat. split; [done|]. split; [apply published_members_ascend|].
  split; [by apply from_signing_key_members|]. split; [by rewrite trusted_published|].
  split; [by eapply verifying_key_spec|done].
Qed.

(** The keys of a set and what its document is read as. *)
Definition reads_as key (trusted : TrustedKey) : Prop :=
  ∃ k, published_kid key = Ok k ∧ trusted_kid trusted = Some k ∧ signs_for key (material trusted) ∧
  verifying_key key = Ok {| trusted_kid := kid key; material := material trusted |}.

Lemma key_set_document keys : Forall constructed keys → ∃ set json, jwk_set keys = Ok set ∧ jwks_to_json set = Ok json ∧
  Forall2 reads_as keys (trusted_keys_from_jwks json).
Proof.
  intros Hkeys.
  assert (∃ sets, Forall (λ members : list (string * string), keys_ascend members.*1 = true) sets ∧
    Forall2 (λ key members, jwk_from_signing_key key = Ok (mkJwk (string_object members)) ∧
      ∃ t, trusted_key_from_jwk (mkJwk (string_object members)) = Some t ∧ reads_as key t) keys sets) as (sets & Hasc & Hall).
  { induction Hkeys as [|key keys (k & members & mat & Hk & Ha & Hj & Ht & Hv & Hs)%constructed_published _ (sets & HA & Hsets)].
    { exists []. split; constructor. }
    exists (members :: sets). split; [by constructor|]. constructor; [|done]. split; [done|].
    eexists. split; [exact Ht|]. exists k. done. }
  exists ((λ members, mkJwk (string_object members)) <$> sets). destruct (write_key_set sets Hasc) as (json & Hw & Hr).
  exists json. split.
  { apply from_signing_keys_Forall2, Forall2_fmap_r. eapply Forall2_impl; [exact Hall|]. by intros ?? [? _]. }
  split; [unfold jwks_to_json; rewrite <-list_fmap_compose; unfold compose; cbn [jwk_members]; by rewrite Hw|].
  unfold trusted_keys_from_jwks. rewrite Hr. simpl. clear Hasc Hw Hr Hkeys.
  induction Hall as [|key members keys sets (_ & t & Ht & Has) _ IH]; simpl; [constructor|].
  unfold jwk_from_object at 1. rewrite Ht. by constructor.
Qed.
(** *** The thumbprint *)

(** The key material that the members of a canonical form spell. *)
Definition members_material (members : list (string * string)) : option KeyMaterial :=
  material <$> trusted_key_from_jwk (mkJwk (string_object members)).

Lemma required_str_ok (jwk : Jwk) name s : required_str jwk name = Ok s ↔ jwk_get jwk name = Some (VString s).
Proof. unfold required_str. destruct (jwk_get jwk name) as [[]|]; simpl; naive_solver. Qed.

(** The key a JSON Web Key is read as depends on the members of its thumbprint only. *)
Lemma canonical_material (jwk : Jwk) members : canonical_members jwk = Ok members →
  material <$> trusted_key_from_jwk jwk = members_material members.
Proof.
  assert (∀ (jwk jwk' : Jwk) name, jwk_get jwk name = jwk_get jwk' name → jwk_b64 jwk name = jwk_b64 jwk' name) as Hb64
    by (intros j j' name Hg; unfold jwk_b64; by rewrite Hg).
  unfold canonical_members, members_material. destruct (jwk_kty jwk) as [kty|] eqn:Hkty; [|done]. simpl.
  unfold trusted_key_from_jwk. rewrite Hkty. simpl. repeat case_bool_decide; subst; try done.
  - destruct (required_str jwk "crv") as [crv|] eqn:Hcrv; [|done]. destruct (required_str jwk "x") as [x|] eqn:Hx; [|done].
    destruct (required_str jwk "y") as [y|] eqn:Hy; [|done]. intros [= <-]. apply required_str_ok in Hcrv, Hx, Hy.
    set (jwk' := mkJwk _). change (jwk_kty jwk') with (Some "EC"). change (jwk_get jwk' "crv") with (Some (VString crv)).
    simpl. rewrite (Hb64 jwk jwk' "x"), (Hb64 jwk jwk' "y"), Hcrv by done. simpl.
    destruct (jwk_b64 jwk' "x") as [bx|]; [|done]. simpl. destruct (jwk_b64 jwk' "y") as [by'|]; [|done]. simpl.
    unfold trusted_ecdsa_p256, trusted_ecdsa_p384. by repeat case_bool_decide; try destruct (sec1_point _ _ _).
  - destruct (required_str jwk "crv") as [crv|] eqn:Hcrv; [|done]. destruct (required_str jwk "x") as [x|] eqn:Hx; [|done].
    intros [= <-]. apply required_str_ok in Hcrv, Hx.
    set (jwk' := mkJwk _). change (jwk_kty jwk') with (Some "OKP"). change (jwk_get jwk' "crv") with (Some (VString crv)).
    simpl. rewrite (Hb64 jwk jwk' "x"), Hcrv by done. simpl. case_bool_decide; [|done]. simpl.
    destruct (jwk_b64 jwk' "x") as [bx|]; [|done]. simpl. unfold trusted_ed25519. by destruct (negb _).
  - destruct (required_str jwk "e") as [e|] eqn:He; [|done]. destruct (required_str jwk "n") as [n|] eqn:Hn; [|done].
    intros [= <-]. apply required_str_ok in He, Hn.
    set (jwk' := mkJwk _). change (jwk_kty jwk') with (Some "RSA"). simpl.
    rewrite (Hb64 jwk jwk' "n"), (Hb64 jwk jwk' "e") by done.
    destruct (jwk_b64 jwk' "n") as [bn|]; [|done]. simpl. destruct (jwk_b64 jwk' "e") as [be|]; [|done]. simpl.
    unfold trusted_rsa. destruct (_ <? _); [done|]. by destruct (strip_leading_zeros be).
Qed.

Lemma canonical_members_ascend (jwk : Jwk) members : canonical_members jwk = Ok members → keys_ascend members.*1 = true.
Proof.
  unfold canonical_members. intros Hc.
  repeat match type of Hc with
  | context [ok_or_error ?o ?e] => destruct (ok_or_error o e); [|done]
  | context [required_str ?j ?n] => destruct (required_str j n); [|done]
  | context [bool_decide ?P] => destruct (bool_decide P)
  end; simplify_eq; reflexivity.
Qed.

Lemma b64url_encode_inj bs bs' : Forall is_byte bs → Forall is_byte bs' → b64url_encode bs = b64url_encode bs' → bs = bs'.
Proof. intros Hb%b64url_decode_encode Hb'%b64url_decode_encode He. rewrite He in Hb. congruence. Qed.

Lemma of_text_inj s s' : of_text s = of_text s' → s = s'.
Proof. intros He%(f_equal lit). by rewrite !lit_of_text in He. Qed.

Lemma string_object_inj members members' : string_object members = string_object members' → members = members'.
Proof.
  revert members'. induction members as [|[k v] l IH]; intros [|[k' v'] l'] He; try done. simpl in He.
  injection He as -> -> He. by rewrite (IH l' He).
Qed.

(** The bytes a thumbprint is taken of. *)
Definition canonical_json (jwk : Jwk) (bs : bytes) : Prop :=
  ∃ members, canonical_members jwk = Ok members ∧ json_to_vec (VObject (string_object members)) = Some bs.

Lemma thumbprint_inv (jwk : Jwk) t : jwk_thumbprint jwk = Ok t →
  ∃ bs, canonical_json jwk bs ∧ t = of_text (b64url_encode (digest_sha256 bs)).
Proof.
  unfold jwk_thumbprint. destruct (canonical_members jwk) as [members|] eqn:Hm; [|done].
  destruct (json_to_vec _) as [bs|] eqn:Hj; [|done]. simpl. intros [= <-]. exists bs. split; [by exists members|done].
Qed.

(** Without a collision of the digest, keys of one thumbprint are one key. *)
Lemma thumbprint_material (jwk jwk' : Jwk) t : jwk_thumbprint jwk = Ok t → jwk_thumbprint jwk' = Ok t →
  (∀ bs bs', canonical_json jwk bs → canonical_json jwk' bs' → digest_sha256 bs = digest_sha256 bs' → bs = bs') →
  material <$> trusted_key_from_jwk jwk = material <$> trusted_key_from_jwk jwk'.
Proof.
  intros (bs & Hbs & ->)%thumbprint_inv (bs' & Hbs' & He)%thumbprint_inv Hfree.
  apply of_text_inj, b64url_encode_inj in He; [|apply digest_law..]. pose proof (Hfree bs bs' Hbs Hbs' He) as <-.
  destruct Hbs as (ms & Hms & Hw), Hbs' as (ms' & Hms' & Hw').
  destruct (write_strings ms (canonical_members_ascend _ _ Hms)) as (b & Hb & _ & _ & Hread).
  destruct (write_strings ms' (canonical_members_ascend _ _ Hms')) as (b' & Hb' & _ & _ & Hread').
  assert (b = bs) as -> by congruence. assert (b' = bs) as -> by congruence.
  assert (ms = ms') as <- by (apply string_object_inj; congruence).
  by rewrite (canonical_material _ _ Hms), (canonical_material _ _ Hms').
Qed.

(** ** Theorems *)

(** The published key set is read back.  A relying party that parses the document an
    environment publishes trusts, key by key and in order, exactly the public halves of its
    signing keys, each under the identifier it is published with: the key's own, or the
    thumbprint of its public half when it has none. *)
Theorem published_keys_read_back keys : Forall constructed keys → ∃ set json,
  jwk_set keys = Ok set ∧ jwks_to_json set = Ok json ∧
  Forall2 (λ key trusted, (∃ k, published_kid key = Ok k ∧ trusted_kid trusted = Some k) ∧
    verifying_key key = Ok {| trusted_kid := kid key; material := material trusted |}) keys (trusted_keys_from_jwks json).
Proof.
  intros (set & json & Hset & Hjson & Hall)%key_set_document. exists set, json. split; [done|]. split; [done|].
  eapply Forall2_impl; [exact Hall|]. intros key t (k & Hk & Ht & _ & Hv). eauto.
Qed.

(** A thumbprint identifies a key.  Two JSON Web Keys with one thumbprint are read as the same
    verification key whatever other members they carry, as long as the digest does not
    collide on their canonical forms; so a token bound to a thumbprint is bound to a key. *)
Theorem thumbprint_identifies_key (jwk jwk' : Jwk) t : jwk_thumbprint jwk = Ok t → jwk_thumbprint jwk' = Ok t →
  (∀ bs bs', canonical_json jwk bs → canonical_json jwk' bs' → digest_sha256 bs = digest_sha256 bs' → bs = bs') →
  material <$> trusted_key_from_jwk jwk = material <$> trusted_key_from_jwk jwk'.
Proof. apply thumbprint_material. Qed.
End PublicHalf.
