(* ===== verification/Mint.v ===== *)
(** * Minting tokens

    crates/ironauth-jose mint.rs, the one place a compact token is assembled and signed, and
    keystore.rs, the signing keys of an environment.  The theorems: every token minted with a
    key of an environment verifies against the key set the environment publishes; the length
    of a token is known before it is signed; a token signed with a client secret verifies
    under no policy. *)

From S2P Require Import Prelude Machine Bytes Der Text Json SigningPolicy Rotation JosePolicy JoseHeader JoseClaims JoseVerify SigningKeys.

Local Open Scope Z_scope.

(** ** Emission *)

Record EmissionOptions : Type := mkOptions { eo_fully_specified : bool; eo_typ : option string }.

Definition EmissionOptions_new : EmissionOptions := mkOptions false None.

Definition with_fully_specified (options : EmissionOptions) (on : bool) : EmissionOptions := mkOptions on (eo_typ options).

Definition with_typ (options : EmissionOptions) (typ : string) : EmissionOptions :=
  mkOptions (eo_fully_specified options) (Some typ).

Definition with_token_typ (options : EmissionOptions) (typ : TokenTyp) : EmissionOptions := with_typ options (media_type typ).

Definition alg_name (options : EmissionOptions) (alg : JwsAlgorithm) : string :=
  if eo_fully_specified options then fully_specified_name alg else as_jose_name alg.

Inductive SignError : Set := SignBackend | SignHeader | AlgorithmNotPermitted.

Definition SignError_to_string (e : SignError) : string :=
  match e with
  | SignBackend => "signature backend failed to sign"
  | SignHeader => "protected header could not be serialized"
  | AlgorithmNotPermitted => "the environment signing policy does not permit this key's algorithm"
  end.

Definition mac_as_jose_name (mac : MacAlgorithm) : string :=
  match mac with Hs256 => "HS256" | Hs384 => "HS384" | Hs512 => "HS512" end.

Inductive ClientSecretContext : Set := IdTokenHs | ClientSecretJwt.

Record ClientSecretJws : Type := { cs_context : ClientSecretContext; cs_compact : text }.

(** ** Lengths *)

(** [(n * 4).div_ceil(3)]; the product of the length of a slice does not overflow. *)
Definition b64_no_pad_len (n : Z) : Z := (n * 4 + 2) / 3.

Definition compact_len (header payload : bytes) (signature_len : Z) : Z :=
  b64_no_pad_len (Z.of_nat (length header)) + 1 + b64_no_pad_len (Z.of_nat (length payload)) + 1 + b64_no_pad_len signature_len.

Section Mint.
Context `{JsonReader} `{!Primitives} `{!JsonWriter} `{!JoseEncoder} `{!KeyPairs}.
Implicit Types key : SigningKey.

Definition build_header (name : string) (k typ : option string) : Result bytes SignError :=
  let m := map_insert "alg" (VString name) [] in
  let m := match k with Some k => map_insert "kid" (VString k) m | None => m end in
  let m := match typ with Some typ => map_insert "typ" (VString typ) m | None => m end in
  ok_or_error (json_to_vec (VObject m)) SignHeader.

Definition signing_input (header payload : bytes) : text := b64url_encode header ++ "."%char :: b64url_encode payload.

Definition assemble (input : text) (signature : bytes) : text := input ++ "."%char :: b64url_encode signature.

Definition protected_header key (options : EmissionOptions) : Result bytes SignError :=
  build_header (alg_name options (algorithm key)) (kid key) (eo_typ options).

Definition protected_header_with (k : string) (alg : JwsAlgorithm) (options : EmissionOptions) : Result bytes SignError :=
  build_header (alg_name options alg) (Some k) (eo_typ options).

Definition sign_jws key (rng : SecureRandom) (payload : bytes) (options : EmissionOptions) : Result text SignError :=
  let? header := protected_header key options in
  let input := signing_input header payload in
  let? signature := ok_or_error (sign_asymmetric key rng (as_bytes input)) SignBackend in
  Ok (assemble input signature).

Definition sign_jws_with_policy (policy : SigningPolicy) key (rng : SecureRandom) (payload : bytes)
    (options : EmissionOptions) : Result text SignError :=
  if negb (permits policy (algorithm key)) then Err AlgorithmNotPermitted else sign_jws key rng payload options.

(** [ClientSecretContext::sign_jws]; the header always serializes, the other case is the
    [unreachable!]. *)
Definition client_secret_sign_jws (context : ClientSecretContext) (mac : MacAlgorithm) (secret payload : bytes)
    (options : EmissionOptions) : Run ClientSecretJws :=
  match build_header (mac_as_jose_name mac) None (eo_typ options) with
  | Err _ => Panicked
  | Ok header =>
      let input := signing_input header payload in
      Returned {| cs_context := context; cs_compact := assemble input (sign_hmac mac secret (as_bytes input)) |}
  end.

(** ** The keys of an environment *)

Abbreviation EnvironmentKeyStore E := (gmap E (list SigningKey)) (only parsing).

Definition keys_for {E} `{Countable E} (store : EnvironmentKeyStore E) (environment : E) : list SigningKey :=
  default [] (store !! environment).

Definition store_insert {E} `{Countable E} (store : EnvironmentKeyStore E) (environment : E) key : EnvironmentKeyStore E :=
  <[environment := keys_for store environment ++ [key]]> store.

Definition signer_for_alg {E} `{Countable E} (store : EnvironmentKeyStore E) (environment : E) (alg : JwsAlgorithm) :
    option SigningKey :=
  snd <$> list_find (λ key, algorithm key = alg) (keys_for store environment).

Definition signer_for_kid {E} `{Countable E} (store : EnvironmentKeyStore E) (environment : E) (k : string) :
    option SigningKey :=
  snd <$> list_find (λ key, kid key = Some k) (keys_for store environment).

Definition published_algorithms {E} `{Countable E} (store : EnvironmentKeyStore E) (environment : E) : list JwsAlgorithm :=
  algorithm <$> keys_for store environment.

Definition public_jwks {E} `{Countable E} (store : EnvironmentKeyStore E) (environment : E) :
    Result (list Jwk) SigningKeyError :=
  jwk_set (keys_for store environment).

(** ** Minted tokens verify *)

Context `{!KeyPairLaws} `{!JoseEncoderLaws} `{!JsonWriterLaws}.

(** The members of a minted header. *)
Definition header_members (name : string) (k typ : option string) : list (string * string) :=
  ("alg", name) :: match k with Some k => [("kid", k)] | None => [] end ++ match typ with Some t => [("typ", t)] | None => [] end.

Lemma build_header_spec name k typ : ∃ header, build_header name k typ = Ok header ∧ Forall is_byte header ∧ header ≠ [] ∧
  json_entries header = Some (string_object (header_members name k typ)).
Proof.
  destruct (write_strings (header_members name k typ)) as (header & Hw & Hb & Hne & Hr).
  { by destruct k, typ. }
  exists header. split; [|done]. unfold build_header.
  replace (match typ with Some _ => _ | None => _ end) with (string_object (header_members name k typ)) by by destruct k, typ.
  by rewrite Hw.
Qed.

(** The segments of an assembled token. *)
Lemma assembled_segments header payload signature : header ≠ [] → payload ≠ [] → signature ≠ [] →
  split_segments (assemble (signing_input header payload) signature) =
  Some (b64url_encode header, b64url_encode payload, b64url_encode signature).
Proof.
  assert (∀ bs, bs ≠ [] → b64url_encode bs ≠ []) as Hne.
  { intros bs Hbs He. pose proof (b64url_encode_length bs) as Hl. rewrite He in Hl. destruct bs as [|b bs]; [done|].
    cbn [length] in Hl. pose proof (Z.div_mod (Z.of_nat (S (length bs)) * 4 + 2) 3 ltac:(lia)).
    pose proof (Z.mod_pos_bound (Z.of_nat (S (length bs)) * 4 + 2) 3 ltac:(lia)). lia. }
  intros Hh Hp Hs. apply split_segments_spec. unfold assemble, signing_input. split; [by rewrite <-app_assoc|].
  split; [by split_and!; apply Hne|]. rewrite !elem_of_app. pose proof b64url_encode_dots. naive_solver.
Qed.

Lemma assembled_length header payload signature :
  Z.of_nat (length (assemble (signing_input header payload) signature)) =
  compact_len header payload (Z.of_nat (length signature)).
Proof.
  unfold assemble, signing_input, compact_len, b64_no_pad_len. rewrite <-!b64url_encode_length.
  rewrite !length_app. cbn [length]. rewrite ?length_app. cbn [length]. lia.
Qed.

Lemma signing_input_verified header payload :
  as_bytes (signing_input header payload) = signing_input_bytes (b64url_encode header) (b64url_encode payload).
Proof. unfold signing_input, signing_input_bytes, as_bytes. by rewrite fmap_app. Qed.

Lemma sign_jws_inv key rng payload options token : sign_jws key rng payload options = Ok token → ∃ header signature,
  protected_header key options = Ok header ∧
  sign_asymmetric key rng (signing_input_bytes (b64url_encode header) (b64url_encode payload)) = Some signature ∧
  token = assemble (signing_input header payload) signature.
Proof.
  unfold sign_jws. destruct (protected_header key options) as [header|] eqn:Hh; [|done]. rewrite signing_input_verified.
  destruct (sign_asymmetric _ _ _) as [signature|] eqn:Hs; [|done]. intros [= <-]. eauto.
Qed.

(** What is minted is within the caps of a verifier. *)
Record fits (caps : VerificationCaps) (header payload : bytes) (width : Z) : Prop := {
  fits_token : compact_len header payload width ≤ max_token_bytes caps;
  fits_header : Z.of_nat (length header) ≤ max_header_bytes caps;
  fits_payload : Z.of_nat (length payload) ≤ max_payload_bytes caps;
  fits_word : 4 * max_header_bytes caps ≤ USIZE_MAX ∧ 4 * max_payload_bytes caps ≤ USIZE_MAX
}.

Lemma encoded_fits bs cap : Z.of_nat (length bs) ≤ cap → 4 * cap ≤ USIZE_MAX →
  Z.of_nat (length (b64url_encode bs)) ≤ max_b64_len cap.
Proof.
  intros Hb Hc. rewrite b64url_encode_length. unfold max_b64_len. rewrite (Z.min_r _ (cap * 4)) by lia.
  apply Z.min_glb.
  - apply Z.div_le_upper_bound; [lia|]. unfold USIZE_MAX in *. lia.
  - transitivity ((cap * 4 + 4 * 3) / 3); [apply Z.div_le_mono; lia|]. by rewrite Z.div_add by lia.
Qed.

(** A minted header names the key's algorithm and identifier and nothing else. *)
Lemma minted_header_ok key options :
  header_ok (string_object (header_members (alg_name options (algorithm key)) (kid key) (eo_typ options)))
    {| header_alg := algorithm key; header_kid := kid key; header_typ := eo_typ options |}.
Proof.
  split; simpl.
  - intros name Hname Hin.
    assert (Forall (λ name, name ∉ ["alg"; "kid"; "typ"]) STEERING_PARAMS) as Hfree by by apply (bool_decide_unpack _).
    rewrite Forall_forall in Hfree. apply (Hfree name Hname).
    destruct (kid key), (eo_typ options); simpl in Hin; set_solver.
  - exists (alg_name options (algorithm key)). split; [done|]. unfold alg_name.
    by destruct (eo_fully_specified options), (algorithm key).
  - destruct (kid key), (eo_typ options); first [reflexivity|left; reflexivity].
  - destruct (kid key), (eo_typ options); first [reflexivity|left; reflexivity].
Qed.

(** A minted token is accepted by a policy that trusts a key with the public half. *)
Lemma minted_token_accepted key trusted rng payload options token policy now claims header :
  signs_for key (material trusted) → trusted ∈ vp_keys policy →
  (∀ k, kid key = Some k → trusted_kid trusted = Some k) → algorithm key ∈ vp_algorithms policy →
  accepts (vp_expected_typ policy) (eo_typ options) = true →
  Forall is_byte payload → payload ≠ [] → protected_header key options = Ok header →
  fits (vp_caps policy) header payload (signature_len key) →
  parse_and_enforce payload policy (now_seconds now) = Ok claims → sign_jws key rng payload options = Ok token →
  verify token policy now = Ok {| vt_algorithm := algorithm key; vt_key_id := kid key;
    vt_token_typ := eo_typ options; vt_claims := claims |}.
Proof.
  intros (Hfam & Hwidth & Hsigns) Hin Hkid Halg Htyp Hpb Hpne Hh Hfits Hclaims Hs.
  destruct (sign_jws_inv _ _ _ _ _ Hs) as (header' & signature & Hh' & Hsig & ->).
  assert (header' = header) as -> by congruence. clear Hh' Hs.
  destruct (Hsigns _ _ _ Hsig) as (Hsb & Hsl & Hv).
  destruct (build_header_spec (alg_name options (algorithm key)) (kid key) (eo_typ options)) as (header' & Hbuilt & Hhb & Hhne & Hread).
  unfold protected_header in Hh. assert (header' = header) as -> by congruence.
  assert (signature ≠ []) as Hsne by (intros ->; simpl in Hsl; lia).
  destruct (proj1 (split_segments_spec _ _ _ _) (assembled_segments header payload signature Hhne Hpne Hsne))
    as (Htoken & Hne & Hdots).
  apply parse_and_enforce_ok in Hclaims as (raw & Hraw & Hnd & Hok). apply verify_spec.
  destruct Hfits as [Hft Hfh Hfp [Hwh Hwp]].
  eapply (accepted_intro _ _ _ _ (b64url_encode header) (b64url_encode payload) (b64url_encode signature) header payload
    signature _ raw {| header_alg := algorithm key; header_kid := kid key; header_typ := eo_typ options |}); try done.
  - by rewrite assembled_length, Hsl.
  - by apply encoded_fits.
  - by apply encoded_fits.
  - by apply b64url_decode_encode.
  - by apply b64url_decode_encode.
  - by apply b64url_decode_encode.
  - destruct (kid key), (eo_typ options); apply (bool_decide_unpack _); reflexivity.
  - apply minted_header_ok.
  - by exists trusted.
Qed.

(** The trusted key a published set holds for one of its keys. *)
Lemma published_trusts keys key set json : Forall constructed keys → key ∈ keys → jwk_set keys = Ok set →
  jwks_to_json set = Ok json → ∃ trusted, trusted ∈ trusted_keys_from_jwks json ∧ signs_for key (material trusted) ∧
  ∀ k, kid key = Some k → trusted_kid trusted = Some k.
Proof.
  intros Hkeys [i Hi]%list_elem_of_lookup Hset Hjson.
  destruct (key_set_document keys Hkeys) as (set' & json' & Hset' & Hjson' & Hall).
  assert (json' = json) as -> by congruence.
  destruct (Forall2_lookup_l _ _ _ _ _ Hall Hi) as (t & Ht & k & Hk & Htk & Hs & _).
  exists t. split; [by eapply list_elem_of_lookup_2|]. split; [done|]. intros k' Hk'.
  unfold published_kid in Hk. rewrite Hk' in Hk. congruence.
Qed.

(** ** Theorems *)

(** C11 (roundtrip): what an environment mints verifies against the key set it publishes.  A non-empty payload
    signed by any key of the environment as a token of a profile is accepted by every policy
    for that profile that allows the algorithm of the key, whose keys were read from the
    published document, whose size caps the token fits and which finds the claims acceptable; the result carries the
    key's algorithm and identifier and the profile's media type. *)
Theorem minted_token_verifies keys key set json rng payload options typ token policy now claims header :
  Forall constructed keys → key ∈ keys → jwk_set keys = Ok set → jwks_to_json set = Ok json →
  vp_keys policy = trusted_keys_from_jwks json → algorithm key ∈ vp_algorithms policy →
  vp_expected_typ policy = Required typ → Forall is_byte payload → payload ≠ [] →
  protected_header key (with_token_typ options typ) = Ok header →
  fits (vp_caps policy) header payload (signature_len key) →
  sign_jws key rng payload (with_token_typ options typ) = Ok token →
  parse_and_enforce payload policy (now_seconds now) = Ok claims →
  verify token policy now = Ok {| vt_algorithm := algorithm key; vt_key_id := kid key;
    vt_token_typ := Some (media_type typ); vt_claims := claims |}.
Proof.
  intros Hkeys Hin Hset Hjson Hpk Halg Htyp Hpb Hpne Hh Hfits Hs Hclaims.
  destruct (published_trusts keys key set json Hkeys Hin Hset Hjson) as (t & Ht & Hsf & Hk).
  eapply (minted_token_accepted key t rng payload (with_token_typ options typ)); try done.
  - by rewrite Hpk.
  - rewrite Htyp. by destruct typ.
Qed.

(** The length of a token is known before it is signed: the header [protected_header] predicts
    is the one the token carries, and the token has exactly the length [compact_len] computes
    from it, the payload and the signature width of the key. *)
Theorem predicted_length_is_exact key rng payload options token : constructed key → sign_jws key rng payload options = Ok token →
  ∃ header, protected_header key options = Ok header ∧ b64url_encode header `prefix_of` token ∧
    Z.of_nat (length token) = compact_len header payload (signature_len key).
Proof.
  intros (_ & mat & _ & _ & _ & _ & _ & Hsigns)%constructed_public (header & signature & Hh & Hsig & ->)%sign_jws_inv.
  exists header. split; [done|]. destruct (Hsigns _ _ _ Hsig) as (_ & Hl & _). rewrite assembled_length, Hl.
  split; [|done]. unfold assemble, signing_input. rewrite <-app_assoc. by eexists.
Qed.

(** A token signed with a client secret verifies under no policy, whatever its keys and
    profile: symmetric algorithms exist only outside the verifier. *)
Theorem client_secret_token_refused context mac secret payload options jws policy now :
  client_secret_sign_jws context mac secret payload options = Returned jws →
  ∃ e, verify (cs_compact jws) policy now = Err e.
Proof.
  unfold client_secret_sign_jws.
  destruct (build_header_spec (mac_as_jose_name mac) None (eo_typ options)) as (header & -> & Hhb & _ & Hread).
  intros [= <-]. simpl. set (token := assemble _ _). destruct (verify token policy now) as [v|e] eqn:Hv; [|eauto]. exfalso.
  apply verify_spec in Hv as [h p s hb pb sb object raw hdr Ht Hn Hd _ _ _ Hb _ _ Ho _ Hok].
  assert (h = b64url_encode header) as ->.
  { assert (head (split_char "."%char token) = Some h) as Hhead.
    { rewrite Ht, split_char_app by (rewrite !elem_of_app in Hd; tauto). done. }
    unfold token, assemble, signing_input in Hhead. rewrite <-app_assoc in Hhead. cbn [app] in Hhead.
    rewrite split_char_app in Hhead by apply b64url_encode_dots. by injection Hhead. }
  rewrite b64url_decode_encode in Hb by done. injection Hb as <-. rewrite Hread in Ho. injection Ho as <-.
  destruct (ho_alg _ _ Hok) as (name & Hname & Hfrom). simpl in Hname. injection Hname as <-. by destruct mac.
Qed.
End Mint.

(** ** A concrete backend *)

Module Backend.
Import JsonSamples.

(** *** Base64url *)

Definition ALPHABET : text := lit "ABCDEFGHIJKLMNOPQRSTUVWXYZabcdefghijklmnopqrstuvwxyz0123456789-_".
Definition sextet (i : Z) : ascii := default "A"%char (ALPHABET !! Z.to_nat i).
Definition unsextet (c : ascii) : option Z := (λ p : nat * ascii, Z.of_nat p.1) <$> list_find (λ d, d = c) ALPHABET.

Fixpoint encode64 (l : bytes) : text :=
  match l with
  | a :: b :: c :: rest =>
      sextet (a / 4) :: sextet (a mod 4 * 16 + b / 16) :: sextet (b mod 16 * 4 + c / 64) :: sextet (c mod 64) :: encode64 rest
  | [a; b] => [sextet (a / 4); sextet (a mod 4 * 16 + b / 16); sextet (b mod 16 * 4)]
  | [a] => [sextet (a / 4); sextet (a mod 4 * 16)]
  | [] => []
  end.

Fixpoint decode64 (s : text) : option bytes :=
  match s with
  | w :: x :: y :: z :: rest =>
      i ← unsextet w; j ← unsextet x; k ← unsextet y; l ← unsextet z; tail ← decode64 rest;
      Some (i * 4 + j / 16 :: j mod 16 * 16 + k / 4 :: k mod 4 * 64 + l :: tail)
  | [w; x; y] => i ← unsextet w; j ← unsextet x; k ← unsextet y; Some [i * 4 + j / 16; j mod 16 * 16 + k / 4]
  | [w; x] => i ← unsextet w; j ← unsextet x; Some [i * 4 + j / 16]
  | [] => Some []
  | _ => None
  end.

Lemma unsextet_sextet i : 0 ≤ i < 64 → unsextet (sextet i) = Some i.
Proof.
  intros Hi. assert (forallb (λ n, bool_decide (unsextet (sextet (Z.of_nat n)) = Some (Z.of_nat n))) (seq 0 64) = true) as Hall
    by (vm_compute; reflexivity).
  rewrite forallb_forall in Hall. specialize (Hall (Z.to_nat i)). rewrite Z2Nat.id in Hall by lia.
  apply (bool_decide_eq_true_1 _), Hall, in_seq. lia.
Qed.

Ltac sextets := unfold is_byte in *; repeat (rewrite unsextet_sextet by (Z.to_euclidean_division_equations; lia); simpl).

Lemma decode64_encode64 n : ∀ l, (length l ≤ n)%nat → Forall is_byte l → decode64 (encode64 l) = Some l.
Proof.
  induction n as [|n IH]; intros l Hl Hb; [by destruct l; [|simpl in Hl; lia]|].
  destruct l as [|a [|b [|c l]]]; [done|..]; simpl.
  - apply Forall_cons_1 in Hb as [Ha _]. sextets. do 2 f_equal. Z.to_euclidean_division_equations; lia.
  - apply Forall_cons_1 in Hb as [Ha [Hb _]%Forall_cons_1]. sextets. repeat f_equal; Z.to_euclidean_division_equations; lia.
  - apply Forall_cons_1 in Hb as [Ha [Hb [Hc Hrest]%Forall_cons_1]%Forall_cons_1]. sextets.
    simpl in Hl. rewrite IH by (done || lia). simpl. repeat f_equal; Z.to_euclidean_division_equations; lia.
Qed.

Lemma encode64_length n : ∀ l, (length l ≤ n)%nat → Z.of_nat (length (encode64 l)) = (Z.of_nat (length l) * 4 + 2) / 3.
Proof.
  induction n as [|n IH]; intros l Hl; [by destruct l; [|simpl in Hl; lia]|].
  destruct l as [|a [|b [|c l]]]; [done..|]. cbn [encode64 length] in *. rewrite !Nat2Z.inj_succ, IH by lia.
  replace (Z.succ (Z.succ (Z.succ (Z.of_nat (length l)))) * 4 + 2) with (Z.of_nat (length l) * 4 + 2 + 4 * 3) by lia.
  rewrite Z.div_add by lia. lia.
Qed.

Lemma sextet_url_safe i : is_url_safe (sextet i) = true.
Proof.
  assert (Forall (λ c, is_url_safe c = true) ("A"%char :: ALPHABET)) as Hall by by apply (bool_decide_unpack _).
  rewrite Forall_forall in Hall. apply Hall. unfold sextet.
  destruct (ALPHABET !! Z.to_nat i) eqn:Hi; [|left]. right. by eapply list_elem_of_lookup_2.
Qed.

Lemma encode64_alphabet n : ∀ l, (length l ≤ n)%nat → Forall (λ c, is_url_safe c = true) (encode64 l).
Proof.
  induction n as [|n IH]; intros l Hl; [destruct l; [constructor|simpl in Hl; lia]|].
  destruct l as [|a [|b [|c l]]]; cbn [encode64 length] in *; repeat (constructor; [apply sextet_url_safe|]); try constructor.
  apply IH. lia.
Qed.

#[export] Instance encoder : JoseEncoder := {| b64url_encode := encode64 |}.

(** *** Signatures: the key and a checksum of the message *)

Definition checksum (bs : bytes) : Z := foldl (λ acc b, (acc * 31 + b) mod 256) 7 bs.

Lemma checksum_byte bs : is_byte (checksum bs).
Proof.
  unfold checksum, is_byte. assert (∀ acc, 0 ≤ acc < 256 → 0 ≤ foldl (λ acc b, (acc * 31 + b) mod 256) acc bs < 256) as Hf; [|apply Hf; lia].
  induction bs as [|b bs IH]; intros acc Hacc; simpl; [done|]. apply IH, Z.mod_pos_bound. lia.
Qed.

Definition tagged (width : nat) (tag : Z) (m : bytes) : bytes := replicate width ((checksum m + tag) mod 256).

Lemma tagged_bytes width tag m : Forall is_byte (tagged width tag m).
Proof. apply Forall_replicate. unfold is_byte. apply Z.mod_pos_bound. lia. Qed.

Definition tag_of (bs : bytes) : Z := default 0 (bs !! 1%nat).

#[export] Instance backend_primitives : Primitives := {|
  verify_asymmetric alg pk m s := bool_decide (s = tagged (match alg with ECDSA_P384_SHA384_FIXED => 96 | _ => 64 end) (tag_of pk) m);
  verify_rsa _ n e m s := bool_decide (s = tagged 256 (tag_of n) m);
  b64url_decode := decode64 |}.

(** A key pair is the byte its public half repeats. *)
Definition one_byte (bs : bytes) : option Z :=
  match bs with [b] => if (128 <=? b) && (b <? 256) then Some b else None | _ => None end.

Definition pair_of_seed (seed : bytes) : option Z :=
  b ← head seed; if (0 <=? b) && (b <? 256) then Some b else None.

#[export] Instance sample_pairs : KeyPairs := {|
  Ed25519KeyPair := Z; EcdsaKeyPair := EcdsaSigningAlgorithm * Z; RsaKeyPair := Z; SecureRandom := ();
  from_seed_unchecked := pair_of_seed;
  from_pkcs8 alg bs := (λ b, (alg, b)) <$> one_byte bs;
  from_der := one_byte;
  ed25519_public_key b := replicate 32 b;
  ecdsa_public_key k := 0x04 :: replicate (coordinate_len k.1) k.2 ++ replicate (coordinate_len k.1) k.2;
  rsa_public b := seq_ [uint_bytes (replicate 256 b); uint_bytes [1; 0; 1]];
  modulus_len _ := 256;
  ed25519_sign b m := tagged 64 b m;
  ecdsa_sign k _ m := Some (tagged (2 * coordinate_len k.1) k.2 m);
  rsa_pair_sign b _ _ m := Some (tagged 256 b m);
  hmac_digest _ secret m := tagged 32 (checksum secret) m;
  digest_sha256 m := tagged 32 0 m |}.

Lemma one_byte_range bs b : one_byte bs = Some b → 128 ≤ b < 256.
Proof. unfold one_byte. destruct bs as [|b' []]; try done. destruct (_ && _) eqn:Hb; [|done]. intros [= <-]. bool_to_prop. lia. Qed.

#[export] Instance sample_pair_laws : KeyPairLaws.
Proof.
  split.
  - intros bs. split; [apply tagged_bytes|done].
  - intros seed b Hb. unfold from_seed_unchecked in Hb. simpl in Hb. unfold pair_of_seed in Hb.
    destruct (head seed) as [b'|]; [|done]. simpl in Hb. destruct (_ && _) eqn:Hr; [|done]. injection Hb as ->. bool_to_prop.
    split; [done|]. split; [apply Forall_replicate; unfold is_byte; lia|]. intros m. split; [apply tagged_bytes|].
    split; [done|]. by apply bool_decide_eq_true_2.
  - intros alg bs k Hk. simpl in Hk. apply fmap_Some in Hk as (b & Hb%one_byte_range & ->).
    exists (replicate (coordinate_len alg) b), (replicate (coordinate_len alg) b). split; [done|].
    rewrite length_replicate. do 2 (split; [done|]). do 2 (split; [apply Forall_replicate; unfold is_byte; lia|]).
    intros rng m s [= <-]. split; [apply tagged_bytes|]. split; [apply length_replicate|].
    apply bool_decide_eq_true_2. by destruct alg.
  - intros der b Hb%one_byte_range _. exists (replicate 256 b), [1; 0; 1]. split; [done|]. split.
    { split; [done|]. split; [simpl; intros [= ->]; lia|]. split; [apply Forall_replicate; unfold is_byte; lia|].
      by rewrite length_replicate. }
    split; [split_and!; [done|done|repeat constructor; unfold is_byte; lia|done]|]. split; [done|].
    intros padding rng m s [= <-]. split; [apply tagged_bytes|]. split; [done|]. by apply bool_decide_eq_true_2.
Qed.

#[export] Instance sample_encoder_laws : JoseEncoderLaws.
Proof.
  split; intros bs; [by apply (decode64_encode64 (length bs))|by apply (encode64_length (length bs))|
    by apply (encode64_alphabet (length bs))].
Qed.

(** *** JSON: a tag and a code of the strings *)

Fixpoint pos_bits (p : positive) : bytes :=
  match p with xH => [] | xO p => 0 :: pos_bits p | xI p => 1 :: pos_bits p end.

Fixpoint bits_pos (bs : bytes) : positive :=
  match bs with [] => xH | b :: bs => if b =? 0 then xO (bits_pos bs) else xI (bits_pos bs) end.

Lemma bits_pos_bits p : bits_pos (pos_bits p) = p ∧ Forall is_byte (pos_bits p).
Proof. induction p as [p [IH Hb]|p [IH Hb]|]; simpl; rewrite ?IH; (split; [done|]); repeat constructor; done || unfold is_byte; lia. Qed.

Definition as_strings (m : Map) : option (list (string * string)) :=
  mapM (λ kv : string * Value, match kv.2 with VString s => Some (kv.1, s) | _ => None end) m.

Lemma as_strings_object members : as_strings (string_object members) = Some members.
Proof. induction members as [|[k v] l IH]; [done|]. unfold as_strings in *. simpl. by rewrite IH. Qed.

Definition write_value (v : Value) : option bytes :=
  match v with
  | VObject m =>
      match as_strings m with
      | Some l => Some (2 :: pos_bits (encode l))
      | None =>
          match m with
          | [("keys", VArray items)] =>
              (λ sets, 3 :: pos_bits (encode sets)) <$> mapM (λ v, as_object v ≫= as_strings) items
          | _ => None
          end
      end
  | _ => None
  end.

Definition backend_claims : Map :=
  [("iss", VString "https://idp.example"); ("aud", VString "api"); ("exp", VNumber 1000); ("sub", VString "usr_1")].

Definition sample_payload : bytes := [9; 9; 9].

#[export] Instance backend_reader : JsonReader := {|
  json_entries bs :=
    match bs with
    | 2 :: bits => string_object <$> decode (A := list (string * string)) (bits_pos bits)
    | _ => if bool_decide (bs = sample_payload) then Some backend_claims else None
    end;
  json_value bs :=
    match bs with
    | 3 :: bits => (λ sets, VObject [("keys", VArray ((λ members, VObject (string_object members)) <$> sets))]) <$>
        decode (A := list (list (string * string))) (bits_pos bits)
    | _ => None
    end |}.

#[export] Instance sample_writer : JsonWriter := {| json_to_vec := write_value |}.

Lemma mapM_string_objects sets :
  mapM (λ v, as_object v ≫= as_strings) ((λ members, VObject (string_object members)) <$> sets) = Some sets.
Proof.
  apply mapM_Some_2, Forall2_fmap_l. induction sets; constructor; [|done]. simpl. apply as_strings_object.
Qed.

#[export] Instance sample_writer_laws : JsonWriterLaws.
Proof.
  split.
  - intros members _. exists (2 :: pos_bits (encode members)). destruct (bits_pos_bits (encode members)) as [Hp Hb].
    simpl. rewrite as_strings_object. split; [done|]. split; [constructor; [unfold is_byte; lia|done]|]. split; [done|].
    by rewrite Hp, decode_encode.
  - intros sets _. exists (3 :: pos_bits (encode sets)). destruct (bits_pos_bits (encode sets)) as [Hp Hb].
    split.
    + transitivity ((λ sets, 3 :: pos_bits (encode sets)) <$>
        mapM (λ v, as_object v ≫= as_strings) ((λ members, VObject (string_object members)) <$> sets)); [reflexivity|].
      by rewrite mapM_string_objects.
    + simpl. by rewrite Hp, decode_encode.
Qed.
End Backend.

Module MintSamples.
Import JsonSamples Backend.

Definition sample_ed : SigningKey := {| kid := None; algorithm := EdDsa; inner := InnerEd25519 200 |}.
Definition sample_ec : SigningKey :=
  {| kid := Some "k2"; algorithm := Es384; inner := InnerEcdsaP384 (ECDSA_P384_SHA384_FIXED_SIGNING, 201) |}.
Definition mint_keys : list SigningKey := [sample_ec; sample_ed].

Lemma mint_keys_constructed : Forall constructed mint_keys.
Proof.
  constructor; [by apply (con_p384 (Some "k2") [201])|].
  constructor; [by apply (con_ed25519 None (replicate 32 200))|constructor].
Qed.

Definition sample_set : list Jwk := match jwk_set mint_keys with Ok set => set | Err _ => [] end.
Definition sample_json : bytes := match jwks_to_json sample_set with Ok json => json | Err _ => [] end.

Definition mint_policy : VerificationPolicy := {|
  vp_algorithms := [EdDsa; Es384]; vp_keys := trusted_keys_from_jwks sample_json;
  vp_expected_iss := "https://idp.example"; vp_expected_aud := "api";
  vp_expected_typ := Required AccessToken; vp_max_skew := DEFAULT_SKEW; vp_caps := CAPS_DEFAULT;
  vp_require_iat := false; vp_allow_expired := false; vp_allow_absent_exp := false |}.

Definition sample_verified : VerifiedClaims := {|
  vc_issuer := "https://idp.example"; vc_subject := Some "usr_1"; vc_audiences := ["api"];
  vc_expiration := Some 1000; vc_not_before := None; vc_issued_at := None; vc_raw := backend_claims |}.

Definition sample_options : EmissionOptions := with_token_typ (with_fully_specified EmissionOptions_new true) AccessToken.
Definition sample_header : bytes := match protected_header sample_ed sample_options with Ok h => h | Err _ => [] end.
Definition mint_token : text := match sign_jws sample_ed () sample_payload sample_options with Ok t => t | Err _ => [] end.

Lemma published_keys_read_back_witness :
  trusted_kid <$> trusted_keys_from_jwks sample_json = [Some "k2"; result_ok (derive_kid sample_ed)].
Proof.
  destruct (published_keys_read_back mint_keys mint_keys_constructed) as (set & json & Hset & Hjson & Hall).
  assert (jwk_set mint_keys = Ok sample_set) as Hs by (vm_compute; reflexivity).
  assert (jwks_to_json sample_set = Ok sample_json) as Hj by (vm_compute; reflexivity).
  assert (json = sample_json) as -> by congruence.
  clear Hset Hjson Hs Hj set. generalize dependent (trusted_keys_from_jwks sample_json). intros l Hall.
  inversion_clear Hall as [|? t1 ? l1 [(k1 & Hp1 & Hk1) _] Hall'].
  inversion_clear Hall' as [|? t2 ? l2 [(k2 & Hp2 & Hk2) _] Hall]. inversion_clear Hall. cbn [fmap list_fmap].
  rewrite Hk1, Hk2. injection Hp1 as <-. change (published_kid sample_ed) with (derive_kid sample_ed) in Hp2.
  by rewrite Hp2.
Defined.

Lemma minted_token_verifies_witness : verify mint_token mint_policy (500 * NANOS_PER_SEC) =
  Ok {| vt_algorithm := EdDsa; vt_key_id := None; vt_token_typ := Some "at+jwt"; vt_claims := sample_verified |}.
Proof.
  apply (minted_token_verifies mint_keys sample_ed sample_set sample_json () sample_payload
    (with_fully_specified EmissionOptions_new true) AccessToken mint_token mint_policy (500 * NANOS_PER_SEC)
    sample_verified sample_header mint_keys_constructed).
  - right. left.
  - vm_compute. reflexivity.
  - vm_compute. reflexivity.
  - reflexivity.
  - left.
  - reflexivity.
  - repeat constructor; unfold is_byte; lia.
  - discriminate.
  - vm_compute. reflexivity.
  - split; [vm_compute; discriminate..|]. split; vm_compute; discriminate.
  - vm_compute. reflexivity.
  - vm_compute. reflexivity.
Defined.

Lemma predicted_length_is_exact_witness : Z.of_nat (length mint_token) = compact_len sample_header sample_payload 64.
Proof.
  destruct (predicted_length_is_exact sample_ed () sample_payload sample_options mint_token) as (header & Hh & _ & Hl).
  - by apply (con_ed25519 None (replicate 32 200)).
  - vm_compute. reflexivity.
  - assert (protected_header sample_ed sample_options = Ok sample_header) as Hh' by (vm_compute; reflexivity).
    by assert (header = sample_header) as <- by congruence.
Defined.

Lemma client_secret_token_refused_witness :
  ∃ jws, client_secret_sign_jws IdTokenHs Hs256 [1; 2] sample_payload sample_options = Returned jws ∧
    ∃ e, verify (cs_compact jws) mint_policy (500 * NANOS_PER_SEC) = Err e.
Proof.
  eexists. split; [reflexivity|].
  eapply (client_secret_token_refused IdTokenHs Hs256 [1; 2] sample_payload sample_options). reflexivity.
Defined.

(** A key and the same key with other members beside it. *)
Definition bare_jwk : Jwk := mkJwk (string_object [("crv", "Ed25519"); ("kty", "OKP"); ("x", of_text (b64url_encode (replicate 32 7)))]).
Definition labelled_jwk : Jwk := mkJwk (string_object
  [("alg", "EdDSA"); ("crv", "Ed25519"); ("kid", "mine"); ("kty", "OKP"); ("x", of_text (b64url_encode (replicate 32 7)))]).

Lemma thumbprint_identifies_key_witness :
  material <$> trusted_key_from_jwk bare_jwk = material <$> trusted_key_from_jwk labelled_jwk.
Proof.
  apply (thumbprint_identifies_key bare_jwk labelled_jwk (match jwk_thumbprint bare_jwk with Ok t => t | Err _ => "" end)).
  - vm_compute. reflexivity.
  - vm_compute. reflexivity.
  - intros bs bs' (ms & Hms & Hw) (ms' & Hms' & Hw') _. assert (Ok ms = Ok ms') as [= <-] by (by rewrite <-Hms, <-Hms'). congruence.
Defined.
End MintSamples.
