(* ===== verification/Dpop.v ===== *)
(** * Proofs of possession

    crates/ironauth-jose cnf.rs (the confirmation a token carries) and dpop.rs (the validation
    of a DPoP proof against the key embedded in its own header).  A [SystemTime] is a number of
    nanoseconds since the epoch.  The theorems: an exact characterisation of the accepted
    proofs; a confirmation survives its claim; the window of a proof. *)

From S2P Require Import Prelude Machine Bytes Text Json SigningPolicy Rotation JosePolicy JoseHeader JoseClaims JoseVerify SigningKeys.

Local Open Scope Z_scope.

(** ** Confirmations *)

Inductive Confirmation : Set := Jkt (thumb : string) | X5tS256 (thumb : string).

Inductive CnfError : Set := NotAnObject | MalformedMember | NoRecognizedBinding.

Definition CnfError_to_string (e : CnfError) : string :=
  match e with
  | NotAnObject => "cnf claim is not a JSON object"
  | MalformedMember => "cnf binding member is not a string thumbprint"
  | NoRecognizedBinding => "cnf claim carries no recognized binding member"
  end.

Definition JKT : string := "jkt".
Definition X5T_S256 : string := "x5t#S256".

Definition member_name (c : Confirmation) : string := match c with Jkt _ => JKT | X5tS256 _ => X5T_S256 end.
Definition confirmation_value (c : Confirmation) : string := match c with Jkt v | X5tS256 v => v end.

Section Cnf.
Context `{JsonReader}.

Definition to_cnf_object (c : Confirmation) : Map := map_insert (member_name c) (VString (confirmation_value c)) [].

Definition embed_in_claims (c : Confirmation) (claims : Map) : Map := map_insert "cnf" (VObject (to_cnf_object c)) claims.

Definition from_cnf_object (cnf : Value) : Result Confirmation CnfError :=
  let? object := ok_or_error (as_object cnf) NotAnObject in
  match map_get object JKT with
  | Some value => let? thumb := ok_or_error (value_as_str value) MalformedMember in Ok (Jkt thumb)
  | None =>
      match map_get object X5T_S256 with
      | Some value => let? thumb := ok_or_error (value_as_str value) MalformedMember in Ok (X5tS256 thumb)
      | None => Err NoRecognizedBinding
      end
  end.

Definition from_claims (claims : VerifiedClaims) : Result (option Confirmation) CnfError :=
  match vc_get claims "cnf" with
  | None | Some VNull => Ok None
  | Some cnf => let? c := from_cnf_object cnf in Ok (Some c)
  end.
End Cnf.

(** ** Proofs *)

Definition DPOP_TYP : string := "dpop+jwt".
Definition PRIVATE_JWK_MEMBERS : list string := ["d"; "p"; "q"; "dp"; "dq"; "qi"; "oth"].
Definition MAX_JTI_LEN : nat := 256.

Definition DpopError_to_string (e : DpopError) : string :=
  match e with
  | DpopTooLarge => "dpop proof exceeds the size cap"
  | DpopMalformed => "dpop proof is structurally malformed"
  | MalformedKey => "dpop proof embedded key is malformed or unsupported"
  | PrivateKeyInProof => "dpop proof embedded key carries private material"
  | UnsupportedAlgorithm => "dpop proof algorithm is not an accepted asymmetric algorithm"
  | AlgKeyMismatch => "dpop proof algorithm does not agree with the embedded key type"
  | DpopBadSignature => "dpop proof signature did not verify"
  | WrongType => "dpop proof type header is not dpop+jwt"
  | HtmMismatch => "dpop proof http method claim did not match"
  | HtuMismatch => "dpop proof http uri claim did not match"
  | MissingIat => "dpop proof issued-at claim is absent or malformed"
  | DpopExpired => "dpop proof issued-at is outside the freshness window"
  | DpopNotYetValid => "dpop proof issued-at is in the future beyond the skew"
  | MissingJti => "dpop proof identifier claim is absent, empty, or too long"
  | AthMismatch => "dpop proof access-token hash did not match"
  | NonceMismatch => "dpop proof nonce did not match"
  end.

Record DpopExpectations : Type := {
  exp_htm : string; exp_htu : string; exp_iat_leeway : Z; exp_iat_skew : Z; exp_ath : option string; exp_nonce : option string }.

Record DpopProof : Type := { pr_jkt : string; pr_jti : string; pr_iat : Z; pr_nonce : option string }.

(** [Duration::as_secs]. *)
Definition as_secs (duration : Z) : Z := duration / NANOS_PER_SEC.

(** The whole seconds of an instant; before the epoch it reads as zero. *)
Definition epoch_secs (now : Z) : Z := if now <? 0 then 0 else as_secs now.

Definition check_iat_window (iat_secs now leeway skew : Z) : Result () DpopError :=
  let now_secs := epoch_secs now in
  if u64_saturating_add iat_secs (as_secs leeway) <? now_secs then Err DpopExpired
  else if u64_saturating_add now_secs (as_secs skew) <? iat_secs then Err DpopNotYetValid
  else Ok ().

Section Proofs.
Context `{JsonReader} `{!Primitives} `{!JsonWriter} `{!JoseEncoder} `{!KeyPairs}.

Definition proof_algorithm (alg : option Value) : Result JwsAlgorithm DpopError :=
  match alg ≫= value_as_str with
  | Some name =>
      if bool_decide (name = "EdDSA") then Ok EdDsa
      else if bool_decide (name = "ES256") then Ok Es256
      else if bool_decide (name = "RS256") then Ok Rs256
      else Err UnsupportedAlgorithm
  | None => Err UnsupportedAlgorithm
  end.

Definition alg_agrees_with_key (alg : JwsAlgorithm) (jwk : Jwk) : bool :=
  let kty := jwk_kty jwk in
  let crv := jwk_get jwk "crv" ≫= value_as_str in
  match alg with
  | EdDsa => bool_decide (kty = Some "OKP") && bool_decide (crv = Some "Ed25519")
  | Es256 => bool_decide (kty = Some "EC") && bool_decide (crv = Some "P-256")
  | Rs256 => bool_decide (kty = Some "RSA")
  | _ => false
  end.

Definition decode_segment (segment : text) : Result bytes DpopError := ok_or_error (b64url_decode segment) DpopMalformed.

Record VerifiedEmbedded : Type := { ve_jwk : Jwk; ve_header : Map; ve_payload : bytes }.

Definition verify_embedded (proof : text) : Result VerifiedEmbedded DpopError :=
  let caps := CAPS_DEFAULT in
  if max_token_bytes caps <? Z.of_nat (length proof) then Err DpopTooLarge
  else
    let? (header_b64, payload_b64, signature_b64) := ok_or_error (split_segments proof) DpopMalformed in
    if max_b64_len (max_header_bytes caps) <? Z.of_nat (length header_b64) then Err DpopTooLarge
    else if max_b64_len (max_payload_bytes caps) <? Z.of_nat (length payload_b64) then Err DpopTooLarge
    else
      let? header_bytes := decode_segment header_b64 in
      let? header := ok_or_error (parse_unique_object header_bytes) DpopMalformed in
      let? object := ok_or_error (map_get header "jwk" ≫= as_object) MalformedKey in
      let jwk := jwk_from_object object in
      if existsb (λ member, bool_decide (is_Some (jwk_get jwk member))) PRIVATE_JWK_MEMBERS then Err PrivateKeyInProof
      else
        let? alg := proof_algorithm (map_get header "alg") in
        if negb (alg_agrees_with_key alg jwk) then Err AlgKeyMismatch
        else
          let? key := ok_or_error (trusted_key_from_jwk jwk) MalformedKey in
          let? signature := decode_segment signature_b64 in
          let? payload := decode_segment payload_b64 in
          let input := signing_input_bytes header_b64 payload_b64 in
          if negb (verify_signature alg (material key) input signature) then Err DpopBadSignature
          else Ok {| ve_jwk := jwk; ve_header := header; ve_payload := payload |}.

(** A string claim. *)
Definition str_claim (claims : Map) (name : string) : option string := map_get claims name ≫= value_as_str.

(** Everything after the signature, up to the result: thumbprint, [iat] in seconds and [jti]. *)
Definition validate_claims (verified : VerifiedEmbedded) (expected : DpopExpectations) (now : Z)
    : Result (string * Z * string * Map) DpopError :=
  let? typ := ok_or_error (str_claim (ve_header verified) "typ") WrongType in
  if negb (bool_decide (typ = DPOP_TYP)) then Err WrongType
  else
    let? jkt := jwk_thumbprint (ve_jwk verified) in
    let? claims := ok_or_error (parse_unique_object (ve_payload verified)) DpopMalformed in
    if negb (bool_decide (str_claim claims "htm" = Some (exp_htm expected))) then Err HtmMismatch
    else if negb (bool_decide (str_claim claims "htu" = Some (exp_htu expected))) then Err HtuMismatch
    else
      let? iat_secs := ok_or_error (map_get claims "iat" ≫= value_as_u64) MissingIat in
      let? _ := check_iat_window iat_secs now (exp_iat_leeway expected) (exp_iat_skew expected) in
      let? jti := ok_or_error (str_claim claims "jti") MissingJti in
      if bool_decide (jti = "") || (MAX_JTI_LEN <? String.length jti)%nat then Err MissingJti
      else if match exp_ath expected with Some ath => negb (bool_decide (str_claim claims "ath" = Some ath)) | None => false end
      then Err AthMismatch
      else if match exp_nonce expected with
              | Some nonce => negb (bool_decide (str_claim claims "nonce" = Some nonce)) | None => false end
      then Err NonceMismatch
      else Ok (jkt, iat_secs, jti, claims).

(** The addition to [UNIX_EPOCH] panics when the instant is not representable. *)
Definition validate_dpop_proof (proof_jws : text) (expected : DpopExpectations) (now : Z) : Run (Result DpopProof DpopError) :=
  match verify_embedded proof_jws with
  | Err e => Returned (Err e)
  | Ok verified =>
      match validate_claims verified expected now with
      | Err e => Returned (Err e)
      | Ok (jkt, iat_secs, jti, claims) =>
          match time_checked_add UNIX_EPOCH (iat_secs * NANOS_PER_SEC) with
          | None => Panicked
          | Some iat => Returned (Ok {| pr_jkt := jkt; pr_jti := jti; pr_iat := iat; pr_nonce := str_claim claims "nonce" |})
          end
      end
  end.

(** ** What an accepted proof satisfies *)

(** The window of a proof: issued at most the leeway before and the skew after the present
    second. *)
Definition fresh (expected : DpopExpectations) (now iat_secs : Z) : Prop :=
  epoch_secs now ≤ u64_saturating_add iat_secs (as_secs (exp_iat_leeway expected)) ∧
  iat_secs ≤ u64_saturating_add (epoch_secs now) (as_secs (exp_iat_skew expected)).

(** The embedded key: public, read as a trusted key of the family of the algorithm, and the key
    that signed the proof. *)
Definition signed_by_embedded (header : Map) (input signature : bytes) (jwk : Jwk) : Prop :=
  ∃ alg key, map_get header "jwk" = Some (VObject (jwk_members jwk)) ∧
    (∀ member, member ∈ PRIVATE_JWK_MEMBERS → member ∉ (jwk_members jwk).*1) ∧
    alg ∈ [EdDsa; Es256; Rs256] ∧ map_get header "alg" = Some (VString (as_jose_name alg)) ∧
    trusted_key_from_jwk jwk = Some key ∧ material_family (material key) = key_family alg ∧
    verify_signature alg (material key) input signature = true.

(** The specification of validation, without its order of stages. *)
Inductive proof_ok (expected : DpopExpectations) (now : Z) (proof : text) (r : DpopProof) : Prop :=
| proof_ok_intro h p s header_bytes payload_bytes signature header claims jwk iat_secs :
    proof = h ++ "."%char :: p ++ "."%char :: s → h ≠ [] ∧ p ≠ [] ∧ s ≠ [] → "."%char ∉ h ++ p ++ s →
    Z.of_nat (length proof) ≤ max_token_bytes CAPS_DEFAULT →
    Z.of_nat (length h) ≤ max_b64_len (max_header_bytes CAPS_DEFAULT) →
    Z.of_nat (length p) ≤ max_b64_len (max_payload_bytes CAPS_DEFAULT) →
    b64url_decode h = Some header_bytes → b64url_decode p = Some payload_bytes → b64url_decode s = Some signature →
    json_entries header_bytes = Some header → NoDup header.*1 →
    json_entries payload_bytes = Some claims → NoDup claims.*1 →
    signed_by_embedded header (signing_input_bytes h p) signature jwk →
    map_get header "typ" = Some (VString DPOP_TYP) →
    map_get claims "htm" = Some (VString (exp_htm expected)) → map_get claims "htu" = Some (VString (exp_htu expected)) →
    map_get claims "iat" ≫= value_as_u64 = Some iat_secs → fresh expected now iat_secs →
    map_get claims "jti" = Some (VString (pr_jti r)) → (0 < String.length (pr_jti r) ≤ MAX_JTI_LEN)%nat →
    (∀ ath, exp_ath expected = Some ath → map_get claims "ath" = Some (VString ath)) →
    (∀ nonce, exp_nonce expected = Some nonce → map_get claims "nonce" = Some (VString nonce)) →
    jwk_thumbprint jwk = Ok (pr_jkt r) → time_checked_add UNIX_EPOCH (iat_secs * NANOS_PER_SEC) = Some (pr_iat r) →
    pr_nonce r = str_claim claims "nonce" →
    proof_ok expected now proof r.

Lemma str_claim_Some claims name s : str_claim claims name = Some s ↔ map_get claims name = Some (VString s).
Proof. unfold str_claim. destruct (map_get claims name) as [[]|]; simpl; naive_solver. Qed.

Lemma check_iat_window_ok iat now leeway skew : check_iat_window iat now leeway skew = Ok () ↔
  epoch_secs now ≤ u64_saturating_add iat (as_secs leeway) ∧ iat ≤ u64_saturating_add (epoch_secs now) (as_secs skew).
Proof. unfold check_iat_window. repeat case_match; bool_to_prop; split; naive_solver lia. Qed.

Lemma proof_algorithm_ok value alg : proof_algorithm value = Ok alg ↔
  alg ∈ [EdDsa; Es256; Rs256] ∧ value = Some (VString (as_jose_name alg)).
Proof.
  unfold proof_algorithm. split.
  - destruct (value ≫= value_as_str) as [name|] eqn:Hv; [|done].
    assert (value = Some (VString name)) as -> by (by destruct value as [[]|]; simplify_eq/=).
    repeat case_bool_decide; intros [= <-]; subst; (split; [set_solver|done]).
  - intros [Hin ->]. by destruct alg; try set_solver.
Qed.

(** The algorithm agrees with the type of a readable key exactly when its family does. *)
Lemma agreement_is_family alg jwk key : alg ∈ [EdDsa; Es256; Rs256] → trusted_key_from_jwk jwk = Some key →
  alg_agrees_with_key alg jwk = true ↔ material_family (material key) = key_family alg.
Proof.
  intros Halg Hkey.
  assert (∃ kty, jwk_kty jwk = Some kty ∧ (kty = "OKP" ∧ jwk_get jwk "crv" ≫= value_as_str = Some "Ed25519" ∧ material_family (material key) = Ed25519
    ∨ kty = "EC" ∧ jwk_get jwk "crv" ≫= value_as_str = Some "P-256" ∧ material_family (material key) = EcP256
    ∨ kty = "EC" ∧ jwk_get jwk "crv" ≫= value_as_str = Some "P-384" ∧ material_family (material key) = EcP384
    ∨ kty = "RSA" ∧ material_family (material key) = Rsa)) as (kty & Hkty & Hcases).
  { unfold trusted_key_from_jwk in Hkey. destruct (jwk_kty jwk) as [kty|]; [|done]. exists kty. split; [done|]. simpl in Hkey.
    unfold trusted_ed25519, trusted_ecdsa_p256, trusted_ecdsa_p384, trusted_rsa in Hkey.
    destruct (jwk_get jwk "crv" ≫= value_as_str) as [crv|]; simpl in Hkey; repeat case_bool_decide; simplify_eq/=;
      repeat match type of Hkey with context [jwk_b64 jwk ?m] => destruct (jwk_b64 jwk m); [|done]; simpl in Hkey end;
      repeat case_match; simplify_eq/=; naive_solver. }
  unfold alg_agrees_with_key. rewrite Hkty.
  assert (alg = EdDsa ∨ alg = Es256 ∨ alg = Rs256) as [->|[->| ->]] by set_solver;
    destruct Hcases as [(-> & Hcrv & ->)|[(-> & Hcrv & ->)|[(-> & Hcrv & ->)|[-> ->]]]]; cbv zeta; rewrite ?Hcrv; done.
Qed.

Lemma ok_or_error_ok {T E} (o : option T) (e : E) x : ok_or_error o e = Ok x ↔ o = Some x.
Proof. destruct o; simpl; naive_solver. Qed.

Lemma no_private_member (jwk : Jwk) :
  existsb (λ member, bool_decide (is_Some (jwk_get jwk member))) PRIVATE_JWK_MEMBERS = false ↔
  ∀ member, member ∈ PRIVATE_JWK_MEMBERS → member ∉ (jwk_members jwk).*1.
Proof.
  rewrite <-not_true_iff_false, existsb_exists. unfold jwk_get. split.
  - intros Hno member Hin Hm. apply Hno. exists member. split; [by apply list_elem_of_In|]. by apply contains_key_true.
  - intros Hno (member & Hin%list_elem_of_In & Hm). apply (Hno member Hin). by apply contains_key_true.
Qed.

Lemma as_object_bind (m : Map) name object : map_get m name ≫= as_object = Some object ↔ map_get m name = Some (VObject object).
Proof. destruct (map_get m name) as [[]|]; simpl; naive_solver. Qed.

(** The stages up to the signature. *)
Lemma verify_embedded_ok proof v : verify_embedded proof = Ok v ↔ ∃ h p s header_bytes signature,
  split_segments proof = Some (h, p, s) ∧ Z.of_nat (length proof) ≤ max_token_bytes CAPS_DEFAULT ∧
  Z.of_nat (length h) ≤ max_b64_len (max_header_bytes CAPS_DEFAULT) ∧
  Z.of_nat (length p) ≤ max_b64_len (max_payload_bytes CAPS_DEFAULT) ∧
  b64url_decode h = Some header_bytes ∧ b64url_decode p = Some (ve_payload v) ∧ b64url_decode s = Some signature ∧
  parse_unique_object header_bytes = Some (ve_header v) ∧
  signed_by_embedded (ve_header v) (signing_input_bytes h p) signature (ve_jwk v).
Proof.
  unfold verify_embedded, decode_segment. cbv zeta. split.
  - destruct (max_token_bytes _ <? _) eqn:Hlen; [done|].
    destruct (split_segments proof) as [[[h p] s]|] eqn:Hsplit; [|done]. cbn [ok_or_error].
    destruct (max_b64_len _ <? Z.of_nat (length h)) eqn:Hh; [done|].
    destruct (max_b64_len _ <? Z.of_nat (length p)) eqn:Hp; [done|].
    destruct (b64url_decode h) as [hb|] eqn:Hhb; [|done]. cbn [ok_or_error].
    destruct (parse_unique_object hb) as [header|] eqn:Hheader; [|done]. cbn [ok_or_error].
    destruct (map_get header "jwk" ≫= as_object) as [object|] eqn:Hobj; [|done]. cbn [ok_or_error].
    destruct (existsb _ _) eqn:Hpriv; [done|].
    destruct (proof_algorithm _) as [alg|] eqn:Halg; [|done]. destruct (alg_agrees_with_key _ _) eqn:Hagree; [|done]. cbn [negb].
    destruct (trusted_key_from_jwk _) as [key|] eqn:Hkey; [|done]. cbn [ok_or_error].
    destruct (b64url_decode s) as [sb|] eqn:Hsb; [|done]. cbn [ok_or_error].
    destruct (b64url_decode p) as [pb|] eqn:Hpb; [|done]. cbn [ok_or_error].
    destruct (verify_signature _ _ _ _) eqn:Hsig; [|done]. intros [= <-]. exists h, p, s, hb, sb. simpl.
    apply proof_algorithm_ok in Halg as [Hin Halg]. apply (agreement_is_family _ _ _ Hin Hkey) in Hagree.
    pose proof (proj1 (no_private_member (jwk_from_object object)) Hpriv) as Hpub. apply as_object_bind in Hobj.
    apply Z.ltb_ge in Hlen, Hh, Hp. do 8 (split; [done|]). by exists alg, key.
  - intros (h & p & s & hb & sb & -> & Hlen & Hh & Hp & Hhb & Hpb & Hsb & Hheader & alg & key & Hobj & Hpriv & Hin & Halg & Hkey & Hfam & Hsig).
    apply Z.ltb_ge in Hlen, Hh, Hp. cbn [ok_or_error]. rewrite Hlen, Hh, Hp, Hhb. cbn [ok_or_error]. rewrite Hheader.
    cbn [ok_or_error]. rewrite (proj2 (as_object_bind _ _ _) Hobj). cbn [ok_or_error].
    replace (jwk_from_object (jwk_members (ve_jwk v))) with (ve_jwk v) by (by destruct v as [[]]).
    rewrite (proj2 (no_private_member _) Hpriv), (proj2 (proof_algorithm_ok _ alg)) by done.
    rewrite (proj2 (agreement_is_family _ _ _ Hin Hkey) Hfam), Hkey, Hsb, Hpb. cbn [ok_or_error negb]. rewrite Hsig.
    by destruct v.
Qed.

Lemma expectation_met (o : option string) claims name :
  match o with Some x => negb (bool_decide (str_claim claims name = Some x)) | None => false end = false ↔
  ∀ x, o = Some x → map_get claims name = Some (VString x).
Proof.
  destruct o as [x|]; [|naive_solver]. rewrite negb_false_iff, bool_decide_eq_true, str_claim_Some. naive_solver.
Qed.

Lemma jti_length jti : bool_decide (jti = "") || (MAX_JTI_LEN <? String.length jti)%nat = false ↔
  (0 < String.length jti ≤ MAX_JTI_LEN)%nat.
Proof.
  rewrite orb_false_iff, bool_decide_eq_false, Nat.ltb_ge. destruct jti; simpl; naive_solver lia.
Qed.

(** The stages after the signature. *)
Lemma validate_claims_ok v expected now jkt iat_secs jti claims :
  validate_claims v expected now = Ok (jkt, iat_secs, jti, claims) ↔
  map_get (ve_header v) "typ" = Some (VString DPOP_TYP) ∧ jwk_thumbprint (ve_jwk v) = Ok jkt ∧
  parse_unique_object (ve_payload v) = Some claims ∧
  map_get claims "htm" = Some (VString (exp_htm expected)) ∧ map_get claims "htu" = Some (VString (exp_htu expected)) ∧
  map_get claims "iat" ≫= value_as_u64 = Some iat_secs ∧ fresh expected now iat_secs ∧
  map_get claims "jti" = Some (VString jti) ∧ (0 < String.length jti ≤ MAX_JTI_LEN)%nat ∧
  (∀ ath, exp_ath expected = Some ath → map_get claims "ath" = Some (VString ath)) ∧
  (∀ nonce, exp_nonce expected = Some nonce → map_get claims "nonce" = Some (VString nonce)).
Proof.
  unfold validate_claims. rewrite <-!expectation_met. setoid_rewrite <-str_claim_Some.
  destruct (str_claim (ve_header v) "typ") as [typ|]; cbn [ok_or_error]; [|naive_solver].
  case_bool_decide as Htyp; cbn [negb]; [|naive_solver]. subst typ.
  destruct (jwk_thumbprint (ve_jwk v)) as [t|]; [|naive_solver].
  destruct (parse_unique_object (ve_payload v)) as [c|]; cbn [ok_or_error]; [|naive_solver].
  case_bool_decide as Hhtm; cbn [negb]; [|naive_solver]. case_bool_decide as Hhtu; cbn [negb]; [|naive_solver].
  destruct (map_get c "iat" ≫= value_as_u64) as [iat|] eqn:Hiat; cbn [ok_or_error]; [|naive_solver].
  destruct (check_iat_window _ _ _ _) as [[]|e] eqn:Hw.
  - apply check_iat_window_ok in Hw.
    destruct (str_claim c "jti") as [j|] eqn:Hj; cbn [ok_or_error]; [|naive_solver].
    destruct (_ || _) eqn:Hl.
    { split; [done|]. intros (_ & _ & [= <-] & _ & _ & _ & _ & Hjti & Hlen & _).
      rewrite Hj in Hjti. injection Hjti as <-. apply jti_length in Hlen. congruence. }
    apply jti_length in Hl. destruct (match exp_ath expected with Some _ => _ | None => _ end) eqn:Ha.
    { split; [done|]. intros (_ & _ & [= <-] & _ & _ & _ & _ & _ & _ & Ha' & _). congruence. }
    destruct (match exp_nonce expected with Some _ => _ | None => _ end) eqn:Hn.
    { split; [done|]. intros (_ & _ & [= <-] & _ & _ & _ & _ & _ & _ & _ & Hn'). congruence. }
    split; [intros [= <- <- <- <-]; by rewrite Ha, Hn|]. intros (_ & [= <-] & [= <-] & _ & _ & Hiat' & _ & Hjti & _). congruence.
  - split; [done|]. intros (_ & _ & [= <-] & _ & _ & Hiat' & Hf & _). rewrite Hiat in Hiat'. injection Hiat' as <-.
    apply check_iat_window_ok in Hf. congruence.
Qed.

Lemma validate_proof_ok proof expected now r :
  validate_dpop_proof proof expected now = Returned (Ok r) ↔ proof_ok expected now proof r.
Proof.
  unfold validate_dpop_proof. split.
  - destruct (verify_embedded proof) as [v|] eqn:Hv; [|done].
    destruct (validate_claims v expected now) as [[[[jkt iat] jti] claims]|] eqn:Hc; [|done].
    destruct (time_checked_add _ _) as [t|] eqn:Ht; [|done]. intros [= <-].
    apply verify_embedded_ok in Hv as (h & p & s & hb & sb & Hsplit & Hlen & Hh & Hp & Hhb & Hpb & Hsb & Hheader & Hsigned).
    apply validate_claims_ok in Hc as (Htyp & Hjkt & Hclaims & Hhtm & Hhtu & Hiat & Hfresh & Hjti & Hjl & Hath & Hnonce).
    apply split_segments_spec in Hsplit as (Htoken & Hne & Hdots).
    apply parse_unique_object_spec in Hheader as [Hhe Hhn]. apply parse_unique_object_spec in Hclaims as [Hce Hcn].
    by eapply (proof_ok_intro _ _ _ _ h p s hb (ve_payload v) sb (ve_header v) claims (ve_jwk v) iat).
  - intros [h p s hb pb sb header claims jwk iat Htoken Hne Hdots Hlen Hh Hp Hhb Hpb Hsb Hhe Hhn Hce Hcn Hsigned Htyp Hhtm Hhtu
      Hiat Hfresh Hjti Hjl Hath Hnonce Hjkt Ht Hpn].
    rewrite (proj2 (verify_embedded_ok proof {| ve_jwk := jwk; ve_header := header; ve_payload := pb |})).
    2:{ exists h, p, s, hb, sb. split; [by apply split_segments_spec|]. split_and!; try done. by apply parse_unique_object_spec. }
    rewrite (proj2 (validate_claims_ok _ expected now (pr_jkt r) iat (pr_jti r) claims)).
    2:{ split_and!; try done; by apply parse_unique_object_spec || naive_solver. }
    rewrite Ht, <-Hpn. by destruct r.
Qed.

(** What a proof says does not depend on when and where it is presented. *)
Lemma proof_determines expected expected' now now' proof r r' :
  proof_ok expected now proof r → proof_ok expected' now' proof r' →
  pr_jkt r = pr_jkt r' ∧ pr_jti r = pr_jti r' ∧ ∃ iat_secs, fresh expected now iat_secs ∧ fresh expected' now' iat_secs.
Proof.
  intros [h p s hb pb sb header claims jwk iat Ht Hn Hd _ _ _ Hh Hp Hs Hhe _ Hce _ Hsigned _ _ _ Hiat Hf Hj _ _ _ Hjkt _ _]
    [h' p' s' hb' pb' sb' header' claims' jwk' iat' Ht' Hn' Hd' _ _ _ Hh' Hp' Hs' Hhe' _ Hce' _ Hsigned' _ _ _ Hiat' Hf' Hj' _ _ _ Hjkt' _ _].
  assert (split_segments proof = Some (h, p, s)) as Hseg by by apply split_segments_spec.
  assert (split_segments proof = Some (h', p', s')) as Hseg' by by apply split_segments_spec.
  rewrite Hseg in Hseg'. injection Hseg' as <- <- <-. assert (hb' = hb) as -> by congruence. assert (pb' = pb) as -> by congruence.
  assert (header' = header) as -> by congruence. assert (claims' = claims) as -> by congruence.
  assert (iat' = iat) as -> by congruence.
  destruct Hsigned as (_ & _ & Hw & _), Hsigned' as (_ & _ & Hw' & _).
  assert (jwk' = jwk) as -> by (destruct jwk, jwk'; simpl in *; congruence).
  split; [congruence|]. split; [congruence|]. by exists iat.
Qed.

(** ** Theorems *)

(** C12 (equivalence): proof validation accepts exactly the proofs its specification allows.  A proof is three
    non-empty segments within the caps; its header has distinct members, the media type
    [dpop+jwt] and a public key that carries no private member, is read as a key of the family
    of the named algorithm (one of EdDSA, ES256 and RS256) and verifies the signature over
    the first two segments; its claims have distinct names, name the method and the URI of
    the request and the access token and nonce where they are expected, were issued within
    the window around the present second, and carry an identifier of at most 256 bytes.
    The result is the thumbprint of that key, the identifier, the instant and the nonce. *)
Theorem validate_accepts_iff proof expected now r :
  validate_dpop_proof proof expected now = Returned (Ok r) ↔ proof_ok expected now proof r.
Proof. apply validate_proof_ok. Qed.

(** Validation never panics: the instant of an accepted proof is representable whenever the
    present and the skew allowance are. *)
Lemma validation_in_range proof expected now : Z.max 0 now + exp_iat_skew expected ≤ TIME_MAX → 0 ≤ exp_iat_skew expected →
  ∃ r, validate_dpop_proof proof expected now = Returned r.
Proof.
  intros Hnow Hskew. unfold validate_dpop_proof. destruct (verify_embedded proof) as [v|]; [|eauto].
  destruct (validate_claims v expected now) as [[[[jkt iat] jti] claims]|] eqn:Hc; [|eauto].
  apply validate_claims_ok in Hc as (_ & _ & _ & _ & _ & _ & [_ Hiat] & _).
  assert (iat * NANOS_PER_SEC ≤ TIME_MAX) as Ht.
  { unfold u64_saturating_add, epoch_secs, as_secs, clamp, U64_MAX, TIME_MAX, NANOS, NANOS_PER_SEC in *.
    destruct (now <? 0) eqn:Hn; Z.to_euclidean_division_equations; lia. }
  unfold time_checked_add, UNIX_EPOCH. rewrite Z.add_0_l, (proj2 (Z.leb_le _ _) Ht). eauto.
Qed.

(** [Map::insert] and [Map::get]. *)
Lemma map_get_insert (m : Map) key value name :
  map_get (map_insert key value m) name = if bool_decide (name = key) then Some value else map_get m name.
Proof.
  assert (∀ k v (rest : Map), map_get ((k, v) :: rest) name = if bool_decide (k = name) then Some v else map_get rest name) as Hcons.
  { intros k v rest. unfold map_get. simpl. case_bool_decide as Hk.
    - by rewrite decide_True.
    - rewrite decide_False by done. by destruct (list_find _ rest) as [[]|]. }
  induction m as [|[k v] m IH]; cbn [map_insert].
  { rewrite Hcons. repeat case_bool_decide; subst; done. }
  destruct (bool_decide_reflect (k = key)) as [Hk|Hk]; [rewrite !Hcons; repeat case_bool_decide; congruence|].
  destruct (text_leb _ _); rewrite !Hcons, ?IH; repeat case_bool_decide; congruence.
Qed.

(** A confirmation survives its claim: whatever claims it is embedded in, reading them back
    gives the confirmation, and every other claim is as it was. *)
Theorem confirmation_reads_back (c : Confirmation) (claims : VerifiedClaims) raw : vc_raw claims = embed_in_claims c raw →
  from_claims claims = Ok (Some c) ∧ ∀ name, name ≠ "cnf" → vc_get claims name = map_get raw name.
Proof.
  intros Hraw. unfold from_claims, vc_get. rewrite Hraw. unfold embed_in_claims. split.
  - rewrite map_get_insert, bool_decide_eq_true_2 by done. by destruct c.
  - intros name Hname. by rewrite map_get_insert, bool_decide_eq_false_2.
Qed.
End Proofs.
