(* ===== verification/SenderConstraint.v ===== *)
(** * Sender constraints of the token endpoint and of protected resources

    crates/ironauth-oidc dpop.rs (the replay cache, the nonce store and the request URIs), the
    binding functions of token.rs and challenge.rs, [verify_dpop_presentation] of state.rs, and
    [check_and_record] of repository.rs over migration 0083.  The DPoP headers of a request are
    the values [get_all] returns, [None] where a value is not text; the clock readings and the
    entropy are arguments, and the two caches behind locks are passed as state.  The theorems: a proof is
    accepted once, at the endpoints that share the replay cache while it drops no entry, and
    at the resources that share the table; a bound token, code or refresh family is never accepted without a
    proof of its key.  The lemmas at the end show the conditions under which a proof is
    accepted twice. *)

From S2P Require Import Prelude Machine Bytes Text Json SigningPolicy Rotation JosePolicy JoseHeader JoseClaims JoseVerify Authn Totp Ids Envelope FactorStore SigningKeys Mint Dpop.

Local Open Scope Z_scope.

(** ** Constants *)

Definition DPOP_HTM_GET : string := "GET".
Definition DPOP_HTM_POST : string := "POST".
Definition BEARER_TOKEN_TYPE : string := "Bearer".
Definition DPOP_TOKEN_TYPE : string := "DPoP".

Definition token_type_for_dpop (dpop_bound : bool) : string := if dpop_bound then DPOP_TOKEN_TYPE else BEARER_TOKEN_TYPE.

Definition DPOP_IAT_LEEWAY : Z := 60 * NANOS_PER_SEC.
Definition DPOP_IAT_SKEW : Z := 5 * NANOS_PER_SEC.
Definition DPOP_REPLAY_TTL : Z := (as_secs DPOP_IAT_LEEWAY + as_secs DPOP_IAT_SKEW + 1) * NANOS_PER_SEC.
Definition DPOP_REPLAY_CAP : nat := 4096.
Definition DPOP_NONCE_TTL : Z := 300 * NANOS_PER_SEC.
Definition DPOP_NONCE_CAP : nat := 4096.

(** ** The replay cache *)

Record DpopReplayCache : Type := mkReplay { rc_entries : gmap (string * string) Z; rc_ttl : Z; rc_cap : nat }.

Definition DpopReplayCache_new : DpopReplayCache := mkReplay ∅ DPOP_REPLAY_TTL DPOP_REPLAY_CAP.

(** [now.duration_since(earlier)]: an error when the clock went back. *)
Definition duration_since (now earlier : Z) : option Z := if earlier <=? now then Some (now - earlier) else None.

(** [is_ok_and(|age| age < ttl)]. *)
Definition younger_than (ttl : Z) (age : option Z) : bool := match age with Some age => age <? ttl | None => false end.

Definition replay_is_fresh (cache : DpopReplayCache) (recorded now : Z) : bool := younger_than (rc_ttl cache) (duration_since now recorded).

Definition check_and_record (cache : DpopReplayCache) (jkt jti : string) (now : Z) : bool * DpopReplayCache :=
  let key := (jkt, jti) in
  let record := λ entries, (true, mkReplay (<[key := now]> entries) (rc_ttl cache) (rc_cap cache)) in
  match rc_entries cache !! key with
  | Some recorded => if replay_is_fresh cache recorded now then (false, cache) else record (rc_entries cache)
  | None => if (rc_cap cache <=? size (rc_entries cache))%nat then record ∅ else record (rc_entries cache)
  end.

(** ** Nonces *)

Record DpopNonceStore : Type := mkNonces { ns_issued : gmap string Z; ns_ttl : Z; ns_cap : nat }.

Definition DpopNonceStore_new : DpopNonceStore := mkNonces ∅ DPOP_NONCE_TTL DPOP_NONCE_CAP.

Section Nonces.
Context `{!JoseEncoder}.

(** [entropy] is the 32 bytes the seam fills in. *)
Definition nonce_issue (store : DpopNonceStore) (entropy : bytes) (now : Z) : string * DpopNonceStore :=
  let nonce := of_text (b64url_encode entropy) in
  let kept :=
    if (ns_cap store <=? size (ns_issued store))%nat && negb (bool_decide (is_Some (ns_issued store !! nonce)))
    then ∅ else ns_issued store in
  (nonce, mkNonces (<[nonce := now]> kept) (ns_ttl store) (ns_cap store)).

Definition is_acceptable (store : DpopNonceStore) (nonce : string) (now : Z) : bool :=
  match ns_issued store !! nonce with
  | Some issued => younger_than (ns_ttl store) (duration_since now issued)
  | None => false
  end.
End Nonces.

(** ** Requests *)

Inductive PresentedScheme : Set := SchemeBearer | SchemeDpop.

Inductive DpopPresentationFailure : Type := Rejected | NeedsNonce (nonce : string).

(** The errors of the token endpoint that concern proofs. *)
Inductive DpopTokenError : Type := InvalidDpopProof | UseDpopNonce (nonce : string).

(** The two refusals of the challenge endpoint. *)
Inductive ChallengeRefusal : Set := invalid_dpop_proof | invalid_auth_session.

Inductive ClientAuthMethod : Set :=
| AuthBasic | AuthPost | AuthPrivateKeyJwt | AuthClientSecretJwt | AuthNone | AuthSelfSignedTls | AuthTls | AuthAttestJwt.

Record AuthenticatedClient : Type := { ac_auth_method : ClientAuthMethod; ac_allow_bearer_tokens : bool }.

#[export] Instance ClientAuthMethod_eq_dec : EqDecision ClientAuthMethod.
Proof. solve_decision. Defined.

Definition sole_dpop_proof (headers : list (option text)) : Result (option text) () :=
  match headers with
  | [] => Ok None
  | [Some proof] => Ok (Some proof)
  | _ => Err ()
  end.

(** The configuration the functions read. *)
Record DpopConfig : Type := { cfg_issuer_base : text; cfg_require_dpop_nonce : bool }.

(** What one instance keeps. *)
Record DpopInstance : Type := mkInstance { in_replay : DpopReplayCache; in_nonces : DpopNonceStore }.

Definition with_replay (i : DpopInstance) (cache : DpopReplayCache) : DpopInstance := mkInstance cache (in_nonces i).

(** ** The replay table *)

(** The rows by primary key; a row is its [expires_at] in microseconds. *)
Abbreviation replay_table := (gmap (StoreScope * string * string) Z) (only parsing).

(** Microseconds since the epoch, truncated towards it and saturated. *)
Definition store_epoch_micros (at_ : Z) : Z :=
  if 0 <=? at_ then (if at_ / 1000 <=? I64_MAX then at_ / 1000 else I64_MAX)
  else (if - at_ / 1000 <=? I64_MAX then - (- at_ / 1000) else I64_MIN).

(** The transaction of [DpopProofReplayRepo::check_and_record]: the prune of the scope and the
    guarded insert. *)
Definition replay_check_and_record (scope : StoreScope) (jkt jti : string) (expires_at_micros store_now : Z) (t : replay_table)
    : bool * replay_table :=
  let now_micros := store_epoch_micros store_now in
  let kept := filter (λ row : (StoreScope * string * string) * Z, ¬ (row.1.1.1 = scope ∧ row.2 ≤ now_micros)) t in
  if bool_decide (is_Some (kept !! (scope, jkt, jti))) then (false, kept)
  else (true, <[(scope, jkt, jti) := expires_at_micros]> kept).

(** The call with the faults its caller can see. *)
Definition run_replay (fault : Fault) (scope : StoreScope) (jkt jti : string) (expires_at_micros store_now : Z) (t : replay_table)
    : Result bool StoreError * replay_table :=
  let '(inserted, t') := replay_check_and_record scope jkt jti expires_at_micros store_now t in
  match fault with
  | NoFault => (Ok inserted, t')
  | RolledBack e => (Err e, t)
  | LostAck e => (Err e, t')
  end.

Section Endpoints.
Context `{Base64Url}.
Context `{JsonReader} `{!Primitives} `{!JsonWriter} `{!JoseEncoder} `{!KeyPairs}.

Definition issuer_for (cfg : DpopConfig) (scope : StoreScope) : text :=
  trim_end_char "/"%char (cfg_issuer_base cfg) ++ lit "/t/" ++ LevelId_to_string TENANT_PREFIX (sc_tenant scope) ++
  lit "/e/" ++ LevelId_to_string ENVIRONMENT_PREFIX (sc_environment scope).

Definition normalized_htu_for_token_endpoint (cfg : DpopConfig) : text :=
  trim_end_char "/"%char (cfg_issuer_base cfg) ++ lit "/token".
Definition normalized_htu_for_userinfo (cfg : DpopConfig) : text :=
  trim_end_char "/"%char (cfg_issuer_base cfg) ++ lit "/userinfo".
Definition normalized_htu_for_agent_vault (cfg : DpopConfig) : text :=
  trim_end_char "/"%char (cfg_issuer_base cfg) ++ lit "/agent/vault/exchange".
Definition normalized_htu_for_challenge (cfg : DpopConfig) (scope : StoreScope) : text :=
  issuer_for cfg scope ++ lit "/authorize-challenge".

(** The expectations every endpoint shares: the window; no nonce. *)
Definition expectations (htm : string) (htu : text) (ath : option string) : DpopExpectations :=
  {| exp_htm := htm; exp_htu := of_text htu; exp_iat_leeway := DPOP_IAT_LEEWAY; exp_iat_skew := DPOP_IAT_SKEW;
     exp_ath := ath; exp_nonce := None |}.

(** The nonce requirement: a nonce to challenge with, and the store that remembers it. *)
Definition nonce_challenge (cfg : DpopConfig) (nonces : DpopNonceStore) (proof : DpopProof) (now : Z) (entropy : bytes)
    : option (string * DpopNonceStore) :=
  if cfg_require_dpop_nonce cfg &&
     negb match pr_nonce proof with Some nonce => is_acceptable nonces nonce now | None => false end
  then Some (nonce_issue nonces entropy now) else None.

(** *** The token endpoint *)

Definition resolve_dpop_binding (cfg : DpopConfig) (i : DpopInstance) (headers : list (option text)) (now : Z) (entropy : bytes)
    : Run (Result (option Confirmation) DpopTokenError * DpopInstance) :=
  match headers with
  | [] => Returned (Ok None, i)
  | _ :: _ :: _ => Returned (Err InvalidDpopProof, i)
  | [None] => Returned (Err InvalidDpopProof, i)
  | [Some proof_jws] =>
      match validate_dpop_proof proof_jws (expectations DPOP_HTM_POST (normalized_htu_for_token_endpoint cfg) None) now with
      | Panicked => Panicked
      | OutOfFuel => OutOfFuel
      | Returned (Err _) => Returned (Err InvalidDpopProof, i)
      | Returned (Ok proof) =>
          match nonce_challenge cfg (in_nonces i) proof now entropy with
          | Some (nonce, nonces) => Returned (Err (UseDpopNonce nonce), mkInstance (in_replay i) nonces)
          | None =>
              let '(fresh, cache) := check_and_record (in_replay i) (pr_jkt proof) (pr_jti proof) now in
              Returned (if fresh then Ok (Some (Jkt (pr_jkt proof))) else Err InvalidDpopProof, with_replay i cache)
          end
      end
  end.

Definition enforce_public_client_dpop (client : AuthenticatedClient) (confirmation : option Confirmation)
    : Result () DpopTokenError :=
  if bool_decide (ac_auth_method client ≠ AuthNone) || ac_allow_bearer_tokens client then Ok ()
  else if bool_decide (is_Some confirmation) then Ok () else Err InvalidDpopProof.

Definition enforce_code_dpop_binding (code_jkt presented_jkt : option string) : Result () DpopTokenError :=
  match code_jkt with
  | None => Ok ()
  | Some code_jkt => if bool_decide (presented_jkt = Some code_jkt) then Ok () else Err InvalidDpopProof
  end.

Definition enforce_refresh_dpop (cfg : DpopConfig) (i : DpopInstance) (headers : list (option text)) (family_jkt : option string)
    (now : Z) (entropy : bytes) : Run (Result (option Confirmation) DpopTokenError * DpopInstance) :=
  match family_jkt with
  | None => Returned (Ok None, i)
  | Some expected =>
      match resolve_dpop_binding cfg i headers now entropy with
      | Returned (Ok (Some conf), i') =>
          Returned (if bool_decide (confirmation_value conf ≠ expected) then Err InvalidDpopProof else Ok (Some conf), i')
      | Returned (Ok None, i') => Returned (Err InvalidDpopProof, i')
      | other => other
      end
  end.

(** The three checks of a code exchange, in order: the proof, the client's posture, the binding
    of the code. *)
Definition resolve_code_exchange (cfg : DpopConfig) (i : DpopInstance) (client : AuthenticatedClient) (code_jkt : option string)
    (headers : list (option text)) (now : Z) (entropy : bytes) : Run (Result (option Confirmation) DpopTokenError * DpopInstance) :=
  match resolve_dpop_binding cfg i headers now entropy with
  | Returned (Ok confirmation, i') =>
      Returned (let? _ := enforce_public_client_dpop client confirmation in
                let? _ := enforce_code_dpop_binding code_jkt (confirmation_value <$> confirmation) in Ok confirmation, i')
  | other => other
  end.

(** *** The challenge endpoint *)

Definition validate_challenge_proof (cfg : DpopConfig) (i : DpopInstance) (scope : StoreScope) (proof_jws : text) (now : Z)
    : Run (option string * DpopInstance) :=
  match validate_dpop_proof proof_jws (expectations DPOP_HTM_POST (normalized_htu_for_challenge cfg scope) None) now with
  | Panicked => Panicked
  | OutOfFuel => OutOfFuel
  | Returned (Err _) => Returned (None, i)
  | Returned (Ok proof) =>
      let '(fresh, cache) := check_and_record (in_replay i) (pr_jkt proof) (pr_jti proof) now in
      Returned (if fresh then Some (pr_jkt proof) else None, with_replay i cache)
  end.

Definition resolve_challenge_dpop_binding (cfg : DpopConfig) (i : DpopInstance) (scope : StoreScope) (headers : list (option text))
    (now : Z) : Run (Result (option string) ChallengeRefusal * DpopInstance) :=
  match sole_dpop_proof headers with
  | Err _ => Returned (Err invalid_dpop_proof, i)
  | Ok None => Returned (Ok None, i)
  | Ok (Some proof_jws) =>
      match validate_challenge_proof cfg i scope proof_jws now with
      | Returned (Some jkt, i') => Returned (Ok (Some jkt), i')
      | Returned (None, i') => Returned (Err invalid_dpop_proof, i')
      | Panicked => Panicked
      | OutOfFuel => OutOfFuel
      end
  end.

Definition enforce_challenge_dpop (cfg : DpopConfig) (i : DpopInstance) (scope : StoreScope) (headers : list (option text))
    (bound_jkt : option string) (now : Z) : Run (Result () ChallengeRefusal * DpopInstance) :=
  match bound_jkt with
  | None => Returned (Ok (), i)
  | Some bound_jkt =>
      match sole_dpop_proof headers with
      | Ok (Some proof_jws) =>
          match validate_challenge_proof cfg i scope proof_jws now with
          | Returned (Some presented_jkt, i') =>
              Returned (if bool_decide (presented_jkt ≠ bound_jkt) then Err invalid_auth_session else Ok (), i')
          | Returned (None, i') => Returned (Err invalid_auth_session, i')
          | Panicked => Panicked
          | OutOfFuel => OutOfFuel
          end
      | _ => Returned (Err invalid_auth_session, i)
      end
  end.

(** *** Protected resources *)

(** How a token is presented, and what the environment answers: the two readings of the clock,
    by the handler and by the repository, the fault of the transaction and the entropy. *)
Record Presentation : Type := {
  ps_scope : StoreScope; ps_expected_jkt : option string; ps_scheme : PresentedScheme; ps_proof : option text;
  ps_htm : string; ps_htu : text; ps_token : text; ps_now : Z; ps_store_now : Z; ps_fault : Fault; ps_entropy : bytes }.

Definition verify_dpop_presentation (cfg : DpopConfig) (nonces : DpopNonceStore) (t : replay_table) (p : Presentation)
    : Run (Result () DpopPresentationFailure * DpopNonceStore * replay_table) :=
  match ps_expected_jkt p with
  | None => Returned (match ps_scheme p with SchemeBearer => Ok () | SchemeDpop => Err Rejected end, nonces, t)
  | Some expected_jkt =>
      match ps_scheme p, ps_proof p with
      | SchemeBearer, _ => Returned (Err Rejected, nonces, t)
      | SchemeDpop, None => Returned (Err Rejected, nonces, t)
      | SchemeDpop, Some proof =>
          match validate_dpop_proof proof (expectations (ps_htm p) (ps_htu p) (Some (access_token_hash (ps_token p)))) (ps_now p) with
          | Panicked => Panicked
          | OutOfFuel => OutOfFuel
          | Returned (Err _) => Returned (Err Rejected, nonces, t)
          | Returned (Ok validated) =>
              if bool_decide (pr_jkt validated ≠ expected_jkt) then Returned (Err Rejected, nonces, t)
              else match nonce_challenge cfg nonces validated (ps_now p) (ps_entropy p) with
              | Some (nonce, nonces') => Returned (Err (NeedsNonce nonce), nonces', t)
              | None =>
                  match time_checked_add (ps_now p) DPOP_REPLAY_TTL with
                  | None => Panicked
                  | Some expires_at =>
                      let '(answer, t') := run_replay (ps_fault p) (ps_scope p) (pr_jkt validated) (pr_jti validated)
                                             (store_epoch_micros expires_at) (ps_store_now p) t in
                      Returned (match answer with
                                | Ok true => Ok ()
                                | Ok false => Err Rejected
                                | Err _ => Err Rejected
                                end, nonces, t')
                  end
              end
          end
      end
  end.
End Endpoints.

(** ** The window and the caches *)

(** The window every endpoint uses. *)
Definition standard (expected : DpopExpectations) : Prop :=
  exp_iat_leeway expected = DPOP_IAT_LEEWAY ∧ exp_iat_skew expected = DPOP_IAT_SKEW.

(** Between two instants at which a proof is fresh there is less than the lifetime of a cache
    entry, even to the end of the second of the later one. *)
Lemma window_in_ttl expected expected' now now' iat_secs : standard expected → standard expected' → 0 ≤ now →
  fresh expected now iat_secs → fresh expected' now' iat_secs → (epoch_secs now' + 1) * NANOS_PER_SEC ≤ now + DPOP_REPLAY_TTL.
Proof.
  intros [_ Hs] [Hl _] Hnow [_ Hf] [Hf' _]. rewrite Hs in Hf. rewrite Hl in Hf'.
  change (as_secs DPOP_IAT_SKEW) with 5 in Hf. change (as_secs DPOP_IAT_LEEWAY) with 60 in Hf'.
  change DPOP_REPLAY_TTL with (66 * NANOS_PER_SEC). unfold u64_saturating_add, clamp, U64_MAX, epoch_secs, as_secs, NANOS_PER_SEC in *.
  destruct (now <? 0) eqn:?, (now' <? 0) eqn:?; Z.to_euclidean_division_equations; lia.
Qed.

Lemma epoch_secs_after now : now < (epoch_secs now + 1) * NANOS_PER_SEC.
Proof. unfold epoch_secs, as_secs, NANOS_PER_SEC. destruct (now <? 0) eqn:?; Z.to_euclidean_division_equations; lia. Qed.

Lemma stamp_keeps (entries : gmap (string * string) Z) key now k recorded : entries !! k = Some recorded → recorded ≤ now →
  ∃ later, <[key := now]> entries !! k = Some later ∧ recorded ≤ later ≤ now.
Proof.
  intros Hk Hle. destruct (decide (k = key)) as [->|Hne].
  - exists now. rewrite lookup_insert_eq. split; [done|lia].
  - exists recorded. rewrite lookup_insert_ne by done. split; [done|lia].
Qed.

(** What recording does to a cache that is not full. *)
(** The new cache has every entry the old one had: it was not flushed. *)
Definition keeps_entries (cache cache' : DpopReplayCache) : bool :=
  bool_decide (dom (rc_entries cache) ⊆ dom (rc_entries cache')).

Lemma check_and_record_spec cache jkt jti now ok cache' : keeps_entries cache cache' = true →
  check_and_record cache jkt jti now = (ok, cache') →
  rc_ttl cache' = rc_ttl cache ∧
  (∀ key recorded, rc_entries cache !! key = Some recorded → recorded ≤ now →
    ∃ later, rc_entries cache' !! key = Some later ∧ recorded ≤ later ≤ now) ∧
  (ok = true → rc_entries cache' !! (jkt, jti) = Some now ∧
    ∀ recorded, rc_entries cache !! (jkt, jti) = Some recorded → recorded ≤ now → rc_ttl cache ≤ now - recorded).
Proof.
  intros Hkeep%bool_decide_eq_true. unfold check_and_record.
  destruct (rc_entries cache !! (jkt, jti)) as [r|] eqn:Hr.
  - unfold replay_is_fresh, younger_than, duration_since.
    destruct (match (if r <=? now then _ else _) with Some _ => _ | None => _ end) eqn:Hf; intros [= <- <-]; simpl;
      (split; [done|]).
    + split; [|done]. intros key s Hs Hsn. exists s. split; [done|lia].
    + split; [intros; by apply stamp_keeps|].
      intros _. rewrite lookup_insert_eq. split; [done|]. intros s [= <-] Hs.
      rewrite (proj2 (Z.leb_le _ _) Hs) in Hf. lia.
  - destruct (Nat.leb_spec (rc_cap cache) (size (rc_entries cache))); intros [= <- <-]; simpl in *;
      (split; [done|]); (split; [|intros _; rewrite lookup_insert_eq; split; [done|]; by intros ? [=]]).
    + intros key s Hs _. apply elem_of_dom_2 in Hs as Hin. apply Hkeep in Hin.
      rewrite dom_insert in Hin. assert (key = (jkt, jti)) as -> by set_solver. congruence.
    + intros; by apply stamp_keeps.
Qed.

(** The cache grows by at most one entry, and is not flushed below its capacity. *)
Lemma check_and_record_grows cache jkt jti now ok cache' : (size (rc_entries cache) < rc_cap cache)%nat →
  check_and_record cache jkt jti now = (ok, cache') →
  rc_cap cache' = rc_cap cache ∧ (size (rc_entries cache') ≤ S (size (rc_entries cache)))%nat ∧
  keeps_entries cache cache' = true.
Proof.
  intros Hsize Hc. unfold keeps_entries. rewrite bool_decide_eq_true. revert Hc.
  unfold check_and_record. destruct (rc_entries cache !! (jkt, jti)) as [r|] eqn:Hr.
  - destruct (replay_is_fresh _ _ _); intros [= <- <-]; simpl; [split_and!; [done|lia|done]|].
    rewrite map_size_insert_Some, dom_insert by eauto. split_and!; [done|lia|set_solver].
  - destruct (Nat.leb_spec (rc_cap cache) (size (rc_entries cache))); [lia|]. intros [= <- <-]; simpl.
    rewrite map_size_insert_None, dom_insert by done. split_and!; [done|lia|set_solver].
Qed.

(** ** Calls on one instance *)

(** The calls that consult the replay cache. *)
Inductive DpopCall : Type :=
| CallCode (client : AuthenticatedClient) (code_jkt : option string)
| CallRefresh (family_jkt : option string)
| CallChallenge (scope : StoreScope)
| CallResume (scope : StoreScope) (bound_jkt : option string).

(** A call with its request, its reading of the clock, its entropy and the nonces it sees. *)
Record CallEvent : Type := {
  ev_call : DpopCall; ev_headers : list (option text); ev_now : Z; ev_entropy : bytes; ev_nonces : DpopNonceStore }.

Section Runs.
Context `{Base64Url}.
Context `{JsonReader} `{!Primitives} `{!JsonWriter} `{!JoseEncoder} `{!KeyPairs}.

(** The proof of a request with one header. *)
Definition sole_header (headers : list (option text)) : option text := match headers with [Some proof] => Some proof | _ => None end.

(** The proof a call accepted, if it accepted one, and the cache it leaves. *)
Definition run_call (cfg : DpopConfig) (cache : DpopReplayCache) (ev : CallEvent) : Run (option text * DpopReplayCache) :=
  let i := mkInstance cache (ev_nonces ev) in
  let accepted := λ ok : bool, if ok then sole_header (ev_headers ev) else None in
  let confirmed := λ r : Run (Result (option Confirmation) DpopTokenError * DpopInstance),
    match r with
    | Returned (answer, i') => Returned (accepted match answer with Ok (Some _) => true | _ => false end, in_replay i')
    | Panicked => Panicked
    | OutOfFuel => OutOfFuel
    end in
  match ev_call ev with
  | CallCode client code_jkt => confirmed (resolve_code_exchange cfg i client code_jkt (ev_headers ev) (ev_now ev) (ev_entropy ev))
  | CallRefresh family_jkt => confirmed (enforce_refresh_dpop cfg i (ev_headers ev) family_jkt (ev_now ev) (ev_entropy ev))
  | CallChallenge scope =>
      match resolve_challenge_dpop_binding cfg i scope (ev_headers ev) (ev_now ev) with
      | Returned (answer, i') => Returned (accepted match answer with Ok (Some _) => true | _ => false end, in_replay i')
      | Panicked => Panicked
      | OutOfFuel => OutOfFuel
      end
  | CallResume scope bound_jkt =>
      match enforce_challenge_dpop cfg i scope (ev_headers ev) bound_jkt (ev_now ev) with
      | Returned (answer, i') =>
          Returned (accepted match answer, bound_jkt with Ok _, Some _ => true | _, _ => false end, in_replay i')
      | Panicked => Panicked
      | OutOfFuel => OutOfFuel
      end
  end.

(** Calls in the order in which they take the lock of the cache. *)
Fixpoint run_calls (cfg : DpopConfig) (cache : DpopReplayCache) (evs : list CallEvent) : Run (list (option text) * DpopReplayCache) :=
  match evs with
  | [] => Returned ([], cache)
  | ev :: rest =>
      match run_call cfg cache ev with
      | Returned (out, cache') =>
          match run_calls cfg cache' rest with
          | Returned (outs, final) => Returned (out :: outs, final)
          | Panicked => Panicked
          | OutOfFuel => OutOfFuel
          end
      | Panicked => Panicked
      | OutOfFuel => OutOfFuel
      end
  end.

(** No call of the run flushes the cache. *)
Fixpoint unflushed (cfg : DpopConfig) (cache : DpopReplayCache) (evs : list CallEvent) : bool :=
  match evs with
  | [] => true
  | ev :: rest =>
      match run_call cfg cache ev with
      | Returned (_, cache') => keeps_entries cache cache' && unflushed cfg cache' rest
      | _ => true
      end
  end.

(** A call leaves the cache alone, or records a valid proof and accepts it only when it was
    recorded. *)
Definition call_effect (now : Z) (cache : DpopReplayCache) (out : option text) (cache' : DpopReplayCache) : Prop :=
  cache' = cache ∧ out = None ∨
  ∃ expected proof r ok, standard expected ∧ proof_ok expected now proof r ∧
    check_and_record cache (pr_jkt r) (pr_jti r) now = (ok, cache') ∧ (out = None ∨ out = Some proof ∧ ok = true).

(** Resolving a binding, as an effect. *)
Lemma resolve_binding_effect cfg i headers now entropy answer i' : resolve_dpop_binding cfg i headers now entropy = Returned (answer, i') →
  in_replay i' = in_replay i ∧ (∀ conf, answer ≠ Ok (Some conf)) ∨
  ∃ proof r ok, headers = [Some proof] ∧
    proof_ok (expectations DPOP_HTM_POST (normalized_htu_for_token_endpoint cfg) None) now proof r ∧
    check_and_record (in_replay i) (pr_jkt r) (pr_jti r) now = (ok, in_replay i') ∧
    (∀ conf, answer = Ok (Some conf) → ok = true ∧ conf = Jkt (pr_jkt r)).
Proof.
  unfold resolve_dpop_binding. destruct headers as [|[proof|] [|]]; try (intros [= <- <-]; by left).
  destruct (validate_dpop_proof proof _ now) as [[r|e]| |] eqn:Hv; try done; [|intros [= <- <-]; by left].
  destruct (nonce_challenge _ _ _ _ _) as [[nonce nonces]|]; [intros [= <- <-]; by left|].
  destruct (check_and_record _ _ _ _) as [ok cache] eqn:Hc. intros [= <- <-]. right. exists proof, r, ok.
  split; [done|]. split; [by apply validate_proof_ok|]. split; [done|]. intros conf. destruct ok; naive_solver.
Qed.

Lemma challenge_proof_effect cfg i scope proof now answer i' : validate_challenge_proof cfg i scope proof now = Returned (answer, i') →
  in_replay i' = in_replay i ∧ answer = None ∨
  ∃ r ok, proof_ok (expectations DPOP_HTM_POST (normalized_htu_for_challenge cfg scope) None) now proof r ∧
    check_and_record (in_replay i) (pr_jkt r) (pr_jti r) now = (ok, in_replay i') ∧
    (∀ jkt, answer = Some jkt → ok = true ∧ jkt = pr_jkt r).
Proof.
  unfold validate_challenge_proof. destruct (validate_dpop_proof proof _ now) as [[r|e]| |] eqn:Hv; try done; [|intros [= <- <-]; by left].
  destruct (check_and_record _ _ _ _) as [ok cache] eqn:Hc. intros [= <- <-]. right. exists r, ok.
  split; [by apply validate_proof_ok|]. split; [done|]. intros jkt. destruct ok; naive_solver.
Qed.

Lemma standard_expectations htm htu ath : standard (expectations htm htu ath).
Proof. done. Qed.

(** Whatever an endpoint does after the binding, it accepts no proof that was not recorded. *)
Lemma confirmed_effect cfg i headers now entropy answer i' (keep : option Confirmation → bool) :
  resolve_dpop_binding cfg i headers now entropy = Returned (answer, i') →
  call_effect now (in_replay i)
    (if match answer with Ok (Some conf) => keep (Some conf) | _ => false end then sole_header headers else None) (in_replay i').
Proof.
  intros [[Hc Hno]|(proof & r & ok & -> & Hok & Hc & Hconf)]%resolve_binding_effect.
  - left. split; [done|]. destruct answer as [[conf|]|e]; [by destruct (Hno conf)|done..].
  - right. exists (expectations DPOP_HTM_POST (normalized_htu_for_token_endpoint cfg) None), proof, r, ok.
    split; [done|]. split; [done|]. split; [done|]. destruct answer as [[conf|]|e]; [|by left..].
    destruct (Hconf conf eq_refl) as [-> ->]. destruct (keep _); auto.
Qed.

Lemma challenged_effect cfg i scope proof now answer i' (keep : string → bool) :
  validate_challenge_proof cfg i scope proof now = Returned (answer, i') →
  call_effect now (in_replay i) (if match answer with Some jkt => keep jkt | None => false end then Some proof else None) (in_replay i').
Proof.
  intros [[Hc ->]|(r & ok & Hok & Hc & Hconf)]%challenge_proof_effect; [by left|].
  right. exists (expectations DPOP_HTM_POST (normalized_htu_for_challenge cfg scope) None), proof, r, ok.
  split; [done|]. split; [done|]. split; [done|]. destruct answer as [jkt|]; [|by left].
  destruct (Hconf jkt eq_refl) as [-> ->]. destruct (keep _); auto.
Qed.

Lemma run_call_effect cfg cache ev out cache' : run_call cfg cache ev = Returned (out, cache') → call_effect (ev_now ev) cache out cache'.
Proof.
  unfold run_call. destruct (ev_call ev) as [client code|family|scope|scope bound].
  - unfold resolve_code_exchange. destruct (resolve_dpop_binding _ _ _ _ _) as [[answer i']| |] eqn:Hr; try done.
    apply (confirmed_effect _ _ _ _ _ _ _ (λ conf, match enforce_public_client_dpop client conf, enforce_code_dpop_binding code
      (confirmation_value <$> conf) with Ok _, Ok _ => true | _, _ => false end)) in Hr. simpl in Hr.
    intros Hout. assert (out = (if match answer with Ok (Some conf) => match enforce_public_client_dpop client (Some conf),
      enforce_code_dpop_binding code (Some (confirmation_value conf)) with Ok _, Ok _ => true | _, _ => false end | _ => false end
      then sole_header (ev_headers ev) else None) ∧ cache' = in_replay i') as [-> ->]; [|done].
    destruct answer as [[conf|]|e]; simpl in Hout; repeat case_match; simplify_eq; done.
  - unfold enforce_refresh_dpop. destruct family as [jkt|]; [|intros [= <- <-]; by left].
    destruct (resolve_dpop_binding _ _ _ _ _) as [[answer i']| |] eqn:Hr; try done.
    apply (confirmed_effect _ _ _ _ _ _ _ (λ conf, match conf with Some conf => bool_decide (confirmation_value conf = jkt) | None => false end)) in Hr.
    simpl in Hr. intros Hout. assert (out = (if match answer with Ok (Some conf) => bool_decide (confirmation_value conf = jkt) | _ => false end
      then sole_header (ev_headers ev) else None) ∧ cache' = in_replay i') as [-> ->]; [|done].
    destruct answer as [[conf|]|e]; simpl in Hout; repeat case_bool_decide; simplify_eq; done.
  - unfold resolve_challenge_dpop_binding. destruct (ev_headers ev) as [|[proof|] [|]] eqn:Hh; simpl; try (intros [= <- <-]; by left).
    destruct (validate_challenge_proof _ _ _ _ _) as [[answer i']| |] eqn:Hr; [|done..].
    apply (challenged_effect _ _ _ _ _ _ _ (λ _, true)) in Hr. by destruct answer as [jkt|]; intros [= <- <-].
  - unfold enforce_challenge_dpop. destruct bound as [bound|]; [|intros [= <- <-]; by left].
    destruct (ev_headers ev) as [|[proof|] [|]] eqn:Hh; simpl; try (intros [= <- <-]; by left).
    destruct (validate_challenge_proof _ _ _ _ _) as [[answer i']| |] eqn:Hr; [|done..].
    apply (challenged_effect _ _ _ _ _ _ _ (λ jkt, bool_decide (jkt = bound))) in Hr.
    destruct answer as [jkt|]; intros [= <- <-]; [|done]. by repeat case_bool_decide.
Qed.

Lemma nodup_new {A} (past : list A) (out : option A) : NoDup past → (∀ x, out = Some x → x ∉ past) → NoDup (past ++ option_list out).
Proof.
  intros Hnd Hfresh. apply NoDup_app. split; [done|]. split; [|destruct out; [apply NoDup_singleton|apply NoDup_nil_2]].
  intros p Hp Hin. destruct out as [q|]; [|by apply not_elem_of_nil in Hin].
  apply list_elem_of_singleton in Hin as ->. by apply (Hfresh q).
Qed.

(** The readings of the clock do not go back, from a given one on. *)
Fixpoint clocks_ascend (clock : Z) (nows : list Z) : Prop :=
  match nows with [] => True | now :: rest => clock ≤ now ∧ clocks_ascend now rest end.

(** The cache remembers the proofs accepted so far. *)
Definition remembers (cache : DpopReplayCache) (clock : Z) (past : list text) : Prop :=
  Forall (λ proof, ∃ expected now r recorded, standard expected ∧ 0 ≤ now ∧ proof_ok expected now proof r ∧
    rc_entries cache !! (pr_jkt r, pr_jti r) = Some recorded ∧ now ≤ recorded ≤ clock) past.

(** One call: what was accepted stays remembered, and a remembered proof is not accepted. *)
Lemma call_remembers cfg cache ev out cache' clock past : rc_ttl cache = DPOP_REPLAY_TTL →
  keeps_entries cache cache' = true → 0 ≤ clock ≤ ev_now ev → remembers cache clock past →
  run_call cfg cache ev = Returned (out, cache') →
  rc_ttl cache' = DPOP_REPLAY_TTL ∧
  remembers cache' (ev_now ev) (past ++ option_list out) ∧ (∀ proof, out = Some proof → proof ∉ past).
Proof.
  intros Httl Hsize Hclock Hpast [[-> ->]|(expected & proof & r & ok & Hstd & Hok & Hc & Hout)]%run_call_effect.
  { split; [done|]. split; [|done]. rewrite app_nil_r. eapply Forall_impl; [exact Hpast|].
    intros proof (e & n & r & rec & ? & ? & ? & ? & ?). exists e, n, r, rec. split_and!; done || lia. }
  destruct (check_and_record_spec _ _ _ _ _ _ Hsize Hc) as (Ht & Hkeep & Hnew).
  split; [congruence|]. split.
  - apply Forall_app. split.
    + eapply Forall_impl; [exact Hpast|]. intros p (e & n & r' & rec & ? & ? & ? & Hrec & ?).
      destruct (Hkeep _ _ Hrec ltac:(lia)) as (later & Hl & ?). exists e, n, r', later. split_and!; done || lia.
    + destruct Hout as [->|[-> ->]]; [constructor|]. apply Forall_singleton. exists expected, (ev_now ev), r, (ev_now ev).
      destruct (Hnew eq_refl) as [Hl _]. split_and!; done || lia.
  - intros p Hp Hin. destruct Hout as [->|[-> ->]]; [done|]. injection Hp as <-.
    destruct (proj1 (Forall_forall _ _) Hpast _ Hin) as (e & n & r' & rec & Hstd' & Hn & Hok' & Hrec & Hle).
    destruct (proof_determines _ _ _ _ _ _ _ Hok' Hok) as (Hjkt & Hjti & iat & Hf & Hf').
    rewrite Hjkt, Hjti in Hrec. destruct (Hnew eq_refl) as [_ Hold]. specialize (Hold rec Hrec ltac:(lia)).
    pose proof (window_in_ttl _ _ _ _ _ Hstd' Hstd Hn Hf Hf'). pose proof (epoch_secs_after (ev_now ev)). lia.
Qed.

Lemma run_calls_remember cfg evs : ∀ cache clock past outs final, rc_ttl cache = DPOP_REPLAY_TTL →
  unflushed cfg cache evs = true → 0 ≤ clock → clocks_ascend clock (ev_now <$> evs) →
  remembers cache clock past → NoDup past → run_calls cfg cache evs = Returned (outs, final) →
  NoDup (past ++ omap id outs).
Proof.
  induction evs as [|ev evs IH]; intros cache clock past outs final Httl Hsize Hclock Hasc Hpast Hnd; simpl.
  { intros [= <- <-]. simpl. by rewrite app_nil_r. }
  simpl in Hsize. destruct (run_call cfg cache ev) as [[out cache']| |] eqn:Hcall; [|done..].
  apply andb_true_iff in Hsize as [Hsize Hrun].
  destruct (run_calls cfg cache' evs) as [[outs' final']| |] eqn:Hrest; [|done..]. intros [= <- <-].
  destruct Hasc as [Hle Hasc].
  destruct (call_remembers cfg cache ev out cache' clock past Httl Hsize ltac:(lia) Hpast Hcall) as (Ht & Hrem & Hfresh).
  pose proof (nodup_new past out Hnd Hfresh) as Hnd'.
  specialize (IH cache' (ev_now ev) (past ++ option_list out) outs' final' Ht Hrun ltac:(lia) Hasc Hrem Hnd' Hrest).
  destruct out as [q|]; simpl; [|by rewrite app_nil_r in IH]. by rewrite <-app_assoc in IH.
Qed.

(** A fresh cache is not flushed by as many calls as it holds entries. *)
Lemma few_calls_unflushed cfg evs : ∀ cache, (size (rc_entries cache) + length evs ≤ rc_cap cache)%nat →
  unflushed cfg cache evs = true.
Proof.
  induction evs as [|ev evs IH]; intros cache Hsize; [done|]. simpl in *.
  destruct (run_call cfg cache ev) as [[out cache']| |] eqn:Hcall; [|done..]. apply andb_true_iff.
  apply run_call_effect in Hcall as [[-> ->]|(expected & proof & r & ok & _ & _ & Hc & _)].
  - split; [by apply bool_decide_eq_true|]. apply IH. lia.
  - destruct (check_and_record_grows cache _ _ _ _ _ ltac:(lia) Hc) as (Hcap & Hs & Hk). split; [done|].
    apply IH. lia.
Qed.

(** Calls return: no instant of a proof overflows. *)
Definition in_range (now : Z) : Prop := Z.max 0 now + DPOP_REPLAY_TTL ≤ TIME_MAX.

Lemma standard_validation_returns proof htm htu ath now : in_range now →
  ∃ r, validate_dpop_proof proof (expectations htm htu ath) now = Returned r.
Proof.
  intros Hnow. apply validation_in_range; [|done]. unfold in_range in Hnow.
  change (exp_iat_skew (expectations htm htu ath)) with (5 * NANOS_PER_SEC). change DPOP_REPLAY_TTL with (66 * NANOS_PER_SEC) in Hnow.
  unfold NANOS_PER_SEC in *. lia.
Qed.

Lemma resolve_returns cfg i headers now entropy : in_range now → ∃ answer i', resolve_dpop_binding cfg i headers now entropy = Returned (answer, i').
Proof.
  intros Hnow. unfold resolve_dpop_binding. destruct headers as [|[proof|] [|]]; eauto.
  destruct (standard_validation_returns proof DPOP_HTM_POST (normalized_htu_for_token_endpoint cfg) None now Hnow) as [[r|e] ->]; [|eauto].
  destruct (nonce_challenge _ _ _ _ _) as [[]|]; [eauto|]. destruct (check_and_record _ _ _ _); eauto.
Qed.

Lemma challenge_returns cfg i scope proof now : in_range now → ∃ answer i', validate_challenge_proof cfg i scope proof now = Returned (answer, i').
Proof.
  intros Hnow. unfold validate_challenge_proof.
  destruct (standard_validation_returns proof DPOP_HTM_POST (normalized_htu_for_challenge cfg scope) None now Hnow) as [[r|e] ->]; [|eauto].
  destruct (check_and_record _ _ _ _); eauto.
Qed.

Lemma run_call_returns cfg cache ev : in_range (ev_now ev) → ∃ out cache', run_call cfg cache ev = Returned (out, cache').
Proof.
  intros Hnow. unfold run_call, resolve_code_exchange, enforce_refresh_dpop, resolve_challenge_dpop_binding, enforce_challenge_dpop.
  set (i := mkInstance _ _). destruct (ev_call ev) as [client code|[jkt|]|scope|scope [jkt|]]; try (by eauto).
  - destruct (resolve_returns cfg i (ev_headers ev) _ (ev_entropy ev) Hnow) as ([conf|e] & i' & ->); eauto.
  - destruct (resolve_returns cfg i (ev_headers ev) _ (ev_entropy ev) Hnow) as ([[conf|]|e] & i' & ->); eauto.
  - destruct (sole_dpop_proof _) as [[proof|]|]; eauto.
    destruct (challenge_returns cfg i scope proof _ Hnow) as ([jkt|] & i' & ->); eauto.
  - destruct (sole_dpop_proof _) as [[proof|]|]; eauto.
    destruct (challenge_returns cfg i scope proof _ Hnow) as ([jkt'|] & i' & ->); eauto.
Qed.

Lemma run_calls_return cfg evs : ∀ cache, Forall (λ ev, in_range (ev_now ev)) evs →
  ∃ outs final, run_calls cfg cache evs = Returned (outs, final) ∧ length outs = length evs.
Proof.
  induction evs as [|ev evs IH]; intros cache Hall; simpl; [by eexists _, _|].
  apply Forall_cons_1 in Hall as [Hev Hall]. destruct (run_call_returns cfg cache ev Hev) as (out & cache' & ->).
  destruct (IH cache' Hall) as (outs & final & -> & Hlen). eexists _, _. split; [done|]. simpl. by rewrite Hlen.
Qed.

(** ** Presentations over the shared table *)

(** A presentation with the nonces its instance sees. *)
Definition present_token (cfg : DpopConfig) (t : replay_table) (ev : DpopNonceStore * Presentation) : Run (option (StoreScope * text) * replay_table) :=
  match verify_dpop_presentation cfg ev.1 t ev.2 with
  | Returned (answer, _, t') =>
      Returned (match answer, ps_expected_jkt ev.2, ps_proof ev.2 with
                | Ok _, Some _, Some proof => Some (ps_scope ev.2, proof)
                | _, _, _ => None
                end, t')
  | Panicked => Panicked
  | OutOfFuel => OutOfFuel
  end.

(** Presentations on any instances, in the order of their transactions. *)
Fixpoint run_presentations (cfg : DpopConfig) (t : replay_table) (evs : list (DpopNonceStore * Presentation))
    : Run (list (option (StoreScope * text)) * replay_table) :=
  match evs with
  | [] => Returned ([], t)
  | ev :: rest =>
      match present_token cfg t ev with
      | Returned (out, t') =>
          match run_presentations cfg t' rest with
          | Returned (outs, final) => Returned (out :: outs, final)
          | Panicked => Panicked
          | OutOfFuel => OutOfFuel
          end
      | Panicked => Panicked
      | OutOfFuel => OutOfFuel
      end
  end.

(** The two readings of the clock of a presentation fall into one second, after the epoch, and
    an expiry is a 64-bit number of microseconds. *)
Definition reads_together (p : Presentation) : Prop :=
  0 ≤ ps_now p ∧ 0 ≤ ps_store_now p ∧ as_secs (ps_now p) = as_secs (ps_store_now p) ∧
  ps_now p + DPOP_REPLAY_TTL ≤ I64_MAX * 1000.

(** What an accepted presentation of a bound token did. *)
Definition presentation_effect (p : Presentation) (t : replay_table) (out : option (StoreScope * text)) (t' : replay_table) : Prop :=
  (t' = t ∨ ∃ jkt jti expires ok, replay_check_and_record (ps_scope p) jkt jti expires (ps_store_now p) t = (ok, t')) ∧ out = None ∨
  ∃ expected proof r, standard expected ∧ proof_ok expected (ps_now p) proof r ∧ out = Some (ps_scope p, proof) ∧
    replay_check_and_record (ps_scope p) (pr_jkt r) (pr_jti r) (store_epoch_micros (ps_now p + DPOP_REPLAY_TTL)) (ps_store_now p) t = (true, t').

Lemma present_effect cfg t ev out t' : present_token cfg t ev = Returned (out, t') → presentation_effect ev.2 t out t'.
Proof.
  destruct ev as [nonces p]. unfold present_token, verify_dpop_presentation. simpl.
  destruct (ps_expected_jkt p) as [jkt|]; [|intros [= <- <-]; left; split; [by left|by destruct (ps_scheme p)]].
  destruct (ps_scheme p), (ps_proof p) as [proof|]; try (intros [= <- <-]; left; split; [by left|done]).
  destruct (validate_dpop_proof proof _ _) as [[r|e]| |] eqn:Hv; try done; [|intros [= <- <-]; left; split; [by left|done]].
  case_bool_decide as Hjkt; [intros [= <- <-]; left; split; [by left|done]|].
  destruct (nonce_challenge _ _ _ _ _) as [[nonce nonces']|]; [intros [= <- <-]; left; split; [by left|done]|].
  unfold time_checked_add. destruct (_ <=? TIME_MAX); [|done]. unfold run_replay.
  destruct (replay_check_and_record _ _ _ _ _ _) as [ok t''] eqn:Hc.
  destruct (ps_fault p), ok; intros [= <- <-]; try (left; split; [by eauto 10|done]). right.
  exists (expectations (ps_htm p) (ps_htu p) (Some (access_token_hash (ps_token p)))), proof, r.
  split; [done|]. split; [by apply validate_proof_ok|]. done.
Qed.

Lemma present_returns cfg t ev : in_range (ps_now ev.2) → ∃ out t', present_token cfg t ev = Returned (out, t').
Proof.
  intros Hnow. destruct ev as [nonces p]. unfold present_token, verify_dpop_presentation. simpl in *.
  destruct (ps_expected_jkt p) as [jkt|]; [|eauto]. destruct (ps_scheme p), (ps_proof p) as [proof|]; eauto.
  destruct (standard_validation_returns proof (ps_htm p) (ps_htu p) (Some (access_token_hash (ps_token p))) _ Hnow) as [[r|e] ->]; [|eauto].
  case_bool_decide; [eauto|]. destruct (nonce_challenge _ _ _ _ _) as [[]|]; [eauto|].
  unfold time_checked_add. rewrite (proj2 (Z.leb_le _ _)) by (unfold in_range in Hnow; lia).
  destruct (run_replay _ _ _ _ _ _ _) as [answer t']. eauto.
Qed.

Lemma epoch_micros_mono a b : a ≤ b → store_epoch_micros a ≤ store_epoch_micros b.
Proof.
  intros Hab. unfold store_epoch_micros, I64_MAX, I64_MIN.
  destruct (0 <=? a) eqn:?, (0 <=? b) eqn:?; repeat case_match; bool_to_prop; Z.to_euclidean_division_equations; lia.
Qed.

Lemma epoch_micros_before b secs until : 0 ≤ b → as_secs b = secs → (secs + 1) * NANOS_PER_SEC ≤ until →
  until ≤ I64_MAX * 1000 → store_epoch_micros b < store_epoch_micros until.
Proof.
  intros Hb <- Hle Hmax. unfold store_epoch_micros, as_secs, NANOS_PER_SEC, I64_MAX in *.
  rewrite (proj2 (Z.leb_le 0 b)), (proj2 (Z.leb_le 0 until)) by (Z.to_euclidean_division_equations; lia).
  repeat case_match; bool_to_prop; Z.to_euclidean_division_equations; lia.
Qed.

(** A transaction drops only expired rows, and inserts only where no live row is. *)
Lemma replay_record_spec (scope : StoreScope) (jkt jti : string) (expires store_now : Z) (t t' : replay_table) (ok : bool) :
  replay_check_and_record scope jkt jti expires store_now t = (ok, t') →
  (∀ key x, t !! key = Some x → t' !! key = Some x ∨ x ≤ store_epoch_micros store_now) ∧
  (ok = true → t' !! (scope, jkt, jti) = Some expires ∧ ∀ x, t !! (scope, jkt, jti) = Some x → x ≤ store_epoch_micros store_now).
Proof.
  unfold replay_check_and_record. cbv zeta.
  set (live := λ row : (StoreScope * string * string) * Z, ¬ (row.1.1.1 = scope ∧ row.2 ≤ store_epoch_micros store_now)).
  assert (∀ key x, t !! key = Some x → filter live t !! key = Some x ∨ x ≤ store_epoch_micros store_now) as Hkept.
  { intros key x Hx. destruct (decide (x ≤ store_epoch_micros store_now)) as [|Hlt]; [by right|]. left.
    apply map_lookup_filter_Some. split; [done|]. unfold live. simpl. tauto. }
  case_bool_decide as Hin; intros [= <- <-]; (split; [|try done]); [exact Hkept| |].
  - intros key x Hx. destruct (decide (key = (scope, jkt, jti))) as [->|Hne].
    + destruct (Hkept _ _ Hx) as [Hk|]; [destruct Hin; eauto|by right].
    + rewrite lookup_insert_ne by done. by apply Hkept.
  - intros _. rewrite lookup_insert_eq. split; [done|]. intros x Hx.
    destruct (Hkept _ _ Hx) as [Hk|]; [destruct Hin; eauto|done].
Qed.

(** The table latches the proofs accepted so far until their rows expire. *)
Definition latched (t : replay_table) (clock : Z) (past : list (StoreScope * text)) : Prop :=
  Forall (λ sp, ∃ expected now r, standard expected ∧ 0 ≤ now ∧ now + DPOP_REPLAY_TTL ≤ I64_MAX * 1000 ∧
    proof_ok expected now sp.2 r ∧
    ((∃ x, t !! (sp.1, pr_jkt r, pr_jti r) = Some x ∧ store_epoch_micros (now + DPOP_REPLAY_TTL) ≤ x) ∨
     store_epoch_micros (now + DPOP_REPLAY_TTL) ≤ store_epoch_micros clock)) past.

Lemma latched_step (scope : StoreScope) (jkt jti : string) (expires store_now : Z) (t t' : replay_table) (ok : bool) clock past : clock ≤ store_now →
  replay_check_and_record scope jkt jti expires store_now t = (ok, t') → latched t clock past → latched t' store_now past.
Proof.
  intros Hclock [Hkeep _]%replay_record_spec Hpast. eapply Forall_impl; [exact Hpast|].
  intros sp (e & n & r & ? & ? & ? & ? & Hrow). exists e, n, r. do 4 (split; [done|]).
  pose proof (epoch_micros_mono clock store_now Hclock).
  destruct Hrow as [(x & Hx & Hle)|Hle]; [|right; lia]. destruct (Hkeep _ _ Hx) as [Hk|Hk]; [left; by exists x|right; lia].
Qed.

Lemma latched_clock t clock clock' past : clock ≤ clock' → latched t clock past → latched t clock' past.
Proof.
  intros Hc Hpast. pose proof (epoch_micros_mono clock clock' Hc). eapply Forall_impl; [exact Hpast|].
  intros sp (e & n & r & ? & ? & ? & ? & [Hrow|Hle]); exists e, n, r; (do 4 (split; [done|])); [by left|right; lia].
Qed.

(** One presentation: what was accepted stays latched, and a latched proof is not accepted. *)
Lemma presentation_latches p t out t' clock past : reads_together p → clock ≤ ps_store_now p → latched t clock past →
  presentation_effect p t out t' → latched t' (ps_store_now p) (past ++ option_list out) ∧ (∀ sp, out = Some sp → sp ∉ past).
Proof.
  intros (Hnow & Hb & Hsec & Hmax) Hclock Hpast
    [[[->|(jkt & jti & x & ok & Hc)] ->]|(expected & proof & r & Hstd & Hok & -> & Hc)].
  - split; [|done]. rewrite app_nil_r. by eapply latched_clock.
  - split; [|done]. rewrite app_nil_r. by eapply latched_step.
  - destruct (replay_record_spec _ _ _ _ _ _ _ _ Hc) as [_ Hnew]. destruct (Hnew eq_refl) as [Hrow Hold]. split.
    + apply Forall_app. split; [by eapply latched_step|]. apply Forall_singleton. exists expected, (ps_now p), r.
      do 4 (split; [done|]). left. eexists. split; [exact Hrow|done].
    + intros sp [= <-] Hin. destruct (proj1 (Forall_forall _ _) Hpast _ Hin) as (e & n & r' & Hstd' & Hn & Hnmax & Hok' & Hrow').
      simpl in Hok', Hrow'. destruct (proof_determines _ _ _ _ _ _ _ Hok' Hok) as (Hjkt & Hjti & iat & Hf & Hf').
      rewrite Hjkt, Hjti in Hrow'.
      assert (store_epoch_micros (n + DPOP_REPLAY_TTL) ≤ store_epoch_micros (ps_store_now p)) as Hle.
      { destruct Hrow' as [(x & Hx & Hle)|Hle]; [pose proof (Hold x Hx); lia|].
        pose proof (epoch_micros_mono clock (ps_store_now p) Hclock). lia. }
      pose proof (window_in_ttl _ _ _ _ _ Hstd' Hstd Hn Hf Hf') as Hw.
      pose proof (epoch_micros_before (ps_store_now p) (epoch_secs (ps_now p)) (n + DPOP_REPLAY_TTL) Hb) as Hlt.
      unfold epoch_secs in Hw, Hlt. rewrite (proj2 (Z.ltb_ge _ _) Hnow) in Hw, Hlt. specialize (Hlt (eq_sym Hsec) Hw Hnmax). lia.
Qed.

Lemma run_presentations_latch cfg evs : ∀ t clock past outs final, Forall (λ ev, reads_together ev.2) evs →
  clocks_ascend clock ((λ ev, ps_store_now ev.2) <$> evs) → latched t clock past → NoDup past →
  run_presentations cfg t evs = Returned (outs, final) → NoDup (past ++ omap id outs).
Proof.
  induction evs as [|ev evs IH]; intros t clock past outs final Hreads Hasc Hpast Hnd; simpl.
  { intros [= <- <-]. simpl. by rewrite app_nil_r. }
  destruct (present_token cfg t ev) as [[out t']| |] eqn:Hcall; [|done..].
  destruct (run_presentations cfg t' evs) as [[outs' final']| |] eqn:Hrest; [|done..]. intros [= <- <-].
  apply Forall_cons_1 in Hreads as [Hread Hreads]. destruct Hasc as [Hle Hasc].
  destruct (presentation_latches _ _ _ _ _ _ Hread Hle Hpast (present_effect _ _ _ _ _ Hcall)) as [Hlatch Hfresh].
  pose proof (nodup_new past out Hnd Hfresh) as Hnd'.
  specialize (IH t' _ (past ++ option_list out) outs' final' Hreads Hasc Hlatch Hnd' Hrest).
  destruct out as [q|]; simpl; [|by rewrite app_nil_r in IH]. by rewrite <-app_assoc in IH.
Qed.

Lemma run_presentations_return cfg evs : ∀ t, Forall (λ ev, in_range (ps_now ev.2)) evs →
  ∃ outs final, run_presentations cfg t evs = Returned (outs, final) ∧ length outs = length evs.
Proof.
  induction evs as [|ev evs IH]; intros t Hall; simpl; [by eexists _, _|].
  apply Forall_cons_1 in Hall as [Hev Hall]. destruct (present_returns cfg t ev Hev) as (out & t' & ->).
  destruct (IH t' Hall) as (outs & final & -> & Hlen). eexists _, _. split; [done|]. simpl. by rewrite Hlen.
Qed.

(** A binding is resolved from a valid proof, or there is no header. *)
Lemma resolve_binding_ok cfg i headers now entropy conf i' : resolve_dpop_binding cfg i headers now entropy = Returned (Ok conf, i') →
  headers = [] ∧ conf = None ∨
  ∃ proof r, headers = [Some proof] ∧ conf = Some (Jkt (pr_jkt r)) ∧
    proof_ok (expectations DPOP_HTM_POST (normalized_htu_for_token_endpoint cfg) None) now proof r.
Proof.
  intros Hr. pose proof Hr as [[_ Hno]|(proof & r & ok & -> & Hok & _ & Hconf)]%resolve_binding_effect.
  - left. destruct conf as [conf|]; [by destruct (Hno conf)|]. split; [|done].
    unfold resolve_dpop_binding in Hr. destruct headers as [|[proof|] [|]]; simplify_eq; [done|].
    repeat case_match; simplify_eq; destruct b; simplify_eq.
  - destruct conf as [conf|]; [|unfold resolve_dpop_binding in Hr; repeat case_match; simplify_eq; destruct b; simplify_eq].
    right. exists proof, r. destruct (Hconf conf eq_refl) as [_ ->]. done.
Qed.

(** ** Theorems *)

(** C13 (safety): a proof is accepted once by the endpoints that share a replay cache.  Whatever code
    exchanges, refreshes, challenges and resumptions an instance serves, in the order in
    which they consult the cache and with any nonces, every call returns, and no two of them accept
    the same proof, as long as their clock readings do not go back in that order, are within the
    range of the clock, and no call flushes the cache.  A fresh cache is not flushed by as many
    calls as it holds entries; a longer run is covered as long as it drops no entry. *)
Theorem proof_accepted_once cfg evs : unflushed cfg DpopReplayCache_new evs = true → clocks_ascend 0 (ev_now <$> evs) →
  Forall (λ ev, in_range (ev_now ev)) evs →
  ∃ outs final, run_calls cfg DpopReplayCache_new evs = Returned (outs, final) ∧ length outs = length evs ∧ NoDup (omap id outs).
Proof.
  intros Hflush Hasc Hrange. destruct (run_calls_return cfg evs DpopReplayCache_new Hrange) as (outs & final & Hrun & Ho).
  exists outs, final. split; [done|]. split; [done|].
  eapply (run_calls_remember cfg evs DpopReplayCache_new 0 [] outs final); try done; [apply Forall_nil_2|apply NoDup_nil_2].
Qed.

(** C14 (safety): a proof is accepted once by all the resources that share the replay table.  Whatever
    presentations any number of instances serve over one database, with any faults of the
    transactions, every presentation returns, and no two of them in one scope accept the
    same proof for a bound token, as long as the clock does not go back from one
    transaction to the next and the two readings of a presentation fall into one second. *)
Theorem presentation_accepted_once (cfg : DpopConfig) (t : replay_table) evs : Forall (λ ev, reads_together ev.2 ∧ in_range (ps_now ev.2)) evs →
  clocks_ascend 0 ((λ ev, ps_store_now ev.2) <$> evs) →
  ∃ outs final, run_presentations cfg t evs = Returned (outs, final) ∧ length outs = length evs ∧ NoDup (omap id outs).
Proof.
  intros [Hreads Hrange]%Forall_and Hasc. destruct (run_presentations_return cfg evs t Hrange) as (outs & final & Hrun & Ho).
  exists outs, final. split; [done|]. split; [done|].
  eapply (run_presentations_latch cfg evs t 0 [] outs final); try done; [apply Forall_nil_2|apply NoDup_nil_2].
Qed.

(** A bound token is accepted only with a proof of its key.  A presentation that is accepted is
    a plain bearer presentation of an unbound token, or a DPoP presentation whose proof is
    valid for the request's method and URI and for that very token, was made with the key the
    token is bound to, and carries a live nonce of the instance where one is required. *)
Theorem bound_token_needs_proof cfg nonces t p nonces' t' : verify_dpop_presentation cfg nonces t p = Returned (Ok (), nonces', t') →
  match ps_expected_jkt p with
  | None => ps_scheme p = SchemeBearer ∧ t' = t
  | Some jkt => ps_scheme p = SchemeDpop ∧ ∃ proof r, ps_proof p = Some proof ∧ pr_jkt r = jkt ∧
      proof_ok (expectations (ps_htm p) (ps_htu p) (Some (access_token_hash (ps_token p)))) (ps_now p) proof r ∧
      (cfg_require_dpop_nonce cfg = true → ∃ nonce, pr_nonce r = Some nonce ∧ is_acceptable nonces nonce (ps_now p) = true)
  end.
Proof.
  unfold verify_dpop_presentation. destruct (ps_expected_jkt p) as [jkt|]; [|by destruct (ps_scheme p); intros [= _ <-]].
  destruct (ps_scheme p), (ps_proof p) as [proof|]; try done.
  destruct (validate_dpop_proof proof _ _) as [[r|e]| |] eqn:Hv; try done. case_bool_decide as Hjkt; [done|].
  destruct (nonce_challenge _ _ _ _ _) as [[]|] eqn:Hn; [done|]. intros _. split; [done|]. exists proof, r.
  split; [done|]. split; [by destruct (decide (pr_jkt r = jkt))|]. split; [by apply validate_proof_ok|]. intros Hreq.
  unfold nonce_challenge in Hn. rewrite Hreq in Hn. destruct (pr_nonce r) as [nonce|]; [|done]. exists nonce. split; [done|].
  by destruct (is_acceptable nonces nonce (ps_now p)).
Qed.

(** C15 (safety): a binding is kept.  A code exchange that goes on presents either no DPoP header or one valid
    proof, whose key the tokens are then bound to; a code bound to a key is exchanged only with
    a proof of that key, and a public client without the bearer allowance only with a proof.  A bound
    refresh family is rotated only with a proof of its key, and an unbound one never becomes
    bound. *)
Theorem bindings_are_kept cfg i headers now entropy conf i' :
  (∀ client code_jkt, resolve_code_exchange cfg i client code_jkt headers now entropy = Returned (Ok conf, i') →
    (headers = [] ∧ conf = None ∨ ∃ proof r, headers = [Some proof] ∧ conf = Some (Jkt (pr_jkt r)) ∧
       proof_ok (expectations DPOP_HTM_POST (normalized_htu_for_token_endpoint cfg) None) now proof r) ∧
    (∀ jkt, code_jkt = Some jkt → conf = Some (Jkt jkt)) ∧
    (ac_auth_method client = AuthNone → ac_allow_bearer_tokens client = false → is_Some conf)) ∧
  (∀ family_jkt, enforce_refresh_dpop cfg i headers family_jkt now entropy = Returned (Ok conf, i') →
    match family_jkt with
    | None => conf = None ∧ i' = i
    | Some jkt => conf = Some (Jkt jkt) ∧ ∃ proof r, headers = [Some proof] ∧ pr_jkt r = jkt ∧
        proof_ok (expectations DPOP_HTM_POST (normalized_htu_for_token_endpoint cfg) None) now proof r
    end).
Proof.
  split.
  - intros client code_jkt. unfold resolve_code_exchange. destruct (resolve_dpop_binding _ _ _ _ _) as [[[c|e] i'']| |] eqn:Hr; try done.
    destruct (enforce_public_client_dpop client c) as [[]|] eqn:Hp; [|done].
    destruct (enforce_code_dpop_binding _ _) as [[]|] eqn:Hb; [|done]. intros [= <- <-]. apply resolve_binding_ok in Hr.
    split; [done|]. split.
    + intros jkt ->. unfold enforce_code_dpop_binding in Hb. case_bool_decide as He; [|done].
      destruct Hr as [[_ ->]|(proof & r & _ & -> & _)]; [done|]. simpl in He. congruence.
    + intros Hm Ha. unfold enforce_public_client_dpop in Hp. rewrite Hm, Ha in Hp. simpl in Hp. by case_bool_decide.
  - intros [jkt|]; unfold enforce_refresh_dpop; [|by intros [= <- <-]].
    destruct (resolve_dpop_binding _ _ _ _ _) as [[[[c|]|e] i'']| |] eqn:Hr; try done.
    case_bool_decide as He; [done|]. intros [= <- <-]. apply resolve_binding_ok in Hr as [[_ ?]|(proof & r & -> & [= ->] & Hok)]; [done|].
    simpl in He. destruct (decide (pr_jkt r = jkt)) as [<-|]; [|done]. split; [done|]. by exists proof, r.
Qed.
End Runs.

(** ** A full cache *)

(** A cache at its cap forgets every proof when a new key comes, however recent: the proof
    accepted just before is accepted again at the same instant. *)
Lemma flush_forgets_live_proofs cache jkt jti jkt' jti' now : (rc_cap cache ≤ size (rc_entries cache))%nat →
  rc_entries cache !! (jkt, jti) = Some now → rc_entries cache !! (jkt', jti') = None → (1 < rc_cap cache)%nat →
  (check_and_record (check_and_record cache jkt' jti' now).2 jkt jti now).1 = true.
Proof.
  intros Hfull Hin Hnew Hcap.
  assert (check_and_record cache jkt' jti' now = (true, mkReplay {[(jkt', jti') := now]} (rc_ttl cache) (rc_cap cache))) as ->.
  { unfold check_and_record. rewrite Hnew, (proj2 (Nat.leb_le _ _) Hfull). by rewrite insert_empty. }
  unfold check_and_record. simpl. rewrite lookup_singleton_ne by congruence. rewrite map_size_singleton.
  by rewrite (proj2 (Nat.leb_gt _ _)).
Qed.

(** ** Concrete proofs *)

Module DpopSamples.
Import JsonSamples Backend AuthnSamples.

Definition client_key : Map := string_object [("crv", "Ed25519"); ("kty", "OKP"); ("x", of_text (b64url_encode (replicate 32 7)))].
Definition proof_header : Map := [("alg", VString "EdDSA"); ("jwk", VObject client_key); ("typ", VString DPOP_TYP)].

(** A proof for the token endpoint and one for the userinfo endpoint, issued at second 105. *)
Definition token_claims : Map :=
  [("htm", VString "POST"); ("htu", VString "https://idp.example/token"); ("iat", VNumber 105); ("jti", VString "j1")].
Definition userinfo_claims : Map :=
  [("ath", VString (access_token_hash (lit "tok"))); ("htm", VString "GET"); ("htu", VString "https://idp.example/userinfo");
   ("iat", VNumber 105); ("jti", VString "j2")].

#[export] Instance dpop_reader : JsonReader := {|
  json_entries bs :=
    if bool_decide (bs = [5]) then Some proof_header
    else if bool_decide (bs = [8]) then Some token_claims
    else if bool_decide (bs = [9]) then Some userinfo_claims else None;
  json_value _ := None |}.

Definition proof_of (payload : bytes) : text :=
  let h := b64url_encode [5] in
  let p := b64url_encode payload in
  h ++ "."%char :: p ++ "."%char :: b64url_encode (tagged 64 7 (signing_input_bytes h p)).

Definition client_jkt : string := match jwk_thumbprint (mkJwk client_key) with Ok t => t | Err _ => "" end.

Definition dpop_cfg : DpopConfig := {| cfg_issuer_base := lit "https://idp.example/"; cfg_require_dpop_nonce := false |}.

Definition exchange_at (now : Z) : CallEvent :=
  {| ev_call := CallCode {| ac_auth_method := AuthNone; ac_allow_bearer_tokens := false |} (Some client_jkt);
     ev_headers := [Some (proof_of [8])]; ev_now := now; ev_entropy := []; ev_nonces := DpopNonceStore_new |}.

Definition present_at (now store_now : Z) : DpopNonceStore * Presentation :=
  (DpopNonceStore_new,
   {| ps_scope := mkStoreScope (mkLevelId []) (mkLevelId []); ps_expected_jkt := Some client_jkt; ps_scheme := SchemeDpop;
      ps_proof := Some (proof_of [9]); ps_htm := "GET"; ps_htu := normalized_htu_for_userinfo dpop_cfg; ps_token := lit "tok";
      ps_now := now; ps_store_now := store_now; ps_fault := NoFault; ps_entropy := [] |}).

(** The proofs a run accepted. *)
Definition accepted_by {A B} (r : Run (list (option A) * B)) : list A := match r with Returned (outs, _) => omap id outs | _ => [] end.

Definition secs (n : Z) : Z := n * NANOS_PER_SEC.

Lemma proof_accepted_once_witness :
  accepted_by (run_calls dpop_cfg DpopReplayCache_new [exchange_at (secs 100); exchange_at (secs 101)]) = [proof_of [8]] ∧
  NoDup (accepted_by (run_calls dpop_cfg DpopReplayCache_new [exchange_at (secs 100); exchange_at (secs 101)])).
Proof.
  split; [vm_compute; reflexivity|].
  destruct (proof_accepted_once dpop_cfg [exchange_at (secs 100); exchange_at (secs 101)]) as (outs & final & Hrun & _ & Hnd).
  - vm_compute. reflexivity.
  - simpl. unfold secs, NANOS_PER_SEC. lia.
  - repeat constructor; unfold in_range; vm_compute; discriminate.
  - by rewrite Hrun.
Defined.

Lemma presentation_accepted_once_witness :
  accepted_by (run_presentations dpop_cfg ∅ [present_at (secs 100) (secs 100); present_at (secs 165) (secs 165 + 7)]) =
    [(mkStoreScope (mkLevelId []) (mkLevelId []), proof_of [9])] ∧
  NoDup (accepted_by (run_presentations dpop_cfg ∅ [present_at (secs 100) (secs 100); present_at (secs 165) (secs 165 + 7)])).
Proof.
  split; [vm_compute; reflexivity|].
  destruct (presentation_accepted_once dpop_cfg ∅ [present_at (secs 100) (secs 100); present_at (secs 165) (secs 165 + 7)])
    as (outs & final & Hrun & _ & Hnd).
  - repeat constructor; unfold in_range; vm_compute; done.
  - simpl. unfold secs, NANOS_PER_SEC. lia.
  - by rewrite Hrun.
Defined.

Lemma bound_token_needs_proof_witness : ps_scheme (present_at (secs 100) (secs 100)).2 = SchemeDpop.
Proof.
  destruct (verify_dpop_presentation dpop_cfg DpopNonceStore_new ∅ (present_at (secs 100) (secs 100)).2) as [[[[[]|e] n] t]| |] eqn:Hv;
    [|by apply (f_equal (λ r, match r with Returned (Ok _, _, _) => true | _ => false end)) in Hv; vm_compute in Hv..].
  exact (proj1 (bound_token_needs_proof dpop_cfg DpopNonceStore_new ∅ (present_at (secs 100) (secs 100)).2 n t Hv)).
Defined.

(** A code bound to the client's key, exchanged with the given headers. *)
Definition exchanged (code_jkt : string) (headers : list (option text)) : option string :=
  match resolve_code_exchange dpop_cfg (mkInstance DpopReplayCache_new DpopNonceStore_new)
    {| ac_auth_method := AuthBasic; ac_allow_bearer_tokens := false |} (Some code_jkt) headers (secs 100) [] with
  | Returned (Ok (Some (Jkt jkt)), _) => Some jkt
  | _ => None
  end.

(** The bound code is exchanged with a proof of its key, and neither without a proof nor with
    a proof of another key. *)
Lemma bound_code_exchange : exchanged client_jkt [Some (proof_of [8])] = Some client_jkt ∧ exchanged client_jkt [] = None ∧
  exchanged "other" [Some (proof_of [8])] = None.
Proof. vm_compute. done. Qed.

(** Two requests that read the clock in one order and take the lock of the cache in the other
    both accept the same proof: a recorded instant after the present one counts as stale. *)
Lemma reordered_readings_accept_twice :
  accepted_by (run_calls dpop_cfg DpopReplayCache_new [exchange_at (secs 100 + 2); exchange_at (secs 100 + 1)]) =
  [proof_of [8]; proof_of [8]].
Proof. vm_compute. reflexivity. Qed.

(** A presentation validated half a millisecond before the end of a proof's window and recorded
    after it prunes the row of the first presentation and is accepted again. *)
Lemma second_reading_accepts_twice :
  length (accepted_by (run_presentations dpop_cfg ∅
    [present_at (secs 100) (secs 100); present_at (secs 166 - 500000) (secs 166)])) = 2%nat.
Proof. vm_compute. reflexivity. Qed.
End DpopSamples.
