(* ===== verification/Pkce.v ===== *)
(** * Proof keys for code exchange

    crates/ironauth-oidc pkce.rs and [bindings_match] of token.rs: the challenge bound to a code, the
    verifier presented at redemption, and the redirect URI.  SHA-256 of the sha2 crate is the class
    [Sha2].  The theorem: a code is redeemable exactly with what it was bound to. *)

From S2P Require Import Prelude Bytes Text JoseVerify SigningKeys Mint.

Local Open Scope Z_scope.

Class Sha2 := { sha2_digest : bytes → bytes }.

(** A length-then-content comparison without early exit. *)
Definition pkce_constant_time_eq (a b : bytes) : bool :=
  if negb (length a =? length b)%nat then false
  else foldl (λ diff xy, Z.lor diff (Z.lxor xy.1 xy.2)) 0 (zip a b) =? 0.

Definition is_unreserved_char (c : ascii) : bool :=
  is_ascii_alphanumeric c || existsb (λ d, is_char d c) ["-"; "."; "_"; "~"]%char.

Definition code_verifier_is_well_formed (code_verifier : text) : bool :=
  ((43 <=? length code_verifier)%nat && (length code_verifier <=? 128)%nat) && forallb is_unreserved_char code_verifier.

Definition code_challenge_is_well_formed (code_challenge : text) : bool :=
  (length code_challenge =? 43)%nat && forallb is_url_safe code_challenge.

Section Pkce.
Context `{!Sha2} `{!JoseEncoder}.

Definition s256_challenge (code_verifier : text) : text := b64url_encode (sha2_digest (as_bytes code_verifier)).

Definition verify_s256 (code_verifier code_challenge : text) : bool :=
  if negb (code_verifier_is_well_formed code_verifier) then false
  else
    let digest := sha2_digest (as_bytes code_verifier) in
    let computed := b64url_encode digest in
    pkce_constant_time_eq (as_bytes computed) (as_bytes code_challenge).

(** ** The bindings of a code *)

(** The fields the check reads. *)
Record CodeBindings : Type := { cb_redirect_uri : text; cb_browserless : bool; cb_code_challenge : option text }.

Record TokenParams : Type := { tp_redirect_uri : option text; tp_code_verifier : option text }.

Definition bindings_match (bindings : CodeBindings) (params : TokenParams) : bool :=
  let redirect_ok :=
    if cb_browserless bindings then
      match tp_redirect_uri params with Some value => bool_decide (trim value = []) | None => true end
    else
      match tp_redirect_uri params with Some presented => bool_decide (presented = cb_redirect_uri bindings) | None => false end in
  let presented_verifier := option_map trim (tp_code_verifier params) ≫= λ value, if bool_decide (value = []) then None else Some value in
  let pkce_ok :=
    match cb_code_challenge bindings with
    | Some challenge => match presented_verifier with Some verifier => verify_s256 verifier challenge | None => false end
    | None => bool_decide (presented_verifier = None)
    end in
  redirect_ok && pkce_ok.

(** ** The transform *)

Lemma lor_fold_zero (l : list (Z * Z)) : ∀ acc, foldl (λ diff xy, Z.lor diff (Z.lxor xy.1 xy.2)) acc l = 0 ↔ acc = 0 ∧ Forall (λ xy, xy.1 = xy.2) l.
Proof.
  induction l as [|[x y] l IH]; intros acc; simpl; [naive_solver|]. rewrite IH, Z.lor_eq_0_iff, Z.lxor_eq_0_iff, Forall_cons. simpl. tauto.
Qed.

Lemma pkce_constant_time_eq_spec a b : pkce_constant_time_eq a b = true ↔ a = b.
Proof.
  unfold pkce_constant_time_eq. destruct (Nat.eqb_spec (length a) (length b)) as [Hl|Hl]; simpl; [|naive_solver].
  rewrite Z.eqb_eq, lor_fold_zero. split.
  - intros [_ Hall]. revert b Hl Hall. induction a as [|x a IH]; intros [|y b] Hl Hall; simpl in *; try done.
    apply Forall_cons_1 in Hall as [Hx Hall]. simpl in Hx. f_equal; [done|]. apply IH; [lia|done].
  - intros ->. split; [done|]. clear. induction b; constructor; done.
Qed.

Lemma as_bytes_text_inj (s s' : text) : as_bytes s = as_bytes s' → s = s'.
Proof.
  apply list_fmap_eq_inj. intros c d He. unfold code in He. apply N2Z.inj in He.
  rewrite <-(ascii_N_embedding c), <-(ascii_N_embedding d). by rewrite He.
Qed.

Lemma verify_s256_spec v c : verify_s256 v c = true ↔ code_verifier_is_well_formed v = true ∧ c = s256_challenge v.
Proof.
  unfold verify_s256, s256_challenge. destruct (code_verifier_is_well_formed v); simpl; [|naive_solver].
  rewrite pkce_constant_time_eq_spec. split; [intros He%as_bytes_text_inj; by split|by intros [_ ->]].
Qed.

(** ** Redemption *)

Context `{!Primitives} `{!JoseEncoderLaws}.

(** A digest is 32 bytes. *)
Class Sha2Laws : Prop := { sha2_length m : length (sha2_digest m) = 32%nat; sha2_bytes m : Forall is_byte (sha2_digest m) }.

Context `{!Sha2Laws}.

(** The redirect URI of a request for a code: the bound one, or none for a code without a browser. *)
Definition redirect_rule (bindings : CodeBindings) (params : TokenParams) : Prop :=
  if cb_browserless bindings then ∀ value, tp_redirect_uri params = Some value → trim value = []
  else tp_redirect_uri params = Some (cb_redirect_uri bindings).

Lemma bindings_match_redirect b p : bindings_match b p = true → redirect_rule b p.
Proof.
  unfold bindings_match, redirect_rule. cbv zeta. rewrite andb_true_iff. intros [Hr _]. destruct (cb_browserless b), (tp_redirect_uri p) as [u|];
    try done; apply bool_decide_eq_true in Hr; naive_solver.
Qed.

(** With the redirect URI right, the verifier decides. *)
Lemma bindings_match_verifier b p : redirect_rule b p →
  bindings_match b p = true ↔
  let presented := option_map trim (tp_code_verifier p) ≫= λ value, if bool_decide (value = []) then None else Some value in
  match cb_code_challenge b with
  | Some c => ∃ v, presented = Some v ∧ verify_s256 v c = true
  | None => presented = None
  end.
Proof.
  intros Hr. unfold bindings_match. cbv zeta.
  match goal with |- ?r && _ = true ↔ _ => replace r with true end.
  - simpl. destruct (option_map _ _ ≫= _) as [v|], (cb_code_challenge b) as [c|]; rewrite ?bool_decide_eq_true; naive_solver.
  - symmetry. unfold redirect_rule in Hr. destruct (cb_browserless b); [destruct (tp_redirect_uri p)|rewrite Hr]; rewrite ?bool_decide_eq_true; auto.
Qed.

Lemma s256_challenge_well_formed v : code_challenge_is_well_formed (s256_challenge v) = true.
Proof.
  unfold code_challenge_is_well_formed, s256_challenge. rewrite andb_true_iff, Nat.eqb_eq, forallb_forall. split.
  - pose proof (b64url_encode_length (sha2_digest (as_bytes v))) as Hl. rewrite sha2_length in Hl. change ((Z.of_nat 32 * 4 + 2) / 3) with 43 in Hl. lia.
  - intros c Hc%list_elem_of_In. exact (proj1 (Forall_forall _ _) (b64url_encode_alphabet (sha2_digest (as_bytes v))) c Hc).
Qed.

Lemma challenges_agree v w : s256_challenge w = s256_challenge v ↔ sha2_digest (as_bytes w) = sha2_digest (as_bytes v).
Proof.
  unfold s256_challenge. split; [|by intros ->]. intros He.
  apply (f_equal b64url_decode) in He. rewrite !b64url_decode_encode in He by apply sha2_bytes. by injection He.
Qed.

(** C16 (functional): of a code bound to the challenge of a verifier, the challenge is one the authorization endpoint accepts, the code
    is redeemed exactly by requests with the right redirect URI and a well-formed verifier of the same digest, and a
    code without a challenge is redeemed exactly by requests without a verifier. *)
Theorem code_redeems_with_its_bindings (bindings : CodeBindings) (params : TokenParams) :
  match cb_code_challenge bindings with
  | None => bindings_match bindings params = true ↔ redirect_rule bindings params ∧ ∀ w, tp_code_verifier params = Some w → trim w = []
  | Some challenge => ∀ v, challenge = s256_challenge v →
      code_challenge_is_well_formed challenge = true ∧
      (bindings_match bindings params = true ↔
       redirect_rule bindings params ∧
       ∃ w, tp_code_verifier params = Some w ∧ code_verifier_is_well_formed (trim w) = true ∧
            sha2_digest (as_bytes (trim w)) = sha2_digest (as_bytes v))
  end.
Proof.
  pose proof (bindings_match_redirect bindings params) as Hred. pose proof (bindings_match_verifier bindings params) as Hver.
  cbv zeta in Hver. destruct (cb_code_challenge bindings) as [challenge|] eqn:Hc.
  - intros v ->. split; [apply s256_challenge_well_formed|]. split.
    + intros Hm. specialize (Hred Hm). apply (Hver Hred) in Hm as (w & Hw & [Hwf Hs]%verify_s256_spec). split; [done|].
      destruct (tp_code_verifier params) as [w'|]; [|done]. simpl in Hw. case_bool_decide; [done|]. injection Hw as <-.
      exists w'. split_and!; [done..|]. by apply challenges_agree.
    + intros (Hr & w & Hw & Hwf & Hs). apply (Hver Hr). exists (trim w). rewrite Hw, verify_s256_spec. simpl.
      rewrite bool_decide_eq_false_2 by (intros He; by rewrite He in Hwf). split_and!; [done..|]. symmetry. by apply challenges_agree.
  - split.
    + intros Hm. specialize (Hred Hm). apply (Hver Hred) in Hm. split; [done|]. intros w Hw. rewrite Hw in Hm. simpl in Hm. by case_bool_decide.
    + intros [Hr Hw]. apply (Hver Hr). destruct (tp_code_verifier params) as [w|]; [|done]. simpl. by rewrite (Hw w eq_refl).
Qed.

(** The verifier itself redeems its code. *)
Lemma verifier_redeems v redirect_uri : code_verifier_is_well_formed v = true →
  bindings_match {| cb_redirect_uri := redirect_uri; cb_browserless := false; cb_code_challenge := Some (s256_challenge v) |}
    {| tp_redirect_uri := Some redirect_uri; tp_code_verifier := Some v |} = true.
Proof.
  intros Hv. apply bindings_match_verifier; [done|]. exists v. rewrite verify_s256_spec. split; [|done].
  simpl. rewrite trim_graphic; [rewrite bool_decide_eq_false_2; [done|by intros ->]|].
  unfold code_verifier_is_well_formed in Hv. rewrite andb_true_iff, forallb_forall in Hv. destruct Hv as [_ Hv].
  apply Forall_forall. intros c Hc%list_elem_of_In. specialize (Hv c Hc). revert Hv. clear. by destruct c as [[] [] [] [] [] [] [] []].
Qed.
End Pkce.

(** ** A sample *)

Module PkceSamples.
Import Backend.

#[local] Instance checksum_digest : Sha2 := {| sha2_digest m := replicate 32 (checksum m) |}.

#[local] Instance checksum_digest_laws : Sha2Laws.
Proof. split; intros m; [apply length_replicate|apply Forall_replicate, checksum_byte]. Qed.

Definition pkce_verifier : text := lit "dBjftJeZ4CVP-mB92K27uhbUJU1p1r_wW1gFWFOEjXk".
Definition other_verifier : text := lit "aBjftJeZ4CVP-mB92K27uhbUJU1p1r_wW1gFWFOEjXk".
Definition bound_code : CodeBindings :=
  {| cb_redirect_uri := lit "https://app/cb"; cb_browserless := false; cb_code_challenge := Some (s256_challenge pkce_verifier) |}.
Definition redemption (verifier : option text) : TokenParams :=
  {| tp_redirect_uri := Some (lit "https://app/cb"); tp_code_verifier := verifier |}.

Lemma code_redeems_with_its_bindings_witness :
  code_challenge_is_well_formed (s256_challenge pkce_verifier) = true ∧
  bindings_match bound_code (redemption (Some pkce_verifier)) = true ∧
  bindings_match bound_code (redemption (Some other_verifier)) = false ∧ bindings_match bound_code (redemption None) = false.
Proof.
  destruct (code_redeems_with_its_bindings bound_code (redemption (Some pkce_verifier)) pkce_verifier eq_refl) as [Hc Hm].
  split; [exact Hc|]. split; [apply Hm; split; [done|]; by exists pkce_verifier|]. split; vm_compute; reflexivity.
Defined.
End PkceSamples.
