(* ===== verification/RefreshStore.v ===== *)
(** * The lineage of refresh tokens

    The refresh-token repositories of crates/ironauth-store/src/repository.rs over the tables of
    migration 0016: opening a family, redeeming a token with its rotation and reuse detection,
    and the revocations.  An identifier column is the identifier it parses to, instants are
    microseconds since the epoch, and of the two tables of access tokens the primary keys are
    checked.  A redemption has two parts, as the transaction runs at READ COMMITTED: the
    statement that reads the token with its family, and everything after it up to the commit, which the
    row lock of its first update makes one step; other transactions may commit between the
    two.  The theorems, over every interleaving and with faults: a family is one chain with one
    live leaf, a token rotates at most once, a reuse is reported once and ends the family.  Two
    lemmas show where the code departs from its comments: a refreshed opaque token loses the key
    it was bound to, and a token may be minted after its family was revoked. *)

From S2P Require Import Prelude Machine Bytes Text Json JoseHeader JoseVerify Authn Ids Envelope FactorStore SigningKeys SenderConstraint Pkce.

Local Open Scope Z_scope.

(** ** Rows *)

Record FamilyImpersonation : Type := { fi_impersonator : text; fi_reason_code : text; fi_expires_at : Z }.

Record FamilyRow : Type := {
  fa_scope : StoreScope; fa_grant_id : ScopedId; fa_subject : text; fa_client_id : text; fa_scope_value : option text;
  fa_auth_methods : text; fa_auth_time : option Z; fa_session_ref : option ScopedId; fa_offline : bool; fa_created_at : Z;
  fa_absolute_expires_at : Z; fa_dpop_jkt : option string; fa_impersonation : option FamilyImpersonation;
  fa_revoked_at : option Z; fa_reuse_detected_at : option Z }.

Record TokenRow : Type := {
  tk_scope : StoreScope; tk_family_id : ScopedId; tk_jti : ScopedId; tk_generation : Z; tk_predecessor_jti : option ScopedId;
  tk_issued_at : Z; tk_idle_expires_at : Z; tk_rotated_at : option Z; tk_successor_jti : option ScopedId }.

(** The columns of the grants and the sessions that these statements read. *)
Record GrantRow : Type := {
  gr_scope : StoreScope; gr_session_ref : option ScopedId; gr_granted_resources : list text; gr_org_id : option text;
  gr_revoked_at : option Z }.

Record SessionRow : Type := {
  se_scope : StoreScope; se_revoked_at : option Z; se_ended_at : option Z; se_superseded_by : option ScopedId;
  se_absolute_expires_at : option Z; se_expires_at : Z; se_idle_expires_at : option Z;
  se_impersonation : option FamilyImpersonation }.

Inductive RefreshAction : Set := RefreshTokenIssue | RefreshTokenRotate | RefreshTokenReuse | RefreshFamilyRevoke | TokenIssue.

#[export] Instance RefreshAction_eq_dec : EqDecision RefreshAction.
Proof. solve_decision. Defined.

Record NewOpaqueAccessToken : Type := {
  op_token_digest : text; op_grant_id : option ScopedId; op_subject : text; op_client_id : text; op_audience : text;
  op_audiences : list text; op_scope : option text; op_jti : ScopedId; op_expires_at : Z; op_dpop_jkt : option string;
  op_cnf_x5t_s256 : option string }.

(** A row of [opaque_access_tokens]; an empty list of audiences is a NULL. *)
Record OpaqueRow : Type := {
  oa_scope : StoreScope; oa_grant_id : ScopedId; oa_subject : text; oa_client_id : text; oa_audience : text; oa_audiences : list text;
  oa_scope_value : option text; oa_jti : ScopedId; oa_expires_at : Z; oa_dpop_jkt : option string; oa_cnf_x5t_s256 : option string }.

Abbreviation family_table := (gmap ScopedId FamilyRow) (only parsing).
Abbreviation token_table := (gmap text TokenRow) (only parsing).

Record RefreshDb : Type := mkRefreshDb {
  refresh_families : family_table; refresh_tokens : token_table;
  grants : gmap ScopedId GrantRow; sessions : gmap ScopedId SessionRow;
  issued_tokens : gmap ScopedId (ScopedId * text); opaque_access_tokens : gmap text OpaqueRow;
  metered : list (ScopedId * text); refresh_audit : list (RefreshAction * ScopedId) }.

Definition with_families (t : family_table) (db : RefreshDb) : RefreshDb :=
  mkRefreshDb t (refresh_tokens db) (grants db) (sessions db) (issued_tokens db) (opaque_access_tokens db) (metered db) (refresh_audit db).
Definition with_tokens (t : token_table) (db : RefreshDb) : RefreshDb :=
  mkRefreshDb (refresh_families db) t (grants db) (sessions db) (issued_tokens db) (opaque_access_tokens db) (metered db) (refresh_audit db).
Definition audited (action : RefreshAction) (target : ScopedId) (db : RefreshDb) : RefreshDb :=
  mkRefreshDb (refresh_families db) (refresh_tokens db) (grants db) (sessions db) (issued_tokens db) (opaque_access_tokens db)
    (metered db) (refresh_audit db ++ [(action, target)]).

(** ** Requests and outcomes *)

Record NewRefreshFamily : Type := {
  nf_family_id : ScopedId; nf_token_jti : ScopedId; nf_token_digest : text; nf_grant_id : ScopedId; nf_subject : text;
  nf_client_id : text; nf_scope : option text; nf_auth_methods : text; nf_auth_time : option Z; nf_offline : bool;
  nf_created_at : Z; nf_idle_expires_at : Z; nf_absolute_expires_at : Z; nf_dpop_jkt : option string }.

Inductive RefreshFamilyOpenOutcome : Set := FamilyOpened | SessionNotLive.

Record RotatedRefreshToken : Type := {
  ro_jti : ScopedId; ro_token_digest : text; ro_generation : Z; ro_idle_expires_at : Z }.

(** [rq_grace] is in nanoseconds; an access record is its identifier and kind. *)
Record RefreshRedeem : Type := {
  rq_presented_token : text; rq_rotate : bool; rq_successor : RotatedRefreshToken; rq_access_records : list (ScopedId * text);
  rq_opaque : option NewOpaqueAccessToken; rq_grace : Z }.

Inductive RefreshRedeemOutcome : Set := Rotated | RefreshedWithinGrace | NotRotated | Reused | RedeemInvalid.

Record RefreshTokenResolution : Type := {
  rs_family_id : ScopedId; rs_grant_id : ScopedId; rs_generation : Z; rs_subject : text; rs_client_id : text;
  rs_scope : option text; rs_granted_resources : list text; rs_auth_methods : text; rs_auth_time : option Z; rs_offline : bool;
  rs_issued_at : Z; rs_idle_expires_at : Z; rs_absolute_expires_at : Z; rs_rotated : bool;
  rs_impersonation : option FamilyImpersonation; rs_active : bool; rs_dpop_jkt : option string; rs_org_id : option text }.

(** The digit of a value below sixteen. *)
Definition hex_digit (d : Z) : ascii := chr (if d <? 10 then 48 + d else 87 + d).

Section Digest.
Context `{!Sha2}.

Definition refresh_token_digest (token : text) : text :=
  concat ((λ b, [hex_digit (b / 16); hex_digit (b mod 16)]) <$> sha2_digest (as_bytes token)).
End Digest.

(** ** Statements *)

Abbreviation RefreshTx A := (RefreshDb → Result (A * RefreshDb) StoreError) (only parsing).

(** An identifier column read back with [parse_in_scope]. *)
Definition in_scope (scope : StoreScope) (id : ScopedId) : Result ScopedId StoreError :=
  if bool_decide (id_scope id = scope) then Ok id else Err StoreNotFound.

(** A row of the scope. *)
Definition grant_in (scope : StoreScope) (id : ScopedId) (db : RefreshDb) : option GrantRow :=
  g ← grants db !! id; if bool_decide (gr_scope g = scope) then Some g else None.
Definition family_in (scope : StoreScope) (id : ScopedId) (db : RefreshDb) : option FamilyRow :=
  f ← refresh_families db !! id; if bool_decide (fa_scope f = scope) then Some f else None.
Definition token_in (scope : StoreScope) (digest : text) (db : RefreshDb) : option TokenRow :=
  t ← refresh_tokens db !! digest; if bool_decide (tk_scope t = scope) then Some t else None.

(** The live-session predicate. *)
Definition session_row_live (now_micros : Z) (s : SessionRow) : bool :=
  bool_decide (se_revoked_at s = None) && bool_decide (se_ended_at s = None) && bool_decide (se_superseded_by s = None)
  && (now_micros <? default (se_expires_at s) (se_absolute_expires_at s))
  && match se_idle_expires_at s with None => true | Some idle => now_micros <? idle end.

Definition session_live (scope : StoreScope) (now_micros : Z) (id : ScopedId) (db : RefreshDb) : bool :=
  match sessions db !! id with
  | Some s => bool_decide (se_scope s = scope) && session_row_live now_micros s
  | None => false
  end.

Definition lock_bound_session_live (scope : StoreScope) (grant_id : ScopedId) (now_micros : Z) (db : RefreshDb) : bool :=
  match grant_in scope grant_id db with
  | None => true
  | Some g => match gr_session_ref g with None => true | Some session_ref => session_live scope now_micros session_ref db end
  end.

(** [INSERT INTO refresh_tokens]: the primary key, the unique identifier of the scope and the
    reference to the family. *)
Definition insert_token (digest : text) (row : TokenRow) (db : RefreshDb) : Result RefreshDb StoreError :=
  if bool_decide (is_Some (refresh_tokens db !! digest)) then Err StoreDatabase
  else if bool_decide (map_Exists (λ _ other, tk_scope other = tk_scope row ∧ tk_jti other = tk_jti row) (refresh_tokens db)) then Err StoreDatabase
  else match family_in (tk_scope row) (tk_family_id row) db with
  | None => Err StoreDatabase
  | Some _ => Ok (with_tokens (<[digest := row]> (refresh_tokens db)) db)
  end.

Definition insert_family (id : ScopedId) (row : FamilyRow) (db : RefreshDb) : Result RefreshDb StoreError :=
  if bool_decide (is_Some (refresh_families db !! id)) then Err StoreDatabase
  else Ok (with_families (<[id := row]> (refresh_families db)) db).

Definition insert_refresh_generation (scope : StoreScope) (family : ScopedId) (successor : RotatedRefreshToken)
    (predecessor_jti : option ScopedId) (now_micros : Z) (db : RefreshDb) : Result RefreshDb StoreError :=
  insert_token (ro_token_digest successor)
    {| tk_scope := scope; tk_family_id := family; tk_jti := ro_jti successor; tk_generation := ro_generation successor;
       tk_predecessor_jti := predecessor_jti; tk_issued_at := now_micros; tk_idle_expires_at := ro_idle_expires_at successor;
       tk_rotated_at := None; tk_successor_jti := None |} db.

(** ** Access tokens *)

(** One event per record, and one for an opaque token. *)
Definition meter_redeemed_tokens (grant : ScopedId) (records : list (ScopedId * text)) (has_opaque : bool) : list (ScopedId * text) :=
  ((λ r, (grant, r.2)) <$> records) ++ (if has_opaque then [(grant, lit "access")] else []).

Fixpoint insert_issued (grant : ScopedId) (records : list (ScopedId * text)) (t : gmap ScopedId (ScopedId * text))
    : Result (gmap ScopedId (ScopedId * text)) StoreError :=
  match records with
  | [] => Ok t
  | (id, kind) :: rest =>
      if bool_decide (is_Some (t !! id)) then Err StoreDatabase else insert_issued grant rest (<[id := (grant, kind)]> t)
  end.

(** The columns the insert of a refreshed opaque token names; the two it leaves out are NULL. *)
Definition refreshed_opaque_row (scope : StoreScope) (grant : ScopedId) (token : NewOpaqueAccessToken) : OpaqueRow :=
  {| oa_scope := scope; oa_grant_id := grant; oa_subject := op_subject token; oa_client_id := op_client_id token;
     oa_audience := op_audience token; oa_audiences := op_audiences token; oa_scope_value := op_scope token; oa_jti := op_jti token;
     oa_expires_at := op_expires_at token; oa_dpop_jkt := None; oa_cnf_x5t_s256 := None |}.

Definition record_refresh_access (scope : StoreScope) (grant : ScopedId) (redeem : RefreshRedeem) (db : RefreshDb) : Result RefreshDb StoreError :=
  let events := meter_redeemed_tokens grant (rq_access_records redeem) (bool_decide (is_Some (rq_opaque redeem))) in
  let? issued := insert_issued grant (rq_access_records redeem) (issued_tokens db) in
  let? opaque :=
    match rq_opaque redeem with
    | None => Ok (opaque_access_tokens db)
    | Some token =>
        if bool_decide (is_Some (opaque_access_tokens db !! op_token_digest token)) then Err StoreDatabase
        else Ok (<[op_token_digest token := refreshed_opaque_row scope grant token]> (opaque_access_tokens db))
    end in
  Ok (mkRefreshDb (refresh_families db) (refresh_tokens db) (grants db) (sessions db) issued opaque (metered db ++ events) (refresh_audit db)).

(** ** Opening a family *)

(** [ActingRefreshRepo::issue]. *)
Definition refresh_issue (scope : StoreScope) (now : Z) (family : NewRefreshFamily) : RefreshTx RefreshFamilyOpenOutcome := λ db,
  if bool_decide (id_scope (nf_family_id family) ≠ scope ∨ id_scope (nf_token_jti family) ≠ scope ∨ id_scope (nf_grant_id family) ≠ scope)
  then Err StoreNotFound
  else
    let now_micros := store_epoch_micros now in
    if negb (nf_offline family) && negb (lock_bound_session_live scope (nf_grant_id family) now_micros db) then Ok (SessionNotLive, db)
    else
      match grant_in scope (nf_grant_id family) db with
      | None => Ok (SessionNotLive, db)
      | Some g =>
          if nf_offline family || match gr_session_ref g with None => true | Some s => session_live scope now_micros s db end then
            let imp := gr_session_ref g ≫= λ s, sessions db !! s ≫= λ row,
              if bool_decide (se_scope row = scope) then se_impersonation row else None in
            let row := {| fa_scope := scope; fa_grant_id := nf_grant_id family; fa_subject := nf_subject family;
              fa_client_id := nf_client_id family; fa_scope_value := nf_scope family; fa_auth_methods := nf_auth_methods family;
              fa_auth_time := nf_auth_time family; fa_session_ref := gr_session_ref g; fa_offline := nf_offline family;
              fa_created_at := nf_created_at family; fa_absolute_expires_at := nf_absolute_expires_at family;
              fa_dpop_jkt := nf_dpop_jkt family; fa_impersonation := imp; fa_revoked_at := None; fa_reuse_detected_at := None |} in
            let? db := insert_family (nf_family_id family) row db in
            let? db := insert_token (nf_token_digest family)
              {| tk_scope := scope; tk_family_id := nf_family_id family; tk_jti := nf_token_jti family; tk_generation := 0;
                 tk_predecessor_jti := None; tk_issued_at := nf_created_at family; tk_idle_expires_at := nf_idle_expires_at family;
                 tk_rotated_at := None; tk_successor_jti := None |} db in
            Ok (FamilyOpened, audited RefreshTokenIssue (nf_family_id family) db)
          else Ok (SessionNotLive, db)
      end.

(** ** Redeeming *)

(** The row the first statement reads. *)
Record RedeemRead : Type := {
  rd_jti : ScopedId; rd_family_id : ScopedId; rd_grant_id : ScopedId; rd_rotated_at : option Z; rd_idle : Z; rd_abs : Z;
  rd_family_live : bool; rd_grant_live : bool; rd_session_live : bool }.

Definition read_presented (scope : StoreScope) (digest : text) (now_micros : Z) (db : RefreshDb) : option RedeemRead :=
  t ← token_in scope digest db;
  f ← family_in scope (tk_family_id t) db;
  g ← grant_in scope (fa_grant_id f) db;
  Some {| rd_jti := tk_jti t; rd_family_id := tk_family_id t; rd_grant_id := fa_grant_id f; rd_rotated_at := tk_rotated_at t;
          rd_idle := tk_idle_expires_at t; rd_abs := fa_absolute_expires_at f; rd_family_live := bool_decide (fa_revoked_at f = None);
          rd_grant_live := bool_decide (gr_revoked_at g = None);
          rd_session_live := fa_offline f || match fa_session_ref f with None => true | Some s => session_live scope now_micros s db end |}.

Definition revoked_family (now_micros : Z) (reuse : bool) (f : FamilyRow) : FamilyRow :=
  {| fa_scope := fa_scope f; fa_grant_id := fa_grant_id f; fa_subject := fa_subject f; fa_client_id := fa_client_id f;
     fa_scope_value := fa_scope_value f; fa_auth_methods := fa_auth_methods f; fa_auth_time := fa_auth_time f;
     fa_session_ref := fa_session_ref f; fa_offline := fa_offline f; fa_created_at := fa_created_at f;
     fa_absolute_expires_at := fa_absolute_expires_at f; fa_dpop_jkt := fa_dpop_jkt f; fa_impersonation := fa_impersonation f;
     fa_revoked_at := Some now_micros; fa_reuse_detected_at := if reuse then Some now_micros else fa_reuse_detected_at f |}.

Definition rotated_token (now_micros : Z) (successor : ScopedId) (t : TokenRow) : TokenRow :=
  {| tk_scope := tk_scope t; tk_family_id := tk_family_id t; tk_jti := tk_jti t; tk_generation := tk_generation t;
     tk_predecessor_jti := tk_predecessor_jti t; tk_issued_at := tk_issued_at t; tk_idle_expires_at := tk_idle_expires_at t;
     tk_rotated_at := Some now_micros; tk_successor_jti := Some successor |}.

(** [now_micros.saturating_sub(rotated_us) < grace_micros] is the benign window. *)
Definition classify_superseded (scope : StoreScope) (family grant : ScopedId) (rotated_us now_micros grace_micros : Z)
    (redeem : RefreshRedeem) : RefreshTx RefreshRedeemOutcome := λ db,
  if i64_saturating_sub now_micros rotated_us <? grace_micros then
    let? db := record_refresh_access scope grant redeem db in
    let? target := in_scope scope grant in
    Ok (RefreshedWithinGrace, audited TokenIssue target db)
  else
    match family_in scope family db with
    | Some f =>
        if bool_decide (fa_revoked_at f = None) then
          let? target := in_scope scope family in
          Ok (Reused, audited RefreshTokenReuse target (with_families (<[family := revoked_family now_micros true f]> (refresh_families db)) db))
        else Ok (Reused, db)
    | None => Ok (Reused, db)
    end.

Definition redeem_live_leaf (scope : StoreScope) (family jti grant : ScopedId) (digest : text) (now_micros grace_micros : Z)
    (redeem : RefreshRedeem) : RefreshTx RefreshRedeemOutcome := λ db,
  if negb (rq_rotate redeem) then
    let? db := record_refresh_access scope grant redeem db in
    let? target := in_scope scope grant in
    Ok (NotRotated, audited TokenIssue target db)
  else
    let row := token_in scope digest db in
    match row with
    | Some t =>
        match tk_rotated_at t with
        | None =>
            let db := with_tokens (<[digest := rotated_token now_micros (ro_jti (rq_successor redeem)) t]> (refresh_tokens db)) db in
            let? db := insert_refresh_generation scope family (rq_successor redeem) (Some jti) now_micros db in
            let? db := record_refresh_access scope grant redeem db in
            let? target := in_scope scope family in
            Ok (Rotated, audited RefreshTokenRotate target db)
        | Some rotated_us => classify_superseded scope family grant rotated_us now_micros grace_micros redeem db
        end
    | None => classify_superseded scope family grant now_micros now_micros grace_micros redeem db
    end.

Section Redeem.
Context `{!Sha2}.

Definition redeem_in_scope (scope : StoreScope) (redeem : RefreshRedeem) : bool :=
  bool_decide (id_scope (ro_jti (rq_successor redeem)) = scope)
  && forallb (λ r, bool_decide (id_scope r.1 = scope)) (rq_access_records redeem)
  && match rq_opaque redeem with None => true | Some opaque => bool_decide (id_scope (op_jti opaque) = scope) end.

(** The first part of [ActingRefreshRepo::redeem]: the outcome, or the row to go on with. *)
Definition redeem_begin (scope : StoreScope) (now : Z) (redeem : RefreshRedeem) (db : RefreshDb)
    : Result (RefreshRedeemOutcome + RedeemRead) StoreError :=
  if negb (redeem_in_scope scope redeem) then Err StoreNotFound
  else
    let now_micros := store_epoch_micros now in
    match read_presented scope (refresh_token_digest (rq_presented_token redeem)) now_micros db with
    | None => Ok (inl RedeemInvalid)
    | Some row =>
        if negb (rd_family_live row) || negb (rd_grant_live row) then Ok (inl RedeemInvalid)
        else if negb (rd_session_live row) then Ok (inl RedeemInvalid)
        else if (rd_idle row <=? now_micros) || (rd_abs row <=? now_micros) then Ok (inl RedeemInvalid)
        else Ok (inr row)
    end.

(** The second part, up to the commit. *)
Definition redeem_finish (scope : StoreScope) (now : Z) (redeem : RefreshRedeem) (row : RedeemRead) : RefreshTx RefreshRedeemOutcome :=
  let now_micros := store_epoch_micros now in
  let grace_micros := default I64_MAX (i64_try_from (rq_grace redeem / 1000)) in
  match rd_rotated_at row with
  | Some rotated_us => classify_superseded scope (rd_family_id row) (rd_grant_id row) rotated_us now_micros grace_micros redeem
  | None =>
      redeem_live_leaf scope (rd_family_id row) (rd_jti row) (rd_grant_id row) (refresh_token_digest (rq_presented_token redeem))
        now_micros grace_micros redeem
  end.

(** The whole transaction, when nothing commits between its parts. *)
Definition refresh_redeem (scope : StoreScope) (now : Z) (redeem : RefreshRedeem) : RefreshTx RefreshRedeemOutcome := λ db,
  match redeem_begin scope now redeem db with
  | Err e => Err e
  | Ok (inl outcome) => Ok (outcome, db)
  | Ok (inr row) => redeem_finish scope now redeem row db
  end.

(** [RefreshRepo::load]. *)
Definition refresh_load (scope : StoreScope) (presented_token : text) (db : RefreshDb) : Result (option RefreshTokenResolution) StoreError :=
  match (t ← token_in scope (refresh_token_digest presented_token) db;
         f ← family_in scope (tk_family_id t) db;
         g ← grant_in scope (fa_grant_id f) db; Some (t, f, g)) with
  | None => Ok None
  | Some (t, f, g) =>
      let? family_id := in_scope scope (tk_family_id t) in
      let? grant_id := in_scope scope (fa_grant_id f) in
      Ok (Some {| rs_family_id := family_id; rs_grant_id := grant_id; rs_generation := tk_generation t; rs_subject := fa_subject f;
        rs_client_id := fa_client_id f; rs_scope := fa_scope_value f; rs_granted_resources := gr_granted_resources g;
        rs_auth_methods := fa_auth_methods f; rs_auth_time := fa_auth_time f; rs_offline := fa_offline f;
        rs_issued_at := tk_issued_at t; rs_idle_expires_at := tk_idle_expires_at t; rs_absolute_expires_at := fa_absolute_expires_at f;
        rs_rotated := bool_decide (is_Some (tk_rotated_at t)); rs_impersonation := fa_impersonation f;
        rs_active := bool_decide (fa_revoked_at f = None) && bool_decide (gr_revoked_at g = None);
        rs_dpop_jkt := fa_dpop_jkt f; rs_org_id := gr_org_id g |})
  end.
End Redeem.

Definition live_leaf_count (scope : StoreScope) (family : ScopedId) (db : RefreshDb) : Result nat StoreError :=
  if bool_decide (id_scope family ≠ scope) then Err StoreNotFound
  else Ok (match family_in scope family db with
    | Some f => if bool_decide (fa_revoked_at f = None) then
        size (filter (λ kv : text * TokenRow, tk_family_id kv.2 = family ∧ tk_scope kv.2 = scope ∧ tk_rotated_at kv.2 = None) (refresh_tokens db)) else 0
    | None => 0
    end)%nat.

(** ** Revocations *)

(** [UPDATE refresh_families SET revoked_at .. WHERE .. AND revoked_at IS NULL], and how many rows
    it changed. *)
Definition revoke_where (now_micros : Z) (p : ScopedId → FamilyRow → bool) (t : family_table) : family_table :=
  map_imap (λ id f, Some (if p id f && bool_decide (fa_revoked_at f = None) then revoked_family now_micros false f else f)) t.

Definition revoked_count (p : ScopedId → FamilyRow → bool) (t : family_table) : nat :=
  size (filter (λ kv : ScopedId * FamilyRow, p kv.1 kv.2 = true ∧ fa_revoked_at kv.2 = None) t).

Definition revoke_session_bound (scope : StoreScope) (now : Z) (session : ScopedId) : RefreshTx nat := λ db,
  if bool_decide (id_scope session ≠ scope) then Err StoreNotFound
  else
    let p := λ (_ : ScopedId) f, bool_decide (fa_session_ref f = Some session) && bool_decide (fa_scope f = scope) && negb (fa_offline f) in
    Ok (revoked_count p (refresh_families db),
        audited RefreshFamilyRevoke session (with_families (revoke_where (store_epoch_micros now) p (refresh_families db)) db)).

Definition revoke_family (scope : StoreScope) (now : Z) (family_id grant_id : ScopedId) : RefreshTx bool := λ db,
  if bool_decide (id_scope family_id ≠ scope ∨ id_scope grant_id ≠ scope) then Err StoreNotFound
  else
    let now_micros := store_epoch_micros now in
    let p := λ id f, bool_decide (id = family_id) && bool_decide (fa_scope f = scope) in
    let families := revoke_where now_micros p (refresh_families db) in
    let grant := grant_in scope grant_id db in
    let grant_live := match grant with Some g => bool_decide (gr_revoked_at g = None) | None => false end in
    let grants' := match grant with
      | Some g => if grant_live then <[grant_id := {| gr_scope := gr_scope g; gr_session_ref := gr_session_ref g;
          gr_granted_resources := gr_granted_resources g; gr_org_id := gr_org_id g; gr_revoked_at := Some now_micros |}]> (grants db)
          else grants db
      | None => grants db
      end in
    let flipped := (0 <? revoked_count p (refresh_families db))%nat || grant_live in
    let db := mkRefreshDb families (refresh_tokens db) grants' (sessions db) (issued_tokens db) (opaque_access_tokens db)
                (metered db) (refresh_audit db) in
    Ok (flipped, if flipped then audited RefreshFamilyRevoke family_id db else db).

(** ** Rotation *)

(** [decide_rotate] of token.rs: the override of the client, its authentication method, the state
    [load] returned and the configured threshold. *)
Definition decide_rotate (refresh_rotation : option string) (auth_method : string) (threshold_percent : Z)
    (resolution : RefreshTokenResolution) (now_micros : Z) : bool :=
  let use_threshold :=
    if bool_decide (refresh_rotation = Some "always") then false
    else if bool_decide (refresh_rotation = Some "threshold") then true
    else bool_decide (auth_method ≠ "none") in
  if negb use_threshold then true
  else
    let span := i64_saturating_sub (rs_idle_expires_at resolution) (rs_issued_at resolution) in
    let percent := default 70 (i64_try_from threshold_percent) in
    let advance := Z.quot (i64_saturating_mul span percent) 100 in
    let threshold_instant := i64_saturating_add (rs_issued_at resolution) advance in
    threshold_instant <=? now_micros.

(** ** The refreshed access token *)

Inductive MintedAccessToken : Type :=
| MintedJwt (token : text) (jti : ScopedId)
| MintedOpaque (token digest : text) (jti : ScopedId) (audiences : list text) (expires_at : Z).

Definition refresh_access_records (minted : MintedAccessToken) (resolution : RefreshTokenResolution) (dpop_jkt : option string)
    : list (ScopedId * text) * option NewOpaqueAccessToken :=
  match minted with
  | MintedJwt _ jti => ([(jti, lit "access")], None)
  | MintedOpaque _ digest jti audiences expires_at =>
      ([], Some {| op_token_digest := digest; op_grant_id := None; op_subject := rs_subject resolution; op_client_id := rs_client_id resolution;
                   op_audience := default [] (head audiences); op_audiences := audiences; op_scope := rs_scope resolution; op_jti := jti;
                   op_expires_at := expires_at; op_dpop_jkt := dpop_jkt; op_cnf_x5t_s256 := None |})
  end.

(** ** Interleavings *)

(** The other transactions on these tables.  [other_cascade] are the revocations of a session,
    of a user and of a consent, [other_carry] the move of families to the session that succeeds
    theirs; [other_tables] is everything that leaves the two tables and their audit alone. *)
Inductive other_step : RefreshDb → RefreshDb → Prop :=
| other_issue scope now family out db db' : refresh_issue scope now family db = Ok (out, db') → other_step db db'
| other_revoke_session scope now session n db db' : revoke_session_bound scope now session db = Ok (n, db') → other_step db db'
| other_revoke_family scope now f g flipped db db' : revoke_family scope now f g db = Ok (flipped, db') → other_step db db'
| other_cascade now_micros p db : other_step db (with_families (revoke_where now_micros p (refresh_families db)) db)
| other_carry p successor db : other_step db
    (with_families ((λ f : FamilyRow, if p f && bool_decide (fa_revoked_at f = None) then
       {| fa_scope := fa_scope f; fa_grant_id := fa_grant_id f; fa_subject := fa_subject f; fa_client_id := fa_client_id f;
          fa_scope_value := fa_scope_value f; fa_auth_methods := fa_auth_methods f; fa_auth_time := fa_auth_time f;
          fa_session_ref := Some successor; fa_offline := fa_offline f; fa_created_at := fa_created_at f;
          fa_absolute_expires_at := fa_absolute_expires_at f; fa_dpop_jkt := fa_dpop_jkt f; fa_impersonation := fa_impersonation f;
          fa_revoked_at := fa_revoked_at f; fa_reuse_detected_at := fa_reuse_detected_at f |} else f) <$> refresh_families db) db)
| other_tables db gs ss its ots ms : other_step db
    (mkRefreshDb (refresh_families db) (refresh_tokens db) gs ss its ots ms (refresh_audit db)).

(** A redemption: not begun, between its parts, or answered. *)
Inductive RefreshThread : Type :=
| ThreadStart (scope : StoreScope) (redeem : RefreshRedeem)
| ThreadRead (scope : StoreScope) (now : Z) (redeem : RefreshRedeem) (row : RedeemRead)
| ThreadEnded (scope : StoreScope) (redeem : RefreshRedeem) (answer : Result RefreshRedeemOutcome StoreError).

Record RefreshPool : Type := mkRefreshPool { rp_threads : list RefreshThread; rp_db : RefreshDb }.

(** The commit with the faults its caller can see. *)
Definition with_fault {A} (fault : Fault) (r : Result (A * RefreshDb) StoreError) (db : RefreshDb) : Result A StoreError * RefreshDb :=
  match fault, r with
  | RolledBack e, _ => (Err e, db)
  | _, Err e => (Err e, db)
  | NoFault, Ok (a, db') => (Ok a, db')
  | LostAck e, Ok (_, db') => (Err e, db')
  end.

Section Pool.
Context `{!Sha2}.

Definition after_begin (scope : StoreScope) (now : Z) (redeem : RefreshRedeem) (r : Result (RefreshRedeemOutcome + RedeemRead) StoreError)
    : RefreshThread :=
  match r with
  | Err e => ThreadEnded scope redeem (Err e)
  | Ok (inl outcome) => ThreadEnded scope redeem (Ok outcome)
  | Ok (inr row) => ThreadRead scope now redeem row
  end.

Inductive refresh_step : RefreshPool → RefreshPool → Prop :=
| step_begin i ts db scope now redeem : ts !! i = Some (ThreadStart scope redeem) →
    refresh_step (mkRefreshPool ts db) (mkRefreshPool (<[i := after_begin scope now redeem (redeem_begin scope now redeem db)]> ts) db)
| step_unread i ts db scope redeem e : ts !! i = Some (ThreadStart scope redeem) →
    refresh_step (mkRefreshPool ts db) (mkRefreshPool (<[i := ThreadEnded scope redeem (Err e)]> ts) db)
| step_finish i ts db scope now redeem row fault answer db' : ts !! i = Some (ThreadRead scope now redeem row) →
    with_fault fault (redeem_finish scope now redeem row db) db = (answer, db') →
    refresh_step (mkRefreshPool ts db) (mkRefreshPool (<[i := ThreadEnded scope redeem answer]> ts) db')
| step_other ts db db' : other_step db db' → refresh_step (mkRefreshPool ts db) (mkRefreshPool ts db').

(** ** What a step does *)

Definition family_kept (f f' : FamilyRow) : Prop :=
  fa_scope f' = fa_scope f ∧ fa_reuse_detected_at f' = fa_reuse_detected_at f ∧ (is_Some (fa_revoked_at f) → is_Some (fa_revoked_at f')).

Definition unclaimed (t : TokenRow) (ts : token_table) : Prop :=
  ∀ k o, ts !! k = Some o → tk_scope o = tk_scope t → tk_jti o ≠ tk_jti t.

Inductive effect (db db' : RefreshDb) : Prop :=
| eff_keep l :
    refresh_tokens db' = refresh_tokens db → (∀ id, option_Forall2 family_kept (refresh_families db !! id) (refresh_families db' !! id)) →
    refresh_audit db' = refresh_audit db ++ l → Forall (λ a, a.1 ≠ RefreshTokenReuse) l → effect db db'
| eff_open f row d t :
    refresh_families db !! f = None → refresh_families db' = <[f := row]> (refresh_families db) → fa_reuse_detected_at row = None →
    fa_scope row = tk_scope t → id_scope f = fa_scope row → refresh_tokens db !! d = None → unclaimed t (refresh_tokens db) →
    refresh_tokens db' = <[d := t]> (refresh_tokens db) → tk_family_id t = f → tk_predecessor_jti t = None → tk_rotated_at t = None →
    tk_successor_jti t = None → refresh_audit db' = refresh_audit db ++ [(RefreshTokenIssue, f)] → effect db db'
| eff_rotate d t d' t' now_micros :
    refresh_tokens db !! d = Some t → tk_rotated_at t = None → refresh_families db' = refresh_families db →
    refresh_tokens db !! d' = None → unclaimed t' (refresh_tokens db) → tk_scope t' = tk_scope t → tk_family_id t' = tk_family_id t →
    tk_predecessor_jti t' = Some (tk_jti t) → tk_rotated_at t' = None → tk_successor_jti t' = None →
    refresh_tokens db' = <[d' := t']> (<[d := rotated_token now_micros (tk_jti t') t]> (refresh_tokens db)) →
    refresh_audit db' = refresh_audit db ++ [(RefreshTokenRotate, tk_family_id t)] → effect db db'
| eff_reuse f row now_micros :
    refresh_families db !! f = Some row → fa_revoked_at row = None →
    refresh_families db' = <[f := revoked_family now_micros true row]> (refresh_families db) → refresh_tokens db' = refresh_tokens db →
    refresh_audit db' = refresh_audit db ++ [(RefreshTokenReuse, f)] → effect db db'.

(** *** The chain of a family *)

Definition reuses (f : ScopedId) (l : list (RefreshAction * ScopedId)) : nat := length (filter (λ a, a = (RefreshTokenReuse, f)) l).

Record lineage_ok (db : RefreshDb) : Prop := {
  lo_scope f row : refresh_families db !! f = Some row → id_scope f = fa_scope row;
  lo_family d t : refresh_tokens db !! d = Some t → ∃ f, refresh_families db !! tk_family_id t = Some f ∧ fa_scope f = tk_scope t;
  lo_jti d d' t t' : refresh_tokens db !! d = Some t → refresh_tokens db !! d' = Some t' → tk_scope t = tk_scope t' → tk_jti t = tk_jti t' → d = d';
  lo_rotated d t : refresh_tokens db !! d = Some t → is_Some (tk_rotated_at t) ↔ is_Some (tk_successor_jti t);
  lo_successor d t s : refresh_tokens db !! d = Some t → tk_successor_jti t = Some s → ∃ d' t', refresh_tokens db !! d' = Some t' ∧
    tk_jti t' = s ∧ tk_family_id t' = tk_family_id t ∧ tk_predecessor_jti t' = Some (tk_jti t);
  lo_predecessor d t p : refresh_tokens db !! d = Some t → tk_predecessor_jti t = Some p → ∃ d' t', refresh_tokens db !! d' = Some t' ∧
    tk_jti t' = p ∧ tk_family_id t' = tk_family_id t ∧ tk_successor_jti t' = Some (tk_jti t);
  lo_root d d' t t' : refresh_tokens db !! d = Some t → refresh_tokens db !! d' = Some t' → tk_family_id t = tk_family_id t' →
    tk_predecessor_jti t = None → tk_predecessor_jti t' = None → d = d';
  lo_leaf f row : refresh_families db !! f = Some row → ∃ d t, refresh_tokens db !! d = Some t ∧ tk_family_id t = f ∧ tk_rotated_at t = None;
  lo_one_leaf d d' t t' : refresh_tokens db !! d = Some t → refresh_tokens db !! d' = Some t' → tk_family_id t = tk_family_id t' →
    tk_rotated_at t = None → tk_rotated_at t' = None → d = d';
  lo_reuse f row : refresh_families db !! f = Some row →
    reuses f (refresh_audit db) = (if bool_decide (is_Some (fa_reuse_detected_at row)) then 1 else 0)%nat ∧
    (is_Some (fa_reuse_detected_at row) → is_Some (fa_revoked_at row));
  lo_unreported f : refresh_families db !! f = None → reuses f (refresh_audit db) = 0%nat
}.

Lemma reuses_app f l l' : reuses f (l ++ l') = (reuses f l + reuses f l')%nat.
Proof. unfold reuses. by rewrite filter_app, length_app. Qed.

Lemma reuses_other f l : Forall (λ a, a.1 ≠ RefreshTokenReuse) l → reuses f l = 0%nat.
Proof.
  intros Hl. unfold reuses. induction Hl as [|a l Ha Hl IH]; [done|]. rewrite filter_cons_False; [done|].
  intros ->. by apply Ha.
Qed.

Lemma reuses_one f f' : reuses f [(RefreshTokenReuse, f')] = (if bool_decide (f = f') then 1 else 0)%nat.
Proof.
  unfold reuses. case_bool_decide as Hf; [subst; by rewrite filter_cons_True|]. rewrite filter_cons_False; [done|]. congruence.
Qed.

(** *** Effects preserve the chain *)

Lemma keep_lineage db db' l : refresh_tokens db' = refresh_tokens db →
  (∀ id, option_Forall2 family_kept (refresh_families db !! id) (refresh_families db' !! id)) →
  refresh_audit db' = refresh_audit db ++ l → Forall (λ a, a.1 ≠ RefreshTokenReuse) l → lineage_ok db → lineage_ok db'.
Proof.
  intros Ht Hf Ha Hl [Hscope Hfam Hjti Hrot Hsucc Hpred Hroot Hleaf Hone Hreuse Hun]. split; rewrite ?Ht; try done.
  - intros f row Hrow. pose proof (Hf f) as Hk. rewrite Hrow in Hk. inversion Hk as [f0 ? (Hs' & _) Hf0|]; subst. rewrite Hs'. by apply Hscope.
  - intros d t Hd. destruct (Hfam d t Hd) as (f & Hf1 & Hs). pose proof (Hf (tk_family_id t)) as Hk. rewrite Hf1 in Hk.
    inversion Hk as [? f' (Hs' & _)|]; subst. exists f'. split; [done|congruence].
  - intros f row Hrow. pose proof (Hf f) as Hk. rewrite Hrow in Hk. inversion Hk as [f0 ? _ Hf0|]; subst. eapply Hleaf. by symmetry.
  - intros f row Hrow. pose proof (Hf f) as Hk. rewrite Hrow in Hk. inversion Hk as [f0 ? (_ & Hr & Hv) Hf0|]; subst.
    symmetry in Hf0. destruct (Hreuse f f0 Hf0) as [Hc Hi]. rewrite Ha, reuses_app, (reuses_other f l Hl), Nat.add_0_r, Hr. auto.
  - intros f Hrow. pose proof (Hf f) as Hk. rewrite Hrow in Hk. inversion Hk as [|Hf0]. rewrite Ha, reuses_app, (reuses_other f l Hl), Nat.add_0_r.
    apply Hun. by symmetry.
Qed.

(** Cases of a lookup in a table after insertions. *)
Ltac split_lookups :=
  repeat match goal with H : <[_ := _]> _ !! _ = Some _ |- _ => apply lookup_insert_Some in H as [[<- <-]|[? H]] end.

Lemma open_lineage db db' f row d t : refresh_families db !! f = None → refresh_families db' = <[f := row]> (refresh_families db) →
  fa_reuse_detected_at row = None → fa_scope row = tk_scope t → id_scope f = fa_scope row → refresh_tokens db !! d = None → unclaimed t (refresh_tokens db) →
  refresh_tokens db' = <[d := t]> (refresh_tokens db) → tk_family_id t = f → tk_predecessor_jti t = None → tk_rotated_at t = None →
  tk_successor_jti t = None → refresh_audit db' = refresh_audit db ++ [(RefreshTokenIssue, f)] → lineage_ok db → lineage_ok db'.
Proof.
  intros Hf0 Hf Hrow Hscope Hid Hd0 Hclaim Ht Hfam Hp Hr Hs Ha [Lscope Lfam Ljti Lrot Lsucc Lpred Lroot Lleaf Lone Lreuse Lun].
  assert (∀ k o, refresh_tokens db !! k = Some o → tk_family_id o ≠ f) as Hnew.
  { intros k o Hk He. destruct (Lfam k o Hk) as (row' & Hrow' & _). congruence. }
  assert (∀ k, reuses k (refresh_audit db') = reuses k (refresh_audit db)) as Hcount.
  { intros k. rewrite Ha, reuses_app, (reuses_other k [_]); [lia|by repeat constructor]. }
  assert (∀ k o, refresh_tokens db !! k = Some o → <[d := t]> (refresh_tokens db) !! k = Some o) as Hold.
  { intros k o Hk. rewrite lookup_insert_ne; [done|congruence]. }
  split; rewrite ?Hf, ?Ht.
  - intros g r Hg. split_lookups; auto.
  - intros k o Hk. split_lookups; [exists row; by rewrite Hfam, lookup_insert_eq|]. destruct (Lfam k o Hk) as (r & Hr' & Hs').
    exists r. split; [|done]. rewrite lookup_insert_ne; [done|]. intros ->. by eapply Hnew.
  - intros k k' o o' Hk Hk' Hsc Hj. split_lookups; [done|exfalso; eapply Hclaim; eauto..|eauto].
  - intros k o Hk. split_lookups; [rewrite Hr, Hs; split; by intros [? ?]|eauto].
  - intros k o s Hk Hso. split_lookups; [congruence|]. destruct (Lsucc k o s Hk Hso) as (k2 & o2 & Hk2 & Ho2). eauto.
  - intros k o p Hk Hpo. split_lookups; [congruence|]. destruct (Lpred k o p Hk Hpo) as (k2 & o2 & Hk2 & Ho2). eauto.
  - intros k k' o o' Hk Hk' Hfo Hpo Hpo'. split_lookups; [done|exfalso; eapply Hnew; eauto; congruence..|eauto].
  - intros g r Hg. split_lookups; [exists d, t; by rewrite lookup_insert_eq|]. destruct (Lleaf g r Hg) as (k2 & o2 & Hk2 & Ho2). eauto.
  - intros k k' o o' Hk Hk' Hfo Hpo Hpo'. split_lookups; [done|exfalso; eapply Hnew; eauto; congruence..|eauto].
  - intros g r Hg. rewrite Hcount. split_lookups; [|auto]. rewrite Hrow. simpl. split; [auto|by intros [? ?]].
  - intros g [Hg _]%lookup_insert_None. rewrite Hcount. auto.
Qed.

Lemma rotate_lineage db db' d t d' t' now_micros : refresh_tokens db !! d = Some t → tk_rotated_at t = None →
  refresh_families db' = refresh_families db → refresh_tokens db !! d' = None → unclaimed t' (refresh_tokens db) → tk_scope t' = tk_scope t →
  tk_family_id t' = tk_family_id t → tk_predecessor_jti t' = Some (tk_jti t) → tk_rotated_at t' = None → tk_successor_jti t' = None →
  refresh_tokens db' = <[d' := t']> (<[d := rotated_token now_micros (tk_jti t') t]> (refresh_tokens db)) →
  refresh_audit db' = refresh_audit db ++ [(RefreshTokenRotate, tk_family_id t)] → lineage_ok db → lineage_ok db'.
Proof.
  intros Hd Hr Hf Hd' Hclaim Hsc Hfam Hp Hr' Hs' Ht Ha [Lscope Lfam Ljti Lrot Lsucc Lpred Lroot Lleaf Lone Lreuse Lun].
  assert (d ≠ d') as Hne by congruence.
  assert (∀ k, reuses k (refresh_audit db') = reuses k (refresh_audit db)) as Hcount.
  { intros k. rewrite Ha, reuses_app, (reuses_other k [_]); [lia|by repeat constructor]. }
  assert (∀ k o, refresh_tokens db !! k = Some o → tk_predecessor_jti o = Some (tk_jti t) → tk_family_id o = tk_family_id t → False) as Hnosucc.
  { intros k o Hk Ho Hfo. destruct (Lpred k o _ Hk Ho) as (k2 & o2 & Hk2 & Hj2 & Hf2 & Hs2).
    assert (k2 = d) as -> by (eapply Ljti; [exact Hk2|exact Hd| |done];
      destruct (Lfam k2 o2 Hk2) as (r1 & Hr1 & <-), (Lfam d t Hd) as (r2 & Hr2 & <-); congruence).
    assert (is_Some (tk_rotated_at t)) as [? ?] by (apply (Lrot d t Hd); exists (tk_jti o); congruence). congruence. }
  assert (∀ k o p, refresh_tokens db !! k = Some o → tk_predecessor_jti o = Some p → ∃ k2 o2,
    <[d' := t']> (<[d := rotated_token now_micros (tk_jti t') t]> (refresh_tokens db)) !! k2 = Some o2 ∧
    tk_jti o2 = p ∧ tk_family_id o2 = tk_family_id o ∧ tk_successor_jti o2 = Some (tk_jti o)) as Hkept.
  { intros k o p Hk Hpo. destruct (Lpred k o p Hk Hpo) as (k2 & o2 & Hk2 & Hj2 & Hf2 & Hs2). exists k2, o2.
    rewrite !lookup_insert_ne; [done| |congruence]. intros <-. assert (o2 = t) as -> by congruence.
    assert (is_Some (tk_rotated_at t)) as [? ?] by (apply (Lrot d t Hd); eauto). congruence. }
  split; rewrite ?Hf, ?Ht; try done.
  - intros k o Ho. split_lookups; simpl; [rewrite Hfam, Hsc; eauto|eauto..].
  - intros k k' o o' Ho Ho' Hs Hj. split_lookups; simpl in *; try done; try (by eapply Ljti; eauto);
      exfalso; eapply Hclaim; eauto; congruence.
  - intros k o Ho. split_lookups; simpl; [rewrite Hr', Hs'; split; by intros [? ?]|split; eauto|eauto].
  - intros k o s Ho Hs. split_lookups; simpl in *; [congruence| |].
    + injection Hs as <-. exists d', t'. by rewrite lookup_insert_eq.
    + edestruct (Lsucc k o s) as (k2 & o2 & Hk2 & Hj2 & Hf2 & Hp2); [done..|].
      destruct (decide (k2 = d)) as [->|Hk2d].
      * exists d, (rotated_token now_micros (tk_jti t') t). rewrite lookup_insert_ne, lookup_insert_eq by done. simpl. split; [done|].
        assert (o2 = t) as -> by congruence. done.
      * exists k2, o2. rewrite !lookup_insert_ne by congruence. done.
  - intros k o p Ho Hpo. split_lookups; simpl in *.
    + assert (p = tk_jti t) as -> by congruence. exists d, (rotated_token now_micros (tk_jti t') t).
      rewrite lookup_insert_ne, lookup_insert_eq by done. by simpl.
    + by apply (Hkept d t).
    + by apply (Hkept k o).
  - intros k k' o o' Ho Ho' Hfo Hpo Hpo'. split_lookups; simpl in *; try done; try congruence; eauto.
  - intros f row Hrow. destruct (Lleaf f row Hrow) as (k & o & Hk & Hfo & Hro). destruct (decide (k = d)) as [->|Hkd].
    + exists d', t'. rewrite lookup_insert_eq. split; [done|]. split; [|done]. assert (o = t) as -> by congruence. congruence.
    + exists k, o. rewrite !lookup_insert_ne by congruence. done.
  - intros k k' o o' Ho Ho' Hfo Hro Hro'. split_lookups; simpl in *; try done; try (by eapply Lone; eauto).
    + exfalso. assert (d = k) as <- by (eapply Lone; [exact Hd|exact Ho|congruence|done|done]). done.
    + exfalso. assert (d = k') as <- by (eapply Lone; [exact Hd|exact Ho'|congruence|done|done]). done.
  - intros f row Hrow. rewrite Hcount. auto.
  - intros f Hrow. rewrite Hcount. auto.
Qed.

Lemma reuse_lineage db db' f row now_micros : refresh_families db !! f = Some row → fa_revoked_at row = None →
  refresh_families db' = <[f := revoked_family now_micros true row]> (refresh_families db) → refresh_tokens db' = refresh_tokens db →
  refresh_audit db' = refresh_audit db ++ [(RefreshTokenReuse, f)] → lineage_ok db → lineage_ok db'.
Proof.
  intros Hrow Hrev Hf Ht Ha [Lscope Lfam Ljti Lrot Lsucc Lpred Lroot Lleaf Lone Lreuse Lun].
  split; rewrite ?Ht, ?Hf; try done.
  - intros g r Hg. split_lookups; [exact (Lscope f row Hrow)|auto].
  - intros d t Hd. destruct (Lfam d t Hd) as (r & Hr & Hs). destruct (decide (tk_family_id t = f)) as [Hft|Hft].
    + exists (revoked_family now_micros true row). rewrite Hft, lookup_insert_eq. split; [done|]. simpl. congruence.
    + exists r. by rewrite lookup_insert_ne.
  - intros k r Hr. split_lookups; [eapply Lleaf; eauto|eauto].
  - intros k r Hr. rewrite Ha, reuses_app, reuses_one. split_lookups.
    + destruct (Lreuse f row Hrow) as [Hc Hi]. rewrite bool_decide_eq_true_2 by done. simpl. split; [|done].
      rewrite Hc, bool_decide_eq_false_2; [done|]. intros Hsome. destruct (Hi Hsome). congruence.
    + rewrite (bool_decide_eq_false_2 (k = f)), Nat.add_0_r by congruence. auto.
  - intros k Hk. apply lookup_insert_None in Hk as [Hk Hne]. rewrite Ha, reuses_app, reuses_one, bool_decide_eq_false_2, Nat.add_0_r by congruence. auto.
Qed.

Lemma effect_lineage db db' : effect db db' → lineage_ok db → lineage_ok db'.
Proof. intros []; [by eapply keep_lineage|by eapply open_lineage|by eapply rotate_lineage|by eapply reuse_lineage]. Qed.

(** *** What stays *)

Definition token_kept (t t' : TokenRow) : Prop :=
  tk_scope t' = tk_scope t ∧ tk_jti t' = tk_jti t ∧ tk_family_id t' = tk_family_id t ∧ (is_Some (tk_rotated_at t) → is_Some (tk_rotated_at t')).

Lemma effect_token db db' d t : effect db db' → refresh_tokens db !! d = Some t → ∃ t', refresh_tokens db' !! d = Some t' ∧ token_kept t t'.
Proof.
  intros [l -> _ _ _|f row k o _ _ _ _ _ Hk _ -> _ _ _ _ _|k o k' o' n Hk _ _ Hk' _ _ _ _ _ _ -> _|f row n _ _ _ -> _] Hd;
    [by exists t| | |by exists t].
  - exists t. split; [|done]. rewrite lookup_insert_ne; [done|congruence].
  - rewrite lookup_insert_ne by congruence. destruct (decide (k = d)) as [->|Hne].
    + rewrite lookup_insert_eq. assert (o = t) as -> by congruence. eexists. split; [done|]. by split_and!.
    + rewrite lookup_insert_ne by done. by exists t.
Qed.

Lemma effect_family db db' f row : effect db db' → refresh_families db !! f = Some row →
  ∃ row', refresh_families db' !! f = Some row' ∧ fa_scope row' = fa_scope row ∧ (is_Some (fa_revoked_at row) → is_Some (fa_revoked_at row')).
Proof.
  intros [l _ Hf _ _|g r k o Hg -> _ _ _ _ _ _ _ _ _ _ _|k o k' o' n _ _ -> _ _ _ _ _ _ _ _ _|g r n Hg Hr -> _ _] Hrow; [| |by exists row|].
  - pose proof (Hf f) as Hk. rewrite Hrow in Hk. inversion Hk as [? row' (Hs & _ & Hv)|]; subst. by exists row'.
  - exists row. split; [|done]. rewrite lookup_insert_ne; [done|congruence].
  - destruct (decide (g = f)) as [->|Hne]; [rewrite lookup_insert_eq|rewrite lookup_insert_ne by done; by exists row].
    assert (r = row) as -> by congruence. by eexists.
Qed.

(** *** The transactions *)

Lemma keep_refl db db' l : refresh_tokens db' = refresh_tokens db → refresh_families db' = refresh_families db →
  refresh_audit db' = refresh_audit db ++ l → Forall (λ a, a.1 ≠ RefreshTokenReuse) l → effect db db'.
Proof.
  intros Ht Hf Ha Hl. apply (eff_keep db db' l); [done| |done..]. intros id. rewrite Hf.
  destruct (refresh_families db !! id); constructor. done.
Qed.

Lemma revoke_where_kept now_micros p (t : family_table) id : option_Forall2 family_kept (t !! id) (revoke_where now_micros p t !! id).
Proof.
  unfold revoke_where. rewrite map_lookup_imap. destruct (t !! id) as [f|]; simpl; constructor.
  case_match; [|done]. by split_and!.
Qed.

Lemma insert_token_inv digest row db db' : insert_token digest row db = Ok db' →
  refresh_tokens db !! digest = None ∧ unclaimed row (refresh_tokens db) ∧ db' = with_tokens (<[digest := row]> (refresh_tokens db)) db.
Proof.
  unfold insert_token. case_bool_decide as Hd; [done|]. case_bool_decide as Hj; [done|].
  destruct (family_in _ _ db); [|done]. intros [= <-]. split_and!; [by apply eq_None_not_Some| |done].
  intros k o Hk Hs He. apply Hj. by exists k, o.
Qed.

Lemma record_access_inv scope grant redeem db db' : record_refresh_access scope grant redeem db = Ok db' →
  refresh_tokens db' = refresh_tokens db ∧ refresh_families db' = refresh_families db ∧ refresh_audit db' = refresh_audit db.
Proof.
  unfold record_refresh_access. destruct (insert_issued _ _ _); [|done].
  destruct (match rq_opaque redeem with Some _ => _ | None => _ end); [|done]. by intros [= <-].
Qed.

Lemma issue_effect scope now family out db db' : refresh_issue scope now family db = Ok (out, db') → effect db db'.
Proof.
  assert (effect db db) as Hsame by (apply (keep_refl db db []); [done..|by rewrite app_nil_r|constructor]).
  unfold refresh_issue. case_bool_decide; [done|]. destruct (negb _ && negb _); [by intros [= _ <-]|].
  destruct (grant_in _ _ _) as [g|]; [|by intros [= _ <-]]. destruct (nf_offline family || _); [|by intros [= _ <-]].
  unfold insert_family. case_bool_decide as Hf; [done|]. destruct (insert_token _ _ _) as [db2|] eqn:Hi; [|done].
  intros [= _ <-]. apply insert_token_inv in Hi as (Hd & Hc & ->). simpl in *. apply eq_None_not_Some in Hf.
  refine (eff_open _ _ (nf_family_id family) _ (nf_token_digest family) _ Hf _ _ _ _ Hd Hc _ _ _ _ _ _); try reflexivity.
  by destruct (decide (id_scope (nf_family_id family) = scope)); [|naive_solver].
Qed.

Lemma other_effect db db' : other_step db db' → effect db db'.
Proof.
  intros [scope now family out ? ? Hi|scope now s n ? ? Hi|scope now f g flipped ? ? Hi|n p ?|p s ?|? gs ss its ots ms]; [by eapply issue_effect|..].
  - unfold revoke_session_bound in Hi. case_bool_decide; [done|]. injection Hi as _ <-.
    apply (eff_keep _ _ [(RefreshFamilyRevoke, s)]); [done|apply revoke_where_kept|done|by repeat constructor].
  - unfold revoke_family in Hi. case_bool_decide; [done|]. injection Hi as _ <-.
    destruct (_ || _); [apply (eff_keep _ _ [(RefreshFamilyRevoke, f)])|apply (eff_keep _ _ [])]; simpl; try done;
      try apply revoke_where_kept; [by repeat constructor|by rewrite app_nil_r].
  - apply (eff_keep _ _ []); simpl; [done|apply revoke_where_kept|by rewrite app_nil_r|constructor].
  - apply (eff_keep _ _ []); simpl; [done| |by rewrite app_nil_r|constructor]. intros id. rewrite lookup_fmap.
    destruct (refresh_families _ !! id) as [f|]; simpl; constructor. case_match; by split_and!.
  - apply (keep_refl _ _ []); simpl; [done..|by rewrite app_nil_r|constructor].
Qed.

(** What a thread has established about the database. *)
Definition refresh_thread_ok (db : RefreshDb) (th : RefreshThread) : Prop :=
  match th with
  | ThreadStart _ _ => True
  | ThreadRead scope now redeem row => ∃ t, refresh_tokens db !! refresh_token_digest (rq_presented_token redeem) = Some t ∧
      tk_scope t = scope ∧ tk_jti t = rd_jti row ∧ tk_family_id t = rd_family_id row
  | ThreadEnded scope redeem (Ok Rotated) => ∃ t, refresh_tokens db !! refresh_token_digest (rq_presented_token redeem) = Some t ∧
      is_Some (tk_rotated_at t)
  | ThreadEnded scope redeem (Ok Reused) => ∃ t f, refresh_tokens db !! refresh_token_digest (rq_presented_token redeem) = Some t ∧
      refresh_families db !! tk_family_id t = Some f ∧ is_Some (fa_revoked_at f)
  | ThreadEnded _ _ _ => True
  end.

Lemma refresh_thread_effect db db' th : effect db db' → refresh_thread_ok db th → refresh_thread_ok db' th.
Proof.
  intros He. destruct th as [|scope now redeem row|scope redeem [[]|]]; simpl; try done.
  - intros (t & Ht & Hs & Hj & Hf). destruct (effect_token _ _ _ _ He Ht) as (t' & Ht' & Hs' & Hj' & Hf' & _).
    exists t'. split_and!; [done|congruence..].
  - intros (t & Ht & Hr). destruct (effect_token _ _ _ _ He Ht) as (t' & Ht' & _ & _ & _ & Hr'). eauto.
  - intros (t & f & Ht & Hf & Hv). destruct (effect_token _ _ _ _ He Ht) as (t' & Ht' & _ & _ & Hf' & _).
    destruct (effect_family _ _ _ _ He Hf) as (f' & Hff & _ & Hv'). exists t', f'. rewrite Hf'. auto.
Qed.

Lemma classify_effect scope family grant r n grace redeem db out db' d t : lineage_ok db →
  refresh_tokens db !! d = Some t → tk_family_id t = family → tk_scope t = scope →
  classify_superseded scope family grant r n grace redeem db = Ok (out, db') →
  effect db db' ∧ refresh_tokens db' = refresh_tokens db ∧
  (out = RefreshedWithinGrace ∨ out = Reused ∧ ∃ f, refresh_families db' !! family = Some f ∧ is_Some (fa_revoked_at f)).
Proof.
  intros Hok Hd Hf Hs. unfold classify_superseded, in_scope. case_match.
  - destruct (record_refresh_access _ _ _ _) as [db2|] eqn:Hrec; [|done]. apply record_access_inv in Hrec as (Ht & Hfa & Ha).
    case_bool_decide; [|done]. intros [= <- <-]. split; [|by auto].
    apply (keep_refl _ _ [(TokenIssue, grant)]); [done..|by simpl; rewrite Ha|by repeat constructor].
  - destruct (lo_family _ Hok d t Hd) as (f & Hfam & Hsf). unfold family_in. rewrite <-Hf, Hfam. simpl.
    rewrite bool_decide_eq_true_2 by congruence. case_bool_decide as Hrev.
    + case_bool_decide; [|done]. intros [= <- <-]. simpl. split; [by eapply eff_reuse|]. split; [done|]. right. split; [done|].
      rewrite lookup_insert_eq. by eexists.
    + intros [= <- <-]. split; [apply (keep_refl _ _ []); [done..|by rewrite app_nil_r|constructor]|]. split; [done|]. right.
      split; [done|]. exists f. split; [done|]. destruct (fa_revoked_at f); [by eexists|done].
Qed.

Lemma rotate_effect scope family grant jti digest n grace redeem db out db' t : lineage_ok db → refresh_tokens db !! digest = Some t →
  tk_scope t = scope → tk_jti t = jti → tk_family_id t = family →
  redeem_live_leaf scope family jti grant digest n grace redeem db = Ok (out, db') →
  effect db db' ∧ (out = Rotated → tk_rotated_at t = None ∧ ∃ t', refresh_tokens db' !! digest = Some t' ∧ is_Some (tk_rotated_at t')) ∧
  (out = Reused → ∃ f, refresh_families db' !! family = Some f ∧ is_Some (fa_revoked_at f)).
Proof.
  intros Hok Hd Hs Hj Hf. unfold redeem_live_leaf. destruct (negb (rq_rotate redeem)).
  { unfold in_scope. destruct (record_refresh_access _ _ _ _) as [db2|] eqn:Hrec; [|done]. apply record_access_inv in Hrec as (Ht & Hfa & Ha).
    case_bool_decide; [|done]. intros [= <- <-]. split; [|done].
    apply (keep_refl _ _ [(TokenIssue, grant)]); [done..|by simpl; rewrite Ha|by repeat constructor]. }
  unfold token_in. rewrite Hd. simpl. rewrite bool_decide_eq_true_2 by done. destruct (tk_rotated_at t) as [r|] eqn:Hr.
  { intros Hc. destruct (classify_effect _ _ _ _ _ _ _ _ _ _ _ _ Hok Hd Hf Hs Hc) as (He & _ & Hout). split; [done|].
    split; [intros ->; by destruct Hout as [|[? _]]|intros ->; by destruct Hout as [|[_ ?]]]. }
  unfold insert_refresh_generation, in_scope. destruct (insert_token _ _ _) as [db1|] eqn:Hi; [|done]. apply insert_token_inv in Hi as (Hd' & Hc & ->).
  destruct (record_refresh_access _ _ _ _) as [db2|] eqn:Hrec; [|done]. apply record_access_inv in Hrec as (Ht & Hfa & Ha).
  case_bool_decide; [|done]. intros [= <- <-]. simpl in *. apply lookup_insert_None in Hd' as [Hd' Hne]. split.
  - eapply (eff_rotate db _ digest t (ro_token_digest (rq_successor redeem))
      {| tk_scope := scope; tk_family_id := family; tk_jti := ro_jti (rq_successor redeem); tk_generation := ro_generation (rq_successor redeem);
         tk_predecessor_jti := Some jti; tk_issued_at := n; tk_idle_expires_at := ro_idle_expires_at (rq_successor redeem);
         tk_rotated_at := None; tk_successor_jti := None |} n); simpl; try done; try congruence.
    intros k o Hk. destruct (decide (k = digest)) as [->|Hkd].
    + assert (o = t) as -> by congruence. exact (Hc digest _ (lookup_insert_eq _ _ _)).
    + apply (Hc k). by rewrite lookup_insert_ne.
  - split; [|done]. intros _. split; [done|]. simpl. rewrite Ht. rewrite lookup_insert_ne by congruence. rewrite lookup_insert_eq. by eexists.
Qed.

(** *** The pool *)

Definition rotated_by (ts : list RefreshThread) (i : nat) (digest : text) : Prop :=
  ∃ scope redeem, ts !! i = Some (ThreadEnded scope redeem (Ok Rotated)) ∧ refresh_token_digest (rq_presented_token redeem) = digest.

Definition rotations_distinct (ts : list RefreshThread) : Prop := ∀ i j digest, rotated_by ts i digest → rotated_by ts j digest → i = j.

Record refresh_pool_ok (p : RefreshPool) : Prop := {
  po_lineage : lineage_ok (rp_db p);
  po_threads : Forall (refresh_thread_ok (rp_db p)) (rp_threads p);
  po_rotations : rotations_distinct (rp_threads p) }.

Lemma with_fault_inv {A} fault (r : Result (A * RefreshDb) StoreError) db answer db' : with_fault fault r db = (answer, db') →
  (∃ e, answer = Err e) ∧ db' = db ∨ ∃ a, r = Ok (a, db') ∧ (answer = Ok a ∨ ∃ e, answer = Err e).
Proof. destruct fault, r as [[a d]|e']; intros [= <- <-]; eauto 10. Qed.

Lemma read_presented_ok scope digest n db row : read_presented scope digest n db = Some row →
  ∃ t f, refresh_tokens db !! digest = Some t ∧ tk_scope t = scope ∧ tk_jti t = rd_jti row ∧ tk_family_id t = rd_family_id row ∧
    refresh_families db !! tk_family_id t = Some f ∧ rd_family_live row = bool_decide (fa_revoked_at f = None).
Proof.
  unfold read_presented, token_in, family_in. destruct (refresh_tokens db !! digest) as [t|]; [|done]. simpl.
  case_bool_decide; [|done]. simpl. destruct (refresh_families db !! tk_family_id t) as [f|] eqn:Hf; [|done]. simpl.
  case_bool_decide; [|done]. simpl. destruct (grant_in _ _ _); [|done]. intros [= <-]. by exists t, f.
Qed.

(** A begun redemption has read its token; one that ends at once is invalid. *)
Lemma begin_ok scope now redeem db : refresh_thread_ok db (after_begin scope now redeem (redeem_begin scope now redeem db)) ∧
  ∀ s r o, after_begin scope now redeem (redeem_begin scope now redeem db) = ThreadEnded s r (Ok o) → o = RedeemInvalid.
Proof.
  unfold redeem_begin. destruct (negb _); [by split|]. destruct (read_presented _ _ _ _) as [row|] eqn:Hr; [|split; [done|by intros ? ? ? [= _ _ <-]]].
  repeat case_match; simplify_eq/=; (split; [|by intros ? ? ? [= _ _ <-]]); try done.
  apply read_presented_ok in Hr as (t & f & Ht & Hs & Hj & Hf & _). by exists t.
Qed.

(** The end of a redemption: its effect, and what its answer means. *)
Lemma finish_ok scope now redeem row fault db answer db' : lineage_ok db → refresh_thread_ok db (ThreadRead scope now redeem row) →
  with_fault fault (redeem_finish scope now redeem row db) db = (answer, db') →
  effect db db' ∧ refresh_thread_ok db' (ThreadEnded scope redeem answer) ∧
  (answer = Ok Rotated → ∃ t, refresh_tokens db !! refresh_token_digest (rq_presented_token redeem) = Some t ∧ tk_rotated_at t = None).
Proof.
  intros Hok (t & Ht & Hs & Hj & Hf) [[[e ->] ->]|(o & Hfin & Ha)]%with_fault_inv.
  { split; [|done]. apply (keep_refl _ _ []); [done..|by rewrite app_nil_r|constructor]. }
  assert (effect db db' ∧ (o = Rotated → tk_rotated_at t = None ∧ ∃ t', refresh_tokens db' !! refresh_token_digest (rq_presented_token redeem) = Some t' ∧
    is_Some (tk_rotated_at t')) ∧ (o = Reused → ∃ f, refresh_families db' !! rd_family_id row = Some f ∧ is_Some (fa_revoked_at f))) as (He & Hrot & Hre).
  { unfold redeem_finish in Hfin. destruct (rd_rotated_at row).
    - destruct (classify_effect _ _ _ _ _ _ _ _ _ _ _ _ Hok Ht Hf Hs Hfin) as (He & _ & Hout). split; [done|].
      split; [intros ->; by destruct Hout as [|[? _]]|intros ->; by destruct Hout as [|[_ ?]]].
    - eapply rotate_effect; eauto. }
  split; [done|]. destruct Ha as [->|[e ->]]; [|done]. split; [|intros [= ->]; destruct (Hrot eq_refl); eauto].
  destruct o; simpl; try done; [by destruct (Hrot eq_refl)|]. destruct (Hre eq_refl) as (f & Hff & Hv).
  destruct (effect_token _ _ _ _ He Ht) as (t' & Ht' & _ & _ & Hf' & _). exists t', f. split; [done|]. split; [congruence|done].
Qed.

Lemma rotations_insert ts i th : (i < length ts)%nat → rotations_distinct ts →
  (∀ scope redeem j, th = ThreadEnded scope redeem (Ok Rotated) → j ≠ i → ¬ rotated_by ts j (refresh_token_digest (rq_presented_token redeem))) →
  rotations_distinct (<[i := th]> ts).
Proof.
  intros Hi Hd Hnew j k digest (s & r & Hj & Hr) (s' & r' & Hk & Hr').
  destruct (decide (j = i)) as [->|Hji], (decide (k = i)) as [->|Hki]; [done|..].
  - rewrite list_lookup_insert_eq in Hj by lia. rewrite list_lookup_insert_ne in Hk by done. injection Hj as ->. subst digest.
    exfalso. eapply (Hnew s r k); [done..|]. by exists s', r'.
  - rewrite list_lookup_insert_ne in Hj by done. rewrite list_lookup_insert_eq in Hk by lia. injection Hk as ->. subst digest.
    exfalso. eapply (Hnew s' r' j); [done..|]. by exists s, r.
  - rewrite list_lookup_insert_ne in Hj, Hk by done. eapply Hd; [by exists s, r|by exists s', r'].
Qed.

Lemma step_pool_ok p p' : refresh_pool_ok p → refresh_step p p' → refresh_pool_ok p'.
Proof.
  intros Hp Hstep. destruct Hstep as [i ts db scope now redeem Hi|i ts db scope redeem e Hi|
    i ts db scope now redeem row fault answer db' Hi Hf|ts db db' Ho]; destruct Hp as [Hl Hth Hro]; simpl in *;
    try pose proof (lookup_lt_Some _ _ _ Hi) as Hlt.
  - destruct (begin_ok scope now redeem db) as [Hok Hend]. split; simpl; [done|by apply Forall_insert|].
    apply rotations_insert; [lia|done|]. intros s r j He _ _. by specialize (Hend _ _ _ He).
  - split; simpl; [done|by apply Forall_insert|]. by apply rotations_insert; [lia|..].
  - assert (refresh_thread_ok db (ThreadRead scope now redeem row)) as Hrd by (by eapply Forall_lookup_1).
    destruct (finish_ok _ _ _ _ _ _ _ _ Hl Hrd Hf) as (He & Hok & Hun). split; simpl; [by eapply effect_lineage| |].
    + apply Forall_insert; [|done]. eapply Forall_impl; [exact Hth|]. intros th. by apply refresh_thread_effect.
    + apply rotations_insert; [lia|done|]. intros s r j [= -> -> ->] _ (s' & r' & Hj & Hd). destruct (Hun eq_refl) as (t & Ht & Hr).
      pose proof (Forall_lookup_1 _ _ _ _ Hth Hj) as (t' & Ht' & [? Hr']). congruence.
  - pose proof (other_effect _ _ Ho) as He. split; simpl; [by eapply effect_lineage| |done].
    eapply Forall_impl; [exact Hth|]. intros th. by apply refresh_thread_effect.
Qed.

Lemma reachable_pool_ok p p' : refresh_pool_ok p → rtc refresh_step p p' → refresh_pool_ok p'.
Proof. intros Hp Hr. induction Hr; [done|]. eauto using step_pool_ok. Qed.

(** *** Loading and the rotation policy *)

(** What [load] reports as inactive, a redemption refuses without a trace. *)
Lemma inactive_is_invalid scope now redeem db r : refresh_load scope (rq_presented_token redeem) db = Ok (Some r) → rs_active r = false →
  redeem_in_scope scope redeem = true → refresh_redeem scope now redeem db = Ok (RedeemInvalid, db).
Proof.
  unfold refresh_load, refresh_redeem, redeem_begin, read_presented, in_scope. intros Hload Hact ->. simpl.
  destruct (token_in _ _ _) as [t|]; [|done]. simpl in *. destruct (family_in _ _ _) as [f|]; [|done]. simpl in *.
  destruct (grant_in _ _ _) as [g|]; [|done]. simpl in *. case_bool_decide; [|done]. case_bool_decide; [|done]. injection Hload as <-. simpl in *.
  by destruct (bool_decide (fa_revoked_at f = None)), (bool_decide (gr_revoked_at g = None)).
Qed.

(** A token that is due for rotation stays due. *)
Lemma decide_rotate_later override method percent r n n' : n ≤ n' → decide_rotate override method percent r n = true →
  decide_rotate override method percent r n' = true.
Proof. intros Hn. unfold decide_rotate. cbv zeta. case_match; [done|]. rewrite !Z.leb_le. lia. Qed.

(** *** The binding of a refreshed opaque token *)

Lemma record_access_opaque scope grant redeem db db' token : record_refresh_access scope grant redeem db = Ok db' → rq_opaque redeem = Some token →
  opaque_access_tokens db' !! op_token_digest token = Some (refreshed_opaque_row scope grant token).
Proof.
  unfold record_refresh_access. intros Hrec Hop. rewrite Hop in Hrec. destruct (insert_issued _ _ _); [|done]. case_bool_decide; [done|].
  injection Hrec as <-. simpl. apply lookup_insert_eq.
Qed.

Lemma classify_records scope family grant r n grace redeem db db' :
  classify_superseded scope family grant r n grace redeem db = Ok (RefreshedWithinGrace, db') →
  ∃ db2, record_refresh_access scope grant redeem db = Ok db2 ∧ opaque_access_tokens db' = opaque_access_tokens db2.
Proof.
  unfold classify_superseded, in_scope. case_match; [|repeat case_match; naive_solver].
  destruct (record_refresh_access _ _ _ _) as [db2|]; [|done]. case_bool_decide; [|done]. intros [= <-]. by exists db2.
Qed.

(** A redemption that is granted records its access token. *)
Lemma redeem_records scope now redeem db outcome db' : refresh_redeem scope now redeem db = Ok (outcome, db') →
  outcome ≠ RedeemInvalid → outcome ≠ Reused →
  ∃ grant db1 db2, record_refresh_access scope grant redeem db1 = Ok db2 ∧ opaque_access_tokens db' = opaque_access_tokens db2.
Proof.
  intros Hrun Hinv Hre.
  assert (∀ family grant r n grace db1, classify_superseded scope family grant r n grace redeem db1 = Ok (outcome, db') →
    ∃ grant db1 db2, record_refresh_access scope grant redeem db1 = Ok db2 ∧ opaque_access_tokens db' = opaque_access_tokens db2) as Hclass.
  { intros family grant r n grace db1 Hc. assert (outcome = RefreshedWithinGrace) as ->.
    { unfold classify_superseded in Hc. repeat case_match; naive_solver. }
    apply classify_records in Hc as (db2 & Hrec & Ho). eauto. }
  unfold refresh_redeem in Hrun. destruct (redeem_begin scope now redeem db) as [[o|row]|] eqn:Hb; [|clear Hb|done].
  { exfalso. unfold redeem_begin in Hb. repeat case_match; naive_solver. }
  unfold redeem_finish, redeem_live_leaf, in_scope in Hrun. destruct (rd_rotated_at row); [by eapply Hclass|]. destruct (negb (rq_rotate redeem)).
  - destruct (record_refresh_access _ _ _ _) as [db2|] eqn:Hrec; [|done]. case_bool_decide; [|done]. injection Hrun as <- <-. eauto.
  - destruct (token_in _ _ _) as [t|]; [|by eapply Hclass]. destruct (tk_rotated_at t); [by eapply Hclass|].
    destruct (insert_refresh_generation _ _ _ _ _ _) as [db1|]; [|done]. destruct (record_refresh_access _ _ _ _) as [db2|] eqn:Hrec; [|done].
    case_bool_decide; [|done]. injection Hrun as <- <-. eauto.
Qed.

(** An opaque access token minted for a family bound to a key is stored without the key, and a
    presentation of it as a bearer token, without any proof, is accepted. *)
Lemma refreshed_opaque_token_is_bearer `{JsonReader} `{!Primitives} `{!JsonWriter} `{!JoseEncoder} `{!KeyPairs}
    scope now redeem db outcome db' token digest jti audiences expires resolution jkt :
  (rq_access_records redeem, rq_opaque redeem) =
    refresh_access_records (MintedOpaque token digest jti audiences expires) resolution (Some jkt) →
  refresh_redeem scope now redeem db = Ok (outcome, db') → outcome ≠ RedeemInvalid → outcome ≠ Reused →
  ∃ row, opaque_access_tokens db' !! digest = Some row ∧ oa_dpop_jkt row = None ∧
    ∀ cfg nonces (t : gmap (StoreScope * string * string) Z) p, ps_expected_jkt p = oa_dpop_jkt row → ps_scheme p = SchemeBearer →
      verify_dpop_presentation cfg nonces t p = Returned (Ok (), nonces, t).
Proof.
  intros [= _ Hop] Hrun Hinv Hre. destruct (redeem_records _ _ _ _ _ _ Hrun Hinv Hre) as (grant & db1 & db2 & Hrec & ->).
  eexists. split; [exact (record_access_opaque _ _ _ _ _ _ Hrec Hop)|]. split; [done|]. intros cfg nonces t p Hp Hs.
  unfold verify_dpop_presentation. by rewrite Hp, Hs.
Qed.

(** *** A dead token *)

Definition dead (db : RefreshDb) (digest : text) : Prop := ∃ t f, refresh_tokens db !! digest = Some t ∧
  refresh_families db !! tk_family_id t = Some f ∧ is_Some (fa_revoked_at f).

Lemma dead_effect db db' digest : effect db db' → dead db digest → dead db' digest.
Proof.
  intros He (t & f & Ht & Hf & Hv). destruct (effect_token _ _ _ _ He Ht) as (t' & Ht' & _ & _ & Hf' & _).
  destruct (effect_family _ _ _ _ He Hf) as (f' & Hff & _ & Hv'). exists t', f'. rewrite Hf'. auto.
Qed.

(** A redemption that has not read its token, or was refused. *)
Definition redeem_refused (digest : text) (th : RefreshThread) : Prop :=
  match th with
  | ThreadStart _ redeem => refresh_token_digest (rq_presented_token redeem) = digest
  | ThreadRead _ _ _ _ => False
  | ThreadEnded _ _ answer => ∀ o, answer = Ok o → o = RedeemInvalid
  end.

Lemma begin_dead scope now redeem db digest : dead db digest → redeem_refused digest (ThreadStart scope redeem) →
  redeem_refused digest (after_begin scope now redeem (redeem_begin scope now redeem db)).
Proof.
  intros (t & f & Ht & Hf & Hv) Hd. simpl in Hd. unfold redeem_begin. destruct (negb _); [done|]. rewrite Hd.
  destruct (read_presented _ _ _ _) as [row|] eqn:Hr; [|by intros ? [= <-]].
  apply read_presented_ok in Hr as (t' & f' & Ht' & _ & _ & _ & Hf' & Hlive). assert (t' = t) as -> by congruence. assert (f' = f) as -> by congruence.
  rewrite Hlive, bool_decide_eq_false_2; [by intros ? [= <-]|]. destruct Hv as [? Hv]. congruence.
Qed.

Lemma step_effect p p' : refresh_pool_ok p → refresh_step p p' → effect (rp_db p) (rp_db p').
Proof.
  intros Hp Hstep. assert (∀ db, effect db db) as Hsame by (intros db; apply (keep_refl _ _ []); [done..|by rewrite app_nil_r|constructor]).
  destruct Hstep as [| |i ts db scope now redeem row fault answer db' Hi Hf|ts db db' Ho]; destruct Hp as [Hl Hth Hro]; simpl in *; [done..| |by apply other_effect].
  eapply finish_ok; [done| |exact Hf]. by eapply Forall_lookup_1 in Hth.
Qed.

Lemma dead_stays p p' i digest th : refresh_pool_ok p → dead (rp_db p) digest → rp_threads p !! i = Some th → redeem_refused digest th →
  rtc refresh_step p p' → ∃ th', rp_threads p' !! i = Some th' ∧ redeem_refused digest th'.
Proof.
  intros Hp Hd Hi Hr Hrun. revert th Hi Hr. induction Hrun as [p|p p1 p' Hstep Hrun IH]; intros th Hi Hr; [by exists th|].
  assert (∃ th1, rp_threads p1 !! i = Some th1 ∧ redeem_refused digest th1) as (th1 & Hi1 & Hr1).
  { destruct Hstep as [j ts db scope now redeem Hj|j ts db scope redeem e Hj|j ts db scope now redeem row fault answer db' Hj Hf|ts db db' Ho]; simpl in *;
      [destruct (decide (j = i)) as [->|Hne]; [rewrite list_lookup_insert_eq by (by eapply lookup_lt_Some)|rewrite list_lookup_insert_ne by done; by exists th]..|by exists th];
      rewrite Hi in Hj; injection Hj as ->; eexists; (split; [done|]); [by apply begin_dead|done|done]. }
  eapply IH; [by eapply step_pool_ok|by eapply dead_effect; [apply step_effect|]|done..].
Qed.

(** ** Theorems *)

(** Tables without families, and redemptions that have not begun. *)
Definition fresh_pool (p : RefreshPool) : Prop :=
  refresh_families (rp_db p) = ∅ ∧ refresh_tokens (rp_db p) = ∅ ∧ refresh_audit (rp_db p) = [] ∧
  Forall (λ th, match th with ThreadStart _ _ => True | _ => False end) (rp_threads p).

Lemma fresh_pool_ok p : fresh_pool p → refresh_pool_ok p.
Proof.
  intros (Hf & Ht & Ha & Hth). split.
  - split; rewrite ?Hf, ?Ht, ?Ha; intros; try done.
  - eapply Forall_impl; [exact Hth|]. by intros [].
  - intros i j d (s & r & Hi & _). by pose proof (Forall_lookup_1 _ _ _ _ Hth Hi).
Qed.

(** C17 (invariant): a family is one chain.  Whatever redemptions, openings and revocations interleave, and with
    any faults, a family that is not revoked has exactly one live leaf and a revoked one none;
    no two generations of a family have the same predecessor, so it never forks; and every
    superseded generation has its successor in the family. *)
Theorem family_is_one_chain p p' f row : fresh_pool p → rtc refresh_step p p' → refresh_families (rp_db p') !! f = Some row →
  live_leaf_count (fa_scope row) f (rp_db p') = Ok (if bool_decide (fa_revoked_at row = None) then 1 else 0)%nat ∧
  (∀ d d' t t', refresh_tokens (rp_db p') !! d = Some t → refresh_tokens (rp_db p') !! d' = Some t' → tk_family_id t = f → tk_family_id t' = f →
     tk_predecessor_jti t = tk_predecessor_jti t' → d = d') ∧
  (∀ d t, refresh_tokens (rp_db p') !! d = Some t → tk_family_id t = f → is_Some (tk_rotated_at t) →
     ∃ d' t', refresh_tokens (rp_db p') !! d' = Some t' ∧ tk_family_id t' = f ∧ tk_predecessor_jti t' = Some (tk_jti t) ∧
       tk_successor_jti t = Some (tk_jti t')).
Proof.
  intros Hfresh Hrun Hrow. pose proof (reachable_pool_ok _ _ (fresh_pool_ok _ Hfresh) Hrun) as [Hok _ _].
  set (db := rp_db p') in *. clearbody db. split_and!.
  - unfold live_leaf_count, family_in. rewrite (lo_scope _ Hok f row Hrow), bool_decide_eq_false_2 by (intros []; done). rewrite Hrow. simpl.
    rewrite (bool_decide_eq_true_2 (fa_scope row = fa_scope row)) by done. f_equal. case_bool_decide; [|done].
    destruct (lo_leaf _ Hok f row Hrow) as (d & t & Hd & Hf & Hr). rewrite <-(map_size_singleton d t). f_equal. apply map_eq. intros k.
    destruct (decide (k = d)) as [->|Hk].
    + rewrite lookup_singleton_eq. apply map_lookup_filter_Some. split; [done|]. simpl. split_and!; [done| |done].
      destruct (lo_family _ Hok d t Hd) as (row' & Hrow' & <-). congruence.
    + rewrite lookup_singleton_ne by done. apply map_lookup_filter_None. right. intros o Ho (Hfo & _ & Hro). simpl in *.
      apply Hk. eapply (lo_one_leaf _ Hok); [exact Ho|exact Hd|congruence|done|done].
  - intros d d' t t' Hd Hd' Hf Hf' Hp. destruct (tk_predecessor_jti t) as [q|] eqn:Hq; [|eapply (lo_root _ Hok); eauto; congruence].
    symmetry in Hp. destruct (lo_predecessor _ Hok d t q Hd Hq) as (k & o & Hk & Hj & Hfo & Hs).
    destruct (lo_predecessor _ Hok d' t' q Hd' Hp) as (k' & o' & Hk' & Hj' & Hfo' & Hs').
    assert (∀ e u, refresh_tokens db !! e = Some u → tk_family_id u = f → tk_scope u = fa_scope row) as Hscope.
    { intros e u He Hu. destruct (lo_family _ Hok e u He) as (r & Hr & <-). congruence. }
    assert (k = k') as <- by (eapply (lo_jti _ Hok); [exact Hk|exact Hk'| |congruence];
      by rewrite (Hscope k o Hk ltac:(congruence)), (Hscope k' o' Hk' ltac:(congruence))).
    eapply (lo_jti _ Hok); [exact Hd|exact Hd'| |congruence]. by rewrite (Hscope d t), (Hscope d' t').
  - intros d t Hd Hf Hr. apply (lo_rotated _ Hok d t Hd) in Hr as [s Hs]. destruct (lo_successor _ Hok d t s Hd Hs) as (d' & t' & Hd' & <- & Hf' & Hp).
    exists d', t'. split_and!; [done|congruence|done|done].
Qed.

(** C18 (safety): a token rotates at most once: of all the redemptions that present it, at any time and from
    any number of clients, at most one is answered with a successor. *)
Theorem token_rotates_once p p' i j scope scope' redeem redeem' : fresh_pool p → rtc refresh_step p p' →
  rp_threads p' !! i = Some (ThreadEnded scope redeem (Ok Rotated)) → rp_threads p' !! j = Some (ThreadEnded scope' redeem' (Ok Rotated)) →
  refresh_token_digest (rq_presented_token redeem) = refresh_token_digest (rq_presented_token redeem') → i = j.
Proof.
  intros Hfresh Hrun Hi Hj Hd. pose proof (reachable_pool_ok _ _ (fresh_pool_ok _ Hfresh) Hrun) as [_ _ Hro].
  eapply Hro; [by exists scope, redeem|by exists scope', redeem'].
Qed.

(** C19 (safety): a reuse ends the family.  A family is reported as reused at most once, and exactly when its
    reuse is recorded; a redemption answered as a reuse leaves the family of its token revoked; and once
    the family of a token is revoked, whatever the reason, every redemption of that token that had not
    read it before is refused as invalid, for ever. *)
Theorem reuse_ends_family p p' : fresh_pool p → rtc refresh_step p p' →
  (∀ f row, refresh_families (rp_db p') !! f = Some row →
     reuses f (refresh_audit (rp_db p')) = (if bool_decide (is_Some (fa_reuse_detected_at row)) then 1 else 0)%nat) ∧
  (∀ i scope redeem, rp_threads p' !! i = Some (ThreadEnded scope redeem (Ok Reused)) →
     dead (rp_db p') (refresh_token_digest (rq_presented_token redeem))) ∧
  (∀ i scope redeem p'' scope' redeem' o, dead (rp_db p') (refresh_token_digest (rq_presented_token redeem)) →
     rp_threads p' !! i = Some (ThreadStart scope redeem) → rtc refresh_step p' p'' →
     rp_threads p'' !! i = Some (ThreadEnded scope' redeem' (Ok o)) → o = RedeemInvalid).
Proof.
  intros Hfresh Hrun. pose proof (reachable_pool_ok _ _ (fresh_pool_ok _ Hfresh) Hrun) as Hok. split_and!.
  - intros f row Hrow. by apply (lo_reuse _ (po_lineage _ Hok)).
  - intros i scope redeem Hi. exact (Forall_lookup_1 _ _ _ _ (po_threads _ Hok) Hi).
  - intros i scope redeem p'' scope' redeem' o Hd Hi Hrun' Hi'.
    destruct (dead_stays p' p'' i _ _ Hok Hd Hi eq_refl Hrun') as (th & Hth & Href). rewrite Hi' in Hth. injection Hth as <-. by apply Href.
Qed.
End Pool.

(** ** Concrete runs *)

Module RefreshSamples.

#[local] Instance padded_digest : Sha2 := {| sha2_digest m := take 32 (m ++ replicate 32 0) |}.

(** What happens next: a part of a redemption, or another transaction. *)
Inductive PoolEvent : Type :=
| EvBegin (i : nat) (now : Z) | EvFinish (i : nat) (fault : Fault)
| EvIssue (scope : StoreScope) (now : Z) (family : NewRefreshFamily) | EvRevoke (scope : StoreScope) (now : Z) (family grant : ScopedId).

Definition play (p : RefreshPool) (ev : PoolEvent) : RefreshPool :=
  let ts := rp_threads p in
  let db := rp_db p in
  match ev with
  | EvBegin i now =>
      match ts !! i with
      | Some (ThreadStart scope redeem) => mkRefreshPool (<[i := after_begin scope now redeem (redeem_begin scope now redeem db)]> ts) db
      | _ => p
      end
  | EvFinish i fault =>
      match ts !! i with
      | Some (ThreadRead scope now redeem row) =>
          let r := with_fault fault (redeem_finish scope now redeem row db) db in mkRefreshPool (<[i := ThreadEnded scope redeem r.1]> ts) r.2
      | _ => p
      end
  | EvIssue scope now family => match refresh_issue scope now family db with Ok (_, db') => mkRefreshPool ts db' | Err _ => p end
  | EvRevoke scope now f g => match revoke_family scope now f g db with Ok (_, db') => mkRefreshPool ts db' | Err _ => p end
  end.

Lemma play_reaches evs p : rtc refresh_step p (foldl play p evs).
Proof.
  revert p. induction evs as [|ev evs IH]; intros p; simpl; [done|]. etrans; [|apply IH]. destruct p as [ts db]. destruct ev; simpl.
  - destruct (ts !! i) as [[]|] eqn:Hi; try done. by apply rtc_once, step_begin.
  - destruct (ts !! i) as [[|scope now redeem row|]|] eqn:Hi; try done. eapply rtc_once, step_finish; [done|]. apply surjective_pairing.
  - destruct (refresh_issue _ _ _ _) as [[out db']|] eqn:Hi; [|done]. by eapply rtc_once, step_other, other_issue.
  - destruct (revoke_family _ _ _ _ _) as [[out db']|] eqn:Hi; [|done]. by eapply rtc_once, step_other, other_revoke_family.
Qed.

Definition sample_scope : StoreScope := mkStoreScope (mkLevelId (lit "t")) (mkLevelId (lit "e")).
Definition sample_id (unique : string) : ScopedId := ScopedId_generate (lit unique) sample_scope.

Definition opened_family : NewRefreshFamily := {|
  nf_family_id := sample_id "f"; nf_token_jti := sample_id "j0"; nf_token_digest := refresh_token_digest (lit "r0"); nf_grant_id := sample_id "g";
  nf_subject := lit "alice"; nf_client_id := lit "app"; nf_scope := None; nf_auth_methods := []; nf_auth_time := None; nf_offline := true;
  nf_created_at := 0; nf_idle_expires_at := 1000000; nf_absolute_expires_at := 1000000; nf_dpop_jkt := None |}.

(** A redemption of a token, with the access token and the successor it would hand out. *)
Definition redeeming (presented successor : string) : RefreshThread := ThreadStart sample_scope {|
  rq_presented_token := lit presented; rq_rotate := true;
  rq_successor := {| ro_jti := sample_id successor; ro_token_digest := refresh_token_digest (lit successor); ro_generation := 1; ro_idle_expires_at := 1000000 |};
  rq_access_records := [(sample_id ("access " +:+ successor), lit "access")]; rq_opaque := None; rq_grace := 10000 |}.

Definition start_db : RefreshDb := mkRefreshDb ∅ ∅
  {[sample_id "g" := {| gr_scope := sample_scope; gr_session_ref := None; gr_granted_resources := []; gr_org_id := None; gr_revoked_at := None |}]}
  ∅ ∅ ∅ [] [].

(** Three clients present the first token and one the successor that wins. *)
Definition sample_pool : RefreshPool := mkRefreshPool [redeeming "r0" "r1"; redeeming "r0" "r2"; redeeming "r0" "r3"; redeeming "r2" "r4"] start_db.

Lemma start_pool_fresh : fresh_pool sample_pool.
Proof. repeat split; repeat constructor. Qed.

Definition redeem_answers (p : RefreshPool) : list (option (Result RefreshRedeemOutcome StoreError)) :=
  (λ th, match th with ThreadEnded _ _ answer => Some answer | _ => None end) <$> rp_threads p.

(** The first two read the token before either commits; the third comes after the grace window
    (ten microseconds), and the fourth after that. *)
Definition raced : list PoolEvent :=
  [EvIssue sample_scope 0 opened_family; EvBegin 0 1000; EvBegin 1 2000; EvFinish 1 NoFault; EvFinish 0 NoFault; EvBegin 2 20000].

Lemma raced_answers : redeem_answers (foldl play sample_pool (raced ++ [EvFinish 2 NoFault; EvBegin 3 21000])) =
  [Some (Ok RefreshedWithinGrace); Some (Ok Rotated); Some (Ok Reused); Some (Ok RedeemInvalid)].
Proof. vm_compute. reflexivity. Qed.

Definition raced_pool : RefreshPool := foldl play sample_pool (raced ++ [EvFinish 2 NoFault; EvBegin 3 21000]).

Definition leaf_count (p : RefreshPool) : Result nat StoreError := live_leaf_count sample_scope (sample_id "f") (rp_db p).

Lemma family_is_one_chain_witness : leaf_count (foldl play sample_pool raced) = Ok 1%nat ∧ leaf_count raced_pool = Ok 0%nat.
Proof.
  assert (∀ evs row, refresh_families (rp_db (foldl play sample_pool evs)) !! sample_id "f" = Some row → fa_scope row = sample_scope →
    leaf_count (foldl play sample_pool evs) = Ok (if bool_decide (fa_revoked_at row = None) then 1 else 0)%nat) as Hcount.
  { intros evs row Hrow Hs. unfold leaf_count. rewrite <-Hs.
    exact (proj1 (family_is_one_chain sample_pool _ (sample_id "f") row start_pool_fresh (play_reaches evs sample_pool) Hrow)). }
  split.
  - destruct (refresh_families (rp_db (foldl play sample_pool raced)) !! sample_id "f") as [row|] eqn:Hrow; [|by vm_compute in Hrow].
    rewrite (Hcount _ row Hrow); vm_compute in Hrow; injection Hrow as <-; reflexivity.
  - unfold raced_pool. set (evs := raced ++ _). destruct (refresh_families (rp_db (foldl play sample_pool evs)) !! sample_id "f") as [row|] eqn:Hrow;
      [|by vm_compute in Hrow]. rewrite (Hcount _ row Hrow); vm_compute in Hrow; injection Hrow as <-; reflexivity.
Defined.

Lemma token_rotates_once_witness : redeem_answers raced_pool !! 1%nat = Some (Some (Ok Rotated)) ∧
  ∀ i scope redeem, rp_threads raced_pool !! i = Some (ThreadEnded scope redeem (Ok Rotated)) → rq_presented_token redeem = lit "r0" → i = 1%nat.
Proof.
  split; [vm_compute; reflexivity|]. intros i scope redeem Hi Hp.
  destruct (rp_threads raced_pool !! 1%nat) as [th|] eqn:H1; [|by vm_compute in H1]. pose proof H1 as H2. vm_compute in H2. injection H2 as <-.
  refine (token_rotates_once sample_pool raced_pool i 1 scope _ redeem _ start_pool_fresh (play_reaches _ sample_pool) Hi H1 _). by rewrite Hp.
Defined.

Lemma reuse_ends_family_witness : reuses (sample_id "f") (refresh_audit (rp_db raced_pool)) = 1%nat ∧
  dead (rp_db raced_pool) (refresh_token_digest (lit "r0")).
Proof.
  destruct (reuse_ends_family sample_pool raced_pool start_pool_fresh (play_reaches _ sample_pool)) as (Hcount & Hdead & _). split.
  - destruct (refresh_families (rp_db raced_pool) !! sample_id "f") as [row|] eqn:Hrow; [|by vm_compute in Hrow].
    rewrite (Hcount _ row Hrow). vm_compute in Hrow. injection Hrow as <-. reflexivity.
  - destruct (rp_threads raced_pool !! 2%nat) as [th|] eqn:H2; [|by vm_compute in H2]. pose proof H2 as H3. vm_compute in H3. injection H3 as <-.
    exact (Hdead _ _ _ H2).
Defined.

(** A redemption that read its token before the family and its grant were revoked, and commits after, is answered
    with an access token and a successor: the checks of the first statement are not repeated. *)
Lemma minted_after_revocation :
  let p := foldl play sample_pool [EvIssue sample_scope 0 opened_family; EvBegin 0 1000; EvRevoke sample_scope 2000 (sample_id "f") (sample_id "g");
                                  EvFinish 0 NoFault] in
  head (redeem_answers p) = Some (Some (Ok Rotated)) ∧ refresh_audit (rp_db p) =
    [(RefreshTokenIssue, sample_id "f"); (RefreshFamilyRevoke, sample_id "f"); (RefreshTokenRotate, sample_id "f")] ∧
  is_Some (issued_tokens (rp_db p) !! sample_id "access r1").
Proof. vm_compute. split_and!; [done..|by eexists]. Qed.
End RefreshSamples.
